(* ===== verification/_CoqProject ===== *)
-Q . S2P
Prelude.v
Ballot.v
Messages.v
Persister.v
OmniPaxos.v
OmniPaxosInv.v
Cluster.v
Agreement.v
AgreementSteps.v
Safety.v
ClusterThms.v
Commit.v
Anomalies.v
Service.v
GoString.v
KVPaxos.v
ShardCtrler.v
ShardCtrlerInv.v
ShardCtrlerThms.v
ShardKV.v
ShardKVInv.v
ShardWorld.v
ShardKVThms.v
ShardKVSpec.v
ShardCatchUp.v
ShardAhead.v
Labgob.v
Labrpc.v
RpcWorld.v
Future.v
FutureThms.v
Naive.v
Harness.v
Tester.v
TesterLinks.v
TesterWorld.v
TesterOne.v
TesterChecks.v
KVHarness.v
KVHarnessThms.v
ShardHarness.v
ShardHarnessThms.v
Slices.v
SliceLogs.v
PeersNet.v
PeersNetThms.v
