(* ===== verification/Prelude.v ===== *)
(** * OmniPaxos-KV: a verification library

    The repository builds, from a replicated log, a key/value service, and from
    several such groups a sharded one: OmniPaxos peers (a2-omnipaxos), the
    key/value service on one group (a3-kvpaxos), the shard controller and the
    shard servers (a3b-sharding), over a simulated network (labrpc) and an
    encoder (labgob); a1-futures is a small library of its own.  Each of the
    four services has a harness (config.go) that starts, stops, connects and
    checks its servers.

    ** The files and the code they model

    Every Go struct is a record, every enumeration of strings an inductive type
    or string constants, and every function or handler a definition with the
    name it has in the source (prefixed where two packages use one name).  A
    handler that runs under the object's mutex is one function from the state
    before to the state after and its effects; [None] (or [Panic]) is a run-time
    panic.  Integers are [Z], wrapped to 64 bits ([wrap64]) where the code does
    arithmetic that may grow without bound.

    - Prelude.v: machine integers, slices, quorums, lists, automation.
    - Ballot.v, Messages.v, OmniPaxos.v: a2-omnipaxos/omnipaxos.go.  [OmniPaxos]
      is the struct; [PrepareHandler], [PromiseHandler], [AcceptSyncHandler],
      [AcceptHandler], [AcceptedHandler], [DecideHandler], the heartbeats, the
      body of [startTimer], [Proposal], [Make] are its operations.  A [Call] and
      a send on [applyCh] are effects.  Persister.v is persister.go, and
      [StateCodec] what the peer relies on of encoding/gob.
    - OmniPaxosInv.v: what each handler does to one peer.
    - Cluster.v: the peers of a group and the calls in flight; [step] delivers,
      loses, fires a timer, proposes, or crashes and restarts a peer.
    - Agreement.v, AgreementSteps.v, Safety.v: the agreement invariant, one lemma
      for each critical section, and the theorems.  ClusterThms.v: what holds
      without any assumption on the order of deliveries.  Commit.v: progress.
      Anomalies.v: schedules on which the log misbehaves.
    - Service.v: the class [Service] a replicated state machine implements, and
      the agreement of its replicas; the bookkeeping of request numbers.
    - GoString.v, KVPaxos.v: strconv and strings as the services use them;
      a3-kvpaxos/server.go, client.go, common.go.
    - ShardCtrler.v, ShardCtrlerInv.v, ShardCtrlerThms.v: a3b-sharding/shardctrler.
    - ShardKV.v, ShardKVInv.v: a3b-sharding/shardkv (server.go, apply.go, reconf.go,
      client.go, common.go), and what each operation does.  ShardWorld.v: the
      controller's history and the logs of all groups growing together.
      ShardKVThms.v: the theorems across groups.  ShardKVSpec.v: the abstract
      specification of the client operations and its refinement.  ShardCatchUp.v:
      a round of [catchUp].  ShardAhead.v: a run on which a change that was made
      too far ahead takes effect.
    - Labgob.v: labgob/labgob.go.  Labrpc.v, RpcWorld.v: labrpc/labrpc.go, the
      tables and the routing, then the calls in flight as a state machine.
    - Future.v, FutureThms.v: a1-futures/future.go.  Naive.v: the demonstration
      program of a1-futures/naive, its goroutines and [main] as a step relation.
    - Slices.v, SliceLogs.v: [os.Log] as a Go slice, over a heap of arrays that
      slices share: what [suffix], [prefix] and [append] do to the arrays, and
      what each handler of omnipaxos.go does to the log's slice.
    - PeersNet.v, PeersNetThms.v: the peers of OmniPaxos.v as programs on the
      network of RpcWorld.v: a request leaves a goroutine as a [Call], goes
      through an end, a server, a service and a method, and starts a goroutine
      there; [RpcCodec] is what the peers rely on of labgob.  Peers are crashed
      and started again with new ends and a new server, and old instances run on.
      The run is simulated by Cluster.v.
    - Harness.v: what the config.go files share: ends and their names, slices
      written by index, a run that passes, fails the test or panics.
      Tester.v: a2-omnipaxos/config.go, the record [config] and its operations.
      TesterLinks.v: attaching and detaching as a matrix of links.
      TesterWorld.v: the tester next to the cluster of Cluster.v.  TesterOne.v:
      [one].  TesterChecks.v: what [checkOneLeader] and [apply] answer.
    - KVHarness.v, KVHarnessThms.v: a3-kvpaxos/config.go over an interface
      [Tested] of what it uses of a server, and shardctrler/config.go, which is
      nearly the same file.  ShardHarness.v, ShardHarnessThms.v:
      shardkv/config.go, groups of servers over one network.

    ** What the theorems show

    - The log: agreement, comparable decided prefixes and leader completeness for
      every ordered schedule of an odd number of peers ([agreement],
      [decided_prefixes_comparable], [leader_completeness]), no panic after such a
      schedule ([ordered_no_panic]); for every schedule, the shape of peers and
      messages, one leader for a round, the monotonicity of what a peer promised
      and decided, and what a restart restores ([peers_wellformed],
      [one_leader_per_round], [peer_advances], [restart_restores]); a proposal is
      decided once a majority is in step with its leader ([proposal_decided]).
    - The services: each request takes effect once, replicas agree, reads see the
      log ([exactly_once], [kv_replicas_agree], [get_reads_log], [sc_exactly_once],
      [sc_replicas_agree], [sk_replicas_agree]); a shard server refines an
      abstract map ([client_operations_refine]).
    - The controller: rebalancing terminates and evens out ([join_balances],
      [leave_keeps], [history_grows], [command_returns]).
    - Across groups: one owner at a time, at most one execution of a write, and
      the data moves with its shard ([one_group_serves], [executed_at_most_once],
      [change_carries], [configuration_steps], [delete_spares_owned]).
    - Refinements of representations: the log as a slice over shared arrays is
      the list of the model ([slices_hold_logs]); the peers over labrpc are a
      cluster, whatever the network does to the calls and however often peers are
      crashed and started ([peers_over_labrpc]), so agreement holds of them
      ([labrpc_agreement]).
    - The harnesses: the tester of a2-omnipaxos never objects to an ordered run
      whose appliers stop when they are told to ([tester_never_objects]), what [one] returns has been applied
      ([one_agrees]), the ends that are on are the links of a matrix
      ([links_refine]), a server is restarted from what it had persisted
      ([restart_from_persisted]), a partition cuts off the leader
      ([partition_isolates_leader]), and the sharded harness runs with groups of
      three only ([groups_of_three]).
    - The libraries: a call runs at most once and a deleted server is silent
      ([call_at_most_once], [deleted_server_silent]); the type walk is
      reachability ([checkType_reachable]); [Wait] returns, what it returns, and
      what it leaks ([wait_returns], [wait_result], [wait_leaks]); what the
      demonstration prints ([naive_prints], [naive_progress]).
    - Where the code does not do what it means to, a concrete run shows it:
      [lost_accept_breaks_agreement], [late_accept_breaks_agreement],
      [late_promise_breaks_agreement], [own_promise_duplicates], [premature_ack],
      [stale_delete_loses_shard], [change_ahead_executes_twice],
      [empty_join_diverges], [retried_query_empty], [pending_suffix_overwritten],
      [checkOneLeader_objects], [late_applier_fails_test]; and a round of [catchUp]
      gets no further than one configuration ([catchUp_one_configuration]).

    ** Assumptions, bounds and fuel

    - In an ordered schedule ([ordered] of Agreement.v) each [Accept] that a peer
      acts on has exactly the index after its last entry, and each [AcceptSync]
      that it acts on starts inside its log and, within a round, does not leave
      it shorter.  The code does not check this: [lost_accept_breaks_agreement]
      has an [Accept] that comes too early, [late_accept_breaks_agreement] one
      that comes too late, [late_promise_breaks_agreement] an [AcceptSync] that
      does not fit, and each run breaks agreement.  [proposal_decided] builds
      ordered schedules.
    - Agreement needs an odd number of peers: [quorum] is half of an even one.
    - [kept_assigned] (ShardWorld.v) says that a shard that was assigned to a
      group stays assigned to some group; a controller from which the last group
      leaves violates it, and then no group keeps the shard.
    - In ShardWorld.v a change operation enters a group's log when [getChangeOp]
      made it, for any configuration there is, at a server at a prefix of that
      log; a server of another group answers from any prefix of its own log.
      The theorems across groups are about [stepwise] worlds, in which a change
      that was made for another configuration than the one after its server's
      has no effect when it is logged.  The code does not see to that: on
      [change_ahead_executes_twice] two groups serve a shard.
    - [catchUp_one_configuration] says of a round in which each turn applies no
      other change than its own ([alone]) that it gets one configuration
      further; what [propose] answers is open.
    - [StateCodec] and the codecs of Labgob.v and Future.v are hypotheses on
      encoding/gob and encoding/json; each has a concrete instance.
    - [balance] (ShardCtrler.v) takes fuel for its recursion and answers [Again]
      when it runs out: [join_balances] and [command_returns] give an amount
      above which the result is the same, and [empty_join_diverges] an input on
      which none is enough.  [checkType] (Labgob.v) takes fuel for the depth;
      one more than the number of unmarked types is enough, as
      [checkType_reachable] proves.  [digits] prints with 20 digits of fuel,
      enough for 64 bits.  The retry loops of the clerks recurse on the list of
      outcomes of their calls.
    - Slices.v takes how far [append] grows an array as an argument [grow]; the
      theorems assume that it is at least the length needed.
    - The harnesses take the names that [randstring] draws as a function of the
      server and of how often it was started, and the theorems that distinct
      draws are distinct; the tables of labrpc name a server by [Itoa] of its
      index.  The counters of the statistics are not wrapped there.  A step of
      TesterWorld.v that is impossible is skipped.  An instance that was killed
      leaves the model there, and [peers_over_labrpc] shows that no peer receives
      anything from it any more; its applier stays, with the messages that it has
      not read.  [TLate] hands it one of them, and [prompt] is the assumption
      that this does not happen ([late_applier_fails_test] when it does).
    - In PeersNet.v the [ApplyMsg]s that a killed instance still sends are kept
      apart ([nw_late]) from those of the running ones ([nw_hist]): nothing is
      proved of what they carry.
    - In PeersNet.v a peer is crashed in one step once its ends are off and its
      server is gone, as [crash1] arranges before it copies the persister; an end
      is switched on only while its owner runs.  [NCall] moves a request to the
      network at any time, so requests of one peer are reordered freely; the lock
      that a handler holds while it waits for its own [Call] is not held in the
      model, which only adds interleavings.

    ** What is not modelled

    - Aliasing outside SliceLogs.v: in OmniPaxos.v and the files above it a
      suffix handed to the goroutine of a [Call] is a value.
      [pending_suffix_overwritten] is a run on which that differs from the code.
    - A crash inside a critical section, and a full [applyCh].
    - Real time: timers fire when the schedule says so, the waiting loops see a
      list of the states of the server, and draws of the random source are the
      schedule's.
    - Data races: the reads without a lock that the source has are atomic here.
    - The unbuffered send under the lock of the controller's apply loop, which
      can block it.
    - The bytes of encoding/gob, and the process-wide count of calls of labrpc
      that only triggers a message.
    - Logging (the two util.go files, which only format and print, and
      [DPrintf]), the test functions and the benchmark (the _test.go files, which
      call the harnesses and measure time), [makeSeed], and [encodeSnapshot] and
      [decodeSnapshot], which nothing calls. *)
From stdpp Require Export base tactics option list list_numbers numbers gmap strings countable.
From stdpp Require Export fin_maps fin_map_dom sorting.
From Stdlib Require Export Lia ZArith.

Declare Scope go_scope.
Delimit Scope go_scope with go.
#[global] Open Scope Z_scope.

(** ** Machine integers

    Go's [int] and [int64] are 64-bit two's complement on the platforms the
    program targets; values are kept as [Z] and arithmetic that can grow
    without bound is wrapped explicitly. *)
Definition wrap64 (z : Z) : Z := (z + 2 ^ 63) mod 2 ^ 64 - 2 ^ 63.
Definition in64 (z : Z) : Prop := - 2 ^ 63 ≤ z < 2 ^ 63.
#[export] Instance in64_dec z : Decision (in64 z).
Proof. unfold in64. apply _. Defined.

(** ** Slices

    [len] is Go's [len]; indexing and slicing outside the bounds is a run-time
    panic, [None].  The code never slices past the length, so the capacity of a
    slice only matters to Slices.v, which has it. *)
Abbreviation len l := (Z.of_nat (length l)).

Section slices.
Context {A : Type}.

Definition go_index (l : list A) (i : Z) : option A :=
  if decide (0 ≤ i) then l !! Z.to_nat i else None.

Definition go_set (l : list A) (i : Z) (x : A) : option (list A) :=
  if decide (0 ≤ i < len l) then Some (<[Z.to_nat i := x]> l) else None.

Definition go_from (l : list A) (i : Z) : option (list A) :=
  if decide (0 ≤ i ≤ len l) then Some (drop (Z.to_nat i) l) else None.

Definition go_to (l : list A) (i : Z) : option (list A) :=
  if decide (0 ≤ i ≤ len l) then Some (take (Z.to_nat i) l) else None.
End slices.

(** The quorum size the code uses everywhere, [(len(op.peers)+1)/2]. *)
Definition quorum (n : nat) : nat := ((n + 1) / 2)%nat.

(** ** Lemmas on integers *)
Lemma wrap64_id z : in64 z → wrap64 z = z.
Proof. unfold in64, wrap64. intros. rewrite Z.mod_small; lia. Qed.

Lemma wrap64_add a b : wrap64 (wrap64 a + b) = wrap64 (a + b).
Proof.
  unfold wrap64. replace ((a + 2 ^ 63) mod 2 ^ 64 - 2 ^ 63 + b + 2 ^ 63) with ((a + 2 ^ 63) mod 2 ^ 64 + b) by lia.
  rewrite Zplus_mod_idemp_l. do 2 f_equal. lia.
Qed.

Lemma wrap64_range z : in64 (wrap64 z).
Proof.
  unfold in64, wrap64.
  pose proof (Z.mod_pos_bound (z + 2 ^ 63) (2 ^ 64)). lia.
Qed.

Lemma not_or_1 (P Q : Prop) : ¬ (P ∨ Q) → ¬ P ∧ ¬ Q.
Proof. tauto. Qed.

(** ** Lemmas on slices *)
Section slice_lemmas.
Context {A : Type}.
Implicit Types l : list A.

Lemma go_index_Some l i : 0 ≤ i < len l → is_Some (go_index l i).
Proof.
  intros. unfold go_index. rewrite decide_True by lia.
  apply lookup_lt_is_Some. lia.
Qed.

Lemma go_index_lookup l i x :
  go_index l i = Some x ↔ 0 ≤ i ∧ l !! Z.to_nat i = Some x.
Proof. unfold go_index. case_decide; naive_solver. Qed.

Lemma go_index_nat l (i : nat) : go_index l (Z.of_nat i) = l !! i.
Proof. unfold go_index. rewrite decide_True by lia. by rewrite Nat2Z.id. Qed.

Lemma go_set_Some l i x : 0 ≤ i < len l → go_set l i x = Some (<[Z.to_nat i := x]> l).
Proof. intros. unfold go_set. by rewrite decide_True. Qed.

Lemma go_set_inv l l' i x :
  go_set l i x = Some l' → 0 ≤ i < len l ∧ l' = <[Z.to_nat i := x]> l.
Proof. unfold go_set. case_decide; naive_solver. Qed.

Lemma go_from_Some l i : 0 ≤ i ≤ len l → go_from l i = Some (drop (Z.to_nat i) l).
Proof. intros. unfold go_from. by rewrite decide_True. Qed.

Lemma go_to_Some l i : 0 ≤ i ≤ len l → go_to l i = Some (take (Z.to_nat i) l).
Proof. intros. unfold go_to. by rewrite decide_True. Qed.

Lemma prefix_take_drop l k : l = take k l ++ drop k l.
Proof. by rewrite take_drop. Qed.

(** Two prefixes of the same list are comparable; the shorter one is a
    prefix of the longer one. *)
Lemma prefix_comparable (l l1 l2 : list A) :
  l1 `prefix_of` l → l2 `prefix_of` l → (length l1 ≤ length l2)%nat → l1 `prefix_of` l2.
Proof.
  intros [k1 ->] [k2 Hk] Hlen.
  assert (l2 = take (length l2) (l1 ++ k1)) as ->.
  { rewrite Hk. by rewrite take_app_length. }
  rewrite take_app. exists (take (length l2 - length l1) k1).
  f_equal. apply take_ge. lia.
Qed.

Lemma prefix_take l k : take k l `prefix_of` l.
Proof. exists (drop k l). by rewrite take_drop. Qed.

Lemma prefix_take_le l j k : (j ≤ k)%nat → take j l `prefix_of` take k l.
Proof. intros. replace j with (j `min` k)%nat by lia. rewrite <-take_take. apply prefix_take. Qed.

Lemma prefix_eq_take (l1 l2 : list A) : l1 `prefix_of` l2 → l1 = take (length l1) l2.
Proof. intros [k ->]. by rewrite take_app_length. Qed.

Lemma prefix_same_length (l1 l2 : list A) :
  l1 `prefix_of` l2 → (length l2 ≤ length l1)%nat → l1 = l2.
Proof.
  intros [k ->] Hlen. rewrite length_app in Hlen.
  destruct k; [by rewrite app_nil_r | simpl in Hlen; lia].
Qed.

(** A prefix of a list that grew by one entry. *)
Lemma prefix_snoc_inv (l1 l2 : list A) x : l1 `prefix_of` l2 ++ [x] → l1 `prefix_of` l2 ∨ l1 = l2 ++ [x].
Proof.
  intros [k Hk]. destruct k as [|y k _] using rev_ind; [right; by rewrite app_nil_r in Hk|].
  rewrite (assoc_L (++)) in Hk. apply app_inj_tail in Hk as [-> _]. left. by eexists.
Qed.

Lemma prefix_lookup_Some' (l1 l2 : list A) i x :
  l1 `prefix_of` l2 → l1 !! i = Some x → l2 !! i = Some x.
Proof. intros [k ->] ?. by apply lookup_app_l_Some. Qed.

Lemma filter_all (P : A → Prop) `{∀ x, Decision (P x)} l : (∀ x, x ∈ l → P x) → filter P l = l.
Proof.
  induction l as [|x l IH]; intros Hl; [done|].
  rewrite filter_cons_True by (apply Hl; by left). f_equal. apply IH. intros y Hy. apply Hl. by right.
Qed.

(** The positions of the entries a filter keeps. *)
Lemma filter_indices (P : A → Prop) `{∀ x, Decision (P x)} l :
  ∃ js : list nat, NoDup js ∧ length js = length (filter P l) ∧
    ∀ j, j ∈ js → ∃ x, l !! j = Some x ∧ P x.
Proof.
  induction l as [|x l (js & Hnd & Hlen & Hall)].
  { exists []. split_and!; [constructor|done|]. intros j Hj. by apply not_elem_of_nil in Hj. }
  assert (∀ j, j ∈ S <$> js → ∃ y, (x :: l) !! j = Some y ∧ P y) as Hall'.
  { intros j (k & -> & Hk)%list_elem_of_fmap. by apply Hall. }
  assert (NoDup (S <$> js)) by (apply NoDup_fmap_2; [intros ??; lia|done]).
  rewrite filter_cons. case_decide as HP.
  - exists (0%nat :: (S <$> js)). split_and!.
    + constructor; [|done]. intros (k & Hk & _)%list_elem_of_fmap. discriminate.
    + simpl. by rewrite length_fmap, Hlen.
    + intros j [->|Hj]%elem_of_cons; [by exists x|by apply Hall'].
  - exists (S <$> js). split_and!; [done|by rewrite length_fmap|done].
Qed.
End slice_lemmas.

(** Distinct positions of entries that a filter keeps. *)
Lemma filter_length_positions {A} (P : A → Prop) `{∀ x, Decision (P x)} (l : list A) (ks : list nat) :
  NoDup ks → (∀ k, k ∈ ks → ∃ x, l !! k = Some x ∧ P x) → (length ks ≤ length (filter P l))%nat.
Proof.
  revert ks. induction l as [|x l IH]; intros ks Hnd Hks.
  { destruct ks as [|k ks]; [done|]. destruct (Hks k) as (? & ? & _); [left|done]. }
  assert (NoDup (filter (λ k, k ≠ 0)%nat ks)) as Hnd' by by apply NoDup_filter.
  assert (length (pred <$> filter (λ k, k ≠ 0)%nat ks) ≤ length (filter P l))%nat as Hl.
  { apply IH.
    - apply NoDup_fmap_2_strong; [|done]. intros a b [Ha _]%list_elem_of_filter [Hb _]%list_elem_of_filter. lia.
    - intros k (m & -> & [Hm Hin]%list_elem_of_filter)%list_elem_of_fmap. destruct m as [|m]; [done|]. by destruct (Hks _ Hin) as (y & ? & ?); exists y. }
  rewrite length_fmap in Hl. destruct (decide (0%nat ∈ ks)) as [H0|H0].
  - destruct (Hks _ H0) as (y & [= <-] & HP). rewrite filter_cons_True by done. simpl.
    assert (length ks ≤ length (0%nat :: filter (λ k, k ≠ 0)%nat ks))%nat; [|simpl in *; lia].
    apply submseteq_length, NoDup_submseteq; [done|]. intros k Hk. apply elem_of_cons.
    destruct (decide (k = 0%nat)); [by left|right]. by apply list_elem_of_filter.
  - rewrite filter_all in Hl by (intros k Hk ->; done). rewrite filter_cons. case_decide; simpl; lia.
Qed.

(** ** Lemmas on quorums *)
Lemma quorum_le n : (1 ≤ n)%nat → (1 ≤ quorum n ≤ n)%nat.
Proof.
  unfold quorum. intros.
  pose proof (Nat.div_mod_eq (n + 1) 2). pose proof (Nat.mod_upper_bound (n + 1) 2). lia.
Qed.

Lemma quorum_odd n : Nat.Odd n → (n < quorum n + quorum n)%nat.
Proof.
  intros [k ->]. unfold quorum.
  replace (2 * k + 1 + 1)%nat with ((k + 1) * 2)%nat by lia.
  rewrite Nat.div_mul; lia.
Qed.

Lemma quorum_even n : Nat.Even n → (quorum n + quorum n = n)%nat.
Proof.
  intros [k ->]. unfold quorum.
  replace (2 * k + 1)%nat with (1 + k * 2)%nat by lia.
  rewrite Nat.div_add by lia. simpl. lia.
Qed.

(** Two subsets of a finite set whose sizes add up to more than the set's
    share an element. *)
Lemma gset_intersect `{Countable A} (U X Y : gset A) :
  X ⊆ U → Y ⊆ U → (size U < size X + size Y)%nat → ∃ a, a ∈ X ∧ a ∈ Y.
Proof.
  intros HX HY Hsz.
  destruct (set_choose_or_empty (X ∩ Y)) as [[a Ha] | He]; [set_solver |].
  exfalso.
  assert (size (X ∪ Y) = size X + size Y)%nat as Hu.
  { apply size_union. set_solver. }
  assert (size (X ∪ Y) ≤ size U)%nat; [|lia].
  apply subseteq_size. set_solver.
Qed.

Create HintDb go.
#[export] Hint Resolve wrap64_range prefix_take : go.
#[export] Hint Rewrite @length_app @length_insert @length_drop @length_take : go.

(** ** Proof automation *)

(** Invert a successful run: break binds, decisions and pairs in hypotheses. *)
Ltac inv_run :=
  repeat match goal with
  | H : Some _ = Some _ |- _ => injection H as H; try subst
  | H : (_, _) = (_, _) |- _ => injection H as H; try subst
  | H : _ ≫= _ = Some _ |- _ => apply bind_Some in H as (? & ? & H)
  | H : None = Some _ |- _ => discriminate H
  | H : Some _ = None |- _ => discriminate H
  | H : (match ?x with (_, _) => _ end) = _ |- _ => destruct x eqn:?
  end; simpl in *.

(** Split every [decide] and [match] of the goal and the hypotheses. *)
Ltac split_run := repeat (case_decide || case_match); inv_run.
