(* ===== verification/Ballot.v ===== *)
(** * Ballots: [type Ballot] and [compare] of a2-omnipaxos/omnipaxos.go *)
From S2P Require Import Prelude.

Record Ballot := mkBallot { bN : Z; bPid : Z }.

#[export] Instance Ballot_eq_dec : EqDecision Ballot.
Proof. solve_decision. Defined.

#[export] Instance Ballot_countable : Countable Ballot.
Proof.
  refine (inj_countable' (λ b, (bN b, bPid b)) (λ p, mkBallot p.1 p.2) _).
  by intros [].
Defined.

#[export] Instance Ballot_inhabited : Inhabited Ballot := populate (mkBallot 0 0).

(** [func (b *Ballot) compare(o Ballot) int] *)
Definition compare (b o : Ballot) : Z :=
  if decide (bN b < bN o) then -1
  else if decide (bN b = bN o) then
    if decide (bPid b < bPid o) then -1
    else if decide (bPid b = bPid o) then 0
    else 1
  else 1.

#[global] Arguments compare : simpl never.

(** [func (op *OmniPaxos) max(m map[Ballot]bool) Ballot]: the loop over the
    keys of the map, in the order the run-time picks. *)
Definition max_ballot (m : list Ballot) : Ballot :=
  foldl (λ res b, if decide (compare res b < 0) then b else res) (mkBallot (-1) (-2)) m.

(** The strict and the reflexive order [compare] decides. *)
Definition ballot_lt (b o : Ballot) : Prop := compare b o < 0.
Definition ballot_le (b o : Ballot) : Prop := compare b o ≤ 0.
#[export] Instance ballot_lt_dec b o : Decision (ballot_lt b o).
Proof. unfold ballot_lt. apply _. Defined.
#[export] Instance ballot_le_dec b o : Decision (ballot_le b o).
Proof. unfold ballot_le. apply _. Defined.

Lemma ballot_eq b o : b = o ↔ bN b = bN o ∧ bPid b = bPid o.
Proof. destruct b, o; simpl. naive_solver. Qed.

Lemma compare_lt b o : compare b o < 0 ↔ bN b < bN o ∨ bN b = bN o ∧ bPid b < bPid o.
Proof. unfold compare. repeat case_decide; lia. Qed.

Lemma compare_gt b o : compare b o > 0 ↔ bN o < bN b ∨ bN b = bN o ∧ bPid o < bPid b.
Proof. unfold compare. repeat case_decide; lia. Qed.

Lemma compare_eq b o : compare b o = 0 ↔ b = o.
Proof. rewrite ballot_eq. unfold compare. repeat case_decide; lia. Qed.

Lemma compare_ne b o : compare b o ≠ 0 ↔ b ≠ o.
Proof. by rewrite compare_eq. Qed.

Lemma compare_flip b o : compare b o > 0 ↔ compare o b < 0.
Proof. rewrite compare_gt, compare_lt. lia. Qed.

(** Turn every comparison into linear arithmetic on the components. *)
Ltac ballot :=
  unfold ballot_lt, ballot_le in *;
  repeat match goal with
  | b : Ballot |- _ => destruct b
  end;
  unfold compare in *; simpl in *; repeat case_decide; simplify_eq/=; try lia; try done.

#[export] Instance ballot_lt_strict : StrictOrder ballot_lt.
Proof. split; [intros ? ?; ballot | intros ? ? ? ? ?; ballot]. Qed.

#[export] Instance ballot_le_preorder : PreOrder ballot_le.
Proof. split; [intros ?; ballot | intros ? ? ? ? ?; ballot]. Qed.

#[export] Instance ballot_le_antisymm : AntiSymm (=) ballot_le.
Proof. intros ????. ballot; try (f_equal; lia). Qed.

Lemma ballot_le_lt_eq b o : ballot_le b o ↔ ballot_lt b o ∨ b = o.
Proof.
  unfold ballot_le, ballot_lt. rewrite <-compare_eq. lia.
Qed.

Lemma ballot_lt_irrefl b : ¬ ballot_lt b b.
Proof. apply (irreflexivity ballot_lt). Qed.

Lemma ballot_lt_le b o : ballot_lt b o → ballot_le b o.
Proof. unfold ballot_lt, ballot_le. lia. Qed.

Lemma ballot_eq_le b o : b = o → ballot_le b o.
Proof. by intros ->. Qed.

Lemma ballot_not_gt b o : ¬ compare b o > 0 ↔ ballot_le b o.
Proof. unfold ballot_le. lia. Qed.

Lemma ballot_not_lt b o : ¬ ballot_lt b o ↔ ballot_le o b.
Proof.
  unfold ballot_lt, ballot_le. pose proof (compare_flip b o). pose proof (compare_flip o b). 
  pose proof (compare_eq b o). pose proof (compare_eq o b). split; intros.
  - destruct (decide (compare o b > 0)); [tauto|lia].
  - destruct (decide (compare o b = 0)); [|lia]. assert (o = b) by tauto. subst. lia.
Qed.

Lemma ballot_not_le b o : ¬ ballot_le b o ↔ ballot_lt o b.
Proof.
  rewrite <-ballot_not_lt. split; [intros H; by apply dec_stable|by intros H ?].
Qed.

Lemma ballot_lt_le_trans a b c : ballot_lt a b → ballot_le b c → ballot_lt a c.
Proof. rewrite ballot_le_lt_eq. intros ? [?| ->]; [by etrans|done]. Qed.

Lemma ballot_le_lt_trans a b c : ballot_le a b → ballot_lt b c → ballot_lt a c.
Proof. rewrite ballot_le_lt_eq. intros [?| ->] ?; [by etrans|done]. Qed.

#[export] Hint Resolve ballot_lt_le : go.

(** [max] returns an upper bound of the keys and of its own seed, and one of
    them. *)
Lemma max_ballot_spec m :
  (∀ b, b ∈ m → ballot_le b (max_ballot m)) ∧
  ballot_le (mkBallot (-1) (-2)) (max_ballot m) ∧
  (max_ballot m = mkBallot (-1) (-2) ∨ max_ballot m ∈ m).
Proof.
  unfold max_ballot. induction m as [|x m IH] using rev_ind; simpl.
  { split_and!; [set_solver | ballot | by left]. }
  rewrite foldl_snoc. destruct IH as (IH1 & IH2 & IH3).
  set (y := foldl _ _ m) in *. case_decide as Hd.
  - split_and!.
    + intros b [Hb| ->%list_elem_of_singleton]%elem_of_app; [|reflexivity].
      etrans; [by apply IH1 | by apply ballot_lt_le].
    + etrans; [done | by apply ballot_lt_le].
    + right. set_solver.
  - apply ballot_not_lt in Hd. split_and!.
    + intros b [Hb| ->%list_elem_of_singleton]%elem_of_app; [by apply IH1 | done].
    + done.
    + destruct IH3; [by left | right; set_solver].
Qed.
