(* ===== verification/Messages.v ===== *)
(** * The data of a2-omnipaxos/omnipaxos.go

    The replicated state [OmniPaxosState], the roles and phases, the promises
    a leader collects, and every RPC request and reply.  Commands are values of
    Go's [interface{}]: a type [C] the whole development is polymorphic in. *)
From S2P Require Import Prelude Ballot.

(** The string constants of the role and of the phase. *)
Inductive Role := LEADER | FOLLOWER.
Inductive Phase := PREPARE | ACCEPT | RECOVER.

Record State := mkState { role : Role; phase : Phase }.

#[export] Instance Role_eq_dec : EqDecision Role.
Proof. solve_decision. Defined.
#[export] Instance Phase_eq_dec : EqDecision Phase.
Proof. solve_decision. Defined.
#[export] Instance State_eq_dec : EqDecision State.
Proof. solve_decision. Defined.

(** [type OmniPaxosState struct]: what is persisted. *)
Record OmniPaxosState (C : Type) := mkOS {
  L : Ballot;
  Log : list C;
  PromisedRnd : Ballot;
  AcceptedRnd : Ballot;
  DecidedIdx : Z;
}.
Arguments mkOS {C} _ _ _ _ _.
Arguments L {C} _.
Arguments Log {C} _.
Arguments PromisedRnd {C} _.
Arguments AcceptedRnd {C} _.
Arguments DecidedIdx {C} _.

(** [OmniPaxosState{}], the zero value [omnipaxosStatefromBytes] starts from. *)
Definition zeroState {C} : OmniPaxosState C :=
  mkOS (mkBallot 0 0) [] (mkBallot 0 0) (mkBallot 0 0) 0.

(** [type Promise struct] *)
Record Promise (C : Type) := mkPromise {
  p_f : Z;
  p_accRnd : Ballot;
  p_logIdx : Z;
  p_decIdx : Z;
  p_log : list C;
}.
Arguments mkPromise {C} _ _ _ _ _.
Arguments p_f {C} _.
Arguments p_accRnd {C} _.
Arguments p_logIdx {C} _.
Arguments p_decIdx {C} _.
Arguments p_log {C} _.

(** [type ApplyMsg struct]; [CommandValid] is always [true]. *)
Record ApplyMsg (C : Type) := mkApplyMsg {
  CommandValid : bool;
  Command : C;
  CommandIndex : Z;
}.
Arguments mkApplyMsg {C} _ _ _.
Arguments CommandValid {C} _.
Arguments Command {C} _.
Arguments CommandIndex {C} _.

(** The RPC requests and the only reply that carries data. *)
Record HBRequest := mkHBRequest { hb_Rnd : Z }.
Record HBReply := mkHBReply { hbr_Rnd : Z; hbr_Ballot : Z; hbr_Q : bool }.
Record PrepareRequest := mkPrepareRequest {
  pr_L : Z; pr_N : Ballot; pr_AccRnd : Ballot; pr_LogIdx : Z; pr_DecIdx : Z }.
Record PromiseRequest (C : Type) := mkPromiseRequest {
  pm_F : Z; pm_N : Ballot; pm_AccRnd : Ballot; pm_LogIdx : Z; pm_DecIdx : Z; pm_Sfx : list C }.
Record AcceptSyncRequest (C : Type) := mkAcceptSyncRequest {
  as_L : Z; as_N : Ballot; as_Sfx : list C; as_SyncIdx : Z }.
Record DecideRequest := mkDecideRequest { dc_L : Z; dc_N : Ballot; dc_DecIdx : Z }.
Record AcceptedRequest := mkAcceptedRequest { ad_F : Z; ad_N : Ballot; ad_LogIdx : Z }.
Record AcceptRequest (C : Type) := mkAcceptRequest {
  ac_L : Z; ac_N : Ballot; ac_Idx : Z; ac_C : C }.
Record PrepareReqRequest := mkPrepareReqRequest { pq_F : Z }.
Record ReconnectedRequest := mkReconnectedRequest { rc_F : Z }.

Arguments mkPromiseRequest {C} _ _ _ _ _ _.
Arguments pm_F {C} _.
Arguments pm_N {C} _.
Arguments pm_AccRnd {C} _.
Arguments pm_LogIdx {C} _.
Arguments pm_DecIdx {C} _.
Arguments pm_Sfx {C} _.
Arguments mkAcceptSyncRequest {C} _ _ _ _.
Arguments as_L {C} _.
Arguments as_N {C} _.
Arguments as_Sfx {C} _.
Arguments as_SyncIdx {C} _.
Arguments mkAcceptRequest {C} _ _ _ _.
Arguments ac_L {C} _.
Arguments ac_N {C} _.
Arguments ac_Idx {C} _.
Arguments ac_C {C} _.

(** The method name of [Call] and its argument.  [MHBReply r p reply] is the
    reply of peer [p] on its way back to the goroutine of [startTimer] that
    captured the round [r]; the other calls have a [DummyReply], which nothing
    reads. *)
Inductive Msg (C : Type) :=
  | MHBRequest (req : HBRequest)
  | MHBReply (r p : Z) (reply : HBReply)
  | MPrepare (req : PrepareRequest)
  | MPromise (req : PromiseRequest C)
  | MAcceptSync (req : AcceptSyncRequest C)
  | MDecide (req : DecideRequest)
  | MAccepted (req : AcceptedRequest)
  | MAccept (req : AcceptRequest C)
  | MPrepareReq (req : PrepareReqRequest)
  | MReconnected (req : ReconnectedRequest).
Arguments MHBRequest {C} _.
Arguments MHBReply {C} _ _ _.
Arguments MPrepare {C} _.
Arguments MPromise {C} _.
Arguments MAcceptSync {C} _.
Arguments MDecide {C} _.
Arguments MAccepted {C} _.
Arguments MAccept {C} _.
Arguments MPrepareReq {C} _.
Arguments MReconnected {C} _.

(** What a handler does to the outside: a [Call] on a peer's end point, and a
    send on [applyCh]. *)
Inductive Effect (C : Type) :=
  | Send (dst : Z) (m : Msg C)
  | Apply (msg : ApplyMsg C).
Arguments Send {C} _ _.
Arguments Apply {C} _.

(** The [ApplyMsg]s among the effects, in order, and the calls. *)
Definition applied {C} (es : list (Effect C)) : list (ApplyMsg C) :=
  omap (λ e, match e with Apply m => Some m | Send _ _ => None end) es.
Definition sent {C} (es : list (Effect C)) : list (Z * Msg C) :=
  omap (λ e, match e with Send d m => Some (d, m) | Apply _ => None end) es.

(** Decidable equality and countability of the persisted state, so that a
    concrete serialisation of it exists. *)
Section instances.
Context `{Countable C}.

#[export] Instance OS_eq_dec : EqDecision (OmniPaxosState C).
Proof. solve_decision. Defined.

#[export] Instance OS_countable : Countable (OmniPaxosState C).
Proof.
  refine (inj_countable'
    (λ s, (L s, Log s, PromisedRnd s, AcceptedRnd s, DecidedIdx s))
    (λ '(a, b, c, d, e), mkOS a b c d e) _).
  by intros [].
Defined.
End instances.

Lemma applied_app {C} (e1 e2 : list (Effect C)) : applied (e1 ++ e2) = applied e1 ++ applied e2.
Proof. apply omap_app. Qed.

Lemma sent_app {C} (e1 e2 : list (Effect C)) : sent (e1 ++ e2) = sent e1 ++ sent e2.
Proof. apply omap_app. Qed.

Lemma elem_of_sent {C} (es : list (Effect C)) d m : (d, m) ∈ sent es ↔ Send d m ∈ es.
Proof.
  unfold sent. rewrite list_elem_of_omap. split.
  - intros (e & He & Heq). destruct e; naive_solver.
  - intros He. by exists (Send d m).
Qed.

#[export] Hint Rewrite @applied_app @sent_app : go.
