(* ===== verification/Persister.v ===== *)
(** * a2-omnipaxos/persister.go and the serialisation of the persisted state

    [Persister] holds two byte slices.  [StateCodec] is what the code relies on
    of [encoding/gob]: decoding an encoded state gives the state back, and
    decoding no bytes is an error ([io.EOF]). *)
From Stdlib Require Import Strings.Byte.
From S2P Require Import Prelude Ballot Messages.

Abbreviation bytes := (list byte).

Record Persister := mkPersister { omnipaxosstate : bytes; snapshot : bytes }.

Definition MakePersister : Persister := mkPersister [] [].

(** [func clone(orig []byte) []byte]: [make([]byte, len(orig))] and [copy],
    which copies [min(len(dst), len(src))] bytes over the zeros. *)
Definition go_copy (dst src : bytes) : bytes :=
  take (length dst) src ++ drop (length src) dst.
Definition clone (orig : bytes) : bytes := go_copy (replicate (length orig) x00) orig.

Definition Copy (ps : Persister) : Persister :=
  mkPersister (omnipaxosstate ps) (snapshot ps).

Definition SaveOmnipaxosState (state : bytes) (ps : Persister) : Persister :=
  mkPersister (clone state) (snapshot ps).

Definition ReadOmnipaxosState (ps : Persister) : bytes := clone (omnipaxosstate ps).

Definition OmnipaxosStateSize (ps : Persister) : Z := len (omnipaxosstate ps).

Definition SaveStateAndSnapshot (state snap : bytes) (ps : Persister) : Persister :=
  mkPersister (clone state) (clone snap).

Definition ReadSnapshot (ps : Persister) : bytes := clone (snapshot ps).

Definition SnapshotSize (ps : Persister) : Z := len (snapshot ps).

(** The interface of [encoding/gob] the node uses: [toBytes] never fails on a
    registered command type and [fromBytes] returns an error as [None]. *)
Class StateCodec (C : Type) := {
  toBytes : OmniPaxosState C → bytes;
  fromBytes : bytes → option (OmniPaxosState C);
  from_to : ∀ s, fromBytes (toBytes s) = Some s;
  from_nil : fromBytes [] = None;
}.

(** [omnipaxosStatefromBytes] returns [s] next to the error, and [readPersist]
    ignores the error: no bytes read as the zero state. *)
Definition omnipaxosStatefromBytes `{StateCodec C} (b : bytes) : OmniPaxosState C :=
  default zeroState (fromBytes b).

(** A concrete codec for countable commands, one byte per bit of the code. *)
Fixpoint pos_bytes (p : positive) : bytes :=
  match p with
  | xH => []
  | xO q => x00 :: pos_bytes q
  | xI q => x01 :: pos_bytes q
  end.

Fixpoint bytes_pos (l : bytes) : positive :=
  match l with
  | [] => xH
  | x00 :: l => xO (bytes_pos l)
  | _ :: l => xI (bytes_pos l)
  end.

Lemma bytes_pos_bytes p : bytes_pos (pos_bytes p) = p.
Proof. induction p as [p IH|p IH|]; simpl; by rewrite ?IH. Qed.

#[export] Instance countable_codec `{Countable C} : StateCodec C.
Proof.
  refine {|
    toBytes s := x02 :: pos_bytes (encode s);
    fromBytes b := match b with [] => None | _ :: l => decode (bytes_pos l) end |}.
  - intros s. by rewrite bytes_pos_bytes, decode_encode.
  - done.
Defined.

(** [clone] is a copy: the whole slice is copied over the fresh one. *)
Lemma clone_id b : clone b = b.
Proof.
  unfold clone, go_copy. rewrite length_replicate.
  rewrite firstn_all, drop_ge; [by rewrite app_nil_r|].
  rewrite length_replicate. lia.
Qed.

(** A copy holds what the original holds. *)
Lemma Copy_id ps : Copy ps = ps.
Proof. by destruct ps. Qed.

Lemma read_save st ps : ReadOmnipaxosState (SaveOmnipaxosState st ps) = st.
Proof. unfold ReadOmnipaxosState, SaveOmnipaxosState; simpl. by rewrite !clone_id. Qed.

Lemma read_save_decode `{StateCodec C} s ps :
  omnipaxosStatefromBytes (ReadOmnipaxosState (SaveOmnipaxosState (toBytes s) ps)) = s.
Proof. rewrite read_save. unfold omnipaxosStatefromBytes. by rewrite from_to. Qed.

Lemma read_fresh `{StateCodec C} :
  omnipaxosStatefromBytes (C := C) (ReadOmnipaxosState MakePersister) = zeroState.
Proof. unfold omnipaxosStatefromBytes, ReadOmnipaxosState. simpl. by rewrite clone_id, from_nil. Qed.

#[export] Hint Rewrite @read_save_decode @read_fresh : go.
