(* ===== verification/OmniPaxos.v ===== *)
(** * One OmniPaxos peer: a2-omnipaxos/omnipaxos.go

    [OmniPaxos] is the struct of the source, one field per field; every RPC
    handler, the body of the timer loop, [Proposal], [GetState], [Kill] and
    [Make] are functions on it.  A handler runs under [op.mu] from its first to
    its last statement, so it is one atomic function; it returns the new state
    and the effects it had, in order, or [None] when Go would panic (an index
    or a slice bound out of range, a nil pointer). *)
From S2P Require Import Prelude Ballot Messages Persister.

Record OmniPaxos (C : Type) := mkOP {
  op_npeers : nat;
  op_me : Z;
  op_persister : Persister;
  op_dead : Z;
  op_enableLogging : Z;
  op_currentRnd : Ballot;
  op_promises : gmap Z (Promise C);
  op_maxProm : option (Promise C);
  op_accepted : list Z;
  op_buffer : list C;
  op_os : OmniPaxosState C;
  op_r : Z;
  op_b : Ballot;
  op_qc : bool;
  op_ballots : gmap Ballot bool;
  op_state : State;
  op_linkDrop : bool;
  op_missedHbCounts : gmap Z Z;
  op_restart_loop : Z;
}.
Arguments mkOP {C} _ _ _ _ _ _ _ _ _ _ _ _ _ _ _ _ _ _ _.
Arguments op_npeers {C} _.
Arguments op_me {C} _.
Arguments op_persister {C} _.
Arguments op_dead {C} _.
Arguments op_enableLogging {C} _.
Arguments op_currentRnd {C} _.
Arguments op_promises {C} _.
Arguments op_maxProm {C} _.
Arguments op_accepted {C} _.
Arguments op_buffer {C} _.
Arguments op_os {C} _.
Arguments op_r {C} _.
Arguments op_b {C} _.
Arguments op_qc {C} _.
Arguments op_ballots {C} _.
Arguments op_state {C} _.
Arguments op_linkDrop {C} _.
Arguments op_missedHbCounts {C} _.
Arguments op_restart_loop {C} _.

(** ** Field updates *)
Section setters.
Context {C : Type}.
Implicit Types op : OmniPaxos C.

Definition set_persister x op : OmniPaxos C := mkOP (op_npeers op) (op_me op) x (op_dead op) (op_enableLogging op) (op_currentRnd op) (op_promises op) (op_maxProm op) (op_accepted op) (op_buffer op) (op_os op) (op_r op) (op_b op) (op_qc op) (op_ballots op) (op_state op) (op_linkDrop op) (op_missedHbCounts op) (op_restart_loop op).
Definition set_dead x op : OmniPaxos C := mkOP (op_npeers op) (op_me op) (op_persister op) x (op_enableLogging op) (op_currentRnd op) (op_promises op) (op_maxProm op) (op_accepted op) (op_buffer op) (op_os op) (op_r op) (op_b op) (op_qc op) (op_ballots op) (op_state op) (op_linkDrop op) (op_missedHbCounts op) (op_restart_loop op).
Definition set_enableLogging x op : OmniPaxos C := mkOP (op_npeers op) (op_me op) (op_persister op) (op_dead op) x (op_currentRnd op) (op_promises op) (op_maxProm op) (op_accepted op) (op_buffer op) (op_os op) (op_r op) (op_b op) (op_qc op) (op_ballots op) (op_state op) (op_linkDrop op) (op_missedHbCounts op) (op_restart_loop op).
Definition set_currentRnd x op : OmniPaxos C := mkOP (op_npeers op) (op_me op) (op_persister op) (op_dead op) (op_enableLogging op) x (op_promises op) (op_maxProm op) (op_accepted op) (op_buffer op) (op_os op) (op_r op) (op_b op) (op_qc op) (op_ballots op) (op_state op) (op_linkDrop op) (op_missedHbCounts op) (op_restart_loop op).
Definition set_promises x op : OmniPaxos C := mkOP (op_npeers op) (op_me op) (op_persister op) (op_dead op) (op_enableLogging op) (op_currentRnd op) x (op_maxProm op) (op_accepted op) (op_buffer op) (op_os op) (op_r op) (op_b op) (op_qc op) (op_ballots op) (op_state op) (op_linkDrop op) (op_missedHbCounts op) (op_restart_loop op).
Definition set_maxProm x op : OmniPaxos C := mkOP (op_npeers op) (op_me op) (op_persister op) (op_dead op) (op_enableLogging op) (op_currentRnd op) (op_promises op) x (op_accepted op) (op_buffer op) (op_os op) (op_r op) (op_b op) (op_qc op) (op_ballots op) (op_state op) (op_linkDrop op) (op_missedHbCounts op) (op_restart_loop op).
Definition set_accepted x op : OmniPaxos C := mkOP (op_npeers op) (op_me op) (op_persister op) (op_dead op) (op_enableLogging op) (op_currentRnd op) (op_promises op) (op_maxProm op) x (op_buffer op) (op_os op) (op_r op) (op_b op) (op_qc op) (op_ballots op) (op_state op) (op_linkDrop op) (op_missedHbCounts op) (op_restart_loop op).
Definition set_buffer x op : OmniPaxos C := mkOP (op_npeers op) (op_me op) (op_persister op) (op_dead op) (op_enableLogging op) (op_currentRnd op) (op_promises op) (op_maxProm op) (op_accepted op) x (op_os op) (op_r op) (op_b op) (op_qc op) (op_ballots op) (op_state op) (op_linkDrop op) (op_missedHbCounts op) (op_restart_loop op).
Definition set_os x op : OmniPaxos C := mkOP (op_npeers op) (op_me op) (op_persister op) (op_dead op) (op_enableLogging op) (op_currentRnd op) (op_promises op) (op_maxProm op) (op_accepted op) (op_buffer op) x (op_r op) (op_b op) (op_qc op) (op_ballots op) (op_state op) (op_linkDrop op) (op_missedHbCounts op) (op_restart_loop op).
Definition set_r x op : OmniPaxos C := mkOP (op_npeers op) (op_me op) (op_persister op) (op_dead op) (op_enableLogging op) (op_currentRnd op) (op_promises op) (op_maxProm op) (op_accepted op) (op_buffer op) (op_os op) x (op_b op) (op_qc op) (op_ballots op) (op_state op) (op_linkDrop op) (op_missedHbCounts op) (op_restart_loop op).
Definition set_b x op : OmniPaxos C := mkOP (op_npeers op) (op_me op) (op_persister op) (op_dead op) (op_enableLogging op) (op_currentRnd op) (op_promises op) (op_maxProm op) (op_accepted op) (op_buffer op) (op_os op) (op_r op) x (op_qc op) (op_ballots op) (op_state op) (op_linkDrop op) (op_missedHbCounts op) (op_restart_loop op).
Definition set_qc x op : OmniPaxos C := mkOP (op_npeers op) (op_me op) (op_persister op) (op_dead op) (op_enableLogging op) (op_currentRnd op) (op_promises op) (op_maxProm op) (op_accepted op) (op_buffer op) (op_os op) (op_r op) (op_b op) x (op_ballots op) (op_state op) (op_linkDrop op) (op_missedHbCounts op) (op_restart_loop op).
Definition set_ballots x op : OmniPaxos C := mkOP (op_npeers op) (op_me op) (op_persister op) (op_dead op) (op_enableLogging op) (op_currentRnd op) (op_promises op) (op_maxProm op) (op_accepted op) (op_buffer op) (op_os op) (op_r op) (op_b op) (op_qc op) x (op_state op) (op_linkDrop op) (op_missedHbCounts op) (op_restart_loop op).
Definition set_state x op : OmniPaxos C := mkOP (op_npeers op) (op_me op) (op_persister op) (op_dead op) (op_enableLogging op) (op_currentRnd op) (op_promises op) (op_maxProm op) (op_accepted op) (op_buffer op) (op_os op) (op_r op) (op_b op) (op_qc op) (op_ballots op) x (op_linkDrop op) (op_missedHbCounts op) (op_restart_loop op).
Definition set_linkDrop x op : OmniPaxos C := mkOP (op_npeers op) (op_me op) (op_persister op) (op_dead op) (op_enableLogging op) (op_currentRnd op) (op_promises op) (op_maxProm op) (op_accepted op) (op_buffer op) (op_os op) (op_r op) (op_b op) (op_qc op) (op_ballots op) (op_state op) x (op_missedHbCounts op) (op_restart_loop op).
Definition set_missedHbCounts x op : OmniPaxos C := mkOP (op_npeers op) (op_me op) (op_persister op) (op_dead op) (op_enableLogging op) (op_currentRnd op) (op_promises op) (op_maxProm op) (op_accepted op) (op_buffer op) (op_os op) (op_r op) (op_b op) (op_qc op) (op_ballots op) (op_state op) (op_linkDrop op) x (op_restart_loop op).
Definition set_restart_loop x op : OmniPaxos C := mkOP (op_npeers op) (op_me op) (op_persister op) (op_dead op) (op_enableLogging op) (op_currentRnd op) (op_promises op) (op_maxProm op) (op_accepted op) (op_buffer op) (op_os op) (op_r op) (op_b op) (op_qc op) (op_ballots op) (op_state op) (op_linkDrop op) (op_missedHbCounts op) x.
Definition set_L x op : OmniPaxos C :=
  let s := op_os op in set_os (mkOS x (Log s) (PromisedRnd s) (AcceptedRnd s) (DecidedIdx s)) op.
Definition set_Log x op : OmniPaxos C :=
  let s := op_os op in set_os (mkOS (L s) x (PromisedRnd s) (AcceptedRnd s) (DecidedIdx s)) op.
Definition set_PromisedRnd x op : OmniPaxos C :=
  let s := op_os op in set_os (mkOS (L s) (Log s) x (AcceptedRnd s) (DecidedIdx s)) op.
Definition set_AcceptedRnd x op : OmniPaxos C :=
  let s := op_os op in set_os (mkOS (L s) (Log s) (PromisedRnd s) x (DecidedIdx s)) op.
Definition set_DecidedIdx x op : OmniPaxos C :=
  let s := op_os op in set_os (mkOS (L s) (Log s) (PromisedRnd s) (AcceptedRnd s) x) op.
End setters.
(** The order in which Go's run-time ranges over a map is unspecified.  Where
    the code's result depends on it ([maxPromise]) the order is a parameter. *)
Class MapOrder (C : Type) := {
  order : gmap Z (Promise C) → list (Promise C);
  order_perm m : order m ≡ₚ (map_to_list m).*2;
}.

(** [m[k]] on a [map[int]int]: the zero value when the key is absent. *)
Definition go_get (m : gmap Z Z) (k : Z) : Z := default 0 (m !! k).

Section node.
Context {C : Type} {codec : StateCodec C}.
Implicit Types op : OmniPaxos C.

(** A run of a handler: the new state and the effects, or a panic. *)
Abbreviation run := (option (OmniPaxos C * list (Effect C))).

(** The indices of [op.peers], [for peer := range op.peers]. *)
Definition peers op : list Z := seqZ 0 (Z.of_nat (op_npeers op)).

(** [op.peers[peer].Call(method, &request, ...)] *)
Definition Call op (peer : Z) (m : Msg C) : option (Effect C) :=
  if decide (0 ≤ peer < Z.of_nat (op_npeers op)) then Some (Send peer m) else None.

Definition persist op : OmniPaxos C :=
  set_persister (SaveOmnipaxosState (toBytes (op_os op)) (op_persister op)) op.

Definition readPersist op : OmniPaxos C :=
  set_os (omnipaxosStatefromBytes (ReadOmnipaxosState (op_persister op))) op.

Definition suffix (idx : Z) op : option (list C) :=
  if decide (idx > len (Log (op_os op))) then Some []
  else go_from (Log (op_os op)) idx.

Definition prefix (idx : Z) op : option (list C) :=
  let idx := if decide (idx > len (Log (op_os op))) then len (Log (op_os op)) else idx in
  go_to (Log (op_os op)) idx.

Definition increment (ballot : Ballot) (I : Z) : Ballot :=
  mkBallot (wrap64 (I + 1)) (bPid ballot).

Definition stopped (op : OmniPaxos C) : bool := false.

Definition isLeader op : bool :=
  bool_decide (role (op_state op) = LEADER ∧ bPid (L (op_os op)) = op_me op).

Definition GetState op : Z * bool := (bN (op_b op), isLeader op).

Definition Kill op : OmniPaxos C := set_enableLogging 0 (set_dead 1 op).
Definition killed op : bool := bool_decide (op_dead op = 1).

Definition addToApplyChan (log : list C) (from to : Z) : option (list (Effect C)) :=
  mapM (λ i, c ← go_index log i; Some (Apply (mkApplyMsg true c i))) (seqZ from (to - from)).

(** [for _, p := range op.promises] *)
Definition promise_list op : list (Promise C) := (map_to_list (op_promises op)).*2.

(** ** Ballot leader election *)
Definition HeartBeatHandler (args : HBRequest) op : HBReply :=
  mkHBReply (hb_Rnd args) (bN (op_b op)) (op_qc op).

Definition triggerLeader (s : Z) (n : Ballot) op : run :=
  if decide (s = op_me op ∧ compare n (PromisedRnd (op_os op)) > 0) then
    (* 1. reset state *)
    let op := set_accepted (replicate (length (op_accepted op)) 0) op in
    let op := set_promises ∅ op in
    let op := set_maxProm (Some (mkPromise 0 (mkBallot 0 0) 0 0 [])) op in
    let op := set_buffer [] op in
    (* 2. *)
    let op := set_qc true op in
    let op := set_state (mkState LEADER PREPARE) op in
    let op := set_currentRnd n op in
    let op := set_PromisedRnd n op in
    (* 3. add own promise *)
    log ← suffix (DecidedIdx (op_os op)) op;
    let promise := mkPromise (op_me op) (AcceptedRnd (op_os op)) (len (Log (op_os op)))
                             (DecidedIdx (op_os op)) log in
    let op := set_promises (<[op_me op := promise]> (op_promises op)) op in
    (* 4. send prepare to all peers *)
    sends ← mapM (λ peer, Call op peer (MPrepare (mkPrepareRequest (op_me op) (op_currentRnd op)
              (AcceptedRnd (op_os op)) (len (Log (op_os op))) (DecidedIdx (op_os op)))))
              (filter (λ peer, peer ≠ op_me op) (peers op));
    Some (persist op, sends)
  else Some (set_state (mkState FOLLOWER (phase (op_state op))) op, []).

(** The keys of the ballots whose value is true, [candidates]. *)
Definition candidates op : list Ballot :=
  (filter (λ bq : Ballot * bool, bq.2 = true) (map_to_list (op_ballots op))).*1.

Definition checkLeader op : run :=
  let max := max_ballot (candidates op) in
  let l := L (op_os op) in
  if decide (compare max l < 0) then
    Some (set_qc true (set_b (increment (op_b op) (bN l)) op), [])
  else if decide (compare max l > 0) then
    triggerLeader (bPid max) max (persist (set_L max op))
  else Some (op, []).

(** One key of [op.ballots] in [updateMissedHbsAndReconnect]. *)
Definition seen_ballot op (st : gmap Z Z * gset Z * list (Effect C)) (b : Ballot) :
    option (gmap Z Z * gset Z * list (Effect C)) :=
  let '(missed, allMissed, es) := st in
  if decide (bPid b = op_me op) then Some st
  else
    e ← (if decide (go_get missed (bPid b) > 3 ∧ op_me op = bPid (L (op_os op)))
         then s ← Call op (bPid b) (MReconnected (mkReconnectedRequest (op_me op))); Some [s]
         else Some []);
    Some (<[bPid b := 0]> missed, allMissed ∖ {[bPid b]}, es ++ e).

Definition updateMissedHbsAndReconnect op : run :=
  let allMissed : gset Z := list_to_set (filter (λ p, p ≠ op_me op) (peers op)) in
  '(missed, allMissed, e1) ←
    foldl (λ acc b, st ← acc; seen_ballot op st b)
          (Some (op_missedHbCounts op, allMissed, []))
          (map_to_list (op_ballots op)).*1;
  let missed := set_fold (λ p m, <[p := wrap64 (go_get m p + 1)]> m) missed allMissed in
  let op := set_missedHbCounts missed op in
  let op := if decide (Z.of_nat (size allMissed) = Z.of_nat (op_npeers op) - 1)
            then set_linkDrop true op
            else if op_linkDrop op then set_linkDrop false op else op in
  let op := set_restart_loop (wrap64 (op_restart_loop op + 1)) op in
  e2 ← (if decide (op_restart_loop op = 2)
        then mapM (λ p, Call op p (MPrepareReq (mkPrepareReqRequest (op_me op)))) (peers op)
        else Some []);
  Some (op, e1 ++ e2).

(** One iteration of the loop of [startTimer]. *)
Definition startTimer op : run :=
  (* 1. insert own ballot *)
  let op := set_ballots (<[op_b op := op_qc op]> (op_ballots op)) op in
  (* 2. if have majority, then check leader else qc is false *)
  '(op, e1) ← (if decide (quorum (op_npeers op) ≤ size (op_ballots op))%nat
               then checkLeader op else Some (set_qc false op, []));
  '(op, e2) ← updateMissedHbsAndReconnect op;
  (* 3. clear ballot and increase the round *)
  let op := set_ballots ∅ op in
  let op := set_r (wrap64 (op_r op + 1)) op in
  (* 4. send heartbeat to all peers *)
  e3 ← mapM (λ p, Call op p (MHBRequest (mkHBRequest (op_r op))))
            (filter (λ p, p ≠ op_me op) (peers op));
  Some (op, e1 ++ e2 ++ e3).

(** The goroutine of [startTimer] that captured round [r] and peer [p], when
    its [Call] returned [reply]. *)
Definition heartBeatReply (r p : Z) (reply : HBReply) op : OmniPaxos C :=
  if decide (hbr_Rnd reply = r)
  then set_ballots (<[mkBallot (hbr_Ballot reply) p := hbr_Q reply]> (op_ballots op)) op
  else op.

(** ** Sequence Paxos: the follower's handlers *)
Definition PrepareHandler (req : PrepareRequest) op : run :=
  let n := pr_N req in
  (* 1. *)
  if decide (compare (PromisedRnd (op_os op)) n > 0) then Some (op, [])
  else
    (* 2. update state *)
    let op := set_state (mkState FOLLOWER PREPARE) op in
    (* 3. updated promised round *)
    let op := persist (set_PromisedRnd n op) in
    (* 4. find suffix *)
    sfx ← (if decide (compare (AcceptedRnd (op_os op)) (pr_AccRnd req) > 0)
           then suffix (pr_DecIdx req) op
           else if decide (compare (AcceptedRnd (op_os op)) (pr_AccRnd req) = 0)
           then suffix (pr_LogIdx req) op
           else Some []);
    (* 5. send promise to leader *)
    s ← Call op (pr_L req) (MPromise (mkPromiseRequest (op_me op) n (AcceptedRnd (op_os op))
          (len (Log (op_os op))) (DecidedIdx (op_os op)) sfx));
    Some (op, [s]).

Definition AcceptSyncHandler (req : AcceptSyncRequest C) op : run :=
  let n := as_N req in
  (* 1. only allowed for follower prepare *)
  if decide (compare (PromisedRnd (op_os op)) n ≠ 0 ∨ op_state op ≠ mkState FOLLOWER PREPARE)
  then Some (op, [])
  else
    (* 2. update accepted round and state *)
    let op := set_AcceptedRnd n op in
    let op := set_state (mkState FOLLOWER ACCEPT) op in
    (* 3. update the log *)
    pre ← prefix (as_SyncIdx req) op;
    let op := persist (set_Log (pre ++ as_Sfx req) op) in
    (* 4. send accepted to leader *)
    s ← Call op (as_L req) (MAccepted (mkAcceptedRequest (op_me op) n (len (Log (op_os op)))));
    Some (op, [s]).

Definition DecideHandler (req : DecideRequest) op : run :=
  if decide (dc_DecIdx req ≤ DecidedIdx (op_os op)) then Some (op, [])
  else if decide (dc_DecIdx req > len (Log (op_os op))) then Some (op, [])
  (* 1. only if it is in follower,accept then update decided index *)
  else if decide (compare (PromisedRnd (op_os op)) (dc_N req) = 0 ∧
                  op_state op = mkState FOLLOWER ACCEPT) then
    es ← addToApplyChan (Log (op_os op)) (DecidedIdx (op_os op)) (dc_DecIdx req);
    Some (persist (set_DecidedIdx (dc_DecIdx req) op), es)
  else Some (op, []).

Definition AcceptHandler (req : AcceptRequest C) op : run :=
  (* 1. only accept if follower,accept *)
  if decide (compare (PromisedRnd (op_os op)) (ac_N req) ≠ 0 ∨
             op_state op ≠ mkState FOLLOWER ACCEPT)
  then Some (op, [])
  else
    (* 2. append to log and send accepted to leader *)
    let op := persist (set_Log (Log (op_os op) ++ [ac_C req]) op) in
    s ← Call op (ac_L req)
          (MAccepted (mkAcceptedRequest (op_me op) (ac_N req) (len (Log (op_os op)))));
    Some (op, [s]).

(** ** Sequence Paxos: the leader's handlers *)

(** [func (op *OmniPaxos) maxPromise() *Promise], over the promises in the
    order the run-time ranges over them. *)
Definition maxPromise (ps : list (Promise C)) : Promise C :=
  foldl (λ max p,
    if decide (compare (p_accRnd p) (p_accRnd max) > 0 ∨
               (p_accRnd p = p_accRnd max ∧ p_logIdx p > p_logIdx max))
    then p else max) (mkPromise 0 (mkBallot (-1) (-1)) 0 0 []) ps.

(** The index [AcceptSync] truncates the log of the promised follower to. *)
Definition sync_idx (maxProm p : Promise C) : Z :=
  if decide (p_accRnd p = p_accRnd maxProm) then p_logIdx p else p_decIdx p.

(** [PromiseHandler] in the phase [PREPARE], P1 to P6. *)
Definition promisePrepare `{MapOrder C} (n : Ballot) op : run :=
  (* P1. return if there are no majority yet *)
  if decide (size (op_promises op) < quorum (op_npeers op))%nat then Some (op, [])
  else
    (* P2. find the maximum promise (with accRnd and logIdx) *)
    let maxProm := maxPromise (order (op_promises op)) in
    let op := set_maxProm (Some maxProm) op in
    (* P3. remove extra logs if the leader's accepted round is not the maximum's *)
    log ← (if decide (p_accRnd maxProm ≠ AcceptedRnd (op_os op))
           then prefix (DecidedIdx (op_os op)) op else Some (Log (op_os op)));
    let op := set_Log log op in
    (* P4. append max promise's suffix to the log *)
    let op := set_Log (Log (op_os op) ++ p_log maxProm) op in
    (* P5. append buffer to the log unless it is stopped *)
    let op := if stopped op then set_buffer [] op
              else set_Log (Log (op_os op) ++ op_buffer op) op in
    (* P6. set accepted round, accepted index of the leader, and state *)
    let op := set_AcceptedRnd (op_currentRnd op) op in
    acc ← go_set (op_accepted op) (op_me op) (len (Log (op_os op)));
    let op := set_accepted acc op in
    let op := set_state (mkState LEADER ACCEPT) op in
    (* P6. send AcceptSync to each promised follower *)
    sends ← mapM (λ p,
      sfx ← suffix (sync_idx maxProm p) op;
      Call op (p_f p) (MAcceptSync (mkAcceptSyncRequest (op_me op) n sfx (sync_idx maxProm p))))
      (promise_list op);
    Some (persist op, sends).

(** [PromiseHandler] in the phase [ACCEPT], A1 to A3. *)
Definition promiseAccept (req : PromiseRequest C) op : run :=
  let n := pm_N req in
  (* A1. set syncIdx *)
  maxProm ← op_maxProm op;
  let syncIdx := if decide (pm_AccRnd req = p_accRnd maxProm)
                 then p_logIdx maxProm else pm_DecIdx req in
  (* A2. send AcceptSync to follower *)
  sfx ← suffix syncIdx op;
  s ← Call op (pm_F req) (MAcceptSync (mkAcceptSyncRequest (op_me op) n sfx syncIdx));
  (* A3. send decide to follower if they are behind *)
  d ← (if decide (DecidedIdx (op_os op) > pm_DecIdx req)
       then s ← Call op (pm_F req) (MDecide (mkDecideRequest (op_me op) n (DecidedIdx (op_os op))));
            Some [s]
       else Some []);
  Some (persist op, s :: d).

Definition PromiseHandler `{MapOrder C} (req : PromiseRequest C) op : run :=
  (* 1. *)
  if decide (compare (pm_N req) (op_currentRnd op) ≠ 0) then Some (op, [])
  else
    (* 2. update promise *)
    let promise := mkPromise (pm_F req) (pm_AccRnd req) (pm_LogIdx req) (pm_DecIdx req) (pm_Sfx req) in
    let op := set_promises (<[pm_F req := promise]> (op_promises op)) op in
    (* return if not a leader *)
    if decide (role (op_state op) ≠ LEADER) then Some (op, [])
    else match phase (op_state op) with
    | PREPARE => promisePrepare (pm_N req) op
    | ACCEPT => promiseAccept req op
    | RECOVER => Some (persist op, [])
    end.

Definition hasMajorityAccepted (v : Z) op : bool :=
  bool_decide (Z.of_nat (quorum (op_npeers op)) ≤ len (filter (λ a, (a >= v)%Z) (op_accepted op))).

Definition AcceptedHandler (req : AcceptedRequest) op : run :=
  let n := ad_N req in
  let logIdx := ad_LogIdx req in
  (* 1. only accepted for leader,accept *)
  if decide (compare (PromisedRnd (op_os op)) n ≠ 0 ∨ op_state op ≠ mkState LEADER ACCEPT)
  then Some (op, [])
  else
    (* 2. updated accepted index *)
    acc ← go_set (op_accepted op) (ad_F req) logIdx;
    let op := set_accepted acc op in
    (* 3. *)
    if decide (logIdx > DecidedIdx (op_os op) ∧ hasMajorityAccepted logIdx op = true) then
      es ← addToApplyChan (Log (op_os op)) (DecidedIdx (op_os op)) logIdx;
      let op := persist (set_DecidedIdx logIdx op) in
      sends ← mapM (λ p, Call op (p_f p) (MDecide (mkDecideRequest (op_me op) (op_currentRnd op)
                 (DecidedIdx (op_os op))))) (promise_list op);
      Some (op, es ++ sends)
    else Some (op, []).

(** [Proposal] returns [(index, ballot, isLeader)]. *)
Definition Proposal (command : C) op : option ((Z * Z * bool) * OmniPaxos C * list (Effect C)) :=
  let leader := isLeader op in
  if stopped op then Some ((-1, -1, leader), op, [])
  else if decide (op_state op = mkState LEADER PREPARE) then
    (* P1. add to buffer if in prepare *)
    let op := set_buffer (op_buffer op ++ [command]) op in
    Some ((len (Log (op_os op)) - 1, bN (L (op_os op)), leader), op, [])
  else if decide (op_state op = mkState LEADER ACCEPT) then
    (* A1. append to log and set accepted *)
    let op := set_Log (Log (op_os op) ++ [command]) op in
    acc ← go_set (op_accepted op) (op_me op) (len (Log (op_os op)));
    let op := persist (set_accepted acc op) in
    (* A2. send accept to all promised followers *)
    sends ← mapM (λ p, Call op (p_f p) (MAccept (mkAcceptRequest (op_me op) (op_currentRnd op)
              (len (Log (op_os op))) command)))
              (filter (λ p, p_f p ≠ op_me op) (promise_list op));
    Some ((len (Log (op_os op)) - 1, bN (L (op_os op)), leader), op, sends)
  else Some ((-1, -1, leader), op, []).

(** ** Reconnection and recovery *)
Definition ReconnectedHandler (req : ReconnectedRequest) op : run :=
  let op := if decide (rc_F req = bPid (L (op_os op)))
            then set_state (mkState FOLLOWER RECOVER) op else op in
  s ← Call op (rc_F req) (MPrepareReq (mkPrepareReqRequest (op_me op)));
  Some (op, [s]).

Definition PrepareReqHandler (req : PrepareReqRequest) op : run :=
  if decide (role (op_state op) ≠ LEADER) then Some (op, [])
  else
    s ← Call op (pq_F req) (MPrepare (mkPrepareRequest (op_me op) (op_currentRnd op)
          (AcceptedRnd (op_os op)) (len (Log (op_os op))) (DecidedIdx (op_os op))));
    Some (op, [s]).

(** [checkRecover] is defined in the source; its only call is commented out. *)
Definition checkRecover op : run :=
  if decide (bPid (PromisedRnd (op_os op)) ≠ -1) then
    let op := set_state (mkState FOLLOWER RECOVER) op in
    sends ← mapM (λ p, Call op p (MPrepareReq (mkPrepareReqRequest (op_me op)))) (peers op);
    Some (op, sends)
  else Some (op, []).

(** [Make(peers, me, persister, applyCh)] *)
Definition Make (npeers : nat) (me : Z) (persister : Persister) : run :=
  let op := mkOP npeers me persister 0 0 (mkBallot 0 0) ∅ None (replicate npeers 0) []
              (mkOS (mkBallot (-1) (-1)) [] (mkBallot (-1) (-1)) (mkBallot (-1) (-1)) 0)
              0 (mkBallot 0 me) true ∅ (mkState FOLLOWER PREPARE) false ∅ 0 in
  let op := readPersist op in
  es ← addToApplyChan (Log (op_os op)) 0 (DecidedIdx (op_os op));
  Some (op, es).

(** The RPC dispatch: method name to handler.  [src] is the caller, whose
    [Call] a [HeartBeatHandler]'s reply goes back to. *)
Definition handle `{MapOrder C} (src : Z) (m : Msg C) op : run :=
  match m with
  | MHBRequest req => Some (op, [Send src (MHBReply (hb_Rnd req) (op_me op) (HeartBeatHandler req op))])
  | MHBReply r p reply => Some (heartBeatReply r p reply op, [])
  | MPrepare req => PrepareHandler req op
  | MPromise req => PromiseHandler req op
  | MAcceptSync req => AcceptSyncHandler req op
  | MDecide req => DecideHandler req op
  | MAccepted req => AcceptedHandler req op
  | MAccept req => AcceptHandler req op
  | MPrepareReq req => PrepareReqHandler req op
  | MReconnected req => ReconnectedHandler req op
  end.
End node.
