(* ===== verification/OmniPaxosInv.v ===== *)
(** * Node-level theory of the OmniPaxos peer

    What every handler of [OmniPaxos.v] does to one peer, whatever the network
    delivers: the well-formedness invariant [wf] and its preservation, the
    absence of panics, what is persisted, the monotonicity of the promised
    round and of the decided index, and the stream of [ApplyMsg]s. *)
From S2P Require Import Prelude Ballot Messages Persister OmniPaxos.

(** ** Inverting runs of the loops that send *)
Section inversion.
Context {C : Type} {codec : StateCodec C}.
Implicit Types op : OmniPaxos C.

Definition in_range op (i : Z) : Prop := 0 ≤ i < Z.of_nat (op_npeers op).

Lemma Call_Some op p (m : Msg C) e : Call op p m = Some e ↔ in_range op p ∧ e = Send p m.
Proof. unfold Call, in_range. case_decide; naive_solver. Qed.

Lemma Call_in_range op p (m : Msg C) : in_range op p → Call op p m = Some (Send p m).
Proof. intros. by apply Call_Some. Qed.

Lemma mapM_Call {A} op (f : A → Z) (g : A → Msg C) l es :
  mapM (λ a, Call op (f a) (g a)) l = Some es ↔
  Forall (λ a, in_range op (f a)) l ∧ es = (λ a, Send (f a) (g a)) <$> l.
Proof.
  rewrite mapM_Some. split.
  - induction 1 as [|a e l es Ha Hl [IH1 IH2]]; [done|].
    apply Call_Some in Ha as [? ->]. subst. split; [by constructor|done].
  - intros [H ->]. induction H; simpl; constructor; [by apply Call_in_range|done].
Qed.

Lemma mapM_Call_eq {A} op (f : A → Z) (g : A → Msg C) l :
  Forall (λ a, in_range op (f a)) l →
  mapM (λ a, Call op (f a) (g a)) l = Some ((λ a, Send (f a) (g a)) <$> l).
Proof. intros. by apply mapM_Call. Qed.

Lemma peers_in_range op p : p ∈ peers op ↔ in_range op p.
Proof. unfold peers, in_range. rewrite elem_of_seqZ. lia. Qed.

Lemma Forall_peers op (P : Z → Prop) `{∀ x, Decision (P x)} :
  Forall (λ p, in_range op p) (filter P (peers op)).
Proof.
  apply Forall_forall. intros p. rewrite list_elem_of_filter. intros [_ Hp].
  by apply peers_in_range.
Qed.

Lemma Forall_peers_all op : Forall (λ p, in_range op p) (peers op).
Proof. apply Forall_forall. intros p. by rewrite peers_in_range. Qed.

(** The messages [addToApplyChan(log, from, to)] sends. *)
Definition apply_msgs (log : list C) (from to : Z) : list (Effect C) :=
  imap (λ i c, Apply (mkApplyMsg true c (from + Z.of_nat i)))
       (take (Z.to_nat (to - from)) (drop (Z.to_nat from) log)).

Lemma addToApplyChan_Some log from to es :
  0 ≤ from →
  addToApplyChan log from to = Some es ↔ (to ≤ from ∨ to ≤ len log) ∧ es = apply_msgs log from to.
Proof.
  intros Hf. unfold addToApplyChan, apply_msgs.
  remember (Z.to_nat (to - from)) as k eqn:Hk.
  revert from to es Hf Hk. induction k as [|k IH]; intros from to es Hf Hk.
  - rewrite seqZ_nil by lia. simpl.
    split; [intros [= <-]; split; [lia|done] | by intros [_ ->]].
  - rewrite seqZ_cons by lia. replace (Z.succ from) with (from + 1) by lia.
    replace (Z.pred (to - from)) with (to - (from + 1)) by lia.
    simpl. rewrite bind_Some. setoid_rewrite bind_Some.
    split.
    + intros (y & (c & Hc & [= <-]) & ys & Hys & [= <-]).
      apply go_index_lookup in Hc as [_ Hc].
      apply (IH (from + 1) to) in Hys as [Hr ->]; [|lia..].
      pose proof (lookup_lt_Some _ _ _ Hc).
      split; [lia|]. rewrite (drop_S _ _ _ Hc). simpl.
      replace (Z.to_nat (from + 1)) with (S (Z.to_nat from)) by lia.
      rewrite Z.add_0_r. f_equal. apply imap_ext. intros. simpl.
      do 2 f_equal. lia.
    + intros [Hr ->]. destruct (lookup_lt_is_Some_2 log (Z.to_nat from)) as [c Hc]; [lia|].
      exists (Apply (mkApplyMsg true c from)). split.
      { exists c. by rewrite go_index_lookup. }
      eexists. split. { apply (IH (from + 1) to); [lia..|]. split; [lia|done]. }
      rewrite (drop_S _ _ _ Hc). simpl.
      replace (Z.to_nat (from + 1)) with (S (Z.to_nat from)) by lia.
      rewrite Z.add_0_r. do 2 f_equal. apply imap_ext. intros. simpl.
      do 2 f_equal. lia.
Qed.

Lemma addToApplyChan_total log from to :
  0 ≤ from → to ≤ from ∨ to ≤ len log → addToApplyChan log from to = Some (apply_msgs log from to).
Proof. intros. by apply addToApplyChan_Some. Qed.

Lemma apply_msgs_nil log k : apply_msgs log k k = [].
Proof. unfold apply_msgs. by rewrite Z.sub_diag. Qed.

Lemma applied_apply_msgs log from to :
  applied (apply_msgs log from to) =
  imap (λ i c, mkApplyMsg true c (from + Z.of_nat i))
       (take (Z.to_nat (to - from)) (drop (Z.to_nat from) log)).
Proof.
  unfold apply_msgs, applied. generalize (take (Z.to_nat (to - from)) (drop (Z.to_nat from) log)).
  intros l. revert from. induction l as [|c l IH]; intros from; [done|].
  simpl. f_equal.
  transitivity (omap (λ e : Effect C, match e with Apply m => Some m | _ => None end)
    (imap (λ (i : nat) (c0 : C), Apply (mkApplyMsg true c0 (from + 1 + Z.of_nat i))) l)).
  - f_equal. apply imap_ext. intros. simpl. do 2 f_equal. lia.
  - rewrite IH. apply imap_ext. intros. simpl. f_equal. lia.
Qed.

Lemma sent_apply_msgs log from to : sent (apply_msgs log from to) = [].
Proof.
  unfold apply_msgs, sent. generalize (take (Z.to_nat (to - from)) (drop (Z.to_nat from) log)).
  intros l. revert from. induction l as [|c l IH]; intros from; [done|].
  simpl. rewrite <-(IH (from + 1)). f_equal. apply imap_ext. intros. simpl. do 2 f_equal. lia.
Qed.

Lemma applied_sends {A} (f : A → Z) (g : A → Msg C) l :
  applied ((λ a, Send (f a) (g a)) <$> l) = [].
Proof. induction l; [done|]. simpl. done. Qed.

(** [suffix] and [prefix] in closed form. *)
Lemma suffix_Some idx op l :
  suffix idx op = Some l ↔ 0 ≤ idx ∧ l = drop (Z.to_nat idx) (Log (op_os op)).
Proof.
  unfold suffix, go_from. repeat case_decide; split; intros; inv_run; simplify_eq; try lia; destruct_and?; subst.
  - split; [lia|]. rewrite drop_ge; [done|lia].
  - rewrite drop_ge; [done|lia].
  - split; [lia|done].
  - done.
Qed.

Lemma prefix_Some idx op l :
  prefix idx op = Some l ↔ 0 ≤ idx ∧ l = take (Z.to_nat idx) (Log (op_os op)).
Proof.
  unfold prefix, go_to. repeat case_decide; split; intros; inv_run; simplify_eq; try lia; destruct_and?; subst.
  - split; [lia|]. rewrite !take_ge; [done|lia..].
  - rewrite !take_ge; [done|lia..].
  - split; [lia|done].
  - done.
Qed.
End inversion.

(** Unfold the run of a handler in a hypothesis and split it into its paths. *)
Ltac inv_eff :=
  repeat match goal with
  | H : mapM (λ _, Call _ _ _) _ = Some _ |- _ => apply mapM_Call in H as [? ->]
  | H : Call _ _ _ = Some _ |- _ => apply Call_Some in H as [? ->]
  | H : suffix _ _ = Some _ |- _ => apply suffix_Some in H as [? ->]
  | H : prefix _ _ = Some _ |- _ => apply prefix_Some in H as [? ->]
  | H : Some _ = Some _ |- _ => injection H as H; try subst
  | H : (_, _) = (_, _) |- _ => injection H as H; try subst
  | H : _ ≫= _ = Some _ |- _ => apply bind_Some in H as (? & ? & H)
  | H : None = Some _ |- _ => discriminate H
  | p : prod _ _ |- _ => destruct p
  | H : (if decide ?P then _ else _) = _ |- _ => destruct (decide P)
  | H : context [if decide ?P then _ else _] |- _ => destruct (decide P)
  end.

Ltac handler_inv H :=
  match type of H with
  | handle _ ?m _ = _ => destruct m; simpl in H
  | _ => idtac
  end;
  cbv beta zeta delta [PrepareHandler PromiseHandler AcceptSyncHandler DecideHandler AcceptedHandler
    AcceptHandler ReconnectedHandler PrepareReqHandler Proposal triggerLeader checkLeader
    startTimer heartBeatReply stopped] in H; inv_eff;
  repeat (case_match; inv_eff); simpl in *.

(** ** Well-formedness *)
Section wf.
Context {C : Type} {codec : StateCodec C}.
Implicit Types op : OmniPaxos C.

Definition wf_promise (n : nat) (k : Z) (p : Promise C) : Prop :=
  p_f p = k ∧ 0 ≤ p_f p < Z.of_nat n ∧ 0 ≤ p_logIdx p ∧ 0 ≤ p_decIdx p.

(** The messages a peer may be handed: peer indices are indices of
    [op.peers], log indices are not negative, and a heartbeat reply carries
    the round of its request. *)
Definition wf_msg (n : nat) (m : Msg C) : Prop :=
  match m with
  | MHBRequest _ => True
  | MHBReply r p reply => 0 ≤ p < Z.of_nat n ∧ hbr_Rnd reply = r
  | MPrepare q => 0 ≤ pr_L q < Z.of_nat n ∧ 0 ≤ pr_LogIdx q ∧ 0 ≤ pr_DecIdx q
  | MPromise q => 0 ≤ pm_F q < Z.of_nat n ∧ 0 ≤ pm_LogIdx q ∧ 0 ≤ pm_DecIdx q
  | MAcceptSync q => 0 ≤ as_L q < Z.of_nat n ∧ 0 ≤ as_SyncIdx q
  | MDecide q => 0 ≤ dc_L q < Z.of_nat n ∧ 0 ≤ dc_DecIdx q
  | MAccepted q => 0 ≤ ad_F q < Z.of_nat n ∧ 0 ≤ ad_LogIdx q
  | MAccept q => 0 ≤ ac_L q < Z.of_nat n
  | MPrepareReq q => 0 ≤ pq_F q < Z.of_nat n
  | MReconnected q => 0 ≤ rc_F q < Z.of_nat n
  end.

(** What holds of the state of a peer between two critical sections. *)
Record wf0 op : Prop := {
  wf_me : in_range op (op_me op);
  wf_accepted : length (op_accepted op) = op_npeers op;
  wf_decided : 0 ≤ DecidedIdx (op_os op);
  wf_promises : map_Forall (wf_promise (op_npeers op)) (op_promises op);
  wf_maxProm p : op_maxProm op = Some p → 0 ≤ p_logIdx p;
  wf_ballots : map_Forall (λ b _, in_range op (bPid b)) (op_ballots op);
  wf_b : bPid (op_b op) = op_me op;
  wf_round : ballot_le (AcceptedRnd (op_os op)) (PromisedRnd (op_os op));
  wf_leader : role (op_state op) = LEADER →
    op_currentRnd op = PromisedRnd (op_os op) ∧ bPid (op_currentRnd op) = op_me op ∧
    is_Some (op_maxProm op) ∧ phase (op_state op) ≠ RECOVER;
  wf_leader_accept : op_state op = mkState LEADER ACCEPT →
    AcceptedRnd (op_os op) = op_currentRnd op;
}.

(** [op.os] is what a restart would read back. *)
Definition persisted op : Prop := op_os (readPersist op) = op_os op.

Definition wf op : Prop := wf0 op ∧ persisted op.

(** The effects a handler of a cluster of [n] peers may have. *)
Definition wf_effect (n : nat) (e : Effect C) : Prop :=
  match e with
  | Send d m => 0 ≤ d < Z.of_nat n ∧ wf_msg n m
  | Apply _ => True
  end.

Lemma persisted_persist op : persisted (persist op).
Proof. unfold persisted, readPersist, persist. simpl. by rewrite read_save_decode. Qed.

Lemma readPersist_persist op : op_os (readPersist (persist op)) = op_os op.
Proof. unfold readPersist, persist. simpl. by rewrite read_save_decode. Qed.

(** A promise map with one more well-formed promise. *)
Lemma wf_promises_insert n k p (m : gmap Z (Promise C)) :
  wf_promise n k p → map_Forall (wf_promise n) m → map_Forall (wf_promise n) (<[k:=p]> m).
Proof. intros. by apply map_Forall_insert_2. Qed.

Lemma promise_list_elem op p :
  p ∈ promise_list op ↔ ∃ k, op_promises op !! k = Some p.
Proof.
  unfold promise_list. rewrite list_elem_of_fmap. split.
  - intros ([k q] & -> & Hk). exists k. by apply elem_of_map_to_list in Hk.
  - intros [k Hk]. exists (k, p). split; [done|]. by apply elem_of_map_to_list.
Qed.

(** Every promise the leader ranges over is well formed. *)
Lemma promise_list_wf op :
  map_Forall (wf_promise (op_npeers op)) (op_promises op) →
  Forall (λ p, wf_promise (op_npeers op) (p_f p) p) (promise_list op).
Proof.
  intros H. apply Forall_forall. intros p [k Hk]%promise_list_elem.
  pose proof (H _ _ Hk) as Hp. destruct Hp as [<- ?]. by split.
Qed.

(** [maxPromise] is one of the promises or the constant it starts from. *)
Lemma maxPromise_elem (ps : list (Promise C)) :
  maxPromise ps = mkPromise 0 (mkBallot (-1) (-1)) 0 0 [] ∨ maxPromise ps ∈ ps.
Proof.
  unfold maxPromise. induction ps as [|p ps IH] using rev_ind; [by left|].
  rewrite foldl_snoc. case_decide; [right; set_solver|].
  destruct IH; [by left|right; set_solver].
Qed.

(** The order [maxPromise] maximises: the accepted round, then the length. *)
Definition promise_le (p q : Promise C) : Prop :=
  ballot_lt (p_accRnd p) (p_accRnd q) ∨ p_accRnd p = p_accRnd q ∧ p_logIdx p ≤ p_logIdx q.

Lemma promise_le_trans p q r : promise_le p q → promise_le q r → promise_le p r.
Proof.
  intros [H1|[H1 H1']] [H2|[H2 H2']].
  - left. by etrans.
  - left. by rewrite <-H2.
  - left. by rewrite H1.
  - right. split; [congruence|lia].
Qed.

Lemma maxPromise_ge (ps : list (Promise C)) :
  promise_le (mkPromise 0 (mkBallot (-1) (-1)) 0 0 []) (maxPromise ps) ∧
  ∀ p, p ∈ ps → promise_le p (maxPromise ps).
Proof.
  assert (∀ p, promise_le p p) as Hrefl by (intros p; by right).
  unfold maxPromise. induction ps as [|p ps [IH1 IH2]] using rev_ind.
  { split; [by right|]. intros p Hp. by apply not_elem_of_nil in Hp. }
  rewrite foldl_snoc. set (mx := foldl _ _ ps) in *.
  assert (∀ m, promise_le mx m → promise_le p m →
    promise_le (mkPromise 0 (mkBallot (-1) (-1)) 0 0 []) m ∧ ∀ q, q ∈ ps ++ [p] → promise_le q m) as Hm.
  { intros m H1 H2. split; [by eapply promise_le_trans|].
    intros q [Hq| ->%list_elem_of_singleton]%elem_of_app; [|done].
    eapply promise_le_trans; [by apply IH2|done]. }
  case_decide as Hd; apply Hm; try done.
  - destruct Hd as [Hd|[Hd ?]]; [left; by apply compare_flip|right; split; [done|lia]].
  - apply not_or_1 in Hd as [Hd%ballot_not_gt Hl].
    apply ballot_le_lt_eq in Hd as [Hd|He]; [by left|right]. split; [done|].
    destruct (decide (p_logIdx p ≤ p_logIdx mx)); [done|]. exfalso. apply Hl. split; [done|lia].
Qed.

Lemma order_elem `{MapOrder C} m p : p ∈ order m ↔ ∃ k, m !! k = Some p.
Proof.
  rewrite order_perm, list_elem_of_fmap. split.
  - intros ([k q] & -> & Hk). exists k. by apply elem_of_map_to_list in Hk.
  - intros [k Hk]. exists (k, p). split; [done|]. by apply elem_of_map_to_list.
Qed.

Lemma maxPromise_wf `{MapOrder C} n m :
  map_Forall (wf_promise n) m → 0 ≤ p_logIdx (maxPromise (order m)).
Proof.
  intros Hm. destruct (maxPromise_elem (order m)) as [-> |[k Hk]%order_elem]; [done|].
  by destruct (Hm _ _ Hk) as (_ & _ & ? & _).
Qed.
End wf.
#[export] Hint Resolve wf_promises_insert maxPromise_wf : go.

(** ** Updates that keep a peer well formed *)
Create HintDb wf.

Section updates.
Context {C : Type} {codec : StateCodec C}.
Implicit Types op : OmniPaxos C.

Ltac by_fields := intros; match goal with H : wf0 _ |- _ => destruct H end;
  split; unfold in_range in *; simpl in *; auto.

Lemma wf0_persist op : wf0 op → wf0 (persist op).
Proof. by_fields. Qed.
Lemma wf0_set_Log x op : wf0 op → wf0 (set_Log x op).
Proof. by_fields. Qed.
Lemma wf0_set_L x op : wf0 op → wf0 (set_L x op).
Proof. by_fields. Qed.
Lemma wf0_set_DecidedIdx x op : 0 ≤ x → wf0 op → wf0 (set_DecidedIdx x op).
Proof. by_fields. Qed.
Lemma wf0_set_accepted x op : length x = op_npeers op → wf0 op → wf0 (set_accepted x op).
Proof. by_fields. Qed.
Lemma wf0_set_promises x op :
  map_Forall (wf_promise (op_npeers op)) x → wf0 op → wf0 (set_promises x op).
Proof. by_fields. Qed.
Lemma wf0_set_maxProm p op : 0 ≤ p_logIdx p → wf0 op → wf0 (set_maxProm (Some p) op).
Proof. by_fields; [by intros ? [= <-] | naive_solver]. Qed.
Lemma wf0_set_buffer x op : wf0 op → wf0 (set_buffer x op).
Proof. by_fields. Qed.
Lemma wf0_set_b x op : bPid x = op_me op → wf0 op → wf0 (set_b x op).
Proof. by_fields. Qed.
Lemma wf0_set_qc x op : wf0 op → wf0 (set_qc x op).
Proof. by_fields. Qed.
Lemma wf0_set_r x op : wf0 op → wf0 (set_r x op).
Proof. by_fields. Qed.
Lemma wf0_set_linkDrop x op : wf0 op → wf0 (set_linkDrop x op).
Proof. by_fields. Qed.
Lemma wf0_set_missed x op : wf0 op → wf0 (set_missedHbCounts x op).
Proof. by_fields. Qed.
Lemma wf0_set_restart x op : wf0 op → wf0 (set_restart_loop x op).
Proof. by_fields. Qed.
Lemma wf0_set_ballots x op :
  map_Forall (λ b _, in_range op (bPid b)) x → wf0 op → wf0 (set_ballots x op).
Proof. by_fields. Qed.
Lemma wf0_follower ph op : wf0 op → wf0 (set_state (mkState FOLLOWER ph) op).
Proof. by_fields; [intros; discriminate..]. Qed.
Lemma wf0_promise n op :
  role (op_state op) = FOLLOWER → ballot_le (PromisedRnd (op_os op)) n →
  wf0 op → wf0 (set_PromisedRnd n op).
Proof. by_fields; [by etrans | congruence]. Qed.
Lemma wf0_set_AcceptedRnd n op :
  ballot_le n (PromisedRnd (op_os op)) →
  (op_state op = mkState LEADER ACCEPT → n = op_currentRnd op) →
  wf0 op → wf0 (set_AcceptedRnd n op).
Proof. by_fields. Qed.
Lemma wf0_leader_accept op :
  role (op_state op) = LEADER → AcceptedRnd (op_os op) = op_currentRnd op →
  wf0 op → wf0 (set_state (mkState LEADER ACCEPT) op).
Proof. by_fields; naive_solver. Qed.

Lemma wf_persist op : wf0 op → wf (persist op).
Proof. split; [by apply wf0_persist | apply persisted_persist]. Qed.

(** An update that leaves the persisted state and the persister alone. *)
Lemma wf_frame op op' :
  persisted op → op_os op' = op_os op → op_persister op' = op_persister op →
  wf0 op' → wf op'.
Proof.
  intros Hp Hos Hps ?. split; [done|]. unfold persisted, readPersist in *. simpl in *.
  by rewrite Hos, Hps.
Qed.

Lemma go_set_length {A} (l l' : list A) i x : go_set l i x = Some l' → length l' = length l.
Proof. unfold go_set. case_decide; [|done]. intros [= <-]. apply length_insert. Qed.
End updates.
#[export] Hint Resolve wf0_persist wf0_set_Log wf0_set_L wf0_set_DecidedIdx wf0_set_accepted
  wf0_set_promises wf0_set_maxProm wf0_set_buffer wf0_set_b wf0_set_qc wf0_set_r wf0_set_linkDrop
  wf0_set_missed wf0_set_restart wf0_set_ballots wf0_follower wf0_promise wf0_set_AcceptedRnd
  wf0_leader_accept wf_persist : wf.

(** ** Every handler preserves [wf] and has well-formed effects *)
Section preservation.
Context {C : Type} {codec : StateCodec C}.
Implicit Types op : OmniPaxos C.

Record good op op' (es : list (Effect C)) : Prop := {
  good_wf : wf op';
  good_effects : Forall (wf_effect (op_npeers op)) es;
  good_npeers : op_npeers op' = op_npeers op;
  good_me : op_me op' = op_me op;
}.

Lemma good_refl op : wf op → good op op [].
Proof. by split. Qed.

Lemma wf_effects_sends {A} n (f : A → Z) (g : A → Msg C) l :
  Forall (λ a, 0 ≤ f a < Z.of_nat n) l → (∀ a, a ∈ l → wf_msg n (g a)) →
  Forall (wf_effect n) ((λ a, Send (f a) (g a)) <$> l).
Proof.
  rewrite Forall_fmap, !Forall_forall. intros Hf Hg a Ha. simpl. split; [by apply Hf | auto].
Qed.

Lemma wf_effects_apply n log from to : Forall (wf_effect n) (apply_msgs (C := C) log from to).
Proof.
  unfold apply_msgs. apply Forall_forall. intros e He.
  apply list_elem_of_lookup in He as [i Hi]. rewrite list_lookup_imap in Hi.
  apply fmap_Some in Hi as (c & _ & ->). done.
Qed.

(** The facts of a well-formed peer that the handlers use. *)
Ltac wf_facts Hwf :=
  let H := fresh in pose proof (proj1 Hwf) as H; destruct H; unfold in_range in *; simpl in *;
  destruct_and?;
  repeat match goal with
  | H : addToApplyChan _ _ _ = Some _ |- _ => apply addToApplyChan_Some in H as [? ->]; [|done]
  | H : go_set _ _ _ = Some _ |- _ => apply go_set_length in H
  | H : ¬ compare _ _ > 0 |- _ => apply ballot_not_gt in H
  | H : ¬ (compare _ _ ≠ 0 ∨ _) |- _ => apply not_or_1 in H as [H ?]
  | H : ¬ compare _ _ ≠ 0 |- _ => apply dec_stable, compare_eq in H
  | H : compare _ _ = 0 |- _ => apply compare_eq in H
  | H : ¬ op_state _ ≠ _ |- _ => apply dec_stable in H
  | H : ¬ role (op_state _) ≠ _ |- _ => apply dec_stable in H
  end.
Ltac wf_frame := eapply wf_frame; [by match goal with H : wf _ |- _ => apply H end | done | done |].
Ltac effects := repeat first
  [ apply Forall_app_2 | apply wf_effects_apply
  | apply wf_effects_sends; [eassumption|intros; simpl; lia]
  | constructor ]; simpl; try lia.
Ltac good_done Hwf :=
  pose proof (proj1 Hwf : wf0 _); wf_facts Hwf;
  (split; [ first [apply wf_persist | wf_frame]; eauto 12 with wf | effects | done | done ]).

Lemma PrepareHandler_good op req op' es :
  wf op → wf_msg (C := C) (op_npeers op) (MPrepare req) →
  PrepareHandler req op = Some (op', es) → good op op' es.
Proof. intros Hwf Hm H. handler_inv H; [by apply good_refl|good_done Hwf..]. Qed.

Lemma AcceptSyncHandler_good op req op' es :
  wf op → wf_msg (op_npeers op) (MAcceptSync req) →
  AcceptSyncHandler req op = Some (op', es) → good op op' es.
Proof.
  intros Hwf Hm H. handler_inv H; [by apply good_refl|]. good_done Hwf.
  apply wf0_set_Log, wf0_follower, wf0_set_AcceptedRnd; [|congruence|done].
  by apply ballot_eq_le.
Qed.

Lemma DecideHandler_good op req op' es :
  wf op → wf_msg (C := C) (op_npeers op) (MDecide req) →
  DecideHandler req op = Some (op', es) → good op op' es.
Proof. intros Hwf Hm H. handler_inv H; try by apply good_refl. good_done Hwf. Qed.

Lemma AcceptHandler_good op req op' es :
  wf op → wf_msg (op_npeers op) (MAccept req) →
  AcceptHandler req op = Some (op', es) → good op op' es.
Proof. intros Hwf Hm H. handler_inv H; [by apply good_refl|]. good_done Hwf. Qed.

Lemma PrepareReqHandler_good op req op' es :
  wf op → wf_msg (C := C) (op_npeers op) (MPrepareReq req) →
  PrepareReqHandler req op = Some (op', es) → good op op' es.
Proof. intros Hwf Hm H. handler_inv H; [by apply good_refl|]. good_done Hwf. Qed.

Lemma ReconnectedHandler_good op req op' es :
  wf op → wf_msg (C := C) (op_npeers op) (MReconnected req) →
  ReconnectedHandler req op = Some (op', es) → good op op' es.
Proof. intros Hwf Hm H. handler_inv H; good_done Hwf. Qed.

Lemma heartBeatReply_good op r p reply :
  wf op → wf_msg (C := C) (op_npeers op) (MHBReply r p reply) →
  good op (heartBeatReply r p reply op) [].
Proof.
  intros Hwf [Hm _]. unfold heartBeatReply. case_decide; [|by apply good_refl].
  good_done Hwf. apply wf0_set_ballots; [|done]. by apply map_Forall_insert_2.
Qed.

Lemma AcceptedHandler_good op req op' es :
  wf op → wf_msg (C := C) (op_npeers op) (MAccepted req) →
  AcceptedHandler req op = Some (op', es) → good op op' es.
Proof.
  intros Hwf Hm H. handler_inv H; [by apply good_refl|good_done Hwf..].
  - apply wf0_set_DecidedIdx, wf0_set_accepted; [lia|congruence|done].
  - apply wf0_set_accepted; [congruence|done].
Qed.

Lemma Proposal_good c op res op' es :
  wf op → Proposal c op = Some (res, op', es) → good op op' es.
Proof.
  intros Hwf H. handler_inv H; [good_done Hwf..|by apply good_refl].
  apply wf0_set_accepted, wf0_set_Log; [simpl in *; congruence|done].
Qed.

(** The promise of a follower, stored, is well formed. *)
Lemma wf_promise_req n req :
  wf_msg (C := C) n (MPromise req) →
  wf_promise n (pm_F req)
    (mkPromise (pm_F req) (pm_AccRnd req) (pm_LogIdx req) (pm_DecIdx req) (pm_Sfx req)).
Proof. intros (? & ? & ?). unfold wf_promise; simpl. auto. Qed.
Hint Resolve wf_promise_req : wf.

(** The loop of [AcceptSync]s, in closed form. *)
Definition AcceptSync_to (me : Z) (log : list C) (n : Ballot) (max p : Promise C) : Effect C :=
  Send (p_f p) (MAcceptSync (mkAcceptSyncRequest me n
    (drop (Z.to_nat (sync_idx max p)) log) (sync_idx max p))).

Lemma mapM_AcceptSync op me n max (ps : list (Promise C)) es :
  mapM (λ p, suffix (sync_idx max p) op ≫= λ sfx,
          Call op (p_f p) (MAcceptSync (mkAcceptSyncRequest me n sfx (sync_idx max p)))) ps = Some es ↔
  Forall (λ p, in_range op (p_f p) ∧ 0 ≤ sync_idx max p) ps ∧
  es = AcceptSync_to me (Log (op_os op)) n max <$> ps.
Proof.
  rewrite mapM_Some. split.
  - induction 1 as [|p e l es Hp Hl [IH1 IH2]]; [done|].
    apply bind_Some in Hp as (? & [? ->]%suffix_Some & [? ->]%Call_Some). subst.
    split; [by constructor|done].
  - intros [H ->]. induction H as [|p l [Hr Hs] _ IH]; simpl; constructor; [|done].
    apply bind_Some. eexists. split; [by apply suffix_Some|]. by apply Call_in_range.
Qed.

(** The log the leader adopts in P3 to P5. *)
Definition adopted_log op (max : Promise C) : list C :=
  (if decide (p_accRnd max ≠ AcceptedRnd (op_os op))
   then take (Z.to_nat (DecidedIdx (op_os op))) (Log (op_os op)) else Log (op_os op))
  ++ p_log max ++ op_buffer op.

(** P2 to P6 of [PromiseHandler] as one update. *)
Definition adopt (max : Promise C) acc op : OmniPaxos C :=
  set_state (mkState LEADER ACCEPT) (set_accepted acc (set_AcceptedRnd (op_currentRnd op)
    (set_Log (adopted_log op max) (set_maxProm (Some max) op)))).

Lemma promisePrepare_Some `{MapOrder C} n op op' es :
  promisePrepare n op = Some (op', es) ↔
  ((size (op_promises op) < quorum (op_npeers op))%nat ∧ op' = op ∧ es = []) ∨
  (quorum (op_npeers op) ≤ size (op_promises op))%nat ∧
  ∃ acc, let max := maxPromise (order (op_promises op)) in
    (p_accRnd max ≠ AcceptedRnd (op_os op) → 0 ≤ DecidedIdx (op_os op)) ∧
    go_set (op_accepted op) (op_me op) (len (adopted_log op max)) = Some acc ∧
    Forall (λ p, in_range op (p_f p) ∧ 0 ≤ sync_idx max p) (promise_list op) ∧
    op' = persist (adopt max acc op) ∧
    es = AcceptSync_to (op_me op) (adopted_log op max) n max <$> promise_list op.
Proof.
  unfold promisePrepare, stopped. case_decide as Hq; [naive_solver lia|].
  set (max := maxPromise _).
  assert (∀ log, (if decide (p_accRnd max ≠ AcceptedRnd (op_os op))
           then prefix (DecidedIdx (op_os op)) (set_maxProm (Some max) op)
           else Some (Log (op_os op))) = Some log ↔
           (p_accRnd max ≠ AcceptedRnd (op_os op) → 0 ≤ DecidedIdx (op_os op)) ∧
           log ++ p_log max ++ op_buffer op = adopted_log op max) as Hlog.
  { intros log. unfold adopted_log. case_decide.
    - rewrite prefix_Some. simpl. split; [intros [? ->]; auto|]. intros [? ?%app_inv_tail]. auto.
    - split; [by intros [= <-]|]. intros [_ ->%app_inv_tail]. done. }
  simpl. rewrite bind_Some. split.
  - intros (log & [Hd Hl]%Hlog & (acc & Hacc & (sends & Hs%mapM_AcceptSync & [= <- <-])%bind_Some)%bind_Some).
    right. split; [lia|]. exists acc. simpl in *.
    rewrite <-(assoc_L (++)), Hl in *. destruct Hs as [Hf ->]. by split_and!.
  - intros [?|(_ & acc & Hd & Hacc & Hf & -> & ->)]; [lia|].
    exists (if decide (p_accRnd max ≠ AcceptedRnd (op_os op))
            then take (Z.to_nat (DecidedIdx (op_os op))) (Log (op_os op)) else Log (op_os op)).
    split; [by apply Hlog|]. simpl. rewrite <-(assoc_L (++)).
    change (_ ++ p_log max ++ op_buffer op) with (adopted_log op max). rewrite Hacc. simpl.
    apply bind_Some. eexists. split; [by apply mapM_AcceptSync|]. done.
Qed.

Lemma promiseAccept_Some op req op' es :
  promiseAccept req op = Some (op', es) ↔
  ∃ max, op_maxProm op = Some max ∧
    let syncIdx := if decide (pm_AccRnd req = p_accRnd max) then p_logIdx max else pm_DecIdx req in
    0 ≤ syncIdx ∧ in_range op (pm_F req) ∧ op' = persist op ∧
    es = Send (pm_F req) (MAcceptSync (mkAcceptSyncRequest (op_me op) (pm_N req)
           (drop (Z.to_nat syncIdx) (Log (op_os op))) syncIdx)) ::
         (if decide (DecidedIdx (op_os op) > pm_DecIdx req)
          then [Send (pm_F req) (MDecide (mkDecideRequest (op_me op) (pm_N req) (DecidedIdx (op_os op))))]
          else []).
Proof.
  unfold promiseAccept. rewrite bind_Some. split.
  - intros (max & Hmax & (sfx & [? ->]%suffix_Some & (s & [? ->]%Call_Some & (d & Hd & [= <- <-])%bind_Some)%bind_Some)%bind_Some).
    exists max. split_and!; [done..|]. f_equal.
    destruct (decide (_ > _)); [|naive_solver]. by apply bind_Some in Hd as (? & [? ->]%Call_Some & [= <-]).
  - intros (max & Hmax & Hs & Hr & -> & ->). exists max. split; [done|].
    apply bind_Some. eexists. split; [by apply suffix_Some|].
    rewrite !Call_in_range by done. simpl. by destruct (decide (_ > _)).
Qed.

(** P2 to P6 of [PromiseHandler] keep the leader well formed. *)
Lemma wf0_adopt op max acc :
  wf0 op → role (op_state op) = LEADER → 0 ≤ p_logIdx max → length acc = op_npeers op →
  wf0 (adopt max acc op).
Proof.
  intros Hwf Hl ??. pose proof (wf_leader _ Hwf Hl) as (Hc & _).
  apply wf0_leader_accept; [done..|].
  apply wf0_set_accepted; [done|]. apply wf0_set_AcceptedRnd; simpl; [by apply ballot_eq_le|done|].
  auto with wf.
Qed.

Lemma wf_AcceptSync_to op log n max ps :
  in_range op (op_me op) → Forall (λ p, in_range op (p_f p) ∧ 0 ≤ sync_idx max p) ps →
  Forall (wf_effect (op_npeers op)) (AcceptSync_to (op_me op) log n max <$> ps).
Proof. intros Hme Hps. apply Forall_fmap. eapply Forall_impl; [done|]. intros p [? ?]. done. Qed.

Lemma PromiseHandler_good `{MapOrder C} op req op' es :
  wf op → wf_msg (op_npeers op) (MPromise req) →
  PromiseHandler req op = Some (op', es) → good op op' es.
Proof.
  intros [Hwf Hps] Hm. pose proof (wf_promise_req _ _ Hm) as Hp. unfold PromiseHandler.
  case_decide as Hn; [by intros [= <- <-]; apply good_refl|].
  set (op1 := set_promises _ op).
  assert (wf0 op1) as Hwf1 by (unfold op1; apply wf0_set_promises; [|done];
    apply wf_promises_insert; [done|apply Hwf]).
  assert (persisted op1) as Hps1 by apply Hps.
  case_decide as Hr; [by intros [= <- <-]|].
  destruct (phase (op_state op1)) eqn:Hph.
  - intros [(? & -> & ->)|(_ & acc & _ & Hacc & Hf & -> & ->)]%promisePrepare_Some; [done|].
    apply go_set_length in Hacc. split; [|by apply (wf_AcceptSync_to op1), Hf; apply Hwf|done|done].
    apply wf_persist, wf0_adopt; [done|done| |].
    + eapply maxPromise_wf, Hwf1.
    + rewrite Hacc. apply Hwf1.
  - intros (max & Hmax & Hs & Hrg & -> & ->)%promiseAccept_Some.
    split; [by apply wf_persist| |done|done].
    destruct Hwf1 as [Hme Ha Hd]. unfold in_range in *.
    repeat constructor; simpl in *; try lia; try done.
    destruct (decide (_ > _)); repeat constructor; simpl in *; lia.
  - intros [= <- <-]. split; [by apply wf_persist|constructor|done|done].
Qed.

(** Becoming leader: the fields [triggerLeader] resets, as one update. *)
Definition become_leader (n : Ballot) op : OmniPaxos C :=
  set_promises {[ op_me op := mkPromise (op_me op) (AcceptedRnd (op_os op)) (len (Log (op_os op)))
                    (DecidedIdx (op_os op)) (drop (Z.to_nat (DecidedIdx (op_os op))) (Log (op_os op))) ]}
  (set_PromisedRnd n (set_currentRnd n (set_state (mkState LEADER PREPARE) (set_qc true
  (set_buffer [] (set_maxProm (Some (mkPromise 0 (mkBallot 0 0) 0 0 []))
  (set_accepted (replicate (length (op_accepted op)) 0) op))))))).

Definition Prepare_from op (n : Ballot) : Msg C :=
  MPrepare (mkPrepareRequest (op_me op) n (AcceptedRnd (op_os op)) (len (Log (op_os op)))
              (DecidedIdx (op_os op))).

Lemma triggerLeader_Some s n op op' es :
  0 ≤ DecidedIdx (op_os op) →
  triggerLeader s n op = Some (op', es) ↔
  (s = op_me op ∧ compare n (PromisedRnd (op_os op)) > 0 ∧ op' = persist (become_leader n op) ∧
   es = (λ p, Send p (Prepare_from op n)) <$> filter (λ p, p ≠ op_me op) (peers op)) ∨
  (¬ (s = op_me op ∧ compare n (PromisedRnd (op_os op)) > 0) ∧
   op' = set_state (mkState FOLLOWER (phase (op_state op))) op ∧ es = []).
Proof.
  intros Hd. unfold triggerLeader. case_decide as Hc; [|naive_solver].
  rewrite bind_Some. split.
  - intros (log & [? ->]%suffix_Some & (sends & [_ ->]%mapM_Call & [= <- <-])%bind_Some).
    left. destruct Hc. split_and!; [done..| |done].
    unfold become_leader. simpl. by rewrite insert_empty.
  - intros [(? & ? & -> & ->)|(? & ?)]; [|done]. eexists.
    split; [by apply suffix_Some|]. apply bind_Some. eexists.
    split; [apply mapM_Call; split; [apply (Forall_peers op)|done]|].
    unfold become_leader. simpl. by rewrite insert_empty.
Qed.

Lemma triggerLeader_good s n op op' es :
  wf0 op → persisted op → bPid n = s →
  triggerLeader s n op = Some (op', es) → good op op' es.
Proof.
  intros Hwf Hps Hs. rewrite triggerLeader_Some by apply Hwf.
  intros [(-> & Hn & -> & ->)|(_ & -> & ->)].
  - pose proof Hwf as [? ? ? ? ? ? ? ?]. unfold in_range in *. split; [|..|done|done].
    + apply wf_persist. split; unfold in_range; simpl in *; auto.
      * by rewrite length_replicate.
      * intros k p [<- <-]%lookup_singleton_Some. unfold wf_promise; simpl. lia.
      * by intros ? [= <-].
      * apply compare_flip in Hn. etrans; [done|]. by apply ballot_lt_le.
      * done.
    + apply wf_effects_sends; [apply (Forall_peers op)|]. intros; simpl. lia.
  - split; [|constructor|done|done]. split; [by apply wf0_follower | done].
Qed.

Lemma checkLeader_good op op' es :
  wf op → checkLeader op = Some (op', es) → good op op' es.
Proof.
  intros [Hwf Hps]. unfold checkLeader.
  case_decide; [|case_decide].
  - intros [= <- <-]. split; [|constructor|done|done]. split; [|done].
    apply wf0_set_qc, wf0_set_b; [apply Hwf|done].
  - intros Ht. pose proof (persisted_persist (set_L (max_ballot (candidates op)) op)) as Hp.
    apply triggerLeader_good in Ht; [|auto with wf|done|done].
    destruct Ht. by split.
  - intros [= <- <-]. by apply good_refl.
Qed.
End preservation.

(** ** The timer loop *)
Section timer.
Context {C : Type} {codec : StateCodec C}.
Implicit Types op : OmniPaxos C.

(** The calls of [updateMissedHbsAndReconnect]: they carry the caller only. *)
Definition nudge op (e : Effect C) : Prop :=
  ∃ p, in_range op p ∧ (e = Send p (MReconnected (mkReconnectedRequest (op_me op))) ∨
                        e = Send p (MPrepareReq (mkPrepareReqRequest (op_me op)))).

Lemma seen_ballots_total op bs missed all es :
  Forall (λ b, in_range op (bPid b)) bs → Forall (nudge op) es →
  ∃ missed' all' es', foldl (λ acc b, st ← acc; seen_ballot op st b) (Some (missed, all, es)) bs =
    Some (missed', all', es') ∧ Forall (nudge op) es'.
Proof.
  intros Hbs. revert missed all es. induction Hbs as [|b bs Hb _ IH]; intros missed all es Hes; [by eauto|].
  simpl. case_decide; [by apply IH|].
  case_decide; [rewrite Call_in_range by done|]; simpl; apply IH.
  - apply Forall_app_2; [done|]. constructor; [|constructor]. exists (bPid b). auto.
  - by rewrite app_nil_r.
Qed.

Lemma updateMissed_total op :
  map_Forall (λ b _, in_range op (bPid b)) (op_ballots op) →
  ∃ m ld rl es, updateMissedHbsAndReconnect op =
    Some (set_restart_loop rl (set_linkDrop ld (set_missedHbCounts m op)), es) ∧ Forall (nudge op) es.
Proof.
  intros Hb. unfold updateMissedHbsAndReconnect.
  destruct (seen_ballots_total op (map_to_list (op_ballots op)).*1 (op_missedHbCounts op)
    (list_to_set (filter (λ p, p ≠ op_me op) (peers op))) []) as (m & all & es & -> & Hes); [|constructor|].
  { apply Forall_forall. intros b ([b' q] & -> & Hq%elem_of_map_to_list)%list_elem_of_fmap.
    by apply (Hb _ _ Hq). }
  assert (∀ op2 : OmniPaxos C, op_npeers op2 = op_npeers op → op_me op2 = op_me op →
    ∃ e2, (if decide (op_restart_loop op2 = 2)
           then mapM (λ p, Call op2 p (MPrepareReq (mkPrepareReqRequest (op_me op2)))) (peers op2)
           else Some []) = Some e2 ∧ Forall (nudge op) e2) as Hreq.
  { intros op2 Hn Hme. case_decide; [|by eexists].
    eexists. split; [by apply mapM_Call; split; [apply (Forall_peers_all op2)|]|].
    apply Forall_fmap, Forall_forall. intros p Hp%peers_in_range. exists p.
    unfold in_range in *. rewrite Hn, Hme in *. auto. }
  simpl. match goal with |- context [set_restart_loop _ ?o] => set (o1 := o) end.
  assert (∃ ld m', o1 = set_linkDrop ld (set_missedHbCounts m' op)) as (ld & m' & ->).
  { unfold o1. case_decide; [by eauto|]. simpl. destruct (op_linkDrop op) eqn:Hld; [by eauto|].
    exists false. eexists. rewrite <-Hld. reflexivity. }
  match goal with |- context [set_restart_loop ?rl ?o] => destruct (Hreq (set_restart_loop rl o) eq_refl eq_refl) as (e2 & He & He2) end.
  simpl in *. rewrite He. simpl. eexists _, _, _, _. split; [reflexivity|by apply Forall_app_2].
Qed.

(** The messages a heartbeat round sends to everyone. *)
Definition heartbeat op (e : Effect C) : Prop :=
  ∃ p r, in_range op p ∧ e = Send p (MHBRequest (mkHBRequest r)).

Definition election op : option (OmniPaxos C * list (Effect C)) :=
  let op := set_ballots (<[op_b op := op_qc op]> (op_ballots op)) op in
  if decide (quorum (op_npeers op) ≤ size (op_ballots op))%nat
  then checkLeader op else Some (set_qc false op, []).

(** One iteration of [startTimer] is the election and then bookkeeping that
    touches neither the persisted state nor the role. *)
Lemma startTimer_Some op op' es :
  wf op → startTimer op = Some (op', es) →
  ∃ op1 e1 e2 m ld rl rd, election op = Some (op1, e1) ∧ good op op1 e1 ∧
    op' = set_r rd (set_ballots ∅ (set_restart_loop rl (set_linkDrop ld (set_missedHbCounts m op1)))) ∧
    es = e1 ++ e2 ∧ Forall (λ e, nudge op e ∨ heartbeat op e) e2.
Proof.
  intros Hwf. unfold startTimer. simpl.
  rewrite bind_Some. intros ([op1 e1] & He & H).
  assert (election op = Some (op1, e1)) as Hel by exact He.
  assert (good op op1 e1) as Hg.
  { destruct Hwf as [Hwf Hps].
    assert (wf (set_ballots (<[op_b op := op_qc op]> (op_ballots op)) op)) as Hwf'.
    { split; [|done]. apply wf0_set_ballots; [|done]. apply map_Forall_insert_2; [|apply Hwf].
      rewrite (wf_b _ Hwf). apply Hwf. }
    case_decide; [by apply checkLeader_good in He as []|]. injection He as <- <-.
    split; [|constructor|done|done]. split; [apply wf0_set_qc, Hwf'|done]. }
  destruct (updateMissed_total op1) as (m & ld & rl & e2 & Hu & Hn); [apply Hg|].
  rewrite Hu in H. simpl in H. apply bind_Some in H as (e3 & [_ ->]%mapM_Call & [= <- <-]).
  eexists op1, e1, _, m, ld, rl, _. split_and!; [done..|].
  destruct Hg as [_ _ Hnp Hme].
  apply Forall_app_2.
  - eapply Forall_impl; [exact Hn|]. intros e (p & Hp & He'). left. exists p.
    unfold in_range in *. by rewrite <-Hme, <-Hnp.
  - apply Forall_fmap, Forall_forall. intros p [_ Hp%peers_in_range]%list_elem_of_filter.
    right. exists p. eexists. split; [|done]. unfold in_range in *. simpl in *. by rewrite <-Hnp.
Qed.

Lemma startTimer_good op op' es : wf op → startTimer op = Some (op', es) → good op op' es.
Proof.
  intros Hwf H. destruct (startTimer_Some _ _ _ Hwf H) as
    (op1 & e1 & e2 & m & ld & rl & rd & _ & [[Hwf1 Hps1] He1 Hn Hme] & -> & -> & He2).
  split; [|apply Forall_app_2; [done|] |done|done].
  - split; [|done]. apply wf0_set_r, wf0_set_ballots; [|by auto with wf].
    apply map_Forall_empty.
  - eapply Forall_impl; [exact He2|].
    pose proof (wf_me _ (proj1 Hwf)) as Hmr.
    intros e [(p & Hp & [-> | ->])|(p & r & Hp & ->)]; split; done.
Qed.

(** [Make] on the persister of a peer whose decided prefix is inside its
    log: the persisted state is read back and the decided prefix is sent to
    [applyCh] again, from index 0. *)
Lemma Make_wf n me ps s :
  omnipaxosStatefromBytes (ReadOmnipaxosState ps) = s → 0 ≤ me < Z.of_nat n →
  0 ≤ DecidedIdx s ≤ len (Log s) → ballot_le (AcceptedRnd s) (PromisedRnd s) →
  ∃ op, Make n me ps = Some (op, apply_msgs (Log s) 0 (DecidedIdx s)) ∧
    op_os op = s ∧ op_persister op = ps ∧ op_npeers op = n ∧ op_me op = me ∧
    op_state op = mkState FOLLOWER PREPARE ∧ wf op.
Proof.
  intros Hs Hme [Hd0 Hd] Hr. unfold Make, readPersist. simpl. rewrite Hs.
  rewrite addToApplyChan_total by (auto || lia).
  simpl. eexists. split_and!; [done..|].
  split; [|exact Hs].
  split; unfold in_range; simpl; try done; [apply length_replicate|apply map_Forall_empty..].
Qed.
End timer.

(** ** What a handler does to the promised round, the decided index and
    [applyCh] *)
Section progress.
Context {C : Type} {codec : StateCodec C}.
Implicit Types op : OmniPaxos C.

Record progress op op' (es : list (Effect C)) : Prop := {
  pg_promised : ballot_le (PromisedRnd (op_os op)) (PromisedRnd (op_os op'));
  pg_leader : ballot_le (L (op_os op)) (L (op_os op'));
  pg_decided : DecidedIdx (op_os op) ≤ DecidedIdx (op_os op');
  pg_applied : applied es =
    applied (apply_msgs (Log (op_os op')) (DecidedIdx (op_os op)) (DecidedIdx (op_os op')));
  pg_log : DecidedIdx (op_os op) < DecidedIdx (op_os op') →
    Log (op_os op') = Log (op_os op) ∧ DecidedIdx (op_os op') ≤ len (Log (op_os op'));
}.

(** A run that leaves the decided index alone and applies nothing. *)
Lemma progress_quiet op op' es :
  ballot_le (PromisedRnd (op_os op)) (PromisedRnd (op_os op')) →
  ballot_le (L (op_os op)) (L (op_os op')) →
  DecidedIdx (op_os op') = DecidedIdx (op_os op) → applied es = [] → progress op op' es.
Proof.
  intros ? ? Hd Ha. split; [done|done|lia| |lia].
  by rewrite Ha, Hd, apply_msgs_nil.
Qed.

Lemma progress_refl op : progress op op [].
Proof. by apply progress_quiet. Qed.

Lemma progress_decide op op' log k sends :
  PromisedRnd (op_os op') = PromisedRnd (op_os op) → L (op_os op') = L (op_os op) →
  Log (op_os op) = log → Log (op_os op') = log → DecidedIdx (op_os op') = k →
  DecidedIdx (op_os op) < k ≤ len log → applied sends = [] →
  progress op op' (apply_msgs log (DecidedIdx (op_os op)) k ++ sends).
Proof.
  intros Hp Hl H1 H2 H3 Hk Hs. split; rewrite ?Hp, ?Hl, ?H2, ?H3; try done; [lia| |].
  - rewrite applied_app, Hs. by rewrite app_nil_r.
  - rewrite H1. intros _. split; [done|lia].
Qed.

Lemma applied_AcceptSync me log n max (ps : list (Promise C)) :
  applied (AcceptSync_to me log n max <$> ps) = [].
Proof. by induction ps. Qed.

Lemma applied_nudges op es : Forall (λ e, nudge op e ∨ heartbeat op e) es → applied es = [].
Proof.
  induction 1 as [|e es He _ IH]; [done|].
  destruct He as [(p & _ & [-> | ->])|(p & r & _ & ->)]; exact IH.
Qed.

Lemma triggerLeader_progress s n op op' es :
  0 ≤ DecidedIdx (op_os op) → triggerLeader s n op = Some (op', es) → progress op op' es.
Proof.
  intros Hd. rewrite triggerLeader_Some by done. intros [(_ & Hn & -> & ->)|(_ & -> & ->)].
  - apply progress_quiet; simpl; [|done|done|apply applied_sends].
    apply ballot_lt_le. by apply compare_flip.
  - by apply progress_quiet.
Qed.

Lemma checkLeader_progress op op' es :
  0 ≤ DecidedIdx (op_os op) → checkLeader op = Some (op', es) → progress op op' es.
Proof.
  intros Hd. unfold checkLeader. case_decide; [|case_decide as Hm].
  - intros [= <- <-]. by apply progress_quiet.
  - intros [? Hl ? Ha ?]%triggerLeader_progress; [|done].
    split; simpl in *; try done. etrans; [|exact Hl].
    apply ballot_lt_le. by apply compare_flip.
  - intros [= <- <-]. apply progress_refl.
Qed.

Lemma startTimer_progress op op' es :
  wf op → startTimer op = Some (op', es) → progress op op' es.
Proof.
  intros Hwf H. destruct (startTimer_Some _ _ _ Hwf H) as
    (op1 & e1 & e2 & m & ld & rl & rd & He & _ & -> & -> & He2).
  assert (progress op op1 e1) as [? ? ? Ha ?].
  { unfold election in He. case_decide.
    - apply checkLeader_progress in He; [|apply Hwf]. by destruct He.
    - injection He as <- <-. by apply progress_quiet. }
  split; simpl; try done. by rewrite applied_app, (applied_nudges _ _ He2), app_nil_r.
Qed.

Ltac apply_chan := match goal with
  H : addToApplyChan _ _ _ = Some _ |- _ => apply addToApplyChan_Some in H as [? ->]; [|done] end.
Ltac quiet := apply progress_quiet; simpl; solve
  [ done | by rewrite ?applied_sends | by apply ballot_not_gt ].

Lemma handle_progress `{MapOrder C} src m op op' es :
  wf op → handle src m op = Some (op', es) → progress op op' es.
Proof.
  intros [Hwf _]. pose proof (wf_decided _ Hwf) as Hd.
  destruct m as [req|r p reply|req|req|req|req|req|req|req|req]; simpl; intros Hrun.
  - injection Hrun as <- <-. by apply progress_quiet.
  - injection Hrun as <- <-. unfold heartBeatReply. case_decide; by apply progress_quiet.
  - handler_inv Hrun; quiet.
  - revert Hrun. unfold PromiseHandler.
    case_decide; [intros [= <- <-]; apply progress_refl|].
    case_decide; [intros [= <- <-]; by apply progress_quiet|]. simpl.
    destruct (phase (op_state op)).
    + intros [(_ & -> & ->)|(_ & acc & _ & _ & _ & -> & ->)]%promisePrepare_Some; [by apply progress_quiet|].
      apply progress_quiet; simpl; try done. apply applied_AcceptSync.
    + intros (max & _ & _ & _ & -> & ->)%promiseAccept_Some.
      apply progress_quiet; simpl; try done. by destruct (decide (_ > _)).
    + intros [= <- <-]. by apply progress_quiet.
  - handler_inv Hrun; quiet.
  - handler_inv Hrun; try apply progress_refl.
    apply_chan.
    rewrite <-(app_nil_r (apply_msgs _ _ _)). apply progress_decide; simpl; try done. lia.
  - handler_inv Hrun; try by apply progress_quiet.
    destruct_and?. apply_chan.
    apply progress_decide; simpl; try done; [lia|apply applied_sends].
  - handler_inv Hrun; quiet.
  - handler_inv Hrun; quiet.
  - handler_inv Hrun; quiet.
Qed.

Lemma Proposal_progress c op res op' es :
  Proposal c op = Some (res, op', es) → progress op op' es.
Proof. intros H. handler_inv H; quiet. Qed.
End progress.

(** ** No handler panics *)
Section total.
Context {C : Type} {codec : StateCodec C}.
Implicit Types op : OmniPaxos C.

(** The only message that can make a well-formed peer panic is an [Accepted]
    whose index is past the end of the leader's log. *)
Definition no_overrun op (m : Msg C) : Prop :=
  match m with
  | MAccepted req => op_state op = mkState LEADER ACCEPT → PromisedRnd (op_os op) = ad_N req →
      ad_LogIdx req ≤ len (Log (op_os op))
  | _ => True
  end.

Lemma go_set_is_Some {A} (l : list A) i x : 0 ≤ i < len l → is_Some (go_set l i x).
Proof. intros. rewrite go_set_Some by done. by eexists. Qed.

Lemma mapM_Call_total {A} op (f : A → Z) (g : A → Msg C) l :
  Forall (λ a, in_range op (f a)) l → is_Some (mapM (λ a, Call op (f a) (g a)) l).
Proof. intros. eexists. by apply mapM_Call. Qed.

Lemma promises_in_range op :
  map_Forall (wf_promise (op_npeers op)) (op_promises op) →
  Forall (λ p, in_range op (p_f p)) (promise_list op).
Proof.
  intros H. eapply Forall_impl; [by apply promise_list_wf|]. by intros p (_ & ? & _).
Qed.

(** Run one bind whose first computation is known to succeed. *)
Ltac run_step :=
  match goal with
  | |- is_Some (Some _) => by eexists
  | |- is_Some (Call _ _ _ ≫= _) => rewrite Call_in_range by (unfold in_range; simpl; lia); simpl
  | |- is_Some (suffix ?i ?o ≫= _) =>
      rewrite (proj2 (suffix_Some i o _)) by (split; [simpl; lia|reflexivity]); simpl
  | |- is_Some (prefix ?i ?o ≫= _) =>
      rewrite (proj2 (prefix_Some i o _)) by (split; [simpl; lia|reflexivity]); simpl
  | |- is_Some (Some _ ≫= _) => simpl
  | |- is_Some (go_set ?l ?i ?x ≫= _) =>
      rewrite (go_set_Some l i x) by (simpl; lia); simpl
  | |- is_Some (addToApplyChan _ _ _ ≫= _) => rewrite addToApplyChan_total by (simpl; lia); simpl
  | |- is_Some (if decide _ then _ else _) => case_decide; simpl in *
  | |- is_Some ((if decide _ then _ else _) ≫= _) => case_decide; simpl in *
  end.

Lemma PromiseHandler_total `{MapOrder C} req op :
  wf op → wf_msg (op_npeers op) (MPromise req) → is_Some (PromiseHandler req op).
Proof.
  intros [Hwf _] Hm. pose proof (wf_promise_req _ _ Hm) as Hp. unfold PromiseHandler.
  pose proof Hwf as [Hme Ha Hd Hps Hmx _ _ _ Hl _]. unfold in_range in *.
  case_decide; [by eexists|]. case_decide as Hr; [by eexists|]. set (op1 := set_promises _ op).
  assert (map_Forall (wf_promise (op_npeers op1)) (op_promises op1)) as Hps1.
  { by apply wf_promises_insert. }
  change (op_state op1) with (op_state op) in *. destruct (phase (op_state op)) eqn:Hph; [| |by eexists].
  - destruct (decide (size (op_promises op1) < quorum (op_npeers op1))%nat).
    { eexists. apply promisePrepare_Some. by left. }
    destruct (go_set_is_Some (op_accepted op1) (op_me op1)
      (len (adopted_log op1 (maxPromise (order (op_promises op1)))))) as [acc Hacc]; [simpl; lia|].
    eexists. apply promisePrepare_Some. right. split; [lia|]. exists acc.
    split_and!; [done|done| |reflexivity|reflexivity].
    eapply Forall_impl; [by apply promise_list_wf|].
    intros p (_ & ? & ? & ?). split; [done|]. unfold sync_idx. by case_decide.
  - destruct (Hl Hr) as (_ & _ & [mx Hmx'] & _).
    eexists. apply promiseAccept_Some. exists mx. split; [done|]. destruct Hm as (? & ? & ?).
    split_and!; [case_decide; [by apply Hmx|done]|done|reflexivity|reflexivity].
Qed.

Lemma handle_total `{MapOrder C} src m op :
  wf op → wf_msg (op_npeers op) m → no_overrun op m → is_Some (handle src m op).
Proof.
  intros Hwf Hm Ho. pose proof (proj1 Hwf) as [Hme Ha Hd Hps Hmx _ _ _ Hl _].
  unfold in_range in *.
  destruct m as [req|r p reply|req|req|req|req|req|req|req|req]; simpl in *; try by eexists.
  - unfold PrepareHandler. destruct_and?. repeat run_step.
  - by apply PromiseHandler_total.
  - unfold AcceptSyncHandler. destruct_and?. repeat run_step.
  - unfold DecideHandler. repeat run_step.
  - unfold AcceptedHandler. destruct_and?. case_decide as Hg; [by eexists|].
    apply not_or_1 in Hg as [Hg1%dec_stable%compare_eq Hg2%dec_stable]. specialize (Ho Hg2 Hg1).
    repeat run_step.
    rewrite mapM_Call_eq; [by eexists|]. apply (promises_in_range op), Hps.
  - unfold AcceptHandler. repeat run_step.
  - unfold PrepareReqHandler. repeat run_step.
  - unfold ReconnectedHandler. case_decide; repeat run_step.
Qed.

Lemma Proposal_total c op : wf op → is_Some (Proposal c op).
Proof.
  intros [[Hme Ha Hd Hps _ _ _ _ _ _] _]. unfold Proposal, stopped, in_range in *.
  repeat run_step.
  rewrite mapM_Call_eq; [by eexists|].
  apply Forall_forall. intros p [_ Hp]%list_elem_of_filter.
  by apply (proj1 (Forall_forall _ _) (promises_in_range op Hps)).
Qed.

Lemma triggerLeader_total s n op :
  0 ≤ DecidedIdx (op_os op) → is_Some (triggerLeader s n op).
Proof.
  intros Hd. destruct (decide (s = op_me op ∧ compare n (PromisedRnd (op_os op)) > 0)) as [[? ?]|].
  - eexists. apply triggerLeader_Some; [done|]. left. split_and!; try reflexivity; done.
  - eexists. apply triggerLeader_Some; [done|]. right. split_and!; try reflexivity; done.
Qed.

Lemma startTimer_total op : wf op → is_Some (startTimer op).
Proof.
  intros Hwf. pose proof (proj1 Hwf) as Hwf0. unfold startTimer.
  assert (is_Some (election op)) as [[op1 e1] He].
  { unfold election, checkLeader. repeat run_step.
    apply triggerLeader_total, Hwf0. }
  destruct (updateMissed_total op1) as (m & ld & rl & e2 & Hu & _).
  { assert (wf (set_ballots (<[op_b op := op_qc op]> (op_ballots op)) op)) as Hwf'.
    { split; [|apply Hwf]. apply wf0_set_ballots; [|done]. apply map_Forall_insert_2; [|apply Hwf0].
      rewrite (wf_b _ Hwf0). apply Hwf0. }
    revert He. unfold election. case_decide.
    - intros [[Hw _] _ _ _]%checkLeader_good; [apply (wf_ballots _ Hw)|done].
    - intros [= <- <-]. apply (wf_ballots _ (proj1 Hwf')). }
  unfold election in He. simpl in *. rewrite He. simpl. rewrite Hu. simpl.
  destruct (mapM_Call_total (set_r (wrap64 (op_r op1 + 1)) (set_ballots ∅
     (set_restart_loop rl (set_linkDrop ld (set_missedHbCounts m op1))))) (λ p, p)
     (λ p, MHBRequest (mkHBRequest (wrap64 (op_r op1 + 1))))
     (filter (λ p, p ≠ op_me op1) (peers op1))) as [e3 He3]; [apply (Forall_peers op1)|].
  simpl in *. unfold peers in *; simpl in *. rewrite He3. by eexists.
Qed.

Lemma handle_good `{MapOrder C} src m op op' es :
  wf op → in_range op src → wf_msg (op_npeers op) m →
  handle src m op = Some (op', es) → good op op' es.
Proof.
  intros Hwf Hsrc Hm. pose proof (wf_me _ (proj1 Hwf)) as Hme. unfold in_range in *.
  destruct m as [req|r p reply|req|req|req|req|req|req|req|req]; simpl; intros Hrun.
  - injection Hrun as <- <-. split; [done| |done|done].
    apply Forall_singleton. split; [done|]. by split.
  - injection Hrun as <- <-. by apply heartBeatReply_good.
  - by eapply PrepareHandler_good.
  - by eapply PromiseHandler_good.
  - by eapply AcceptSyncHandler_good.
  - by eapply DecideHandler_good.
  - by eapply AcceptedHandler_good.
  - by eapply AcceptHandler_good.
  - by eapply PrepareReqHandler_good.
  - by eapply ReconnectedHandler_good.
Qed.
End total.
