(* ===== verification/Cluster.v ===== *)
(** * A cluster of peers over labrpc's network

    The peers of one replica group and the calls in flight between them.  An
    [event] is one atomic action: the network hands a call to the callee's
    handler, in any order; it loses a call; the timer of a peer fires; a client
    proposes a command; a peer crashes and is started again with [Make] on its
    persister.  [step] runs an event; it is [None] when the event is not
    possible or when a handler panics. *)
From S2P Require Import Prelude Ballot Messages Persister OmniPaxos OmniPaxosInv.

Record packet (C : Type) := mkPacket { pk_src : Z; pk_dst : Z; pk_msg : Msg C }.
Arguments mkPacket {C} _ _ _.
Arguments pk_src {C} _.
Arguments pk_dst {C} _.
Arguments pk_msg {C} _.

(** [hist] records every [ApplyMsg] a peer ever sent to its [applyCh], across
    restarts. *)
Record cluster (C : Type) := mkCluster {
  nodes : gmap Z (OmniPaxos C);
  net : list (packet C);
  hist : list (Z * ApplyMsg C);
}.
Arguments mkCluster {C} _ _ _.
Arguments nodes {C} _.
Arguments net {C} _.
Arguments hist {C} _.

Inductive event (C : Type) :=
  | Deliver (ord : MapOrder C) (k : nat)
  | Drop (k : nat)
  | Timer (i : Z)
  | Propose (i : Z) (command : C)
  | Restart (i : Z).
Arguments Deliver {C} _ _.
Arguments Drop {C} _.
Arguments Timer {C} _.
Arguments Propose {C} _ _.
Arguments Restart {C} _.

(** One order the run-time may pick, for concrete schedules. *)
Definition list_order {C} : MapOrder C :=
  {| order m := (map_to_list m).*2; order_perm m := Permutation_refl _ |}.

Section cluster.
Context {C : Type} {codec : StateCodec C}.
Implicit Types c : cluster C.

Definition emit (i : Z) (es : list (Effect C)) : list (packet C) :=
  (λ dm, mkPacket i dm.1 dm.2) <$> sent es.

(** Peer [i] moved to [op] with effects [es]. *)
Definition commit (i : Z) (op : OmniPaxos C) (es : list (Effect C)) c : cluster C :=
  mkCluster (<[i := op]> (nodes c)) (net c ++ emit i es) (hist c ++ (pair i <$> applied es)).

Definition lose (k : nat) c : cluster C := mkCluster (nodes c) (delete k (net c)) (hist c).

Definition step (ev : event C) c : option (cluster C) :=
  match ev with
  | Deliver ord k =>
      p ← net c !! k;
      op ← nodes c !! pk_dst p;
      '(op', es) ← handle (pk_src p) (pk_msg p) op;
      Some (commit (pk_dst p) op' es (lose k c))
  | Drop k => p ← net c !! k; Some (lose k c)
  | Timer i =>
      op ← nodes c !! i; '(op', es) ← startTimer op; Some (commit i op' es c)
  | Propose i command =>
      op ← nodes c !! i; '(_, op', es) ← Proposal command op; Some (commit i op' es c)
  | Restart i =>
      op ← nodes c !! i;
      '(op', es) ← Make (op_npeers op) (op_me op) (op_persister op);
      Some (commit i op' es c)
  end.

(** [n] peers started with empty persisters. *)
Definition boot (n : nat) (l : list Z) : gmap Z (OmniPaxos C) :=
  foldr (λ i m, match Make n i MakePersister with Some (op, _) => <[i := op]> m | None => m end) ∅ l.
Definition init_cluster (n : nat) : cluster C :=
  mkCluster (boot n (seqZ 0 (Z.of_nat n))) [] [].

Fixpoint run (evs : list (event C)) c : option (cluster C) :=
  match evs with
  | [] => Some c
  | ev :: evs => c ← step ev c; run evs c
  end.

Inductive reachable (n : nat) : cluster C → Prop :=
  | reachable_init : reachable n (init_cluster n)
  | reachable_step c ev c' : reachable n c → step ev c = Some c' → reachable n c'.

(** ** The invariant every schedule preserves *)
Definition idx n (i : Z) : Prop := 0 ≤ i < Z.of_nat n.

Record cluster_wf (n : nat) c : Prop := {
  cw_node i op : nodes c !! i = Some op → wf op ∧ op_npeers op = n ∧ op_me op = i;
  cw_dom i : is_Some (nodes c !! i) ↔ idx n i;
  cw_net p : p ∈ net c → idx n (pk_src p) ∧ idx n (pk_dst p) ∧ wf_msg n (pk_msg p);
}.

Lemma run_app evs1 evs2 c : run (evs1 ++ evs2) c = run evs1 c ≫= run evs2.
Proof.
  revert c. induction evs1 as [|ev evs1 IH]; intros c; [done|].
  simpl. destruct (step ev c); simpl; auto.
Qed.

Lemma run_reachable n evs c c' : reachable n c → run evs c = Some c' → reachable n c'.
Proof.
  revert c. induction evs as [|ev evs IH]; simpl; intros c Hc Hr.
  - by injection Hr as <-.
  - apply bind_Some in Hr as (c1 & Hs & Hr). eapply IH; [|done]. by eapply reachable_step.
Qed.

Lemma Make_fresh n i : idx n i →
  ∃ op, Make (C := C) n i MakePersister = Some (op, []) ∧ op_os op = zeroState ∧ op_npeers op = n ∧
    op_me op = i ∧ op_state op = mkState FOLLOWER PREPARE ∧ wf op.
Proof.
  intros Hi. destruct (Make_wf (C := C) n i MakePersister zeroState) as (op & Hm & ? & ? & ? & ? & ? & ?);
    [apply read_fresh|done|done|done|].
  exists op. by split_and!.
Qed.

Lemma boot_lookup n l i op : Forall (idx n) l →
  boot n l !! i = Some op ↔ i ∈ l ∧ Make n i MakePersister = Some (op, []).
Proof.
  induction 1 as [|j l Hj _ IH]; simpl; [set_solver|].
  destruct (Make_fresh n j Hj) as (op2 & Hm & _). rewrite Hm.
  destruct (decide (i = j)) as [->|Hne].
  - rewrite lookup_insert_eq. split; [intros [= <-]; set_solver|]. naive_solver.
  - rewrite lookup_insert_ne by done. rewrite IH. set_solver.
Qed.

Lemma init_lookup n i op :
  nodes (init_cluster n) !! i = Some op ↔ idx n i ∧ Make n i MakePersister = Some (op, []).
Proof.
  simpl. rewrite boot_lookup.
  - unfold idx. rewrite elem_of_seqZ. naive_solver lia.
  - apply Forall_forall. intros j. rewrite elem_of_seqZ. unfold idx. lia.
Qed.

Lemma init_wf n : cluster_wf n (init_cluster n).
Proof.
  split.
  - intros i op [Hi Hm]%init_lookup. destruct (Make_fresh n i Hi) as (op2 & Hm2 & Ho).
    rewrite Hm2 in Hm. injection Hm as <-. naive_solver.
  - intros i. split.
    + by intros [op [Hi _]%init_lookup].
    + intros Hi. destruct (Make_fresh n i Hi) as (op2 & Hm2 & _).
      exists op2. by apply init_lookup.
  - intros p Hp. by apply not_elem_of_nil in Hp.
Qed.

Lemma elem_of_emit i es p : p ∈ emit i es ↔ pk_src p = i ∧ Send (pk_dst p) (pk_msg p) ∈ es.
Proof.
  unfold emit. rewrite list_elem_of_fmap. split.
  - intros ([d m] & -> & Hd%elem_of_sent). done.
  - intros [<- Hs]. exists (pk_dst p, pk_msg p). split; [by destruct p|]. by apply elem_of_sent.
Qed.

Lemma elem_of_lose k c p : p ∈ net (lose k c) → p ∈ net c.
Proof. simpl. intros Hp. apply list_elem_of_lookup in Hp as [j Hj].
  rewrite list_lookup_delete in Hj. apply list_elem_of_lookup. case_decide; eauto. Qed.

Lemma commit_wf n i op es op' c :
  cluster_wf n c → nodes c !! i = Some op → good op op' es → cluster_wf n (commit i op' es c).
Proof.
  intros [Hn Hd Hp] Hi [Hwf He Hnp Hme]. destruct (Hn _ _ Hi) as (Hwf0 & Hnp0 & Hme0).
  split; simpl.
  - intros j opj. rewrite lookup_insert. case_decide; [|by apply Hn]. subst.
    intros [= <-]. split_and!; congruence.
  - intros j. rewrite lookup_insert. case_decide; [|done]. subst.
    rewrite <-Hd, Hi. split; by eexists.
  - intros p [Hpk|[Hsrc Hs]%elem_of_emit]%elem_of_app; [by apply Hp|].
    rewrite Forall_forall in He. apply He in Hs as [Hdst Hm]. rewrite Hnp0 in *.
    split_and!; [|done|done]. rewrite Hsrc. apply Hd. by eexists.
Qed.

Lemma lose_wf n k c : cluster_wf n c → cluster_wf n (lose k c).
Proof. intros [Hn Hd Hp]. split; [done..|]. intros p Hpk%elem_of_lose. by apply Hp. Qed.

(** What a restart of a well-formed peer does. *)
Lemma restart_good op op' es :
  wf op → Make (op_npeers op) (op_me op) (op_persister op) = Some (op', es) →
  good op op' es ∧ op_os op' = op_os op ∧ op_state op' = mkState FOLLOWER PREPARE ∧
  (DecidedIdx (op_os op) ≤ 0 ∨ DecidedIdx (op_os op) ≤ len (Log (op_os op))) ∧
  es = apply_msgs (Log (op_os op)) 0 (DecidedIdx (op_os op)).
Proof.
  intros [Hwf Hps]. pose proof Hwf as [Hme _ Hd _ _ _ _ Hr _ _]. unfold persisted in Hps.
  unfold Make. rewrite bind_Some. simpl in *. rewrite Hps.
  intros (es' & [Hle ->]%addToApplyChan_Some & [= <- <-]); [|done].
  split_and!; [|done..].
  split; [|apply wf_effects_apply|done|done].
  split; [|unfold persisted, readPersist; simpl; congruence].
  split; unfold in_range in *; simpl; rewrite ?Hps; try done;
    [apply length_replicate|apply map_Forall_empty..].
Qed.

(** Every event keeps the cluster well formed. *)
Lemma step_wf n c ev c' : cluster_wf n c → step ev c = Some c' → cluster_wf n c'.
Proof.
  intros Hc Hs. destruct ev as [ord k|k|i|i cmd|i]; simpl in Hs.
  - apply bind_Some in Hs as (p & Hp & (op & Hop & ([op' es] & Hh & [= <-])%bind_Some)%bind_Some).
    destruct (cw_net _ _ Hc p) as (Hsrc & Hdst & Hm); [by eapply list_elem_of_lookup_2|].
    destruct (cw_node _ _ Hc _ _ Hop) as (Hwf & Hnp & Hme).
    eapply commit_wf; [by apply lose_wf|exact Hop|].
    eapply (handle_good (pk_src p)); [done|unfold in_range; by rewrite Hnp|by rewrite Hnp|exact Hh].
  - apply bind_Some in Hs as (p & Hp & [= <-]). by apply lose_wf.
  - apply bind_Some in Hs as (op & Hop & ([op' es] & Hh & [= <-])%bind_Some).
    eapply commit_wf; [done|exact Hop|]. eapply startTimer_good; [by eapply cw_node|done].
  - apply bind_Some in Hs as (op & Hop & ([[res op'] es] & Hh & [= <-])%bind_Some).
    eapply commit_wf; [done|exact Hop|]. eapply Proposal_good; [by eapply cw_node|done].
  - apply bind_Some in Hs as (op & Hop & ([op' es] & Hh & [= <-])%bind_Some).
    eapply commit_wf; [done|exact Hop|]. apply restart_good in Hh; [tauto|by eapply cw_node].
Qed.

Lemma reachable_wf n c : reachable n c → cluster_wf n c.
Proof. induction 1; [apply init_wf | by eapply step_wf]. Qed.
End cluster.
