(* ===== verification/Agreement.v ===== *)
(** * Agreement of the replicated log

    The safety argument of Sequence Paxos for the code of [OmniPaxos.v].  The
    ghost state records, for each round, the log its leader adopted and the
    log it has now, and for each peer and round the length of the prefix of
    that log the peer has accepted.  [Inv] ties the ghost state to the peers,
    the calls in flight and the [ApplyMsg]s sent; for an odd number of peers
    every event of an ordered schedule preserves it, and it implies that no two
    peers ever apply different commands at one index. *)
From S2P Require Import Prelude Ballot Messages Persister OmniPaxos OmniPaxosInv Cluster.

(** ** Ordered schedules

    [AcceptHandler] ignores the index of the request and [AcceptSyncHandler]
    clamps the index it truncates at, so the code relies on requests that fit
    the log they arrive at.  [in_order op m] restricts the deliveries that the
    handler acts on: an [Accept] has exactly the index after the follower's last
    entry, and an [AcceptSync] starts inside the log and, within a round, does
    not leave it shorter.  A lost or overtaken [Accept] violates it, so does an
    [Accept] whose entry an [AcceptSync] has brought already, and so does the
    leader's own answer to a late promise: Safety.v and Anomalies.v show for each
    of them a schedule that breaks agreement. *)
Section ordered.
Context {C : Type} {codec : StateCodec C}.

Definition in_order (op : OmniPaxos C) (m : Msg C) : Prop :=
  match m with
  | MAccept req =>
      PromisedRnd (op_os op) = ac_N req → op_state op = mkState FOLLOWER ACCEPT →
      ac_Idx req = len (Log (op_os op)) + 1
  | MAcceptSync req =>
      PromisedRnd (op_os op) = as_N req → op_state op = mkState FOLLOWER PREPARE →
      as_SyncIdx req ≤ len (Log (op_os op)) ∧
      (AcceptedRnd (op_os op) = as_N req →
       len (Log (op_os op)) ≤ as_SyncIdx req + len (as_Sfx req))
  | _ => True
  end.

Definition ordered (c : cluster C) (ev : event C) : Prop :=
  match ev with
  | Deliver _ k => ∀ p op, net c !! k = Some p → nodes c !! pk_dst p = Some op → in_order op (pk_msg p)
  | _ => True
  end.

Inductive ordered_reachable (n : nat) : cluster C → Prop :=
  | ordered_init : ordered_reachable n (init_cluster n)
  | ordered_step c ev c' :
      ordered_reachable n c → ordered c ev → step ev c = Some c' → ordered_reachable n c'.

#[export] Instance in_order_dec op m : Decision (in_order op m).
Proof. destruct m; simpl; apply _. Defined.

(** [ordered] as a test, and [run] stopped at the first event that fails it. *)
Definition orderedb (c : cluster C) (ev : event C) : bool :=
  match ev with
  | Deliver _ k =>
      match net c !! k with
      | Some p => match nodes c !! pk_dst p with
                  | Some op => bool_decide (in_order op (pk_msg p))
                  | None => true
                  end
      | None => true
      end
  | _ => true
  end.

Fixpoint ordered_run (evs : list (event C)) (c : cluster C) : option (cluster C) :=
  match evs with
  | [] => Some c
  | ev :: evs => if orderedb c ev then c ← step ev c; ordered_run evs c else None
  end.

Lemma orderedb_ordered c ev : orderedb c ev = true → ordered c ev.
Proof.
  destruct ev; simpl; try done. intros H p op Hp Hop. rewrite Hp, Hop in H.
  by apply bool_decide_eq_true in H.
Qed.

Lemma ordered_run_reachable n evs c c' :
  ordered_reachable n c → ordered_run evs c = Some c' → ordered_reachable n c'.
Proof.
  revert c. induction evs as [|ev evs IH]; simpl; intros c Hc Hr; [by injection Hr as <-|].
  destruct (orderedb c ev) eqn:Ho; [|done]. apply bind_Some in Hr as (c1 & Hs & Hr).
  eapply IH; [|exact Hr]. eapply ordered_step; [done|by apply orderedb_ordered|done].
Qed.

Lemma ordered_reachable_reachable n c : ordered_reachable n c → reachable n c.
Proof. induction 1; [constructor | by econstructor]. Qed.
End ordered.

(** ** Ghost state *)
Section ghost.
Context {C : Type} {codec : StateCodec C}.
Context (n : nat).
Implicit Types op : OmniPaxos C.
Implicit Types ns : gmap Z (OmniPaxos C).

Record ghost := mkGhost {
  rounds : gmap Ballot (list C * list C);
  votes : gmap (Z * Ballot) nat;
}.
Implicit Types g : ghost.

Abbreviation Promised op := (PromisedRnd (op_os op)).
Abbreviation Accepted op := (AcceptedRnd (op_os op)).
Abbreviation Decided op := (DecidedIdx (op_os op)).
Abbreviation log op := (Log (op_os op)).

Definition peer_set : gset Z := list_to_set (seqZ 0 (Z.of_nat n)).
Definition is_quorum (Q : gset Z) : Prop := Q ⊆ peer_set ∧ (quorum n ≤ size Q)%nat.

(** Peer [i] has promised round [b] or a later one. *)
Definition promised ns (i : Z) (b : Ballot) : Prop :=
  ∃ op, ns !! i = Some op ∧ ballot_le b (Promised op).

(** The owner of round [b] is collecting promises for it. *)
Definition leading ns (b : Ballot) op : Prop :=
  ns !! bPid b = Some op ∧ op_state op = mkState LEADER PREPARE ∧ op_currentRnd op = b.

(** A majority has accepted the first [k] entries of round [m]. *)
Definition chosen g (m : Ballot) (k : nat) : Prop :=
  ∃ Q, is_quorum Q ∧ ∀ i, i ∈ Q → ∃ v, votes g !! (i, m) = Some v ∧ (k ≤ v)%nat.

(** A majority has accepted, or may still accept, the first [k] entries. *)
Definition choosable g ns (m : Ballot) (k : nat) : Prop :=
  ∃ Q, is_quorum Q ∧ ∀ i, i ∈ Q →
    (∃ v, votes g !! (i, m) = Some v ∧ (k ≤ v)%nat) ∨
    (∃ op, ns !! i = Some op ∧ ballot_le (Promised op) m).

(** The first [d] entries of [l], accepted in round [a], are decided. *)
Definition dec_ok g (a : Ballot) (l : list C) (d : Z) : Prop :=
  d ≤ 0 ∨ d ≤ len l ∧ ∃ m l0 lm, ballot_le m a ∧ rounds g !! m = Some (l0, lm) ∧
    chosen g m (Z.to_nat d) ∧ take (Z.to_nat d) l = take (Z.to_nat d) lm.

(** What a promise of [f] for round [b] says: its log is the first [li]
    entries of round [a] and it has accepted in no round between. *)
Definition promise_ok g ns (f : Z) (b a : Ballot) (li di : Z) : Prop :=
  promised ns f b ∧ ballot_le a b ∧ 0 ≤ li ∧
  ∃ l0 l v, rounds g !! a = Some (l0, l) ∧ votes g !! (f, a) = Some v ∧
    (ballot_lt a b → Z.of_nat v = li ∧ dec_ok g a (take v l) di ∧
      ∀ m, ballot_lt a m → ballot_lt m b → votes g !! (f, m) = None).

(** The suffix a follower sends to the leader [op]. *)
Definition sfx_ok g op (a : Ballot) (li : Z) (sfx : list C) : Prop :=
  ∀ l0 l, rounds g !! a = Some (l0, l) →
    (ballot_lt (Accepted op) a → sfx = drop (Z.to_nat (Decided op)) (take (Z.to_nat li) l)) ∧
    (a = Accepted op → sfx = drop (length (log op)) (take (Z.to_nat li) l)).

(** A promise the leader [op] of round [b] has stored while collecting. *)
Definition stored_ok g ns op (k : Z) (p : Promise C) : Prop :=
  promise_ok g ns k (op_currentRnd op) (p_accRnd p) (p_logIdx p) (p_decIdx p) ∧
  (sfx_ok g op (p_accRnd p) (p_logIdx p) (p_log p) ∨
   p_accRnd p = Accepted op ∧ p_logIdx p = len (log op)).

(** The maximum promise of a leader that has adopted it. *)
Definition max_ok g (b : Ballot) (p : Promise C) : Prop :=
  ∃ l0 l la0 la, rounds g !! b = Some (l0, l) ∧ rounds g !! p_accRnd p = Some (la0, la) ∧
    0 ≤ p_logIdx p ≤ len la ∧ take (Z.to_nat (p_logIdx p)) la `prefix_of` l0.

Record node_ok g ns (i : Z) op : Prop := {
  no_log : ∃ l0 l, rounds g !! Accepted op = Some (l0, l) ∧ log op `prefix_of` l;
  no_vote : votes g !! (i, Accepted op) = Some (length (log op));
  no_phase : phase (op_state op) = ACCEPT → Accepted op = Promised op;
  no_decided : dec_ok g (Accepted op) (log op) (Decided op);
  no_owner : promised ns (bPid (Promised op)) (Promised op);
  no_collect : op_state op = mkState LEADER PREPARE →
    rounds g !! op_currentRnd op = None ∧
    (∃ p, op_promises op !! i = Some p ∧ p_accRnd p = Accepted op ∧ p_logIdx p = len (log op)) ∧
    map_Forall (stored_ok g ns op) (op_promises op);
  no_lead : op_state op = mkState LEADER ACCEPT →
    (∃ l0, rounds g !! op_currentRnd op = Some (l0, log op)) ∧
    ∃ p, op_maxProm op = Some p ∧ max_ok g (op_currentRnd op) p;
  no_accepted : role (op_state op) = LEADER → ∀ j v, op_accepted op !! j = Some v →
    v ≤ 0 ∨ ∃ k, votes g !! (Z.of_nat j, op_currentRnd op) = Some k ∧ v ≤ Z.of_nat k;
}.

Definition msg_ok g ns (dst : Z) (m : Msg C) : Prop :=
  match m with
  | MPrepare q =>
      pr_L q = bPid (pr_N q) ∧ promised ns (bPid (pr_N q)) (pr_N q) ∧
      ∀ op, leading ns (pr_N q) op →
        pr_AccRnd q = Accepted op ∧ pr_LogIdx q = len (log op) ∧ pr_DecIdx q = Decided op
  | MPromise q =>
      dst = bPid (pm_N q) ∧ promised ns (bPid (pm_N q)) (pm_N q) ∧
      promise_ok g ns (pm_F q) (pm_N q) (pm_AccRnd q) (pm_LogIdx q) (pm_DecIdx q) ∧
      ∀ op, leading ns (pm_N q) op → sfx_ok g op (pm_AccRnd q) (pm_LogIdx q) (pm_Sfx q)
  | MAcceptSync q =>
      promised ns dst (as_N q) ∧
      ∃ l0 l s, rounds g !! as_N q = Some (l0, l) ∧ (length l0 ≤ s ≤ length l)%nat ∧
        as_Sfx q = drop (Z.to_nat (as_SyncIdx q)) (take s l) ∧
        ∀ op, ns !! dst = Some op → Promised op = as_N q → Accepted op ≠ as_N q →
          as_SyncIdx q ≤ len (log op) → take (Z.to_nat (as_SyncIdx q)) (log op) `prefix_of` l0
  | MAccept q =>
      ∃ l0 l, rounds g !! ac_N q = Some (l0, l) ∧ 0 < ac_Idx q ∧
        l !! (Z.to_nat (ac_Idx q) - 1)%nat = Some (ac_C q)
  | MAccepted q =>
      ∃ v, votes g !! (ad_F q, ad_N q) = Some v ∧ ad_LogIdx q ≤ Z.of_nat v
  | MDecide q =>
      dc_DecIdx q ≤ 0 ∨ ∃ m l0 l, ballot_le m (dc_N q) ∧ rounds g !! m = Some (l0, l) ∧
        chosen g m (Z.to_nat (dc_DecIdx q))
  | _ => True
  end.

(** An applied command is an entry of a chosen prefix. *)
Definition hist_ok g (h : Z * ApplyMsg C) : Prop :=
  0 ≤ CommandIndex h.2 ∧ ∃ m l0 l k, rounds g !! m = Some (l0, l) ∧ chosen g m k ∧
    (Z.to_nat (CommandIndex h.2) < k)%nat ∧
    l !! Z.to_nat (CommandIndex h.2) = Some (Command h.2).

Record rounds_ok g ns : Prop := {
  ro_init m l0 l : rounds g !! m = Some (l0, l) → l0 `prefix_of` l;
  ro_low m r : rounds g !! m = Some r → ballot_le (mkBallot 0 0) m;
  ro_zero : ∃ l, rounds g !! mkBallot 0 0 = Some ([], l);
  ro_owner m r : rounds g !! m = Some r → promised ns (bPid m) m;
  ro_quorum m r : rounds g !! m = Some r → m ≠ mkBallot 0 0 →
    ∃ Q, is_quorum Q ∧ ∀ i, i ∈ Q → promised ns i m;
  ro_safe m m' l0 l l0' l' k : rounds g !! m = Some (l0, l) → rounds g !! m' = Some (l0', l') →
    ballot_lt m m' → choosable g ns m k → take k l `prefix_of` l0';
  ro_votes i m v : votes g !! (i, m) = Some v →
    idx n i ∧ (∃ l0 l, rounds g !! m = Some (l0, l) ∧ (length l0 ≤ v ≤ length l)%nat) ∧
    ∀ op, ns !! i = Some op → ballot_le m (Accepted op);
}.

Record Inv g (c : cluster C) : Prop := {
  inv_rounds : rounds_ok g (nodes c);
  inv_node i op : nodes c !! i = Some op → node_ok g (nodes c) i op;
  inv_net p : p ∈ net c → msg_ok g (nodes c) (pk_dst p) (pk_msg p);
  inv_hist h : h ∈ hist c → hist_ok g h;
}.

(** ** Evolution of the ghost state

    One event changes one peer, [op] to [op'], and the ghost state from [g]
    to [g']: logs of rounds and votes grow, and only peer [i] votes, in the
    round it has promised. *)
Record evolve g g' ns (i : Z) op op' : Prop := {
  ev_node : ns !! i = Some op;
  ev_rounds m l0 l : rounds g !! m = Some (l0, l) →
    ∃ l', rounds g' !! m = Some (l0, l') ∧ l `prefix_of` l';
  ev_rounds_other m : m ≠ Promised op' ∨ bPid m ≠ i → rounds g' !! m = rounds g !! m;
  ev_votes j m v : votes g !! (j, m) = Some v →
    ∃ v', votes g' !! (j, m) = Some v' ∧ (v ≤ v')%nat;
  ev_votes_other j m : votes g' !! (j, m) ≠ votes g !! (j, m) →
    j = i ∧ m = Promised op ∧ Promised op' = Promised op;
  ev_promised : ballot_le (Promised op) (Promised op');
  ev_accepted : ballot_le (Accepted op) (Accepted op');
  ev_log : (Accepted op' = Accepted op ∧ log op' = log op) ∨ Accepted op' = Promised op';
  ev_leading : op_state op' = mkState LEADER PREPARE →
    (op_state op = mkState LEADER PREPARE ∧ op_currentRnd op' = op_currentRnd op ∧
     Accepted op' = Accepted op ∧ log op' = log op ∧ Decided op' = Decided op) ∨
    ballot_lt (Promised op) (op_currentRnd op');
}.

Section stable.
Context {g g' : ghost} {ns : gmap Z (OmniPaxos C)} {i : Z} {op op' : OmniPaxos C}.
Context (ev : evolve g g' ns i op op').
Abbreviation ns' := (<[i := op']> ns).

Lemma promised_stable j b : promised ns j b → promised ns' j b.
Proof.
  intros (opj & Hj & Hb). unfold promised. rewrite lookup_insert. case_decide; [|by eauto].
  subst. exists op'. split; [done|]. rewrite (ev_node _ _ _ _ _ _ ev) in Hj.
  injection Hj as <-. etrans; [done|]. apply ev.
Qed.

Lemma chosen_stable m k : chosen g m k → chosen g' m k.
Proof.
  intros (Q & HQ & Hv). exists Q. split; [done|]. intros j Hj.
  destruct (Hv j Hj) as (v & Hjv & ?). destruct (ev_votes _ _ _ _ _ _ ev _ _ _ Hjv) as (v' & ? & ?).
  exists v'. split; [done|lia].
Qed.

Lemma dec_ok_stable a l d : dec_ok g a l d → dec_ok g' a l d.
Proof.
  intros [?|(Hd & m & l0 & lm & Hm & Hr & Hc & Ht)]; [by left|right]. split; [done|].
  destruct (ev_rounds _ _ _ _ _ _ ev _ _ _ Hr) as (lm' & Hr' & Hpre).
  exists m, l0, lm'. split_and!; [done|done|by apply chosen_stable|].
  rewrite Ht. apply (f_equal length) in Ht. rewrite !length_take in Ht.
  destruct Hpre as [x ->]. rewrite take_app_le; [done|lia].
Qed.

Lemma votes_frozen f b m : promised ns f b → ballot_lt m b → votes g' !! (f, m) = votes g !! (f, m).
Proof.
  intros (opf & Hf & Hb) Hm. destruct (decide (votes g' !! (f, m) = votes g !! (f, m))) as [|Hne]; [done|].
  destruct (ev_votes_other _ _ _ _ _ _ ev _ _ Hne) as (-> & -> & _).
  rewrite (ev_node _ _ _ _ _ _ ev) in Hf. injection Hf as <-.
  exfalso. by eapply (irreflexivity ballot_lt), ballot_lt_le_trans.
Qed.

Lemma promise_stable f b a li di :
  rounds_ok g ns → promise_ok g ns f b a li di → promise_ok g' ns' f b a li di.
Proof.
  intros Hro (Hp & Hab & Hli & l0 & l & v & Hr & Hv & Hlt).
  split; [by apply promised_stable|]. split; [done|]. split; [done|].
  destruct (ev_rounds _ _ _ _ _ _ ev _ _ _ Hr) as (l' & Hr' & Hpre).
  destruct (decide (ballot_lt a b)) as [Hl|Hl].
  - exists l0, l', v. rewrite (votes_frozen f b a) by done. split_and!; [done..|].
    intros _. destruct (Hlt Hl) as (Hvl & Hd & Hn). split; [done|]. split.
    + destruct (ro_votes _ _ Hro _ _ _ Hv) as (_ & (l0' & l2 & Hr2 & Hlen) & _).
      rewrite Hr in Hr2. injection Hr2 as <- <-.
      destruct Hpre as [x ->]. rewrite take_app_le by lia. by apply dec_ok_stable.
    + intros m Hm1 Hm2. rewrite (votes_frozen f b m) by done. by apply Hn.
  - destruct (ev_votes _ _ _ _ _ _ ev _ _ _ Hv) as (v' & Hv' & _).
    exists l0, l', v'. split_and!; [done..|]. by intros.
Qed.

Lemma sfx_stable opl a li sfx l0 l :
  rounds g !! a = Some (l0, l) → li ≤ len l → sfx_ok g opl a li sfx → sfx_ok g' opl a li sfx.
Proof.
  intros Hr Hli Hs m0 m Hm. destruct (ev_rounds _ _ _ _ _ _ ev _ _ _ Hr) as (l' & Hr' & [x ->]).
  rewrite Hr' in Hm. injection Hm as <- <-. rewrite take_app_le by lia. by apply (Hs l0).
Qed.

Lemma max_stable b p : max_ok g b p → max_ok g' b p.
Proof.
  intros (l0 & l & la0 & la & Hb & Ha & Hli & Hpre).
  destruct (ev_rounds _ _ _ _ _ _ ev _ _ _ Hb) as (l' & Hb' & _).
  destruct (ev_rounds _ _ _ _ _ _ ev _ _ _ Ha) as (la' & Ha' & [x ->]).
  exists l0, l', la0, (la ++ x). rewrite length_app, take_app_le by lia. split_and!; try done; lia.
Qed.

(** The length of a promised log is bounded by the log of its round. *)
Lemma promise_len f b a li di l0 l :
  rounds_ok g ns → promise_ok g ns f b a li di → ballot_lt a b →
  rounds g !! a = Some (l0, l) → (length l0 ≤ Z.to_nat li)%nat ∧ li ≤ len l.
Proof.
  intros Hro (_ & _ & _ & l0' & l' & v & Hr & Hv & Hlt) Hab Hr2.
  destruct (Hlt Hab) as (<- & _). rewrite Hr in Hr2. injection Hr2 as -> ->.
  destruct (ro_votes _ _ Hro _ _ _ Hv) as (_ & (m0 & m & Hm & Hlen) & _).
  rewrite Hr in Hm. injection Hm as <- <-. lia.
Qed.
End stable.

Lemma quorum_meet Q Q' : Nat.Odd n → is_quorum Q → is_quorum Q' → ∃ j, j ∈ Q ∧ j ∈ Q'.
Proof.
  intros Hodd [HQ Hs] [HQ' Hs']. apply (gset_intersect peer_set); [done|done|].
  assert (size peer_set = n) as ->.
  { unfold peer_set. rewrite size_list_to_set by apply NoDup_seqZ. rewrite length_seqZ. lia. }
  pose proof (quorum_odd n Hodd). lia.
Qed.

(** A prefix that is still choosable in an older round, once a later round
    exists, has been accepted by somebody: it is inside the round's log. *)
Lemma choosable_len g ns m m' l0 l r' k :
  Nat.Odd n → rounds_ok g ns →
  rounds g !! m = Some (l0, l) → rounds g !! m' = Some r' → ballot_lt m m' →
  choosable g ns m k → (k ≤ length l)%nat.
Proof.
  intros Hodd Hro Hm Hm' Hlt (Q & HQ & Hall).
  assert (m' ≠ mkBallot 0 0) as Hz.
  { intros ->. pose proof (ro_low _ _ Hro _ _ Hm). eapply (irreflexivity ballot_lt).
    by eapply ballot_lt_le_trans. }
  destruct (ro_quorum _ _ Hro _ _ Hm' Hz) as (Q' & HQ' & Hp).
  destruct (quorum_meet Q Q' Hodd HQ HQ') as (j & Hj & Hj').
  destruct (Hall j Hj) as [(v & Hv & Hk)|(opj & Hopj & Hle)].
  - destruct (ro_votes _ _ Hro _ _ _ Hv) as (_ & (l0' & l' & Hr & Hlen) & _).
    rewrite Hm in Hr. injection Hr as <- <-. lia.
  - destruct (Hp j Hj') as (opj' & Hopj' & Hle'). rewrite Hopj in Hopj'. injection Hopj' as <-.
    exfalso. eapply (irreflexivity ballot_lt). eapply ballot_lt_le_trans; [exact Hlt|].
    by etrans.
Qed.

(** A prefix chosen in a round is a prefix of the first log of every later
    round. *)
Lemma chosen_choosable g ns m k : chosen g m k → choosable g ns m k.
Proof. intros (Q & HQ & H). exists Q. split; [done|]. intros j Hj. left. by apply H. Qed.

(** What an event that votes or opens a round has to show. *)
Record grows g g' ns (i : Z) op op' : Prop := {
  gr_init m l0 l : rounds g' !! m = Some (l0, l) → l0 `prefix_of` l;
  gr_new m r : rounds g !! m = None → rounds g' !! m = Some r →
    ballot_le (mkBallot 0 0) m ∧ m = Promised op' ∧ bPid m = i ∧
    (∃ Q, is_quorum Q ∧ ∀ j, j ∈ Q → promised ns j m) ∧
    ∀ m2 l02 l2 k, rounds g !! m2 = Some (l02, l2) → ballot_lt m2 m →
      choosable g ns m2 k → take k l2 `prefix_of` r.1;
  gr_vote v : votes g' !! (i, Promised op) = Some v → votes g !! (i, Promised op) ≠ Some v →
    ∃ l0 l, rounds g' !! Promised op = Some (l0, l) ∧ (length l0 ≤ v ≤ length l)%nat ∧
      ballot_le (Promised op) (Accepted op');
}.

Section preserve.
Context (Hodd : Nat.Odd n).
Context {g g' : ghost} {ns : gmap Z (OmniPaxos C)} {i : Z} {op op' : OmniPaxos C}.
Context (ev : evolve g g' ns i op op') (Hro : rounds_ok g ns) (Hi : idx n i).
Abbreviation ns' := (<[i := op']> ns).

Lemma choosable_back m k : choosable g' ns' m k → choosable g ns m k.
Proof.
  intros (Q & HQ & Hall). exists Q. split; [done|]. intros j Hj.
  destruct (Hall j Hj) as [(v & Hv & Hk)|(opj & Hopj & Hle)].
  - destruct (decide (votes g' !! (j, m) = votes g !! (j, m))) as [He|Hne].
    { left. exists v. by rewrite <-He. }
    destruct (ev_votes_other _ _ _ _ _ _ ev _ _ Hne) as (-> & -> & _).
    right. exists op. split; [apply ev|done].
  - right. rewrite lookup_insert in Hopj. case_decide; [|by eauto]. subst.
    injection Hopj as <-. exists op. split; [apply ev|]. etrans; [apply ev|done].
Qed.

(** A round of [g'] is a round of [g] grown, or a new one. *)
Lemma round_back m l0 l : rounds g' !! m = Some (l0, l) →
  (∃ l1, rounds g !! m = Some (l0, l1) ∧ l1 `prefix_of` l) ∨ rounds g !! m = None.
Proof.
  intros Hm. destruct (rounds g !! m) as [[l0' l1]|] eqn:Hg; [left|by right].
  destruct (ev_rounds _ _ _ _ _ _ ev _ _ _ Hg) as (l' & Hm' & Hpre).
  rewrite Hm in Hm'. injection Hm' as -> ->. by exists l1.
Qed.

Lemma new_not_later m r m' r' k : grows g g' ns i op op' →
  rounds g !! m = None → rounds g' !! m = Some r → rounds g !! m' = Some r' →
  ballot_lt m m' → choosable g' ns' m k → k = 0%nat.
Proof.
  intros Hg Hm Hm1 Hm' Hlt (Q & HQ & Hall).
  destruct (gr_new _ _ _ _ _ _ Hg _ _ Hm Hm1) as (Hlow & -> & _).
  assert (m' ≠ mkBallot 0 0) as Hz.
  { intros ->. eapply (irreflexivity ballot_lt). by eapply ballot_lt_le_trans. }
  destruct (ro_quorum _ _ Hro _ _ Hm' Hz) as (Q' & HQ' & Hp).
  destruct (quorum_meet Q Q' Hodd HQ HQ') as (j & Hj & Hj').
  pose proof (promised_stable ev _ _ (Hp j Hj')) as (opj' & Hopj' & Hle').
  destruct (Hall j Hj) as [(v & Hv & Hk)|(opj & Hopj & Hle)].
  - destruct (decide (j = i)) as [->|Hne].
    + rewrite lookup_insert_eq in Hopj'. injection Hopj' as <-.
      exfalso. eapply (irreflexivity ballot_lt), ballot_lt_le_trans; done.
    + destruct (decide (votes g' !! (j, Promised op') = votes g !! (j, Promised op'))) as [He|Hv'].
      * rewrite He in Hv. destruct (ro_votes _ _ Hro _ _ _ Hv) as (_ & (? & ? & ? & _) & _). congruence.
      * by destruct (ev_votes_other _ _ _ _ _ _ ev _ _ Hv').
  - rewrite Hopj in Hopj'. injection Hopj' as <-.
    exfalso. eapply (irreflexivity ballot_lt), ballot_lt_le_trans; [exact Hlt|]. by etrans.
Qed.

Lemma rounds_preserve : grows g g' ns i op op' → rounds_ok g' ns'.
Proof.
  intros Hg. split.
  - apply Hg.
  - intros m [l0 l] Hm. destruct (round_back m l0 l Hm) as [(l1 & Hm1 & _)|Hnone].
    + by eapply ro_low.
    + by destruct (gr_new _ _ _ _ _ _ Hg _ _ Hnone Hm).
  - destruct (ro_zero _ _ Hro) as [l Hl].
    destruct (ev_rounds _ _ _ _ _ _ ev _ _ _ Hl) as (l' & Hz & _). by exists l'.
  - intros m [l0 l] Hm. destruct (round_back m l0 l Hm) as [(l1 & Hm1 & _)|Hnone].
    + apply (promised_stable ev). by eapply ro_owner.
    + destruct (gr_new _ _ _ _ _ _ Hg _ _ Hnone Hm) as (_ & -> & Hp & _).
      exists op'. rewrite Hp, lookup_insert_eq. by split.
  - intros m [l0 l] Hm Hz. destruct (round_back m l0 l Hm) as [(l1 & Hm1 & _)|Hnone].
    + destruct (ro_quorum _ _ Hro _ _ Hm1 Hz) as (Q & HQ & Hp). exists Q. split; [done|].
      intros j Hj. apply (promised_stable ev). by apply Hp.
    + destruct (gr_new _ _ _ _ _ _ Hg _ _ Hnone Hm) as (_ & _ & _ & (Q & HQ & Hp) & _).
      exists Q. split; [done|]. intros j Hj. apply (promised_stable ev). by apply Hp.
  - intros m m' l0 l l0' l' k Hm Hm' Hlt Hc.
    destruct (round_back m' l0' l' Hm') as [(l1' & Hm1' & _)|Hnone'].
    + destruct (round_back m l0 l Hm) as [(l1 & Hm1 & [x ->])|Hnone].
      * apply choosable_back in Hc.
        pose proof (choosable_len _ _ _ _ _ _ _ _ Hodd Hro Hm1 Hm1' Hlt Hc).
        rewrite take_app_le by lia. by eapply ro_safe.
      * rewrite (new_not_later m _ m' _ k Hg Hnone Hm Hm1' Hlt Hc). apply prefix_nil.
    + destruct (gr_new _ _ _ _ _ _ Hg _ _ Hnone' Hm') as (_ & Hpr & _ & _ & Hsafe).
      assert (rounds g' !! m = rounds g !! m) as He.
      { apply (ev_rounds_other _ _ _ _ _ _ ev). left. intros ->.
        rewrite Hpr in Hlt. by eapply (irreflexivity ballot_lt). }
      rewrite He in Hm. apply (Hsafe m l0); [done..|]. by apply choosable_back.
  - intros j m v Hv.
    destruct (decide (votes g' !! (j, m) = votes g !! (j, m))) as [He|Hne].
    + rewrite He in Hv. destruct (ro_votes _ _ Hro _ _ _ Hv) as (Hj & (l0 & l & Hr & Hlen) & Ha).
      split; [done|]. split.
      * destruct (ev_rounds _ _ _ _ _ _ ev _ _ _ Hr) as (l' & Hr' & Hpre%prefix_length).
        exists l0, l'. split; [done|lia].
      * intros opj. rewrite lookup_insert. case_decide; [|by apply Ha]. subst.
        intros [= <-]. etrans; [apply Ha, ev|apply ev].
    + destruct (ev_votes_other _ _ _ _ _ _ ev _ _ Hne) as (-> & -> & _).
      rewrite Hv in Hne. destruct (gr_vote _ _ _ _ _ _ Hg v Hv) as (l0 & l & Hr & Hlen & Ha); [congruence|].
      split; [done|]. split; [by exists l0, l|].
      intros opj. rewrite lookup_insert_eq. by intros [= <-].
Qed.
End preserve.

(** ** What an event preserves of the other peers and of old messages *)
Section frame.
Context {g g' : ghost} {ns : gmap Z (OmniPaxos C)} {i : Z} {op op' : OmniPaxos C}.
Context (ev : evolve g g' ns i op op') (Hro : rounds_ok g ns).
Abbreviation ns' := (<[i := op']> ns).

Lemma stored_stable opj k p :
  rounds g !! op_currentRnd opj = None → stored_ok g ns opj k p → stored_ok g' ns' opj k p.
Proof.
  intros Hnone [Hp Hs]. split; [by apply (promise_stable ev)|].
  destruct Hs as [Hs|?]; [left|by right].
  pose proof Hp as (_ & Hab & _ & l0 & l & _ & Hr & _).
  apply ballot_le_lt_eq in Hab as [Hab|Hab]; [|congruence].
  destruct (promise_len _ _ _ _ _ _ _ Hro Hp Hab Hr) as [_ Hli].
  by eapply (sfx_stable ev).
Qed.

(** A peer [opj] whose votes and, when it leads, whose round did not
    change. *)
Lemma node_stable j opj :
  votes g' !! (j, Accepted opj) = votes g !! (j, Accepted opj) →
  (role (op_state opj) = LEADER → rounds g' !! op_currentRnd opj = rounds g !! op_currentRnd opj) →
  node_ok g ns j opj → node_ok g' ns' j opj.
Proof.
  intros Hv Hrd [Hlog Hvote Hph Hdec Hown Hcol Hlead Hacc]. split.
  - destruct Hlog as (l0 & l & Hr & Hpre).
    destruct (ev_rounds _ _ _ _ _ _ ev _ _ _ Hr) as (l' & Hr' & Hpre').
    exists l0, l'. split; [done|]. by etrans.
  - by rewrite Hv.
  - done.
  - by apply (dec_ok_stable ev).
  - by apply (promised_stable ev).
  - intros Hst. destruct (Hcol Hst) as (Hnone & Hown' & Hsto).
    split; [rewrite Hrd; [done|by rewrite Hst]|]. split; [done|].
    eapply map_Forall_impl; [exact Hsto|]. intros k p. by apply stored_stable.
  - intros Hst. destruct (Hlead Hst) as ((l0 & Hl0) & p & Hp & Hmax).
    split; [exists l0; rewrite Hrd; [done|by rewrite Hst]|].
    exists p. split; [done|]. by apply (max_stable ev).
  - intros Hl k v Hk. destruct (Hacc Hl k v Hk) as [?|(x & Hx & ?)]; [by left|right].
    destruct (ev_votes _ _ _ _ _ _ ev _ _ _ Hx) as (x' & Hx' & ?). exists x'. split; [done|lia].
Qed.

(** The leader collecting promises for [b] after the event was already
    collecting them before, with the same log. *)
Lemma leading_back b opl : promised ns (bPid b) b → leading ns' b opl →
  ∃ opl', leading ns b opl' ∧ Accepted opl = Accepted opl' ∧ log opl = log opl' ∧
    Decided opl = Decided opl'.
Proof.
  intros (opp & Hopp & Hle) (Hl & Hst & Hc). pose proof (ev_node _ _ _ _ _ _ ev) as Hop.
  rewrite lookup_insert in Hl. case_decide as Hd.
  - injection Hl as <-. subst i. rewrite Hop in Hopp. injection Hopp as <-.
    destruct (ev_leading _ _ _ _ _ _ ev Hst) as [(? & Hc' & ? & ? & ?)|Hlt].
    + exists op. split_and!; [|done..]. split; [done|]. split; [done|congruence].
    + exfalso. rewrite Hc in Hlt. by eapply (irreflexivity ballot_lt), ballot_le_lt_trans.
  - exists opl. by split_and!.
Qed.

Lemma sfx_ok_ext g1 o1 o2 a li sfx :
  Accepted o1 = Accepted o2 → log o1 = log o2 → Decided o1 = Decided o2 →
  sfx_ok g1 o2 a li sfx → sfx_ok g1 o1 a li sfx.
Proof. unfold sfx_ok. by intros -> -> ->. Qed.

Lemma msg_stable dst m : (∀ j opj, ns !! j = Some opj → node_ok g ns j opj) →
  msg_ok g ns dst m → msg_ok g' ns' dst m.
Proof.
  intros Hnodes. destruct m as [q|r p q|q|q|q|q|q|q|q|q]; simpl; try done.
  - intros (HL & Hp & Hlead). split; [done|]. split; [by apply (promised_stable ev)|].
    intros opl Hl. destruct (leading_back _ _ Hp Hl) as (opl' & Hl' & -> & -> & ->).
    by apply Hlead.
  - intros (Hdst & Hpn & Hp & Hlead). split; [done|]. split; [by apply (promised_stable ev)|].
    split; [by apply (promise_stable ev)|].
    pose proof Hp as (_ & Hab & _ & l0 & l & v & Hr & Hv & _).
    intros opl Hl. destruct (leading_back _ _ Hpn Hl) as (opl' & Hl' & Ha & Hlg & Hd).
    apply (sfx_ok_ext _ _ _ _ _ _ Ha Hlg Hd).
    pose proof Hl' as (Hopl & Hst & Hc).
    destruct (no_collect _ _ _ _ (Hnodes _ _ Hopl) Hst) as (Hnone & _). rewrite Hc in Hnone.
    apply ballot_le_lt_eq in Hab as [Hab|Hab]; [|congruence].
    destruct (promise_len _ _ _ _ _ _ _ Hro Hp Hab Hr) as [_ Hli].
    by apply (sfx_stable ev _ _ _ _ _ _ Hr), Hlead.
  - intros (Hp & l0 & l & s & Hr & Hs & Hsfx & Hpre). split; [by apply (promised_stable ev)|].
    destruct (ev_rounds _ _ _ _ _ _ ev _ _ _ Hr) as (l' & Hr' & [x ->]).
    exists l0, (l ++ x), s. rewrite length_app, take_app_le by lia.
    split_and!; [done|lia|lia|done|].
    intros opd. rewrite lookup_insert. case_decide; [|by apply Hpre]. subst. intros [= <-] HP HA Hle.
    destruct (ev_log _ _ _ _ _ _ ev) as [[HA' Hlog]|HA']; [|congruence].
    rewrite Hlog in *. rewrite HA' in HA. apply Hpre; [apply ev| |done|done].
    apply (anti_symm ballot_le); [rewrite <-HP; apply ev|].
    destruct Hp as (opp & Hopp & Hle'). rewrite (ev_node _ _ _ _ _ _ ev) in Hopp. by injection Hopp as <-.
  - intros [?|(m & l0 & l & Hm & Hr & Hc)]; [by left|right].
    destruct (ev_rounds _ _ _ _ _ _ ev _ _ _ Hr) as (l' & Hr' & _).
    exists m, l0, l'. split_and!; [done|done|]. by apply (chosen_stable ev).
  - intros (v & Hv & ?). destruct (ev_votes _ _ _ _ _ _ ev _ _ _ Hv) as (v' & Hv' & ?).
    exists v'. split; [done|lia].
  - intros (l0 & l & Hr & Hi & Hl). destruct (ev_rounds _ _ _ _ _ _ ev _ _ _ Hr) as (l' & Hr' & Hpre).
    exists l0, l'. split_and!; [done|done|]. by eapply prefix_lookup_Some.
Qed.

Lemma hist_stable h : hist_ok g h → hist_ok g' h.
Proof.
  intros (Hi & m & l0 & l & k & Hr & Hc & Hk & Hl).
  destruct (ev_rounds _ _ _ _ _ _ ev _ _ _ Hr) as (l' & Hr' & Hpre).
  split; [done|]. exists m, l0, l', k. split_and!; [done|by apply (chosen_stable ev)|done|].
  by eapply prefix_lookup_Some.
Qed.
End frame.

(** ** One step of the proof *)
Definition effects_ok g ns (i : Z) (es : list (Effect C)) : Prop :=
  Forall (λ e, match e with Send d m => msg_ok g ns d m | Apply a => hist_ok g (i, a) end) es.

Record safe_step g g' ns (i : Z) op op' (es : list (Effect C)) : Prop := {
  ss_evolve : evolve g g' ns i op op';
  ss_grows : grows g g' ns i op op';
  ss_node : node_ok g' (<[i := op']> ns) i op';
  ss_effects : effects_ok g' (<[i := op']> ns) i es;
}.

Lemma Inv_commit g g' c i op op' es :
  Nat.Odd n → cluster_wf n c → Inv g c → safe_step g g' (nodes c) i op op' es →
  Inv g' (commit i op' es c).
Proof.
  intros Hodd Hwf [Hro Hno Hnet Hh] [ev gr Hi He].
  pose proof (ev_node _ _ _ _ _ _ ev) as Hop.
  assert (idx n i) as Hidx by (apply (cw_dom _ _ Hwf); by eexists).
  split; simpl.
  - by apply (rounds_preserve Hodd ev Hro Hidx).
  - intros j opj. rewrite lookup_insert. case_decide as Hj; [subst j; by intros [= <-]|].
    intros Hopj. apply (node_stable ev Hro); [| |by apply Hno].
    + destruct (decide (votes g' !! (j, Accepted opj) = votes g !! (j, Accepted opj))) as [|Hne]; [done|].
      by destruct (ev_votes_other _ _ _ _ _ _ ev _ _ Hne) as (-> & _).
    + intros Hl. apply (ev_rounds_other _ _ _ _ _ _ ev). right.
      destruct (cw_node _ _ Hwf _ _ Hopj) as ([Hw _] & _ & Hme).
      destruct (wf_leader _ Hw Hl) as (_ & Hb & _). congruence.
  - intros p [Hp|[_ Hs]%elem_of_emit]%elem_of_app.
    + by apply (msg_stable ev Hro); [|apply Hnet].
    + unfold effects_ok in He. rewrite Forall_forall in He. by apply He in Hs.
  - intros h [Hp|Hp]%elem_of_app; [by apply (hist_stable ev), Hh|].
    apply list_elem_of_fmap in Hp as (a & -> & Ha).
    unfold applied in Ha. apply list_elem_of_omap in Ha as (e & Hin & Hea).
    unfold effects_ok in He. rewrite Forall_forall in He. apply He in Hin.
    destruct e; simplify_eq. done.
Qed.

Lemma Inv_lose g c k : Inv g c → Inv g (lose k c).
Proof. intros [Hro Hno Hnet Hh]. split; [done..| |done]. intros p Hp%elem_of_lose. by apply Hnet. Qed.
End ghost.
