(* ===== verification/AgreementSteps.v ===== *)
(** * Every event preserves the agreement invariant

    One lemma per critical section of [OmniPaxos.v]: the ghost state it moves
    to and why [Inv] of [Agreement.v] still holds. *)
From S2P Require Import Prelude Ballot Messages Persister OmniPaxos OmniPaxosInv Cluster Agreement.

Section steps.
Context {C : Type} {codec : StateCodec C}.
Context (n : nat) (Hodd : Nat.Odd n).
Implicit Types op : OmniPaxos C.

Abbreviation Promised op := (PromisedRnd (op_os op)).
Abbreviation Accepted op := (AcceptedRnd (op_os op)).
Abbreviation Decided op := (DecidedIdx (op_os op)).
Abbreviation log op := (Log (op_os op)).

(** ** Facts about chosen prefixes *)
Section chosen.
Context {g : ghost (C := C)} {ns : gmap Z (OmniPaxos C)} (Hro : rounds_ok n g ns).

Lemma quorum_nonempty Q : is_quorum n Q → ∃ j, j ∈ Q.
Proof. intros HQ. destruct (quorum_meet n Q Q Hodd HQ HQ) as (j & Hj & _). by exists j. Qed.

Lemma chosen_len m l0 l k : rounds g !! m = Some (l0, l) → chosen n g m k → (k ≤ length l)%nat.
Proof.
  intros Hm (Q & HQ & Hall). destruct (quorum_nonempty Q HQ) as (j & Hj).
  destruct (Hall j Hj) as (v & Hv & Hk).
  destruct (ro_votes _ _ _ Hro _ _ _ Hv) as (_ & (l0' & l' & Hr & Hlen) & _).
  rewrite Hm in Hr. injection Hr as <- <-. lia.
Qed.

(** A prefix chosen in round [m] is a prefix of every log that has the
    length and belongs to the same or to a later round. *)
Lemma chosen_take m l0 l k m' l0' l' lg :
  rounds g !! m = Some (l0, l) → chosen n g m k → rounds g !! m' = Some (l0', l') →
  ballot_le m m' → lg `prefix_of` l' → (k ≤ length lg)%nat → take k lg = take k l.
Proof.
  intros Hm Hc Hm' [Hlt| ->]%ballot_le_lt_eq Hpre Hk.
  - pose proof (ro_safe _ _ _ Hro _ _ _ _ _ _ _ Hm Hm' Hlt (chosen_choosable _ _ _ _ _ Hc)) as Hp.
    pose proof (chosen_len _ _ _ _ Hm Hc).
    assert (take k l `prefix_of` l') as Hp2 by (etrans; [exact Hp | by eapply ro_init]).
    apply prefix_eq_take in Hp2. rewrite length_take, Nat.min_l in Hp2 by done.
    rewrite Hp2. destruct Hpre as [x ->]. by rewrite take_app_le.
  - rewrite Hm in Hm'. injection Hm' as <- <-. destruct Hpre as [x ->]. by rewrite take_app_le.
Qed.

Lemma dec_ok_of_chosen m l0 l d a l0' l' lg :
  rounds g !! m = Some (l0, l) → chosen n g m (Z.to_nat d) → rounds g !! a = Some (l0', l') →
  ballot_le m a → lg `prefix_of` l' → d ≤ len lg → dec_ok n g a lg d.
Proof.
  intros Hm Hc Ha Hle Hpre Hd. destruct (decide (d ≤ 0)); [by left|right].
  split; [done|]. exists m, l0, l. split_and!; [done..|].
  eapply chosen_take; [exact Hm|done|exact Ha|done|done|lia].
Qed.

Lemma dec_ok_app a lg lg' d : dec_ok n g a lg d → lg `prefix_of` lg' → dec_ok n g a lg' d.
Proof.
  intros [?|(Hd & m & l0 & lm & Hm & Hr & Hc & Ht)] [x ->]; [by left|right].
  rewrite length_app. split; [lia|]. exists m, l0, lm. split_and!; [done..|].
  rewrite take_app_le by lia. done.
Qed.

(** The [ApplyMsg]s of a decided prefix. *)
Lemma effects_apply i a lg from to :
  0 ≤ from → dec_ok n g a lg to → effects_ok n g ns i (apply_msgs lg from to).
Proof.
  intros Hf Hd. apply Forall_forall. intros e He. unfold apply_msgs in He.
  apply list_elem_of_lookup in He as [j Hj]. rewrite list_lookup_imap in Hj.
  apply fmap_Some in Hj as (c & Hc & ->). rewrite lookup_take_Some, lookup_drop in Hc.
  destruct Hc as [Hc Hlt]. destruct Hd as [?|(Hd & m & l0 & lm & Hm & Hr & Hch & Ht)]; [lia|].
  split; simpl; [lia|]. exists m, l0, lm, (Z.to_nat to). split_and!; [done..|lia|].
  replace (Z.to_nat (from + Z.of_nat j)) with (Z.to_nat from + j)%nat by lia.
  rewrite <-(lookup_take_lt _ (Z.to_nat to)) by lia. rewrite <-Ht.
  rewrite lookup_take_lt by lia. done.
Qed.
End chosen.

(** ** Steps that vote for nothing *)
Section same.
Context {g : ghost (C := C)} {ns : gmap Z (OmniPaxos C)} {i : Z} {op : OmniPaxos C}.
Context (Hro : rounds_ok n g ns) (Hno : node_ok n g ns i op).
Context (Hop : ns !! i = Some op).

Lemma evolve_same op' :
  ballot_le (Promised op) (Promised op') → Accepted op' = Accepted op → log op' = log op →
  (op_state op' = mkState LEADER PREPARE →
    (op_state op = mkState LEADER PREPARE ∧ op_currentRnd op' = op_currentRnd op ∧
     Decided op' = Decided op) ∨ ballot_lt (Promised op) (op_currentRnd op')) →
  evolve g g ns i op op'.
Proof.
  intros Hp Ha Hl Hst. split; [done|eauto|done|eauto|done|done|by rewrite Ha|by left|].
  intros H. destruct (Hst H) as [(? & ? & ?)|?]; [left; by split_and!|by right].
Qed.

Lemma grows_same op' : grows n g g ns i op op'.
Proof.
  split; [apply Hro| |].
  - intros m r Hm Hm'. congruence.
  - done.
Qed.

Lemma effects_stable g' op' es : evolve g g' ns i op op' →
  (∀ j opj, ns !! j = Some opj → node_ok n g ns j opj) →
  effects_ok n g ns i es → effects_ok n g' (<[i := op']> ns) i es.
Proof.
  intros ev Hns He. eapply Forall_impl; [exact He|]. intros [d m|a].
  - by apply (msg_stable _ ev Hro).
  - by apply (hist_stable _ ev).
Qed.

(** A follower whose log did not change. *)
Lemma node_follower op' :
  ballot_le (Promised op) (Promised op') → Accepted op' = Accepted op → log op' = log op →
  role (op_state op') = FOLLOWER →
  (phase (op_state op') = ACCEPT → Accepted op' = Promised op') →
  dec_ok n g (Accepted op) (log op) (Decided op') →
  promised (<[i := op']> ns) (bPid (Promised op')) (Promised op') →
  node_ok n g (<[i := op']> ns) i op'.
Proof.
  intros Hp Ha Hl Hr Hph Hd Hown. destruct Hno as [Hlog Hvote _ _ _ _ _ _].
  split; rewrite ?Ha, ?Hl; try done.
  - by rewrite <-Ha.
  - intros Hst. by rewrite Hst in Hr.
  - intros Hst. by rewrite Hst in Hr.
  - rewrite Hr. done.
Qed.

(** A step that leaves the agreement state of the peer alone. *)
Record quiet op' : Prop := {
  q_promised : Promised op' = Promised op;
  q_accepted : Accepted op' = Accepted op;
  q_log : log op' = log op;
  q_decided : Decided op' = Decided op;
  q_phase : phase (op_state op') = ACCEPT → phase (op_state op) = ACCEPT;
  q_leader : role (op_state op') = LEADER → op_state op' = op_state op ∧
    op_currentRnd op' = op_currentRnd op ∧ op_maxProm op' = op_maxProm op ∧
    op_accepted op' = op_accepted op;
  q_promises : op_state op' = mkState LEADER PREPARE → op_promises op' = op_promises op;
}.

Lemma quiet_evolve op' : quiet op' → evolve g g ns i op op'.
Proof.
  intros []. apply evolve_same; [by apply ballot_eq_le|done..|].
  intros Hst. left. rewrite Hst in *. simpl in *. naive_solver.
Qed.

Lemma quiet_node op' : quiet op' → node_ok n g (<[i := op']> ns) i op'.
Proof.
  intros Hq. pose proof (quiet_evolve _ Hq) as ev.
  pose proof (node_stable _ ev Hro i op eq_refl (λ _, eq_refl) Hno) as [Hlog Hv Hph Hd Hown Hc Hl Ha].
  destruct Hq as [q1 q2 q3 q4 q5 q6 q7].
  split; rewrite ?q1, ?q2, ?q3, ?q4; try done; [naive_solver|..].
  - intros Hst. rewrite (q7 Hst). rewrite Hst in q6. destruct (q6 eq_refl) as (Hs & Hcr & _).
    rewrite Hcr. destruct (Hc (eq_sym Hs)) as (? & ? & Hst'). split_and!; [done..|].
    eapply map_Forall_impl; [exact Hst'|]. intros k p [Hp Hs']. split; [by rewrite Hcr|].
    destruct Hs' as [Hs'|[? ?]]; [left|right; by rewrite q2, q3].
    unfold sfx_ok in *. by rewrite q2, q3, q4.
  - intros Hst. rewrite Hst in q6. destruct (q6 eq_refl) as (Hs & Hcr & Hm & _).
    rewrite Hcr, Hm. by apply Hl.
  - intros Hr. destruct (q6 Hr) as (Hs & Hcr & _ & Hac). rewrite Hcr, Hac.
    apply Ha. by rewrite <-Hs.
Qed.

Lemma quiet_step op' es :
  (∀ j opj, ns !! j = Some opj → node_ok n g ns j opj) →
  quiet op' → effects_ok n g ns i es → safe_step n g g ns i op op' es.
Proof.
  intros Hns Hq He. pose proof (quiet_evolve _ Hq) as ev. split; [done|apply grows_same| |].
  - by apply quiet_node.
  - by apply effects_stable.
Qed.

(** The promise a peer makes in round [b]. *)
Lemma promise_made op' b :
  evolve g g ns i op op' → ballot_le (Accepted op) b → ballot_le b (Promised op') →
  promise_ok n g (<[i := op']> ns) i b (Accepted op) (len (log op)) (Decided op).
Proof.
  intros ev Hab Hp. destruct Hno as [(l0 & l & Hr & Hpre) Hv _ Hd _ _ _ _].
  split; [exists op'; by rewrite lookup_insert_eq|]. split; [done|]. split; [lia|].
  exists l0, l, (length (log op)). split_and!; [done..|]. intros Hlt. split; [done|]. split.
  - by rewrite <-(prefix_eq_take _ _ Hpre).
  - intros m Hm1 Hm2. destruct (votes g !! (i, m)) eqn:Hvm; [|done].
    destruct (ro_votes _ _ _ Hro _ _ _ Hvm) as (_ & _ & Hle).
    exfalso. eapply (irreflexivity ballot_lt), ballot_lt_le_trans; [exact Hm1|by apply Hle].
Qed.
End same.

(** ** The handlers *)
Section handlers.
Context {g : ghost (C := C)} {ns : gmap Z (OmniPaxos C)} {i : Z} {op : OmniPaxos C}.
Context (Hro : rounds_ok n g ns) (Hns : ∀ j opj, ns !! j = Some opj → node_ok n g ns j opj).
Context (Hwfs : ∀ j opj, ns !! j = Some opj → wf opj ∧ op_npeers opj = n ∧ op_me opj = j).
Context (Hop : ns !! i = Some op).

Lemma op_ok : node_ok n g ns i op.
Proof. by apply Hns. Qed.
Lemma op_wf : wf0 op.
Proof. apply (proj1 (Hwfs _ _ Hop)). Qed.
Lemma op_me_i : op_me op = i.
Proof. by destruct (Hwfs _ _ Hop) as (_ & _ & ?). Qed.
Lemma op_npeers_n : op_npeers op = n.
Proof. by destruct (Hwfs _ _ Hop) as (_ & ? & _). Qed.

Lemma effects_sends {A} (g' : ghost (C := C)) ns' (f : A → Z) (m : A → Msg C) l :
  (∀ a, a ∈ l → msg_ok n g' ns' (f a) (m a)) →
  effects_ok n g' ns' i ((λ a, Send (f a) (m a)) <$> l).
Proof. intros H. apply Forall_fmap, Forall_forall. exact H. Qed.

Lemma effects_cons (g' : ghost (C := C)) ns' d m es :
  msg_ok n g' ns' d m → effects_ok n g' ns' i es → effects_ok n g' ns' i (Send d m :: es).
Proof. intros. by constructor. Qed.

Lemma quiet_refl : quiet (op := op) op.
Proof. by split. Qed.

Lemma refl_step : safe_step n g g ns i op op [].
Proof. apply (quiet_step Hro op_ok Hop); [done|apply quiet_refl|constructor]. Qed.

Lemma PrepareHandler_step req op' es :
  msg_ok n g ns i (MPrepare req) → PrepareHandler req op = Some (op', es) →
  safe_step n g g ns i op op' es.
Proof.
  intros (HL & Hpr & Hlead). unfold PrepareHandler.
  case_decide as Hg; [intros [= <- <-]; apply refl_step|]. apply ballot_not_gt in Hg.
  intros (sfx & Hsfx & (s & [_ ->]%Call_Some & [= <- <-])%bind_Some)%bind_Some.
  set (op' := persist _). pose proof op_wf as Hw.
  assert (evolve g g ns i op op') as ev by by apply (evolve_same Hop).
  split; [done|by apply grows_same| |].
  - eapply (node_follower op_ok); try done; [apply op_ok|].
    by apply (promised_stable ev).
  - apply effects_cons; [|constructor]. simpl.
    split; [done|]. split; [by apply (promised_stable ev)|]. split.
    + replace (op_me op) with i by (symmetry; apply op_me_i).
      apply (promise_made Hro op_ok Hop op'); [done| |done].
      etrans; [apply (wf_round _ Hw)|done].
    + intros opl (Hl & Hst & Hc). rewrite lookup_insert in Hl.
      case_decide as Hd; [injection Hl as <-; discriminate|].
      destruct (Hlead opl) as (-> & Hli & Hdi) in Hsfx; [by split_and!|].
      rewrite Hli, Hdi in Hsfx.
      destruct op_ok as [(l0 & l & Hr & Hpre) _ _ _ _ _ _ _].
      intros m0 m Hm. rewrite Hr in Hm. injection Hm as <- <-.
      rewrite Nat2Z.id, <-(prefix_eq_take _ _ Hpre). split.
      * intros Hlt. apply compare_flip in Hlt. rewrite decide_True in Hsfx by done.
        by apply suffix_Some in Hsfx as [_ ->].
      * intros He. rewrite decide_False, decide_True in Hsfx.
        -- apply suffix_Some in Hsfx as [_ ->]. by rewrite Nat2Z.id.
        -- by apply compare_eq.
        -- simpl. rewrite He, (proj2 (compare_eq _ _)); [lia|done].
Qed.

Lemma DecideHandler_step req op' es :
  msg_ok n g ns i (MDecide req) → DecideHandler req op = Some (op', es) →
  safe_step n g g ns i op op' es.
Proof.
  intros Hm. unfold DecideHandler.
  case_decide; [intros [= <- <-]; apply refl_step|].
  case_decide as Hlen; [intros [= <- <-]; apply refl_step|].
  case_decide as Hg; [|intros [= <- <-]; apply refl_step].
  destruct Hg as [Hp%compare_eq Hst]. pose proof op_wf as Hw. pose proof op_ok as Ho.
  intros (es' & Ha & [= <- <-])%bind_Some. apply addToApplyChan_Some in Ha as [_ ->]; [|apply Hw].
  assert (dec_ok n g (Accepted op) (log op) (dc_DecIdx req)) as Hd.
  { destruct Hm as [?|(m & l0 & l & Hle & Hr & Hc)]; [by left|].
    destruct (no_log _ _ _ _ _ Ho) as (l0' & l' & Ha & Hpre).
    apply (dec_ok_of_chosen Hro m l0 l _ _ l0' l'); [done..| |done|lia].
    rewrite (no_phase _ _ _ _ _ Ho) by (by rewrite Hst). by rewrite Hp. }
  match goal with |- safe_step _ _ _ _ _ _ ?o _ => set (op' := o) end.
  assert (evolve g g ns i op op') as ev.
  { apply (evolve_same Hop); [done..|]. simpl. rewrite Hst. discriminate. }
  split; [done|by apply grows_same| |].
  - eapply (node_follower Ho); try done; [by simpl; rewrite Hst|apply Ho|].
    apply (promised_stable ev), Ho.
  - eapply effects_apply; [apply Hw|done].
Qed.

(** Peer [i] accepts more of the round [b] it has promised; when it leads
    the round the log of the round may grow too. *)
Definition ghost_vote (b : Ballot) (l0 l : list C) (v : nat) : ghost :=
  mkGhost (<[b := (l0, l)]> (rounds g)) (<[(i, b) := v]> (votes g)).

Section vote.
Context (op' : OmniPaxos C) (l0 l l' : list C).
Context (HP : Promised op' = Promised op) (HA : Accepted op' = Promised op).
Context (Hr : rounds g !! Promised op = Some (l0, l)).
Context (Hl' : l `prefix_of` l') (Hown : l' = l ∨ bPid (Promised op) = i).
Context (Hlog : log op' `prefix_of` l') (Hlen : (length l0 ≤ length (log op'))%nat).
Context (Hgrow : Accepted op = Promised op → (length (log op) ≤ length (log op'))%nat).
Context (Hst : op_state op' ≠ mkState LEADER PREPARE).
Abbreviation g' := (ghost_vote (Promised op) l0 l' (length (log op'))).

Lemma vote_old v : votes g !! (i, Promised op) = Some v → Accepted op = Promised op ∧ v = length (log op).
Proof using All.
  intros Hv. destruct (ro_votes _ _ _ Hro _ _ _ Hv) as (_ & _ & Hle).
  assert (Accepted op = Promised op) as Ha.
  { apply (anti_symm ballot_le); [apply op_wf|by apply Hle]. }
  split; [done|]. pose proof (no_vote _ _ _ _ _ op_ok) as Hv'. rewrite Ha in Hv'. congruence.
Qed.

Lemma vote_evolve : evolve g g' ns i op op'.
Proof using All.
  split; simpl; [done|..].
  - intros m m0 m1 Hm. destruct (decide (m = Promised op)) as [->|Hne].
    + rewrite lookup_insert_eq. rewrite Hr in Hm. injection Hm as <- <-. by exists l'.
    + rewrite lookup_insert_ne by done. by exists m1.
  - intros m Hm. destruct (decide (m = Promised op)) as [->|Hne]; [|by apply lookup_insert_ne].
    rewrite lookup_insert_eq. destruct Hown as [->|Hb]; [done|]. rewrite HP in Hm. naive_solver.
  - intros j m v Hv. destruct (decide ((j, m) = (i, Promised op))) as [[= -> ->]|Hne].
    + rewrite lookup_insert_eq. eexists. split; [done|].
      destruct (vote_old _ Hv) as [? ->]. by apply Hgrow.
    + rewrite lookup_insert_ne by congruence. by exists v.
  - intros j m Hv. destruct (decide ((j, m) = (i, Promised op))) as [[= -> ->]|Hne]; [done|].
    by rewrite lookup_insert_ne in Hv by congruence.
  - rewrite HP. done.
  - rewrite HA. apply op_wf.
  - right. by rewrite HA, HP.
  - done.
Qed.

Lemma vote_grows : grows n g g' ns i op op'.
Proof using All.
  split; simpl.
  - intros m m0 m1. rewrite lookup_insert. case_decide; [|by apply Hro].
    intros [= <- <-]. etrans; [by eapply Hro|done].
  - intros m r Hm. rewrite lookup_insert_ne; [congruence|]. intros <-. congruence.
  - intros v. rewrite lookup_insert_eq. intros [= <-] _. exists l0, l'.
    rewrite lookup_insert_eq. split_and!; [done|done|by apply prefix_length|].
    by rewrite HA.
Qed.

Lemma vote_node :
  dec_ok n g (Promised op) (log op') (Decided op') →
  (op_state op' = mkState LEADER ACCEPT → op_currentRnd op' = Promised op ∧ log op' = l' ∧
     ∃ p, op_maxProm op' = Some p ∧ max_ok g (Promised op) p) →
  (role (op_state op') = LEADER → ∀ j v, op_accepted op' !! j = Some v →
     v ≤ 0 ∨ ∃ k, votes g' !! (Z.of_nat j, op_currentRnd op') = Some k ∧ v ≤ Z.of_nat k) →
  node_ok n g' (<[i := op']> ns) i op'.
Proof using All.
  intros Hd Hlead Hacc. split; rewrite ?HA, ?HP; simpl; try done.
  - exists l0, l'. by rewrite lookup_insert_eq.
  - by rewrite lookup_insert_eq.
  - by apply (dec_ok_stable _ vote_evolve).
  - apply (promised_stable vote_evolve), op_ok.
  - intros H. destruct (Hlead H) as (-> & -> & p & Hp & Hmax).
    split; [exists l0; by rewrite lookup_insert_eq|].
    exists p. split; [done|]. by apply (max_stable vote_evolve).
Qed.
End vote.

Lemma AcceptHandler_step req op' es :
  msg_ok n g ns i (MAccept req) → in_order op (MAccept req) →
  AcceptHandler req op = Some (op', es) → ∃ g', safe_step n g g' ns i op op' es.
Proof.
  intros (l0 & l & Hr & Hidx & Hc) Hord. unfold AcceptHandler.
  case_decide as Hg; [intros [= <- <-]; exists g; apply refl_step|].
  apply not_or_1 in Hg as [Hp%dec_stable%compare_eq Hst%dec_stable].
  intros (s & [_ ->]%Call_Some & [= <- <-])%bind_Some.
  specialize (Hord Hp Hst). pose proof op_ok as Ho.
  assert (Accepted op = Promised op) as Ha by (apply Ho; by rewrite Hst).
  rewrite <-Hp in Hr.
  match goal with |- ∃ _, safe_step _ _ _ _ _ _ ?o _ => set (op' := o) end.
  assert (log op `prefix_of` l) as Hpre.
  { destruct (no_log _ _ _ _ _ Ho) as (? & ? & Hr' & ?). rewrite Ha, Hr in Hr'. by injection Hr' as <- <-. }
  assert (log op' `prefix_of` l) as Hpre'.
  { destruct Hpre as [x Hx]. rewrite Hord in Hc.
    replace (Z.to_nat (len (log op) + 1) - 1)%nat with (length (log op)) in Hc by lia.
    rewrite Hx in Hc. rewrite lookup_app_r, Nat.sub_diag in Hc by lia.
    destruct x as [|c x]; simplify_eq/=. exists x. by rewrite <-(assoc_L (++)). }
  assert (length l0 ≤ length (log op))%nat as Hlen.
  { pose proof (no_vote _ _ _ _ _ Ho) as Hv. destruct (ro_votes _ _ _ Hro _ _ _ Hv) as (_ & (? & ? & Hr' & ?) & _).
    rewrite Ha, Hr in Hr'. injection Hr' as <- <-. lia. }
  assert ((length (log op) ≤ length (log op'))%nat) as Hgrow by (simpl; rewrite length_app; lia).
  exists (ghost_vote (Promised op) l0 l (length (log op'))).
  assert (evolve g (ghost_vote (Promised op) l0 l (length (log op'))) ns i op op') as ev.
  { apply (vote_evolve op' l0 l l); try done; [by left|lia|by simpl; rewrite Hst]. }
  split; [done|..].
  - apply (vote_grows op' l0 l l); try done; [by left|lia|by simpl; rewrite Hst].
  - apply (vote_node op' l0 l l); try done; [by left|lia|by simpl; rewrite Hst| |by simpl; rewrite Hst..].
    rewrite <-Ha. eapply dec_ok_app; [apply Ho|]. by eexists.
  - apply effects_cons; [|constructor]. simpl. rewrite op_me_i, <-Hp, lookup_insert_eq.
    eexists. split; [done|]. simpl. lia.
Qed.

(** The log a follower has after [AcceptSync] is a prefix of the leader's
    that covers the log the round started from. *)
Lemma sync_log req l0 l s :
  rounds g !! as_N req = Some (l0, l) → (length l0 ≤ s ≤ length l)%nat →
  as_Sfx req = drop (Z.to_nat (as_SyncIdx req)) (take s l) → 0 ≤ as_SyncIdx req →
  Promised op = as_N req → op_state op = mkState FOLLOWER PREPARE → in_order op (MAcceptSync req) →
  (Accepted op ≠ as_N req → as_SyncIdx req ≤ len (log op) →
    take (Z.to_nat (as_SyncIdx req)) (log op) `prefix_of` l0) →
  ∃ s', take (Z.to_nat (as_SyncIdx req)) (log op) ++ as_Sfx req = take s' l ∧
    (length l0 ≤ s' ≤ length l)%nat ∧ (Accepted op = as_N req → (length (log op) ≤ s')%nat).
Proof using All.
  intros Hr Hs Hsfx Hpos Hp Hst Hord Hpre. destruct (Hord Hp Hst) as [Hle Hsh].
  set (x := Z.to_nat (as_SyncIdx req)) in *.
  assert (x ≤ length (log op))%nat as Hx by lia.
  pose proof (ro_init _ _ _ Hro _ _ _ Hr) as Hl0.
  destruct (decide (Accepted op = as_N req)) as [Ha|Ha].
  - specialize (Hsh Ha). destruct (no_log _ _ _ _ _ op_ok) as (l0' & l' & Hr' & Hlog).
    rewrite Ha, Hr in Hr'. injection Hr' as <- <-.
    pose proof (no_vote _ _ _ _ _ op_ok) as Hv. rewrite Ha in Hv.
    destruct (ro_votes _ _ _ Hro _ _ _ Hv) as (_ & (? & ? & Hr' & Hvl) & _).
    rewrite Hr in Hr'. injection Hr' as <- <-.
    rewrite Hsfx in *. rewrite length_drop, length_take in Hsh.
    destruct (decide (x ≤ s)%nat) as [Hxs|Hxs].
    + exists s. split_and!; [|lia..].
      rewrite (prefix_eq_take _ _ Hlog), take_take, Nat.min_l by done.
      rewrite <-(take_drop x (take s l)), take_take, Nat.min_l by done.
      f_equal. by rewrite drop_app_length' by (rewrite length_take; lia).
    + exists (length (log op)). rewrite <-(prefix_eq_take _ _ Hlog).
      rewrite take_ge, drop_ge, app_nil_r by (rewrite ?length_take; lia). split_and!; [done|lia..].
  - specialize (Hpre Ha Hle). exists s. split_and!; [|lia..|done].
    assert (take x (log op) = take x (take s l)) as ->.
    { pose proof (prefix_length _ _ Hpre) as Hxl. rewrite length_take, Nat.min_l in Hxl by done.
      rewrite take_take, Nat.min_l by lia.
      assert (take x (log op) `prefix_of` l) as Hpl%prefix_eq_take by (by etrans).
      by rewrite length_take, Nat.min_l in Hpl by done. }
    rewrite Hsfx. apply take_drop.
Qed.

(** A decided prefix survives the adoption of a later round's log. *)
Lemma dec_ok_later b lg d a :
  (∀ m l0 l k, rounds g !! m = Some (l0, l) → ballot_lt m b → chosen n g m k → take k l `prefix_of` lg) →
  ballot_lt a b → dec_ok n g a (log op) d → dec_ok n g b lg d.
Proof.
  intros Hsafe Hab [?|(Hd & m & m0 & lm & Hm & Hrm & Hc & Ht)]; [by left|].
  destruct (decide (d ≤ 0)); [by left|].
  assert (ballot_lt m b) as Hmb by (by eapply ballot_le_lt_trans).
  pose proof (Hsafe _ _ _ _ Hrm Hmb Hc) as Hpl.
  pose proof (chosen_len Hro _ _ _ _ Hrm Hc) as Hlm.
  pose proof (prefix_length _ _ Hpl) as Hlen. rewrite length_take, Nat.min_l in Hlen by done.
  right. split; [lia|]. exists m, m0, lm. split_and!; [by apply ballot_lt_le|done|done|].
  apply prefix_eq_take in Hpl. by rewrite length_take, Nat.min_l in Hpl by done.
Qed.

(** What is chosen in earlier rounds is in the first log of a round. *)
Lemma chosen_safe b l0b lb m l0 l k :
  rounds g !! b = Some (l0b, lb) → rounds g !! m = Some (l0, l) → ballot_lt m b →
  chosen n g m k → take k l `prefix_of` l0b.
Proof.
  intros Hb Hm Hlt Hc. eapply (ro_safe _ _ _ Hro); [exact Hm|exact Hb|done|].
  by apply chosen_choosable.
Qed.

Lemma AcceptSyncHandler_step req op' es :
  msg_ok n g ns i (MAcceptSync req) → 0 ≤ as_SyncIdx req → in_order op (MAcceptSync req) →
  AcceptSyncHandler req op = Some (op', es) → ∃ g', safe_step n g g' ns i op op' es.
Proof.
  intros (Hpr & l0 & l & s & Hr & Hs & Hsfx & Hpre) Hpos Hord. unfold AcceptSyncHandler.
  case_decide as Hg; [intros [= <- <-]; exists g; apply refl_step|].
  apply not_or_1 in Hg as [Hp%dec_stable%compare_eq Hst%dec_stable].
  intros (pre & [_ ->]%prefix_Some & (x & [_ ->]%Call_Some & [= <- <-])%bind_Some)%bind_Some.
  pose proof op_ok as Ho. simpl.
  destruct (sync_log req l0 l s Hr Hs Hsfx Hpos Hp Hst Hord) as (s' & Hlog & Hs' & Hgrow).
  { intros Ha Hle. by apply (Hpre op). }
  rewrite Hlog.
  match goal with |- ∃ _, safe_step _ _ _ _ _ _ ?o _ => set (op' := o) end.
  rewrite <-Hp in Hr. rewrite <-Hp in Hgrow.
  assert (length (log op') = s') as Hlen by (simpl; rewrite length_take; lia).
  assert (log op' `prefix_of` l) as Hpre' by apply prefix_take.
  assert (evolve g (ghost_vote (Promised op) l0 l (length (log op'))) ns i op op') as ev.
  { apply (vote_evolve op' l0 l l); try done; [by left|lia|rewrite Hlen; auto]. }
  exists (ghost_vote (Promised op) l0 l (length (log op'))). split; [done|..].
  - apply (vote_grows op' l0 l l); try done; [by left|lia|rewrite Hlen; auto].
  - apply (vote_node op' l0 l l); try done; [by left|lia|rewrite Hlen; auto|].
    pose proof (wf_round _ op_wf) as [Hlt|Ha]%ballot_le_lt_eq.
    + eapply dec_ok_later; [|exact Hlt|apply Ho].
      pose proof (ro_init _ _ _ Hro _ _ _ Hr) as Hl0. intros m m0 lm k Hm Hlt' Hc.
      transitivity l0; [by eapply chosen_safe|]. apply (prefix_comparable l); [done|done|lia].
    + rewrite <-Ha. eapply dec_ok_app; [apply Ho|].
      destruct (no_log _ _ _ _ _ Ho) as (? & ? & Hr' & Hl). rewrite Ha, Hr in Hr'.
      injection Hr' as <- <-. apply (prefix_comparable l); [done|done|rewrite Hlen; auto].
  - apply effects_cons; [|constructor]. simpl. rewrite op_me_i, <-Hp, lookup_insert_eq.
    eexists. split; [done|]. simpl. lia.
Qed.

Lemma Proposal_step c res op' es :
  Proposal c op = Some (res, op', es) → ∃ g', safe_step n g g' ns i op op' es.
Proof.
  unfold Proposal, stopped. pose proof op_ok as Ho. pose proof op_wf as Hw.
  case_decide as Hst.
  { intros [= _ <- <-]. exists g. apply (quiet_step Hro Ho Hop); [done|by split|constructor]. }
  case_decide as Hst'; [|intros [= _ <- <-]; exists g; apply refl_step].
  intros (acc & Hacc & (sends & [_ ->]%mapM_Call & [= _ <- <-])%bind_Some)%bind_Some.
  destruct (wf_leader _ Hw) as (Hcr & Hbp & _); [by rewrite Hst'|].
  pose proof (wf_leader_accept _ Hw Hst') as Ha. rewrite Hcr in Ha.
  destruct (no_lead _ _ _ _ _ Ho Hst') as ([l0 Hr] & p & Hp & Hmax). rewrite Hcr in Hr, Hmax.
  match goal with |- ∃ _, safe_step _ _ _ _ _ _ ?o _ => set (op' := o) end.
  pose proof (ro_init _ _ _ Hro _ _ _ Hr) as Hl0.
  assert (length (log op') = S (length (log op))) as Hlen by (simpl; rewrite length_app; simpl; lia).
  assert (bPid (Promised op) = i) as Hbi by (rewrite <-Hcr, Hbp; apply op_me_i).
  pose proof (prefix_length _ _ Hl0) as Hl0l.
  set (g' := ghost_vote (Promised op) l0 (log op') (length (log op'))).
  assert (evolve g g' ns i op op') as ev.
  { apply (vote_evolve op' l0 (log op) (log op')); try done; [by eexists|by right|lia|lia]. }
  exists g'. split; [done|..].
  - apply (vote_grows op' l0 (log op) (log op')); try done; [by eexists|by right|lia|lia].
  - apply (vote_node op' l0 (log op) (log op')); try done;
      [by eexists|by right|lia|lia|..].
    + rewrite <-Ha. eapply dec_ok_app; [apply Ho|by eexists].
    + intros _. split; [done|]. split; [done|]. by exists p.
    + intros Hrl j v. simpl. apply go_set_inv in Hacc as [Hin ->]. simpl in *.
      destruct (decide (j = Z.to_nat (op_me op))) as [->|Hj].
      * rewrite list_lookup_insert_eq by lia. intros [= <-]. right.
        eexists. split; [|reflexivity]. rewrite Z2Nat.id, op_me_i by lia. rewrite Hcr. by rewrite lookup_insert_eq.
      * rewrite list_lookup_insert_ne by done. intros Hv.
        destruct (no_accepted _ _ _ _ _ Ho Hrl _ _ Hv) as [?|(k & Hk & ?)]; [by left|right].
        destruct (ev_votes _ _ _ _ _ _ ev _ _ _ Hk) as (k' & Hk' & ?). exists k'. split; [done|lia].
  - apply effects_sends. intros q Hq. simpl. rewrite Hcr. exists l0, (log op').
    rewrite lookup_insert_eq. split; [done|]. split; [simpl; rewrite length_app; simpl; lia|].
    simpl. rewrite length_app. simpl.
    replace (Z.to_nat (Z.of_nat (length (log op) + 1)) - 1)%nat with (length (log op)) by lia.
    by rewrite lookup_app_r, Nat.sub_diag by lia.
Qed.

(** ** The leader *)
Lemma singleton_own b : bPid b = i → ballot_lt (Promised op) b → rounds g !! b = None.
Proof using All.
  intros Hb Hlt. destruct (rounds g !! b) eqn:Hr; [|done].
  destruct (ro_owner _ _ _ Hro _ _ Hr) as (opb & Hopb & Hle). rewrite Hb, Hop in Hopb.
  injection Hopb as <-. exfalso. by eapply (irreflexivity ballot_lt), ballot_lt_le_trans.
Qed.

Lemma triggerLeader_step s b op' es :
  bPid b = s → triggerLeader s b op = Some (op', es) → safe_step n g g ns i op op' es.
Proof using All.
  intros Hs Ht. apply triggerLeader_Some in Ht; [|apply op_wf]. pose proof op_me_i as Hme.
  destruct Ht as [(Hsm & Hb%compare_flip & -> & ->)|(_ & -> & ->)].
  - set (op' := persist _). assert (bPid b = i) as Hbi by congruence.
    assert (evolve g g ns i op op') as ev.
    { apply (evolve_same Hop); [by apply ballot_lt_le|done|done|]. intros _. by right. }
    assert (promised (<[i := op']> ns) i b) as Hpb by (exists op'; by rewrite lookup_insert_eq).
    assert (ballot_lt (Accepted op) b) as Hab by (eapply ballot_le_lt_trans; [apply op_wf|done]).
    split; [done|by apply grows_same|..].
    + pose proof op_ok as [Hlog Hv _ Hd _ _ _ _]. split; simpl; try done; [by rewrite Hbi| |].
      * intros _. split; [by apply singleton_own|].
        rewrite Hme, lookup_singleton_eq. split; [eexists; by split_and!|].
        apply map_Forall_singleton. split; [|right; done].
        apply (promise_made Hro op_ok Hop op'); [done|by apply ballot_lt_le|done].
      * intros _ j v [-> _]%lookup_replicate. by left.
    + apply effects_sends. intros p _. simpl. rewrite Hme. split; [done|]. rewrite Hbi.
      split; [done|]. intros opl (Hl & _). rewrite Hbi, lookup_insert_eq in Hl.
      by injection Hl as <-.
  - apply (quiet_step Hro op_ok Hop); [done| |constructor].
    split; simpl; try done.
Qed.

Lemma PrepareReqHandler_step req op' es :
  PrepareReqHandler req op = Some (op', es) → safe_step n g g ns i op op' es.
Proof using All.
  unfold PrepareReqHandler. case_decide as Hr; [intros [= <- <-]; apply refl_step|].
  destruct (wf_leader _ op_wf Hr) as (Hc & Hb & _).
  intros (s & [_ ->]%Call_Some & [= <- <-])%bind_Some.
  apply (quiet_step Hro op_ok Hop); [done|apply quiet_refl|].
  apply effects_cons; [|constructor]. simpl. rewrite Hb, op_me_i. split; [done|].
  split; [exists op; rewrite Hc; done|]. intros opl (Hl & _).
  rewrite Hb, op_me_i, Hop in Hl. by injection Hl as <-.
Qed.

Lemma ReconnectedHandler_step req op' es :
  ReconnectedHandler req op = Some (op', es) → safe_step n g g ns i op op' es.
Proof using All.
  unfold ReconnectedHandler. intros (s & [_ ->]%Call_Some & [= <- <-])%bind_Some.
  apply (quiet_step Hro op_ok Hop); [done| |by apply effects_cons; [|constructor]].
  case_decide; [by split|apply quiet_refl].
Qed.

(** The entries of [op.accepted] that reach [v], as a quorum of peers. *)
Lemma accepted_quorum (acc : list Z) v :
  length acc = n → Z.of_nat (quorum n) ≤ len (filter (λ a, a >= v) acc) →
  ∃ Q, is_quorum n Q ∧ ∀ j, j ∈ Q → ∃ k a, j = Z.of_nat k ∧ acc !! k = Some a ∧ a >= v.
Proof.
  intros Hlen Hq. destruct (filter_indices (λ a, a >= v) acc) as (js & Hnd & Hjs & Hall).
  exists (list_to_set (Z.of_nat <$> js)). split; [split|].
  - intros j. rewrite elem_of_list_to_set, list_elem_of_fmap. intros (k & -> & Hk).
    destruct (Hall k Hk) as (a & Ha & _). apply lookup_lt_Some in Ha.
    unfold peer_set. rewrite elem_of_list_to_set, elem_of_seqZ. lia.
  - rewrite size_list_to_set by (apply NoDup_fmap_2; [intros ??; lia|done]).
    rewrite length_fmap, Hjs. lia.
  - intros j. rewrite elem_of_list_to_set, list_elem_of_fmap. intros (k & -> & Hk).
    destruct (Hall k Hk) as (a & Ha & Hav). by exists k, a.
Qed.

Lemma AcceptedHandler_step req op' es :
  msg_ok n g ns i (MAccepted req) → 0 ≤ ad_F req → AcceptedHandler req op = Some (op', es) →
  safe_step n g g ns i op op' es.
Proof using All.
  intros (v & Hv & Hle) HF. unfold AcceptedHandler.
  case_decide as Hg; [intros [= <- <-]; apply refl_step|].
  apply not_or_1 in Hg as [Hp%dec_stable%compare_eq Hst%dec_stable].
  pose proof op_wf as Hw. pose proof op_ok as Ho.
  destruct (wf_leader _ Hw) as (Hcr & _); [by rewrite Hst|].
  pose proof (wf_leader_accept _ Hw Hst) as Ha.
  destruct (no_lead _ _ _ _ _ Ho Hst) as ([l0 Hr] & _).
  intros (acc & Hacc & Hrun)%bind_Some.
  assert (∀ j x, acc !! j = Some x →
    x ≤ 0 ∨ ∃ k, votes g !! (Z.of_nat j, op_currentRnd op) = Some k ∧ x ≤ Z.of_nat k) as Hacc'.
  { intros j x. apply go_set_inv in Hacc as [Hin ->]. simpl in Hin.
    destruct (decide (j = Z.to_nat (ad_F req))) as [->|Hj].
    - rewrite list_lookup_insert_eq by lia. intros [= <-]. right. exists v.
      rewrite Z2Nat.id, Hcr, Hp by done. done.
    - rewrite list_lookup_insert_ne by done. apply (no_accepted _ _ _ _ _ Ho). by rewrite Hst. }
  assert (∀ op2, Promised op2 = Promised op → Accepted op2 = Accepted op → log op2 = log op →
    op_state op2 = op_state op → op_currentRnd op2 = op_currentRnd op → op_maxProm op2 = op_maxProm op →
    op_accepted op2 = acc → dec_ok n g (Accepted op) (log op) (Decided op2) →
    evolve g g ns i op op2 ∧ node_ok n g (<[i := op2]> ns) i op2) as Hnode.
  { intros op2 E1 E2 E3 E4 E5 E6 E7 Hd.
    assert (evolve g g ns i op op2) as ev.
    { apply (evolve_same Hop); [by apply ballot_eq_le|done..|]. rewrite E4, Hst. discriminate. }
    split; [done|].
    destruct (node_stable _ ev Hro i op eq_refl (λ _, eq_refl) Ho) as [Hlog Hv' Hph _ Hown _ Hl _].
    split; rewrite ?E1, ?E2, ?E3, ?E4, ?E5, ?E6, ?E7; try done. rewrite Hst. discriminate. }
  case_decide as Hm; simpl in *.
  - destruct Hm as [Hgt Hmaj]. unfold hasMajorityAccepted in Hmaj. apply bool_decide_eq_true in Hmaj.
    simpl in Hmaj. rewrite op_npeers_n in Hmaj.
    apply bind_Some in Hrun as (ap & Hap & (sends & [_ ->]%mapM_Call & [= <- <-])%bind_Some).
    pose proof (wf_decided _ Hw). apply addToApplyChan_Some in Hap as [Hlen ->]; [|done].
    destruct (accepted_quorum acc (ad_LogIdx req)) as (Q & HQ & Hall).
    { rewrite (go_set_length (op_accepted op) acc _ _ Hacc), (wf_accepted _ Hw). apply op_npeers_n. }
    { exact Hmaj. }
    assert (chosen n g (op_currentRnd op) (Z.to_nat (ad_LogIdx req))) as Hch.
    { exists Q. split; [done|]. intros j Hj. destruct (Hall j Hj) as (k & a & -> & Hk & Hka).
      destruct (Hacc' _ _ Hk) as [?|(x & Hx & ?)]; [lia|]. exists x. split; [done|lia]. }
    assert (dec_ok n g (Accepted op) (log op) (ad_LogIdx req)) as Hd.
    { rewrite Ha. apply (dec_ok_of_chosen Hro (op_currentRnd op) l0 (log op) _ _ l0 (log op)); try done. lia. }
    match goal with |- safe_step _ _ _ _ _ _ ?o _ => destruct (Hnode o) as [ev Hn]; try done end.
    split; [done|by apply grows_same|done|].
    apply Forall_app_2; [by eapply effects_apply|].
    apply effects_sends. intros p _. simpl. right. by exists (op_currentRnd op), l0, (log op).
  - injection Hrun as <- <-.
    destruct (Hnode (set_accepted acc op)) as [ev Hn]; try done; [apply Ho|].
    split; [done|by apply grows_same|done|constructor].
Qed.

(** A promise of a peer that has accepted nothing since describes its log. *)
Lemma promise_current f b a li di opf :
  promise_ok n g ns f b a li di → ns !! f = Some opf → Promised opf = b → Accepted opf ≠ b →
  a = Accepted opf ∧ li = len (log opf) ∧ ballot_lt a b ∧ dec_ok n g (Accepted opf) (log opf) di.
Proof using Hro Hns Hwfs.
  intros (_ & Hab & _ & l0 & l & v & Hr & Hv & Hlt) Hf Hp Ha.
  pose proof (Hns _ _ Hf) as Ho. destruct (Hwfs _ _ Hf) as [[Hw _] _].
  destruct (ro_votes _ _ _ Hro _ _ _ Hv) as (_ & _ & Hle). specialize (Hle _ Hf).
  assert (ballot_lt (Accepted opf) b) as Hfb.
  { pose proof (wf_round _ Hw) as [?|?]%ballot_le_lt_eq; congruence. }
  assert (ballot_lt a b) as Hab' by (by eapply ballot_le_lt_trans).
  destruct (Hlt Hab') as (Hvl & Hd & Hnone).
  assert (a = Accepted opf) as ->.
  { apply ballot_le_lt_eq in Hle as [Hle|?]; [|done].
    pose proof (Hnone _ Hle Hfb) as Hn. rewrite (no_vote _ _ _ _ _ Ho) in Hn. done. }
  rewrite (no_vote _ _ _ _ _ Ho) in Hv. injection Hv as <-.
  destruct (no_log _ _ _ _ _ Ho) as (l0' & l' & Hr' & Hpre). rewrite Hr in Hr'.
  injection Hr' as <- <-. rewrite <-(prefix_eq_take _ _ Hpre) in Hd. by split_and!.
Qed.

(** The index the log of a promised follower is truncated to is inside
    what it shares with the log [l0b] the round [b] starts from. *)
Lemma sync_prefix b l0b f a li di opf x (max : Promise C) la0 la :
  (∀ m l0 l k, rounds g !! m = Some (l0, l) → ballot_lt m b → chosen n g m k → take k l `prefix_of` l0b) →
  rounds g !! p_accRnd max = Some (la0, la) → take (Z.to_nat (p_logIdx max)) la `prefix_of` l0b →
  promise_ok n g ns f b a li di → ns !! f = Some opf → Promised opf = b → Accepted opf ≠ b →
  (a = p_accRnd max ∧ x ≤ p_logIdx max) ∨ x = di → x ≤ len (log opf) →
  take (Z.to_nat x) (log opf) `prefix_of` l0b.
Proof using Hro Hns Hwfs.
  intros Hsafe Hla Hmax Hp Hf HP HA Hx Hlen.
  destruct (promise_current _ _ _ _ _ _ Hp Hf HP HA) as (-> & -> & Hab & Hd).
  destruct Hx as [[Ha Hx]| ->].
  - destruct (no_log _ _ _ _ _ (Hns _ _ Hf)) as (l0' & l' & Hr' & Hpre).
    rewrite Ha, Hla in Hr'. injection Hr' as <- <-.
    etrans; [|exact Hmax]. rewrite (prefix_eq_take _ _ Hpre), take_take.
    apply prefix_take_le. lia.
  - destruct Hd as [Hd|(_ & m & l0 & lm & Hm & Hr & Hc & ->)].
    + replace (Z.to_nat di) with 0%nat by lia. apply prefix_nil.
    + eapply Hsafe; [exact Hr| |done]. by eapply ballot_le_lt_trans.
Qed.

Lemma promiseAccept_step req op' es :
  op_state op = mkState LEADER ACCEPT → op_currentRnd op = pm_N req →
  msg_ok n g ns i (MPromise req) → promiseAccept req op = Some (op', es) →
  safe_step n g g ns i op op' es.
Proof using All.
  intros Hst Hc (Hi & _ & Hp & _). rewrite promiseAccept_Some.
  intros (max & Hmax & Hpos & _ & -> & ->). pose proof op_ok as Ho.
  pose proof (wf_leader_accept _ op_wf Hst) as Ha.
  destruct (no_lead _ _ _ _ _ Ho Hst) as ((l0 & Hr) & mx & Hmx & Hok).
  rewrite Hmax in Hmx. injection Hmx as <-.
  apply (quiet_step Hro op_ok Hop); [done|by split|].
  apply effects_cons; [simpl; split; [apply Hp|]|].
  - destruct Hok as (l0' & l' & la0 & la & Hb & Hla & Hli & Hpre).
    rewrite Hr in Hb. injection Hb as <- <-.
    exists l0, (log op), (length (log op)). rewrite <-Hc, firstn_all.
    pose proof (prefix_length _ _ (ro_init _ _ _ Hro _ _ _ Hr)).
    split_and!; [done|lia|lia|done|].
    intros opf Hf HP HA Hlen. rewrite Hc in HP, HA.
    eapply sync_prefix; [|exact Hla|exact Hpre|exact Hp|exact Hf|done|done| |exact Hlen].
    + intros m l1 l2 k Hm Hlt Hch. rewrite <-Hc in Hlt. by eapply chosen_safe.
    + case_decide; [left; split; [done|lia]|by right].
  - destruct (decide (Decided op > _)); [|constructor]. apply effects_cons; [|constructor]. simpl. rewrite <-Hc.
    destruct (no_decided _ _ _ _ _ Ho) as [?|(_ & m & m0 & lm & Hm & Hrm & Hch & _)]; [by left|right].
    exists m, m0, lm. rewrite Ha in Hm. by split_and!.
Qed.

(** Storing a promise in [op.promises]. *)
Lemma store_step req :
  op_currentRnd op = pm_N req → msg_ok n g ns i (MPromise req) →
  safe_step n g g ns i op (set_promises (<[pm_F req := mkPromise (pm_F req) (pm_AccRnd req)
    (pm_LogIdx req) (pm_DecIdx req) (pm_Sfx req)]> (op_promises op)) op) [].
Proof using All.
  intros Hc (Hi & _ & Hp & Hsfx). pose proof op_ok as Ho.
  set (op' := set_promises _ op). 
  destruct (decide (op_state op = mkState LEADER PREPARE)) as [Hst|Hst]; last first.
  { apply (quiet_step Hro Ho Hop); [done|by split|constructor]. }
  assert (evolve g g ns i op op') as ev by (apply (evolve_same Hop); [done..|]; by left).
  destruct (wf_leader _ op_wf) as (Hcr & Hbp & _); [by rewrite Hst|].
  split; [done|by apply grows_same| |constructor].
  destruct (node_stable _ ev Hro i op eq_refl (λ _, eq_refl) Ho) as [Hlog Hv' Hph Hd Hown Hcol Hl Hac].
  split; try done. intros _. destruct (Hcol Hst) as (Hnone & Hme & Hall).
  split; [done|].
  assert (leading ns (pm_N req) op) as Hlead.
  { split; [|done]. rewrite <-Hc, Hbp, op_me_i. done. }
  split.
  - destruct (decide (pm_F req = i)) as [HF|Hne].
    + simpl. rewrite HF, lookup_insert_eq. eexists. split; [done|]. simpl. rewrite HF in Hp.
      destruct (promise_current _ _ _ _ _ _ Hp Hop) as (-> & -> & _); [congruence| |done].
      intros He. destruct (no_log _ _ _ _ _ Ho) as (? & ? & Hr & _).
      rewrite He, <-Hc in Hr. simpl in Hnone. congruence.
    + simpl. by rewrite lookup_insert_ne.
  - simpl. apply map_Forall_insert_2; [|done]. split.
    + simpl. rewrite Hc. by apply (promise_stable _ ev).
    + left. exact (Hsfx op Hlead).
Qed.

(** ** The adoption of the maximum promise *)
Section adopt.
Context `{!MapOrder C} (Hst : op_state op = mkState LEADER PREPARE).
Context (Hq : (quorum n ≤ size (op_promises op))%nat).
Abbreviation max := (maxPromise (order (op_promises op))).
Abbreviation b := (op_currentRnd op).
Abbreviation lg := (adopted_log op max).

Lemma collecting : rounds g !! b = None ∧
  (∃ p, op_promises op !! i = Some p ∧ p_accRnd p = Accepted op ∧ p_logIdx p = len (log op)) ∧
  map_Forall (stored_ok n g ns op) (op_promises op).
Proof using Hns Hop Hst. by apply (no_collect _ _ _ _ _ op_ok). Qed.

Lemma collecting_round : b = Promised op ∧ bPid b = i.
Proof using All.
  destruct (wf_leader _ op_wf) as (? & Hb & _); [by rewrite Hst|].
  split; [done|]. by rewrite Hb, op_me_i.
Qed.

Lemma stored_lt k p : op_promises op !! k = Some p →
  promise_ok n g ns k b (p_accRnd p) (p_logIdx p) (p_decIdx p) ∧ ballot_lt (p_accRnd p) b.
Proof using Hns Hop Hst.
  destruct collecting as (Hnone & _ & Hall). intros Hk. destruct (Hall _ _ Hk) as [Hp _].
  split; [done|]. destruct Hp as (_ & Hab & _ & l0 & l & _ & Hr & _).
  apply ballot_le_lt_eq in Hab as [?|He]; [done|]. congruence.
Qed.

Lemma max_stored : (∃ k, op_promises op !! k = Some max) ∧
  ∀ k p, op_promises op !! k = Some p → promise_le p max.
Proof using Hns Hop Hst Hro.
  destruct (maxPromise_ge (order (op_promises op))) as [_ Hge].
  assert (∀ k p, op_promises op !! k = Some p → promise_le p max) as Hle.
  { intros k p Hk. apply Hge, order_elem. by exists k. }
  split; [|done].
  destruct (maxPromise_elem (order (op_promises op))) as [He|[k Hk]%order_elem]; [|by exists k].
  destruct collecting as (_ & (p & Hp & Ha & _) & _).
  pose proof (Hle _ _ Hp) as Hle'. rewrite He in Hle'.
  destruct (no_log _ _ _ _ _ op_ok) as (l0 & l & Hr & _).
  pose proof (ro_low _ _ _ Hro _ _ Hr) as Hlow. unfold promise_le in Hle'. simpl in Hle'.
  rewrite Ha in Hle'. exfalso.
  assert (ballot_le (Accepted op) (mkBallot (-1) (-1))) as Hup.
  { destruct Hle' as [?|[? _]]; [by apply ballot_lt_le|by apply ballot_eq_le]. }
  assert (ballot_le (mkBallot 0 0) (mkBallot (-1) (-1))) as Habs by (by etrans).
  vm_compute in Habs. by apply Habs.
Qed.

Lemma max_ge_own :
  ballot_lt (Accepted op) (p_accRnd max) ∨
  Accepted op = p_accRnd max ∧ len (log op) ≤ p_logIdx max.
Proof using Hns Hop Hst Hro.
  destruct collecting as (_ & (p & Hp & Ha & Hl) & _).
  destruct max_stored as [_ Hle]. rewrite <-Ha, <-Hl. by eapply Hle.
Qed.

(** The adopted log starts with the log of the maximum promise. *)
Lemma adopt_covers : ∃ la0 la, rounds g !! p_accRnd max = Some (la0, la) ∧
  len la0 ≤ p_logIdx max ≤ len la ∧ take (Z.to_nat (p_logIdx max)) la `prefix_of` lg.
Proof using All.
  destruct max_stored as [[k Hk] _]. destruct collecting as (_ & _ & Hall).
  destruct (stored_lt _ _ Hk) as [Hp Hlt]. destruct (Hall _ _ Hk) as [_ Hsfx].
  pose proof Hp as (_ & _ & Hli & la0 & la & _ & Hla & _).
  destruct (promise_len _ _ _ _ _ _ _ _ Hro Hp Hlt Hla) as [Hl1 Hl2].
  exists la0, la. split; [done|]. split; [lia|]. unfold adopted_log.
  destruct (no_log _ _ _ _ _ op_ok) as (l0 & l & Hr & Hpre).
  destruct max_ge_own as [Ha|[Ha Hown]].
  - destruct Hsfx as [Hs|[He _]]; [|rewrite He in Ha; by apply ballot_lt_irrefl in Ha].
    destruct (Hs _ _ Hla) as [Hs1 _]. rewrite (Hs1 Ha).
    rewrite decide_True by (intros He; rewrite He in Ha; by apply ballot_lt_irrefl in Ha).
    assert (take (Z.to_nat (Decided op)) (log op) =
            take (Z.to_nat (Decided op)) (take (Z.to_nat (p_logIdx max)) la)) as ->.
    { destruct (dec_ok_later (p_accRnd max) la0 (Decided op) (Accepted op)) as [Hd|(Hd & m & m0 & lm & Hm & Hrm & Hc & Ht)];
        [intros; by eapply chosen_safe|done|apply op_ok| |].
      { replace (Z.to_nat (Decided op)) with 0%nat by lia. done. }
      rewrite take_take, Nat.min_l by lia.
      destruct (no_decided _ _ _ _ _ op_ok) as [Hd'|(Hd' & m' & m0' & lm' & Hm' & Hrm' & Hc' & Ht')].
      { replace (Z.to_nat (Decided op)) with 0%nat by lia. done. }
      rewrite Ht'. symmetry. eapply (chosen_take Hro); [exact Hrm'|done|exact Hla| |done|].
      - apply ballot_lt_le. by eapply ballot_le_lt_trans.
      - pose proof (prefix_length _ _ (ro_init _ _ _ Hro _ _ _ Hla)). lia. }
    rewrite (assoc_L (++)), take_drop. by eexists.
  - rewrite decide_False by (rewrite Ha; auto). rewrite Ha, Hla in Hr. injection Hr as <- <-.
    destruct Hsfx as [Hs|[_ He]].
    + destruct (Hs _ _ Hla) as [_ Hs2]. rewrite (Hs2 (eq_sym Ha)).
      exists (op_buffer op). rewrite !(assoc_L (++)). f_equal.
      set (T := take (Z.to_nat (p_logIdx max)) la).
      transitivity (take (length (log op)) T ++ drop (length (log op)) T);
        [|apply take_drop]. f_equal.
      unfold T. rewrite take_take, Nat.min_l by lia. by apply prefix_eq_take.
    + rewrite He, Nat2Z.id, <-(prefix_eq_take _ _ Hpre). by eexists.
Qed.

(** Whatever is choosable in an earlier round is in the adopted log. *)
Lemma adopt_safe m l0 l k : rounds g !! m = Some (l0, l) → ballot_lt m b →
  choosable n g ns m k → take k l `prefix_of` lg.
Proof using All.
  intros Hm Hlt (Q & HQ & Hall). destruct adopt_covers as (la0 & la & Hla & Hlen & Hcov).
  destruct (quorum_meet n Q (dom (op_promises op)) Hodd HQ) as (j & Hj & [p Hp]%elem_of_dom).
  { split; [|by rewrite size_dom]. intros j [p Hp]%elem_of_dom.
    destruct (wf_promises _ op_wf _ _ Hp) as (<- & Hin & _). rewrite op_npeers_n in Hin.
    unfold peer_set. rewrite elem_of_list_to_set, elem_of_seqZ. lia. }
  destruct (stored_lt _ _ Hp) as [Hpok Hpb].
  destruct max_stored as [_ Hle]. specialize (Hle _ _ Hp).
  pose proof Hpok as ((opj & Hopj & Hprom) & _ & _ & pl0 & pl & v & Hpr & Hpv & Hpn).
  destruct (Hpn Hpb) as (Hvl & _ & Hnone).
  destruct (Hall j Hj) as [(v' & Hv' & Hk)|(opj' & Hopj' & Hle')]; last first.
  { rewrite Hopj in Hopj'. injection Hopj' as <-. exfalso.
    eapply (irreflexivity ballot_lt), ballot_lt_le_trans; [exact Hlt|]. by etrans. }
  assert (ballot_le m (p_accRnd p)) as Hma.
  { apply ballot_not_lt. intros Hlt'. rewrite (Hnone _ Hlt' Hlt) in Hv'. done. }
  assert (ballot_le (p_accRnd p) (p_accRnd max)) as Hpm.
  { destruct Hle as [?|[? _]]; [by apply ballot_lt_le|by apply ballot_eq_le]. }
  etrans; [|exact Hcov].
  destruct (decide (ballot_lt m (p_accRnd max))) as [Hmm|Hmm].
  - assert (take k l `prefix_of` la0) as Hpl.
    { eapply (ro_safe _ _ _ Hro); [exact Hm|exact Hla|done|]. by exists Q. }
    pose proof (ro_init _ _ _ Hro _ _ _ Hla) as Hinit.
    apply (prefix_comparable la); [by etrans|apply prefix_take|].
    apply prefix_length in Hpl. rewrite !length_take in *. lia.
  - apply ballot_not_lt in Hmm.
    assert (m = p_accRnd max) as -> by (apply (anti_symm ballot_le); [by etrans|done]).
    assert (p_accRnd p = p_accRnd max) as He by (by apply (anti_symm ballot_le)).
    rewrite Hla in Hm. injection Hm as <- <-. rewrite He, Hv' in Hpv. injection Hpv as <-.
    apply prefix_take_le.
    destruct Hle as [Hl|[_ Hl]]; [rewrite He in Hl; by apply ballot_lt_irrefl in Hl|lia].
Qed.

Definition ghost_adopt : ghost :=
  mkGhost (<[b := (lg, lg)]> (rounds g)) (<[(i, b) := length lg]> (votes g)).
Abbreviation g' := ghost_adopt.

Lemma no_votes_yet j : votes g !! (j, b) = None.
Proof using Hro Hns Hop Hst.
  destruct (votes g !! (j, b)) eqn:Hv; [|done].
  destruct (ro_votes _ _ _ Hro _ _ _ Hv) as (_ & (? & ? & Hr & _) & _).
  destruct collecting. congruence.
Qed.

Lemma adopt_evolve acc : evolve g g' ns i op (persist (adopt max acc op)).
Proof using All.
  destruct collecting as (Hnone & _). destruct collecting_round as [Hb Hbi].
  split; simpl; [done|..].
  - intros m l0 l Hm. exists l. rewrite lookup_insert_ne by congruence. done.
  - intros m Hm. rewrite lookup_insert_ne; [done|]. intros <-. destruct Hm as [?|?]; congruence.
  - intros j m v Hv. exists v. rewrite lookup_insert_ne; [done|].
    intros [= <- <-]. by rewrite no_votes_yet in Hv.
  - intros j m Hv. destruct (decide ((j, m) = (i, b))) as [[= -> ->]|Hne]; [by split_and!|].
    by rewrite lookup_insert_ne in Hv by congruence.
  - done.
  - rewrite Hb. apply op_wf.
  - by right.
  - done.
Qed.

Lemma adopt_grows acc : grows n g g' ns i op (persist (adopt max acc op)).
Proof using All.
  destruct collecting as (Hnone & _ & Hall). destruct collecting_round as [Hb Hbi].
  split; simpl.
  - intros m l0 l. rewrite lookup_insert. case_decide; [by intros [= <- <-]|by apply Hro].
  - intros m r Hm. rewrite lookup_insert. case_decide as Hmb; [|congruence].
    subst m. intros [= <-]. split_and!; [|done|done| |].
    + destruct max_stored as [[k Hk] _]. destruct (stored_lt _ _ Hk) as [_ Hlt].
      destruct adopt_covers as (la0 & la & Hla & _).
      etrans; [by eapply (ro_low _ _ _ Hro)|by apply ballot_lt_le].
    + exists (dom (op_promises op)). split; [split; [|by rewrite size_dom]|].
      * intros j [p Hp]%elem_of_dom.
        destruct (wf_promises _ op_wf _ _ Hp) as (<- & Hin & _). rewrite op_npeers_n in Hin.
        unfold peer_set. rewrite elem_of_list_to_set, elem_of_seqZ. lia.
      * intros j [p Hp]%elem_of_dom. by destruct (stored_lt _ _ Hp) as [[? _] _].
    + simpl. apply adopt_safe.
  - intros v. rewrite <-Hb, lookup_insert_eq. intros [= <-] _. exists lg, lg.
    rewrite lookup_insert_eq. by split_and!.
Qed.

Lemma adopt_decided : dec_ok n g b lg (Decided op).
Proof using All.
  eapply dec_ok_later; [|shelve|apply op_ok].
  intros m l0 l k Hm Hlt Hc. eapply adopt_safe; [done|done|by apply chosen_choosable].
  Unshelve. destruct collecting as (_ & (p & Hp & Ha & _) & _).
  destruct (stored_lt _ _ Hp) as [_ Hlt]. by rewrite <-Ha.
Qed.

Lemma adopt_node acc :
  go_set (op_accepted op) (op_me op) (len lg) = Some acc →
  node_ok n g' (<[i := persist (adopt max acc op)]> ns) i (persist (adopt max acc op)).
Proof using All.
  intros Hacc. pose proof (adopt_evolve acc) as ev.
  destruct collecting as (Hnone & _ & Hall). destruct collecting_round as [Hb Hbi].
  split; simpl; try done.
  - exists lg, lg. by rewrite lookup_insert_eq.
  - by rewrite lookup_insert_eq.
  - apply (dec_ok_stable _ ev), adopt_decided.
  - apply (promised_stable ev), op_ok.
  - intros _. split; [exists lg; by rewrite lookup_insert_eq|].
    exists max. split; [done|]. destruct adopt_covers as (la0 & la & Hla & Hlen & Hpre).
    exists lg, lg, la0, la. simpl. rewrite lookup_insert_eq, lookup_insert_ne by congruence.
    split_and!; try done; lia.
  - intros _ j v. apply go_set_inv in Hacc as [Hin ->].
    destruct (decide (j = Z.to_nat (op_me op))) as [->|Hj].
    + rewrite list_lookup_insert_eq by lia. intros [= <-]. right. exists (length lg).
      rewrite Z2Nat.id, op_me_i, lookup_insert_eq by lia. done.
    + rewrite list_lookup_insert_ne by done. intros Hv.
      destruct (no_accepted _ _ _ _ _ op_ok) with (j := j) (v := v) as [?|(k & Hk & _)];
        [by rewrite Hst|done|by left|]. by rewrite no_votes_yet in Hk.
Qed.

Lemma adopt_sync acc p k :
  op_promises op !! k = Some p → msg_ok n g' (<[i := persist (adopt max acc op)]> ns) (p_f p)
    (MAcceptSync (mkAcceptSyncRequest (op_me op) b
      (drop (Z.to_nat (sync_idx max p)) lg) (sync_idx max p))).
Proof using All.
  intros Hk. pose proof (adopt_evolve acc) as ev.
  destruct (stored_lt _ _ Hk) as [Hp Hpb]. destruct max_stored as [_ Hle]. specialize (Hle _ _ Hk).
  destruct adopt_covers as (la0 & la & Hla & Hlen & Hpre).
  assert (p_f p = k) as -> by apply (wf_promises _ op_wf _ _ Hk).
  split; [apply (promised_stable ev), Hp|]. simpl.
  exists lg, lg, (length lg). rewrite lookup_insert_eq, firstn_all. split_and!; [done|lia|lia|done|].
  intros opf Hf HP HA Hl. rewrite lookup_insert in Hf. case_decide; [by injection Hf as <-|].
  eapply sync_prefix; [|exact Hla|exact Hpre|exact Hp|exact Hf|done|done| |exact Hl].
  - intros m l0 l k' Hm Hlt Hc. eapply adopt_safe; [done|done|by apply chosen_choosable].
  - unfold sync_idx. case_decide as He; [left|by right]. split; [done|].
    destruct Hle as [Hlt|[_ ?]]; [|done]. rewrite He in Hlt. by apply ballot_lt_irrefl in Hlt.
Qed.

Lemma adopt_step acc :
  go_set (op_accepted op) (op_me op) (len lg) = Some acc →
  safe_step n g g' ns i op (persist (adopt max acc op))
    (AcceptSync_to (op_me op) lg b max <$> promise_list op).
Proof using All.
  intros Hacc. split; [apply adopt_evolve|apply adopt_grows|by apply adopt_node|].
  unfold AcceptSync_to. apply effects_sends. intros p [k Hk]%promise_list_elem. by eapply adopt_sync.
Qed.
End adopt.

Lemma promisePrepare_step `{MapOrder C} b op' es :
  op_state op = mkState LEADER PREPARE → b = op_currentRnd op →
  promisePrepare b op = Some (op', es) → ∃ g', safe_step n g g' ns i op op' es.
Proof using All.
  intros Hst ->. rewrite promisePrepare_Some.
  intros [(_ & -> & ->)|(Hq & acc & _ & Hacc & _ & -> & ->)]; [exists g; apply refl_step|].
  rewrite op_npeers_n in Hq. eexists. by apply adopt_step.
Qed.

(** A crash: what was persisted is everything the argument needs. *)
Lemma restart_step op' es :
  Make (op_npeers op) (op_me op) (op_persister op) = Some (op', es) → safe_step n g g ns i op op' es.
Proof using All.
  intros Hm. destruct (Hwfs _ _ Hop) as (Hw & _).
  destruct (restart_good _ _ _ Hw Hm) as (_ & Hos & Hst & _ & ->). pose proof op_ok as Ho.
  assert (evolve g g ns i op op') as ev.
  { apply (evolve_same Hop); [by rewrite Hos..|]. rewrite Hst. discriminate. }
  split; [done|by apply grows_same| |].
  - eapply (node_follower Ho); rewrite ?Hos, ?Hst; try done; [apply Ho|].
    apply (promised_stable ev), Ho.
  - by eapply effects_apply; [|apply Ho].
Qed.
End handlers.
End steps.
