(* ===== verification/Safety.v ===== *)
(** * Safety of a replica group

    The agreement invariant holds in every cluster that an ordered schedule
    reaches, and what it means for the commands the peers apply. *)
From S2P Require Import Prelude Ballot Messages Persister OmniPaxos OmniPaxosInv Cluster Agreement AgreementSteps.

Section safety.
Context {C : Type} {codec : StateCodec C}.
Context (n : nat) (Hodd : Nat.Odd n).
Implicit Types op : OmniPaxos C.
Implicit Types c : cluster C.

Lemma commit_commit i op1 op2 e1 e2 c :
  commit i op2 e2 (commit i op1 e1 c) = commit i op2 (e1 ++ e2) c.
Proof.
  unfold commit, emit. simpl. rewrite insert_insert_eq, sent_app, applied_app, !fmap_app.
  by rewrite !(assoc_L (++)).
Qed.

(** Peer [i] may go from [op] to [op'] with effects [es]. *)
Definition sound (i : Z) op op' (es : list (Effect C)) : Prop :=
  ∀ g c, cluster_wf n c → Inv n g c → nodes c !! i = Some op → ∃ g', Inv n g' (commit i op' es c).

Lemma sound_trans i op op1 op2 e1 e2 :
  good op op1 e1 → sound i op op1 e1 → sound i op1 op2 e2 → sound i op op2 (e1 ++ e2).
Proof.
  intros Hg H1 H2 g c Hwf Hi Hop. destruct (H1 g c Hwf Hi Hop) as [g1 Hi1].
  rewrite <-(commit_commit i op1). eapply (H2 g1); [by eapply commit_wf|done|].
  simpl. apply lookup_insert_eq.
Qed.

(** Calls that carry nothing the argument depends on. *)
Definition harmless (e : Effect C) : Prop :=
  match e with
  | Send _ (MHBRequest _) | Send _ (MHBReply _ _ _)
  | Send _ (MPrepareReq _) | Send _ (MReconnected _) => True
  | _ => False
  end.

Lemma harmless_ok g ns i es : Forall harmless es → effects_ok n g ns i es.
Proof. intros H. eapply Forall_impl; [exact H|]. by intros [d []|a]. Qed.

Lemma sound_quiet i op op' es : quiet (op := op) op' → Forall harmless es → sound i op op' es.
Proof.
  intros Hq He g c Hwf Hi Hop. exists g. eapply Inv_commit; [done..|].
  eapply quiet_step; [by eapply inv_rounds|by eapply inv_node|done| |done|by apply harmless_ok].
  intros j opj. apply (inv_node _ _ _ Hi).
Qed.

(** The hypotheses of the handler lemmas, for a cluster. *)
Ltac steps Hwf Hi := first
  [ exact (inv_rounds _ _ _ Hi) | exact (inv_node _ _ _ Hi) | exact (cw_node _ _ Hwf)
  | eassumption ].

Lemma triggerLeader_sound i s b op op' es :
  bPid b = s → triggerLeader s b op = Some (op', es) → sound i op op' es.
Proof.
  intros Hb Ht g c Hwf Hi Hop. exists g. eapply Inv_commit; [done..|].
  by eapply (triggerLeader_step n Hodd (op := op)); steps Hwf Hi.
Qed.

Lemma checkLeader_sound i op op' es :
  wf op → checkLeader op = Some (op', es) → sound i op op' es.
Proof.
  intros [Hwf Hps]. unfold checkLeader. case_decide; [|case_decide].
  - intros [= <- <-]. apply sound_quiet; [by split|constructor].
  - intros Ht. rewrite <-(app_nil_l es).
    eapply sound_trans; [|apply sound_quiet|by eapply triggerLeader_sound].
    + split; [|constructor|done|done]. apply wf_persist. by apply wf0_set_L.
    + by split.
    + constructor.
  - intros [= <- <-]. apply sound_quiet; [apply quiet_refl|constructor].
Qed.

Lemma startTimer_sound i op op' es :
  wf op → startTimer op = Some (op', es) → sound i op op' es.
Proof.
  intros Hwf H. destruct (startTimer_Some _ _ _ Hwf H) as
    (op1 & e1 & e2 & m & ld & rl & rd & He & Hg & -> & -> & He2).
  assert (wf (set_ballots (<[op_b op := op_qc op]> (op_ballots op)) op)) as Hwf'.
  { split; [|apply Hwf]. apply wf0_set_ballots; [|apply Hwf].
    apply map_Forall_insert_2; [|apply Hwf]. rewrite (wf_b _ (proj1 Hwf)). apply Hwf. }
  eapply sound_trans; [exact Hg| |].
  - unfold election in He. case_decide.
    + rewrite <-(app_nil_l e1).
      eapply sound_trans; [|apply sound_quiet|by eapply checkLeader_sound].
      * by split.
      * by split.
      * constructor.
    + injection He as <- <-. apply sound_quiet; [by split|constructor].
  - apply sound_quiet; [by split|]. eapply Forall_impl; [exact He2|].
    by intros e [(p & _ & [-> | ->])|(p & r & _ & ->)].
Qed.

Lemma PromiseHandler_sound `{MapOrder C} g c i op req op' es :
  cluster_wf n c → Inv n g c → nodes c !! i = Some op → wf_msg n (MPromise req) →
  msg_ok n g (nodes c) i (MPromise req) → PromiseHandler req op = Some (op', es) →
  ∃ g', Inv n g' (commit i op' es c).
Proof.
  intros Hwf Hi Hop Hw Hm. unfold PromiseHandler. destruct (cw_node _ _ Hwf _ _ Hop) as (Hwo & Hnp & Hme).
  case_decide as Hn; [intros [= <- <-]; eapply sound_quiet; [apply quiet_refl|constructor|done..]|].
  apply compare_eq in Hn.
  set (op1 := set_promises _ op).
  assert (safe_step n g g (nodes c) i op op1 []) as Hs.
  { eapply store_step; steps Hwf Hi || done. }
  assert (good op op1 []) as Hg.
  { split; [|constructor|done|done]. split; [|apply Hwo]. apply wf0_set_promises; [|apply Hwo].
    apply wf_promises_insert; [apply wf_promise_req; by rewrite Hnp|apply Hwo]. }
  pose proof (Inv_commit _ _ _ _ _ _ _ _ Hodd Hwf Hi Hs) as Hi1.
  assert (cluster_wf n (commit i op1 [] c)) as Hwf1 by (by eapply commit_wf).
  assert (nodes (commit i op1 [] c) !! i = Some op1) as Hop1 by apply lookup_insert_eq.
  intros Hrun. rewrite <-(app_nil_l es), <-(commit_commit i op1).
  revert Hrun. case_decide as Hr.
  { intros [= <- <-]. eapply sound_quiet; [apply quiet_refl|constructor|done..]. }
  assert (role (op_state op1) = LEADER) as Hr' by (by destruct (role (op_state op1))).
  destruct (phase (op_state op1)) eqn:Hph; intros Hrun.
  - assert (op_state op1 = mkState LEADER PREPARE) as Hst by (destruct (op_state op1); simpl in *; congruence).
    edestruct (promisePrepare_step n Hodd (g := g) (ns := nodes (commit i op1 [] c)) (i := i) (op := op1)) as [g' Hs'];
      [exact (inv_rounds _ _ _ Hi1)|exact (inv_node _ _ _ Hi1)|exact (cw_node _ _ Hwf1)|done|done|done|exact Hrun|].
    exists g'. by eapply Inv_commit.
  - assert (op_state op1 = mkState LEADER ACCEPT) as Hst by (destruct (op_state op1); simpl in *; congruence).
    exists g. eapply Inv_commit; [done..|].
    eapply (promiseAccept_step n Hodd); try done;
      [exact (inv_rounds _ _ _ Hi1)|exact (inv_node _ _ _ Hi1)|exact (cw_node _ _ Hwf1)|].
    eapply (msg_stable _ (ss_evolve _ _ _ _ _ _ _ _ Hs)); [apply Hi|apply Hi|done].
  - destruct (wf_leader _ (proj1 (good_wf _ _ _ Hg)) Hr') as (_ & _ & _ & Hph'). congruence.
Qed.

Lemma handle_sound `{MapOrder C} g c src i op m op' es :
  cluster_wf n c → Inv n g c → nodes c !! i = Some op → wf_msg n m → msg_ok n g (nodes c) i m →
  in_order op m → handle src m op = Some (op', es) → ∃ g', Inv n g' (commit i op' es c).
Proof.
  intros Hwf Hi Hop Hw Hm Ho. pose proof (Inv_commit n g) as Hcommit.
  destruct m as [req|r p reply|req|req|req|req|req|req|req|req]; simpl; intros Hrun.
  - injection Hrun as <- <-. eapply sound_quiet; [apply quiet_refl|by repeat constructor|done..].
  - injection Hrun as <- <-. eapply sound_quiet; [|constructor|done..].
    unfold heartBeatReply. case_decide; [by split|apply quiet_refl].
  - exists g. eapply Hcommit; [done..|]. eapply PrepareHandler_step; steps Hwf Hi.
  - by eapply PromiseHandler_sound.
  - edestruct (AcceptSyncHandler_step n Hodd (g := g) (ns := nodes c) (i := i) (op := op)) as [g' Hs]; try by steps Hwf Hi.
    { apply Hw. } exists g'. by eapply Hcommit.
  - exists g. eapply Hcommit; [done..|]. eapply DecideHandler_step; steps Hwf Hi.
  - exists g. eapply Hcommit; [done..|]. eapply AcceptedHandler_step; try by steps Hwf Hi. apply Hw.
  - edestruct (AcceptHandler_step n Hodd (g := g) (ns := nodes c) (i := i) (op := op)) as [g' Hs]; try by steps Hwf Hi.
    exists g'. by eapply Hcommit.
  - exists g. eapply Hcommit; [done..|]. eapply PrepareReqHandler_step; steps Hwf Hi.
  - exists g. eapply Hcommit; [done..|]. eapply ReconnectedHandler_step; steps Hwf Hi.
Qed.

(** ** The initial cluster *)
Definition ghost_init : ghost (C := C) :=
  mkGhost {[ mkBallot 0 0 := ([], []) ]}
    (gset_to_gmap 0%nat (set_map (λ i, (i, mkBallot 0 0)) (peer_set n))).

Lemma votes_init i b v : votes ghost_init !! (i, b) = Some v ↔ idx n i ∧ b = mkBallot 0 0 ∧ v = 0%nat.
Proof.
  simpl. rewrite lookup_gset_to_gmap_Some, elem_of_map. unfold peer_set.
  setoid_rewrite elem_of_list_to_set. setoid_rewrite elem_of_seqZ. unfold idx.
  split; [|intros (? & -> & ->); split; [exists i; split; [done|lia]|done]].
  intros [(j & [= -> ->] & ?) <-]. split_and!; [lia..|done|done].
Qed.

Lemma rounds_init m r : rounds ghost_init !! m = Some r ↔ m = mkBallot 0 0 ∧ r = ([], []).
Proof. simpl. rewrite lookup_singleton_Some. naive_solver. Qed.

Lemma init_Inv : Inv n ghost_init (init_cluster n).
Proof.
  assert (idx n 0) as H0 by (unfold idx; destruct Hodd; lia).
  assert (∀ i op, nodes (init_cluster n) !! i = Some op → idx n i ∧ op_os op = zeroState ∧
    op_state op = mkState FOLLOWER PREPARE) as Hnode.
  { intros i op [Hi Hm]%init_lookup. destruct (Make_fresh n i Hi) as (op2 & Hm2 & ? & _ & _ & ? & _).
    rewrite Hm in Hm2. injection Hm2 as <-. done. }
  assert (∀ i, idx n i → promised (nodes (init_cluster (C := C) n)) i (mkBallot 0 0)) as Hpr.
  { intros i Hi. destruct (Make_fresh (C := C) n i Hi) as (op & Hm & Hos & _).
    exists op. split; [by apply init_lookup|by rewrite Hos]. }
  split.
  - split.
    + intros m l0 l [_ [= -> ->]]%rounds_init. done.
    + intros m r [-> _]%rounds_init. done.
    + exists []. by apply rounds_init.
    + intros m r [-> _]%rounds_init. by apply Hpr.
    + intros m r [-> _]%rounds_init. done.
    + intros m m' l0 l l0' l' k [_ [= -> ->]]%rounds_init _ _ _. rewrite take_nil. apply prefix_nil.
    + intros i m v (Hi & -> & ->)%votes_init. split_and!; [apply Hi..| |].
      * exists [], []. split; [by apply rounds_init|]. simpl. lia.
      * intros op Hop. destruct (Hnode _ _ Hop) as (_ & -> & _). done.
  - intros i op Hop. destruct (Hnode _ _ Hop) as (Hi & Hos & Hst).
    split; rewrite ?Hos, ?Hst; simpl; try discriminate.
    + exists [], []. split; [by apply rounds_init|done].
    + by apply votes_init.
    + by left.
    + by apply Hpr.
  - intros p Hp. by apply not_elem_of_nil in Hp.
  - intros h Hh. by apply not_elem_of_nil in Hh.
Qed.

(** ** Every ordered schedule *)
Lemma ordered_step_Inv g c ev c' :
  cluster_wf n c → Inv n g c → ordered c ev → step ev c = Some c' → ∃ g', Inv n g' c'.
Proof.
  intros Hwf Hi Ho Hs. destruct ev as [ord k|k|i|i cmd|i]; simpl in Hs.
  - apply bind_Some in Hs as (p & Hp & (op & Hop & ([op' es] & Hh & [= <-])%bind_Some)%bind_Some).
    destruct (cw_net _ _ Hwf p) as (Hsrc & Hdst & Hm); [by eapply list_elem_of_lookup_2|].
    eapply (handle_sound g (lose k c)); [by apply lose_wf|by apply Inv_lose|exact Hop|exact Hm| | |exact Hh].
    + apply (inv_net _ _ _ Hi). by eapply list_elem_of_lookup_2.
    + by eapply Ho.
  - apply bind_Some in Hs as (p & Hp & [= <-]). exists g. by apply Inv_lose.
  - apply bind_Some in Hs as (op & Hop & ([op' es] & Hh & [= <-])%bind_Some).
    eapply startTimer_sound; [by eapply cw_node|exact Hh|done..].
  - apply bind_Some in Hs as (op & Hop & ([[res op'] es] & Hh & [= <-])%bind_Some).
    edestruct (Proposal_step n Hodd (g := g) (ns := nodes c) (i := i) (op := op)) as [g' Hs']; try by steps Hwf Hi.
    exists g'. by eapply Inv_commit.
  - apply bind_Some in Hs as (op & Hop & ([op' es] & Hh & [= <-])%bind_Some).
    exists g. eapply Inv_commit; [done..|]. eapply (restart_step n Hodd); steps Hwf Hi.
Qed.

Lemma ordered_Inv c : ordered_reachable n c → ∃ g, Inv n g c.
Proof.
  induction 1 as [|c ev c' Hr [g Hi] Ho Hs]; [exists ghost_init; apply init_Inv|].
  eapply ordered_step_Inv; [|done..]. by apply reachable_wf, ordered_reachable_reachable.
Qed.

(** ** What the invariant says of the peers *)

(** Entries of chosen prefixes are the same wherever they were chosen. *)
Lemma chosen_entry (g : ghost (C := C)) ns m l0 l k m' l0' l' k' j x y :
  rounds_ok n g ns → rounds g !! m = Some (l0, l) → chosen n g m k →
  rounds g !! m' = Some (l0', l') → chosen n g m' k' → ballot_le m m' →
  (j < k)%nat → (j < k')%nat → l !! j = Some x → l' !! j = Some y → x = y.
Proof.
  intros Hro Hm Hc Hm' Hc' Hle Hj Hj' Hx Hy.
  pose proof (chosen_len n Hodd Hro _ _ _ _ Hm' Hc') as Hlen.
  assert (take (k `min` k') l' = take (k `min` k') l) as Ht.
  { eapply (chosen_take n Hodd Hro); [exact Hm| |exact Hm'|done|done|lia].
    destruct Hc as (Q & HQ & Hall). exists Q. split; [done|]. intros i Hi.
    destruct (Hall i Hi) as (v & Hv & ?). exists v. split; [done|lia]. }
  rewrite <-(lookup_take_lt l (k `min` k')) in Hx by lia.
  rewrite <-(lookup_take_lt l' (k `min` k')) in Hy by lia. congruence.
Qed.

Lemma hist_entry g c i j a b :
  Inv n g c → (i, a) ∈ hist c → (j, b) ∈ hist c → CommandIndex a = CommandIndex b →
  Command a = Command b.
Proof.
  intros Hi (H0 & m & l0 & l & k & Hm & Hc & Hk & Hl)%(inv_hist _ _ _ Hi)
    (H0' & m' & l0' & l' & k' & Hm' & Hc' & Hk' & Hl')%(inv_hist _ _ _ Hi) He. simpl in *.
  rewrite He in *.
  destruct (decide (ballot_le m m')) as [Hle|Hle%ballot_not_le].
  - apply (chosen_entry g (nodes c) m l0 l k m' l0' l' k' (Z.to_nat (CommandIndex b)));
      [apply Hi|done..].
  - symmetry. apply (chosen_entry g (nodes c) m' l0' l' k' m l0 l k (Z.to_nat (CommandIndex b)));
      try done; [apply Hi|by apply ballot_lt_le].
Qed.

(** A decided prefix is in the log of every peer that has accepted in the
    same or in a later round, up to the length of that log. *)
Lemma decided_in_log g c i j opi opj :
  Inv n g c → nodes c !! i = Some opi → nodes c !! j = Some opj →
  ballot_le (AcceptedRnd (op_os opi)) (AcceptedRnd (op_os opj)) →
  ∀ k : nat, Z.of_nat k ≤ DecidedIdx (op_os opi) → (k ≤ length (Log (op_os opj)))%nat →
    take k (Log (op_os opj)) = take k (Log (op_os opi)).
Proof.
  intros Hi Hopi Hopj Hle k Hk Hlen. pose proof (inv_rounds _ _ _ Hi) as Hro.
  destruct (no_decided _ _ _ _ _ (inv_node _ _ _ Hi _ _ Hopi)) as [Hd|(Hd & m & l0 & lm & Hm & Hr & Hc & Ht)].
  { by replace k with 0%nat by lia. }
  destruct (no_log _ _ _ _ _ (inv_node _ _ _ Hi _ _ Hopj)) as (l0' & l' & Hr' & Hpre).
  assert (chosen n g m k) as Hck.
  { destruct Hc as (Q & HQ & Hall). exists Q. split; [done|]. intros x Hx.
    destruct (Hall x Hx) as (v & Hv & ?). exists v. split; [done|lia]. }
  transitivity (take k lm).
  - eapply (chosen_take n Hodd Hro); [exact Hr|exact Hck|exact Hr'| |done|done]. by etrans.
  - apply (f_equal (take k)) in Ht. rewrite !take_take, Nat.min_l in Ht by lia. done.
Qed.

(** A decided prefix is whole in the log of a leader of the same or of a later
    round. *)
Lemma decided_in_leader g c i j opi opj :
  Inv n g c → cluster_wf n c → nodes c !! i = Some opi → nodes c !! j = Some opj →
  op_state opj = mkState LEADER ACCEPT →
  ballot_le (AcceptedRnd (op_os opi)) (op_currentRnd opj) →
  take (Z.to_nat (DecidedIdx (op_os opi))) (Log (op_os opi)) `prefix_of` Log (op_os opj).
Proof.
  intros Hi Hwf Hopi Hopj Hst Hle. pose proof (inv_rounds _ _ _ Hi) as Hro.
  destruct (no_lead _ _ _ _ _ (inv_node _ _ _ Hi _ _ Hopj) Hst) as ((l0 & Hr) & _).
  destruct (no_decided _ _ _ _ _ (inv_node _ _ _ Hi _ _ Hopi)) as [Hd|(Hd & m & m0 & lm & Hm & Hrm & Hc & ->)].
  { replace (Z.to_nat _) with 0%nat by lia. apply prefix_nil. }
  assert (ballot_le m (op_currentRnd opj)) as [Hlt| ->]%ballot_le_lt_eq by (by etrans).
  - etrans; [|by eapply (ro_init _ _ _ Hro)].
    eapply (ro_safe _ _ _ Hro); [exact Hrm|exact Hr|done|by apply chosen_choosable].
  - rewrite Hrm in Hr. injection Hr as <- <-. apply prefix_take.
Qed.

Lemma decided_bound g c i op :
  Inv n g c → cluster_wf n c → nodes c !! i = Some op → 0 ≤ DecidedIdx (op_os op) ≤ len (Log (op_os op)).
Proof.
  intros Hi Hwf Hop. destruct (cw_node _ _ Hwf _ _ Hop) as ([Hw _] & _).
  pose proof (wf_decided _ Hw). split; [done|].
  destruct (no_decided _ _ _ _ _ (inv_node _ _ _ Hi _ _ Hop)) as [?|[? _]]; lia.
Qed.

(** The decided prefix of a peer. *)
Definition decided_prefix op : list C := take (Z.to_nat (DecidedIdx (op_os op))) (Log (op_os op)).

Lemma decided_comparable_le g c i j opi opj :
  Inv n g c → cluster_wf n c → nodes c !! i = Some opi → nodes c !! j = Some opj →
  ballot_le (AcceptedRnd (op_os opi)) (AcceptedRnd (op_os opj)) →
  decided_prefix opi `prefix_of` decided_prefix opj ∨ decided_prefix opj `prefix_of` decided_prefix opi.
Proof.
  intros Hi Hwf Hopi Hopj Hle. unfold decided_prefix.
  pose proof (decided_bound _ _ _ _ Hi Hwf Hopi). pose proof (decided_bound _ _ _ _ Hi Hwf Hopj).
  pose proof (decided_in_log _ _ _ _ _ _ Hi Hopi Hopj Hle) as Hk.
  set (di := Z.to_nat _). set (dj := Z.to_nat _).
  specialize (Hk (di `min` dj)%nat ltac:(lia) ltac:(lia)).
  destruct (Nat.le_ge_cases di dj).
  - left. rewrite Nat.min_l in Hk by done. rewrite <-Hk. by apply prefix_take_le.
  - right. rewrite Nat.min_r in Hk by done. rewrite Hk. by apply prefix_take_le.
Qed.

Lemma ordered_decided_comparable c i j opi opj :
  ordered_reachable n c → nodes c !! i = Some opi → nodes c !! j = Some opj →
  decided_prefix opi `prefix_of` decided_prefix opj ∨ decided_prefix opj `prefix_of` decided_prefix opi.
Proof.
  intros Hr Hi Hj. destruct (ordered_Inv c Hr) as [g Hg].
  pose proof (reachable_wf n c (ordered_reachable_reachable n c Hr)) as Hwf.
  destruct (decide (ballot_le (AcceptedRnd (op_os opi)) (AcceptedRnd (op_os opj)))) as [Hle|Hle%ballot_not_le].
  - by eapply decided_comparable_le.
  - apply or_comm. eapply decided_comparable_le; try done. by apply ballot_lt_le.
Qed.

(** Nothing an ordered schedule does makes a peer panic. *)
Lemma in_flight_no_overrun g c p op :
  Inv n g c → cluster_wf n c → p ∈ net c → nodes c !! pk_dst p = Some op → no_overrun op (pk_msg p).
Proof.
  intros Hi Hwf Hp Hop. pose proof (inv_net _ _ _ Hi _ Hp) as Hm.
  destruct (pk_msg p) as [| | | | | |req| | |]; simpl in *; try done.
  intros Hst Hpr. destruct Hm as (v & Hv & Hle).
  destruct (ro_votes _ _ _ (inv_rounds _ _ _ Hi) _ _ _ Hv) as (_ & (l0 & l & Hr & Hlen) & _).
  destruct (no_lead _ _ _ _ _ (inv_node _ _ _ Hi _ _ Hop) Hst) as ((l0' & Hr') & _).
  destruct (cw_node _ _ Hwf _ _ Hop) as ([Hw _] & _).
  destruct (wf_leader _ Hw) as (Hcr & _); [by rewrite Hst|].
  rewrite Hcr, Hpr, Hr in Hr'. injection Hr' as <- <-. lia.
Qed.

(** The event can happen: the packet is there, the peer exists. *)
Definition possible c (ev : event C) : Prop :=
  match ev with
  | Deliver _ k | Drop k => (k < length (net c))%nat
  | Timer i | Propose i _ | Restart i => idx n i
  end.

Lemma step_total g c ev : Inv n g c → cluster_wf n c → possible c ev → is_Some (step ev c).
Proof.
  intros Hi Hwf Hp. destruct ev as [ord k|k|i|i cmd|i]; simpl in Hp |- *.
  - apply lookup_lt_is_Some in Hp as [p Hp]. rewrite Hp. simpl.
    assert (p ∈ net c) as Hin by (by eapply list_elem_of_lookup_2).
    destruct (cw_net _ _ Hwf _ Hin) as (_ & Hdst & Hm).
    destruct (proj2 (cw_dom _ _ Hwf _) Hdst) as [op Hop]. rewrite Hop. simpl.
    destruct (cw_node _ _ Hwf _ _ Hop) as (Hw & Hnp & _).
    destruct (handle_total (pk_src p) (pk_msg p) op Hw) as [[op' es] ->];
      [by rewrite Hnp|by eapply in_flight_no_overrun|by eexists].
  - apply lookup_lt_is_Some in Hp as [p ->]. by eexists.
  - destruct (proj2 (cw_dom _ _ Hwf _) Hp) as [op Hop]. rewrite Hop. simpl.
    destruct (startTimer_total op) as [[op' es] ->]; [|by eexists]. by eapply cw_node.
  - destruct (proj2 (cw_dom _ _ Hwf _) Hp) as [op Hop]. rewrite Hop. simpl.
    destruct (Proposal_total cmd op) as [[[res op'] es] ->]; [|by eexists]. by eapply cw_node.
  - destruct (proj2 (cw_dom _ _ Hwf _) Hp) as [op Hop]. rewrite Hop. simpl.
    destruct (cw_node _ _ Hwf _ _ Hop) as (Hw & Hnp & Hme).
    pose proof (decided_bound _ _ _ _ Hi Hwf Hop).
    destruct (Make_wf (op_npeers op) (op_me op) (op_persister op) (op_os op)) as (op' & -> & _);
      [apply Hw|apply (wf_me _ (proj1 Hw))|done|apply (wf_round _ (proj1 Hw))|by eexists].
Qed.
End safety.

(** ** Concrete schedules of three peers *)
Definition deliver {C} : event C := Deliver list_order 0.

(** The timers elect peer 1, whose [AcceptSync] reaches everyone. *)
Definition elect {C} : list (event C) :=
  [Timer 0; Timer 2] ++ replicate 4 (Drop 0) ++ [Timer 1] ++ replicate 4 deliver ++
  [Timer 1] ++ replicate 7 deliver ++ [Timer 1] ++ replicate 13 deliver.

(** Two commands are proposed and decided. *)
Definition demo : list (event Z) := elect ++ [Propose 1 7; Propose 1 8] ++ replicate 10 deliver.
Definition demo_cluster : cluster Z := default (init_cluster 3) (ordered_run demo (init_cluster 3)).

Lemma demo_run : ordered_run demo (init_cluster 3) = Some demo_cluster.
Proof. vm_compute. reflexivity. Qed.

Lemma demo_ordered : ordered_reachable 3 demo_cluster.
Proof. eapply ordered_run_reachable; [constructor | exact demo_run]. Qed.

(** ** The theorems *)

(** C1 Agreement: for an odd number of peers, whatever the network, the timers, the
    clients and the crashes do, as long as the schedule is ordered, two
    [ApplyMsg]s with the same index carry the same command, on whichever peers
    and in whichever incarnations they were sent.  Ordered: each [Accept] that a
    follower acts on has exactly the index after its last entry (it is neither
    early nor late), and each [AcceptSync] that it acts on starts inside its log
    and, within a round, does not leave it shorter. *)
Theorem agreement {C} {codec : StateCodec C} (n : nat) (c : cluster C) i j a b :
  Nat.Odd n → ordered_reachable n c → (i, a) ∈ hist c → (j, b) ∈ hist c →
  CommandIndex a = CommandIndex b → Command a = Command b.
Proof. intros Hodd [g Hg]%(ordered_Inv n Hodd) Ha Hb He. by eapply (hist_entry n Hodd g c i j). Qed.

Lemma agreement_witness : Command (mkApplyMsg true 7 0) = Command (mkApplyMsg true 7 0).
Proof.
  refine (agreement 3 demo_cluster 1 2 _ _ _ demo_ordered _ _ eq_refl).
  - by exists 1%nat.
  - apply list_elem_of_lookup. exists 0%nat. vm_compute. reflexivity.
  - apply list_elem_of_lookup. exists 2%nat. vm_compute. reflexivity.
Defined.

(** C5 The decided prefixes of any two of an odd number of peers are comparable:
    after any ordered schedule (see [in_order]) one is a prefix of the other,
    whatever rounds the peers are in. *)
Theorem decided_prefixes_comparable {C} {codec : StateCodec C} (n : nat) (c : cluster C) i j opi opj :
  Nat.Odd n → ordered_reachable n c → nodes c !! i = Some opi → nodes c !! j = Some opj →
  decided_prefix opi `prefix_of` decided_prefix opj ∨ decided_prefix opj `prefix_of` decided_prefix opi.
Proof. intros Hodd. by apply (ordered_decided_comparable n Hodd). Qed.

Lemma decided_prefixes_comparable_witness : ∃ op1 op2,
  nodes demo_cluster !! 1 = Some op1 ∧ nodes demo_cluster !! 2 = Some op2 ∧
  decided_prefix op1 = [7; 8] ∧ decided_prefix op2 = [7] ∧
  (decided_prefix op1 `prefix_of` decided_prefix op2 ∨ decided_prefix op2 `prefix_of` decided_prefix op1).
Proof.
  destruct (nodes demo_cluster !! 1) as [op1|] eqn:H1; [|vm_compute in H1; discriminate].
  destruct (nodes demo_cluster !! 2) as [op2|] eqn:H2; [|vm_compute in H2; discriminate].
  exists op1, op2. split; [reflexivity|]. split; [reflexivity|].
  split; [vm_compute in H1; injection H1 as <-; reflexivity|].
  split; [vm_compute in H2; injection H2 as <-; reflexivity|].
  apply (decided_prefixes_comparable 3 demo_cluster 1 2); [by exists 1%nat|apply demo_ordered|done|done].
Defined.

(** C4 Leader completeness: after any ordered schedule (see [in_order]) of an odd
    number of peers, a leader that has adopted its log has every entry any peer
    has decided in the same or in an earlier round. *)
Theorem leader_completeness {C} {codec : StateCodec C} (n : nat) (c : cluster C) i j opi opj :
  Nat.Odd n → ordered_reachable n c → nodes c !! i = Some opi → nodes c !! j = Some opj →
  op_state opj = mkState LEADER ACCEPT →
  ballot_le (AcceptedRnd (op_os opi)) (op_currentRnd opj) →
  decided_prefix opi `prefix_of` Log (op_os opj).
Proof.
  intros Hodd Hr Hi Hj Hst Hle. destruct (ordered_Inv n Hodd c Hr) as [g Hg].
  pose proof (reachable_wf n c (ordered_reachable_reachable n c Hr)) as Hwf.
  by eapply decided_in_leader.
Qed.

Lemma leader_completeness_witness : ∃ op1 op2,
  nodes demo_cluster !! 1 = Some op1 ∧ nodes demo_cluster !! 2 = Some op2 ∧
  decided_prefix op2 `prefix_of` Log (op_os op1).
Proof.
  destruct (nodes demo_cluster !! 1) as [op1|] eqn:H1; [|vm_compute in H1; discriminate].
  destruct (nodes demo_cluster !! 2) as [op2|] eqn:H2; [|vm_compute in H2; discriminate].
  exists op1, op2. split; [reflexivity|]. split; [reflexivity|].
  apply (leader_completeness 3 demo_cluster 2 1); [by exists 1%nat|apply demo_ordered|done|done| |].
  - vm_compute in H1. injection H1 as <-. reflexivity.
  - vm_compute in H1, H2. injection H1 as <-. injection H2 as <-. by vm_compute.
Defined.

(** C12 For an odd number of peers no event makes a peer panic after an ordered
    schedule (see [in_order]): every delivery of a packet in flight (in order or
    not), timer, proposal and restart runs to its end. *)
Theorem ordered_no_panic {C} {codec : StateCodec C} (n : nat) (c : cluster C) ev :
  Nat.Odd n → ordered_reachable n c → possible n c ev → is_Some (step ev c).
Proof.
  intros Hodd Hr Hp. destruct (ordered_Inv n Hodd c Hr) as [g Hg].
  eapply step_total; [exact Hg| |done]. by apply reachable_wf, ordered_reachable_reachable.
Qed.

Lemma ordered_no_panic_witness : is_Some (step deliver demo_cluster).
Proof.
  apply (ordered_no_panic 3 demo_cluster deliver); [by exists 1%nat|apply demo_ordered|].
  vm_compute. lia.
Defined.

(** C30 The order of delivery is needed: when the network drops one of two
    [Accept]s, the follower appends the second command at the index of the
    first, reports that length, and applies it after the leader's [Decide], so
    two peers apply different commands at index 0. *)
Theorem lost_accept_breaks_agreement : ∃ (evs : list (event Z)) c a b,
  run evs (init_cluster 3) = Some c ∧ (1, a) ∈ hist c ∧ (2, b) ∈ hist c ∧
  CommandIndex a = 0 ∧ CommandIndex b = 0 ∧ Command a = 7 ∧ Command b = 8.
Proof.
  exists (elect ++ [Propose 1 7; Propose 1 8; Drop 0] ++ replicate 12 deliver).
  eexists _, (mkApplyMsg true 7 0), (mkApplyMsg true 8 0).
  split; [vm_compute; reflexivity|].
  split; [apply list_elem_of_lookup; exists 0%nat; reflexivity|].
  split; [|done]. apply list_elem_of_lookup. exists 2%nat. vm_compute. reflexivity.
Qed.
