(* ===== verification/ClusterThms.v ===== *)
(** * What every schedule preserves

    Theorems on the peers of a cluster that need no assumption on the order of
    the deliveries: their shape, the rounds they lead, what a restart restores,
    and how their promises, decisions and [ApplyMsg]s progress. *)
From S2P Require Import Prelude Ballot Messages Persister OmniPaxos OmniPaxosInv Cluster Agreement Safety.

Section progress.
Context {C : Type} {codec : StateCodec C}.
Implicit Types c : cluster C.

(** The [ApplyMsg]s of peer [i], in the order they were sent. *)
Definition applied_by (i : Z) (h : list (Z * ApplyMsg C)) : list (ApplyMsg C) := (filter (λ x, x.1 = i) h).*2.

Definition restarts (i : Z) (ev : event C) : bool := match ev with Restart j => bool_decide (j = i) | _ => false end.

(** The part of [c] that peer [i] leaves behind, and what it has added since. *)
Definition advanced (i : Z) c c' : Prop :=
  ∃ op op', nodes c !! i = Some op ∧ nodes c' !! i = Some op' ∧
    ballot_le (PromisedRnd (op_os op)) (PromisedRnd (op_os op')) ∧ ballot_le (L (op_os op)) (L (op_os op')) ∧
    DecidedIdx (op_os op) ≤ DecidedIdx (op_os op') ∧
    CommandIndex <$> applied_by i (hist c') =
      (CommandIndex <$> applied_by i (hist c)) ++
      seqZ (DecidedIdx (op_os op)) (DecidedIdx (op_os op') - DecidedIdx (op_os op)).

Lemma applied_by_app i h1 h2 : applied_by i (h1 ++ h2) = applied_by i h1 ++ applied_by i h2.
Proof. unfold applied_by. by rewrite filter_app, fmap_app. Qed.

Lemma applied_by_own i l : applied_by i (pair i <$> l) = l.
Proof.
  unfold applied_by. rewrite filter_all.
  - rewrite <-list_fmap_compose. by apply list_fmap_id.
  - by intros x (y & -> & _)%list_elem_of_fmap.
Qed.

Lemma applied_by_other i j l : i ≠ j → applied_by i (pair j <$> l) = [].
Proof.
  intros Hne. unfold applied_by. destruct (filter _ _) as [|x k] eqn:Hf; [done|].
  assert (x ∈ filter (λ x, x.1 = i) (pair j <$> l)) as [Hx (y & -> & _)%list_elem_of_fmap]%list_elem_of_filter
    by (rewrite Hf; left). done.
Qed.

Lemma index_apply_msgs (log : list C) from to : from ≤ to → 0 ≤ from → to ≤ from ∨ to ≤ len log →
  CommandIndex <$> applied (apply_msgs log from to) = seqZ from (to - from).
Proof.
  intros Hft H0 Hlen. rewrite applied_apply_msgs. apply list_eq. intros k. rewrite list_lookup_fmap, list_lookup_imap.
  destruct (decide (Z.of_nat k < to - from)) as [Hk|Hk].
  - rewrite lookup_take_lt, lookup_drop by lia.
    destruct (lookup_lt_is_Some_2 log (Z.to_nat from + k)) as [x ->]; [lia|]. simpl. rewrite lookup_seqZ_lt by lia. done.
  - rewrite lookup_take_ge by lia. simpl. by rewrite lookup_seqZ_ge by lia.
Qed.

Lemma advanced_refl i c : is_Some (nodes c !! i) → advanced i c c.
Proof.
  intros [op Hop]. exists op, op. split_and!; try done. rewrite Z.sub_diag. by rewrite app_nil_r.
Qed.

Lemma advanced_trans i c1 c2 c3 : advanced i c1 c2 → advanced i c2 c3 → advanced i c1 c3.
Proof.
  intros (o1 & o2 & H1 & H2 & Hp & Hl & Hd & Ha) (o2' & o3 & H2' & H3 & Hp' & Hl' & Hd' & Ha').
  rewrite H2 in H2'. injection H2' as <-. exists o1, o3. split_and!; try done; [by etrans..|lia|].
  rewrite Ha', Ha, <-(assoc_L (++)). f_equal.
  replace (DecidedIdx (op_os o3) - DecidedIdx (op_os o1)) with
    ((DecidedIdx (op_os o2) - DecidedIdx (op_os o1)) + (DecidedIdx (op_os o3) - DecidedIdx (op_os o2))) by lia.
  rewrite seqZ_app by lia. do 2 f_equal. lia.
Qed.

(** A step of peer [j] seen from peer [i]. *)
Lemma advanced_commit i j op op' es c h : wf op → nodes c !! j = Some op → is_Some (nodes c !! i) → progress op op' es →
  hist h = hist c → nodes h = nodes c → advanced i c (commit j op' es h).
Proof.
  intros Hwf Hj [opi Hi] [Hp Hl Hd Ha Hlog] Hh Hn. destruct (decide (i = j)) as [->|Hne].
  - exists op, op'. simpl. rewrite Hn, lookup_insert_eq. split_and!; try done.
    rewrite Hh, applied_by_app, applied_by_own, fmap_app, Ha. f_equal.
    apply index_apply_msgs; [done|apply Hwf|]. destruct (decide (DecidedIdx (op_os op') ≤ DecidedIdx (op_os op))); [by left|].
    right. apply Hlog. lia.
  - exists opi, opi. simpl. rewrite Hn, lookup_insert_ne by done. split_and!; try done.
    rewrite Hh, applied_by_app, applied_by_other, app_nil_r, Z.sub_diag by done. symmetry. apply app_nil_r.
Qed.

Lemma step_advanced n i c ev c' : cluster_wf n c → is_Some (nodes c !! i) → restarts i ev = false →
  step ev c = Some c' → advanced i c c'.
Proof.
  intros Hc Hi Hr Hs. pose proof (cw_node _ _ Hc) as Hwf. destruct ev as [ord k|k|j|j cmd|j]; simpl in Hs.
  - apply bind_Some in Hs as (p & Hp & (op & Hop & ([op' es] & Hh & [= <-])%bind_Some)%bind_Some).
    eapply advanced_commit; [by eapply Hwf|done..| |done|done].
    eapply (handle_progress (H := ord)); [by eapply Hwf|exact Hh].
  - apply bind_Some in Hs as (p & Hp & [= <-]). destruct (advanced_refl i c Hi) as (op & op' & H). by exists op, op'.
  - apply bind_Some in Hs as (op & Hop & ([op' es] & Hh & [= <-])%bind_Some).
    eapply advanced_commit; [by eapply Hwf|done..| |done|done]. eapply startTimer_progress; [by eapply Hwf|done].
  - apply bind_Some in Hs as (op & Hop & ([[res op'] es] & Hh & [= <-])%bind_Some).
    eapply advanced_commit; [by eapply Hwf|done..| |done|done]. by eapply Proposal_progress.
  - apply bind_Some in Hs as (op & Hop & ([op' es] & Hh & [= <-])%bind_Some). simpl in Hr. apply bool_decide_eq_false in Hr.
    destruct Hi as [opi Hi]. exists opi, opi. simpl. rewrite lookup_insert_ne by done. split_and!; try done.
    rewrite applied_by_app, applied_by_other, app_nil_r, Z.sub_diag by done. symmetry. apply app_nil_r.
Qed.
End progress.

(** ** The theorems *)

(** C19 Whatever the schedule, every peer of a cluster is well formed: what its
    persister holds is its state, it never accepted a round above its promise,
    its arrays fit the cluster, a leader leads the round it has promised and
    that carries its own index; and every call in flight is between peers of
    the cluster, with indices that are not negative. *)
Theorem peers_wellformed {C} {codec : StateCodec C} (n : nat) (c : cluster C) : reachable n c → cluster_wf n c.
Proof. induction 1; [apply init_wf|by eapply step_wf]. Qed.

Lemma peers_wellformed_witness : cluster_wf 3 demo_cluster.
Proof. apply peers_wellformed, ordered_reachable_reachable, demo_ordered. Defined.

(** C20 Whatever the schedule, no two peers lead the same round. *)
Theorem one_leader_per_round {C} {codec : StateCodec C} (n : nat) (c : cluster C) i j opi opj :
  reachable n c → nodes c !! i = Some opi → nodes c !! j = Some opj → 
  role (op_state opi) = LEADER → role (op_state opj) = LEADER → op_currentRnd opi = op_currentRnd opj → i = j.
Proof.
  intros Hc%reachable_wf Hi Hj Hli Hlj Hr.
  destruct (cw_node _ _ Hc _ _ Hi) as ([Hwi _] & _ & <-), (cw_node _ _ Hc _ _ Hj) as ([Hwj _] & _ & <-).
  destruct (wf_leader _ Hwi Hli) as (_ & <- & _), (wf_leader _ Hwj Hlj) as (_ & <- & _). by rewrite Hr.
Qed.

Lemma one_leader_per_round_witness : ∃ op, nodes demo_cluster !! 1 = Some op ∧ role (op_state op) = LEADER ∧
  ∀ j opj, nodes demo_cluster !! j = Some opj → role (op_state opj) = LEADER → op_currentRnd op = op_currentRnd opj → 1 = j.
Proof.
  destruct (nodes demo_cluster !! 1) as [op|] eqn:Hop; [|vm_compute in Hop; discriminate].
  assert (role (op_state op) = LEADER) as Hl by (vm_compute in Hop; injection Hop as <-; reflexivity).
  exists op. split; [done|]. split; [done|]. intros j opj Hj Hlj.
  apply (one_leader_per_round 3 demo_cluster 1 j op opj); [apply ordered_reachable_reachable, demo_ordered|done..].
Defined.

(** C17 A crash loses nothing that was persisted: a peer that [Make] starts again
    on its persister has the log, the rounds and the decided index it had when
    it stopped, as a follower that prepares, and applies its decided prefix
    again from index 0. *)
Theorem restart_restores {C} {codec : StateCodec C} (n : nat) (c : cluster C) i op op' es :
  reachable n c → nodes c !! i = Some op → Make (op_npeers op) (op_me op) (op_persister op) = Some (op', es) →
  op_os op' = op_os op ∧ op_state op' = mkState FOLLOWER PREPARE ∧ sent es = [] ∧
  CommandIndex <$> applied es = seqZ 0 (DecidedIdx (op_os op)) ∧
  Command <$> applied es = take (Z.to_nat (DecidedIdx (op_os op))) (Log (op_os op)).
Proof.
  intros Hc%reachable_wf Hi Hm. destruct (cw_node _ _ Hc _ _ Hi) as (Hwf & _ & _).
  destruct (restart_good op op' es Hwf Hm) as (_ & Hos & Hst & Hd & ->). split_and!; [done|done|apply sent_apply_msgs| |].
  - rewrite index_apply_msgs; [by rewrite Z.sub_0_r|apply Hwf|done|done].
  - rewrite applied_apply_msgs, Z.sub_0_r, drop_0. apply list_eq. intros k.
    rewrite list_lookup_fmap, list_lookup_imap. by destruct (take _ _ !! k).
Qed.

Lemma restart_restores_witness : ∃ op op' es, nodes demo_cluster !! 1 = Some op ∧
  Make (op_npeers op) (op_me op) (op_persister op) = Some (op', es) ∧ Log (op_os op') = [7; 8] ∧
  Command <$> applied es = [7; 8].
Proof.
  destruct (nodes demo_cluster !! 1) as [op|] eqn:Hop; [|vm_compute in Hop; discriminate].
  destruct (Make (C := Z) (op_npeers op) (op_me op) (op_persister op)) as [[op' es]|] eqn:Hm;
    [|vm_compute in Hop; injection Hop as <-; vm_compute in Hm; discriminate].
  exists op, op', es. split; [done|]. split; [done|].
  destruct (restart_restores 3 demo_cluster 1 op op' es) as (Hos & _ & _ & _ & Hc);
    [apply ordered_reachable_reachable, demo_ordered|done..|].
  rewrite Hos, Hc. vm_compute in Hop. injection Hop as <-. split; reflexivity.
Defined.

(** C18 Between two restarts of a peer, whatever the schedule, the round it has
    promised, the leader it follows and its decided index never decrease, and
    the [ApplyMsg]s it sends have the indices from its old decided index to its
    new one, each once and in order. *)
Theorem peer_advances {C} {codec : StateCodec C} (n : nat) (c c' : cluster C) i evs :
  reachable n c → idx n i → forallb (λ ev, negb (restarts i ev)) evs = true → run evs c = Some c' → advanced i c c'.
Proof.
  intros Hc%reachable_wf Hi. apply (cw_dom _ _ Hc) in Hi. revert c Hc Hi.
  induction evs as [|ev evs IH]; intros c Hc Hi; simpl; [intros _ [= <-]; by apply advanced_refl|].
  intros [Hr%negb_true_iff Hrs]%andb_true_iff (c1 & H1 & Hrun)%bind_Some.
  pose proof (step_advanced n i c ev c1 Hc Hi Hr H1) as Ha. eapply advanced_trans; [exact Ha|].
  destruct Ha as (_ & op1 & _ & Hop1 & _). apply (IH c1); [by eapply step_wf|by eexists|done..].
Qed.

Lemma peer_advances_witness : advanced 1 (init_cluster 3) demo_cluster.
Proof.
  apply (peer_advances 3 (init_cluster 3) demo_cluster 1 demo); [constructor|done|reflexivity|].
  vm_compute. reflexivity.
Defined.
