(* ===== verification/Commit.v ===== *)
(** * Progress: a proposal is decided

    A leader in phase ACCEPT whose log a majority of followers hold gets a
    command decided and applied, in a schedule that delivers one [Accept] and
    one [Accepted] per follower, whatever else is in flight. *)
From S2P Require Import Prelude Ballot Messages Persister OmniPaxos OmniPaxosInv Cluster Agreement Safety.

Section commit.
Context {C : Type} {codec : StateCodec C}.
Context (n : nat) (i : Z) (b : Ballot) (l : list C) (cmd : C).
Implicit Types c : cluster C.
Implicit Types op : OmniPaxos C.

Abbreviation v := (len l + 1).
Abbreviation ready := (mkState FOLLOWER ACCEPT).

(** A follower that holds the leader's log. *)
Record in_sync op : Prop := {
  is_state : op_state op = ready;
  is_round : PromisedRnd (op_os op) = b;
  is_log : Log (op_os op) = l;
}.

Definition accept_to (f : Z) : packet C := mkPacket i f (MAccept (mkAcceptRequest i b v cmd)).
Definition accepted_from (f : Z) : packet C := mkPacket f i (MAccepted (mkAcceptedRequest f b v)).

(** The leader once it has the command; the peers of [acked] have accepted it. *)
Record leads (acked : list Z) op c : Prop := {
  ld_node : nodes c !! i = Some op;
  ld_state : op_state op = mkState LEADER ACCEPT;
  ld_round : PromisedRnd (op_os op) = b;
  ld_log : Log (op_os op) = l ++ [cmd];
  ld_acked f : f ∈ acked → op_accepted op !! Z.to_nat f = Some v;
  ld_decided : DecidedIdx (op_os op) = v ∧ (i, mkApplyMsg true cmd (len l)) ∈ hist c ∨ DecidedIdx (op_os op) ≤ len l;
}.

(** The followers of [fs] still have to accept it. *)
Definition pending (fs : list Z) c : Prop :=
  ∀ f, f ∈ fs → accept_to f ∈ net c ∧ ∃ op, nodes c !! f = Some op ∧ in_sync op.

Lemma elem_of_lose_other k c p q : net c !! k = Some p → q ∈ net c → q ≠ p → q ∈ net (lose k c).
Proof.
  intros Hk Hq Hne. simpl. rewrite (delete_Permutation _ _ _ Hk) in Hq. apply elem_of_cons in Hq as [->|]; done.
Qed.

(** Delivering a packet that is in flight. *)
Lemma deliver_packet c p op op' es : p ∈ net c → nodes c !! pk_dst p = Some op → in_order op (pk_msg p) →
  handle (H := list_order) (pk_src p) (pk_msg p) op = Some (op', es) →
  ∃ k, net c !! k = Some p ∧ orderedb c (Deliver list_order k) = true ∧
    step (Deliver list_order k) c = Some (commit (pk_dst p) op' es (lose k c)).
Proof.
  intros [k Hk]%list_elem_of_lookup Hop Hin Hh. exists k. split; [done|]. split.
  - simpl. rewrite Hk, Hop. by apply bool_decide_eq_true.
  - simpl. rewrite Hk. simpl. rewrite Hop. simpl. by rewrite Hh.
Qed.

Lemma AcceptHandler_in_sync op : in_sync op → idx (op_npeers op) i →
  ∃ op', AcceptHandler (mkAcceptRequest i b v cmd) op =
    Some (op', [Send i (MAccepted (mkAcceptedRequest (op_me op) b v))]).
Proof.
  intros [H1 H2 H3] Hi. unfold AcceptHandler. simpl. rewrite decide_False.
  - rewrite Call_in_range by exact Hi. simpl. rewrite H3, length_app. simpl.
    replace (Z.of_nat (length l + 1)) with v by lia. by eexists.
  - rewrite H1, H2. intros [He|He]; [by apply compare_ne in He|done].
Qed.

(** The [Accept] reaches follower [f]. *)
Lemma accept_delivered f fs acked op c : cluster_wf n c → leads acked op c → pending (f :: fs) c → idx n i → f ≠ i → f ∉ fs →
  i ∉ fs → ∃ k c', ordered_run [Deliver list_order k] c = Some c' ∧ cluster_wf n c' ∧ leads acked op c' ∧ pending fs c' ∧
    accepted_from f ∈ net c'.
Proof.
  intros Hwf Hl Hp Hi Hne Hf Hif. destruct (Hp f) as (Hnet & opf & Hopf & Hs); [left|].
  destruct (cw_node _ _ Hwf _ _ Hopf) as (_ & Hnp & Hme).
  destruct (AcceptHandler_in_sync opf Hs) as (opf' & Hh); [by rewrite Hnp|].
  destruct (deliver_packet c (accept_to f) opf opf' [Send i (MAccepted (mkAcceptedRequest (op_me opf) b v))] Hnet Hopf) as (k & Hk & Ho & Hstep); [|exact Hh|].
  { simpl. intros _ _. rewrite (is_log _ Hs). lia. }
  eexists k, _. split; [cbn [ordered_run]; rewrite Ho, Hstep; reflexivity|]. split; [by eapply step_wf|]. split_and!.
  - destruct Hl as [L1 L2 L3 L4 L5 L6]. split; try done; simpl; [by rewrite lookup_insert_ne|]. by rewrite app_nil_r.
  - intros g Hg. assert (g ≠ f) by naive_solver. destruct (Hp g) as (Hg1 & opg & Hg2 & Hg3); [by right|]. split.
    + simpl. apply elem_of_app. left. apply (elem_of_lose_other k c (accept_to f)); [done..|]. naive_solver.
    + exists opg. simpl. by rewrite lookup_insert_ne.
  - simpl. apply elem_of_app. right. rewrite Hme. left.
Qed.

(** Enough peers in [accepted] make a majority. *)
Lemma majority_acked op acked : NoDup acked → (∀ f, f ∈ acked → op_accepted op !! Z.to_nat f = Some v) →
  (∀ f, f ∈ acked → 0 ≤ f) → (quorum (op_npeers op) ≤ length acked)%nat → hasMajorityAccepted v op = true.
Proof.
  intros Hnd Hacc Hpos Hq. unfold hasMajorityAccepted. apply bool_decide_eq_true.
  assert (length (Z.to_nat <$> acked) ≤ length (filter (λ a, (a >= v)%Z) (op_accepted op)))%nat as Hlen;
    [|rewrite length_fmap in Hlen; lia].
  apply filter_length_positions.
  - apply NoDup_fmap_2_strong; [|done]. intros x y Hx Hy He. pose proof (Hpos x Hx). pose proof (Hpos y Hy). lia.
  - intros k (f & -> & Hf)%list_elem_of_fmap. exists v. split; [by apply Hacc|lia].
Qed.

(** What an [Accepted] of follower [f] does to the leader. *)
Lemma AcceptedHandler_acked f acked op c : wf op → op_npeers op = n → leads acked op c → idx n f →
  ∃ op' es, AcceptedHandler (mkAcceptedRequest f b v) op = Some (op', es) ∧
    op_state op' = mkState LEADER ACCEPT ∧ PromisedRnd (op_os op') = b ∧ Log (op_os op') = l ++ [cmd] ∧
    op_accepted op' = <[Z.to_nat f := v]> (op_accepted op) ∧ op_npeers op' = op_npeers op ∧
    (DecidedIdx (op_os op') = DecidedIdx (op_os op) ∧ (DecidedIdx (op_os op) < v → hasMajorityAccepted v op' = false) ∨
     DecidedIdx (op_os op') = v ∧ mkApplyMsg true cmd (len l) ∈ applied es).
Proof.
  intros [Hw _] Hnp [L1 L2 L3 L4 L5 L6] Hf. unfold idx in Hf. unfold AcceptedHandler. cbn [ad_N ad_F ad_LogIdx].
  rewrite decide_False; [|rewrite L2, L3; intros [He|He]; [by apply compare_ne in He|done]].
  rewrite go_set_Some by (rewrite (wf_accepted _ Hw); lia). cbn [mbind option_bind].
  set (op1 := set_accepted _ op). case_decide as Hd.
  - destruct Hd as [Hd Hm]. pose proof (wf_decided _ Hw) as H0. simpl in Hd.
    rewrite addToApplyChan_total; [|exact H0|right; simpl; rewrite L4, length_app; simpl; lia]. cbn [mbind option_bind].
    rewrite mapM_Call_eq by (apply (promises_in_range op1), Hw). cbn [mbind option_bind].
    eexists _, _. split; [reflexivity|]. split_and!; try done. right. split; [done|].
    rewrite applied_app. apply elem_of_app. left. simpl. rewrite L4, applied_apply_msgs.
    apply (list_elem_of_lookup_2 _ (Z.to_nat (len l - DecidedIdx (op_os op)))). rewrite list_lookup_imap, lookup_take_lt by lia.
    rewrite lookup_drop. replace (_ + _)%nat with (length l) by lia. rewrite lookup_app_r, Nat.sub_diag by lia. simpl.
    do 2 f_equal. lia.
  - eexists _, _. split; [reflexivity|]. split_and!; try done. left. split; [done|]. intros Hlt.
    destruct (hasMajorityAccepted v op1) eqn:Hm; [|done]. exfalso. apply Hd. split; [simpl; lia|done].
Qed.

(** The [Accepted] reaches the leader. *)
Lemma accepted_delivered f fs acked op c : cluster_wf n c → leads acked op c → pending fs c → idx n f → f ≠ i → i ∉ fs →
  NoDup (f :: acked) → (∀ g, g ∈ acked → 0 ≤ g) → accepted_from f ∈ net c →
  ∃ k c' op', ordered_run [Deliver list_order k] c = Some c' ∧ cluster_wf n c' ∧ leads (f :: acked) op' c' ∧ pending fs c' ∧
    ((quorum n ≤ S (length acked))%nat → DecidedIdx (op_os op') = v).
Proof.
  intros Hwf Hl Hp Hf Hne Hif Hnd Hpos Hnet. pose proof (ld_node _ _ _ Hl) as Hop.
  destruct (cw_node _ _ Hwf _ _ Hop) as (Hwfop & Hnp & Hme).
  destruct (AcceptedHandler_acked f acked op c Hwfop Hnp Hl Hf) as (op' & es & Hh & A1 & A2 & A3 & A4 & A5 & A6).
  destruct (deliver_packet c (accepted_from f) op op' es Hnet Hop) as (k & Hk & Ho & Hstep); [done|exact Hh|].
  assert (∀ g, g ∈ f :: acked → op_accepted op' !! Z.to_nat g = Some v) as Hacc.
  { intros g Hg. rewrite A4. pose proof (wf_accepted _ (proj1 Hwfop)) as Hla. unfold idx in Hf.
    destruct (decide (Z.to_nat g = Z.to_nat f)) as [->|Hgf]; [apply list_lookup_insert_eq; lia|].
    rewrite list_lookup_insert_ne by done. apply (ld_acked _ _ _ Hl). apply elem_of_cons in Hg as [->|]; done. }
  eexists k, _, op'. split; [cbn [ordered_run]; rewrite Ho, Hstep; reflexivity|]. split; [by eapply step_wf|]. split_and!.
  - split; try done; simpl; [by rewrite lookup_insert_eq|].
    destruct A6 as [[-> _]|[-> Hin]].
    + destruct (ld_decided _ _ _ Hl) as [[-> ?]|?]; [left|by right]. split; [done|]. apply elem_of_app. by left.
    + left. split; [done|]. apply elem_of_app. right. by apply list_elem_of_fmap_2.
  - intros g Hg. assert (g ≠ i) by naive_solver. destruct (Hp g Hg) as (Hg1 & opg & Hg2 & Hg3). split.
    + simpl. apply elem_of_app. left. apply (elem_of_lose_other k c (accepted_from f)); [done..|]. naive_solver.
    + exists opg. simpl. by rewrite lookup_insert_ne.
  - intros Hq. destruct A6 as [[Hd Hm]|[? _]]; [|done]. rewrite Hd. destruct (ld_decided _ _ _ Hl) as [[? _]|Hlt]; [done|].
    assert (hasMajorityAccepted v op' = true) as Hmaj; [|rewrite Hm in Hmaj by lia; done].
    apply (majority_acked op' (f :: acked)); [done|done| |by rewrite A5, Hnp].
    intros g [->|Hg]%elem_of_cons; [apply Hf|by apply Hpos].
Qed.

Lemma ordered_run_app evs1 evs2 c : ordered_run (evs1 ++ evs2) c = (c' ← ordered_run evs1 c; ordered_run evs2 c').
Proof.
  revert c. induction evs1 as [|ev evs1 IH]; intros c; simpl; [done|].
  destruct (orderedb c ev); [|done]. destruct (step ev c); [apply IH|done].
Qed.

(** The followers of [fs] accept the command, one after the other. *)
Lemma all_accept fs acked op c : cluster_wf n c → leads acked op c → pending fs c → idx n i → i ∉ fs → NoDup fs →
  Forall (idx n) fs → NoDup acked → (∀ g, g ∈ acked → 0 ≤ g ∧ g ∉ fs) → fs ≠ [] →
  (quorum n ≤ length fs + length acked)%nat →
  ∃ ks c' op' acked', ordered_run (Deliver list_order <$> ks) c = Some c' ∧ length ks = (2 * length fs)%nat ∧
    leads acked' op' c' ∧ DecidedIdx (op_os op') = v.
Proof.
  revert acked op c. induction fs as [|f fs IH]; intros acked op c Hwf Hl Hp Hi Hif Hnd Hidx Hnda Hack Hne Hq; [done|].
  apply NoDup_cons in Hnd as [Hf Hnd]. apply Forall_cons in Hidx as [Hfi Hidx]. apply not_elem_of_cons in Hif as [Hif1 Hif].
  destruct (accept_delivered f fs acked op c Hwf Hl Hp Hi (not_eq_sym Hif1) Hf Hif) as (k1 & c1 & R1 & Hwf1 & Hl1 & Hp1 & Hn1).
  assert (NoDup (f :: acked)) as Hnda'.
  { apply NoDup_cons. split; [|done]. intros Hin. destruct (Hack f Hin) as [_ Hx]. apply Hx. left. }
  destruct (accepted_delivered f fs acked op c1 Hwf1 Hl1 Hp1 Hfi (not_eq_sym Hif1) Hif Hnda' (λ g Hg, proj1 (Hack g Hg)) Hn1)
    as (k2 & c2 & op2 & R2 & Hwf2 & Hl2 & Hp2 & Hdec).
  assert (ordered_run (Deliver list_order <$> [k1; k2]) c = Some c2) as R12.
  { change (Deliver list_order <$> [k1; k2]) with ([Deliver (C := C) list_order k1] ++ [Deliver list_order k2]).
    rewrite ordered_run_app, R1. exact R2. }
  destruct (decide (fs = [])) as [->|Hfs].
  - exists [k1; k2], c2, op2, (f :: acked). split_and!; [done|done|done|]. apply Hdec. simpl in Hq. lia.
  - destruct (IH (f :: acked) op2 c2) as (ks & c' & op' & acked' & R & Hlen & Hl' & Hd); try done.
    + intros g [->|Hg]%elem_of_cons; [split; [apply Hfi|done]|]. destruct (Hack g Hg) as [? Hx].
      split; [done|]. intros Hgf. apply Hx. by right.
    + simpl in *. lia.
    + exists ([k1; k2] ++ ks), c', op', acked'. split_and!; [|simpl; lia|done|done].
      rewrite fmap_app, ordered_run_app, R12. exact R.
Qed.

(** The proposal at the leader. *)
Lemma proposal_leads fs op c : cluster_wf n c → nodes c !! i = Some op → op_state op = mkState LEADER ACCEPT →
  PromisedRnd (op_os op) = b → Log (op_os op) = l → DecidedIdx (op_os op) ≤ len l → i ∉ fs →
  (∀ f, f ∈ fs → is_Some (op_promises op !! f) ∧ ∃ opf, nodes c !! f = Some opf ∧ in_sync opf) →
  ∃ op' c', ordered_run [Propose i cmd] c = Some c' ∧ cluster_wf n c' ∧ leads [i] op' c' ∧ pending fs c'.
Proof.
  intros Hwf Hop Hst Hb Hlog Hd Hi Hfs. destruct (cw_node _ _ Hwf _ _ Hop) as ([Hw Hps] & Hnp & Hme).
  destruct (Proposal_total cmd op (conj Hw Hps)) as [[[res op'] es] Hp]. pose proof Hp as Hrun.
  unfold Proposal in Hp. cbn [stopped] in Hp. rewrite decide_False in Hp by (by rewrite Hst). rewrite decide_True in Hp by done.
  pose proof (wf_me _ Hw) as Hin. unfold in_range in Hin.
  rewrite go_set_Some in Hp by (cbn; rewrite (wf_accepted _ Hw); exact Hin). cbn [mbind option_bind] in Hp.
  rewrite mapM_Call_eq in Hp.
  2:{ apply Forall_forall. intros p [_ Hp']%list_elem_of_filter. by apply (proj1 (Forall_forall _ _) (promises_in_range op (wf_promises _ Hw))). }
  cbn [mbind option_bind] in Hp. injection Hp as _ <- <-.
  assert (step (Propose i cmd) c = Some (commit i _ _ c)) as Hstep by (simpl; rewrite Hop; simpl; rewrite Hrun; reflexivity).
  set (op1 := persist (set_accepted (<[Z.to_nat (op_me op) := len (Log (op_os op) ++ [cmd])]> (op_accepted op))
    (set_Log (Log (op_os op) ++ [cmd]) op))) in *.
  exists op1. eexists. split; [cbn [ordered_run orderedb]; rewrite Hstep; reflexivity|]. split; [by eapply step_wf|]. split.
  - split; simpl; try done.
    + by rewrite lookup_insert_eq.
    + by rewrite Hlog.
    + intros f ->%list_elem_of_singleton. rewrite Hme, Hlog, length_app. simpl. rewrite list_lookup_insert_eq; [f_equal; lia|].
      rewrite (wf_accepted _ Hw). lia.
    + by right.
  - intros f Hf. destruct (Hfs f Hf) as [[p Hp] (opf & Hopf & Hs)]. assert (f ≠ i) by naive_solver. split.
    + simpl. apply elem_of_app. right. apply elem_of_emit. split; [done|]. apply list_elem_of_fmap.
      pose proof (wf_promises _ Hw f p Hp) as (Hpf & _). exists p. split.
      * simpl. rewrite Hpf, Hme, Hlog, length_app. destruct (wf_leader _ Hw) as (-> & _); [by rewrite Hst|]. rewrite Hb. simpl.
        do 3 f_equal. lia.
      * apply list_elem_of_filter. split; [rewrite Hpf; by simpl; rewrite Hme|]. apply list_elem_of_fmap.
        exists (f, p). split; [done|]. by apply elem_of_map_to_list.
    + exists opf. simpl. by rewrite lookup_insert_ne.
Qed.
End commit.

(** ** The theorem *)

(** C8 A proposal is decided: in any reachable cluster, whatever is in flight,
    when a leader in phase ACCEPT whose decided index does not exceed the length
    of its log proposes a command, and followers that have promised its round,
    that hold its log in phase ACCEPT of the round and that make a quorum with it
    are there, delivering two messages per follower, each of them in order,
    makes the leader append the command, decide it and apply it at the next
    index. *)
Theorem proposal_decided {C} {codec : StateCodec C} n (c : cluster C) i op fs cmd :
  reachable n c → nodes c !! i = Some op → op_state op = mkState LEADER ACCEPT →
  DecidedIdx (op_os op) ≤ len (Log (op_os op)) →
  NoDup fs → i ∉ fs → fs ≠ [] → (quorum n ≤ S (length fs))%nat →
  (∀ f, f ∈ fs → is_Some (op_promises op !! f) ∧
    ∃ opf, nodes c !! f = Some opf ∧ in_sync (PromisedRnd (op_os op)) (Log (op_os op)) opf) →
  ∃ ks c' op', ordered_run (Propose i cmd :: (Deliver list_order <$> ks)) c = Some c' ∧ length ks = (2 * length fs)%nat ∧
    nodes c' !! i = Some op' ∧ Log (op_os op') = Log (op_os op) ++ [cmd] ∧
    DecidedIdx (op_os op') = len (Log (op_os op)) + 1 ∧ (i, mkApplyMsg true cmd (len (Log (op_os op)))) ∈ hist c'.
Proof.
  intros Hr%reachable_wf Hop Hst Hd Hnd Hi Hne Hq Hfs.
  assert (idx n i) as Hin by (apply (cw_dom _ _ Hr); by eexists).
  assert (Forall (idx n) fs) as Hidx.
  { apply Forall_forall. intros f Hf. destruct (Hfs f Hf) as (_ & opf & Hopf & _). apply (cw_dom _ _ Hr). by eexists. }
  destruct (proposal_leads n i (PromisedRnd (op_os op)) (Log (op_os op)) cmd fs op c) as (op1 & c1 & R1 & Hwf1 & Hl1 & Hp1); try done.
  destruct (all_accept n i (PromisedRnd (op_os op)) (Log (op_os op)) cmd fs [i] op1 c1)
    as (ks & c' & op' & acked' & R & Hlen & [L1 L2 L3 L4 L5 L6] & Hdec); try done.
  - by apply NoDup_singleton.
  - intros g ->%list_elem_of_singleton. split; [apply Hin|done].
  - simpl. lia.
  - exists ks, c', op'. split_and!; [|done..|].
    + change (Propose i cmd :: (Deliver list_order <$> ks)) with ([Propose i cmd] ++ (Deliver list_order <$> ks)).
      rewrite ordered_run_app, R1. exact R.
    + destruct L6 as [[_ ?]|?]; [done|lia].
Qed.

Lemma proposal_decided_witness : ∃ ks c' op', ordered_run (Propose 1 9 :: (Deliver list_order <$> ks)) demo_cluster = Some c' ∧
  nodes c' !! 1 = Some op' ∧ Log (op_os op') = [7; 8; 9] ∧ (1, mkApplyMsg true 9 2) ∈ hist c'.
Proof.
  destruct (nodes demo_cluster !! 1) as [op|] eqn:Hop; [|vm_compute in Hop; discriminate].
  assert (Log (op_os op) = [7; 8]) as Hlog by (vm_compute in Hop; injection Hop as <-; reflexivity).
  destruct (proposal_decided 3 demo_cluster 1 op [0] 9) as (ks & c' & op' & Hr & _ & Hn & Hl & _ & Hin).
  - apply ordered_reachable_reachable, demo_ordered.
  - exact Hop.
  - vm_compute in Hop. injection Hop as <-. reflexivity.
  - vm_compute in Hop. injection Hop as <-. by vm_compute.
  - apply NoDup_singleton.
  - by intros ?%list_elem_of_singleton.
  - done.
  - by vm_compute.
  - intros f ->%list_elem_of_singleton. split.
    + vm_compute in Hop. injection Hop as <-. by eexists.
    + destruct (nodes demo_cluster !! 0) as [opf|] eqn:Hf; [|vm_compute in Hf; discriminate]. exists opf. split; [done|].
      rewrite Hlog. vm_compute in Hop. injection Hop as <-. vm_compute in Hf. injection Hf as <-. split; reflexivity.
  - exists ks, c', op'. rewrite Hlog in *. split_and!; done.
Defined.
