(* ===== verification/Anomalies.v ===== *)
(** * Schedules on which the replicated log misbehaves

    Two recoveries of a leader with an undecided entry.  In the first the
    leader's own promise appends its undecided entries a second time; in the
    second a promise that arrives after the leader has adopted its log is
    answered with a suffix that does not connect to the follower's log.  And an
    [Accept] that comes when a follower has its entry already. *)
From S2P Require Import Prelude Ballot Messages Persister OmniPaxos OmniPaxosInv Cluster Agreement AgreementSteps Safety.

(** ** Lossless first-in first-out continuations *)
Section fifo.
Context {C : Type} {codec : StateCodec C}.

(** The delivery of the oldest packet from its sender to its receiver. *)
Definition oldest (c : cluster C) (k : nat) : Prop :=
  match net c !! k with
  | Some p => Forall (λ q, (pk_src q, pk_dst q) ≠ (pk_src p, pk_dst p)) (take k (net c))
  | None => False
  end.
#[export] Instance oldest_dec c k : Decision (oldest c k).
Proof. unfold oldest. destruct (net c !! k); apply _. Defined.

(** Packets are neither lost nor overtaken, and no peer restarts or times out. *)
Definition fifo_event (c : cluster C) (ev : event C) : bool :=
  match ev with
  | Deliver _ k => bool_decide (oldest c k)
  | Propose _ _ => true
  | _ => false
  end.

Fixpoint fifo_run (evs : list (event C)) (c : cluster C) : option (cluster C) :=
  match evs with
  | [] => Some c
  | ev :: evs => if fifo_event c ev then c ← step ev c; fifo_run evs c else None
  end.

(** Nothing is lost, and no request that a peer acts on leaves a gap in its log
    or shortens it; but an [Accept] may come late. *)
Definition gapless (op : OmniPaxos C) (m : Msg C) : Prop :=
  match m with
  | MAccept req =>
      PromisedRnd (op_os op) = ac_N req → op_state op = mkState FOLLOWER ACCEPT → ac_Idx req ≤ len (Log (op_os op)) + 1
  | m => in_order op m
  end.
#[export] Instance gapless_dec op m : Decision (gapless op m).
Proof. destruct m; simpl; apply _. Defined.

Definition gapless_event (c : cluster C) (ev : event C) : bool :=
  match ev with
  | Deliver _ k =>
      match net c !! k with
      | Some p => match nodes c !! pk_dst p with Some op => bool_decide (gapless op (pk_msg p)) | None => true end
      | None => true
      end
  | Drop _ | Restart _ => false
  | _ => true
  end.
Fixpoint gapless_run (evs : list (event C)) (c : cluster C) : option (cluster C) :=
  match evs with
  | [] => Some c
  | ev :: evs => if gapless_event c ev then c ← step ev c; gapless_run evs c else None
  end.
End fifo.

(** ** The schedules *)
Definition deliver_nth (k : nat) : event Z := Deliver list_order k.

(** Command 7 is decided; 8 reaches peer 0 only, and is not decided; the leader,
    peer 1, crashes and is elected again. *)
Definition undecided : list (event Z) :=
  elect ++ [Propose 1 7] ++ replicate 6 deliver ++
  [Propose 1 8; Drop 1; deliver; deliver; Drop 0; Restart 1; Timer 1] ++ replicate 4 deliver ++
  [Timer 1] ++ replicate 7 deliver ++ [Timer 1].

(** The promise of peer 0 completes the quorum; that of peer 2 is not sent. *)
Definition duplicated : list (event Z) := undecided ++ [deliver; Drop 0; deliver_nth 2] ++ replicate 7 deliver.

(** The promise of peer 2 arrives after the quorum is complete. *)
Definition late_promise : list (event Z) :=
  [deliver; deliver_nth 3] ++ replicate 13 deliver ++ [Propose 1 9; Propose 1 10] ++ replicate 15 deliver.

(** Peer 0 asks the leader for a [Prepare] and is synchronised with the log [7],
    before the [Accept] of 7 arrives. *)
Definition late_accept : list (event Z) :=
  [Propose 1 7; Timer 0; deliver_nth 3; deliver_nth 6; deliver_nth 6; deliver_nth 6; deliver_nth 1; Propose 1 8;
   deliver; deliver_nth 6; deliver_nth 6; deliver_nth 6; deliver_nth 6; deliver_nth 4; deliver_nth 4; deliver_nth 4;
   deliver_nth 6; deliver_nth 8].

Definition proposals (evs : list (event Z)) : list Z :=
  omap (λ ev, match ev with Propose _ c => Some c | _ => None end) evs.

(** ** The theorems *)

(** A leader that is elected again with an undecided entry may append it a
    second time: its own promise carries its whole undecided suffix, and when
    that promise is the greatest the suffix goes after a log that still holds
    it.  A command proposed once is then decided and applied at two indices,
    in a schedule without any loss of order. *)
Theorem own_promise_duplicates : ∃ c a b,
  ordered_run duplicated (init_cluster 3) = Some c ∧ proposals duplicated = [7; 8] ∧
  (1, a) ∈ hist c ∧ (1, b) ∈ hist c ∧ Command a = 8 ∧ Command b = 8 ∧ CommandIndex a = 1 ∧ CommandIndex b = 2.
Proof.
  eexists _, (mkApplyMsg true 8 1), (mkApplyMsg true 8 2). split; [vm_compute; reflexivity|].
  split; [reflexivity|].
  split; [apply list_elem_of_lookup; exists 4%nat; reflexivity|].
  split; [apply list_elem_of_lookup; exists 5%nat; reflexivity|]. done.
Qed.

(** C29 A late promise breaks agreement, without loss or reordering: from a state
    that an ordered schedule reaches, packets are delivered first-in first-out
    and none is lost, yet two peers apply different commands at index 2.  The
    leader in phase [ACCEPT] answers the late promise of a follower of the same
    accepted round with the suffix after the length of the greatest promise; the
    follower's log is shorter, and the suffix is appended where it ends. *)
Theorem late_promise_breaks_agreement : ∃ c0 c a b,
  ordered_run undecided (init_cluster 3) = Some c0 ∧ fifo_run late_promise c0 = Some c ∧
  (1, a) ∈ hist c ∧ (2, b) ∈ hist c ∧ CommandIndex a = 2 ∧ CommandIndex b = 2 ∧ Command a = 8 ∧ Command b = 9.
Proof.
  eexists _, _, (mkApplyMsg true 8 2), (mkApplyMsg true 9 2). split; [vm_compute; reflexivity|].
  split; [vm_compute; reflexivity|].
  split; [apply list_elem_of_lookup; exists 5%nat; reflexivity|].
  split; [apply list_elem_of_lookup|done]. exists 11%nat. reflexivity.
Qed.

(** A late [Accept] breaks agreement: no request leaves a gap and none is lost
    after the election, but an [Accept] arrives when an [AcceptSync] has brought
    its entry already.  The follower appends it again, reports the greater
    length, and applies 7 at index 1, where the leader applies 8. *)
Theorem late_accept_breaks_agreement : ∃ c0 c a b,
  ordered_run elect (init_cluster 3) = Some c0 ∧ gapless_run late_accept c0 = Some c ∧
  (1, a) ∈ hist c ∧ (0, b) ∈ hist c ∧ CommandIndex a = 1 ∧ CommandIndex b = 1 ∧ Command a = 8 ∧ Command b = 7.
Proof.
  eexists _, _, (mkApplyMsg true 8 1), (mkApplyMsg true 7 1). split; [vm_compute; reflexivity|].
  split; [vm_compute; reflexivity|].
  split; [apply list_elem_of_lookup; exists 1%nat; reflexivity|].
  split; [apply list_elem_of_lookup|done]. exists 3%nat. reflexivity.
Qed.
