(* ===== verification/Service.v ===== *)
(** * Services replicated by OmniPaxos

    The interface between a replica group and the services built on it.  A
    [Service] applies the commands of [applyCh] one at a time; what clients can
    observe of it is a function of the commands alone.  Replicas of a service
    that consumed equally many messages then agree, because the peers under
    them decided the same prefix. *)
From S2P Require Import Prelude Ballot Messages Persister OmniPaxos OmniPaxosInv Cluster Agreement AgreementSteps Safety.

(** The loop over [applyCh]: one command after the other, [None] when applying
    one panics. *)
Fixpoint apply_all {Cmd St : Type} (apply : Cmd → St → option St) (log : list Cmd) (s : St) : option St :=
  match log with
  | [] => Some s
  | c :: log => s ← apply c s; apply_all apply log s
  end.

Class Service (Cmd St Obs : Type) := {
  svc_apply : Cmd → St → option St;
  svc_view : St → Obs;
  svc_apply_view c s1 s2 : svc_view s1 = svc_view s2 →
    svc_view <$> svc_apply c s1 = svc_view <$> svc_apply c s2;
}.

Section apply_all.
Context {Cmd St : Type} (apply : Cmd → St → option St).

Lemma apply_all_app l1 l2 s : apply_all apply (l1 ++ l2) s = apply_all apply l1 s ≫= apply_all apply l2.
Proof. revert s. induction l1 as [|c l1 IH]; intros s; simpl; [done|]. destruct (apply c s); simpl; auto. Qed.

Lemma apply_all_snoc l c s s' :
  apply_all apply (l ++ [c]) s = Some s' ↔ ∃ s1, apply_all apply l s = Some s1 ∧ apply c s1 = Some s'.
Proof.
  rewrite apply_all_app, bind_Some. simpl. split.
  - intros (s1 & H1 & (s2 & H2 & [= <-])%bind_Some). eauto.
  - intros (s1 & H1 & H2). exists s1. split; [done|]. apply bind_Some. eauto.
Qed.
End apply_all.

(** ** Requests with ids

    Both services and the shards number the requests of a client and execute a
    command only when its number is above the last one executed of that client.
    [command_id] reads the client and the number of a command. *)
Section requests.
Context {Cmd : Type} (command_id : Cmd → option (Z * Z)).
Implicit Types log : list Cmd.

Definition get_seq (m : gmap Z Z) (cid : Z) : Z := default 0 (m !! cid).

(** The log without the entries whose id occurred before. *)
Fixpoint once (seen : gset (Z * Z)) log : list Cmd :=
  match log with
  | [] => []
  | c :: log =>
      match command_id c with
      | Some id => if decide (id ∈ seen) then once seen log else c :: once ({[id]} ∪ seen) log
      | None => once seen log
      end
  end.

(** What the clerks guarantee: sequence numbers start at 1, and a client's next
    request enters the log after its previous one; retries come at any time. *)
Definition clerk_order log : Prop :=
  ∀ pre c post cid s, log = pre ++ c :: post → command_id c = Some (cid, s) →
    1 ≤ s ∧ ((∃ c', c' ∈ pre ∧ command_id c' = Some (cid, s)) ∨
             ∀ c' s', c' ∈ pre → command_id c' = Some (cid, s') → s' < s).

Definition ids log : list (Z * Z) := omap command_id log.

Lemma elem_of_ids log id : id ∈ ids log ↔ ∃ c, c ∈ log ∧ command_id c = Some id.
Proof. apply list_elem_of_omap. Qed.

Lemma once_snoc seen log c id : command_id c = Some id →
  once seen (log ++ [c]) = once seen log ++ (if decide (id ∈ seen ∨ id ∈ ids log) then [] else [c]).
Proof.
  intros Hc. unfold ids. revert seen. induction log as [|c' log IH]; intros seen; simpl.
  - rewrite Hc. destruct (decide (id ∈ seen)) as [H|H].
    + by rewrite decide_True by (by left).
    + rewrite decide_False; [done|]. intros [?|?%not_elem_of_nil]; done.
  - destruct (command_id c') as [id'|] eqn:Hid; [|apply IH].
    destruct (decide (id' ∈ seen)) as [Hs|Hs]; rewrite IH; simpl; do 2 f_equal; apply decide_ext; set_solver.
Qed.

(** [m] holds the largest number seen of each client. *)
Definition seq_max log (m : gmap Z Z) : Prop :=
  ∀ cid, (∀ s, (cid, s) ∈ ids log → s ≤ get_seq m cid) ∧ (get_seq m cid = 0 ∨ (cid, get_seq m cid) ∈ ids log).

Lemma seq_max_snoc log m c cid s : command_id c = Some (cid, s) → seq_max log m →
  seq_max (log ++ [c]) (if decide (get_seq m cid < s) then <[cid := s]> m else m).
Proof.
  intros Hc Hm cid'. unfold ids. rewrite omap_app. simpl. rewrite Hc.
  destruct (Hm cid') as [H1 H2].
  assert (get_seq (if decide (get_seq m cid < s) then <[cid:=s]> m else m) cid' =
    (if decide (cid' = cid) then Z.max (get_seq m cid) s else get_seq m cid')) as ->.
  { unfold get_seq in *. repeat case_decide; subst; rewrite ?lookup_insert_eq, ?lookup_insert_ne by done; simpl; lia. }
  case_decide as He; [subst cid'|].
  - split.
    + intros s' [Hs%H1|[= ->]%list_elem_of_singleton]%elem_of_app; lia.
    + destruct (decide (get_seq m cid < s)).
      * rewrite Z.max_r by lia. right. apply elem_of_app. right. by apply list_elem_of_singleton.
      * rewrite Z.max_l by lia. destruct H2; [by left|right]. apply elem_of_app. by left.
  - split.
    + intros s' [Hs%H1|[= -> ->]%list_elem_of_singleton]%elem_of_app; [lia|done].
    + destruct H2; [by left|right]. apply elem_of_app. by left.
Qed.

Lemma clerk_order_app log c : clerk_order (log ++ [c]) → clerk_order log.
Proof.
  intros H pre c' post cid s -> Hc. eapply (H pre c' (post ++ [c])); [|done]. by rewrite <-(assoc_L (++)).
Qed.

Lemma clerk_order_snoc log c cid s :
  clerk_order log → command_id c = Some (cid, s) → 1 ≤ s →
  (cid, s) ∈ ids log ∨ (∀ s', (cid, s') ∈ ids log → s' < s) → clerk_order (log ++ [c]).
Proof.
  intros Hlog Hc Hs Hids pre c' post cid' s' Heq Hc'.
  destruct post as [|c2 post _] using rev_ind.
  - apply app_inj_tail in Heq as [-> ->]. rewrite Hc in Hc'. injection Hc' as <- <-.
    split; [done|]. destruct Hids as [Hin%elem_of_ids|Hlt]; [by left|right].
    intros c1 s1 Hc1 Hid. apply Hlt, elem_of_ids. eauto.
  - rewrite app_comm_cons, (assoc_L (++)) in Heq. apply app_inj_tail in Heq as [-> _].
    by eapply Hlog.
Qed.

(** For a log in clerk order the comparison with the last number recognises
    exactly the first occurrences. *)
Lemma fresh_iff log c m cid s : clerk_order (log ++ [c]) → seq_max log m → command_id c = Some (cid, s) →
  get_seq m cid < s ↔ (cid, s) ∉ ids log.
Proof.
  intros Hord Hmax Hc. destruct (Hord log c [] cid s eq_refl Hc) as (Hs1 & Hs2). destruct (Hmax cid) as [Hub Hwit].
  split; [intros Hlt Hin%Hub; lia|]. intros Hnin.
  destruct Hwit as [->|Hw]; [lia|]. destruct Hs2 as [(c' & Hc' & Hid')|Hs2].
  - exfalso. apply Hnin, elem_of_ids. eauto.
  - apply elem_of_ids in Hw as (c' & Hc' & Hid'). by eapply Hs2.
Qed.

Lemma seq_max_nil m : (∀ cid, get_seq m cid = 0) → seq_max [] m.
Proof. intros H cid. split; [set_solver|by left]. Qed.
End requests.

Section service.
Context `{Service Cmd St Obs}.

Lemma apply_all_view log s1 s2 : svc_view s1 = svc_view s2 →
  svc_view <$> apply_all svc_apply log s1 = svc_view <$> apply_all svc_apply log s2.
Proof.
  revert s1 s2. induction log as [|c log IH]; intros s1 s2 Hv; simpl; [by rewrite Hv|].
  pose proof (svc_apply_view c s1 s2 Hv) as Ha.
  destruct (svc_apply c s1), (svc_apply c s2); simplify_eq/=; [by apply IH|done].
Qed.
End service.

Section replicas.
Context {Cmd : Type} {codec : StateCodec Cmd}.

(** A replica over peer [i] of the cluster: the service state is what the
    messages consumed so far, a prefix of the decided ones, make of the initial
    state. *)
Definition replica_of `{Service Cmd St Obs} (op : OmniPaxos Cmd) (k : nat) (s0 s : St) : Prop :=
  (k ≤ length (decided_prefix op))%nat ∧ apply_all svc_apply (take k (decided_prefix op)) s0 = Some s.

Lemma replicas_agree `{Service Cmd St Obs} n c i j opi opj k s0 s0' s s' :
  Nat.Odd n → ordered_reachable n c → nodes c !! i = Some opi → nodes c !! j = Some opj →
  svc_view s0 = svc_view s0' → replica_of opi k s0 s → replica_of opj k s0' s' → svc_view s = svc_view s'.
Proof.
  intros Hodd Hr Hi Hj Hv [Hk Hs] [Hk' Hs'].
  assert (take k (decided_prefix opi) = take k (decided_prefix opj)) as He.
  { destruct (ordered_decided_comparable n Hodd c i j opi opj Hr Hi Hj) as [[x ->]|[x ->]].
    - by rewrite take_app_le.
    - by rewrite take_app_le. }
  pose proof (apply_all_view (take k (decided_prefix opi)) s0 s0' Hv) as Ha.
  rewrite Hs, He, Hs' in Ha. by injection Ha.
Qed.
End replicas.
