(* ===== verification/GoString.v ===== *)
(** * The part of Go's [strconv] and [strings] the services use

    [strconv.Itoa], the value [strconv.Atoi] returns (the callers ignore its
    error), and [strings.Split] on a one-byte separator.  A Go string is a
    sequence of bytes, a [string] of [ascii]. *)
From Stdlib Require Import Strings.Ascii Strings.String.
From S2P Require Import Prelude.

Definition digit (d : Z) : ascii := ascii_of_nat (48 + Z.to_nat d).
Definition digit_val (c : ascii) : option Z :=
  let v := Z.of_nat (nat_of_ascii c) - 48 in
  if decide (0 ≤ v ≤ 9) then Some v else None.

(** The decimal digits of [z] before [acc]; 20 digits are enough for 64 bits. *)
Fixpoint digits (fuel : nat) (z : Z) (acc : string) : string :=
  match fuel with
  | O => acc
  | S fuel =>
      let acc := String (digit (z mod 10)) acc in
      if decide (z < 10) then acc else digits fuel (z / 10) acc
  end.

Definition Itoa (z : Z) : string :=
  if decide (z < 0) then String "-" (digits 20 (- z) "") else digits 20 z "".

(** [strconv.ParseUint] from the digits read so far: a value, a syntax error,
    or the first digit that overflows 64 bits. *)
Inductive parsed := PValue (n : Z) | PSyntax | PRange.

Fixpoint parse_uint (n : Z) (s : string) : parsed :=
  match s with
  | EmptyString => PValue n
  | String c s =>
      match digit_val c with
      | None => PSyntax
      | Some d => if decide (n * 10 + d < 2 ^ 64) then parse_uint (n * 10 + d) s else PRange
      end
  end.

(** The first result of [Atoi]: 0 on a syntax error, the nearest bound on a
    range error. *)
Definition Atoi_abs (neg : bool) (s : string) : Z :=
  match s with
  | EmptyString => 0
  | _ => match parse_uint 0 s with
         | PSyntax => 0
         | PRange => if neg then - 2 ^ 63 else 2 ^ 63 - 1
         | PValue n =>
             if neg then (if decide (n > 2 ^ 63) then - 2 ^ 63 else - n)
             else (if decide (n >= 2 ^ 63) then 2 ^ 63 - 1 else n)
         end
  end.

Definition Atoi (s : string) : Z :=
  match s with
  | String "+" s => Atoi_abs false s
  | String "-" s => Atoi_abs true s
  | _ => Atoi_abs false s
  end.

(** [strings.Split(s, sep)] for a separator of one byte. *)
Fixpoint Split (s : string) (sep : ascii) : list string :=
  match s with
  | EmptyString => [EmptyString]
  | String c s =>
      if decide (c = sep) then EmptyString :: Split s sep
      else match Split s sep with
           | [] => [String c EmptyString]
           | w :: ws => String c w :: ws
           end
  end.

(** ** Round trips *)
Definition all_digits (s : string) : Prop := ∀ c, In c (list_ascii_of_string s) → is_Some (digit_val c).

Lemma digit_val_digit d : 0 ≤ d ≤ 9 → digit_val (digit d) = Some d.
Proof.
  intros Hd. unfold digit_val, digit.
  rewrite nat_ascii_embedding by lia. rewrite decide_True by lia. f_equal. lia.
Qed.

(** Reading the digits of [z] after [n] gives [n * 10 ^ k + z]. *)
Lemma parse_digits fuel z acc :
  0 ≤ z < 10 ^ Z.of_nat fuel → (0 < fuel)%nat →
  ∃ k : nat, ∀ n, 0 ≤ n → n * 10 ^ Z.of_nat k + z < 2 ^ 64 →
    parse_uint n (digits fuel z acc) = parse_uint (n * 10 ^ Z.of_nat k + z) acc.
Proof.
  revert z acc. induction fuel as [|fuel IH]; intros z acc Hz Hf; [lia|].
  pose proof (Z.mod_pos_bound z 10 ltac:(lia)) as Hm. pose proof (Z.div_mod z 10 ltac:(lia)) as Hdm.
  simpl. case_decide as Hlt.
  - exists 1%nat. intros n Hn Hb. change (10 ^ Z.of_nat 1) with 10 in *.
    rewrite Z.mod_small by lia. cbn [parse_uint]. rewrite digit_val_digit by lia.
    by rewrite decide_True by lia.
  - assert (0 < fuel)%nat as Hf' by (destruct fuel; [simpl in Hz; lia|lia]).
    destruct (IH (z / 10) (String (digit (z mod 10)) acc)) as (k & Hp); [|done|].
    { split; [apply Z.div_pos; lia|]. apply Z.div_lt_upper_bound; [lia|].
      replace (Z.of_nat (S fuel)) with (Z.of_nat fuel + 1) in Hz by lia.
      rewrite Z.pow_add_r in Hz by lia. lia. }
    assert (10 ^ Z.of_nat (S k) = 10 * 10 ^ Z.of_nat k) as Hpow.
    { replace (Z.of_nat (S k)) with (Z.of_nat k + 1) by lia. rewrite Z.pow_add_r by lia. lia. }
    assert (0 < 10 ^ Z.of_nat k) by (apply Z.pow_pos_nonneg; lia).
    exists (S k). intros n Hn Hb. rewrite Hpow in *. rewrite Hp; [|done|nia].
    cbn [parse_uint]. rewrite digit_val_digit by lia.
    assert ((n * 10 ^ Z.of_nat k + z / 10) * 10 + z mod 10 = n * (10 * 10 ^ Z.of_nat k) + z) as -> by lia.
    by rewrite decide_True by lia.
Qed.

Lemma parse_Itoa z : 0 ≤ z < 2 ^ 64 → parse_uint 0 (digits 20 z "") = PValue z.
Proof.
  intros Hz. destruct (parse_digits 20 z "") as (k & Hk); [|lia|].
  - split; [lia|]. transitivity (2 ^ 64); [lia|]. by vm_compute.
  - rewrite Hk by lia. rewrite Z.mul_0_l. done.
Qed.

(** The digits start with a digit, so they are neither empty nor signed. *)
Lemma digits_head fuel z acc : 0 ≤ z → (0 < fuel)%nat →
  ∃ d s, 0 ≤ d ≤ 9 ∧ digits fuel z acc = String (digit d) s.
Proof.
  revert z acc. induction fuel as [|fuel IH]; intros z acc Hz Hf; [lia|].
  pose proof (Z.mod_pos_bound z 10 ltac:(lia)). simpl. case_decide.
  - eexists _, _. split; [|reflexivity]. lia.
  - destruct fuel.
    + eexists _, _. split; [|reflexivity]. lia.
    + apply IH; [apply Z.div_pos; lia|lia].
Qed.

Lemma digit_cases d : 0 ≤ d ≤ 9 →
  digit d ≠ "+"%char ∧ digit d ≠ "-"%char ∧ digit d ≠ "#"%char.
Proof.
  intros Hd. unfold digit.
  assert (∃ k, k < 10 ∧ Z.to_nat d = k)%nat as (k & Hk & ->) by (exists (Z.to_nat d); lia).
  do 10 (destruct k as [|k]; [by vm_compute|]). lia.
Qed.

Lemma Atoi_digits z : 0 ≤ z < 2 ^ 63 → Atoi (digits 20 z "") = z.
Proof.
  intros Hz. pose proof (parse_Itoa z ltac:(lia)) as Hp.
  destruct (digits_head 20 z "") as (d & s & Hd & Hs); [lia..|].
  destruct (digit_cases d Hd) as (Hne1 & Hne2 & _). rewrite Hs in *.
  assert (Atoi (String (digit d) s) = Atoi_abs false (String (digit d) s)) as ->.
  { unfold Atoi. destruct (digit d) as [[] [] [] [] [] [] [] []]; try done; by exfalso. }
  unfold Atoi_abs. rewrite Hp. by rewrite decide_False by lia.
Qed.

(** [Atoi(Itoa(z))] is [z] for every 64-bit integer. *)
Lemma Atoi_Itoa z : in64 z → Atoi (Itoa z) = z.
Proof.
  unfold in64. intros Hz. unfold Itoa. case_decide as Hneg; [|apply Atoi_digits; lia].
  pose proof (parse_Itoa (- z) ltac:(lia)) as Hp.
  destruct (digits_head 20 (- z) "") as (d & s & Hd & Hs); [lia..|].
  rewrite Hs in *. cbn [Atoi]. unfold Atoi_abs. rewrite Hp. rewrite decide_False by lia. lia.
Qed.

Lemma Itoa_inj a b : in64 a → in64 b → Itoa a = Itoa b → a = b.
Proof. intros Ha Hb He. by rewrite <-(Atoi_Itoa a Ha), He, Atoi_Itoa. Qed.

(** ** Splitting *)
Lemma Split_no_sep s sep : (∀ c, In c (list_ascii_of_string s) → c ≠ sep) → Split s sep = [s].
Proof.
  induction s as [|c s IH]; intros Hs; [done|]. cbn [Split].
  rewrite decide_False by (apply Hs; by left). rewrite IH; [done|].
  intros c' Hc'. apply Hs. by right.
Qed.

Lemma Split_app s sep t : (∀ c, In c (list_ascii_of_string s) → c ≠ sep) →
  Split (s ++ String sep t) sep = s :: Split t sep.
Proof.
  induction s as [|c s IH]; intros Hs; simpl.
  - by rewrite decide_True.
  - rewrite decide_False by (apply Hs; by left). rewrite IH; [done|].
    intros c' Hc'. apply Hs. by right.
Qed.

Lemma digits_chars fuel z acc c : 0 ≤ z → In c (list_ascii_of_string (digits fuel z acc)) →
  (∃ d, 0 ≤ d ≤ 9 ∧ c = digit d) ∨ In c (list_ascii_of_string acc).
Proof.
  revert z acc. induction fuel as [|fuel IH]; intros z acc Hz Hc; [by right|].
  pose proof (Z.mod_pos_bound z 10 ltac:(lia)).
  assert (In c (list_ascii_of_string (String (digit (z mod 10)) acc)) →
    (∃ d, 0 ≤ d ≤ 9 ∧ c = digit d) ∨ In c (list_ascii_of_string acc)) as Hhd.
  { intros [<-|?]; [left|by right]. eexists. split; [|reflexivity]. lia. }
  cbn [digits] in Hc. case_decide; [by apply Hhd|].
  apply IH in Hc as [?|?]; [by left|by apply Hhd|]. apply Z.div_pos; lia.
Qed.

Lemma Itoa_no_hash z c : In c (list_ascii_of_string (Itoa z)) → c ≠ "#"%char.
Proof.
  unfold Itoa. case_decide.
  - intros [<-|[(d & Hd & ->)|[]]%digits_chars]; [done| |lia]. by apply digit_cases.
  - intros [(d & Hd & ->)|[]]%digits_chars; [|lia]. by apply digit_cases.
Qed.
#[global] Arguments digits : simpl never.
