(* ===== verification/KVPaxos.v ===== *)
(** * The replicated key/value service: a3-kvpaxos

    [KVServer] of server.go with its handlers [Get] and [PutAppend], the loop
    [readApply] one message at a time, [parseId], and the [Clerk] of client.go.
    The OmniPaxos peer under the server is [OmniPaxos] of OmniPaxos.v with
    [KVCommand] as its command type. *)
From Stdlib Require Import Strings.Ascii Strings.String.
From S2P Require Import Prelude Ballot Messages Persister OmniPaxos OmniPaxosInv Cluster Agreement AgreementSteps Safety Service GoString.

Record PutAppendArgs := mkPutAppendArgs { pa_Key : string; pa_Value : string; pa_Op : string; pa_Id : string }.
Record PutAppendReply := mkPutAppendReply { par_Err : string }.
Record GetArgs := mkGetArgs { ga_Key : string; ga_Id : string }.
Record GetReply := mkGetReply { gr_Err : string; gr_Value : string }.

(** The dynamic type of [KVCommand.Command]. *)
Inductive Request := RGet (args : GetArgs) | RPutAppend (args : PutAppendArgs).
Record KVCommand := mkKVCommand { kc_Id : Z; kc_Command : Request }.

#[export] Instance GetArgs_eq_dec : EqDecision GetArgs.
Proof. solve_decision. Defined.
#[export] Instance PutAppendArgs_eq_dec : EqDecision PutAppendArgs.
Proof. solve_decision. Defined.
#[export] Instance Request_eq_dec : EqDecision Request.
Proof. solve_decision. Defined.
#[export] Instance KVCommand_eq_dec : EqDecision KVCommand.
Proof. solve_decision. Defined.

#[export] Instance KVCommand_countable : Countable KVCommand.
Proof.
  refine (inj_countable'
    (λ c, (kc_Id c, match kc_Command c with
      | RGet a => inl (ga_Key a, ga_Id a)
      | RPutAppend a => inr (pa_Key a, pa_Value a, pa_Op a, pa_Id a) end))
    (λ p, mkKVCommand p.1 match p.2 with
      | inl (k, i) => RGet (mkGetArgs k i)
      | inr (k, v, o, i) => RPutAppend (mkPutAppendArgs k v o i) end) _).
  by intros [? [[]|[]]].
Defined.

Record Response := mkResponse { r_command : KVCommand; r_value : string }.

Record KVServer := mkKVServer {
  kv_me : Z;
  kv_rf : OmniPaxos KVCommand;
  kv_dead : Z;
  kv_enableLogging : Z;
  response : list Response;
  seq : gmap Z Z;
  kv_m : gmap string string;
}.

Definition NOT_LEADER : string := "not a leader".

(** The zero value a Go map returns for absent keys. *)
Definition get_val (m : gmap string string) (k : string) : string := default EmptyString (m !! k).

(** [parseId]: an id without a separator makes [a[1]] panic. *)
Definition parseId (s : string) : option (Z * Z) :=
  let a := Split s "#" in
  a0 ← a !! 0%nat; a1 ← a !! 1%nat; Some (Atoi a0, Atoi a1).

Definition request_id (r : Request) : string :=
  match r with RGet a => ga_Id a | RPutAppend a => pa_Id a end.

(** [kv.m[arg.Key] = ...] of [readApply]. *)
Definition exec_put (a : PutAppendArgs) (m : gmap string string) : gmap string string :=
  if decide (pa_Op a = "Put"%string) then <[pa_Key a := pa_Value a]> m
  else <[pa_Key a := (get_val m (pa_Key a) +:+ pa_Value a)]> m.

(** One iteration of [readApply] on [msg.Command]. *)
Definition readApply (c : KVCommand) (kv : KVServer) : option KVServer :=
  '(cid, seqNo) ← parseId (request_id (kc_Command c));
  let upd (seq : gmap Z Z) := if decide (get_seq seq cid < seqNo) then <[cid := seqNo]> seq else seq in
  match kc_Command c with
  | RGet arg =>
      Some (mkKVServer (kv_me kv) (kv_rf kv) (kv_dead kv) (kv_enableLogging kv)
        (response kv ++ [mkResponse c (get_val (kv_m kv) (ga_Key arg))]) (upd (seq kv)) (kv_m kv))
  | RPutAppend arg =>
      let m := if decide (get_seq (seq kv) cid < seqNo) then exec_put arg (kv_m kv) else kv_m kv in
      Some (mkKVServer (kv_me kv) (kv_rf kv) (kv_dead kv) (kv_enableLogging kv)
        (response kv ++ [mkResponse c EmptyString]) (upd (seq kv)) m)
  end.

(** The loop on a sequence of messages. *)
Abbreviation replay := (apply_all readApply).

(** What a client can see of a server. *)
#[export] Program Instance KV_service :
    Service KVCommand KVServer (list Response * gmap Z Z * gmap string string) := {|
  svc_apply := readApply;
  svc_view kv := (response kv, seq kv, kv_m kv);
|}.
Next Obligation.
  intros c kv1 kv2 [= H1 H2 H3]. unfold readApply. destruct (parseId _) as [[cid s]|]; simpl; [|done].
  destruct (kc_Command c); simpl; by rewrite H1, H2, H3.
Qed.

Section server.
Context {codec : StateCodec KVCommand}.

Definition StartKVServer (npeers : nat) (me : Z) (persister : Persister) :
    option (KVServer * list (Effect KVCommand)) :=
  '(rf, es) ← Make npeers me persister;
  Some (mkKVServer me rf 0 1 [] ∅ ∅, es).

(** The proposal both handlers start with: the index to wait for, or
    [NOT_LEADER]. *)
Definition kv_propose (r : Request) (kv : KVServer) :
    option (option Z * KVServer * list (Effect KVCommand)) :=
  '(index, _, isLeader, rf, es) ← Proposal (mkKVCommand (kv_me kv) r) (kv_rf kv);
  let kv := mkKVServer (kv_me kv) rf (kv_dead kv) (kv_enableLogging kv) (response kv) (seq kv) (kv_m kv) in
  Some (if decide (index = -1 ∨ isLeader = false) then None else Some index, kv, es).
End server.

(** One pass of the waiting loop: the reply, or [None] to sleep. *)
Definition poll_get (args : GetArgs) (index : Z) (kv : KVServer) : option GetReply :=
  if decide (len (response kv) > index) then
    r ← go_index (response kv) index;
    Some match kc_Command (r_command r) with
         | RGet c =>
             if decide (ga_Key c ≠ ga_Key args) then mkGetReply "try again" EmptyString
             else mkGetReply EmptyString (r_value r)
         | RPutAppend _ => mkGetReply "try again" EmptyString
         end
  else None.

Definition poll_put (args : PutAppendArgs) (index : Z) (kv : KVServer) : option PutAppendReply :=
  if decide (len (response kv) > index) then
    r ← go_index (response kv) index;
    Some match kc_Command (r_command r) with
         | RPutAppend c =>
             if decide (pa_Key c ≠ pa_Key args ∨ pa_Value c ≠ pa_Value args ∨ pa_Op c ≠ pa_Op args)
             then mkPutAppendReply "try again" else mkPutAppendReply EmptyString
         | RGet _ => mkPutAppendReply "try again"
         end
  else None.

(** The loop: [obs k] is the server the [k]-th pass sees; after the sixth pass
    [count] is 6 and the handler gives up. *)
Fixpoint await {R} (poll : KVServer → option R) (timeout : R) (obs : nat → KVServer) (k passes : nat) : R :=
  match passes with
  | O => timeout
  | S passes => match poll (obs k) with
                | Some r => r
                | None => await poll timeout obs (S k) passes
                end
  end.

Section handlers.
Context {codec : StateCodec KVCommand}.

(** The handlers: the reply, the server after the proposal and the calls. *)
Definition Get (args : GetArgs) (kv : KVServer) (obs : nat → KVServer) :
    option (GetReply * KVServer * list (Effect KVCommand)) :=
  '(index, kv, es) ← kv_propose (RGet args) kv;
  Some (match index with
        | None => mkGetReply NOT_LEADER EmptyString
        | Some index => await (poll_get args index) (mkGetReply "timeout" EmptyString) obs 0 6
        end, kv, es).

Definition PutAppend (args : PutAppendArgs) (kv : KVServer) (obs : nat → KVServer) :
    option (PutAppendReply * KVServer * list (Effect KVCommand)) :=
  '(index, kv, es) ← kv_propose (RPutAppend args) kv;
  Some (match index with
        | None => mkPutAppendReply NOT_LEADER
        | Some index => await (poll_put args index) (mkPutAppendReply "timeout") obs 0 6
        end, kv, es).
End handlers.

Definition kv_Kill (kv : KVServer) : KVServer :=
  mkKVServer (kv_me kv) (Kill (kv_rf kv)) 1 (kv_enableLogging kv) (response kv) (seq kv) (kv_m kv).
Definition kv_killed (kv : KVServer) : bool := bool_decide (kv_dead kv = 1).

(** ** The clerk *)
Record Clerk := mkClerk { ck_me : Z; ck_seq : Z }.

(** [nrand] draws from [0, 2^62): the draw is an argument. *)
Definition MakeClerk (draw : Z) : Clerk := mkClerk draw 0.

Definition getId (ck : Clerk) : string * Clerk :=
  let ck := mkClerk (ck_me ck) (wrap64 (ck_seq ck + 1)) in
  (Itoa (ck_me ck) +:+ String "#" (Itoa (ck_seq ck)), ck).

(** The retry loops: [replies] are the outcomes of the successive calls, [None]
    when the network lost one. *)
Fixpoint first_get (replies : list (option GetReply)) : option string :=
  match replies with
  | [] => None
  | Some r :: replies => if decide (gr_Err r = EmptyString) then Some (gr_Value r) else first_get replies
  | None :: replies => first_get replies
  end.

Fixpoint first_put (replies : list (option PutAppendReply)) : bool :=
  match replies with
  | [] => false
  | Some r :: replies => if decide (par_Err r = EmptyString) then true else first_put replies
  | None :: replies => first_put replies
  end.

Definition Clerk_Get (key : string) (ck : Clerk) (replies : GetArgs → list (option GetReply)) :
    option string * GetArgs * Clerk :=
  let '(id, ck) := getId ck in
  let args := mkGetArgs key id in (first_get (replies args), args, ck).

Definition Clerk_PutAppend (key value op : string) (ck : Clerk)
    (replies : PutAppendArgs → list (option PutAppendReply)) : bool * PutAppendArgs * Clerk :=
  let '(id, ck) := getId ck in
  let args := mkPutAppendArgs key value op id in (first_put (replies args), args, ck).

Definition Clerk_Put key value ck replies := Clerk_PutAppend key value "Put" ck replies.
Definition Clerk_Append key value ck replies := Clerk_PutAppend key value "Append" ck replies.

(** ** Request ids *)
Lemma parseId_hash a b : (∀ c, In c (list_ascii_of_string a) → c ≠ "#"%char) →
  (∀ c, In c (list_ascii_of_string b) → c ≠ "#"%char) →
  parseId (a +:+ String "#" b) = Some (Atoi a, Atoi b).
Proof. intros Ha Hb. unfold parseId. by rewrite Split_app, Split_no_sep. Qed.

Lemma parseId_id me s : in64 me → in64 s → parseId (Itoa me +:+ String "#" (Itoa s)) = Some (me, s).
Proof.
  intros. rewrite parseId_hash by (intros; by eapply Itoa_no_hash). by rewrite !Atoi_Itoa.
Qed.

(** ** What a replayed log leaves behind *)
Section replay.
Implicit Types kv : KVServer.
Implicit Types log : list KVCommand.

Definition kv_init (me : Z) (rf : OmniPaxos KVCommand) : KVServer := mkKVServer me rf 0 1 [] ∅ ∅.

Definition command_id (c : KVCommand) : option (Z * Z) := parseId (request_id (kc_Command c)).

Lemma readApply_response c kv kv' : readApply c kv = Some kv' →
  ∃ v, response kv' = response kv ++ [mkResponse c v] ∧
    ∀ a, kc_Command c = RGet a → v = get_val (kv_m kv) (ga_Key a).
Proof.
  unfold readApply. intros ([cid s] & _ & H)%bind_Some.
  destruct (kc_Command c) as [a|a] eqn:Hc; injection H as <-; simpl; eexists; (split; [done|]); naive_solver.
Qed.

(** One response per message, in order, with the command of the message. *)
Lemma replay_response log me rf kv : replay log (kv_init me rf) = Some kv → r_command <$> response kv = log.
Proof.
  revert kv. induction log as [|c log IH] using rev_ind; intros kv.
  - by intros [= <-].
  - intros (kv1 & H1 & H2)%apply_all_snoc. destruct (readApply_response _ _ _ H2) as (v & -> & _).
    rewrite fmap_app, (IH _ H1). done.
Qed.

(** The response to message [i] is computed on the first [i] messages. *)
Lemma replay_lookup log me rf kv i r : replay log (kv_init me rf) = Some kv → response kv !! i = Some r →
  ∃ kv0, replay (take i log) (kv_init me rf) = Some kv0 ∧ log !! i = Some (r_command r) ∧
    ∀ a, kc_Command (r_command r) = RGet a → r_value r = get_val (kv_m kv0) (ga_Key a).
Proof.
  revert kv i r. induction log as [|c log IH] using rev_ind; intros kv i r.
  - intros [= <-]. done.
  - intros (kv1 & H1 & H2)%apply_all_snoc Hi. pose proof (replay_response _ _ _ _ H1) as Hlen.
    apply (f_equal length) in Hlen. rewrite length_fmap in Hlen.
    destruct (readApply_response _ _ _ H2) as (v & Hr & Hv). rewrite Hr in Hi.
    apply lookup_app_Some in Hi as [Hi|[Hge Hi]].
    + destruct (IH _ _ _ H1 Hi) as (kv0 & Hkv0 & Hl & Ha). pose proof (lookup_lt_Some _ _ _ Hi).
      exists kv0. rewrite take_app_le by lia. split; [done|]. split; [by apply lookup_app_l_Some|done].
    + apply list_lookup_singleton_Some in Hi as [Hz <-]. assert (i = length log) as -> by lia.
      exists kv1. rewrite take_app_length. split; [done|]. split; [by rewrite list_lookup_middle|].
      simpl. exact Hv.
Qed.

End replay.

(** ** Exactly-once execution *)
Section once.
Implicit Types log : list KVCommand.

(** The effect of a request on the store, executed unconditionally. *)
Definition exec (m : gmap string string) (c : KVCommand) : gmap string string :=
  match kc_Command c with RGet _ => m | RPutAppend a => exec_put a m end.

Lemma readApply_inv c kv kv' : readApply c kv = Some kv' →
  ∃ cid s, command_id c = Some (cid, s) ∧
    seq kv' = (if decide (get_seq (seq kv) cid < s) then <[cid := s]> (seq kv) else seq kv) ∧
    kv_m kv' = (if decide (get_seq (seq kv) cid < s) then exec (kv_m kv) c else kv_m kv).
Proof.
  unfold readApply, command_id, exec. intros ([cid s] & Hid & H)%bind_Some. exists cid, s.
  split; [done|]. destruct (kc_Command c); injection H as <-; simpl; [|done].
  split; [done|]. by case_decide.
Qed.

Lemma readApply_total c kv : is_Some (command_id c) → is_Some (readApply c kv).
Proof.
  intros [[cid s] Hid]. unfold readApply, command_id in *. rewrite Hid. simpl.
  destruct (kc_Command c); by eexists.
Qed.

Lemma replay_once log me rf : (∀ c, c ∈ log → is_Some (command_id c)) → clerk_order command_id log →
  ∃ kv, replay log (kv_init me rf) = Some kv ∧ seq_max command_id log (seq kv) ∧ kv_m kv = foldl exec ∅ (once command_id ∅ log).
Proof.
  induction log as [|c log IH] using rev_ind; intros Hid Hord.
  - eexists. split; [done|]. split; [|done]. intros cid. split; [set_solver|by left].
  - destruct IH as (kv1 & H1 & Hmax & Hm); [set_solver|by eapply (clerk_order_app command_id)|].
    destruct (readApply_total c kv1) as [kv2 H2]; [apply Hid; set_solver|].
    destruct (readApply_inv _ _ _ H2) as (cid & s & Hc & Hseq & Hm2).
    exists kv2. split; [by apply apply_all_snoc; eauto|]. split; [rewrite Hseq; by apply (seq_max_snoc command_id)|].
    rewrite Hm2, (once_snoc _ _ _ _ _ Hc), foldl_app, <-Hm.
    pose proof (fresh_iff _ _ _ _ _ _ Hord Hmax Hc) as Hf.
    destruct (decide (get_seq (seq kv1) cid < s)); [rewrite decide_False by set_solver; done|].
    rewrite decide_True; [done|]. right. destruct (decide ((cid, s) ∈ ids command_id log)); tauto.
Qed.
End once.

(** ** A server over a peer of a replica group *)
Definition demo_append (id : string) : PutAppendArgs := mkPutAppendArgs "k" "x" "Append" id.
Definition demo_command (id : string) : KVCommand := mkKVCommand 1 (RPutAppend (demo_append id)).

(** Peer 1 is elected, decides one [Append], crashes, and is elected again: it
    leads in the phase [PREPARE]. *)
Definition reelect : list (event KVCommand) :=
  elect ++ [Propose 1 (demo_command "5#1")] ++ replicate 7 deliver ++
  [Restart 1; Timer 1] ++ replicate 4 deliver ++ [Timer 1] ++ replicate 7 deliver ++ [Timer 1].
Definition reelect_cluster : cluster KVCommand := default (init_cluster 3) (ordered_run reelect (init_cluster 3)).

Lemma reelect_run : ordered_run reelect (init_cluster 3) = Some reelect_cluster.
Proof. vm_compute. reflexivity. Qed.

Lemma reelect_ordered : ordered_reachable 3 reelect_cluster.
Proof. eapply ordered_run_reachable; [constructor | exact reelect_run]. Qed.

(** A fresh peer, for replays that do not involve the network. *)
Definition demo_rf : OmniPaxos KVCommand :=
  mkOP 3 1 MakePersister 0 0 (mkBallot 0 0) ∅ None [0; 0; 0] [] zeroState 0 (mkBallot 0 1) true ∅
    (mkState FOLLOWER PREPARE) false ∅ 0.

(** The server over peer [i] that has consumed every decided message. *)
Definition server_over (c : cluster KVCommand) (i : Z) : option KVServer :=
  op ← nodes c !! i; replay (decided_prefix op) (kv_init i op).

(** ** The theorems *)

(** C6 Exactly-once: replaying a log in which each client's requests enter in
    order, however often each is retried, leaves the store that executing the
    first occurrence of every request once leaves; no valid id makes the loop
    panic. *)
Theorem exactly_once log me rf :
  (∀ c, c ∈ log → is_Some (command_id c)) → clerk_order command_id log →
  ∃ kv, replay log (kv_init me rf) = Some kv ∧ kv_m kv = foldl exec ∅ (once command_id ∅ log).
Proof. intros Hid Hord. destruct (replay_once log me rf Hid Hord) as (kv & ? & _ & ?). by exists kv. Qed.

Lemma exactly_once_witness :
  let log := [demo_command "5#1"; demo_command "5#1"; demo_command "5#2"; demo_command "5#1"] in
  ∃ kv, replay log (kv_init 1 demo_rf) = Some kv ∧ kv_m kv = foldl exec ∅ (once command_id ∅ log).
Proof.
  intros log. apply exactly_once.
  - intros c Hc. repeat (apply elem_of_cons in Hc as [->|Hc]; [by eexists|]). by apply not_elem_of_nil in Hc.
  - apply (clerk_order_snoc command_id [_; _; _] _ 5 1); [|done|lia|left; vm_compute; set_solver].
    apply (clerk_order_snoc command_id [_; _] _ 5 2); [|done|lia|right; vm_compute; set_solver].
    apply (clerk_order_snoc command_id [_] _ 5 1); [|done|lia|left; vm_compute; set_solver].
    apply (clerk_order_snoc command_id [] _ 5 1); [|done|lia|right; set_solver].
    intros pre c post cid s Hl. by destruct pre.
Defined.

(** C14 A successful [Get] answers from the committed log: the entry at the index
    the proposal returned is a read of the same key, and the value is the one
    the store has after the entries before it. *)
Theorem get_reads_log log me rf kv args index reply :
  replay log (kv_init me rf) = Some kv → poll_get args index kv = Some reply → gr_Err reply = EmptyString →
  ∃ id a kv0, log !! Z.to_nat index = Some (mkKVCommand id (RGet a)) ∧ ga_Key a = ga_Key args ∧
    replay (take (Z.to_nat index) log) (kv_init me rf) = Some kv0 ∧
    gr_Value reply = get_val (kv_m kv0) (ga_Key args).
Proof.
  intros Hr. unfold poll_get. case_decide; [|done].
  intros (r & [Hi Hl]%go_index_lookup & [= <-])%bind_Some Herr.
  destruct (replay_lookup _ _ _ _ _ _ Hr Hl) as (kv0 & Hkv0 & Hlog & Hv).
  destruct r as [[id [a|a]] v]; simpl in *; [|done]. case_decide as Hk; [done|].
  exists id, a, kv0. rewrite <-Hk. split_and!; [done..|]. by apply Hv.
Qed.

Lemma get_reads_log_witness :
  let rf := demo_rf in
  let log := [demo_command "5#1"; mkKVCommand 1 (RGet (mkGetArgs "k" "5#2")); demo_command "5#3"] in
  ∃ kv, replay log (kv_init 1 rf) = Some kv ∧
    ∃ id a kv0, log !! 1%nat = Some (mkKVCommand id (RGet a)) ∧ ga_Key a = "k"%string ∧
      replay (take 1 log) (kv_init 1 rf) = Some kv0 ∧ "x"%string = get_val (kv_m kv0) "k".
Proof.
  intros rf log. destruct (replay log (kv_init 1 rf)) as [kv|] eqn:Hkv; [|by vm_compute in Hkv].
  exists kv. split; [done|].
  apply (get_reads_log log 1 rf kv (mkGetArgs "k" "5#2") 1 (mkGetReply EmptyString "x") Hkv); [|done].
  vm_compute in Hkv. injection Hkv as <-. by vm_compute.
Defined.

(** C13 Replicas of the key/value service agree: over any ordered schedule (see
    [in_order]) of an odd number of peers, two servers that have consumed equally many messages
    have the same responses, the same sequence numbers and the same store. *)
Theorem kv_replicas_agree n (c : cluster KVCommand) i j opi opj k kvi kvj :
  Nat.Odd n → ordered_reachable n c → nodes c !! i = Some opi → nodes c !! j = Some opj →
  replica_of opi k (kv_init i opi) kvi → replica_of opj k (kv_init j opj) kvj →
  response kvi = response kvj ∧ seq kvi = seq kvj ∧ kv_m kvi = kv_m kvj.
Proof.
  intros Hodd Hr Hi Hj Hki Hkj.
  pose proof (replicas_agree n c i j opi opj k (kv_init i opi) (kv_init j opj) _ _ Hodd Hr Hi Hj eq_refl Hki Hkj) as [= ? ? ?]. done.
Qed.

Lemma kv_replicas_agree_witness : ∃ op0 op2 kv0 kv2,
  nodes reelect_cluster !! 0 = Some op0 ∧ nodes reelect_cluster !! 2 = Some op2 ∧
  kv_m kv0 = {[ "k"%string := "x"%string ]} ∧
  response kv0 = response kv2 ∧ seq kv0 = seq kv2 ∧ kv_m kv0 = kv_m kv2.
Proof.
  destruct (nodes reelect_cluster !! 0) as [op0|] eqn:H0; [|vm_compute in H0; discriminate].
  destruct (nodes reelect_cluster !! 2) as [op2|] eqn:H2; [|vm_compute in H2; discriminate].
  destruct (replay (take 1 (decided_prefix op0)) (kv_init 0 op0)) as [kv0|] eqn:K0;
    [|vm_compute in H0; injection H0 as <-; vm_compute in K0; discriminate].
  destruct (replay (take 1 (decided_prefix op2)) (kv_init 2 op2)) as [kv2|] eqn:K2;
    [|vm_compute in H2; injection H2 as <-; vm_compute in K2; discriminate].
  exists op0, op2, kv0, kv2. split; [reflexivity|]. split; [reflexivity|].
  split; [vm_compute in H0; injection H0 as <-; vm_compute in K0; injection K0 as <-; by vm_compute|].
  apply (kv_replicas_agree 3 reelect_cluster 0 2 op0 op2 1); [by exists 1%nat|apply reelect_ordered|done|done|..].
  - split; [vm_compute in H0; injection H0 as <-; vm_compute; lia|exact K0].
  - split; [vm_compute in H2; injection H2 as <-; vm_compute; lia|exact K2].
Defined.

(** C38 The clerk's ids are parsed back to its client id and the number of the
    request, for all 64-bit values. *)
Theorem getId_parseId ck : in64 (ck_me ck) →
  parseId (fst (getId ck)) = Some (ck_me ck, wrap64 (ck_seq ck + 1)) ∧
  ck_seq (snd (getId ck)) = wrap64 (ck_seq ck + 1) ∧ ck_me (snd (getId ck)) = ck_me ck.
Proof. intros Hme. split_and!; [|done..]. simpl. apply parseId_id; [done|apply wrap64_range]. Qed.

Lemma getId_parseId_witness : parseId (fst (getId (mkClerk 4611686018427387903 41))) = Some (4611686018427387903, 42).
Proof. apply (getId_parseId (mkClerk 4611686018427387903 41)). unfold in64. simpl. lia. Defined.

(** C31 A write can be acknowledged without being in any log: a leader that is
    still preparing buffers the command and [Proposal] returns the index of its
    last entry; when that entry is an earlier equal write, whose id is not
    compared, [PutAppend] reports success at once.  Nothing was sent, and
    nothing was persisted, so a crash loses the write. *)
Theorem premature_ack : ∃ c kv kv' args,
  reachable 3 c ∧ server_over c 1 = Some kv ∧
  PutAppend args kv (λ _, kv) = Some (mkPutAppendReply EmptyString, kv', []) ∧
  (∀ e, e ∈ Log (op_os (kv_rf kv')) → kc_Command e ≠ RPutAppend args) ∧
  op_persister (kv_rf kv') = op_persister (kv_rf kv).
Proof.
  destruct (server_over reelect_cluster 1) as [kv|] eqn:Hkv; [|vm_compute in Hkv; discriminate].
  exists reelect_cluster, kv. eexists _, (demo_append "5#2").
  split; [apply ordered_reachable_reachable, reelect_ordered|].
  split; [done|]. vm_compute in Hkv. injection Hkv as <-.
  split; [vm_compute; reflexivity|]. split; [|reflexivity].
  simpl. intros e ->%list_elem_of_singleton. by vm_compute.
Qed.
