(* ===== verification/ShardCtrler.v ===== *)
(** * The shard controller: a3b-sharding/shardctrler

    The configurations and the commands of common.go, the handlers, the
    rebalancing and the loop [applyCommands] of server.go one message at a time,
    and the [Clerk] of client.go. *)
From Stdlib Require Import Strings.String.
From S2P Require Import Prelude Ballot Messages Persister OmniPaxos Service.

Definition NShards : Z := 10.

Record Config := mkConfig { Num : Z; Shards : list Z; Groups : gmap Z (list string) }.

(** [Config{}] *)
Definition zeroConfig : Config := mkConfig 0 (replicate 10 0) ∅.

Definition Leave : string := "LeaveCommand".
Definition Move : string := "MoveCommand".
Definition Join : string := "JoinCommand".
Definition Query : string := "QueryCommand".

Record QueryArgs := mkQueryArgs { qa_RequestId : Z; qa_ConfNum : Z; qa_ClientId : Z }.
Record QueryReply := mkQueryReply { qr_Err : string; qr_Config : Config }.
Record JoinArgs := mkJoinArgs { ja_RequestId : Z; ja_Servers : gmap Z (list string); ja_ClientId : Z }.
Record LeaveArgs := mkLeaveArgs { la_RequestId : Z; la_GIDs : list Z; la_ClientId : Z }.
Record MoveArgs := mkMoveArgs { ma_RequestId : Z; ma_Shard : Z; ma_GID : Z; ma_ClientId : Z }.

Record Result := mkResult { res_RequestId : Z; res_Err : string; res_Config : Config; res_ClientId : Z }.
Definition zeroResult : Result := mkResult 0 EmptyString zeroConfig 0.

Definition ErrNotLeader : string := "ErrNotLeader".
Definition ErrTimeOut : string := "ErrTimeOut".
Definition LatestConfigNum : Z := -1.

Record ControllerCommand := mkCC {
  cc_Command : string;
  cc_ReqId : Z;
  cc_ClientId : Z;
  cc_Servers : gmap Z (list string);
  cc_GIDs : list Z;
  cc_Num : Z;
  cc_Shard : Z;
  cc_GID : Z;
}.

#[export] Instance Config_eq_dec : EqDecision Config.
Proof. solve_decision. Defined.
#[export] Instance CC_eq_dec : EqDecision ControllerCommand.
Proof. solve_decision. Defined.
#[export] Instance CC_countable : Countable ControllerCommand.
Proof.
  refine (inj_countable
    (λ c, [encode (cc_Command c); encode (cc_ReqId c); encode (cc_ClientId c); encode (cc_Servers c);
           encode (cc_GIDs c); encode (cc_Num c); encode (cc_Shard c); encode (cc_GID c)])
    (λ l, match l with
          | [a; b; c; d; e; f; g; h] =>
              a ← decode a; b ← decode b; c ← decode c; d ← decode d;
              e ← decode e; f ← decode f; g ← decode g; h ← decode h;
              Some (mkCC a b c d e f g h)
          | _ => None
          end) _).
  intros []. cbn beta iota delta [cc_Command cc_ReqId cc_ClientId cc_Servers cc_GIDs cc_Num cc_Shard cc_GID].
  do 8 (rewrite decode_encode; cbn [mbind option_bind]). done.
Defined.

(** The server; [sc_chans] holds the indices of [chans]. *)
Record ShardCtrler := mkSC {
  sc_me : Z;
  sc_op : OmniPaxos ControllerCommand;
  sc_dead : Z;
  curNum : Z;
  allConfs : list Config;
  sc_chans : gset Z;
  prevReq : gmap Z Z;
}.

(** ** Groups and shards

    [all] maps a group to its shards; reading an absent key gives the nil
    slice. *)
Abbreviation shard_map := (gmap Z (list Z)).
Definition at_key (all : shard_map) (k : Z) : list Z := default [] (all !! k).

(** [keys := make([]int, len(all))] and then one [append] per key: as many
    zeros as keys come before the sorted keys. *)
Definition sortedKeys (all : shard_map) : list Z :=
  let ks := (map_to_list all).*1 in
  merge_sort Z.le (replicate (length ks) 0 ++ ks).

Definition maxGroup (all : shard_map) : Z :=
  if decide (is_Some (all !! 0) ∧ len (at_key all 0) > 0) then 0
  else (foldl (λ '(max, gid) k,
          if decide (max < len (at_key all k)) then (len (at_key all k), k) else (max, gid))
          (0, 0) (sortedKeys all)).2.

(** [math.MaxUint32] *)
Definition minGroup (all : shard_map) : Z :=
  (foldl (λ '(min, gid) k,
     if decide (min > len (at_key all k) ∧ k ≠ 0) then (len (at_key all k), k) else (min, gid))
     (4294967295, 0) (sortedKeys all)).2.

(** One call of [balance]: [Done] when it returns, [Again] with the arguments of
    the recursive call, [Panic] when an index is out of range. *)
Inductive outcome (A : Type) := Done (a : A) | Again (a : A) | Panic.
Arguments Done {A} _.
Arguments Again {A} _.
Arguments Panic {A}.

Definition balance_once (all : shard_map) (shards : list Z) (d : Z) : outcome (shard_map * list Z) :=
  let max := maxGroup all in
  let min := minGroup all in
  if decide (max ≠ 0 ∧ len (at_key all max) <= d + len (at_key all min)) then Done (all, shards)
  else match at_key all max with
       | [] => Panic
       | first :: rest =>
           match go_set shards first min with
           | None => Panic
           | Some shards =>
               let all := <[max := rest]> all in
               Again (<[min := (at_key all min ++ [first])]> all, shards)
           end
       end.

(** The recursion, with fuel; [Again] when the fuel does not suffice. *)
Fixpoint balance (fuel : nat) (all : shard_map) (shards : list Z) (d : Z) : outcome (shard_map * list Z) :=
  match fuel with
  | O => Again (all, shards)
  | S fuel => match balance_once all shards d with
              | Again (all, shards) => balance fuel all shards d
              | r => r
              end
  end.

(** ** Applying commands *)

(** [getConf(num, confs)] copies configuration [num]; it also increments
    [sc.curNum]. *)
Definition getConf (num : Z) (confs : list Config) : option Config :=
  c ← go_index confs num; Some (mkConfig (wrap64 (num + 1)) (Shards c) (Groups c)).

(** The shards of every owner, appended to the entries of the new groups. *)
Definition owners (shards : list Z) (all : shard_map) : shard_map :=
  foldl (λ all i, match shards !! i with
                  | Some g => <[g := (at_key all g ++ [Z.of_nat i])]> all
                  | None => all end) all (seq 0 10).

(** The end of the three commands that make a configuration. *)
Definition push_conf (c : Config) (op : ControllerCommand) (sc : ShardCtrler) : option (Result * ShardCtrler) :=
  let sc := mkSC (sc_me sc) (sc_op sc) (sc_dead sc) (wrap64 (curNum sc + 1)) (allConfs sc ++ [c])
              (sc_chans sc) (prevReq sc) in
  conf ← go_index (allConfs sc) (curNum sc);
  Some (mkResult (cc_ReqId op) EmptyString conf (cc_ClientId op), sc).

(** [applyJoin]: the inner [option] is a panic, the outcome [Again] a [balance]
    that is still running after [fuel] calls. *)
Definition applyJoin (fuel : nat) (op : ControllerCommand) (sc : ShardCtrler) : outcome (Result * ShardCtrler) :=
  match getConf (curNum sc) (allConfs sc) with
  | None => Panic
  | Some c =>
      let groups := cc_Servers op ∪ Groups c in
      let all := owners (Shards c) ((λ _, []) <$> cc_Servers op) in
      match balance fuel all (Shards c) 1 with
      | Done (_, shards) =>
          match push_conf (mkConfig (Num c) shards groups) op sc with
          | Some r => Done r
          | None => Panic
          end
      | Again _ => Again (zeroResult, sc)
      | Panic => Panic
      end
  end.

(** [remove]: the remaining groups and their shards. *)
Definition remove (gids : list Z) (c : Config) : Config * shard_map :=
  let groups := foldl (λ m g, delete g m) (Groups c) gids in
  let all := map_imap (λ g _, Some (filter (λ i, Shards c !! Z.to_nat i = Some g) (seqZ 0 NShards))) groups in
  (mkConfig (Num c) (Shards c) groups, all).

(** [assingToMin]: the two nested loops; the inner one goes on after it moved a
    shard. *)
Definition assign_shard (st : list Z * shard_map) (ig : nat * Z) : list Z * shard_map :=
  let '(shards, all) := st in
  let '(i, gid) := ig in
  if decide (shards !! i = Some gid) then
    let min := minGroup all in
    (<[i := min]> shards,
     if decide (min ≠ 0) then <[min := (at_key all min ++ [Z.of_nat i])]> all else all)
  else st.

Definition assingToMin (gids : list Z) (shards : list Z) (all : shard_map) : list Z * shard_map :=
  foldl assign_shard (shards, all) (i ← seq 0 10; pair i <$> gids).

Definition applyLeave (op : ControllerCommand) (sc : ShardCtrler) : option (Result * ShardCtrler) :=
  c ← getConf (curNum sc) (allConfs sc);
  let '(c, all) := remove (cc_GIDs op) c in
  let '(shards, _) := assingToMin (cc_GIDs op) (Shards c) all in
  push_conf (mkConfig (Num c) shards (Groups c)) op sc.

Definition applyMove (op : ControllerCommand) (sc : ShardCtrler) : option (Result * ShardCtrler) :=
  c ← getConf (curNum sc) (allConfs sc);
  shards ← go_set (Shards c) (cc_Shard op) (cc_GID op);
  push_conf (mkConfig (Num c) shards (Groups c)) op sc.

Definition applyQuery (op : ControllerCommand) (sc : ShardCtrler) : option (Result * ShardCtrler) :=
  let num := if decide (cc_Num op = LatestConfigNum ∨ cc_Num op > curNum sc) then curNum sc else cc_Num op in
  conf ← go_index (allConfs sc) num;
  Some (mkResult (cc_ReqId op) EmptyString conf (cc_ClientId op), sc).

Definition of_option {A} (o : option A) : outcome A := match o with Some a => Done a | None => Panic end.

Definition set_prevReq (m : gmap Z Z) (sc : ShardCtrler) : ShardCtrler :=
  mkSC (sc_me sc) (sc_op sc) (sc_dead sc) (curNum sc) (allConfs sc) (sc_chans sc) m.
Definition set_chans (s : gset Z) (sc : ShardCtrler) : ShardCtrler :=
  mkSC (sc_me sc) (sc_op sc) (sc_dead sc) (curNum sc) (allConfs sc) s (prevReq sc).

(** The result of one command in [applyCommands].  [Again] when it does not get
    there: [balance] is still running, or the command is none of the four and
    the loop returns with the lock held. *)
Definition applyCommand (fuel : nat) (c : ControllerCommand) (sc : ShardCtrler) : outcome (Result * ShardCtrler) :=
  if decide (default 0 (prevReq sc !! cc_ClientId c) < cc_ReqId c) then
    let sc := set_prevReq (<[cc_ClientId c := cc_ReqId c]> (prevReq sc)) sc in
    if decide (cc_Command c = Leave) then of_option (applyLeave c sc)
    else if decide (cc_Command c = Join) then applyJoin fuel c sc
    else if decide (cc_Command c = Query) then of_option (applyQuery c sc)
    else if decide (cc_Command c = Move) then of_option (applyMove c sc)
    else Again (zeroResult, sc)
  else Done (mkResult (cc_ReqId c) EmptyString zeroConfig (cc_ClientId c), sc).

(** One iteration of [applyCommands] on message [index]: the server and what it
    sends on the channel of that index, if there is one. *)
Definition applyCommands (fuel : nat) (index : Z) (c : ControllerCommand) (sc : ShardCtrler) :
    outcome (ShardCtrler * option Result) :=
  match applyCommand fuel c sc with
  | Done (res, sc) => Done (sc, if decide (index ∈ sc_chans sc) then Some res else None)
  | Again (_, sc) => Again (sc, None)
  | Panic => Panic
  end.

(** ** The handlers *)
Section server.
Context {codec : StateCodec ControllerCommand}.

Definition sc_StartServer (npeers : nat) (me : Z) (persister : Persister) :
    option (ShardCtrler * list (Effect ControllerCommand)) :=
  '(op, es) ← Make npeers me persister;
  Some (mkSC me op 0 0 [zeroConfig] ∅ ∅, es).

(** [propose] up to the [select]: an answer, or the index whose channel it
    registered. *)
Definition propose_start (com : ControllerCommand) (sc : ShardCtrler) :
    option ((Result + Z) * ShardCtrler * list (Effect ControllerCommand)) :=
  if match prevReq sc !! cc_ClientId com with
     | Some prev => bool_decide (prev >= cc_ReqId com)
     | None => false
     end
  then Some (inl zeroResult, sc, [])
  else
    '(i, _, l, op, es) ← Proposal com (sc_op sc);
    let sc := mkSC (sc_me sc) op (sc_dead sc) (curNum sc) (allConfs sc) (sc_chans sc) (prevReq sc) in
    if (l : bool) then Some (inr i, set_chans ({[i]} ∪ sc_chans sc) sc, es)
    else Some (inl (mkResult 0 ErrNotLeader zeroConfig 0), sc, es).

(** The [select]: [received] is the result that arrived on the channel, or
    [None] when the timer fired first. *)
Definition propose_select (com : ControllerCommand) (received : option Result) : Result :=
  match received with
  | Some res =>
      if decide (res_ClientId res ≠ cc_ClientId com ∨ res_RequestId res ≠ cc_ReqId com)
      then mkResult (res_RequestId res) ErrNotLeader (res_Config res) (res_ClientId res) else res
  | None => mkResult 0 ErrTimeOut zeroConfig 0
  end.

(** [propose]: [mid] is what the other goroutines do to the server meanwhile. *)
Definition propose (com : ControllerCommand) (received : option Result) (mid : ShardCtrler → ShardCtrler)
    (sc : ShardCtrler) : option (Result * ShardCtrler * list (Effect ControllerCommand)) :=
  '(r, sc, es) ← propose_start com sc;
  Some match r : Result + Z with
       | inl res => (res, sc, es)
       | inr i => let sc := mid sc in
                  (propose_select com received, set_chans (sc_chans sc ∖ {[i]}) sc, es)
       end.

Definition join_command (args : JoinArgs) : ControllerCommand :=
  mkCC Join (ja_RequestId args) (ja_ClientId args) (ja_Servers args) [] 0 0 0.
Definition leave_command (args : LeaveArgs) : ControllerCommand :=
  mkCC Leave (la_RequestId args) (la_ClientId args) ∅ (la_GIDs args) 0 0 0.
Definition move_command (args : MoveArgs) : ControllerCommand :=
  mkCC Move (ma_RequestId args) (ma_ClientId args) ∅ [] 0 (ma_Shard args) (ma_GID args).
Definition query_command (args : QueryArgs) : ControllerCommand :=
  mkCC Query (qa_RequestId args) (qa_ClientId args) ∅ [] (qa_ConfNum args) 0 0.

Definition sc_Join args received mid sc : option (string * ShardCtrler * list (Effect ControllerCommand)) :=
  '(res, sc, es) ← propose (join_command args) received mid sc; Some (res_Err res, sc, es).
Definition sc_Leave args received mid sc : option (string * ShardCtrler * list (Effect ControllerCommand)) :=
  '(res, sc, es) ← propose (leave_command args) received mid sc; Some (res_Err res, sc, es).
Definition sc_Move args received mid sc : option (string * ShardCtrler * list (Effect ControllerCommand)) :=
  '(res, sc, es) ← propose (move_command args) received mid sc; Some (res_Err res, sc, es).
Definition sc_Query args received mid sc : option (QueryReply * ShardCtrler * list (Effect ControllerCommand)) :=
  '(res, sc, es) ← propose (query_command args) received mid sc;
  Some (mkQueryReply (res_Err res) (res_Config res), sc, es).
End server.

Definition sc_Kill (sc : ShardCtrler) : ShardCtrler :=
  mkSC (sc_me sc) (Kill (sc_op sc)) 1 (curNum sc) (allConfs sc) (sc_chans sc) (prevReq sc).
Definition sc_killed (sc : ShardCtrler) : bool := bool_decide (sc_dead sc = 1).

(** ** The clerk *)
Record Clerk := mkClerk { clientId : Z; requestId : Z }.

Definition MakeClerk (draw : Z) : Clerk := mkClerk draw 1.

(** The retry loop over the outcomes of the calls, [None] when one was lost. *)
Fixpoint first_ok {R} (err : R → string) (replies : list (option R)) : option R :=
  match replies with
  | [] => None
  | Some r :: replies => if decide (err r = EmptyString) then Some r else first_ok err replies
  | None :: replies => first_ok err replies
  end.

Definition next_request (ck : Clerk) : Clerk := mkClerk (clientId ck) (wrap64 (requestId ck + 1)).

Definition Clerk_Query (num : Z) (ck : Clerk) (replies : QueryArgs → list (option QueryReply)) :
    option (Config * Clerk) :=
  r ← first_ok qr_Err (replies (mkQueryArgs (requestId ck) num (clientId ck)));
  Some (qr_Config r, next_request ck).
Definition Clerk_Join (servers : gmap Z (list string)) (ck : Clerk) (replies : JoinArgs → list (option string)) :
    option Clerk :=
  _ ← first_ok id (replies (mkJoinArgs (requestId ck) servers (clientId ck))); Some (next_request ck).
Definition Clerk_Leave (gids : list Z) (ck : Clerk) (replies : LeaveArgs → list (option string)) : option Clerk :=
  _ ← first_ok id (replies (mkLeaveArgs (requestId ck) gids (clientId ck))); Some (next_request ck).
Definition Clerk_Move (shard gid : Z) (ck : Clerk) (replies : MoveArgs → list (option string)) : option Clerk :=
  _ ← first_ok id (replies (mkMoveArgs (requestId ck) shard gid (clientId ck))); Some (next_request ck).
