(* ===== verification/ShardCtrlerInv.v ===== *)
(** * What the shard controller computes

    [maxGroup] and [minGroup] find a largest and a smallest group, [balance]
    terminates and evens the groups out, [Leave] moves only the shards of the
    groups that leave, and the history of configurations only grows. *)
From Stdlib Require Import Strings.String.
From S2P Require Import Prelude Ballot Messages Persister OmniPaxos Service ShardCtrler.

(** ** The largest and the smallest group *)
Section groups.
Implicit Types all : shard_map.

Lemma at_key_insert all g g' l : at_key (<[g := l]> all) g' = if decide (g = g') then l else at_key all g'.
Proof. unfold at_key. case_decide; [subst; by rewrite lookup_insert_eq|by rewrite lookup_insert_ne]. Qed.

Lemma at_key_nonempty all g : at_key all g ≠ [] → is_Some (all !! g).
Proof. unfold at_key. destruct (all !! g); [by eexists|done]. Qed.

Lemma elem_of_sortedKeys all k :
  (is_Some (all !! k) → k ∈ sortedKeys all) ∧ (k ∈ sortedKeys all → k ≠ 0 → is_Some (all !! k)).
Proof.
  unfold sortedKeys. rewrite merge_sort_Permutation, elem_of_app. split.
  - intros [l Hl]. right. apply list_elem_of_fmap. exists (k, l). split; [done|]. by apply elem_of_map_to_list.
  - intros [Hk|Hk] Hne; [by apply elem_of_replicate in Hk as [-> _]|].
    apply list_elem_of_fmap in Hk as ([k' l] & -> & Hl%elem_of_map_to_list). by eexists.
Qed.

(** The scan for the largest: the best length so far and its group. *)
Definition max_scan all (ks : list Z) : Z * Z :=
  foldl (λ '(max, gid) k, if decide (max < len (at_key all k)) then (len (at_key all k), k) else (max, gid))
    (0, 0) ks.

Lemma max_scan_spec all ks (m := max_scan all ks) :
  (∀ k, k ∈ ks → len (at_key all k) ≤ m.1) ∧
  (m = (0, 0) ∨ m.2 ∈ ks ∧ m.1 = len (at_key all m.2) ∧ 0 < m.1).
Proof.
  subst m. unfold max_scan. induction ks as [|k ks [IH1 IH2]] using rev_ind; [split; [set_solver|by left]|].
  rewrite foldl_snoc. destruct (foldl _ _ ks) as [m g]. simpl in *.
  assert (0 ≤ m) by (destruct IH2 as [[= -> ->]|?]; lia). case_decide; simpl.
  - split; [|right; split; [set_solver|lia]].
    intros k' [Hk%IH1| ->%list_elem_of_singleton]%elem_of_app; lia.
  - split; [|destruct IH2 as [?|?]; [by left|right; set_solver]].
    intros k' [Hk%IH1| ->%list_elem_of_singleton]%elem_of_app; lia.
Qed.

Lemma maxGroup_spec all (g := maxGroup all) :
  (at_key all 0 ≠ [] ∧ g = 0) ∨
  (at_key all 0 = [] ∧ (∀ k, len (at_key all k) ≤ len (at_key all g)) ∧
    (g = 0 → ∀ k, at_key all k = []) ∧ (g ≠ 0 → at_key all g ≠ [])).
Proof.
  subst g. unfold maxGroup. case_decide as Hz; [left; split; [|done]; destruct (at_key all 0); simpl in *; [lia|done]|right].
  assert (at_key all 0 = []) as H0.
  { unfold at_key in *. destruct (all !! 0) as [l|] eqn:Hl; [|done]. simpl in *.
    destruct l; [done|]. exfalso. apply Hz. split; [by eexists|simpl; lia]. }
  split; [done|]. change (foldl _ _ _) with (max_scan all (sortedKeys all)).
  destruct (max_scan_spec all (sortedKeys all)) as [Hle Hm].
  assert (∀ k, len (at_key all k) ≤ (max_scan all (sortedKeys all)).1) as Hle'.
  { intros k. destruct (decide (at_key all k = [])) as [->|Hk]; [simpl; destruct Hm as [->|Hm]; simpl; lia|].
    apply Hle, elem_of_sortedKeys. by apply at_key_nonempty. }
  destruct Hm as [Hm|(Hin & Hl & Hpos)].
  - rewrite Hm in *. simpl in *. assert (∀ k, at_key all k = []) as Hnil.
    { intros k. specialize (Hle' k). destruct (at_key all k); [done|simpl in Hle'; lia]. }
    split_and!; [intros k; by rewrite Hnil, Hnil|done|done].
  - split_and!.
    + intros k. rewrite <-Hl. done.
    + intros Hg. rewrite Hg in *. rewrite H0 in Hl. simpl in Hl. lia.
    + intros _ Hnil. rewrite Hnil in Hl. simpl in Hl. lia.
Qed.

(** The scan for the smallest group other than 0. *)
Definition min_scan all (ks : list Z) : Z * Z :=
  foldl (λ '(min, gid) k, if decide (min > len (at_key all k) ∧ k ≠ 0) then (len (at_key all k), k) else (min, gid))
    (4294967295, 0) ks.

Lemma min_scan_spec all ks (m := min_scan all ks) :
  (∀ k, k ∈ ks → k ≠ 0 → m.1 ≤ len (at_key all k)) ∧
  (m = (4294967295, 0) ∨ m.2 ∈ ks ∧ m.2 ≠ 0 ∧ m.1 = len (at_key all m.2)).
Proof.
  subst m. unfold min_scan. induction ks as [|k ks [IH1 IH2]] using rev_ind; [split; [set_solver|by left]|].
  rewrite foldl_snoc. destruct (foldl _ _ ks) as [m g]. simpl in *. case_decide as Hd; simpl.
  - destruct Hd. split; [|right; split; [set_solver|done]].
    intros k' [Hk| ->%list_elem_of_singleton]%elem_of_app Hne; [specialize (IH1 _ Hk Hne)|]; lia.
  - split; [|destruct IH2 as [?|?]; [by left|right; set_solver]].
    intros k' [Hk| ->%list_elem_of_singleton]%elem_of_app Hne; [by apply IH1|].
    destruct (decide (m > len (at_key all k))); [|lia]. exfalso. auto.
Qed.

(** Slices of the map are shorter than the bound the scan starts from. *)
Definition small all : Prop := ∀ k, len (at_key all k) < 4294967295.

Lemma minGroup_spec all (g := minGroup all) : small all →
  (g = 0 ∧ (∀ k, k ≠ 0 → all !! k = None)) ∨
  (g ≠ 0 ∧ is_Some (all !! g) ∧ ∀ k, k ≠ 0 → is_Some (all !! k) → len (at_key all g) ≤ len (at_key all k)).
Proof.
  intros Hs. subst g. unfold minGroup. change (foldl _ _ _) with (min_scan all (sortedKeys all)).
  destruct (min_scan_spec all (sortedKeys all)) as [Hle [Hm|(Hin & Hne & Hl)]].
  - left. rewrite Hm in *. simpl in *. split; [done|]. intros k Hk.
    destruct (all !! k) eqn:Ha; [|done]. exfalso.
    specialize (Hle k (proj1 (elem_of_sortedKeys all k) ltac:(by eexists)) Hk). specialize (Hs k). lia.
  - right. split; [done|]. split; [by apply elem_of_sortedKeys|].
    intros k Hk Hsome. rewrite <-Hl. apply Hle; [by apply elem_of_sortedKeys|done].
Qed.
End groups.

(** ** Rebalancing *)
Section balance.
Implicit Types all : shard_map.
Implicit Types shards : list Z.

(** The number of shards of a group. *)
Definition owned shards (g : Z) : list Z := filter (λ i, shards !! Z.to_nat i = Some g) (seqZ 0 NShards).
Definition count shards (g : Z) : nat := length (owned shards g).

(** [all] lists the shards of every group. *)
Record partition all shards : Prop := {
  pt_len : length shards = 10%nat;
  pt_in g i : i ∈ at_key all g ↔ 0 ≤ i ∧ shards !! Z.to_nat i = Some g;
  pt_nodup g : NoDup (at_key all g);
}.

Lemma elem_of_owned shards g i : length shards = 10%nat →
  i ∈ owned shards g ↔ 0 ≤ i ∧ shards !! Z.to_nat i = Some g.
Proof.
  intros Hlen. unfold owned, NShards. rewrite list_elem_of_filter, elem_of_seqZ. split; [intros [? ?]; split; [lia|done]|].
  intros [? Hi]. pose proof (lookup_lt_Some _ _ _ Hi). split; [done|lia].
Qed.

Lemma partition_count all shards g : partition all shards → length (at_key all g) = count shards g.
Proof.
  intros [Hlen Hin Hnd]. unfold count. apply Permutation_length, NoDup_Permutation; [done| |].
  - apply NoDup_filter, NoDup_seqZ.
  - intros i. by rewrite Hin, elem_of_owned.
Qed.

Lemma count_le shards g : (count shards g ≤ 10)%nat.
Proof.
  unfold count, owned. etrans; [apply length_filter|]. rewrite length_seqZ. unfold NShards. lia.
Qed.

Lemma partition_small all shards : partition all shards → small all.
Proof. intros Hp g. rewrite (partition_count _ _ _ Hp). pose proof (count_le shards g). lia. Qed.

(** Moving the first shard of [g] to [g']. *)
Lemma partition_move all shards g g' first rest :
  partition all shards → at_key all g = first :: rest →
  ∃ shards', go_set shards first g' = Some shards' ∧
    partition (<[g' := (at_key (<[g := rest]> all) g' ++ [first])]> (<[g := rest]> all)) shards'.
Proof.
  intros [Hlen Hin Hnd] Hg.
  assert (0 ≤ first ∧ shards !! Z.to_nat first = Some g) as [Hf Hs] by (apply Hin; rewrite Hg; by left).
  pose proof (lookup_lt_Some _ _ _ Hs) as Hlt.
  exists (<[Z.to_nat first := g']> shards). split; [apply go_set_Some; lia|].
  pose proof (Hnd g) as Hndg. rewrite Hg in Hndg. apply NoDup_cons in Hndg as [Hfr Hndr].
  assert (∀ h, at_key (<[g := rest]> all) h = filter (λ i, i ≠ first) (at_key all h)) as Hat.
  { intros h. rewrite at_key_insert. case_decide as Hh; [subst h; rewrite Hg|].
    - rewrite filter_cons_False by auto. symmetry. apply filter_all. by intros x Hx ->.
    - symmetry. apply filter_all. intros x Hx%Hin ->. destruct Hx as [_ Hx]. congruence. }
  split.
  - by rewrite length_insert.
  - intros h i. rewrite at_key_insert. 
    assert (i ∈ at_key (<[g:=rest]> all) h ↔ i ≠ first ∧ 0 ≤ i ∧ shards !! Z.to_nat i = Some h) as Hh.
    { rewrite Hat, list_elem_of_filter, Hin. tauto. }
    destruct (decide (i = first)) as [->|Hne].
    + rewrite list_lookup_insert_eq by done. case_decide as He; [subst h|].
      * split; [done|]. intros _. apply elem_of_app. right. by apply list_elem_of_singleton.
      * rewrite Hh. split; [by intros [? _]|]. intros [_ [= ?]]. done.
    + destruct (decide (0 ≤ i)) as [Hi|Hi].
      * rewrite list_lookup_insert_ne by lia. case_decide as He; [subst h|].
        -- rewrite elem_of_app, Hh, list_elem_of_singleton. tauto.
        -- rewrite Hh. tauto.
      * split; [|lia]. case_decide as He; [subst h|].
        -- rewrite elem_of_app, Hh, list_elem_of_singleton. tauto.
        -- rewrite Hh. tauto.
  - intros h. rewrite at_key_insert. case_decide; [subst h|].
    + apply NoDup_app. split_and!; [rewrite Hat; by apply NoDup_filter| |apply NoDup_singleton].
      intros i. rewrite Hat, list_elem_of_filter, list_elem_of_singleton. by intros [? _] ->.
    + rewrite Hat. by apply NoDup_filter.
Qed.

(** The measure of the recursion: a shard without a group weighs 22, the other
    groups weigh the squares of their sizes. *)
Definition group_weight (p : Z * list Z) : nat :=
  if decide (p.1 = 0) then (22 * length p.2)%nat else (length p.2 * length p.2)%nat.
Definition weight all : nat := sum_list_with group_weight (map_to_list all).

Lemma weight_insert all g l l' : all !! g = Some l →
  (weight (<[g := l']> all) + group_weight (g, l) = weight all + group_weight (g, l'))%nat.
Proof.
  intros Hg. unfold weight.
  assert (∀ x, sum_list_with group_weight (map_to_list (<[g := x]> all)) =
    (group_weight (g, x) + sum_list_with group_weight (map_to_list (delete g all)))%nat) as Hw.
  { intros x. rewrite <-(insert_delete_eq all g x).
    rewrite (sum_list_with_Permutation_proper group_weight _ _ (map_to_list_insert (delete g all) g x (lookup_delete_eq _ _))). done. }
  rewrite Hw. rewrite <-(insert_id all g l Hg) at 2. rewrite Hw. lia.
Qed.

(** Some group other than 0 is in play. *)
Definition some_group all : Prop := ∃ g, g ≠ 0 ∧ is_Some (all !! g).

(** The groups in play are within [d] of one another and the invalid group 0
    has no shard. *)
Definition even all (d : Z) : Prop :=
  at_key all 0 = [] ∧ ∀ g g', g' ≠ 0 → is_Some (all !! g') → len (at_key all g) ≤ d + len (at_key all g').

Lemma partition_some_shard all shards : partition all shards → ∃ g, at_key all g ≠ [].
Proof.
  intros [Hlen Hin _]. destruct (lookup_lt_is_Some_2 shards 0) as [g Hg]; [lia|].
  exists g. assert (0 ∈ at_key all g) as H0 by (by apply Hin). by destruct (at_key all g); [apply not_elem_of_nil in H0|].
Qed.

Lemma balance_once_spec all shards d : 1 ≤ d → partition all shards → some_group all →
  (balance_once all shards d = Done (all, shards) ∧ even all d) ∨
  ∃ all' shards', balance_once all shards d = Again (all', shards') ∧ partition all' shards' ∧
    (weight all' < weight all)%nat ∧ ∀ g, is_Some (all' !! g) ↔ is_Some (all !! g).
Proof.
  intros Hd Hp (g0 & Hg0 & Hs0). pose proof (partition_small _ _ Hp) as Hsm. unfold balance_once.
  destruct (minGroup_spec all Hsm) as [[_ Hnone]|(Hmin & Hminin & Hminle)].
  { destruct Hs0 as [l Hl]. by rewrite Hnone in Hl. }
  set (m := minGroup all) in *. set (M := maxGroup all) in *.
  assert ((at_key all 0 ≠ [] ∧ M = 0) ∨
    (at_key all 0 = [] ∧ M ≠ 0 ∧ at_key all M ≠ [] ∧ ∀ k, len (at_key all k) ≤ len (at_key all M))) as HM.
  { destruct (maxGroup_spec all) as [?|(H0 & Hle & Hz & Hnz)]; [by left|right].
    assert (M ≠ 0) as HMz.
    { intros HMz. destruct (partition_some_shard _ _ Hp) as [g Hg]. by apply Hg, Hz. }
    split_and!; auto. }
  case_decide as Hdone.
  - left. split; [done|]. destruct Hdone as [HMz Hle]. destruct HM as [[_ ?]|(H0 & _ & _ & Hmax)]; [done|].
    split; [done|]. intros g g' Hg' Hin. specialize (Hmax g). specialize (Hminle g' Hg' Hin). lia.
  - right. assert (at_key all M ≠ []) as HMne by (destruct HM as [[? ->]|(_ & _ & ? & _)]; done).
    destruct (at_key all M) as [|first rest] eqn:HatM; [done|].
    destruct (partition_move all shards M m first rest Hp HatM) as (shards' & -> & Hp').
    assert (M ≠ m) as HMm.
    { intros He. destruct HM as [[_ HM]|(_ & HMz & _ & _)]; [congruence|].
      apply Hdone. split; [done|]. rewrite <-He, HatM. lia. }
    assert (is_Some (all !! M)) as [lM HlM] by (apply at_key_nonempty; by rewrite HatM).
    destruct Hminin as [lm Hlm].
    assert (lM = first :: rest) as -> by (unfold at_key in HatM; by rewrite HlM in HatM).
    assert (at_key all m = lm) as Hatm by (unfold at_key; by rewrite Hlm).
    eexists _, shards'. split; [reflexivity|]. split; [done|]. split.
    + assert (at_key (<[M := rest]> all) m = lm) as -> by (rewrite at_key_insert, decide_False by done; done).
      pose proof (weight_insert all M _ rest HlM) as H1.
      pose proof (weight_insert (<[M := rest]> all) m lm (lm ++ [first])) as H2.
      rewrite lookup_insert_ne in H2 by done. specialize (H2 Hlm).
      unfold group_weight in H1, H2. simpl in H1, H2. rewrite length_app in H2. simpl in H2.
      rewrite (decide_False (P := m = 0)) in H2 by done. rewrite (decide_False (P := m = 0)) in H2 by done.
      pose proof (count_le shards m) as Hc. rewrite <-(partition_count _ _ _ Hp), Hatm in Hc.
      destruct HM as [[_ HMz]|(_ & HMz & _ & _)].
      * rewrite !decide_True in H1 by done. nia.
      * rewrite !decide_False in H1 by done. rewrite Hatm in Hdone. simpl in Hdone.
        assert (Z.of_nat (S (length rest)) > d + len lm) by (destruct (decide (Z.of_nat (S (length rest)) ≤ d + len lm)); [exfalso; apply Hdone; by split|lia]).
        nia.
    + intros g. rewrite !lookup_insert_is_Some'. split; [intros [<-|[<-|?]]; [by eexists..|done]|by auto].
Qed.

(** [balance] returns, whatever the fuel beyond the weight, and evens out. *)
Lemma balance_spec fuel all shards d : 1 ≤ d → partition all shards → some_group all → (weight all < fuel)%nat →
  ∃ all' shards', balance fuel all shards d = Done (all', shards') ∧ partition all' shards' ∧ even all' d ∧
    ∀ g, is_Some (all' !! g) ↔ is_Some (all !! g).
Proof.
  intros Hd. revert all shards. induction fuel as [|fuel IH]; intros all shards Hp Hg Hf; [lia|].
  simpl. destruct (balance_once_spec all shards d) as [[-> He]|(all' & shards' & -> & Hp' & Hw & Hdom)];
    [done|done|done| |].
  - by exists all, shards.
  - destruct (IH all' shards') as (all2 & sh2 & Hb & Hp2 & He2 & Hdom2); [done| |lia|].
    + destruct Hg as (g & Hg & Hs). exists g. split; [done|]. by apply Hdom.
    + exists all2, sh2. split_and!; [done..|]. intros g. by rewrite Hdom2.
Qed.

(** More fuel does not change what a call that returned computed. *)
Lemma balance_mono fuel fuel' all shards d r :
  balance fuel all shards d = Done r → (fuel ≤ fuel')%nat → balance fuel' all shards d = Done r.
Proof.
  revert fuel' all shards. induction fuel as [|fuel IH]; intros fuel' all shards Hb Hf; [done|].
  destruct fuel' as [|fuel']; [lia|]. simpl in *.
  destruct (balance_once all shards d) as [|[all' shards']|]; [done| |done]. apply IH; [done|lia].
Qed.

(** The map [applyJoin] starts from: the new groups and the current owners. *)
Lemma owners_spec shards all :
  length shards = 10%nat → (∀ g, at_key all g = []) → partition (owners shards all) shards ∧
  ∀ g, is_Some (owners shards all !! g) ↔ is_Some (all !! g) ∨ g ∈ shards.
Proof.
  intros Hlen Hnil.
  assert (∀ k, (k ≤ 10)%nat → let all' := foldl (λ all i, match shards !! i with
      | Some g => <[g := (at_key all g ++ [Z.of_nat i])]> all | None => all end) all (seq 0 k) in
    (∀ g, at_key all' g = Z.of_nat <$> filter (λ i, shards !! i = Some g) (seq 0 k)) ∧
    ∀ g, is_Some (all' !! g) ↔ is_Some (all !! g) ∨ g ∈ take k shards) as Hk.
  { induction k as [|k IH]; intros Hk10; cbv zeta.
    - split; [intros g; by rewrite Hnil|]. intros g. simpl. set_solver.
    - destruct IH as [IH1 IH2]; [lia|]. rewrite seq_S, foldl_snoc, Nat.add_0_l.
      set (al := foldl _ all (seq 0 k)) in *.
      destruct (lookup_lt_is_Some_2 shards k) as [h Hh]; [lia|]. rewrite Hh. split.
      + intros g. rewrite at_key_insert, filter_app, fmap_app. case_decide as Hg.
        * subst h. rewrite IH1. f_equal. by rewrite filter_cons_True.
        * rewrite filter_cons_False by congruence. by rewrite app_nil_r.
      + intros g. rewrite lookup_insert_is_Some', IH2, (take_S_r _ _ _ Hh), elem_of_app, list_elem_of_singleton.
        naive_solver. }
  destruct (Hk 10%nat) as [H1 H2]; [lia|]. fold (owners shards all) in H1, H2. split.
  - split; [done| |].
    + intros g i. rewrite H1, list_elem_of_fmap. setoid_rewrite list_elem_of_filter. setoid_rewrite elem_of_seq. split.
      * intros (j & -> & Hj & ?). split; [lia|]. by rewrite Nat2Z.id.
      * intros [Hi Hs]. exists (Z.to_nat i). pose proof (lookup_lt_Some _ _ _ Hs). split; [lia|]. split; [done|lia].
    + intros g. rewrite H1. apply NoDup_fmap_2; [intros ??; lia|]. apply NoDup_filter, NoDup_seq.
  - intros g. rewrite H2. by rewrite take_ge by lia.
Qed.
End balance.

(** ** The history of configurations *)
Section history.
Implicit Types sc : ShardCtrler.

(** Configuration [k] has number [k] and [NShards] entries; the last one is the
    current one. *)
Record sc_wf sc : Prop := {
  sw_cur : 0 ≤ curNum sc;
  sw_len : len (allConfs sc) = curNum sc + 1;
  sw_conf k c : allConfs sc !! k = Some c → Num c = Z.of_nat k ∧ length (Shards c) = 10%nat;
}.

(** One more configuration does not overflow the counter. *)
Definition room sc : Prop := curNum sc + 1 < 2 ^ 63.

Definition extend (c : Config) sc : ShardCtrler :=
  mkSC (sc_me sc) (sc_op sc) (sc_dead sc) (curNum sc + 1) (allConfs sc ++ [c]) (sc_chans sc) (prevReq sc).

Definition latest sc : Config := default zeroConfig (last (allConfs sc)).

Lemma latest_lookup sc : sc_wf sc → allConfs sc !! Z.to_nat (curNum sc) = Some (latest sc).
Proof.
  intros [H0 Hlen _]. unfold latest. rewrite last_lookup.
  replace (pred (length (allConfs sc))) with (Z.to_nat (curNum sc)) by lia.
  destruct (lookup_lt_is_Some_2 (allConfs sc) (Z.to_nat (curNum sc))) as [c ->]; [lia|done].
Qed.

Lemma latest_wf sc : sc_wf sc → Num (latest sc) = curNum sc ∧ length (Shards (latest sc)) = 10%nat.
Proof.
  intros Hw. pose proof (latest_lookup _ Hw) as Hl. destruct (sw_conf _ Hw _ _ Hl) as [-> ?].
  pose proof (sw_cur _ Hw). split; [lia|done].
Qed.

Lemma getConf_latest sc : sc_wf sc → room sc →
  getConf (curNum sc) (allConfs sc) = Some (mkConfig (curNum sc + 1) (Shards (latest sc)) (Groups (latest sc))).
Proof.
  intros Hw Hr. unfold getConf. pose proof (sw_cur _ Hw).
  rewrite (proj2 (go_index_lookup _ _ (latest sc))); [|split; [done|by apply latest_lookup]].
  simpl. rewrite wrap64_id; [done|]. unfold in64, room in *. lia.
Qed.

Lemma extend_wf c sc : sc_wf sc → Num c = curNum sc + 1 → length (Shards c) = 10%nat → sc_wf (extend c sc).
Proof.
  intros [H0 Hlen Hc] Hn Hs. split; simpl; [lia|rewrite length_app; simpl; lia|].
  intros k c' [Hk|[Hge Hk]]%lookup_app_Some; [by apply Hc|].
  apply list_lookup_singleton_Some in Hk as [Hz <-]. split; [lia|done].
Qed.

Lemma push_conf_Some c op sc : sc_wf sc → room sc →
  push_conf c op sc = Some (mkResult (cc_ReqId op) EmptyString c (cc_ClientId op), extend c sc).
Proof.
  intros [H0 Hlen _] Hr. unfold push_conf, room in *. simpl.
  assert (wrap64 (curNum sc + 1) = curNum sc + 1) as -> by (apply wrap64_id; unfold in64; lia).
  rewrite (proj2 (go_index_lookup _ _ c)); [done|]. split; [lia|].
  rewrite lookup_app_r by lia. by replace (Z.to_nat (curNum sc + 1) - length (allConfs sc))%nat with 0%nat by lia.
Qed.

Lemma set_prevReq_wf m sc : sc_wf sc → sc_wf (set_prevReq m sc).
Proof. by intros []. Qed.

(** ** [Join] *)

(** The groups [applyJoin] balances: the new ones and those that own a shard. *)
Definition in_play (servers : gmap Z (list string)) (shards : list Z) (g : Z) : Prop :=
  g ≠ 0 ∧ (is_Some (servers !! g) ∨ g ∈ shards).

Lemma applyJoin_spec op sc : sc_wf sc → room sc →
  (∃ g, in_play (cc_Servers op) (Shards (latest sc)) g) →
  ∃ fuel0 shards', (∀ fuel, (fuel0 < fuel)%nat →
    applyJoin fuel op sc = Done
      (mkResult (cc_ReqId op) EmptyString
         (mkConfig (curNum sc + 1) shards' (cc_Servers op ∪ Groups (latest sc))) (cc_ClientId op),
       extend (mkConfig (curNum sc + 1) shards' (cc_Servers op ∪ Groups (latest sc))) sc)) ∧
    length shards' = 10%nat ∧
    (∀ g, g ∈ shards' → in_play (cc_Servers op) (Shards (latest sc)) g) ∧
    (∀ g g', in_play (cc_Servers op) (Shards (latest sc)) g → in_play (cc_Servers op) (Shards (latest sc)) g' →
       (count shards' g ≤ count shards' g' + 1)%nat).
Proof.
  intros Hw Hr (g0 & Hg0 & Hin0). destruct (latest_wf _ Hw) as [_ Hlen].
  set (all := (λ _, []) <$> cc_Servers op : shard_map).
  assert (∀ g, at_key all g = []) as Hnil.
  { intros g. unfold at_key, all. rewrite lookup_fmap. by destruct (cc_Servers op !! g). }
  destruct (owners_spec (Shards (latest sc)) all Hlen Hnil) as [Hp Hdom].
  assert (∀ g, is_Some (owners (Shards (latest sc)) all !! g) ↔ is_Some (cc_Servers op !! g) ∨ g ∈ Shards (latest sc)) as Hdom'.
  { intros g. rewrite Hdom. unfold all. by rewrite lookup_fmap, fmap_is_Some. }
  assert (some_group (owners (Shards (latest sc)) all)) as Hsome by (exists g0; by rewrite Hdom').
  exists (weight (owners (Shards (latest sc)) all)).
  destruct (balance_spec (S (weight (owners (Shards (latest sc)) all))) _ _ 1 ltac:(lia) Hp Hsome ltac:(lia))
    as (all' & shards' & Hb & Hp' & [Hev0 Hev] & Hd').
  exists shards'. split.
  { intros fuel Hf. unfold applyJoin. rewrite (getConf_latest _ Hw Hr). simpl. fold all.
    rewrite (balance_mono _ _ _ _ _ _ Hb) by lia. by rewrite push_conf_Some. }
  assert (∀ g, g ∈ shards' → g ≠ 0 ∧ is_Some (all' !! g)) as Hown.
  { intros g [i Hi]%list_elem_of_lookup.
    assert (Z.of_nat i ∈ at_key all' g) as Hat by (apply (pt_in _ _ Hp'); rewrite Nat2Z.id; split; [lia|done]).
    split.
    - intros ->. rewrite Hev0 in Hat. by apply not_elem_of_nil in Hat.
    - apply at_key_nonempty. intros He. rewrite He in Hat. by apply not_elem_of_nil in Hat. }
  split; [apply Hp'|]. split.
  - intros g [Hg Hs]%Hown. split; [done|]. by rewrite <-Hdom', <-Hd'.
  - intros g g' [Hg Hs] [Hg' Hs']. rewrite <-!(partition_count _ _ _ Hp').
    specialize (Hev g g' Hg'). rewrite Hd', Hdom' in Hev. specialize (Hev Hs'). lia.
Qed.

(** ** [Leave] *)
Lemma remove_groups gids c g : Groups (remove gids c).1 !! g = if decide (g ∈ gids) then None else Groups c !! g.
Proof.
  unfold remove. simpl. generalize (Groups c). induction gids as [|h gids IH]; intros m; simpl; [done|].
  rewrite IH. destruct (decide (g = h)) as [->|Hne].
  - rewrite lookup_delete_eq. rewrite (decide_True (P := h ∈ h :: gids)) by (by left). by case_decide.
  - rewrite lookup_delete_ne by done. apply decide_ext. rewrite elem_of_cons. naive_solver.
Qed.

Lemma remove_all gids c g :
  (remove gids c).2 !! g = if decide (is_Some (Groups (remove gids c).1 !! g)) then Some (owned (Shards c) g) else None.
Proof.
  unfold remove. simpl. rewrite map_lookup_imap.
  destruct (foldl _ (Groups c) gids !! g) as [l|] eqn:Hl; simpl.
  - done.
  - done.
Qed.

Lemma count_insert_eq shards i o m : length shards = 10%nat → shards !! i = Some o → o ≠ m →
  count (<[i := m]> shards) m = S (count shards m).
Proof.
  intros Hlen Hi Hne. pose proof (lookup_lt_Some _ _ _ Hi) as Hlt. unfold count.
  assert (owned (<[i := m]> shards) m ≡ₚ Z.of_nat i :: owned shards m) as ->; [|done].
  apply NoDup_Permutation.
  - apply NoDup_filter, NoDup_seqZ.
  - apply NoDup_cons. split; [|apply NoDup_filter, NoDup_seqZ].
    rewrite elem_of_owned by done. rewrite Nat2Z.id. intros [_ ?]. congruence.
  - intros j. rewrite elem_of_cons, !elem_of_owned by (rewrite ?length_insert; done).
    destruct (decide (Z.to_nat j = i)) as [He|He].
    + rewrite He, list_lookup_insert_eq by done. split; [intros [? _]; left; lia|]. intros [->|[? ?]]; [split; [lia|done]|congruence].
    + rewrite list_lookup_insert_ne by done. split; [by right|]. intros [->|?]; [lia|done].
Qed.

Lemma count_insert_ne shards i o m g : length shards = 10%nat → shards !! i = Some o → g ≠ o → g ≠ m →
  count (<[i := m]> shards) g = count shards g.
Proof.
  intros Hlen Hi Hgo Hgm. pose proof (lookup_lt_Some _ _ _ Hi). unfold count, owned. f_equal.
  apply list_filter_iff. intros j. destruct (decide (Z.to_nat j = i)) as [He|He].
  - rewrite He, list_lookup_insert_eq, Hi by done. split; congruence.
  - by rewrite list_lookup_insert_ne.
Qed.

Section leave.
Context (gids : list Z) (groups : gmap Z (list string)) (orig : list Z).
Context (Hlen : length orig = 10%nat) (H0 : 0 ∉ gids) (Hgone : ∀ g, g ∈ gids → groups !! g = None).

(** Where a shard may be moved: to a group that stays, or to the invalid group
    when none does. *)
Definition new_owner (x : Z) : Prop :=
  (x ≠ 0 ∧ is_Some (groups !! x)) ∨ (x = 0 ∧ ∀ k, k ≠ 0 → groups !! k = None).

Definition stays (g : Z) : Prop := g ≠ 0 ∧ is_Some (groups !! g).

Record leave_inv (ps : list (nat * Z)) (st : list Z * shard_map) : Prop := {
  lv_len : length st.1 = 10%nat;
  lv_keys g : is_Some (st.2 !! g) ↔ is_Some (groups !! g);
  lv_count g : stays g → length (at_key st.2 g) = count st.1 g;
  lv_zero : (length (at_key st.2 0) ≤ 10)%nat;
  lv_owner i o : orig !! i = Some o → ∃ x, st.1 !! i = Some x ∧
    ((x = o ∧ (i, o) ∉ ps) ∨ ((i, o) ∈ ps ∧ new_owner x));
  lv_even : (∀ g g', stays g → stays g' → (count orig g ≤ count orig g' + 1)%nat) →
    ∀ g g', stays g → stays g' → (count st.1 g ≤ count st.1 g' + 1)%nat;
}.

Lemma new_owner_not_gone x : new_owner x → x ∉ gids.
Proof using All.
  intros [[_ Hs]|[-> _]] Hin; [|done]. apply Hgone in Hin. rewrite Hin in Hs. by destruct Hs.
Qed.

Lemma leave_small ps st : leave_inv ps st → small st.2.
Proof using All.
  intros [Hl Hk Hc Hz _ _] g. destruct (decide (g = 0)) as [->|Hg]; [lia|].
  unfold at_key in *. destruct (st.2 !! g) as [l|] eqn:Hlg; [|simpl; lia].
  assert (stays g) as Hst by (split; [done|]; apply Hk; by rewrite Hlg).
  specialize (Hc g Hst). rewrite Hlg in Hc. simpl in *. pose proof (count_le st.1 g). lia.
Qed.

Lemma leave_step ps st i gid : leave_inv ps st → (i < 10)%nat → gid ∈ gids →
  leave_inv (ps ++ [(i, gid)]) (assign_shard st (i, gid)).
Proof using All.
  intros Hinv Hi Hgid. pose proof (leave_small _ _ Hinv) as Hsm. destruct st as [shards all]. unfold assign_shard.
  destruct Hinv as [Hl Hk Hc Hz Ho He]. simpl in *.
  assert (∀ j o x, orig !! j = Some o → (x = o ∧ (j, o) ∉ ps) ∨ ((j, o) ∈ ps ∧ new_owner x) →
    (j, o) ≠ (i, gid) → (x = o ∧ (j, o) ∉ ps ++ [(i, gid)]) ∨ ((j, o) ∈ ps ++ [(i, gid)] ∧ new_owner x)) as Hext.
  { intros j o x _ [[-> Hn]|[Hin Hx]] Hne; [left; split; [done|]|right; split; [|done]]; set_solver. }
  case_decide as Hs; last first.
  { split; simpl; try done. intros j o Hj. destruct (Ho j o Hj) as (x & Hx & Hor). exists x. split; [done|].
    destruct (decide ((j, o) = (i, gid))) as [[= -> ->]|Hne]; [|by apply (Hext j)].
    right. destruct Hor as [[-> _]|[? ?]]; [done|]. set_solver. }
  set (m := minGroup all).
  assert (new_owner m) as Hm.
  { unfold m. destruct (minGroup_spec all Hsm) as [[-> Hnone]|(Hne & Hs' & _)].
    - right. split; [done|]. intros k Hk0. destruct (groups !! k) eqn:Hg; [|done].
      assert (is_Some (all !! k)) as [? Ha] by (apply Hk; by rewrite Hg). by rewrite Hnone in Ha.
    - left. split; [done|]. by apply Hk. }
  assert (gid ≠ m) as Hgm by (intros ->; by apply (new_owner_not_gone _ Hm)).
  assert (¬ stays gid) as Hgst by (intros [_ Hx]; rewrite (Hgone _ Hgid) in Hx; by destruct Hx).
  split; simpl.
  - by rewrite length_insert.
  - intros g. case_decide as Hm0; [|by apply Hk]. rewrite lookup_insert_is_Some', Hk.
    split; [intros [<-|?]; [|done]|by right]. by destruct Hm as [[_ ?]|[? _]].
  - intros g Hg. destruct (decide (g = m)) as [->|Hne].
    + rewrite decide_True by apply Hg. rewrite at_key_insert, decide_True, length_app by done. simpl.
      rewrite (count_insert_eq _ _ gid) by done. rewrite (Hc _ Hg). lia.
    + rewrite (count_insert_ne _ _ gid); [|done..|by intros ->|done].
      case_decide; [|by apply Hc]. rewrite at_key_insert, decide_False by done. by apply Hc.
  - case_decide; [|done]. by rewrite at_key_insert, decide_False.
  - intros j o Hj. destruct (Ho j o Hj) as (x & Hx & Hor). destruct (decide (j = i)) as [->|Hji].
    + exists m. rewrite list_lookup_insert_eq by lia. split; [done|]. right. split; [|done].
      rewrite Hs in Hx. injection Hx as <-. destruct Hor as [[-> _]|[_ Hno]]; [set_solver|].
      by apply new_owner_not_gone in Hno.
    + exists x. rewrite list_lookup_insert_ne by done. split; [done|]. apply (Hext j); [done..|congruence].
  - intros Hbal g g' Hg Hg'. specialize (He Hbal).
    assert (∀ h, stays h → count (<[i:=m]> shards) h = if decide (h = m) then S (count shards h) else count shards h) as Hcnt.
    { intros h Hh. case_decide; [subst h; by apply (count_insert_eq _ _ gid)|].
      apply (count_insert_ne _ _ gid); [done..|by intros ->|done]. }
    rewrite !Hcnt by done. pose proof (He g g' Hg Hg'). repeat case_decide; subst; try lia.
    destruct (minGroup_spec all Hsm) as [[Hm0 _]|(_ & _ & Hmin)]; [exfalso; apply (proj1 Hg); exact Hm0|].
    specialize (Hmin g' (proj1 Hg')). rewrite Hk in Hmin. specialize (Hmin (proj2 Hg')).
    fold m in Hmin. rewrite !Hc in Hmin by done. lia.
Qed.

Lemma leave_fold ps all : (∀ p, p ∈ ps → (p.1 < 10)%nat ∧ p.2 ∈ gids) →
  leave_inv [] (orig, all) → leave_inv ps (foldl assign_shard (orig, all) ps).
Proof using All.
  intros Hps Hinit. induction ps as [|[i g] ps IH] using rev_ind; [done|].
  rewrite foldl_snoc. destruct (Hps (i, g)) as [? ?]; [set_solver|].
  apply leave_step; [|done|done]. apply IH. intros p Hp. apply Hps. set_solver.
Qed.
End leave.

Lemma elem_of_pairs (gids : list Z) (p : nat * Z) :
  p ∈ (i ← seq 0 10; pair i <$> gids) ↔ (p.1 < 10)%nat ∧ p.2 ∈ gids.
Proof.
  rewrite list_elem_of_bind. setoid_rewrite list_elem_of_fmap. setoid_rewrite elem_of_seq. destruct p as [i g]. simpl. split.
  - intros (j & (g' & [= -> ->] & Hg) & Hj). split; [lia|done].
  - intros [Hi Hg]. exists i. split; [by exists g|lia].
Qed.

Lemma applyLeave_spec op sc (c0 := latest sc) : sc_wf sc → room sc → 0 ∉ cc_GIDs op →
  ∃ shards' groups', let c := mkConfig (curNum sc + 1) shards' groups' in
    applyLeave op sc = Some (mkResult (cc_ReqId op) EmptyString c (cc_ClientId op), extend c sc) ∧
    length shards' = 10%nat ∧
    (∀ g, groups' !! g = if decide (g ∈ cc_GIDs op) then None else Groups c0 !! g) ∧
    (∀ i o, Shards c0 !! i = Some o → o ∉ cc_GIDs op → shards' !! i = Some o) ∧
    (∀ i o, Shards c0 !! i = Some o → o ∈ cc_GIDs op → ∃ x, shards' !! i = Some x ∧ new_owner groups' x) ∧
    ((∀ g g', stays groups' g → stays groups' g' → (count (Shards c0) g ≤ count (Shards c0) g' + 1)%nat) →
     ∀ g g', stays groups' g → stays groups' g' → (count shards' g ≤ count shards' g' + 1)%nat).
Proof.
  intros Hw Hr H0. destruct (latest_wf _ Hw) as [_ Hlen]. fold c0 in Hlen.
  set (gids := cc_GIDs op) in *. set (c1 := mkConfig (curNum sc + 1) (Shards c0) (Groups c0)).
  set (groups' := Groups (remove gids c1).1).
  assert (∀ g, groups' !! g = if decide (g ∈ gids) then None else Groups c0 !! g) as Hgr by apply (remove_groups gids c1).
  assert (∀ g, g ∈ gids → groups' !! g = None) as Hgone by (intros g Hg; by rewrite Hgr, decide_True).
  assert (leave_inv groups' (Shards c0) [] (Shards c0, (remove gids c1).2)) as Hinit.
  { split; simpl; try done.
    - intros g. rewrite (remove_all gids c1). fold groups'. case_decide; [split; [done|by eexists]|]. split; [by intros [? ?]|done].
    - intros g [_ Hs]. unfold at_key. rewrite (remove_all gids c1). by rewrite decide_True.
    - unfold at_key. rewrite (remove_all gids c1). case_decide; simpl; [apply (count_le (Shards c0) 0)|lia].
    - intros i o Hi. exists o. split; [done|]. left. split; [done|]. apply not_elem_of_nil. }
  set (ps := i ← seq 0 10; pair i <$> gids).
  pose proof (leave_fold gids groups' (Shards c0) Hlen H0 Hgone ps _ (λ p, proj1 (elem_of_pairs gids p)) Hinit) as Hinv.
  unfold applyLeave. rewrite (getConf_latest _ Hw Hr). simpl. fold c0 gids. fold c1.
  change (assingToMin gids (Shards c0) _) with (foldl assign_shard (Shards c0, (remove gids c1).2) ps).
  destruct (foldl assign_shard _ ps) as [shards' all'].
  exists shards', groups'. simpl. rewrite push_conf_Some by done.
  destruct Hinv as [Hl _ _ _ Ho He]. simpl in *. split_and!; [done..| | |done].
  - intros i o Hi Hn. destruct (Ho i o Hi) as (x & Hx & [[-> _]|[Hin _]]); [done|].
    apply elem_of_pairs in Hin as [_ Hin]. done.
  - intros i o Hi Hin. destruct (Ho i o Hi) as (x & Hx & [[_ Hn]|[_ Hno]]); [|by exists x].
    exfalso. apply Hn, elem_of_pairs. split; [|done]. pose proof (lookup_lt_Some _ _ _ Hi). simpl. lia.
Qed.
End history.

(** A request is executed when its number is above the last one of its client. *)
Abbreviation newer m c := (default 0 (m !! cc_ClientId c) < cc_ReqId c).

(** ** Every command *)
Section commands.
Implicit Types sc : ShardCtrler.

Lemma balance_length fuel all shards d all' shards' :
  balance fuel all shards d = Done (all', shards') → length shards' = length shards.
Proof.
  revert all shards. induction fuel as [|fuel IH]; intros all shards; simpl; [done|].
  unfold balance_once. case_decide; [by intros [= _ <-]|].
  destruct (at_key all (maxGroup all)) as [|first rest]; [done|].
  destruct (go_set shards first (minGroup all)) as [sh|] eqn:Hs; [|done].
  intros Hb%IH. rewrite Hb. apply go_set_inv in Hs as [_ ->]. apply length_insert.
Qed.

(** A command that returns leaves the configurations alone or adds the next
    one. *)
Definition grows_history sc sc' : Prop :=
  (curNum sc' = curNum sc ∧ allConfs sc' = allConfs sc) ∨
  ∃ c, Num c = curNum sc + 1 ∧ length (Shards c) = 10%nat ∧
    curNum sc' = curNum sc + 1 ∧ allConfs sc' = allConfs sc ++ [c].

Lemma applyJoin_grows fuel op sc res sc' : sc_wf sc → room sc →
  applyJoin fuel op sc = Done (res, sc') → grows_history sc sc'.
Proof.
  intros Hw Hr. unfold applyJoin. rewrite (getConf_latest _ Hw Hr). simpl.
  destruct (balance _ _ _ _) as [[all' shards']| |] eqn:Hb; [|done|done].
  rewrite push_conf_Some by done. intros [= _ <-]. right. eexists. split_and!; [..|done|done]; [done|].
  simpl. rewrite (balance_length _ _ _ _ _ _ Hb). by apply latest_wf.
Qed.

Lemma applyMove_grows op sc res sc' : sc_wf sc → room sc →
  applyMove op sc = Some (res, sc') → grows_history sc sc'.
Proof.
  intros Hw Hr. unfold applyMove. rewrite (getConf_latest _ Hw Hr). simpl.
  destruct (go_set _ _ _) as [sh|] eqn:Hs; [|done]. simpl.
  rewrite push_conf_Some by done. intros [= _ <-]. right. eexists. split_and!; [..|done|done]; [done|].
  apply go_set_inv in Hs as [_ ->]. simpl. rewrite length_insert. by apply latest_wf.
Qed.

Lemma assign_length ps st : length (foldl assign_shard st ps).1 = length st.1.
Proof.
  revert st. induction ps as [|[i g] ps IH]; intros [shards all]; [done|]. cbn [foldl]. rewrite IH.
  unfold assign_shard. case_decide; [apply length_insert|done].
Qed.

Lemma applyLeave_grows op sc res sc' : sc_wf sc → room sc →
  applyLeave op sc = Some (res, sc') → grows_history sc sc'.
Proof.
  intros Hw Hr. unfold applyLeave. rewrite (getConf_latest _ Hw Hr). cbn [mbind option_bind].
  destruct (remove _ _) as [c1 all] eqn:Hrm.
  destruct (assingToMin (cc_GIDs op) (Shards c1) all) as [shards' all'] eqn:Ha.
  rewrite push_conf_Some by done. intros [= _ <-]. right. eexists. split_and!; [..|done|done].
  - unfold remove in Hrm. by injection Hrm as <- _.
  - simpl. pose proof (assign_length (i ← seq 0 10; pair i <$> cc_GIDs op) (Shards c1, all)) as Hl.
    unfold assingToMin in Ha. rewrite Ha in Hl. simpl in Hl. rewrite Hl.
    unfold remove in Hrm. injection Hrm as <- _. by apply latest_wf.
Qed.

Lemma applyQuery_same op sc res sc' : applyQuery op sc = Some (res, sc') → sc' = sc ∧ res_Config res ∈ allConfs sc.
Proof.
  unfold applyQuery. intros (c & [_ Hc]%go_index_lookup & [= <- <-])%bind_Some.
  split; [done|]. by eapply list_elem_of_lookup_2.
Qed.

Lemma applyCommand_grows fuel c sc res sc' : sc_wf sc → room sc →
  applyCommand fuel c sc = Done (res, sc') → grows_history sc sc'.
Proof.
  intros Hw Hr. unfold applyCommand. case_decide; [|intros [= _ <-]; by left].
  set (sc1 := set_prevReq _ sc). assert (sc_wf sc1) as Hw1 by by apply set_prevReq_wf.
  assert (room sc1) as Hr1 by done.
  assert (∀ o, of_option o = Done (res, sc') → o = Some (res, sc')) as Ho by (intros [?|]; [by intros [= ->]|done]).
  repeat case_decide.
  - intros Hl%Ho. by apply applyLeave_grows in Hl.
  - intros Hl. by apply applyJoin_grows in Hl.
  - intros Hl%Ho. apply applyQuery_same in Hl as [-> _]. by left.
  - intros Hl%Ho. by apply applyMove_grows in Hl.
  - done.
Qed.

Lemma grows_history_wf sc sc' : sc_wf sc → grows_history sc sc' → sc_wf sc' ∧ allConfs sc `prefix_of` allConfs sc'.
Proof.
  intros Hw [[Hc Ha]|(c & Hn & Hl & Hc & Ha)].
  - split; [|by rewrite Ha]. destruct Hw. split; rewrite ?Hc, ?Ha; done.
  - pose proof (extend_wf c sc Hw Hn Hl) as [E1 E2 E3]. simpl in *. split; [|by eexists].
    split; rewrite ?Hc, ?Ha; done.
Qed.

(** The fields a command does not read, [prevReq] apart from the check. *)
Definition reframe (me : Z) (op : OmniPaxos ControllerCommand) (dead : Z) (chans : gset Z) (m : gmap Z Z) sc : ShardCtrler :=
  mkSC me op dead (curNum sc) (allConfs sc) chans m.

Definition note_req (c : ControllerCommand) (m : gmap Z Z) : gmap Z Z :=
  if decide (newer m c) then <[cc_ClientId c := cc_ReqId c]> m else m.

Definition map_outcome {A B} (f : A → B) (o : outcome A) : outcome B :=
  match o with Done a => Done (f a) | Again a => Again (f a) | Panic => Panic end.

Lemma applyCommand_reframe fuel c me op dead chans m sc : (newer m c ↔ newer (prevReq sc) c) →
  applyCommand fuel c (reframe me op dead chans m sc) =
  map_outcome (λ p, (p.1, reframe me op dead chans (note_req c m) p.2)) (applyCommand fuel c sc).
Proof.
  intros Hf. unfold note_req, applyCommand. simpl.
  destruct (decide (newer m c)) as [Hm|Hm]; destruct (decide (newer (prevReq sc) c)); [|tauto..|done].
  change (set_prevReq ?m (reframe me op dead chans _ sc)) with (reframe me op dead chans m sc).
  set (m' := <[cc_ClientId c := cc_ReqId c]> m). set (sc1 := set_prevReq _ sc).
  change (reframe me op dead chans m' sc) with (reframe me op dead chans m' sc1).
  assert (∀ cf sc, push_conf cf c (reframe me op dead chans m' sc) =
    (λ p : Result * ShardCtrler, (p.1, reframe me op dead chans m' p.2)) <$> push_conf cf c sc) as Hpush.
  { intros cf sc2. unfold push_conf. simpl. by destruct (go_index _ _). }
  repeat case_decide.
  - unfold applyLeave. simpl. destruct (getConf _ _); simpl; [|done].
    destruct (assingToMin _ _ _). rewrite Hpush. by destruct (push_conf _ _ sc1).
  - unfold applyJoin. simpl. destruct (getConf _ _); simpl; [|done].
    destruct (balance _ _ _ _) as [[? ?]| |]; [|done|done]. rewrite Hpush. by destruct (push_conf _ _ sc1).
  - unfold applyQuery. simpl. by destruct (go_index _ _).
  - unfold applyMove. simpl. destruct (getConf _ _); simpl; [|done]. destruct (go_set _ _ _); simpl; [|done].
    rewrite Hpush. by destruct (push_conf _ _ sc1).
  - done.
Qed.

Lemma push_conf_prevReq cf op sc res sc' : push_conf cf op sc = Some (res, sc') → prevReq sc' = prevReq sc.
Proof. unfold push_conf. by intros (? & _ & [= _ <-])%bind_Some. Qed.

Lemma applyCommand_prevReq fuel c sc res sc' :
  applyCommand fuel c sc = Done (res, sc') → prevReq sc' = note_req c (prevReq sc).
Proof.
  unfold applyCommand, note_req. destruct (decide (newer (prevReq sc) c)); [|by intros [= _ <-]].
  set (sc1 := set_prevReq _ sc). change (<[_:=_]> (prevReq sc)) with (prevReq sc1).
  assert (∀ o, of_option o = Done (res, sc') → o = Some (res, sc')) as Ho by (intros [?|]; [by intros [= ->]|done]).
  repeat case_decide; [intros Hl%Ho|intros Hl|intros Hl%Ho|intros Hl%Ho|done]; revert Hl.
  - unfold applyLeave. intros (? & _ & Hl)%bind_Some. destruct (remove _ _), (assingToMin _ _ _).
    by apply push_conf_prevReq in Hl.
  - unfold applyJoin. destruct (getConf _ _); [|done]. destruct (balance _ _ _ _) as [[? ?]| |]; [|done..].
    destruct (push_conf _ _ _) as [p|] eqn:Hp; [|done]. intros [= ->]. by apply push_conf_prevReq in Hp.
  - unfold applyQuery. by intros (? & _ & [= _ <-])%bind_Some.
  - unfold applyMove. intros (? & _ & (? & _ & Hl)%bind_Some)%bind_Some. by apply push_conf_prevReq in Hl.
Qed.
End commands.

(** The controller as a replicated service: what a client can see is the
    history of configurations and the numbers of the requests. *)
Definition sc_consume (fuel : nat) (c : ControllerCommand) (sc : ShardCtrler) : option ShardCtrler :=
  match applyCommand fuel c sc with Done (_, sc) => Some sc | _ => None end.
Definition sc_view (sc : ShardCtrler) : Z * list Config * gmap Z Z := (curNum sc, allConfs sc, prevReq sc).

Lemma sc_consume_view fuel c sc1 sc2 : sc_view sc1 = sc_view sc2 →
  sc_view <$> sc_consume fuel c sc1 = sc_view <$> sc_consume fuel c sc2.
Proof.
  destruct sc1 as [me op d n cs ch pr], sc2 as [me' op' d' n' cs' ch' pr']. unfold sc_view, sc_consume. simpl.
  intros [= -> -> ->].
  change (mkSC me' op' d' n' cs' ch' pr') with (reframe me' op' d' ch' pr' (mkSC me op d n' cs' ch pr')).
  rewrite applyCommand_reframe by done. set (sc1 := mkSC me op d n' cs' ch pr').
  destruct (applyCommand fuel c sc1) as [[res sc]|[res sc]|] eqn:Ha; simpl; [|done|done].
  by rewrite (applyCommand_prevReq _ _ _ _ _ Ha).
Qed.

#[export] Instance SC_service (fuel : nat) : Service ControllerCommand ShardCtrler (Z * list Config * gmap Z Z) :=
  {| svc_apply := sc_consume fuel; svc_view := sc_view; svc_apply_view := sc_consume_view fuel |}.
