(* ===== verification/ShardCtrlerThms.v ===== *)
(** * What the shard controller guarantees

    The theorems on the controller: commands return, [Join] evens out, [Leave]
    moves what it must, the history only grows, requests are executed once, and
    the replicas agree; then the inputs on which it does not behave. *)
From Stdlib Require Import Strings.String.
From S2P Require Import Prelude Ballot Messages Persister OmniPaxos OmniPaxosInv Cluster Agreement AgreementSteps Safety.
From S2P Require Import Service ShardCtrler ShardCtrlerInv.

(** ** Definitions the theorems use *)

(** The server [StartServer] makes over a peer. *)
Definition sc_init (me : Z) (op : OmniPaxos ControllerCommand) : ShardCtrler := mkSC me op 0 0 [zeroConfig] ∅ ∅.

Definition sc_id (c : ControllerCommand) : option (Z * Z) := Some (cc_ClientId c, cc_ReqId c).

(** The command on a server that has never seen a request. *)
Definition sc_anew (fuel : nat) (c : ControllerCommand) (sc : ShardCtrler) : option ShardCtrler :=
  sc_consume fuel c (set_prevReq ∅ sc).

(** The commands [applyCommands] can execute on a state. *)
Definition executable (c : ControllerCommand) (sc : ShardCtrler) : Prop :=
  cc_Command c = Leave ∨
  (cc_Command c = Join ∧ ∃ g, in_play (cc_Servers c) (Shards (latest sc)) g) ∨
  (cc_Command c = Query ∧ -1 <= cc_Num c) ∨
  (cc_Command c = Move ∧ 0 <= cc_Shard c < NShards).

(** The number of shards of a group in a configuration. *)
Definition load (c : Config) (g : Z) : nat := count (Shards c) g.

Section lemmas.
Implicit Types sc : ShardCtrler.

Lemma sc_init_wf me op : sc_wf (sc_init me op).
Proof. split; simpl; [lia|done|]. intros [|k] c Hc; [by injection Hc as <-|done]. Qed.

Lemma applyQuery_num op sc : sc_wf sc → -1 <= cc_Num op →
  ∃ c, applyQuery op sc = Some (mkResult (cc_ReqId op) EmptyString c (cc_ClientId op), sc) ∧
    allConfs sc !! Z.to_nat (Num c) = Some c ∧
    Num c = (if decide (cc_Num op = -1) then curNum sc else Z.min (cc_Num op) (curNum sc)).
Proof.
  intros Hw Hn. pose proof (sw_cur _ Hw). pose proof (sw_len _ Hw). unfold applyQuery, LatestConfigNum.
  set (num := if decide _ then curNum sc else cc_Num op).
  assert (num = (if decide (cc_Num op = -1) then curNum sc else Z.min (cc_Num op) (curNum sc))) as Hnum.
  { unfold num. repeat case_decide; lia. }
  assert (0 <= num <= curNum sc) by (rewrite Hnum; case_decide; lia).
  destruct (lookup_lt_is_Some_2 (allConfs sc) (Z.to_nat num)) as [c Hc]; [lia|].
  exists c. rewrite (proj2 (go_index_lookup _ _ c)) by (split; [lia|done]).
  destruct (sw_conf _ Hw _ _ Hc) as [Hcn _]. rewrite Z2Nat.id in Hcn by lia.
  split; [done|]. rewrite Hcn. by split.
Qed.

Lemma applyLeave_total op sc : sc_wf sc → room sc → is_Some (applyLeave op sc).
Proof.
  intros Hw Hr. unfold applyLeave. rewrite (getConf_latest _ Hw Hr). cbn [mbind option_bind].
  destruct (remove _ _), (assingToMin _ _ _). by rewrite push_conf_Some.
Qed.

Lemma applyMove_spec op sc : sc_wf sc → room sc → 0 <= cc_Shard op < NShards →
  let c := mkConfig (curNum sc + 1) (<[Z.to_nat (cc_Shard op) := cc_GID op]> (Shards (latest sc))) (Groups (latest sc)) in
  applyMove op sc = Some (mkResult (cc_ReqId op) EmptyString c (cc_ClientId op), extend c sc).
Proof.
  intros Hw Hr Hs. destruct (latest_wf _ Hw) as [_ Hlen]. unfold NShards in *.
  unfold applyMove. rewrite (getConf_latest _ Hw Hr). cbn [mbind option_bind Shards Num Groups].
  rewrite go_set_Some by lia. cbn [mbind option_bind]. by rewrite push_conf_Some.
Qed.

Lemma applyCommand_returns c sc : sc_wf sc → room sc → executable c sc →
  ∃ fuel0 res sc', ∀ fuel, (fuel0 < fuel)%nat → applyCommand fuel c sc = Done (res, sc').
Proof.
  intros Hw Hr He. unfold applyCommand. case_decide; [|by eexists 0%nat, _, _].
  set (sc1 := set_prevReq _ sc). assert (sc_wf sc1) as Hw1 by by apply set_prevReq_wf.
  assert (room sc1) as Hr1 by done.
  destruct He as [Hc|[[Hc He]|[[Hc He]|[Hc He]]]]; rewrite Hc; simpl.
  - destruct (applyLeave_total c sc1 Hw1 Hr1) as [[res sc'] ->]. by exists 0%nat, res, sc'.
  - destruct (applyJoin_spec c sc1 Hw1 Hr1 He) as (fuel0 & shards & Hj & _). by eexists fuel0, _, _.
  - destruct (applyQuery_num c sc1 Hw1 He) as (cf & -> & _). by eexists 0%nat, _, _.
  - rewrite (applyMove_spec c sc1 Hw1 Hr1 He). by eexists 0%nat, _, _.
Qed.
End lemmas.

(** ** One execution per request *)
Section exactly_once.
Implicit Types sc : ShardCtrler.

Lemma sc_consume_fresh fuel c sc sc1 : newer (prevReq sc) c → 1 ≤ cc_ReqId c →
  curNum sc1 = curNum sc → allConfs sc1 = allConfs sc →
  match sc_consume fuel c sc, sc_anew fuel c sc1 with
  | Some sc', Some sc1' => curNum sc1' = curNum sc' ∧ allConfs sc1' = allConfs sc'
  | None, None => True
  | _, _ => False
  end.
Proof.
  intros Hf H1 Hc Ha. unfold sc_anew, sc_consume.
  replace (set_prevReq ∅ sc1) with (reframe (sc_me sc1) (sc_op sc1) (sc_dead sc1) (sc_chans sc1) ∅ sc).
  2: { unfold reframe, set_prevReq. by rewrite Hc, Ha. }
  rewrite applyCommand_reframe; [|rewrite lookup_empty; simpl; split; [done|lia]].
  by destruct (applyCommand fuel c sc) as [[res sc']|[res sc']|].
Qed.

Lemma sc_consume_stale fuel c sc : ¬ newer (prevReq sc) c → sc_consume fuel c sc = Some sc.
Proof. intros Hf. unfold sc_consume, applyCommand. by rewrite decide_False. Qed.

Lemma sc_consume_prevReq fuel c sc sc' : sc_consume fuel c sc = Some sc' → prevReq sc' = note_req c (prevReq sc).
Proof.
  unfold sc_consume. destruct (applyCommand fuel c sc) as [[res sc1]|[? ?]|] eqn:Ha; [|done|done].
  intros [= ->]. by eapply applyCommand_prevReq.
Qed.

Lemma sc_run_once fuel log sc0 : prevReq sc0 = ∅ → clerk_order sc_id log →
  match apply_all (sc_consume fuel) log sc0, apply_all (sc_anew fuel) (once sc_id ∅ log) sc0 with
  | Some sc, Some sc1 => curNum sc1 = curNum sc ∧ allConfs sc1 = allConfs sc ∧ seq_max sc_id log (prevReq sc)
  | None, None => True
  | _, _ => False
  end.
Proof.
  intros Hp. induction log as [|c log IH] using rev_ind; intros Hord.
  - simpl. split_and!; [done..|]. apply seq_max_nil. intros cid. by rewrite Hp.
  - specialize (IH (clerk_order_app _ _ _ Hord)).
    rewrite (once_snoc sc_id _ _ _ (cc_ClientId c, cc_ReqId c)), !apply_all_app by done.
    destruct (apply_all _ log sc0) as [sc|], (apply_all _ (once _ _ _) sc0) as [sc1|]; try done; simpl.
    destruct IH as (Hc & Ha & Hmax). pose proof (fresh_iff sc_id _ c _ _ _ Hord Hmax eq_refl) as Hf.
    pose proof (Hord log c [] _ _ eq_refl eq_refl) as [H1 _].
    destruct (decide (newer (prevReq sc) c)) as [Hfr|Hfr].
    + rewrite decide_False by (intros [?%not_elem_of_empty|Hin]; [done|]; by apply Hf in Hfr). simpl.
      pose proof (sc_consume_fresh fuel c sc sc1 Hfr H1 Hc Ha) as Hx.
      destruct (sc_consume fuel c sc) as [sc'|] eqn:Hs, (sc_anew fuel c sc1); try done. simpl.
      destruct Hx. split_and!; [done..|]. rewrite (sc_consume_prevReq _ _ _ _ Hs).
      by apply (seq_max_snoc sc_id log (prevReq sc) c).
    + rewrite decide_True; [|right; destruct (decide ((cc_ClientId c, cc_ReqId c) ∈ ids sc_id log)); tauto].
      pose proof (sc_consume_stale fuel c sc Hfr) as Hs. rewrite Hs. simpl. split_and!; [done..|].
      rewrite (sc_consume_prevReq _ _ _ _ Hs).
      by apply (seq_max_snoc sc_id log (prevReq sc) c).
Qed.
End exactly_once.

(** ** Joining no group *)
Section empty_join.

(** Every shard of a single unowned group goes round and round. *)
Lemma unowned_groups l : l ≠ [] → len l < 4294967295 →
  maxGroup {[ 0 := l ]} = 0 ∧ minGroup {[ 0 := l ]} = 0.
Proof.
  intros Hne Hl. split.
  - unfold maxGroup, at_key. rewrite lookup_singleton_eq, decide_True; [done|]. split; [by eexists|].
    destruct l; simpl; [done|lia].
  - destruct (minGroup_spec {[ 0 := l ]}) as [[-> _]|(Hz & [x Hx] & _)]; [ |done|].
    + intros k. unfold at_key. destruct (decide (k = 0)) as [->|]; [by rewrite lookup_singleton_eq|].
      rewrite lookup_singleton_ne by done. simpl. lia.
    + by rewrite lookup_singleton_ne in Hx.
Qed.

Lemma balance_unowned fuel l shards : l ≠ [] → len l < 4294967295 → length shards = 10%nat →
  (∀ i, i ∈ l → 0 <= i < NShards) → ∃ p, balance fuel {[ 0 := l ]} shards 1 = Again p.
Proof.
  revert l shards. induction fuel as [|fuel IH]; intros l shards Hne Hl Hlen Hin; [by eexists|].
  cbn [balance]. unfold balance_once. destruct (unowned_groups l Hne Hl) as [-> ->].
  rewrite decide_False by tauto. unfold at_key at 1. rewrite lookup_singleton_eq. simpl.
  destruct l as [|first rest]; [done|]. unfold NShards in *.
  rewrite go_set_Some by (rewrite Hlen; apply Hin; left).
  rewrite insert_singleton_eq. unfold at_key. rewrite lookup_singleton_eq, insert_singleton_eq. simpl.
  apply IH; [by destruct rest|rewrite length_app; simpl in *; lia|by rewrite length_insert|].
  intros i Hi. apply Hin. rewrite elem_of_app, list_elem_of_singleton in Hi. destruct Hi as [Hi| ->]; [by right|left].
Qed.
End empty_join.

(** ** A controller with two groups *)
Definition sc_command (c : string) (req : Z) (servers : list (Z * list string)) (gids : list Z) (shard gid : Z) : ControllerCommand :=
  mkCC c req 5 (list_to_map servers) gids (-1) shard gid.
Definition sc_peer : OmniPaxos ControllerCommand :=
  mkOP 3 1 MakePersister 0 0 (mkBallot 0 0) ∅ None [0; 0; 0] [] zeroState 0 (mkBallot 0 1) true ∅
    (mkState FOLLOWER PREPARE) false ∅ 0.
Definition sc_start : ShardCtrler := sc_init 1 sc_peer.
Definition two_groups : list ControllerCommand := [sc_command Join 1 [(1, ["a"%string]); (2, ["b"%string])] [] 0 0].
Definition sc_two : ShardCtrler := default sc_start (apply_all (sc_consume 100) two_groups sc_start).

Lemma sc_two_wf : sc_wf sc_two.
Proof.
  split; [by vm_compute|by vm_compute|]. intros [|[|k]] c Hc.
  - vm_compute in Hc. by injection Hc as <-.
  - vm_compute in Hc. by injection Hc as <-.
  - apply lookup_lt_Some in Hc. vm_compute in Hc. lia.
Qed.

(** A cluster whose peers decide that join. *)
Definition sc_events : list (event ControllerCommand) :=
  elect ++ (Propose 1 <$> two_groups) ++ replicate 7 deliver.
Definition sc_cluster : cluster ControllerCommand := default (init_cluster 3) (ordered_run sc_events (init_cluster 3)).

Lemma sc_cluster_ordered : ordered_reachable 3 sc_cluster.
Proof.
  assert (ordered_run sc_events (init_cluster 3) = Some sc_cluster) as Hrun by (vm_compute; reflexivity).
  eapply ordered_run_reachable; [constructor | exact Hrun].
Qed.

(** ** The theorems *)

(** C15 [Join] terminates and evens out: with enough fuel the recursion of
    [balance] ends, no shard is left to the zero group, only groups in play own
    shards, and the loads of any two of them differ by at most one. *)
Theorem join_balances op sc : sc_wf sc → room sc →
  (∃ g, in_play (cc_Servers op) (Shards (latest sc)) g) →
  ∃ fuel0 c, (∀ fuel, (fuel0 < fuel)%nat →
      applyJoin fuel op sc = Done (mkResult (cc_ReqId op) EmptyString c (cc_ClientId op), extend c sc)) ∧
    Num c = curNum sc + 1 ∧ Groups c = cc_Servers op ∪ Groups (latest sc) ∧
    (∀ g, g ∈ Shards c → in_play (cc_Servers op) (Shards (latest sc)) g) ∧
    (∀ g g', in_play (cc_Servers op) (Shards (latest sc)) g → in_play (cc_Servers op) (Shards (latest sc)) g' →
       (load c g ≤ load c g' + 1)%nat).
Proof.
  intros Hw Hr Hin. destruct (applyJoin_spec op sc Hw Hr Hin) as (fuel0 & shards & Hj & Hl & Ho & He).
  exists fuel0, (mkConfig (curNum sc + 1) shards (cc_Servers op ∪ Groups (latest sc))). by split_and!.
Qed.

Lemma join_balances_witness : ∃ fuel0 c, (∀ fuel, (fuel0 < fuel)%nat →
    applyJoin fuel (sc_command Join 2 [(3, ["c"%string])] [] 0 0) sc_two =
      Done (mkResult 2 EmptyString c 5, extend c sc_two)) ∧ (load c 1 ≤ load c 3 + 1)%nat.
Proof.
  destruct (join_balances (sc_command Join 2 [(3, ["c"%string])] [] 0 0) sc_two sc_two_wf)
    as (fuel0 & c & Hj & _ & _ & _ & Hl).
  - by vm_compute.
  - exists 3. split; [done|]. left. by eexists.
  - exists fuel0, c. split; [exact Hj|]. apply Hl; (split; [done|]).
    + right. apply list_elem_of_lookup. exists 4%nat. by vm_compute.
    + left. by eexists.
Defined.

(** C33 [Leave] removes the groups that leave and gives their shards, and only
    theirs, to remaining groups (to the zero group when none remains); if the
    remaining groups were even before, they are even afterwards. *)
Theorem leave_keeps op sc (c0 := latest sc) : sc_wf sc → room sc → 0 ∉ cc_GIDs op →
  ∃ c, applyLeave op sc = Some (mkResult (cc_ReqId op) EmptyString c (cc_ClientId op), extend c sc) ∧
    Num c = curNum sc + 1 ∧ length (Shards c) = 10%nat ∧
    (∀ g, Groups c !! g = if decide (g ∈ cc_GIDs op) then None else Groups c0 !! g) ∧
    (∀ i o, Shards c0 !! i = Some o → o ∉ cc_GIDs op → Shards c !! i = Some o) ∧
    (∀ i o, Shards c0 !! i = Some o → o ∈ cc_GIDs op → ∃ x, Shards c !! i = Some x ∧ new_owner (Groups c) x) ∧
    ((∀ g g', stays (Groups c) g → stays (Groups c) g' → (load c0 g ≤ load c0 g' + 1)%nat) →
     ∀ g g', stays (Groups c) g → stays (Groups c) g' → (load c g ≤ load c g' + 1)%nat).
Proof.
  intros Hw Hr H0. destruct (applyLeave_spec op sc Hw Hr H0) as (shards & groups & Ha & Hl & Hg & Hk & Hn & He).
  exists (mkConfig (curNum sc + 1) shards groups). by split_and!.
Qed.

Lemma leave_keeps_witness : ∃ c,
  applyLeave (sc_command Leave 2 [] [1] 0 0) sc_two = Some (mkResult 2 EmptyString c 5, extend c sc_two) ∧
  Groups c !! 1 = None.
Proof.
  destruct (leave_keeps (sc_command Leave 2 [] [1] 0 0) sc_two sc_two_wf) as (c & Ha & _ & _ & Hg & _).
  - by vm_compute.
  - simpl. intros [=]%list_elem_of_singleton.
  - exists c. split; [exact Ha|]. by rewrite Hg.
Defined.

(** C34 Every executable command returns: [Leave] always, [Join] when some group
    is in play, [Query] from -1 on, [Move] of one of the ten shards. *)
Theorem command_returns c sc : sc_wf sc → room sc → executable c sc →
  ∃ fuel0 res sc', ∀ fuel, (fuel0 < fuel)%nat → applyCommand fuel c sc = Done (res, sc').
Proof. apply applyCommand_returns. Qed.

Lemma command_returns_witness : ∃ fuel0 res sc', ∀ fuel, (fuel0 < fuel)%nat →
  applyCommand fuel (sc_command Move 2 [] [] 4 1) sc_two = Done (res, sc').
Proof.
  apply (command_returns (sc_command Move 2 [] [] 4 1) sc_two sc_two_wf); [by vm_compute|].
  right. right. right. by vm_compute.
Defined.

(** The history only grows: a command that returns keeps every earlier
    configuration, adds at most one, and configuration [k] keeps number [k] and
    its ten shards. *)
Theorem history_grows fuel c sc res sc' : sc_wf sc → room sc → applyCommand fuel c sc = Done (res, sc') →
  sc_wf sc' ∧ allConfs sc `prefix_of` allConfs sc' ∧ curNum sc <= curNum sc' <= curNum sc + 1.
Proof.
  intros Hw Hr Ha. pose proof (applyCommand_grows _ _ _ _ _ Hw Hr Ha) as Hg.
  destruct (grows_history_wf _ _ Hw Hg). split; [done|]. split; [done|].
  destruct Hg as [[-> _]|(? & _ & _ & -> & _)]; lia.
Qed.

Lemma history_grows_witness : ∃ sc', sc_wf sc' ∧ allConfs sc_two `prefix_of` allConfs sc' ∧
  curNum sc_two <= curNum sc' <= curNum sc_two + 1.
Proof.
  destruct (applyCommand 100 (sc_command Move 2 [] [] 4 1) sc_two) as [[res sc']|[? ?]|] eqn:Ha;
    [|vm_compute in Ha; discriminate..].
  exists sc'. apply (history_grows 100 (sc_command Move 2 [] [] 4 1) sc_two res sc' sc_two_wf); [by vm_compute|exact Ha].
Defined.

(** A query reads the history and does not change it: it answers the
    configuration of that number, the latest one for -1 and for numbers not
    reached yet. *)
Theorem query_answers op sc : sc_wf sc → -1 <= cc_Num op →
  ∃ c, applyQuery op sc = Some (mkResult (cc_ReqId op) EmptyString c (cc_ClientId op), sc) ∧
    allConfs sc !! Z.to_nat (Num c) = Some c ∧
    Num c = (if decide (cc_Num op = -1) then curNum sc else Z.min (cc_Num op) (curNum sc)).
Proof. apply applyQuery_num. Qed.

Lemma query_answers_witness : ∃ c,
  applyQuery (sc_command Query 2 [] [] 0 0) sc_two = Some (mkResult 2 EmptyString c 5, sc_two) ∧ Num c = 1.
Proof.
  destruct (query_answers (sc_command Query 2 [] [] 0 0) sc_two sc_two_wf) as (c & Hq & _ & Hn); [done|].
  exists c. split; [exact Hq|]. rewrite Hn. by vm_compute.
Defined.

(** C16 Exactly once: a log in which each client's requests enter in order,
    however often they are retried, makes the history that the first occurrence
    of every request makes, each on a server that has never seen a request; and
    one of the two stops exactly when the other does. *)
Theorem sc_exactly_once fuel log me op : clerk_order sc_id log →
  allConfs <$> apply_all (sc_consume fuel) log (sc_init me op) =
  allConfs <$> apply_all (sc_anew fuel) (once sc_id ∅ log) (sc_init me op).
Proof.
  intros Hord. pose proof (sc_run_once fuel log (sc_init me op) eq_refl Hord) as H.
  destruct (apply_all _ log _) as [sc|], (apply_all _ (once _ _ _) _) as [sc1|]; try done.
  destruct H as (_ & Ha & _). simpl. by rewrite Ha.
Qed.

Lemma sc_exactly_once_witness :
  let log := two_groups ++ two_groups in
  allConfs <$> apply_all (sc_consume 100) log sc_start =
  allConfs <$> apply_all (sc_anew 100) (once sc_id ∅ log) sc_start.
Proof.
  intros log. apply (sc_exactly_once 100 log 1 sc_peer).
  apply (clerk_order_snoc sc_id two_groups _ 5 1); [|done|lia|left; vm_compute; set_solver].
  apply (clerk_order_snoc sc_id [] _ 5 1); [|done|lia|right; set_solver].
  intros pre c post cid s Hl. by destruct pre.
Defined.

(** Replicas of the controller agree: over any ordered schedule of an odd
    number of peers, two servers that have consumed equally many messages have
    the same history of configurations. *)
Theorem sc_replicas_agree fuel n (c : cluster ControllerCommand) i j opi opj k sci scj :
  Nat.Odd n → ordered_reachable n c → nodes c !! i = Some opi → nodes c !! j = Some opj →
  replica_of (H := SC_service fuel) opi k (sc_init i opi) sci →
  replica_of (H := SC_service fuel) opj k (sc_init j opj) scj →
  curNum sci = curNum scj ∧ allConfs sci = allConfs scj ∧ prevReq sci = prevReq scj.
Proof.
  intros Hodd Hr Hi Hj Hki Hkj.
  pose proof (replicas_agree (H := SC_service fuel) n c i j opi opj k (sc_init i opi) (sc_init j opj) _ _
    Hodd Hr Hi Hj eq_refl Hki Hkj) as [= ? ? ?].
  done.
Qed.

Lemma sc_replicas_agree_witness : ∃ op0 op1 sc0 sc1,
  nodes sc_cluster !! 0 = Some op0 ∧ nodes sc_cluster !! 1 = Some op1 ∧ curNum sc0 = 1 ∧
  curNum sc0 = curNum sc1 ∧ allConfs sc0 = allConfs sc1 ∧ prevReq sc0 = prevReq sc1.
Proof.
  destruct (nodes sc_cluster !! 0) as [op0|] eqn:H0; [|vm_compute in H0; discriminate].
  destruct (nodes sc_cluster !! 1) as [op1|] eqn:H1; [|vm_compute in H1; discriminate].
  destruct (apply_all (sc_consume 100) (take 1 (decided_prefix op0)) (sc_init 0 op0)) as [sc0|] eqn:K0;
    [|vm_compute in H0; injection H0 as <-; vm_compute in K0; discriminate].
  destruct (apply_all (sc_consume 100) (take 1 (decided_prefix op1)) (sc_init 1 op1)) as [sc1|] eqn:K1;
    [|vm_compute in H1; injection H1 as <-; vm_compute in K1; discriminate].
  exists op0, op1, sc0, sc1. split; [reflexivity|]. split; [reflexivity|].
  split; [vm_compute in H0; injection H0 as <-; vm_compute in K0; injection K0 as <-; by vm_compute|].
  apply (sc_replicas_agree 100 3 sc_cluster 0 1 op0 op1 1); [by exists 1%nat|apply sc_cluster_ordered|done|done|..].
  - split; [vm_compute in H0; injection H0 as <-; vm_compute; lia|exact K0].
  - split; [vm_compute in H1; injection H1 as <-; vm_compute; lia|exact K1].
Defined.

(** [Join] of no group on a controller without groups never returns: the only
    owner of shards is group 0, [balance] keeps moving them from group 0 to
    group 0, and the server holds its lock. *)
Theorem empty_join_diverges fuel op me peer : cc_Servers op = ∅ →
  applyJoin fuel op (sc_init me peer) = Again (zeroResult, sc_init me peer).
Proof.
  intros He. unfold applyJoin.
  change (getConf _ _) with (Some (mkConfig 1 (replicate 10 0) ∅)). cbn beta iota. rewrite He, fmap_empty.
  destruct (balance_unowned fuel [0; 1; 2; 3; 4; 5; 6; 7; 8; 9] (replicate 10 0)) as [p Hp].
  - done.
  - simpl. lia.
  - done.
  - intros i Hi. repeat (apply elem_of_cons in Hi as [->|Hi]; [done|]). by apply not_elem_of_nil in Hi.
  - change (owners (Shards _) ∅) with ({[ 0 := [0; 1; 2; 3; 4; 5; 6; 7; 8; 9] ]} : gmap Z (list Z)).
    cbn [Shards]. by rewrite Hp.
Qed.

Lemma empty_join_diverges_witness :
  applyJoin 1000 (sc_command Join 1 [] [] 0 0) sc_start = Again (zeroResult, sc_start).
Proof. apply (empty_join_diverges 1000 (sc_command Join 1 [] [] 0 0) 1 sc_peer). reflexivity. Defined.

(** A [Query] that is retried after a server has applied it is answered with
    the zero configuration and no error, and the clerk returns that
    configuration. *)
Theorem retried_query_empty num ck sc prev received mid : prevReq sc !! clientId ck = Some prev → requestId ck <= prev →
  (∀ args, qa_ClientId args = clientId ck → qa_RequestId args = requestId ck →
     sc_Query args received mid sc = Some (mkQueryReply EmptyString zeroConfig, sc, [])) ∧
  Clerk_Query num ck (λ args, [None; (λ r, r.1.1) <$> sc_Query args received mid sc]) = Some (zeroConfig, next_request ck).
Proof.
  intros Hp Hle. assert (∀ args, qa_ClientId args = clientId ck → qa_RequestId args = requestId ck →
     sc_Query args received mid sc = Some (mkQueryReply EmptyString zeroConfig, sc, [])) as Hq.
  { intros args Hc Hr. unfold sc_Query, propose, propose_start. simpl. rewrite Hc, Hr, Hp.
    by rewrite bool_decide_true by lia. }
  split; [done|]. unfold Clerk_Query. rewrite Hq by done. reflexivity.
Qed.

Lemma retried_query_empty_witness :
  Clerk_Query (-1) (mkClerk 5 1) (λ args, [None; (λ r, r.1.1) <$> sc_Query args None id sc_two]) =
    Some (zeroConfig, mkClerk 5 2) ∧ Num (latest sc_two) = 1.
Proof.
  split; [|by vm_compute]. apply (retried_query_empty (-1) (mkClerk 5 1) sc_two 1 None id); [by vm_compute|by vm_compute].
Defined.

(** A group that owns no shard is left out when another group joins: after
    groups 1 and 2 join, all shards are moved to group 1, and group 3 joins,
    group 2 is still a group of the configuration and owns nothing, while 1 and
    3 own five shards each. *)
Theorem join_ignores_idle : ∃ sc,
  apply_all (sc_consume 100) (two_groups ++
    (move_all ← [(2, 1); (3, 3); (4, 5); (5, 7); (6, 9)]; [sc_command Move move_all.1 [] [] move_all.2 1]) ++
    [sc_command Join 7 [(3, ["c"%string])] [] 0 0]) sc_start = Some sc ∧
  is_Some (Groups (latest sc) !! 2) ∧
  load (latest sc) 1 = 5%nat ∧ load (latest sc) 2 = 0%nat ∧ load (latest sc) 3 = 5%nat.
Proof. eexists. split; [vm_compute; reflexivity|]. split; [by eexists|]. by vm_compute. Qed.
