(* ===== verification/ShardKV.v ===== *)
(** * The sharded key/value server: a3b-sharding/shardkv

    The data of common.go and server.go, the operations of apply.go, the
    handlers of server.go, the reconfiguration of reconf.go and the [Clerk] of
    client.go. *)
From Stdlib Require Import Strings.String Strings.Ascii.
From S2P Require Import Prelude Ballot Messages Persister OmniPaxos Service GoString ShardCtrler.

Definition CGET : string := "get".
Definition CPUT : string := "put".
Definition CAPPEND : string := "append".
Definition CCHANGE : string := "change".
Definition CDELETE : string := "delete".

Definition OK : string := "OK".
Definition ErrNoKey : string := "ErrNoKey".
Definition ErrWrongGroup : string := "ErrWrongGroup".
Definition sk_ErrNotLeader : string := "ErrNotLeader".
Definition ErrTryAgain : string := "ErrTryAgain".
Definition ErrTimeout : string := "ErrTimeout".

(** [[NShards]map[string]string] *)
Abbreviation stores := (list (gmap string string)).

(** [emptyStore]; also the zero array of nil maps, which reads the same. *)
Definition emptyStore : stores := replicate 10 ∅.

Record Op := mkOp {
  o_Command : string;
  o_ClientId : Z;
  o_RequestId : Z;
  o_Key : string;
  o_Value : string;
  o_Config : Config;
  o_Store : stores;
  o_PrevReq : gmap Z Z;
  o_ConfigNum : Z;
  o_ShardId : Z;
}.

Record SKResult := mkSKResult {
  r_Command : string; r_Err : string; r_ClientId : Z; r_RequestId : Z; r_Value : string; r_ConfigNum : Z;
}.
Definition err_result (e : string) : SKResult := mkSKResult EmptyString e 0 0 EmptyString 0.

Record SKPutAppendArgs := mkSKPutAppendArgs { sp_Key : string; sp_Value : string; sp_Op : string; sp_ClientId : Z; sp_RequestId : Z }.
Record SKGetArgs := mkSKGetArgs { sg_Key : string; sg_ClientId : Z; sg_RequestId : Z }.
Record SKGetReply := mkSKGetReply { sg_Value : string; sg_Err : string }.
Record DeleteArgs := mkDeleteArgs { d_Num : Z; d_ShardId : Z }.
Record TransferArgs := mkTransferArgs { t_Num : Z; t_ShardIds : list Z }.
Record TransferReply := mkTransferReply { t_Store : stores; t_Prev : gmap Z Z; t_Err : string }.
Definition zeroTransferReply : TransferReply := mkTransferReply emptyStore ∅ EmptyString.

#[export] Instance Op_eq_dec : EqDecision Op.
Proof. solve_decision. Defined.
#[export] Instance Config_countable : Countable Config.
Proof.
  refine (inj_countable (λ c, [encode (Num c); encode (Shards c); encode (Groups c)])
    (λ l, match l with
          | [a; b; c] => a ← decode a; b ← decode b; c ← decode c; Some (mkConfig a b c)
          | _ => None
          end) _).
  intros [n sh gr]. cbn beta iota delta [Num Shards Groups]. do 3 (rewrite decode_encode; cbn [mbind option_bind]). done.
Defined.
#[export] Instance Op_countable : Countable Op.
Proof.
  refine (inj_countable
    (λ o, [encode (o_Command o); encode (o_ClientId o); encode (o_RequestId o); encode (o_Key o); encode (o_Value o);
           encode (o_Config o); encode (o_Store o); encode (o_PrevReq o); encode (o_ConfigNum o); encode (o_ShardId o)])
    (λ l, match l with
          | [a; b; c; d; e; f; g; h; i; j] =>
              a ← decode a; b ← decode b; c ← decode c; d ← decode d; e ← decode e;
              f ← decode f; g ← decode g; h ← decode h; i ← decode i; j ← decode j;
              Some (mkOp a b c d e f g h i j)
          | _ => None
          end) _).
  intros []. cbn beta iota delta [o_Command o_ClientId o_RequestId o_Key o_Value o_Config o_Store o_PrevReq o_ConfigNum o_ShardId].
  do 10 (rewrite decode_encode; cbn [mbind option_bind]). done.
Defined.

(** The server.  [sk_chans] holds the buffered channels: one slot each. *)
Record ShardKV := mkSK {
  sk_me : Z;
  sk_op : OmniPaxos Op;
  gid : Z;
  config : Config;
  store : stores;
  sk_prevReq : gmap Z Z;
  sk_chans : gmap Z (option SKResult);
}.

Definition set_store (st : stores) (kv : ShardKV) : ShardKV :=
  mkSK (sk_me kv) (sk_op kv) (gid kv) (config kv) st (sk_prevReq kv) (sk_chans kv).
Definition set_sk_prevReq (m : gmap Z Z) (kv : ShardKV) : ShardKV :=
  mkSK (sk_me kv) (sk_op kv) (gid kv) (config kv) (store kv) m (sk_chans kv).
Definition set_sk_chans (m : gmap Z (option SKResult)) (kv : ShardKV) : ShardKV :=
  mkSK (sk_me kv) (sk_op kv) (gid kv) (config kv) (store kv) (sk_prevReq kv) m.
Definition set_config (c : Config) (kv : ShardKV) : ShardKV :=
  mkSK (sk_me kv) (sk_op kv) (gid kv) c (store kv) (sk_prevReq kv) (sk_chans kv).
Definition set_sk_op (op : OmniPaxos Op) (kv : ShardKV) : ShardKV :=
  mkSK (sk_me kv) op (gid kv) (config kv) (store kv) (sk_prevReq kv) (sk_chans kv).

(** ** apply.go *)
Definition key2shard (key : string) : Z :=
  Z.rem (match key with String a _ => Z.of_N (N_of_ascii a) | EmptyString => 0 end) NShards.

Definition isNew (op : Op) (kv : ShardKV) : bool :=
  match sk_prevReq kv !! o_ClientId op with
  | Some p => bool_decide (o_RequestId op > p)
  | None => true
  end.

Definition isWrongGroup (key : string) (kv : ShardKV) : option bool :=
  g ← go_index (Shards (config kv)) (key2shard key); Some (bool_decide (g ≠ gid kv)).

Definition shardOf (key : string) (kv : ShardKV) : option (gmap string string) :=
  go_index (store kv) (key2shard key).

Definition setPrevReqId (op : Op) (kv : ShardKV) : ShardKV :=
  set_sk_prevReq (<[o_ClientId op := o_RequestId op]> (sk_prevReq kv)) kv.

Definition set_Err (e : string) (r : SKResult) : SKResult :=
  mkSKResult (r_Command r) e (r_ClientId r) (r_RequestId r) (r_Value r) (r_ConfigNum r).
Definition set_Value (v : string) (r : SKResult) : SKResult :=
  mkSKResult (r_Command r) (r_Err r) (r_ClientId r) (r_RequestId r) v (r_ConfigNum r).
Definition set_ConfigNum (n : Z) (r : SKResult) : SKResult :=
  mkSKResult (r_Command r) (r_Err r) (r_ClientId r) (r_RequestId r) (r_Value r) n.

(** [kv.shardOf(key)[key] = v] on a map that the array holds. *)
Definition put_key (key v : string) (kv : ShardKV) : option ShardKV :=
  m ← shardOf key kv;
  st ← go_set (store kv) (key2shard key) (<[key := v]> m);
  Some (set_store st kv).

Definition sk_applyPut (op : Op) (result : SKResult) (kv : ShardKV) : option (SKResult * ShardKV) :=
  wrong ← isWrongGroup (o_Key op) kv;
  if (wrong : bool) then Some (set_Err ErrWrongGroup result, kv)
  else
    let result := set_Err OK result in
    if negb (isNew op kv) then Some (result, kv)
    else kv ← put_key (o_Key op) (o_Value op) kv; Some (result, setPrevReqId op kv).

Definition sk_applyAppend (op : Op) (result : SKResult) (kv : ShardKV) : option (SKResult * ShardKV) :=
  wrong ← isWrongGroup (o_Key op) kv;
  if (wrong : bool) then Some (set_Err ErrWrongGroup result, kv)
  else
    let result := set_Err OK result in
    if negb (isNew op kv) then Some (result, kv)
    else
      m ← shardOf (o_Key op) kv;
      kv ← put_key (o_Key op) (default EmptyString (m !! o_Key op) ++ o_Value op)%string kv;
      Some (result, setPrevReqId op kv).

Definition sk_applyGet (op : Op) (result : SKResult) (kv : ShardKV) : option (SKResult * ShardKV) :=
  wrong ← isWrongGroup (o_Key op) kv;
  if (wrong : bool) then Some (set_Err ErrWrongGroup result, kv)
  else
    let kv := if isNew op kv then setPrevReqId op kv else kv in
    m ← shardOf (o_Key op) kv;
    match m !! o_Key op with
    | None => Some (set_Err ErrNoKey result, kv)
    | Some v => Some (set_Err OK (set_Value v result), kv)
    end.

(** [copyMapStr]/[copyMapInt]: the entries of [src] overwrite those of [dst]. *)
Definition copyMap {K V} `{Countable K} (src dst : gmap K V) : gmap K V := src ∪ dst.

(** [m[k] = max(m[k], n)] for every entry of [src]. *)
Definition merge_max (m src : gmap Z Z) : gmap Z Z :=
  map_fold (λ k n m, <[k := Z.max (default 0 (m !! k)) n]> m) m src.

(** A goroutine that [applyChange] starts: delete shard [sid] at group [dg]. *)
Record DeleteCall := mkDeleteCall { dc_gid : Z; dc_sid : Z }.

Definition applyChange (op : Op) (result : SKResult) (kv : ShardKV) : SKResult * ShardKV * list DeleteCall :=
  let result := set_Err OK (set_ConfigNum (Num (o_Config op)) result) in
  if decide (wrap64 (Num (o_Config op) - Num (config kv)) ≠ 1) then (result, kv, [])
  else
    let kv1 := set_sk_prevReq (merge_max (sk_prevReq kv) (o_PrevReq op)) kv in
    let kv2 := set_store (zip_with copyMap (o_Store op) (store kv1)) kv1 in
    let calls := imap (λ sid sd, if decide (0 < size (sd : gmap string string))%nat
                                 then [mkDeleteCall (default 0 (Shards (config kv) !! sid)) (Z.of_nat sid)]
                                 else []) (o_Store op) in
    (result, set_config (o_Config op) kv2, concat calls).

Definition applyDelete (args : Op) (kv : ShardKV) : option ShardKV :=
  if decide (o_ConfigNum args <= Num (config kv)) then
    g ← go_index (Shards (config kv)) (o_ShardId args);
    if decide (gid kv ≠ g) then
      st ← go_set (store kv) (o_ShardId args) ∅; Some (set_store st kv)
    else Some kv
  else Some kv.

(** The result of [applier]'s switch on one command. *)
Definition apply_op (op : Op) (kv : ShardKV) : option (SKResult * ShardKV * list DeleteCall) :=
  let res := mkSKResult (o_Command op) OK (o_ClientId op) (o_RequestId op) EmptyString 0 in
  if decide (o_Command op = CCHANGE) then Some (applyChange op res kv)
  else if decide (o_Command op = CDELETE) then kv ← applyDelete op kv; Some (res, kv, [])
  else if decide (o_Command op = CGET) then '(res, kv) ← sk_applyGet op res kv; Some (res, kv, [])
  else if decide (o_Command op = CPUT) then '(res, kv) ← sk_applyPut op res kv; Some (res, kv, [])
  else if decide (o_Command op = CAPPEND) then '(res, kv) ← sk_applyAppend op res kv; Some (res, kv, [])
  else Some (res, kv, []).

(** One iteration of [applier]: the result goes into the channel of the index,
    which is made if need be; a full channel blocks. *)
Definition applier (index : Z) (op : Op) (kv : ShardKV) : outcome (ShardKV * list DeleteCall) :=
  match apply_op op kv with
  | None => Panic
  | Some (res, kv, calls) =>
      match sk_chans kv !! index with
      | Some (Some _) => Again (kv, calls)
      | _ => Done (set_sk_chans (<[index := Some res]> (sk_chans kv)) kv, calls)
      end
  end.

(** ** server.go *)
Section server.
Context {codec : StateCodec Op}.

(** [propose] up to the [select]. *)
Definition sk_propose_start (op : Op) (kv : ShardKV) : option ((SKResult + Z) * ShardKV * list (Effect Op)) :=
  '(ind, _, l, peer, es) ← Proposal op (sk_op kv);
  let kv := set_sk_op peer kv in
  if (l : bool) then
    let chans := match sk_chans kv !! ind with
                 | None => <[ind := None]> (sk_chans kv)
                 | Some _ => sk_chans kv
                 end in
    Some (inr ind, set_sk_chans chans kv, es)
  else Some (inl (err_result sk_ErrNotLeader), kv, es).

(** What [propose] returns for a result received from the channel. *)
Definition sk_match (op : Op) (result : SKResult) : SKResult :=
  let same :=
    if decide (o_Command op = CCHANGE) then bool_decide (Num (o_Config op) = r_ConfigNum result)
    else if decide (o_Command op = CDELETE) then bool_decide (o_ConfigNum op = r_ConfigNum result)
    else bool_decide (o_ClientId op = r_ClientId result ∧ o_RequestId op = r_RequestId result) in
  if same then result else err_result ErrTryAgain.

(** The [select] on channel [ind]: it takes the buffered result, if there is
    one and the timer did not win. *)
Definition sk_select (op : Op) (ind : Z) (timer : bool) (kv : ShardKV) : SKResult * ShardKV :=
  match timer, sk_chans kv !! ind with
  | false, Some (Some result) => (sk_match op result, set_sk_chans (<[ind := None]> (sk_chans kv)) kv)
  | _, _ => (err_result ErrTimeout, kv)
  end.

(** [propose]: [mid] is what the other goroutines do meanwhile, [None] when one
    of them panics. *)
Definition sk_propose (op : Op) (timer : bool) (mid : ShardKV → option ShardKV) (kv : ShardKV) :
    option (SKResult * ShardKV * list (Effect Op)) :=
  '(r, kv, es) ← sk_propose_start op kv;
  match r : SKResult + Z with
  | inl res => Some (res, kv, es)
  | inr ind => kv ← mid kv; let '(res, kv) := sk_select op ind timer kv in Some (res, kv, es)
  end.

Definition get_op (args : SKGetArgs) : Op :=
  mkOp CGET (sg_ClientId args) (sg_RequestId args) (sg_Key args) EmptyString zeroConfig emptyStore ∅ 0 0.
Definition putappend_op (args : SKPutAppendArgs) : Op :=
  mkOp (sp_Op args) (sp_ClientId args) (sp_RequestId args) (sp_Key args) (sp_Value args) zeroConfig emptyStore ∅ 0 0.
Definition delete_op (args : DeleteArgs) : Op :=
  mkOp CDELETE 0 0 EmptyString EmptyString zeroConfig emptyStore ∅ (d_Num args) (d_ShardId args).

Definition sk_Get (args : SKGetArgs) timer mid kv : option (SKGetReply * ShardKV * list (Effect Op)) :=
  '(res, kv, es) ← sk_propose (get_op args) timer mid kv;
  Some (mkSKGetReply (r_Value res) (r_Err res), kv, es).
Definition sk_PutAppend (args : SKPutAppendArgs) timer mid kv : option (string * ShardKV * list (Effect Op)) :=
  '(res, kv, es) ← sk_propose (putappend_op args) timer mid kv; Some (r_Err res, kv, es).

Definition sk_Delete (args : DeleteArgs) timer mid kv : option (string * ShardKV * list (Effect Op)) :=
  if negb (GetState (sk_op kv)).2 then Some (sk_ErrNotLeader, kv, [])
  else if decide (d_Num args > Num (config kv)) then Some (ErrTryAgain, kv, [])
  else '(_, kv, es) ← sk_propose (delete_op args) timer mid kv; Some (OK, kv, es).

Definition sk_StartServer (npeers : nat) (me : Z) (persister : Persister) (g : Z) :
    option (ShardKV * list (Effect Op)) :=
  '(op, es) ← Make npeers me persister;
  Some (mkSK me op g zeroConfig emptyStore ∅ ∅, es).
End server.

Definition Transfer (args : TransferArgs) (kv : ShardKV) : TransferReply :=
  if decide (Num (config kv) < t_Num args) then mkTransferReply emptyStore ∅ ErrTryAgain
  else mkTransferReply (store kv) (sk_prevReq kv) OK.

Definition sk_Kill (kv : ShardKV) : ShardKV := set_sk_op (Kill (sk_op kv)) kv.

(** The goroutine of [applyChange], run on the server's state at that time: the
    calls it makes, up to the first server that answers. *)
Definition delete_goroutine (c : DeleteCall) (kv : ShardKV) (answers : string → bool) : list (string * DeleteArgs) :=
  let args := mkDeleteArgs (Num (config kv)) (dc_sid c) in
  (fix go servers := match servers with
                     | [] => []
                     | s :: servers => (s, args) :: (if answers s then [] else go servers)
                     end) (default [] (Groups (config kv) !! dc_gid c)).

(** ** reconf.go *)
Definition shardsToTransfer (shards : list Z) (kv : ShardKV) : gmap Z (list Z) :=
  foldl (λ m i,
    match Shards (config kv) !! i, shards !! i with
    | Some g, Some g' =>
        if decide (g = gid kv ∨ g' ≠ gid kv) then m
        else if decide (g = 0) then m
        else <[g := default [] (m !! g) ++ [Z.of_nat i]]> m
    | _, _ => m
    end) ∅ (seq 0 10).

(** The first server whose [Transfer] call succeeds; [call] is what the network
    and the servers make of each call, [None] when it is lost. *)
Fixpoint first_transfer (call : string → TransferArgs → option TransferReply) (args : TransferArgs) (servers : list string) :
    option TransferReply :=
  match servers with
  | [] => None
  | s :: servers => match call s args with
                    | Some reply => if decide (t_Err reply = OK) then Some reply else first_transfer call args servers
                    | None => first_transfer call args servers
                    end
  end.

(** One goroutine of [getChangeOp]: merge the shards and the requests of group
    [g] into the operation. *)
Definition transfer_from (call : string → TransferArgs → option TransferReply) (conf : Config) (kv : ShardKV)
    (g : Z) (shardIds : list Z) (acc : stores * gmap Z Z * bool) : stores * gmap Z Z * bool :=
  let '(st, prev, ok) := acc in
  let reply := first_transfer call (mkTransferArgs (Num conf) shardIds) (default [] (Groups (config kv) !! g)) in
  let r := default zeroTransferReply reply in
  (foldl (λ st sid, alter (copyMap (default ∅ (t_Store r !! Z.to_nat sid))) (Z.to_nat sid) st) st shardIds,
   merge_max prev (t_Prev r), ok && bool_decide (is_Some reply)).

Definition change_op (conf : Config) (st : stores) (prev : gmap Z Z) : Op :=
  mkOp CCHANGE 0 0 EmptyString EmptyString conf st prev 0 0.

Definition getChangeOp (call : string → TransferArgs → option TransferReply) (conf : Config) (kv : ShardKV) : Op * bool :=
  let '(st, prev, ok) := map_fold (transfer_from call conf kv) (emptyStore, ∅, true) (shardsToTransfer (Shards conf) kv) in
  (change_op conf st prev, ok).

(** One turn of [catchUp]'s loop: what the servers answer to [Transfer], whether
    the timer of [propose] fires, and what the other goroutines of the server do
    during [Query], during the transfers and while [propose] waits. *)
Record turn := mkTurn {
  tn_call : string → TransferArgs → option TransferReply;
  tn_timer : bool;
  tn_query : ShardKV → option ShardKV;
  tn_fetch : ShardKV → option ShardKV;
  tn_propose : Op → ShardKV → option ShardKV;
}.

(** One round of [catchUp]: [latest] and [query] are the controller's answers.
    The loop reads [kv.config.Num] anew for its bound and for each query.  The
    result has the changes that were proposed, each with the state it was made
    from; the round is cut off when [turns] ends. *)
Section catchUp.
Context {codec : StateCodec Op} (query : Z → Config).

Fixpoint catchUp_loop (turns : list turn) (i : Z) (latest : Config) (kv : ShardKV) :
    option (ShardKV * list (Effect Op) * list (ShardKV * Op)) :=
  match turns with
  | [] => Some (kv, [], [])
  | t :: turns =>
      if decide (i <= wrap64 (Num latest - Num (config kv))) then
        let conf := query (wrap64 (i + Num (config kv))) in
        kv ← tn_query t kv;
        let '(op, ok) := getChangeOp (tn_call t) conf kv in
        kv1 ← tn_fetch t kv;
        if (ok : bool) then
          '(res, kv1, es) ← sk_propose op (tn_timer t) (tn_propose t op) kv1;
          if decide (r_Err res ≠ OK) then Some (kv1, es, [(kv, op)])
          else '(kv1, es', ps) ← catchUp_loop turns (wrap64 (i + 1)) latest kv1; Some (kv1, es ++ es', (kv, op) :: ps)
        else Some (kv1, [], [])
      else Some (kv, [], [])
  end.

Definition catchUp (turns : list turn) (latest : Config) (kv : ShardKV) :
    option (ShardKV * list (Effect Op) * list (ShardKV * Op)) :=
  if (GetState (sk_op kv)).2 then catchUp_loop turns 1 latest kv else Some (kv, [], []).
End catchUp.

(** ** client.go *)

(** [nrand] draws [clientId]; the request numbers start at 1. *)
Record SKClerk := mkSKClerk { ck_sm : Clerk; ck_config : Config; ck_clientId : Z; ck_requestId : Z }.

Definition MakeSKClerk (draw_sm draw : Z) : SKClerk := mkSKClerk (MakeClerk draw_sm) zeroConfig draw 0.

Definition newRequestId (ck : SKClerk) : Z * SKClerk :=
  let x := wrap64 (ck_requestId ck + 1) in
  (x, mkSKClerk (ck_sm ck) (ck_config ck) (ck_clientId ck) x).

(** The loop over the servers of a group: [Some r] when the method returns. *)
Fixpoint try_servers {R} (done wrong : R → bool) (call : string → option R) (servers : list string) : option R :=
  match servers with
  | [] => None
  | s :: servers =>
      match call s with
      | Some r => if done r then Some r else if wrong r then None else try_servers done wrong call servers
      | None => try_servers done wrong call servers
      end
  end.

(** The retry loop: one round per element of [rounds], which holds what the
    calls of the round answer and the configuration and the controller's clerk
    after the [Query] that ends it. *)
Fixpoint sk_retry {R} (finish wrong : R → bool) (key : string)
    (rounds : list ((string → option R) * (Config * Clerk))) (ck : SKClerk) : option (R * SKClerk) :=
  match rounds with
  | [] => None
  | (call, (conf, sm)) :: rounds =>
      match go_index (Shards (ck_config ck)) (key2shard key) with
      | None => None
      | Some g =>
          match (servers ← Groups (ck_config ck) !! g; try_servers finish wrong call servers) with
          | Some r => Some (r, ck)
          | None => sk_retry finish wrong key rounds (mkSKClerk sm conf (ck_clientId ck) (ck_requestId ck))
          end
      end
  end.

Definition SKClerk_Get (key : string) (ck : SKClerk)
    (rounds : SKGetArgs → list ((string → option SKGetReply) * (Config * Clerk))) : option (string * SKClerk) :=
  let '(req, ck) := newRequestId ck in
  let args := mkSKGetArgs key (ck_clientId ck) req in
  '(reply, ck) ← sk_retry (λ r, bool_decide (sg_Err r = OK ∨ sg_Err r = ErrNoKey))
                   (λ r, bool_decide (sg_Err r = ErrWrongGroup)) key (rounds args) ck;
  Some (sg_Value reply, ck).

Definition SKClerk_PutAppend (key value op : string) (ck : SKClerk)
    (rounds : SKPutAppendArgs → list ((string → option string) * (Config * Clerk))) : option SKClerk :=
  let '(req, ck) := newRequestId ck in
  let args := mkSKPutAppendArgs key value op (ck_clientId ck) req in
  '(_, ck) ← sk_retry (λ e, bool_decide (e = OK)) (λ e, bool_decide (e = ErrWrongGroup)) key (rounds args) ck;
  Some ck.

Definition SKClerk_Put (key value : string) (ck : SKClerk) rounds : option SKClerk := SKClerk_PutAppend key value CPUT ck rounds.
Definition SKClerk_Append (key value : string) (ck : SKClerk) rounds : option SKClerk := SKClerk_PutAppend key value CAPPEND ck rounds.
