(* ===== verification/ShardKVInv.v ===== *)
(** * What the operations of a shard server do

    Which operations change what, the request numbers, the transfers of a
    reconfiguration. *)
From Stdlib Require Import Strings.String Strings.Ascii.
From S2P Require Import Prelude Ballot Messages Persister OmniPaxos Service GoString ShardCtrler ShardKV.

(** ** Requests a map of numbers covers *)
Section covered.
Implicit Types m : gmap Z Z.

Definition covers m (c q : Z) : Prop := ∃ p, m !! c = Some p ∧ q <= p.

Lemma isNew_covers op kv : isNew op kv = false ↔ covers (sk_prevReq kv) (o_ClientId op) (o_RequestId op).
Proof.
  unfold isNew, covers. destruct (sk_prevReq kv !! o_ClientId op) as [p|].
  - rewrite bool_decide_eq_false. split; [intros; exists p; split; [done|lia]|intros (p' & [= <-] & ?); lia].
  - split; [done|]. by intros (? & ? & _).
Qed.

Lemma merge_max_lookup m src k :
  merge_max m src !! k = match src !! k with Some n => Some (Z.max (default 0 (m !! k)) n) | None => m !! k end.
Proof.
  unfold merge_max. revert k. apply (map_fold_weak_ind (λ r (src : gmap Z Z), ∀ k,
    r !! k = match src !! k with Some n => Some (Z.max (default 0 (m !! k)) n) | None => m !! k end)).
  - intros k. by rewrite lookup_empty.
  - intros i x src' r Hi IH k. destruct (decide (i = k)) as [->|Hne].
    + rewrite !lookup_insert_eq. by rewrite IH, Hi.
    + by rewrite !lookup_insert_ne by done.
Qed.

Lemma merge_max_l m src c q : covers m c q → covers (merge_max m src) c q.
Proof.
  intros (p & Hp & Hq). unfold covers. rewrite merge_max_lookup, Hp. destruct (src !! c); simpl; [|eauto].
  eexists. split; [done|]. lia.
Qed.

Lemma merge_max_r m src c q : covers src c q → covers (merge_max m src) c q.
Proof. intros (p & Hp & Hq). unfold covers. rewrite merge_max_lookup, Hp. eexists. split; [done|]. lia. Qed.

Lemma covers_insert m c q c' p : covers m c q → (∀ p0, m !! c' = Some p0 → p0 <= p) → covers (<[c' := p]> m) c q.
Proof.
  intros (p0 & Hp & Hq) Hle. unfold covers. destruct (decide (c' = c)) as [->|Hne].
  - rewrite lookup_insert_eq. specialize (Hle p0 Hp). eexists. split; [done|]. lia.
  - rewrite lookup_insert_ne by done. eauto.
Qed.
End covered.

(** ** One operation *)
Section operations.
Implicit Types kv : ShardKV.
Implicit Types op : Op.

Lemma key2shard_range key : 0 <= key2shard key < NShards.
Proof. unfold key2shard, NShards. destruct key as [|a key]; [done|]. apply Z.rem_bound_pos; [apply N2Z.is_nonneg|done]. Qed.

Record sk_wf kv : Prop := {
  kw_shards : length (Shards (config kv)) = 10%nat;
  kw_store : length (store kv) = 10%nat;
}.

(** The group the server believes owns the shard of a key. *)
Definition owner_of (key : string) kv : option Z := Shards (config kv) !! Z.to_nat (key2shard key).
Definition serves (key : string) kv : Prop := owner_of key kv = Some (gid kv).

Lemma isWrongGroup_spec key kv : sk_wf kv → ∃ g, owner_of key kv = Some g ∧
  isWrongGroup key kv = Some (bool_decide (g ≠ gid kv)).
Proof.
  intros [Hs _]. pose proof (key2shard_range key). unfold NShards in *.
  destruct (lookup_lt_is_Some_2 (Shards (config kv)) (Z.to_nat (key2shard key))) as [g Hg]; [lia|].
  exists g. split; [done|]. unfold isWrongGroup. by rewrite (proj2 (go_index_lookup _ _ g)) by (split; [lia|done]).
Qed.

Lemma shardOf_spec key kv : sk_wf kv → ∃ m, store kv !! Z.to_nat (key2shard key) = Some m ∧ shardOf key kv = Some m.
Proof.
  intros [_ Hs]. pose proof (key2shard_range key). unfold NShards in *.
  destruct (lookup_lt_is_Some_2 (store kv) (Z.to_nat (key2shard key))) as [m Hm]; [lia|].
  exists m. split; [done|]. unfold shardOf. by rewrite (proj2 (go_index_lookup _ _ m)) by (split; [lia|done]).
Qed.

(** The value the server has for a key. *)
Definition value_of (key : string) kv : option string := m ← store kv !! Z.to_nat (key2shard key); m !! key.

(** The server after a write has been executed. *)
Definition written key v kv : ShardKV :=
  set_store (alter (insert key v) (Z.to_nat (key2shard key)) (store kv)) kv.

Lemma put_key_spec key v kv : sk_wf kv → put_key key v kv = Some (written key v kv).
Proof.
  intros Hw. destruct (shardOf_spec key kv Hw) as (m & Hm & Hs). destruct Hw as [_ Hl].
  pose proof (key2shard_range key). unfold NShards in *.
  unfold put_key, written. rewrite Hs. cbn [mbind option_bind]. rewrite go_set_Some by lia. cbn [mbind option_bind].
  do 2 f_equal. apply list_eq. intros i. rewrite list_lookup_alter. destruct (decide (i = Z.to_nat (key2shard key))) as [->|Hi].
  - rewrite list_lookup_insert_eq by lia. rewrite Hm. by destruct (decide _).
  - rewrite list_lookup_insert_ne by done. by destruct (decide _) as [<-|].
Qed.

(** What executing a write leaves. *)
Definition new_value op kv : string :=
  if decide (o_Command op = CPUT) then o_Value op
  else (default EmptyString (value_of (o_Key op) kv) ++ o_Value op)%string.

Definition is_write op : Prop := o_Command op = CPUT ∨ o_Command op = CAPPEND.
#[export] Instance is_write_dec op : Decision (is_write op).
Proof. unfold is_write. apply _. Defined.
#[export] Instance serves_dec key kv : Decision (serves key kv).
Proof. unfold serves. apply _. Defined.

Definition op_result op (e : string) : SKResult :=
  mkSKResult (o_Command op) e (o_ClientId op) (o_RequestId op) EmptyString 0.

Lemma apply_write op kv : sk_wf kv → is_write op →
  ∃ e kv', apply_op op kv = Some (op_result op e, kv', []) ∧
    (¬ serves (o_Key op) kv → e = ErrWrongGroup ∧ kv' = kv) ∧
    (serves (o_Key op) kv → e = OK ∧
       kv' = (if isNew op kv then setPrevReqId op (written (o_Key op) (new_value op kv) kv) else kv)).
Proof.
  intros Hw Hop. destruct (isWrongGroup_spec (o_Key op) kv Hw) as (g & Hg & Hwr).
  assert (serves (o_Key op) kv ↔ g = gid kv) as Hs by (unfold serves; rewrite Hg; naive_solver).
  unfold apply_op, new_value. destruct Hop as [Hc|Hc]; rewrite Hc; simpl.
  - unfold sk_applyPut. rewrite Hwr. cbn [mbind option_bind]. case_bool_decide as Hb; cbn iota.
    + eexists _, _. unfold op_result. rewrite Hc. split; [done|]. naive_solver.
    + destruct (isNew op kv); simpl.
      * rewrite put_key_spec by done. simpl. eexists _, _. unfold op_result. rewrite Hc. split; [done|]. naive_solver.
      * eexists _, _. unfold op_result. rewrite Hc. split; [done|]. naive_solver.
  - unfold sk_applyAppend. rewrite Hwr. cbn [mbind option_bind]. case_bool_decide as Hb; cbn iota.
    + eexists _, _. unfold op_result. rewrite Hc. split; [done|]. naive_solver.
    + destruct (isNew op kv); simpl.
      * destruct (shardOf_spec (o_Key op) kv Hw) as (m & Hm & Hsh). rewrite Hsh. cbn [mbind option_bind].
        rewrite put_key_spec by done. simpl. unfold value_of. rewrite Hm.
        eexists _, _. unfold op_result. rewrite Hc. split; [done|]. naive_solver.
      * eexists _, _. unfold op_result. rewrite Hc. split; [done|]. naive_solver.
Qed.

Lemma apply_get op kv : sk_wf kv → o_Command op = CGET →
  ∃ res kv', apply_op op kv = Some (res, kv', []) ∧
    (¬ serves (o_Key op) kv → r_Err res = ErrWrongGroup ∧ r_Value res = EmptyString ∧ kv' = kv) ∧
    (serves (o_Key op) kv →
       r_Err res = (if value_of (o_Key op) kv then OK else ErrNoKey) ∧
       r_Value res = default EmptyString (value_of (o_Key op) kv) ∧
       kv' = (if isNew op kv then setPrevReqId op kv else kv)).
Proof.
  intros Hw Hc. destruct (isWrongGroup_spec (o_Key op) kv Hw) as (g & Hg & Hwr).
  assert (serves (o_Key op) kv ↔ g = gid kv) as Hs by (unfold serves; rewrite Hg; naive_solver).
  unfold apply_op. rewrite Hc. simpl. unfold sk_applyGet. rewrite Hwr. cbn [mbind option_bind].
  case_bool_decide as Hb; cbn iota.
  - eexists _, _. split; [done|]. naive_solver.
  - set (kv' := if isNew op kv then _ else kv). assert (shardOf (o_Key op) kv' = shardOf (o_Key op) kv) as ->.
    { unfold kv'. by destruct (isNew op kv). }
    destruct (shardOf_spec (o_Key op) kv Hw) as (m & Hm & Hsh). rewrite Hsh. cbn [mbind option_bind].
    unfold value_of. rewrite Hm. simpl. destruct (m !! o_Key op); eexists _, _; (split; [done|]); naive_solver.
Qed.

(** The change that takes effect. *)
Definition takes_effect op kv : Prop :=
  o_Command op = CCHANGE ∧ wrap64 (Num (o_Config op) - Num (config kv)) = 1.

Definition changed op kv : ShardKV :=
  set_config (o_Config op) (set_store (zip_with copyMap (o_Store op) (store kv))
    (set_sk_prevReq (merge_max (sk_prevReq kv) (o_PrevReq op)) kv)).

Lemma apply_change op kv : o_Command op = CCHANGE →
  ∃ res calls, apply_op op kv = Some (res, (if decide (takes_effect op kv) then changed op kv else kv), calls).
Proof.
  intros Hc. unfold apply_op, takes_effect. rewrite Hc. simpl. unfold applyChange. case_decide as Hn.
  - rewrite decide_False by naive_solver. by eexists _, _.
  - rewrite decide_True by tauto. by eexists _, _.
Qed.

(** A [Delete] that clears something. *)
Definition clears op kv : Prop :=
  o_ConfigNum op <= Num (config kv) ∧ Shards (config kv) !! Z.to_nat (o_ShardId op) ≠ Some (gid kv).
#[export] Instance clears_dec op kv : Decision (clears op kv).
Proof. unfold clears. apply _. Defined.

Lemma apply_delete op kv : sk_wf kv → o_Command op = CDELETE → 0 <= o_ShardId op < NShards →
  ∃ res, apply_op op kv = Some (res, (if decide (clears op kv)
                                      then set_store (<[Z.to_nat (o_ShardId op) := ∅]> (store kv)) kv else kv), []).
Proof.
  intros [Hs Hl] Hc Hid. unfold NShards in *. unfold apply_op. rewrite Hc. simpl. unfold applyDelete.
  destruct (lookup_lt_is_Some_2 (Shards (config kv)) (Z.to_nat (o_ShardId op))) as [g Hg]; [lia|].
  assert (clears op kv ↔ o_ConfigNum op <= Num (config kv) ∧ gid kv ≠ g) as Hcl.
  { unfold clears. rewrite Hg. split; intros [? Hn]; (split; [done|]); congruence. }
  case_decide; [|rewrite decide_False by tauto; by eexists].
  rewrite (proj2 (go_index_lookup _ _ g)) by (split; [lia|done]). cbn [mbind option_bind].
  destruct (decide (gid kv ≠ g)) as [Hne|He]; cbn iota.
  - rewrite go_set_Some by lia. rewrite decide_True by tauto. by eexists.
  - rewrite decide_False by tauto. by eexists.
Qed.
End operations.

(** ** The log of a group *)
Definition sk_consume (op : Op) (kv : ShardKV) : option ShardKV := (λ r, r.1.2) <$> apply_op op kv.

Definition op_wf (op : Op) : Prop :=
  o_Command op = CCHANGE → length (Shards (o_Config op)) = 10%nat ∧ length (o_Store op) = 10%nat.

#[export] Instance takes_effect_dec op kv : Decision (takes_effect op kv).
Proof. unfold takes_effect. apply _. Defined.

Section consume.
Implicit Types kv : ShardKV.
Implicit Types op : Op.

Lemma setPrevReqId_covers op kv c q : isNew op kv = true →
  covers (sk_prevReq kv) c q → covers (sk_prevReq (setPrevReqId op kv)) c q.
Proof.
  intros Hn Hc. simpl. apply covers_insert; [done|]. intros p0 Hp. unfold isNew in Hn. rewrite Hp in Hn.
  apply bool_decide_eq_true in Hn. lia.
Qed.

Lemma setPrevReqId_covered op kv : covers (sk_prevReq (setPrevReqId op kv)) (o_ClientId op) (o_RequestId op).
Proof. exists (o_RequestId op). simpl. rewrite lookup_insert_eq. split; [done|lia]. Qed.

Lemma applyDelete_inv op kv kv' : applyDelete op kv = Some kv' →
  ∃ st, length st = length (store kv) ∧ kv' = set_store st kv.
Proof.
  unfold applyDelete. case_decide; [|intros [= <-]; exists (store kv); split; [done|by destruct kv]].
  intros (g & _ & Hx)%bind_Some. case_decide; [|injection Hx as <-; exists (store kv); split; [done|by destruct kv]].
  apply bind_Some in Hx as (st & [_ ->]%go_set_inv & [= <-]). eexists. split; [|done]. by rewrite length_insert.
Qed.

(** An operation changes the configuration only as a change that takes effect. *)
Lemma consume_config op kv res kv' calls : apply_op op kv = Some (res, kv', calls) →
  config kv' = if decide (takes_effect op kv) then o_Config op else config kv.
Proof.
  intros Ha. destruct (decide (o_Command op = CCHANGE)) as [Hc|Hc].
  { destruct (apply_change op kv Hc) as (r & cs & Hx). rewrite Hx in Ha. injection Ha as _ <- _. by repeat case_decide. }
  rewrite decide_False by by intros [? _]. unfold apply_op in Ha. rewrite decide_False in Ha by done. repeat case_decide.
  - apply bind_Some in Ha as (kv1 & (st & _ & ->)%applyDelete_inv & [= _ <- _]). done.
  - apply bind_Some in Ha as ([r kv1] & Hg & [= _ <- _]). unfold sk_applyGet in Hg. apply bind_Some in Hg as ([] & _ & Hg); [by injection Hg as _ <-|].
    apply bind_Some in Hg as (m & _ & Hg). destruct (m !! _); injection Hg as _ <-; by case_match.
  - apply bind_Some in Ha as ([r kv1] & Hg & [= _ <- _]). unfold sk_applyPut in Hg. apply bind_Some in Hg as ([] & _ & Hg); [by injection Hg as _ <-|].
    destruct (negb _); [by injection Hg as _ <-|]. apply bind_Some in Hg as (kv2 & (m & _ & (st & _ & [= <-])%bind_Some)%bind_Some & [= _ <-]). done.
  - apply bind_Some in Ha as ([r kv1] & Hg & [= _ <- _]). unfold sk_applyAppend in Hg. apply bind_Some in Hg as ([] & _ & Hg); [by injection Hg as _ <-|].
    destruct (negb _); [by injection Hg as _ <-|]. apply bind_Some in Hg as (m0 & _ & (kv2 & (m & _ & (st & _ & [= <-])%bind_Some)%bind_Some & [= _ <-])%bind_Some). done.
  - by injection Ha as _ <- _.
Qed.

(** What every operation keeps. *)
Record step_kept op kv kv' : Prop := {
  sk_kept_wf : sk_wf kv';
  sk_kept_gid : gid kv' = gid kv;
  sk_kept_covers c q : covers (sk_prevReq kv) c q → covers (sk_prevReq kv') c q;
  sk_kept_config : config kv' = if decide (takes_effect op kv) then o_Config op else config kv;
}.

Lemma not_takes_effect op kv : o_Command op ≠ CCHANGE → ¬ takes_effect op kv.
Proof. by intros H [? _]. Qed.

Lemma kept_same op kv kv' : sk_wf kv → o_Command op ≠ CCHANGE → config kv' = config kv → gid kv' = gid kv →
  length (store kv') = length (store kv) →
  (∀ c q, covers (sk_prevReq kv) c q → covers (sk_prevReq kv') c q) → step_kept op kv kv'.
Proof.
  intros [H1 H2] Hc Hcf Hg Hl Hcov. split; [split; [by rewrite Hcf|by rewrite Hl]|done|done|].
  by rewrite decide_False by by apply not_takes_effect.
Qed.

Lemma kept_change op kv : sk_wf kv → op_wf op → o_Command op = CCHANGE →
  step_kept op kv (if decide (takes_effect op kv) then changed op kv else kv).
Proof.
  intros Hw Ho Hc. destruct (Ho Hc) as [Hs Hl]. case_decide as Ht.
  - split; [|done| |by rewrite decide_True].
    + split; simpl; [done|]. rewrite length_zip_with, Hl, (kw_store _ Hw). done.
    + simpl. intros c q. apply merge_max_l.
  - split; [done|done|done|by rewrite decide_False].
Qed.

Lemma written_length key v kv : length (store (written key v kv)) = length (store kv).
Proof. simpl. apply length_alter. Qed.

Lemma consume_kept op kv kv' : sk_wf kv → op_wf op → sk_consume op kv = Some kv' → step_kept op kv kv'.
Proof.
  intros Hw Ho. unfold sk_consume. intros ([[res kv1] calls] & Ha & ->)%fmap_Some. simpl.
  destruct (decide (o_Command op = CCHANGE)) as [Hc|Hc].
  { destruct (apply_change op kv Hc) as (r & cs & Hx). rewrite Hx in Ha. injection Ha as _ <- _. by apply kept_change. }
  destruct (decide (is_write op)) as [Hwr|Hwr].
  { destruct (apply_write op kv Hw Hwr) as (e & kv2 & Hx & Hno & Hyes). rewrite Hx in Ha. injection Ha as _ <- _.
    destruct (decide (serves (o_Key op) kv)) as [Hs|Hs].
    - destruct (Hyes Hs) as [_ ->]. destruct (isNew op kv) eqn:Hn; [|by apply kept_same].
      apply kept_same; [done|done|done|done|apply written_length|]. intros c q. by apply (setPrevReqId_covers op kv).
    - destruct (Hno Hs) as [_ ->]. by apply kept_same. }
  destruct (decide (o_Command op = CGET)) as [Hg|Hg].
  { destruct (apply_get op kv Hw Hg) as (r & kv2 & Hx & Hno & Hyes). rewrite Hx in Ha. injection Ha as _ <- _.
    destruct (decide (serves (o_Key op) kv)) as [Hs|Hs].
    - destruct (Hyes Hs) as (_ & _ & ->). destruct (isNew op kv) eqn:Hn; [|by apply kept_same].
      apply kept_same; [done..|]. intros c q. by apply setPrevReqId_covers.
    - destruct (Hno Hs) as (_ & _ & ->). by apply kept_same. }
  unfold apply_op in Ha. unfold is_write in Hwr. rewrite decide_False in Ha by done.
  rewrite (decide_False (P := o_Command op = CGET)), (decide_False (P := o_Command op = CPUT)),
    (decide_False (P := o_Command op = CAPPEND)) in Ha by tauto.
  case_decide; [|injection Ha as _ <- _; by apply kept_same].
  apply bind_Some in Ha as (kv2 & (st & Hl & ->)%applyDelete_inv & [= _ <- _]). by apply kept_same.
Qed.
End consume.

(** ** Reconfiguration *)
Section reconfiguration.
Implicit Types kv : ShardKV.

(** Shard [i] comes to the group of [kv] from group [p]. *)
Definition comes_from kv (shards : list Z) (i : nat) (p : Z) : Prop :=
  Shards (config kv) !! i = Some p ∧ p ≠ gid kv ∧ p ≠ 0 ∧ shards !! i = Some (gid kv).

Lemma transfer_fold kv shards (js : list nat) (p x : Z)
    (f := λ m i, match Shards (config kv) !! i, shards !! i with
                 | Some g, Some g' =>
                     if decide (g = gid kv ∨ g' ≠ gid kv) then m
                     else if decide (g = 0) then m
                     else <[g := default [] (m !! g) ++ [Z.of_nat i]]> m
                 | _, _ => m
                 end) :
  x ∈ default [] (foldl f (∅ : gmap Z (list Z)) js !! p) ↔ ∃ i, x = Z.of_nat i ∧ i ∈ js ∧ comes_from kv shards i p.
Proof.
  revert p x. induction js as [|j js IH] using rev_ind; intros p x.
  { simpl. rewrite lookup_empty. simpl. split; [by intros ?%not_elem_of_nil|]. intros (i & _ & ?%not_elem_of_nil & _). done. }
  rewrite foldl_snoc. set (m := foldl f ∅ js) in *.
  assert (∀ P : Prop, (P ↔ ∃ i, x = Z.of_nat i ∧ i ∈ js ∧ comes_from kv shards i p) → ¬ comes_from kv shards j p →
    P ↔ ∃ i, x = Z.of_nat i ∧ i ∈ js ++ [j] ∧ comes_from kv shards i p) as Hskip.
  { intros P -> Hno. split; intros (i & -> & Hi & Hc); exists i; (split; [done|]); (split; [|done]).
    - apply elem_of_app. by left.
    - apply elem_of_app in Hi as [Hi|Hi%list_elem_of_singleton]; [done|]. by subst. }
  unfold f at 1. unfold comes_from in *.
  destruct (Shards (config kv) !! j) as [g|] eqn:Hg; [|apply Hskip; [apply IH|naive_solver]].
  destruct (shards !! j) as [g'|] eqn:Hg'; [|apply Hskip; [apply IH|naive_solver]].
  case_decide as H1; [apply Hskip; [apply IH|naive_solver]|].
  case_decide as H2; [apply Hskip; [apply IH|naive_solver]|].
  destruct (decide (g = p)) as [->|Hne].
  2: { rewrite lookup_insert_ne by done. apply Hskip; [apply IH|naive_solver]. }
  rewrite lookup_insert_eq. simpl. rewrite elem_of_app, list_elem_of_singleton, IH. split.
  - intros [(i & -> & Hi & Hc)| ->]; [exists i; set_solver|]. exists j. split; [done|]. split; [set_solver|].
    split_and!; [done|naive_solver..|]. rewrite Hg'. f_equal. destruct (decide (g' = gid kv)); naive_solver.
  - intros (i & -> & [Hi|Hi%list_elem_of_singleton]%elem_of_app & Hc); [left; eauto|right; by subst].
Qed.

Lemma shardsToTransfer_spec kv shards p x :
  x ∈ default [] (shardsToTransfer shards kv !! p) ↔ ∃ i, x = Z.of_nat i ∧ (i < 10)%nat ∧ comes_from kv shards i p.
Proof.
  unfold shardsToTransfer. rewrite (transfer_fold kv shards (seq 0 10) p x). setoid_rewrite elem_of_seq.
  split; intros (i & ? & ? & ?); exists i; (split; [done|]); (split; [lia|done]).
Qed.

Lemma first_transfer_Some call args servers reply : first_transfer call args servers = Some reply →
  t_Err reply = OK ∧ ∃ s, s ∈ servers ∧ call s args = Some reply.
Proof.
  induction servers as [|s servers IH]; simpl; [done|].
  assert (first_transfer call args servers = Some reply →
    t_Err reply = OK ∧ ∃ s0, s0 ∈ s :: servers ∧ call s0 args = Some reply) as Hrec.
  { intros (? & s' & ? & ?)%IH. split; [done|]. exists s'. split; [by right|done]. }
  destruct (call s args) as [r|] eqn:Hc; [|done]. case_decide; [|done].
  intros [= <-]. split; [done|]. exists s. split; [left|done].
Qed.

Lemma alter_fold_lookup (src : stores) (ids : list Z) (st : stores) (i : nat) :
  foldl (λ st sid, alter (copyMap (default ∅ (src !! Z.to_nat sid))) (Z.to_nat sid) st) st ids !! i =
  if decide (i ∈ Z.to_nat <$> ids) then copyMap (default ∅ (src !! i)) <$> st !! i else st !! i.
Proof.
  revert st. induction ids as [|x ids IH]; intros st; simpl; [done|]. rewrite IH, list_lookup_alter.
  destruct (decide (Z.to_nat x = i)) as [->|Hx].
  - rewrite (decide_True (P := i ∈ i :: _)) by left. case_decide; [|done]. destruct (st !! i) as [m|]; [|done].
    simpl. f_equal. unfold copyMap. by rewrite (assoc_L (∪)), (idemp_L (∪)).
  - apply decide_ext. rewrite elem_of_cons. naive_solver.
Qed.

Lemma alter_fold_length (src : stores) (ids : list Z) (st : stores) :
  length (foldl (λ st sid, alter (copyMap (default ∅ (src !! Z.to_nat sid))) (Z.to_nat sid) st) st ids) = length st.
Proof. revert st. induction ids as [|x ids IH]; intros st; simpl; [done|]. by rewrite IH, length_alter. Qed.

(** The shards of a map of transfers belong to one group each. *)
Definition disjoint_ids (m : gmap Z (list Z)) : Prop :=
  (∀ p p' x, x ∈ default [] (m !! p) → x ∈ default [] (m !! p') → p = p') ∧
  ∀ p x, x ∈ default [] (m !! p) → 0 <= x.

Lemma disjoint_ids_insert p ids m : m !! p = None → disjoint_ids (<[p := ids]> m) →
  disjoint_ids m ∧ (∀ x, x ∈ ids → 0 <= x) ∧ ∀ p' x, x ∈ ids → x ∉ default [] (m !! p').
Proof.
  intros Hp [H1 H2].
  assert (∀ p' x, x ∈ default [] (m !! p') → p' ≠ p ∧ x ∈ default [] (<[p := ids]> m !! p')) as Hin.
  { intros p' x Hx. destruct (decide (p' = p)) as [->|Hne].
    - rewrite Hp in Hx. by apply not_elem_of_nil in Hx.
    - by rewrite lookup_insert_ne by done. }
  split_and!.
  - split; [intros p1 p2 x [? ?]%Hin [? ?]%Hin; by eapply H1|intros p1 x [? ?]%Hin; by eapply H2].
  - intros x Hx. apply (H2 p). by rewrite lookup_insert_eq.
  - intros p' x Hx [Hne Hx']%Hin. apply Hne, (H1 p' p x); [done|]. by rewrite lookup_insert_eq.
Qed.

(** What the goroutines of [getChangeOp] have merged for the groups of [m]. *)
Record merged call conf kv (acc : stores * gmap Z Z * bool) (m : gmap Z (list Z)) : Prop := {
  mg_length : length acc.1.1 = 10%nat;
  mg_other i : (i < 10)%nat → (∀ p, Z.of_nat i ∉ default [] (m !! p)) → acc.1.1 !! i = Some ∅;
  mg_reply p ids : acc.2 = true → m !! p = Some ids → ∃ reply,
    first_transfer call (mkTransferArgs (Num conf) ids) (default [] (Groups (config kv) !! p)) = Some reply ∧
    (∀ c q, covers (t_Prev reply) c q → covers acc.1.2 c q) ∧
    ∀ i, (i < 10)%nat → Z.of_nat i ∈ ids → acc.1.1 !! i = Some (default ∅ (t_Store reply !! i));
}.

Lemma elem_of_nats (ids : list Z) (i : nat) : (∀ x, x ∈ ids → 0 <= x) → i ∈ Z.to_nat <$> ids ↔ Z.of_nat i ∈ ids.
Proof.
  intros H0. rewrite list_elem_of_fmap. split.
  - intros (x & -> & Hx). specialize (H0 x Hx). by rewrite Z2Nat.id.
  - intros Hi. exists (Z.of_nat i). by rewrite Nat2Z.id.
Qed.

Lemma merged_step call conf kv acc m p ids : m !! p = None → disjoint_ids (<[p := ids]> m) →
  merged call conf kv acc m → merged call conf kv (transfer_from call conf kv p ids acc) (<[p := ids]> m).
Proof.
  intros Hp Hdis [Hlen Hoth Hrep]. destruct (disjoint_ids_insert _ _ _ Hp Hdis) as (_ & H0 & Hnew).
  destruct acc as [[st prev] ok]. unfold transfer_from. simpl in *.
  set (reply := first_transfer _ _ _). set (r := default zeroTransferReply reply). split; simpl.
  - by rewrite alter_fold_length.
  - intros i Hi Hno. rewrite alter_fold_lookup, decide_False.
    + apply Hoth; [done|]. intros p' Hx. specialize (Hno p'). apply Hno.
      rewrite lookup_insert_ne; [done|]. intros ->. rewrite Hp in Hx. by apply not_elem_of_nil in Hx.
    + rewrite elem_of_nats by done. specialize (Hno p). by rewrite lookup_insert_eq in Hno.
  - intros p' ids' [Hok Hsome]%andb_true_iff Hl. apply bool_decide_eq_true in Hsome.
    destruct (decide (p = p')) as [<-|Hne].
    + rewrite lookup_insert_eq in Hl. injection Hl as <-. destruct Hsome as [rep Hr]. exists rep. split; [done|].
      unfold r. rewrite Hr. simpl. split; [intros c q; apply merge_max_r|]. intros i Hi Hin.
      rewrite alter_fold_lookup, decide_True by by apply elem_of_nats.
      rewrite (Hoth i Hi (λ p', Hnew p' _ Hin)). simpl. unfold copyMap. by rewrite map_union_empty.
    + rewrite lookup_insert_ne in Hl by done. destruct (Hrep p' ids' Hok Hl) as (rep & Hr & Hcov & Hst).
      exists rep. split; [done|]. split; [intros c q Hc; by apply merge_max_l, Hcov|]. intros i Hi Hin.
      rewrite alter_fold_lookup, decide_False; [by apply Hst|]. rewrite elem_of_nats by done.
      intros Hx. apply (Hnew p' _ Hx). by rewrite Hl.
Qed.

Lemma merged_fold call conf kv m : disjoint_ids m →
  merged call conf kv (map_fold (transfer_from call conf kv) (emptyStore, ∅, true) m) m.
Proof.
  apply (map_fold_weak_ind (λ acc m, disjoint_ids m → merged call conf kv acc m)).
  - intros _. split; simpl; [done| |].
    + intros i Hi _. unfold emptyStore. apply lookup_replicate. by split.
    + intros p ids _. by rewrite lookup_empty.
  - intros p ids m' acc Hp IH Hdis. apply merged_step; [done|done|]. apply IH. by eapply disjoint_ids_insert.
Qed.

(** A change operation that [getChangeOp] completes carries the shards that come
    to the group and the request numbers of the groups they come from. *)
Lemma getChangeOp_spec call conf kv op : getChangeOp call conf kv = (op, true) →
  o_Command op = CCHANGE ∧ o_Config op = conf ∧ length (o_Store op) = 10%nat ∧
  (∀ i, (i < 10)%nat → (∀ p, ¬ comes_from kv (Shards conf) i p) → o_Store op !! i = Some ∅) ∧
  (∀ i p, (i < 10)%nat → comes_from kv (Shards conf) i p → ∃ servers s ids reply,
     Groups (config kv) !! p = Some servers ∧ s ∈ servers ∧
     call s (mkTransferArgs (Num conf) ids) = Some reply ∧ t_Err reply = OK ∧
     o_Store op !! i = Some (default ∅ (t_Store reply !! i)) ∧
     ∀ c q, covers (t_Prev reply) c q → covers (o_PrevReq op) c q).
Proof.
  unfold getChangeOp. set (m := shardsToTransfer (Shards conf) kv).
  assert (disjoint_ids m) as Hdis.
  { split.
    - intros p p' x (i & -> & _ & Hc & _)%shardsToTransfer_spec (j & Hj & _ & Hc' & _)%shardsToTransfer_spec.
      apply Nat2Z.inj in Hj. subst j. congruence.
    - intros p x (i & -> & _)%shardsToTransfer_spec. lia. }
  pose proof (merged_fold call conf kv m Hdis) as [Hlen Hoth Hrep].
  destruct (map_fold _ _ m) as [[st prev] ok]. cbn [fst snd] in *. intros [= <- ->]. cbn [change_op o_Command o_Config o_Store o_PrevReq]. split; [reflexivity|]. split; [reflexivity|]. split; [exact Hlen|]. split.
  - intros i Hi Hno. apply Hoth; [done|]. intros p (j & Hj & _ & Hc)%shardsToTransfer_spec.
    apply Nat2Z.inj in Hj. subst j. by eapply Hno.
  - intros i p Hi Hc.
    assert (Z.of_nat i ∈ default [] (m !! p)) as Hin by (apply shardsToTransfer_spec; by exists i).
    destruct (m !! p) as [ids|] eqn:Hm; [|by apply not_elem_of_nil in Hin].
    destruct (Hrep p ids eq_refl Hm) as (reply & Hf & Hcov & Hst).
    apply first_transfer_Some in Hf as (Herr & s & Hs & Hcall).
    destruct (Groups (config kv) !! p) as [servers|] eqn:Hg; [|by apply not_elem_of_nil in Hs].
    exists servers, s, ids, reply. split; [done|]. split; [done|]. split; [exact Hcall|]. split; [exact Herr|]. split; [by apply Hst|exact Hcov].
Qed.
End reconfiguration.
