(* ===== verification/ShardWorld.v ===== *)
(** * Replica groups under reconfiguration

    The controller's history and the logs of all groups, growing together: a
    group's log takes client operations, deletes, and the change operations that
    [getChangeOp] makes from the answers of other groups' servers.  A server is
    at some prefix of its group's log, so a transfer may read any prefix. *)
From Stdlib Require Import Strings.String Strings.Ascii.
From S2P Require Import Prelude Ballot Messages Persister OmniPaxos Service GoString ShardCtrler ShardKV ShardKVInv.

(** The server [StartServer] makes. *)
Definition sk_init (me : Z) (op : OmniPaxos Op) (g : Z) : ShardKV := mkSK me op g zeroConfig emptyStore ∅ ∅.

Record world := mkWorld { w_confs : list Config; w_logs : gmap Z (list Op) }.

Definition log_of (w : world) (g : Z) : list Op := default [] (w_logs w !! g).
Definition push_op (g : Z) (op : Op) (w : world) : world :=
  mkWorld (w_confs w) (<[g := log_of w g ++ [op]]> (w_logs w)).
Definition push_config (c : Config) (w : world) : world := mkWorld (w_confs w ++ [c]) (w_logs w).

(** The controller has only its first configuration; no log has an entry. *)
Definition world_init : world := mkWorld [zeroConfig] ∅.

Section world.
Context (peer : OmniPaxos Op) (home : string → Z).
Implicit Types w : world.
Implicit Types kv : ShardKV.
Implicit Types l : list Op.

(** The state of a server of group [g] that has consumed [l]. *)
Definition state_at (g : Z) (l : list Op) : option ShardKV := apply_all sk_consume l (sk_init 0 peer g).

(** The answers to [Transfer]: each comes from a server of the group the address
    belongs to, which has consumed some prefix of the group's log. *)
Definition answers w (call : string → TransferArgs → option TransferReply) : Prop :=
  ∀ s args reply, call s args = Some reply → ∃ l kv,
    l `prefix_of` log_of w (home s) ∧ state_at (home s) l = Some kv ∧ reply = Transfer args kv.

Definition config_ok (i : nat) (c : Config) : Prop :=
  Num c = Z.of_nat i ∧ length (Shards c) = 10%nat ∧
  ∀ g servers s, Groups c !! g = Some servers → s ∈ servers → home s = g.

(** [WRequest] logs an operation of a client, or a delete; [WChange] logs what
    [getChangeOp] makes for any configuration of the history from the state of
    some server of the group, at whatever prefix of the log it is. *)
Inductive world_event :=
  | WConfigure (c : Config)
  | WRequest (g : Z) (op : Op)
  | WChange (g : Z) (l : list Op) (conf : Config) (op : Op).

Inductive world_step : world_event → world → world → Prop :=
  | ws_configure w c : config_ok (length (w_confs w)) c → len (w_confs w) + 1 < 2 ^ 63 → world_step (WConfigure c) w (push_config c w)
  | ws_request w g op : g ≠ 0 → o_Command op ≠ CCHANGE → world_step (WRequest g op) w (push_op g op w)
  | ws_change w g l kv call conf op : g ≠ 0 → l `prefix_of` log_of w g → state_at g l = Some kv → conf ∈ w_confs w →
      answers w call → getChangeOp call conf kv = (op, true) → world_step (WChange g l conf op) w (push_op g op w).

Inductive world_reachable : world → Prop :=
  | wr_init : world_reachable world_init
  | wr_step w ev w' : world_reachable w → world_step ev w w' → world_reachable w'.

(** The loop of [catchUp] also makes changes two and more configurations ahead of
    its server.  [stepwise]: such a change has no effect when it is logged,
    because the group has not been taken to the configuration before it in the
    meantime. *)
Definition stepwise (ev : world_event) w : Prop :=
  match ev with
  | WChange g l conf op => ∀ kv kv', state_at g l = Some kv → state_at g (log_of w g) = Some kv' →
      takes_effect op kv' → Num conf = Num (config kv) + 1
  | _ => True
  end.

Inductive stepwise_reachable : world → Prop :=
  | sr_init : stepwise_reachable world_init
  | sr_step w ev w' : stepwise_reachable w → stepwise ev w → world_step ev w w' → stepwise_reachable w'.

Lemma stepwise_reachable_world w : stepwise_reachable w → world_reachable w.
Proof. induction 1; [constructor|by econstructor]. Qed.

(** ** The invariant *)
Definition backed w (m : Z) (op : Op) (p : Z) : Prop := ∃ lp kvp,
  lp `prefix_of` log_of w p ∧ state_at p lp = Some kvp ∧ m <= Num (config kvp) ∧
  ∀ c q, covers (sk_prevReq kvp) c q → covers (o_PrevReq op) c q.

Record world_inv w : Prop := {
  wi_zero : w_confs w !! 0%nat = Some zeroConfig;
  wi_len : len (w_confs w) < 2 ^ 63;
  wi_confs i c : w_confs w !! i = Some c → config_ok i c;
  wi_zero_group : log_of w 0 = [];
  wi_ops g op : op ∈ log_of w g → op_wf op;
  wi_state g l kv : l `prefix_of` log_of w g → state_at g l = Some kv →
    sk_wf kv ∧ gid kv = g ∧ 0 <= Num (config kv) ∧ w_confs w !! Z.to_nat (Num (config kv)) = Some (config kv);
  wi_change g l op kv : l ++ [op] `prefix_of` log_of w g → state_at g l = Some kv → takes_effect op kv →
    Num (o_Config op) = Num (config kv) + 1 ∧
    ∀ i p, (i < 10)%nat → comes_from kv (Shards (o_Config op)) i p → backed w (Num (o_Config op)) op p;
}.

Lemma state_at_snoc g l op kv' :
  state_at g (l ++ [op]) = Some kv' ↔ ∃ kv, state_at g l = Some kv ∧ sk_consume op kv = Some kv'.
Proof. apply apply_all_snoc. Qed.

Lemma log_of_push g op w g' : log_of (push_op g op w) g' = if decide (g' = g) then log_of w g ++ [op] else log_of w g'.
Proof.
  unfold log_of, push_op. simpl. case_decide as Hg; [subst; by rewrite lookup_insert_eq|].
  by rewrite lookup_insert_ne by done.
Qed.

Lemma log_of_push_prefix g op w g' : log_of w g' `prefix_of` log_of (push_op g op w) g'.
Proof. rewrite log_of_push. case_decide; [subst; by eexists|done]. Qed.

(** The prefixes of a log that grew by one operation. *)
Lemma prefix_push g op w g' l : l `prefix_of` log_of (push_op g op w) g' →
  l `prefix_of` log_of w g' ∨ (g' = g ∧ l = log_of w g ++ [op]).
Proof.
  rewrite log_of_push. case_decide as Hg; [subst|by left]. intros Hp.
  apply prefix_snoc_inv in Hp as [?| ->]; [by left|by right].
Qed.

Lemma backed_mono w w' m op p : (∀ g, log_of w g `prefix_of` log_of w' g) → backed w m op p → backed w' m op p.
Proof. intros Hw (lp & kvp & Hp & ?). exists lp, kvp. split; [by etransitivity|done]. Qed.

Lemma world_init_inv : world_inv world_init.
Proof.
  assert (∀ g, log_of world_init g = []) as Hlog by (intros g; unfold log_of; simpl; by rewrite lookup_empty).
  split; simpl; try done.
  - intros [|i] c Hc; [injection Hc as <-|done]. split_and!; [done..|]. intros g servers s Hg. change (Groups zeroConfig) with (∅ : gmap Z (list string)) in Hg. by rewrite lookup_empty in Hg.
  - intros g op. rewrite Hlog. by intros ?%not_elem_of_nil.
  - intros g l kv. rewrite Hlog. intros ->%prefix_nil_inv [= <-]. by split_and!.
  - intros g l op kv. rewrite Hlog. intros Hp%prefix_nil_inv. by destruct l.
Qed.

Lemma world_inv_configure w c : world_inv w → config_ok (length (w_confs w)) c → len (w_confs w) + 1 < 2 ^ 63 →
  world_inv (push_config c w).
Proof.
  intros [H0 Hl Hc Hz Ho Hs Hch] Hok Hroom. split; simpl.
  - by apply lookup_app_l_Some.
  - rewrite length_app. simpl. lia.
  - intros i c' [Hi|[Hge Hi]]%lookup_app_Some; [by apply Hc|].
    apply list_lookup_singleton_Some in Hi as [Hi <-]. by replace i with (length (w_confs w)) by lia.
  - done.
  - done.
  - intros g l kv Hp Hst. destruct (Hs g l kv Hp Hst) as (? & ? & ? & ?). split_and!; [done..|]. by apply lookup_app_l_Some.
  - done.
Qed.

Lemma apply_prefix_Some g l l' kv : l `prefix_of` l' → state_at g l' = Some kv → ∃ kv0, state_at g l = Some kv0.
Proof. intros [k ->]. unfold state_at. rewrite apply_all_app. intros (kv0 & ? & _)%bind_Some. eauto. Qed.

(** The configuration a server reaches is one of the history. *)
Lemma push_state w g op kv kv' : world_inv w → op_wf op → g ≠ 0 →
  state_at g (log_of w g) = Some kv → sk_consume op kv = Some kv' →
  (takes_effect op kv → Num (o_Config op) = Num (config kv) + 1 ∧ o_Config op ∈ w_confs w) →
  sk_wf kv' ∧ gid kv' = g ∧ 0 <= Num (config kv') ∧ w_confs w !! Z.to_nat (Num (config kv')) = Some (config kv').
Proof.
  intros [H0 Hl Hc Hz Ho Hs Hch] How Hg Hst Hcons Heff.
  destruct (Hs g _ kv (reflexivity _) Hst) as (Hwf & Hgid & Hn & Hcf).
  destruct (consume_kept op kv kv' Hwf How Hcons) as [Hwf' Hgid' _ Hconf].
  split; [done|]. split; [congruence|]. rewrite Hconf. case_decide as Ht; [|done].
  destruct (Heff Ht) as [Hnum [i Hi]%list_elem_of_lookup]. destruct (Hc i _ Hi) as (Hi' & _).
  split; [lia|]. by rewrite Hi', Nat2Z.id.
Qed.

Lemma world_inv_push w g op : world_inv w → op_wf op → g ≠ 0 →
  (∀ kv, state_at g (log_of w g) = Some kv → takes_effect op kv →
     Num (o_Config op) = Num (config kv) + 1 ∧ o_Config op ∈ w_confs w ∧
     ∀ i p, (i < 10)%nat → comes_from kv (Shards (o_Config op)) i p → backed w (Num (o_Config op)) op p) →
  world_inv (push_op g op w).
Proof.
  intros Hinv How Hg Heff. pose proof Hinv as [H0 Hl Hc Hz Ho Hs Hch]. split; [done..| | | |].
  - rewrite log_of_push. by rewrite decide_False.
  - intros g' op'. rewrite log_of_push. case_decide; [subst|by apply Ho].
    rewrite elem_of_app, list_elem_of_singleton. intros [?| ->]; [by eapply Ho|done].
  - intros g' l kv' [Hp|[-> ->]]%prefix_push Hst; [by apply Hs with l|].
    apply state_at_snoc in Hst as (kv & Hkv & Hcons). apply (push_state w g op kv kv'); [done..|].
    intros Ht. destruct (Heff kv Hkv Ht) as (? & ? & _). done.
  - intros g' l op' kv [Hp|[-> Heq]]%prefix_push Hst Ht.
    + destruct (Hch g' l op' kv Hp Hst Ht) as [Hn Hb]. split; [done|]. intros i p Hi Hcm.
      apply (backed_mono w); [apply log_of_push_prefix|by eapply Hb].
    + apply app_inj_tail in Heq as [-> ->]. destruct (Heff kv Hst Ht) as (Hn & _ & Hb). split; [done|].
      intros i p Hi Hcm. apply (backed_mono w); [apply log_of_push_prefix|by eapply Hb].
Qed.

(** What [getChangeOp] makes is backed by the groups the shards come from. *)
Lemma getChangeOp_backed w l g kv call conf op : world_inv w →
  l `prefix_of` log_of w g → state_at g l = Some kv → answers w call →
  getChangeOp call conf kv = (op, true) →
  ∀ i p, (i < 10)%nat → comes_from kv (Shards conf) i p → backed w (Num conf) op p.
Proof.
  intros [H0 Hl Hc Hz Ho Hs Hch] Hp Hst Hans Hget i p Hi Hcm.
  destruct (getChangeOp_spec _ _ _ _ Hget) as (_ & _ & _ & _ & Hfrom).
  destruct (Hfrom i p Hi Hcm) as (servers & s & ids & reply & Hgr & Hs' & Hcall & Herr & _ & Hcov).
  destruct (Hs g l kv Hp Hst) as (_ & _ & _ & Hcf). destruct (Hc _ _ Hcf) as (_ & _ & Hhome).
  destruct (Hans s _ reply Hcall) as (lp & kvp & Hlp & Hsp & ->). rewrite (Hhome p servers s Hgr Hs') in *.
  exists lp, kvp. unfold Transfer in *. simpl in *. case_decide as Hlt; [done|].
  split_and!; [done..|lia|done].
Qed.

Lemma world_inv_step w ev w' : world_inv w → stepwise ev w → world_step ev w w' → world_inv w'.
Proof.
  intros Hinv Hnext Hstep. destruct Hstep as [w c Hok Hroom|w g op Hg Hno|w g l kv call conf op Hg Hp Hst Hin Hans Hget].
  - by apply world_inv_configure.
  - apply world_inv_push; [done|by intros ?|done|]. intros kv Hst [Ht _]. done.
  - destruct (getChangeOp_spec _ _ _ _ Hget) as (Hcmd & Hconf & Hlen & _).
    pose proof Hinv as [H0 Hl Hc Hz Ho Hs Hch]. apply list_elem_of_lookup in Hin as [j Hj].
    destruct (Hc j conf Hj) as (Hcn & Hsh & _). pose proof (lookup_lt_Some _ _ _ Hj).
    apply world_inv_push; [done|by intros _; rewrite Hconf|done|].
    intros kv' Hst' Ht. pose proof (Hnext kv kv' Hst Hst' Ht) as Hnum. destruct Ht as [_ Ht]. rewrite Hconf in *.
    destruct (Hs g _ kv' (reflexivity _) Hst') as (_ & Hg' & Hn' & Hcf'). destruct (Hs g l kv Hp Hst) as (_ & Hg'' & Hn & Hcf).
    pose proof (lookup_lt_Some _ _ _ Hcf'). rewrite wrap64_id in Ht by (unfold in64; lia).
    assert (config kv' = config kv) as He.
    { replace (Num (config kv)) with (Num (config kv')) in Hcf by lia. congruence. }
    split; [lia|]. split; [by eapply list_elem_of_lookup_2|]. intros i p Hi Hcm.
    eapply (getChangeOp_backed w l g kv); [done..|exact Hi|].
    unfold comes_from in *. by rewrite He, Hg', <-Hg'' in Hcm.
Qed.

Lemma stepwise_reachable_inv w : stepwise_reachable w → world_inv w.
Proof. induction 1; [apply world_init_inv|by eapply world_inv_step]. Qed.
End world.

(** ** Along one log *)
Section histories.
Context (peer : OmniPaxos Op) (home : string → Z) (w : world) (Hinv : world_inv peer home w).
Implicit Types l : list Op.
Implicit Types kv : ShardKV.
Abbreviation state_at := (state_at peer).

Lemma state_snoc_kept g l op kv : l ++ [op] `prefix_of` log_of w g → state_at g (l ++ [op]) = Some kv →
  ∃ kv0, state_at g l = Some kv0 ∧ sk_consume op kv0 = Some kv ∧ step_kept op kv0 kv.
Proof using All.
  intros Hp (kv0 & H0 & Hc)%state_at_snoc. exists kv0. split; [done|]. split; [done|].
  assert (l `prefix_of` log_of w g) as Hp0 by (etransitivity; [by eexists|exact Hp]).
  apply consume_kept; [by apply (wi_state _ _ _ Hinv g l kv0 Hp0 H0)| |done].
  eapply (wi_ops _ _ _ Hinv g). eapply elem_of_prefix; [|exact Hp]. set_solver.
Qed.

Lemma step_num g l op kv kv0 : l ++ [op] `prefix_of` log_of w g → state_at g l = Some kv0 → step_kept op kv0 kv →
  (Num (config kv) = Num (config kv0) ∧ config kv = config kv0) ∨
  (takes_effect op kv0 ∧ Num (config kv) = Num (config kv0) + 1 ∧ config kv = o_Config op).
Proof using All.
  intros Hp H0 Hk. rewrite (sk_kept_config _ _ _ Hk). case_decide as Ht; [|by left].
  right. split; [done|]. split; [|done]. by apply (wi_change _ _ _ Hinv g l op kv0).
Qed.

(** Configuration numbers and covered requests only grow. *)
Lemma log_mono g l1 l2 kv1 kv2 : l1 `prefix_of` l2 → l2 `prefix_of` log_of w g →
  state_at g l1 = Some kv1 → state_at g l2 = Some kv2 →
  Num (config kv1) <= Num (config kv2) ∧ ∀ c q, covers (sk_prevReq kv1) c q → covers (sk_prevReq kv2) c q.
Proof using All.
  intros [k ->]. revert kv2. induction k as [|op k IH] using rev_ind; intros kv2 Hp H1 H2.
  - rewrite app_nil_r, H1 in H2. injection H2 as ->. by split.
  - rewrite (assoc_L (++)) in *. destruct (state_snoc_kept _ _ _ _ Hp H2) as (kv0 & H0 & _ & Hk).
    destruct (IH kv0) as [Hn Hcov]; [etransitivity; [by eexists|exact Hp]|done|done|].
    destruct (step_num _ _ _ _ _ Hp H0 Hk) as [[-> _]|(_ & -> & _)];
      (split; [lia|]; intros c q Hc; by apply (sk_kept_covers _ _ _ Hk), Hcov).
Qed.

(** A log whose configuration number passes [n] has an operation that takes
    effect as the change to [n]. *)
Lemma crossing g l1 l2 kv1 kv2 n : l1 `prefix_of` l2 → l2 `prefix_of` log_of w g →
  state_at g l1 = Some kv1 → state_at g l2 = Some kv2 → Num (config kv1) < n <= Num (config kv2) →
  ∃ l op kv kv', l1 `prefix_of` l ∧ l ++ [op] `prefix_of` l2 ∧ state_at g l = Some kv ∧
    state_at g (l ++ [op]) = Some kv' ∧ takes_effect op kv ∧ step_kept op kv kv' ∧
    Num (config kv) = n - 1 ∧ Num (o_Config op) = n ∧ config kv' = o_Config op.
Proof using All.
  intros [k ->]. revert kv2. induction k as [|op k IH] using rev_ind; intros kv2 Hp H1 H2 Hn.
  - rewrite app_nil_r, H1 in H2. injection H2 as ->. lia.
  - rewrite (assoc_L (++)) in *. destruct (state_snoc_kept _ _ _ _ Hp H2) as (kv0 & H0 & _ & Hk).
    assert (l1 ++ k `prefix_of` log_of w g) as Hp0 by (etransitivity; [by eexists|exact Hp]).
    destruct (decide (n <= Num (config kv0))) as [Hle|Hgt].
    + destruct (IH kv0 Hp0 H1 H0) as (l & op' & kv & kv' & Hl & Hlp & ?); [lia|].
      exists l, op', kv, kv'. split; [done|]. split; [|done]. etransitivity; [exact Hlp|by eexists].
    + destruct (step_num _ _ _ _ _ Hp H0 Hk) as [[Hsame _]|(Ht & Hs & Hcf)]; [lia|].
      exists (l1 ++ k), op, kv0, kv2. split; [by eexists|]. split; [done|]. split; [done|]. split; [done|].
      split; [done|]. split; [done|]. split; [lia|]. rewrite <-Hcf. split; [lia|done].
Qed.

(** The change to a configuration merges what the previous owner covers. *)
Lemma crossing_backed g l2 kv2 n s : l2 `prefix_of` log_of w g → state_at g l2 = Some kv2 →
  1 <= n <= Num (config kv2) → (s < 10)%nat → ∃ l op kv kv' c c',
    l ++ [op] `prefix_of` l2 ∧ state_at g l = Some kv ∧ state_at g (l ++ [op]) = Some kv' ∧
    Num (config kv) = n - 1 ∧ Num (config kv') = n ∧ step_kept op kv kv' ∧ takes_effect op kv ∧
    w_confs w !! Z.to_nat (n - 1) = Some c ∧ w_confs w !! Z.to_nat n = Some c' ∧
    (∀ p, Shards c' !! s = Some g → Shards c !! s = Some p → p ≠ g → p ≠ 0 → backed peer w n op p).
Proof using All.
  intros Hp H2 Hn Hs. destruct (crossing g [] l2 (sk_init 0 peer g) kv2 n) as
    (l & op & kv & kv' & _ & Hlp & Hkv & Hkv' & Ht & Hk & Hn1 & Hn2 & Hcf); [apply prefix_nil|done|done|done|simpl; lia|].
  assert (l ++ [op] `prefix_of` log_of w g) as Hlog by by etransitivity.
  assert (l `prefix_of` log_of w g) as Hlog0 by (etransitivity; [by eexists|exact Hlog]).
  destruct (wi_state _ _ _ Hinv g l kv Hlog0 Hkv) as (_ & Hgid & _ & Hc).
  destruct (wi_state _ _ _ Hinv g _ kv' Hlog Hkv') as (_ & _ & _ & Hc').
  destruct (wi_change _ _ _ Hinv g l op kv Hlog Hkv Ht) as [_ Hb].
  assert (Num (config kv') = n) as Hn' by by rewrite Hcf. rewrite Hn1 in Hc. rewrite Hn' in Hc'.
  exists l, op, kv, kv', (config kv), (config kv'). split_and!; try done.
  intros p Hg Hpr Hne Hz. rewrite <-Hn2. apply (Hb s p Hs). unfold comes_from.
  rewrite Hgid, <-Hcf. by split_and!.
Qed.

(** ** Shards changing hands *)
Definition owner_at (n : Z) (s : nat) (g : Z) : Prop := ∃ c, w_confs w !! Z.to_nat n = Some c ∧ Shards c !! s = Some g.

Lemma owner_at_inj n s g g' : owner_at n s g → owner_at n s g' → g = g'.
Proof using All. intros (c & Hc & Hg) (c' & Hc' & Hg'). congruence. Qed.

(** The server of a state serves what its configuration says. *)
Lemma serves_owner g l kv key : l `prefix_of` log_of w g → state_at g l = Some kv → serves key kv →
  owner_at (Num (config kv)) (Z.to_nat (key2shard key)) g.
Proof using All.
  intros Hp Hst Hs. destruct (wi_state _ _ _ Hinv g l kv Hp Hst) as (_ & Hg & _ & Hc).
  exists (config kv). split; [done|]. unfold serves, owner_of in Hs. by rewrite Hs, Hg.
Qed.

(** Once shard [s] is assigned to a group, it stays assigned to some group. *)
Definition kept_assigned (s : nat) : Prop :=
  ∀ i j c c', (i ≤ j)%nat → w_confs w !! i = Some c → w_confs w !! j = Some c' →
    Shards c !! s ≠ Some 0 → Shards c' !! s ≠ Some 0.

(** The previous owner, when the shard was assigned at [n] already. *)
Lemma previous_owner s n g n' c : kept_assigned s → (s < 10)%nat → owner_at n s g → g ≠ 0 → 0 <= n <= n' - 1 →
  w_confs w !! Z.to_nat (n' - 1) = Some c → ∃ p, Shards c !! s = Some p ∧ p ≠ 0 ∧ owner_at (n' - 1) s p.
Proof using All.
  intros Hkept Hs (c0 & Hc0 & Hg) Hg0 Hn Hc.
  destruct (wi_confs _ _ _ Hinv _ _ Hc) as (_ & Hlen & _).
  destruct (lookup_lt_is_Some_2 (Shards c) s) as [p Hp]; [lia|].
  exists p. split; [done|]. split; [|by exists c]. intros ->.
  apply (Hkept (Z.to_nat n) (Z.to_nat (n' - 1)) c0 c); [lia|done|done|congruence|done].
Qed.

(** Of two prefixes of a log the one at the smaller configuration is shorter. *)
Lemma earlier_prefix g l1 l2 kv1 kv2 : l1 `prefix_of` log_of w g → l2 `prefix_of` log_of w g →
  state_at g l1 = Some kv1 → state_at g l2 = Some kv2 → Num (config kv1) < Num (config kv2) → l1 `prefix_of` l2.
Proof using All.
  intros Hp1 Hp2 H1 H2 Hn. destruct (decide (length l1 ≤ length l2)%nat) as [Hle|Hgt].
  - by eapply prefix_comparable.
  - assert (l2 `prefix_of` l1) as Hp by (eapply prefix_comparable; [done..|lia]).
    destruct (log_mono g l2 l1 kv2 kv1 Hp Hp1 H2 H1). lia.
Qed.

Lemma earlier_prefix_snoc g l1 l2 op kv1 kv2 : l1 `prefix_of` log_of w g → l2 ++ [op] `prefix_of` log_of w g →
  state_at g l1 = Some kv1 → state_at g (l2 ++ [op]) = Some kv2 → Num (config kv1) < Num (config kv2) →
  l1 `prefix_of` l2.
Proof using All.
  intros Hp1 Hp2 H1 H2 Hn. pose proof (earlier_prefix g _ _ _ _ Hp1 Hp2 H1 H2 Hn) as [?|He]%prefix_snoc_inv; [done|].
  rewrite He, H2 in H1. injection H1 as ->. lia.
Qed.

Lemma takes_effect_changed op kv kv' : takes_effect op kv → sk_consume op kv = Some kv' → kv' = changed op kv.
Proof using All.
  intros Ht Hc. destruct (apply_change op kv (proj1 Ht)) as (res & calls & Ha). unfold sk_consume in Hc.
  rewrite Ha, decide_True in Hc by done. by injection Hc as <-.
Qed.

(** A request covered by the owner of a shard is covered by every later owner. *)
Lemma carried s g l0 kv0 c q : kept_assigned s → (s < 10)%nat → g ≠ 0 →
  l0 `prefix_of` log_of w g → state_at g l0 = Some kv0 → owner_at (Num (config kv0)) s g →
  covers (sk_prevReq kv0) c q → ∀ n, Num (config kv0) <= n → ∀ h l kv,
  owner_at n s h → l `prefix_of` log_of w h → state_at h l = Some kv → Num (config kv) = n →
  (h = g → l0 `prefix_of` l) → covers (sk_prevReq kv) c q.
Proof using All.
  intros Hkept Hs Hg Hp0 H0 Hown Hcov n Hn. destruct (wi_state _ _ _ Hinv g l0 kv0 Hp0 H0) as (_ & _ & Hpos & _).
  pattern n. apply (Zlt_lower_bound_ind _ (Num (config kv0))); [|done]. clear n Hn.
  intros n IH Hn h l kv Howner Hp Hst Hnum Hsame.
  destruct (decide (n = Num (config kv0))) as [->|Hgt].
  { rewrite (owner_at_inj _ _ _ _ Howner Hown) in *. by apply (log_mono g l0 l kv0 kv (Hsame eq_refl) Hp H0 Hst). }
  destruct (crossing_backed h l kv n s Hp Hst) as (l1 & op & kv1 & kv1' & cf & cf' & Hp1 & Hk1 & Hk1' & Hn1 & Hn1' & Hkept1 & Ht & Hcf & Hcf' & Hb);
    [lia|done|].
  assert (l1 ++ [op] `prefix_of` log_of w h) as Hlog1 by by etransitivity.
  assert (l1 `prefix_of` log_of w h) as Hlog1' by (etransitivity; [by eexists|exact Hlog1]).
  apply (log_mono h _ l kv1' kv Hp1 Hp Hk1' Hst).
  destruct (previous_owner s _ g n cf Hkept Hs Hown Hg) as (p & Hpc & Hp0' & Hpown); [lia|done|].
  destruct Howner as (cf2 & Hcf2 & Hh). rewrite Hcf' in Hcf2. injection Hcf2 as <-.
  destruct (decide (p = h)) as [->|Hph].
  - apply (sk_kept_covers _ _ _ Hkept1). apply (IH (n - 1)) with h l1; [lia|done|done|done|done|].
    intros ->. apply (earlier_prefix_snoc g l0 l1 op kv0 kv1'); [done..|lia].
  - destruct (Hb p Hh Hpc Hph Hp0') as (lp & kvp & Hlp & Hkvp & Hnp & Hcovp).
    apply state_at_snoc in Hk1' as (kv1b & Hk1b & Hcons). rewrite Hk1 in Hk1b. injection Hk1b as <-.
    rewrite (takes_effect_changed _ _ _ Ht Hcons). simpl. apply merge_max_r, Hcovp.
    destruct (crossing p [] lp (sk_init 0 peer p) kvp n) as (l2 & op2 & kv2 & kv2' & _ & Hp2 & Hk2 & Hk2' & _ & _ & Hn2 & Hn2' & Hcf2);
      [apply prefix_nil|done|done|done|simpl; lia|].
    assert (l2 ++ [op2] `prefix_of` log_of w p) as Hlog2 by by etransitivity.
    assert (l2 `prefix_of` log_of w p) as Hlog2' by (etransitivity; [by eexists|exact Hlog2]).
    apply (log_mono p l2 lp kv2 kvp); [etransitivity; [by eexists|exact Hp2]|done..|].
    apply (IH (n - 1)) with p l2; [lia|done|done|done|done|].
    intros ->. apply (earlier_prefix_snoc g l0 l2 op2 kv0 kv2'); [done..|]. rewrite Hcf2. lia.
Qed.

(** An owner that gives a shard away has moved on before the next one starts. *)
Lemma handed_over s g n : kept_assigned s → (s < 10)%nat → g ≠ 0 → 0 <= n → owner_at n s g →
  ∀ n', n < n' → ∀ h l kv, owner_at n' s h → l `prefix_of` log_of w h → state_at h l = Some kv →
  n' <= Num (config kv) → ∃ lg kvg, lg `prefix_of` log_of w g ∧ state_at g lg = Some kvg ∧ n < Num (config kvg).
Proof using All.
  intros Hkept Hs Hg Hpos Hown n' Hn'. pattern n'. apply (Zlt_lower_bound_ind _ (n + 1)); [|lia]. clear n' Hn'.
  intros n' IH Hn h l kv Howner Hp Hst Hnum.
  destruct (crossing_backed h l kv n' s Hp Hst) as (l1 & op & kv1 & kv1' & cf & cf' & Hp1 & Hk1 & Hk1' & Hn1 & Hn1' & Hkept1 & Ht & Hcf & Hcf' & Hb);
    [lia|done|].
  destruct (previous_owner s n g n' cf Hkept Hs Hown Hg) as (p & Hpc & Hp0 & Hpown); [lia|done|].
  destruct Howner as (cf2 & Hcf2 & Hh). rewrite Hcf' in Hcf2. injection Hcf2 as <-.
  assert (∃ lp kvp, lp `prefix_of` log_of w p ∧ state_at p lp = Some kvp ∧ n' <= Num (config kvp)) as (lp & kvp & Hlp & Hkvp & Hnp).
  { destruct (decide (p = h)) as [->|Hph]; [by exists l, kv|].
    destruct (Hb p Hh Hpc Hph Hp0) as (lp & kvp & ? & ? & ? & _). by exists lp, kvp. }
  destruct (decide (n' = n + 1)) as [->|Hgt].
  - replace (n + 1 - 1) with n in Hpown by lia. rewrite (owner_at_inj _ _ _ _ Hpown Hown) in *. exists lp, kvp.
    split_and!; [done..|lia].
  - apply (IH (n' - 1)) with p lp kvp; [lia|done|done|done|lia].
Qed.
End histories.
