(* ===== verification/ShardKVThms.v ===== *)
(** * What the sharded store guarantees

    Across groups: one group serves a shard at a time and a write is executed
    once, wherever its shard goes.  Within a group: what each operation does.
    Then the schedules on which data is lost or reconfiguration stalls. *)
From Stdlib Require Import Strings.String Strings.Ascii.
From S2P Require Import Prelude Ballot Messages Persister OmniPaxos OmniPaxosInv Cluster Agreement AgreementSteps Safety.
From S2P Require Import Service GoString ShardCtrler ShardKV ShardKVInv ShardWorld.

(** ** The shard server as a replicated service *)
Definition sk_view (kv : ShardKV) : Z * Config * stores * gmap Z Z := (gid kv, config kv, store kv, sk_prevReq kv).

Definition sk_reframe (me : Z) (op : OmniPaxos Op) (chans : gmap Z (option SKResult)) (kv : ShardKV) : ShardKV :=
  mkSK me op (gid kv) (config kv) (store kv) (sk_prevReq kv) chans.

Lemma sk_consume_reframe me peer chans op kv :
  sk_consume op (sk_reframe me peer chans kv) = sk_reframe me peer chans <$> sk_consume op kv.
Proof.
  assert (∀ key, isWrongGroup key (sk_reframe me peer chans kv) = isWrongGroup key kv) as Hw by done.
  assert (isNew op (sk_reframe me peer chans kv) = isNew op kv) as Hn by done.
  assert (∀ key, shardOf key (sk_reframe me peer chans kv) = shardOf key kv) as Hs by done.
  assert (∀ key v, put_key key v (sk_reframe me peer chans kv) = sk_reframe me peer chans <$> put_key key v kv) as Hput.
  { intros key v. unfold put_key. rewrite Hs. destruct (shardOf key kv); simpl; [|done]. by destruct (go_set _ _ _). }
  unfold sk_consume, apply_op. repeat case_decide.
  - unfold applyChange. simpl. by case_decide.
  - unfold applyDelete. simpl. case_decide; [|done]. destruct (go_index _ _); simpl; [|done].
    case_decide; [|done]. by destruct (go_set _ _ _).
  - unfold sk_applyGet. rewrite Hw, Hn. destruct (isWrongGroup _ kv) as [[]|]; simpl; [done| |done].
    destruct (isNew op kv); simpl.
    + change (shardOf (o_Key op) (setPrevReqId op (sk_reframe me peer chans kv))) with (shardOf (o_Key op) kv).
      change (shardOf (o_Key op) (setPrevReqId op kv)) with (shardOf (o_Key op) kv).
      destruct (shardOf _ kv) as [m|]; simpl; [|done]. by destruct (m !! _).
    + rewrite Hs. destruct (shardOf _ kv) as [m|]; simpl; [|done]. by destruct (m !! _).
  - unfold sk_applyPut. rewrite Hw, Hn. destruct (isWrongGroup _ kv) as [[]|]; simpl; [done| |done].
    destruct (isNew op kv); simpl; [|done]. rewrite Hput. by destruct (put_key _ _ kv).
  - unfold sk_applyAppend. rewrite Hw, Hn. destruct (isWrongGroup _ kv) as [[]|]; simpl; [done| |done].
    destruct (isNew op kv); simpl; [|done]. rewrite Hs. destruct (shardOf _ kv) as [m|]; simpl; [|done].
    rewrite Hput. by destruct (put_key _ _ kv).
  - done.
Qed.

Lemma sk_consume_view op kv1 kv2 : sk_view kv1 = sk_view kv2 → sk_view <$> sk_consume op kv1 = sk_view <$> sk_consume op kv2.
Proof.
  destruct kv1 as [me p g cf st pr ch], kv2 as [me' p' g' cf' st' pr' ch']. unfold sk_view. simpl. intros [= -> -> -> ->].
  change (mkSK me' p' g' cf' st' pr' ch') with (sk_reframe me' p' ch' (mkSK me p g' cf' st' pr' ch)).
  rewrite sk_consume_reframe. by destruct (sk_consume _ _).
Qed.

#[export] Instance SK_service : Service Op ShardKV (Z * Config * stores * gmap Z Z) :=
  {| svc_apply := sk_consume; svc_view := sk_view; svc_apply_view := sk_consume_view |}.

(** ** Definitions the theorems use *)

(** The server executes the write [op]: it serves the key, and the request is
    new to it. *)
Definition executes (op : Op) (kv : ShardKV) : Prop := is_write op ∧ serves (o_Key op) kv ∧ isNew op kv = true.

Definition same_request (op1 op2 : Op) : Prop :=
  o_ClientId op1 = o_ClientId op2 ∧ o_RequestId op1 = o_RequestId op2 ∧ key2shard (o_Key op1) = key2shard (o_Key op2).

Section at_most_once.
Context (peer : OmniPaxos Op) (home : string → Z) (w : world) (Hinv : world_inv peer home w).
Abbreviation state_at := (state_at peer).

Lemma executes_after op kv : sk_wf kv → executes op kv →
  ∃ kv', sk_consume op kv = Some kv' ∧ config kv' = config kv ∧ covers (sk_prevReq kv') (o_ClientId op) (o_RequestId op).
Proof using.
  intros Hw (Hwr & Hs & Hn). destruct (apply_write op kv Hw Hwr) as (e & kv' & Ha & _ & Hyes).
  destruct (Hyes Hs) as [_ ->]. rewrite Hn in Ha. eexists. unfold sk_consume. rewrite Ha. split; [done|].
  split; [done|]. apply setPrevReqId_covered.
Qed.

Lemma covered_not_executed op1 op2 kv : same_request op1 op2 →
  covers (sk_prevReq kv) (o_ClientId op1) (o_RequestId op1) → ¬ executes op2 kv.
Proof using. intros (Hc & Hr & _) Hcov (_ & _ & Hn). rewrite Hc, Hr in Hcov. apply isNew_covers in Hcov. congruence. Qed.

(** An execution at a configuration not later than that of a second place. *)
Lemma executed_before g1 l1 op1 kv1 g2 l2 op2 kv2 :
  kept_assigned w (Z.to_nat (key2shard (o_Key op1))) → same_request op1 op2 →
  l1 ++ [op1] `prefix_of` log_of w g1 → state_at g1 l1 = Some kv1 → executes op1 kv1 →
  l2 `prefix_of` log_of w g2 → state_at g2 l2 = Some kv2 → serves (o_Key op2) kv2 →
  Num (config kv1) <= Num (config kv2) → (g1 = g2 → Num (config kv1) = Num (config kv2) → l1 ++ [op1] `prefix_of` l2) →
  ¬ executes op2 kv2.
Proof using All.
  intros Hkept Hsame Hp1 H1 Hex Hp2 H2 Hs2 Hn Hafter. pose proof (key2shard_range (o_Key op1)) as Hrange. unfold NShards in Hrange.
  assert (l1 `prefix_of` log_of w g1) as Hp1' by (etransitivity; [by eexists|exact Hp1]).
  destruct (wi_state _ _ _ Hinv g1 l1 kv1 Hp1' H1) as (Hwf & _).
  destruct (executes_after op1 kv1 Hwf Hex) as (kv1' & Hc & Hcf & Hcov).
  assert (state_at g1 (l1 ++ [op1]) = Some kv1') as H1' by (apply state_at_snoc; eauto).
  apply (covered_not_executed op1); [done|].
  apply (carried peer home w Hinv (Z.to_nat (key2shard (o_Key op1))) g1 (l1 ++ [op1]) kv1') with (Num (config kv2)) g2 l2; try done.
  - lia.
  - intros ->. rewrite (wi_zero_group _ _ _ Hinv) in Hp1. apply prefix_nil_inv in Hp1. by destruct l1.
  - rewrite Hcf. apply (serves_owner peer home w Hinv g1 l1); [done|done|apply Hex].
  - by rewrite Hcf.
  - rewrite (proj2 (proj2 Hsame)). by apply (serves_owner peer home w Hinv g2 l2).
  - intros ->. destruct (decide (Num (config kv1) = Num (config kv2))) as [He|Hne]; [by apply Hafter|].
    apply (earlier_prefix peer home w Hinv g1 _ _ kv1' kv2); [done..|]. rewrite Hcf. lia.
Qed.
End at_most_once.

(** ** Worlds with two and three groups *)
Definition sk_peer : OmniPaxos Op :=
  mkOP 3 1 MakePersister 0 0 (mkBallot 0 0) ∅ None [0; 0; 0] [] zeroState 0 (mkBallot 0 1) true ∅
    (mkState FOLLOWER PREPARE) false ∅ 0.

(** Group 1 runs at "a", 2 at "b", 3 at "c". *)
Definition demo_home (s : string) : Z := if decide (s = "a"%string) then 1 else if decide (s = "b"%string) then 2 else 3.
Definition demo_groups : gmap Z (list string) := {[ 1 := ["a"%string]; 2 := ["b"%string]; 3 := ["c"%string] ]}.
Definition demo_config (n g : Z) : Config := mkConfig n (replicate 10 g) demo_groups.

Definition demo_state (w : world) (g : Z) : ShardKV := default (sk_init 0 sk_peer g) (state_at sk_peer g (log_of w g)).

(** Every [Transfer] is answered from the whole log of the group called. *)
Definition demo_call (w : world) (s : string) (args : TransferArgs) : option TransferReply :=
  Transfer args <$> state_at sk_peer (demo_home s) (log_of w (demo_home s)).

(** Group [g] fetches the shards of configuration [conf] and logs the change. *)
Definition demo_change (g : Z) (conf : Config) (w : world) : world :=
  push_op g (getChangeOp (demo_call w) conf (demo_state w g)).1 w.

Lemma demo_answers w : answers sk_peer demo_home w (demo_call w).
Proof.
  intros s args reply. unfold demo_call. intros (kv & Hst & ->)%fmap_Some. by exists (log_of w (demo_home s)), kv.
Qed.

Lemma demo_groups_home g servers s : demo_groups !! g = Some servers → s ∈ servers → demo_home s = g.
Proof.
  unfold demo_groups. intros Hg Hs.
  apply lookup_insert_Some in Hg as [[<- <-]|[_ Hg]]; [by apply list_elem_of_singleton in Hs as ->|].
  apply lookup_insert_Some in Hg as [[<- <-]|[_ Hg]]; [by apply list_elem_of_singleton in Hs as ->|].
  apply lookup_singleton_Some in Hg as [<- <-]. by apply list_elem_of_singleton in Hs as ->.
Qed.

Abbreviation reachable_demo := (stepwise_reachable sk_peer demo_home).

Lemma demo_configure w n g : reachable_demo w → length (w_confs w) = n → (n < 100)%nat →
  reachable_demo (push_config (demo_config (Z.of_nat n) g) w).
Proof.
  intros Hw <- Hn. eapply (sr_step _ _ _ (WConfigure _)); [exact Hw|done|]. apply ws_configure; [|lia].
  split_and!; [done|done|]. apply demo_groups_home.
Qed.

Lemma demo_change_reachable g conf w : reachable_demo w → g ≠ 0 →
  is_Some (state_at sk_peer g (log_of w g)) → bool_decide (conf ∈ w_confs w) = true →
  Num conf = Num (config (demo_state w g)) + 1 → (getChangeOp (demo_call w) conf (demo_state w g)).2 = true →
  reachable_demo (demo_change g conf w).
Proof.
  intros Hw Hg [kv Hkv] Hin%bool_decide_eq_true Hnum Hok.
  assert (demo_state w g = kv) as He by (unfold demo_state; by rewrite Hkv).
  unfold demo_change. rewrite He in *.
  destruct (getChangeOp (demo_call w) conf kv) as [op ok] eqn:Hget. cbn [fst snd] in *. subst ok.
  eapply sr_step; [exact Hw| |eapply ws_change; [done|reflexivity|exact Hkv|done|apply demo_answers|exact Hget]].
  intros kv1 kv2 H1 _ _. rewrite Hkv in H1. by injection H1 as <-.
Qed.

Lemma demo_request g op w : reachable_demo w → g ≠ 0 → o_Command op ≠ CCHANGE → reachable_demo (push_op g op w).
Proof.
  intros Hw Hg Hc. eapply (sr_step _ _ _ (WRequest _ _)); [exact Hw|done|]. by apply ws_request.
Qed.

(** Group 1 owns all shards and executes a write; then all shards go to group 2,
    where the client retries it. *)
Definition demo_put : Op := putappend_op (mkSKPutAppendArgs "k" "x" CPUT 7 1).
Definition moved_1 : world := demo_change 1 (demo_config 1 1) (push_config (demo_config 1 1) world_init).
Definition moved_2 : world := demo_change 2 (demo_config 1 1) (push_op 1 demo_put moved_1).
Definition moved_3 : world := demo_change 1 (demo_config 2 2) (push_config (demo_config 2 2) moved_2).
Definition moved_4 : world := demo_change 2 (demo_config 2 2) moved_3.
Definition moved : world := push_op 2 demo_put moved_4.

Ltac demo_step := apply demo_change_reachable; [|done|by vm_compute; eexists|by vm_compute|by vm_compute|by vm_compute].

Lemma moved_4_reachable : reachable_demo moved_4.
Proof.
  unfold moved_4. demo_step. unfold moved_3. demo_step.
  apply (demo_configure _ 2 2); [|done|lia]. unfold moved_2. demo_step.
  apply demo_request; [|done|done]. unfold moved_1. demo_step.
  apply (demo_configure _ 1 1); [|done|lia]. apply sr_init.
Qed.

Lemma moved_reachable : reachable_demo moved.
Proof. apply demo_request; [apply moved_4_reachable|done|done]. Qed.

Lemma moved_kept_assigned s : kept_assigned moved s.
Proof.
  intros i j c c' Hij Hc Hc' Hn H0.
  destruct j as [|[|[|j]]]; vm_compute in Hc'; [|injection Hc' as <-|injection Hc' as <-|done].
  - injection Hc' as <-. assert (i = 0%nat) as -> by lia. vm_compute in Hc. injection Hc as <-. done.
  - change (replicate 10 1 !! s = Some 0) in H0. by apply lookup_replicate in H0 as [? _].
  - change (replicate 10 2 !! s = Some 0) in H0. by apply lookup_replicate in H0 as [? _].
Qed.

(** The shards go from group 1 to 2, back to 1, and on to 3; before 3 fetches
    them, a [Delete] that a server of group 2 sends when it replays its log
    reaches group 1. *)
Definition everyone (conf : Config) (w : world) : world := foldl (λ w g, demo_change g conf w) w [1; 2; 3].
Definition round_trip : world :=
  let w := push_op 1 demo_put (everyone (demo_config 1 1) (push_config (demo_config 1 1) world_init)) in
  let w := everyone (demo_config 2 2) (push_config (demo_config 2 2) w) in
  let w := push_config (demo_config 3 1) w in
  let w := demo_change 3 (demo_config 3 1) (demo_change 1 (demo_config 3 1) (demo_change 2 (demo_config 3 1) w)) in
  demo_change 1 (demo_config 4 3) (push_config (demo_config 4 3) w).
Definition stale_delete : DeleteArgs := mkDeleteArgs 2 7.
Definition lost : world := demo_change 3 (demo_config 4 3) (push_op 1 (delete_op stale_delete) round_trip).

Lemma round_trip_reachable : reachable_demo round_trip.
Proof.
  unfold round_trip, everyone. cbn [foldl].
  demo_step. apply (demo_configure _ 4 3); [|done|lia]. do 3 demo_step.
  apply (demo_configure _ 3 1); [|done|lia]. do 3 demo_step.
  apply (demo_configure _ 2 2); [|done|lia]. apply demo_request; [|done|done]. do 3 demo_step.
  apply (demo_configure _ 1 1); [|done|lia]. apply sr_init.
Qed.

Lemma lost_reachable : reachable_demo lost.
Proof. unfold lost. demo_step. apply demo_request; [apply round_trip_reachable|done|done]. Qed.

(** ** The theorems *)

(** C2 At most once, across all groups: after one group has executed a write, no
    other operation of any log with the same client and request number, for a
    key of the same shard, is executed, wherever the shard has moved.  Two
    conditions: the shard stays assigned to some group once it has one, and
    every change that has an effect when it is logged was made for the
    configuration right after that of the server that made it ([stepwise];
    without it this fails, see ShardAhead.v). *)
Theorem executed_at_most_once peer home w g1 l1 op1 kv1 g2 l2 op2 kv2 :
  stepwise_reachable peer home w → kept_assigned w (Z.to_nat (key2shard (o_Key op1))) → same_request op1 op2 →
  l1 ++ [op1] `prefix_of` log_of w g1 → state_at peer g1 l1 = Some kv1 → executes op1 kv1 →
  l2 ++ [op2] `prefix_of` log_of w g2 → state_at peer g2 l2 = Some kv2 → (g1, l1) ≠ (g2, l2) → ¬ executes op2 kv2.
Proof.
  intros Hinv%stepwise_reachable_inv Hkept Hsame Hp1 H1 Hex1 Hp2 H2 Hne Hex2.
  assert (l1 `prefix_of` log_of w g1) as Hp1' by (etransitivity; [by eexists|exact Hp1]).
  assert (l2 `prefix_of` log_of w g2) as Hp2' by (etransitivity; [by eexists|exact Hp2]).
  assert (same_request op2 op1) as Hsame' by (destruct Hsame as (? & ? & ?); by split_and!).
  assert (kept_assigned w (Z.to_nat (key2shard (o_Key op2)))) as Hkept' by by rewrite <-(proj2 (proj2 Hsame)).
  pose proof (executed_before peer home w Hinv g1 l1 op1 kv1 g2 l2 op2 kv2 Hkept Hsame Hp1 H1 Hex1 Hp2' H2 (proj1 (proj2 Hex2))) as H12.
  pose proof (executed_before peer home w Hinv g2 l2 op2 kv2 g1 l1 op1 kv1 Hkept' Hsame' Hp2 H2 Hex2 Hp1' H1 (proj1 (proj2 Hex1))) as H21.
  destruct (decide (Num (config kv1) < Num (config kv2))) as [Hlt|Hge]; [apply H12; [lia|lia|done]|].
  destruct (decide (Num (config kv2) < Num (config kv1))) as [Hlt|Hge']; [apply H21; [lia|lia|done]|].
  destruct (decide (g1 = g2)) as [->|Hg]; [|apply H12; [lia|done|done]].
  destruct (decide (length l1 < length l2)%nat) as [Hl|Hl].
  - apply H12; [lia| |done]. intros _ _. eapply prefix_comparable; [exact Hp1|exact Hp2'|rewrite length_app; simpl; lia].
  - apply H21; [lia| |done]. intros _ _.
    assert (length l1 ≠ length l2) as Hll.
    { intros Hll. apply Hne. f_equal. apply prefix_same_length; [|lia]. eapply prefix_comparable; [done..|lia]. }
    eapply prefix_comparable; [exact Hp2|exact Hp1'|rewrite length_app; simpl; lia].
Qed.

Lemma executed_at_most_once_witness :
  executes demo_put (demo_state moved_1 1) ∧ serves "k" (demo_state moved_4 2) ∧
  ¬ executes demo_put (demo_state moved_4 2).
Proof.
  assert (executes demo_put (demo_state moved_1 1)) as Hex by (split; [by left|by vm_compute]).
  split; [exact Hex|]. split; [by vm_compute|].
  apply (executed_at_most_once sk_peer demo_home moved 1 (log_of moved_1 1) demo_put (demo_state moved_1 1)
           2 (log_of moved_4 2) demo_put (demo_state moved_4 2)).
  - apply moved_reachable.
  - apply moved_kept_assigned.
  - done.
  - exists (drop 2 (log_of moved 1)). by vm_compute.
  - by vm_compute.
  - exact Hex.
  - exists []. by vm_compute.
  - by vm_compute.
  - by intros [= ?].
Defined.

(** C3 One group serves a shard at a time: when the logs of two groups have been
    consumed to their ends, not both serve the same shard.  Two conditions: the
    shard stays assigned to some group once it has one, and every change that
    has an effect when it is logged was made for the configuration right after
    that of the server that made it ([stepwise]; without it this fails, see
    ShardAhead.v). *)
Theorem one_group_serves peer home w g h kvg kvh key :
  stepwise_reachable peer home w → kept_assigned w (Z.to_nat (key2shard key)) →
  state_at peer g (log_of w g) = Some kvg → state_at peer h (log_of w h) = Some kvh →
  g ≠ 0 → h ≠ 0 → serves key kvg → serves key kvh → g = h.
Proof.
  intros Hinv%stepwise_reachable_inv Hkept Hg Hh Hg0 Hh0 Hsg Hsh.
  pose proof (key2shard_range key) as Hrange. unfold NShards in Hrange.
  pose proof (serves_owner peer home w Hinv g _ kvg key (reflexivity _) Hg Hsg) as Hog.
  pose proof (serves_owner peer home w Hinv h _ kvh key (reflexivity _) Hh Hsh) as Hoh.
  destruct (wi_state _ _ _ Hinv g _ kvg (reflexivity _) Hg) as (_ & _ & Hng & _).
  destruct (wi_state _ _ _ Hinv h _ kvh (reflexivity _) Hh) as (_ & _ & Hnh & _).
  assert (∀ a b kva kvb, a ≠ 0 → 0 <= Num (config kva) → state_at peer a (log_of w a) = Some kva →
    state_at peer b (log_of w b) = Some kvb → owner_at w (Num (config kva)) (Z.to_nat (key2shard key)) a →
    owner_at w (Num (config kvb)) (Z.to_nat (key2shard key)) b → ¬ Num (config kva) < Num (config kvb)) as Hno.
  { intros a b kva kvb Ha Hna Hka Hkb Hoa Hob Hlt.
    destruct (handed_over peer home w Hinv (Z.to_nat (key2shard key)) a _ Hkept ltac:(lia) Ha Hna Hoa _ Hlt b (log_of w b) kvb Hob)
      as (lg & kv & Hlg & Hkv & Hgt); [done|done|lia|].
    destruct (log_mono peer home w Hinv a lg _ kv kva Hlg (reflexivity _) Hkv Hka). lia. }
  pose proof (Hno g h kvg kvh Hg0 Hng Hg Hh Hog Hoh). pose proof (Hno h g kvh kvg Hh0 Hnh Hh Hg Hoh Hog).
  assert (Num (config kvg) = Num (config kvh)) as He by lia. rewrite He in Hog.
  exact (owner_at_inj peer home w Hinv _ _ _ _ Hog Hoh).
Qed.

Lemma one_group_serves_witness : serves "k" (demo_state moved 2) ∧ ∀ g kvg, g ≠ 0 →
  state_at sk_peer g (log_of moved g) = Some kvg → serves "k" kvg → g = 2.
Proof.
  split; [by vm_compute|]. intros g kvg Hg Hst Hs.
  apply (one_group_serves sk_peer demo_home moved g 2 kvg (demo_state moved 2) "k"); try done.
  - apply moved_reachable.
  - apply moved_kept_assigned.
Defined.

Lemma demo_state_wf g : sk_wf (demo_state moved_4 g).
Proof.
  destruct (state_at sk_peer g (log_of moved_4 g)) as [kv|] eqn:Hkv; unfold demo_state; rewrite Hkv; simpl.
  - by apply (wi_state _ _ _ (stepwise_reachable_inv _ _ _ moved_4_reachable) g (log_of moved_4 g)).
  - by split.
Qed.

(** Configurations are taken one by one: an operation leaves the
    configuration, or it is a change and installs the one with the next number;
    whatever it is, no recorded request is forgotten. *)
Theorem configuration_steps op kv kv' : sk_wf kv → op_wf op → sk_consume op kv = Some kv' →
  sk_wf kv' ∧ gid kv' = gid kv ∧
  (config kv' = config kv ∨
   o_Command op = CCHANGE ∧ config kv' = o_Config op ∧ wrap64 (Num (config kv') - Num (config kv)) = 1) ∧
  ∀ c q, covers (sk_prevReq kv) c q → covers (sk_prevReq kv') c q.
Proof.
  intros Hw Ho Hc. destruct (consume_kept op kv kv' Hw Ho Hc) as [Hw' Hg Hcov Hcf].
  split_and!; [done|done| |done]. rewrite Hcf. case_decide as Ht; [|by left]. right. by destruct Ht.
Qed.

Lemma configuration_steps_witness : ∃ kv', sk_consume demo_put (demo_state moved_1 1) = Some kv' ∧ sk_wf kv'.
Proof.
  destruct (sk_consume demo_put (demo_state moved_1 1)) as [kv'|] eqn:Hc; [|vm_compute in Hc; discriminate].
  exists kv'. split; [done|]. apply (configuration_steps demo_put (demo_state moved_1 1)); [split; by vm_compute|done|exact Hc].
Defined.

(** [Delete] never clears a shard the group owns, nor any other one than its
    own, and nothing when the server has not reached its configuration. *)
Theorem delete_spares_owned op kv : sk_wf kv → o_Command op = CDELETE → 0 <= o_ShardId op < NShards →
  ∃ res kv', apply_op op kv = Some (res, kv', []) ∧
    (∀ key, serves key kv ∨ key2shard key ≠ o_ShardId op ∨ Num (config kv) < o_ConfigNum op →
       value_of key kv' = value_of key kv) ∧
    config kv' = config kv ∧ sk_prevReq kv' = sk_prevReq kv.
Proof.
  intros Hw Hc Hid. destruct (apply_delete op kv Hw Hc Hid) as (res & Ha). exists res. eexists. split; [exact Ha|].
  split; [|by case_decide]. intros key Hkey. case_decide as Hcl; [|done]. unfold value_of. simpl.
  rewrite list_lookup_insert_ne; [done|]. intros He. destruct Hcl as [Hn Hne]. pose proof (key2shard_range key).
  destruct Hkey as [Hs|[Hs|Hs]]; [|lia|lia]. apply Hne. unfold serves, owner_of in Hs. by rewrite He.
Qed.

Lemma delete_spares_owned_witness : ∃ res kv',
  apply_op (delete_op (mkDeleteArgs 1 7)) (demo_state moved_4 2) = Some (res, kv', []) ∧
  value_of "k" kv' = value_of "k" (demo_state moved_4 2).
Proof.
  destruct (delete_spares_owned (delete_op (mkDeleteArgs 1 7)) (demo_state moved_4 2)) as (res & kv' & Ha & Hv & _).
  - apply demo_state_wf.
  - done.
  - by vm_compute.
  - exists res, kv'. split; [exact Ha|]. apply Hv. left. by vm_compute.
Defined.



(** Replicas of a shard server agree: over any ordered schedule of an odd
    number of peers, two servers of a group that have consumed equally many
    operations have the same configuration, shards and recorded requests. *)
Theorem sk_replicas_agree n (c : cluster Op) g i j opi opj k kvi kvj :
  Nat.Odd n → ordered_reachable n c → nodes c !! i = Some opi → nodes c !! j = Some opj →
  replica_of opi k (sk_init i opi g) kvi → replica_of opj k (sk_init j opj g) kvj →
  config kvi = config kvj ∧ store kvi = store kvj ∧ sk_prevReq kvi = sk_prevReq kvj.
Proof.
  intros Hodd Hr Hi Hj Hki Hkj.
  pose proof (replicas_agree n c i j opi opj k (sk_init i opi g) (sk_init j opj g) _ _ Hodd Hr Hi Hj eq_refl Hki Hkj) as [= ? ? ? ?].
  done.
Qed.

(** A cluster whose peers decide the change to a first configuration. *)
Definition sk_events : list (event Op) :=
  elect ++ (Propose 1 <$> [change_op (mkConfig 1 (replicate 10 1) ∅) emptyStore ∅]) ++ replicate 7 deliver.
Definition sk_cluster : cluster Op := default (init_cluster 3) (ordered_run sk_events (init_cluster 3)).

Lemma sk_cluster_ordered : ordered_reachable 3 sk_cluster.
Proof.
  assert (ordered_run sk_events (init_cluster 3) = Some sk_cluster) as Hrun by (vm_compute; reflexivity).
  eapply ordered_run_reachable; [constructor | exact Hrun].
Qed.

Lemma sk_replicas_agree_witness : ∃ op0 op1 kv0 kv1,
  nodes sk_cluster !! 0 = Some op0 ∧ nodes sk_cluster !! 1 = Some op1 ∧ config kv0 = mkConfig 1 (replicate 10 1) ∅ ∧
  config kv0 = config kv1 ∧ store kv0 = store kv1 ∧ sk_prevReq kv0 = sk_prevReq kv1.
Proof.
  destruct (nodes sk_cluster !! 0) as [op0|] eqn:H0; [|vm_compute in H0; discriminate].
  destruct (nodes sk_cluster !! 1) as [op1|] eqn:H1; [|vm_compute in H1; discriminate].
  destruct (apply_all sk_consume (take 1 (decided_prefix op0)) (sk_init 0 op0 1)) as [kv0|] eqn:K0;
    [|vm_compute in H0; injection H0 as <-; vm_compute in K0; discriminate].
  destruct (apply_all sk_consume (take 1 (decided_prefix op1)) (sk_init 1 op1 1)) as [kv1|] eqn:K1;
    [|vm_compute in H1; injection H1 as <-; vm_compute in K1; discriminate].
  exists op0, op1, kv0, kv1. split; [reflexivity|]. split; [reflexivity|].
  split; [vm_compute in H0; injection H0 as <-; vm_compute in K0; injection K0 as <-; by vm_compute|].
  apply (sk_replicas_agree 3 sk_cluster 1 0 1 op0 op1 1); [by exists 1%nat|apply sk_cluster_ordered|done|done|..].
  - split; [vm_compute in H0; injection H0 as <-; vm_compute; lia|exact K0].
  - split; [vm_compute in H1; injection H1 as <-; vm_compute; lia|exact K1].
Defined.

(** C32 A stale [Delete] loses a shard: every server that replays its log sends
    again the deletes of all the changes it took part in, and [applyDelete]
    compares only the configuration number.  When the old owner has in the
    meantime got the shard back and given it away again, the delete empties it
    before the new owner has fetched it: group 1 has the value of the key until
    the delete, and group 3, which serves the key afterwards, has none. *)
Theorem stale_delete_loses_shard : ∃ w l op kvb res kvb' calls c kva kva' kvc,
  stepwise_reachable sk_peer demo_home w ∧
  l ++ [op] `prefix_of` log_of w 2 ∧ state_at sk_peer 2 l = Some kvb ∧
  apply_op op kvb = Some (res, kvb', calls) ∧ c ∈ calls ∧
  ("a"%string, stale_delete) ∈ delete_goroutine c kvb' (λ _, true) ∧
  log_of w 1 = log_of round_trip 1 ++ [delete_op stale_delete] ∧
  state_at sk_peer 1 (log_of round_trip 1) = Some kva ∧ value_of "k" kva = Some "x"%string ∧
  d_Num stale_delete <= Num (config kva) ∧ sk_consume (delete_op stale_delete) kva = Some kva' ∧
  value_of "k" kva' = None ∧
  state_at sk_peer 3 (log_of w 3) = Some kvc ∧ serves "k" kvc ∧ value_of "k" kvc = None.
Proof.
  destruct (state_at sk_peer 2 (take 1 (log_of lost 2))) as [kvb|] eqn:Hkvb; [|vm_compute in Hkvb; discriminate].
  destruct (log_of lost 2 !! 1%nat) as [op|] eqn:Hop; [|vm_compute in Hop; discriminate].
  destruct (apply_op op kvb) as [[[res kvb'] calls]|] eqn:Ha;
    [|vm_compute in Hop; injection Hop as <-; vm_compute in Hkvb; injection Hkvb as <-; vm_compute in Ha; discriminate].
  destruct (state_at sk_peer 1 (log_of round_trip 1)) as [kva|] eqn:Hkva; [|vm_compute in Hkva; discriminate].
  destruct (sk_consume (delete_op stale_delete) kva) as [kva'|] eqn:Hkva';
    [|vm_compute in Hkva; injection Hkva as <-; vm_compute in Hkva'; discriminate].
  destruct (state_at sk_peer 3 (log_of lost 3)) as [kvc|] eqn:Hkvc; [|vm_compute in Hkvc; discriminate].
  exists lost, (take 1 (log_of lost 2)), op, kvb, res, kvb', calls, (mkDeleteCall 1 7), kva, kva', kvc.
  split; [apply lost_reachable|]. split.
  { rewrite <-(take_S_r _ _ _ Hop). apply prefix_take. }
  split; [done|]. split; [done|].
  vm_compute in Hop. injection Hop as <-. vm_compute in Hkvb. injection Hkvb as <-. vm_compute in Ha.
  injection Ha as <- <- <-. vm_compute in Hkva. injection Hkva as <-. vm_compute in Hkva'. injection Hkva' as <-.
  vm_compute in Hkvc. injection Hkvc as <-.
  split; [by left|]. split; [by left|]. split; [by vm_compute|]. split; [done|]. split_and!; by vm_compute.
Qed.
