(* ===== verification/ShardKVSpec.v ===== *)
(** * A group as its clients see it

    The abstract specification of the client operations of a shard server: a
    partial map from the keys of the group to values, and the last request
    number of each client.  The server implements it, operation by operation
    and over every sequence of client operations. *)
From Stdlib Require Import Strings.String.
From S2P Require Import Prelude Ballot Messages Persister OmniPaxos Service GoString ShardCtrler ShardKV ShardKVInv ShardWorld ShardKVThms.
#[local] Open Scope Z_scope.

(** ** The abstract state, up to what can be observed of it *)
Record view := mkView {
  v_owns : string → bool;
  v_value : string → option string;
  v_last : gmap Z Z;
}.

#[export] Instance view_equiv : Equiv view := λ v w,
  (∀ k, v_owns v k = v_owns w k) ∧ (∀ k, v_value v k = v_value w k) ∧ v_last v = v_last w.

#[export] Instance view_equivalence : Equivalence (≡@{view}).
Proof.
  split.
  - done.
  - intros v w (H1 & H2 & H3). by split_and!.
  - intros v w u (H1 & H2 & H3) (K1 & K2 & K3). split_and!; [intros k; by rewrite H1|intros k; by rewrite H2|congruence].
Qed.

#[export] Instance v_owns_proper : Proper ((≡) ==> (=) ==> (=)) v_owns.
Proof. by intros v w (H & _ & _) k ? <-. Qed.
#[export] Instance v_value_proper : Proper ((≡) ==> (=) ==> (=)) v_value.
Proof. by intros v w (_ & H & _) k ? <-. Qed.
#[export] Instance v_last_proper : Proper ((≡) ==> (=)) v_last.
Proof. by intros v w (_ & _ & H). Qed.

Definition view_of (kv : ShardKV) : view :=
  mkView (λ key, bool_decide (serves key kv)) (λ key, value_of key kv) (sk_prevReq kv).

(** ** The specification *)
Section spec.
Implicit Types op : Op.
Implicit Types v : view.

Definition is_client op : Prop := o_Command op = CGET ∨ is_write op.
#[export] Instance is_client_dec op : Decision (is_client op).
Proof. unfold is_client. apply _. Defined.

(** A request above the last one of its client. *)
Definition unseen op v : bool :=
  match v_last v !! o_ClientId op with Some p => bool_decide (o_RequestId op > p) | None => true end.

Definition note op v : view :=
  if unseen op v then mkView (v_owns v) (v_value v) (<[o_ClientId op := o_RequestId op]> (v_last v)) else v.

Definition written_value op v : string :=
  if decide (o_Command op = CPUT) then o_Value op
  else (default EmptyString (v_value v (o_Key op)) ++ o_Value op)%string.

Definition update op v : view :=
  mkView (v_owns v) (λ k, if decide (k = o_Key op) then Some (written_value op v) else v_value v k) (v_last v).

(** The answer ([Err] and [Value]) and the new state. *)
Definition client_spec op v : (string * string) * view :=
  if negb (v_owns v (o_Key op)) then ((ErrWrongGroup, EmptyString), v)
  else if decide (o_Command op = CGET) then
    match v_value v (o_Key op) with
    | Some x => ((OK, x), note op v)
    | None => ((ErrNoKey, EmptyString), note op v)
    end
  else ((OK, EmptyString), if unseen op v then note op (update op v) else v).

Fixpoint spec_run (ops : list Op) v : list (string * string) * view :=
  match ops with
  | [] => ([], v)
  | op :: ops =>
      let '(a, v) := client_spec op v in
      let '(l, v) := spec_run ops v in (a :: l, v)
  end.

#[export] Instance unseen_proper : Proper ((=) ==> (≡) ==> (=)) unseen.
Proof. intros op ? <- v w Hvw. unfold unseen. by rewrite Hvw. Qed.
#[export] Instance note_proper : Proper ((=) ==> (≡) ==> (≡)) note.
Proof.
  intros op ? <- v w Hvw. unfold note. rewrite (unseen_proper op op eq_refl v w Hvw).
  destruct (unseen op w); [|done]. destruct Hvw as (H1 & H2 & H3). split_and!; simpl; [done..|by rewrite H3].
Qed.
#[export] Instance update_proper : Proper ((=) ==> (≡) ==> (≡)) update.
Proof.
  intros op ? <- v w (H1 & H2 & H3). split_and!; simpl; [done| |done].
  intros k. unfold written_value. by rewrite !H2.
Qed.
#[export] Instance client_spec_proper : Proper ((=) ==> (≡) ==> prod_relation (=) (≡)) client_spec.
Proof.
  intros op ? <- v w Hvw. unfold client_spec. rewrite (v_owns_proper v w Hvw _ _ eq_refl).
  destruct (v_owns w (o_Key op)); simpl; [|by split].
  case_decide.
  - rewrite (v_value_proper v w Hvw _ _ eq_refl). destruct (v_value w (o_Key op)); (split; [done|]); simpl; by rewrite Hvw.
  - split; [done|]. simpl. rewrite (unseen_proper op op eq_refl v w Hvw). destruct (unseen op w); [|done]. by rewrite Hvw.
Qed.

Lemma spec_run_proper ops v w : v ≡ w → (spec_run ops v).1 = (spec_run ops w).1 ∧ (spec_run ops v).2 ≡ (spec_run ops w).2.
Proof.
  revert v w. induction ops as [|op ops IH]; intros v w Hvw; simpl; [done|].
  pose proof (client_spec_proper op op eq_refl v w Hvw) as [H1 H2].
  destruct (client_spec op v) as [a v'], (client_spec op w) as [b w']. simpl in *. subst.
  destruct (IH v' w' H2) as [H3 H4]. destruct (spec_run ops v') as [l v''], (spec_run ops w') as [l' w'']. simpl in *. by subst.
Qed.
End spec.

(** ** The server over a sequence of client operations *)
Fixpoint sk_run (ops : list Op) (kv : ShardKV) : option (list SKResult * ShardKV) :=
  match ops with
  | [] => Some ([], kv)
  | op :: ops =>
      '(res, kv, _) ← apply_op op kv;
      '(l, kv) ← sk_run ops kv;
      Some (res :: l, kv)
  end.

Definition answer (res : SKResult) : string * string := (r_Err res, r_Value res).

Lemma view_of_noted op kv : view_of (if isNew op kv then setPrevReqId op kv else kv) = note op (view_of kv).
Proof. unfold note, unseen, isNew. simpl. by destruct (sk_prevReq kv !! o_ClientId op) as [p|]; [case_bool_decide|]. Qed.

Lemma value_of_written key x kv k : sk_wf kv →
  value_of k (written key x kv) = if decide (k = key) then Some x else value_of k kv.
Proof.
  intros Hw. destruct (shardOf_spec key kv Hw) as (m & Hm & _). unfold value_of, written. simpl.
  rewrite list_lookup_alter. case_decide as Hk.
  - rewrite <-Hk, Hm. simpl. case_decide as He; [by rewrite He, lookup_insert_eq|]. by rewrite lookup_insert_ne.
  - rewrite decide_False; [done|]. intros ->. done.
Qed.

Lemma sk_wf_written op x kv : sk_wf kv → sk_wf (setPrevReqId op (written (o_Key op) x kv)).
Proof. intros [H1 H2]. split; [done|]. simpl. by rewrite length_alter. Qed.

(** One client operation refines its specification. *)
Lemma client_step op kv : sk_wf kv → is_client op → ∃ res kv', apply_op op kv = Some (res, kv', []) ∧ sk_wf kv' ∧
  answer res = (client_spec op (view_of kv)).1 ∧ view_of kv' ≡ (client_spec op (view_of kv)).2.
Proof.
  intros Hw Hop. unfold client_spec, answer. cbn [v_owns v_value view_of]. destruct Hop as [Hc|Hop].
  - destruct (apply_get op kv Hw Hc) as (res & kv' & Ha & Hno & Hyes). exists res, kv'. split; [done|].
    case_bool_decide as Hs; simpl.
    + destruct (Hyes Hs) as (-> & -> & ->). rewrite decide_True by done.
      split; [destruct (isNew op kv); by destruct Hw|]. rewrite view_of_noted. by destruct (value_of (o_Key op) kv).
    + destruct (Hno Hs) as (-> & -> & ->). done.
  - destruct (apply_write op kv Hw Hop) as (e & kv' & Ha & Hno & Hyes). exists (op_result op e), kv'. split; [done|].
    assert (o_Command op ≠ CGET) as Hc by (by destruct Hop as [-> | ->]).
    case_bool_decide as Hs; simpl; [|by destruct (Hno Hs) as (-> & ->)].
    destruct (Hyes Hs) as (-> & ->). rewrite decide_False by done. simpl.
    change (unseen op (view_of kv)) with (isNew op kv). destruct (isNew op kv) eqn:Hn; [|done].
    split; [by apply sk_wf_written|]. split; [done|]. unfold note.
    change (unseen op (update op (view_of kv))) with (isNew op kv). rewrite Hn. split_and!; simpl; [done| |done].
    intros k. by apply value_of_written.
Qed.

(** C7 Over any sequence of reads, puts and appends, a shard server never
    panics, answers what the specification answers (the wrong group for a key
    that is not its own; for its own keys the stored value, none, or an
    acknowledgement), and ends in a state whose keys, values and request numbers
    are those of the specification: a write takes effect once, when its number
    is above its client's last. *)
Theorem client_operations_refine ops kv : sk_wf kv → Forall is_client ops →
  ∃ rs kv', sk_run ops kv = Some (rs, kv') ∧ answer <$> rs = (spec_run ops (view_of kv)).1 ∧
    view_of kv' ≡ (spec_run ops (view_of kv)).2.
Proof.
  intros Hw Hops. revert kv Hw. induction Hops as [|op ops Hop Hops IH]; intros kv Hw; simpl; [by exists [], kv|].
  destruct (client_step op kv Hw Hop) as (res & kv1 & -> & Hw1 & Ha & Hv). simpl.
  destruct (IH kv1 Hw1) as (rs & kv' & -> & Has & Hvs). exists (res :: rs), kv'. split; [done|].
  destruct (client_spec op (view_of kv)) as [a v]. simpl in *. subst a.
  destruct (spec_run_proper ops _ _ Hv) as [H1 H2]. rewrite H1 in Has. rewrite H2 in Hvs.
  destruct (spec_run ops v) as [l v']. simpl in *. split; [|done]. exact (f_equal (cons (answer res)) Has).
Qed.

Definition demo_ops : list Op :=
  [demo_put; get_op (mkSKGetArgs "k" 8 1); putappend_op (mkSKPutAppendArgs "k" "y" CAPPEND 7 2); demo_put; get_op (mkSKGetArgs "k" 8 2)].

Lemma client_operations_refine_witness : ∃ rs kv', sk_run demo_ops (demo_state moved_4 2) = Some (rs, kv') ∧
  answer <$> rs = [(OK, ""); (OK, "x"); (OK, ""); (OK, ""); (OK, "xy")]%string.
Proof.
  destruct (client_operations_refine demo_ops (demo_state moved_4 2)) as (rs & kv' & Hr & Ha & _).
  - apply demo_state_wf.
  - apply (bool_decide_eq_true_1 _). by vm_compute.
  - exists rs, kv'. split; [exact Hr|]. rewrite Ha. by vm_compute.
Defined.
