(* ===== verification/ShardCatchUp.v ===== *)
(** * One round of [catchUp]

    The loop of reconf.go with [propose] as server.go has it, the timer, the
    calls and the other goroutines of the server included. *)
From Stdlib Require Import Strings.String.
From S2P Require Import Prelude Ballot Messages Persister OmniPaxos Cluster Service GoString ShardCtrler ShardKV ShardKVInv ShardWorld ShardKVThms.

(** ** The other goroutines *)

(** What they do to the server while the round waits: the applier applies
    messages, of which only [own] may be a change of configuration, and handlers
    and the peer change the channels and the peer. *)
Inductive serving (own : option Op) : ShardKV → ShardKV → Prop :=
  | sv_refl kv : serving own kv kv
  | sv_apply kv kv1 index op kv2 calls : serving own kv kv1 → (o_Command op = CCHANGE → own = Some op) →
      (applier index op kv1 = Done (kv2, calls) ∨ applier index op kv1 = Again (kv2, calls)) → serving own kv kv2
  | sv_other kv kv1 kv2 : serving own kv kv1 → sk_view kv2 = sk_view kv1 → serving own kv kv2.

(** In this turn no other change is applied than the one that the turn proposes. *)
Record alone (t : turn) : Prop := {
  al_query kv kv' : tn_query t kv = Some kv' → serving None kv kv';
  al_fetch kv kv' : tn_fetch t kv = Some kv' → serving None kv kv';
  al_propose op kv kv' : tn_propose t op kv = Some kv' → serving (Some op) kv kv';
}.

Lemma applier_config index op kv kv' calls :
  applier index op kv = Done (kv', calls) ∨ applier index op kv = Again (kv', calls) →
  config kv' = if decide (takes_effect op kv) then o_Config op else config kv.
Proof.
  unfold applier. destruct (apply_op op kv) as [[[res kv1] cs]|] eqn:Ha; [|by intros []].
  rewrite <-(consume_config _ _ _ _ _ Ha). destruct (sk_chans kv1 !! index) as [[r|]|]; intros [H|H]; try done; injection H as <- _; done.
Qed.

(** The configuration stays, or the round's own change has been applied. *)
Lemma serving_config own kv kv' : serving own kv kv' →
  config kv' = config kv ∨ ∃ op, own = Some op ∧ takes_effect op kv ∧ config kv' = o_Config op.
Proof.
  induction 1 as [kv|kv kv1 index op kv2 calls _ IH Hown Ha|kv kv1 kv2 _ IH Hv].
  - by left.
  - rewrite (applier_config _ _ _ _ _ Ha). case_decide as Ht; [|done]. pose proof (Hown (proj1 Ht)) as ->.
    destruct IH as [He|(op' & [= <-] & Ht' & He)]; right; exists op; (split; [done|]; split; [|done]); [|done].
    unfold takes_effect in *. by rewrite <-He.
  - assert (config kv2 = config kv1) as -> by by injection Hv. done.
Qed.

Lemma idle_config kv kv' : serving None kv kv' → config kv' = config kv.
Proof. by intros [?|(op & [=] & _)]%serving_config. Qed.

Section round.
Context {codec : StateCodec Op} (query : Z → Config).

(** [propose], whether it times out, finds that the peer does not lead, or
    returns a result. *)
Lemma propose_config op timer mid kv res kv' es : sk_propose op timer mid kv = Some (res, kv', es) →
  (∀ kv kv', mid kv = Some kv' → serving (Some op) kv kv') →
  config kv' = config kv ∨ takes_effect op kv ∧ config kv' = o_Config op.
Proof using.
  unfold sk_propose, sk_propose_start.
  intros ([[r kv1] es1] & ([[[[ind x] l] peer] es2] & _ & Hp)%bind_Some & Hr)%bind_Some Hmid.
  assert (config kv1 = config kv) as He by (destruct l; injection Hp as _ <- _; done).
  destruct r as [e|i]; [injection Hr as _ <- _; by left|].
  apply bind_Some in Hr as (kv2 & Hkv2%Hmid%serving_config & Hr).
  assert (config kv' = config kv2) as ->.
  { unfold sk_select in Hr. destruct timer; [by injection Hr as _ <- _|]. destruct (sk_chans kv2 !! i) as [[r|]|]; by injection Hr as _ <- _. }
  unfold takes_effect in *. rewrite He in Hkv2. destruct Hkv2 as [?|(o & [= <-] & Ht & Hc)]; [by left|by right].
Qed.

Lemma getChangeOp_change call conf kv : o_Command (getChangeOp call conf kv).1 = CCHANGE ∧ o_Config (getChangeOp call conf kv).1 = conf.
Proof using. unfold getChangeOp. by destruct (map_fold _ _ _) as [[st prev] ok]. Qed.

(** A turn that proposes: what it proposes, and what becomes of the configuration. *)
Lemma turn_config t conf kv op kv0 kv1 timer res kv2 es : alone t → getChangeOp (tn_call t) conf kv0 = (op, true) →
  tn_query t kv = Some kv0 → tn_fetch t kv0 = Some kv1 → sk_propose op timer (tn_propose t op) kv1 = Some (res, kv2, es) →
  config kv0 = config kv ∧ o_Command op = CCHANGE ∧ o_Config op = conf ∧
  (config kv2 = config kv ∨ wrap64 (Num conf - Num (config kv)) = 1 ∧ config kv2 = conf).
Proof using.
  intros [A1 A2 A3] Hget Hq%A1%idle_config Hf%A2%idle_config Hp.
  destruct (getChangeOp_change (tn_call t) conf kv0) as [Hc Hcf]. rewrite Hget in Hc, Hcf. cbn [fst] in *.
  split; [done|]. split; [done|]. split; [done|].
  apply propose_config in Hp; [|intros ? ?; apply A3]. unfold takes_effect in Hp. rewrite Hcf, Hf, Hq in Hp. tauto.
Qed.

(** From the second turn on nothing takes effect. *)
Lemma later_turns turns i latest kv kv' es ps : Forall alone turns → 2 <= i → 0 <= Num (config kv) < 2 ^ 63 → 0 <= Num latest < 2 ^ 63 - 1 →
  (∀ n, 0 <= n <= Num latest → Num (query n) = n) → catchUp_loop query turns i latest kv = Some (kv', es, ps) →
  config kv' = config kv ∧ ∀ j kvj op, ps !! j = Some (kvj, op) → config kvj = config kv ∧
    Num (o_Config op) = Num (config kv) + i + Z.of_nat j ∧ Num (o_Config op) <= Num latest.
Proof using.
  intros Hal. revert i kv kv' es ps. induction Hal as [|t turns Ht _ IH]; intros i kv kv' es ps Hi Hn Hl Hq; cbn [catchUp_loop]; [by intros [= <- _ <-]|].
  rewrite (wrap64_id (Num latest - _)) by (unfold in64; lia). case_decide as Hle; [|by intros [= <- _ <-]].
  rewrite (wrap64_id (i + Num (config kv))), (wrap64_id (i + 1)) by (unfold in64; lia).
  intros (kv0 & Hkv0 & Hx)%bind_Some. destruct (getChangeOp _ _ _) as [op ok] eqn:Hget.
  apply bind_Some in Hx as (kv1 & Hkv1 & Hx). destruct ok.
  2: { injection Hx as <- _ <-. split; [|done]. by rewrite (idle_config _ _ (al_fetch _ Ht _ _ Hkv1)), (idle_config _ _ (al_query _ Ht _ _ Hkv0)). }
  apply bind_Some in Hx as ([[res kv2] es2] & Hp & Hx).
  destruct (turn_config _ _ _ _ _ _ _ _ _ _ Ht Hget Hkv0 Hkv1 Hp) as (Hc0 & _ & Hcf & Hc2).
  assert (Num (o_Config op) = Num (config kv) + i) as Hnum by (rewrite Hcf, Hq; lia).
  assert (config kv2 = config kv) as Hsame.
  { destruct Hc2 as [?|[Hw _]]; [done|]. rewrite Hq, wrap64_id in Hw by (unfold in64; lia). lia. }
  case_decide.
  - injection Hx as <- _ <-. split; [done|]. intros [|j] kvj o Hj; [|done]. injection Hj as <- <-. split_and!; [done|lia..].
  - apply bind_Some in Hx as ([[kv3 es3] ps3] & Hloop & [= <- _ <-]).
    destruct (IH (i + 1) kv2 kv3 es3 ps3 ltac:(lia) ltac:(rewrite Hsame; lia) Hl Hq Hloop) as [Hc3 Hps]. rewrite Hsame in *. split; [done|].
    intros [|j] kvj o Hj; [injection Hj as <- <-; split_and!; [done|lia..]|]. destruct (Hps j kvj o Hj) as (? & ? & ?). split_and!; [done|lia..].
Qed.
End round.

(** C36 One round of [catchUp], with whatever [propose] answers (also when it times
    out or the peer does not lead), takes at most one configuration, provided that
    in each turn no other change is applied than the one that the turn proposes:
    the loop adds its counter to [kv.config.Num], which has moved on after the first
    change, so every later turn makes and proposes a change that is two or more
    ahead of the server's configuration and has no effect.  The controller's
    answer to [Query(n)] has number [n], and numbers stay below 2^63 - 1. *)
Theorem catchUp_one_configuration {codec : StateCodec Op} query turns latest kv kv' es ps :
  Forall alone turns → 0 <= Num (config kv) < 2 ^ 63 - 1 → 0 <= Num latest < 2 ^ 63 - 1 →
  (∀ n, 0 <= n <= Num latest → Num (query n) = n) → catchUp query turns latest kv = Some (kv', es, ps) →
  (config kv' = config kv ∨ config kv' = query (Num (config kv) + 1)) ∧
  ∀ j kvj op, ps !! S j = Some (kvj, op) →
    config kvj = config kv' ∧ Num (o_Config op) = Num (config kv') + Z.of_nat j + 2 ∧ ¬ takes_effect op kvj ∧ ¬ takes_effect op kv'.
Proof.
  intros Hal Hn Hl Hq. unfold catchUp. destruct (GetState (sk_op kv)).2; [|intros [= <- _ <-]; split; [by left|done]].
  destruct turns as [|t turns]; cbn [catchUp_loop]; [intros [= <- _ <-]; split; [by left|done]|].
  apply Forall_cons in Hal as [Ht Hal].
  rewrite (wrap64_id (Num latest - _)) by (unfold in64; lia). case_decide as Hle; [|intros [= <- _ <-]; split; [by left|done]].
  rewrite (wrap64_id (1 + Num (config kv))), (wrap64_id (1 + 1)) by (unfold in64; lia).
  intros (kv0 & Hkv0 & Hx)%bind_Some. destruct (getChangeOp _ _ _) as [op ok] eqn:Hget.
  apply bind_Some in Hx as (kv1 & Hkv1 & Hx). destruct ok.
  2: { injection Hx as <- _ <-. split; [left|done]. by rewrite (idle_config _ _ (al_fetch _ Ht _ _ Hkv1)), (idle_config _ _ (al_query _ Ht _ _ Hkv0)). }
  apply bind_Some in Hx as ([[res kv2] es2] & Hp & Hx).
  destruct (turn_config _ _ _ _ _ _ _ _ _ _ Ht Hget Hkv0 Hkv1 Hp) as (_ & _ & _ & Hc2).
  replace (Num (config kv) + 1) with (1 + Num (config kv)) by lia.
  assert (config kv2 = config kv ∨ config kv2 = query (1 + Num (config kv))) as Hc2' by tauto.
  assert (0 <= Num (config kv2) < 2 ^ 63) as Hn2 by (destruct Hc2' as [->| ->]; [|rewrite Hq]; lia).
  case_decide; [injection Hx as <- _ <-; by split|].
  apply bind_Some in Hx as ([[kv3 es3] ps3] & Hloop & [= <- _ <-]).
  destruct (later_turns query turns 2 latest kv2 kv3 es3 ps3 Hal ltac:(lia) Hn2 Hl Hq Hloop) as [Hc3 Hps].
  rewrite Hc3. split; [done|]. intros j kvj o Hj. destruct (Hps j kvj o Hj) as (Hcj & Hnum & Hmax). split; [done|]. split; [lia|].
  unfold takes_effect. rewrite Hcj, Hc3, wrap64_id by (unfold in64; lia). split; intros [_ ?]; lia.
Qed.

(** The leader of a group at its first configuration; three more follow.  What
    it proposes is applied at once. *)
Definition catching_up : ShardKV := sk_reframe 1 (default sk_peer (nodes sk_cluster !! 1)) ∅ (demo_state moved_1 2).
Definition apply_now (op : Op) (kv : ShardKV) : option ShardKV :=
  match applier (len (Log (op_os (sk_op kv))) - 1) op kv with Done (kv, _) => Some kv | _ => None end.
Definition quick_turn : turn := mkTurn (λ _ _, None) false Some Some apply_now.

Lemma quick_turn_alone : alone quick_turn.
Proof.
  split; simpl; [intros kv kv' [= <-]; apply sv_refl|intros kv kv' [= <-]; apply sv_refl|].
  intros op kv kv'. unfold apply_now. destruct (applier _ op kv) as [[kv1 calls]| |] eqn:Ha; [|done..]. intros [= <-].
  eapply sv_apply; [apply sv_refl|done|by left].
Qed.

Definition round_summary (r : ShardKV * list (Effect Op) * list (ShardKV * Op)) : Z * list (Z * Z) :=
  (Num (config r.1.1), (λ p : ShardKV * Op, (Num (config p.1), Num (o_Config p.2))) <$> r.2).

Lemma quick_round : round_summary <$> catchUp (λ n, demo_config n 1) (replicate 4 quick_turn) (demo_config 3 1) catching_up = Some (1, [(0, 1); (1, 3)]).
Proof. vm_compute. reflexivity. Qed.

Lemma catching_up_num : Num (config catching_up) = 0.
Proof. vm_compute. reflexivity. Qed.

(** The second change is for configuration 3 when the server is at 1. *)
Lemma catchUp_one_configuration_witness : ∃ kv' es ps,
  catchUp (λ n, demo_config n 1) (replicate 4 quick_turn) (demo_config 3 1) catching_up = Some (kv', es, ps) ∧
  (config kv' = config catching_up ∨ config kv' = demo_config (Num (config catching_up) + 1) 1) ∧
  ∀ j kvj op, ps !! S j = Some (kvj, op) →
    config kvj = config kv' ∧ Num (o_Config op) = Num (config kv') + Z.of_nat j + 2 ∧ ¬ takes_effect op kvj ∧ ¬ takes_effect op kv'.
Proof.
  pose proof quick_round as H.
  destruct (catchUp (λ n, demo_config n 1) (replicate 4 quick_turn) (demo_config 3 1) catching_up) as [[[kv' es] ps]|] eqn:Hc; [|discriminate H].
  exists kv', es, ps. split; [reflexivity|].
  apply (catchUp_one_configuration (λ n, demo_config n 1) (replicate 4 quick_turn) (demo_config 3 1) catching_up kv' es ps).
  - apply Forall_replicate, quick_turn_alone.
  - rewrite catching_up_num. lia.
  - simpl. lia.
  - intros n _. reflexivity.
  - exact Hc.
Defined.
