(* ===== verification/ShardAhead.v ===== *)
(** * Changes that are made ahead

    The loop of [catchUp] asks for the configuration [i + kv.config.Num]: for [i]
    from 2 on it fetches shards from the owners of its own configuration for a
    change two or more ahead.  When the group is taken to the configuration
    before that one while the change is on its way to the log, it takes effect,
    with the shards of an owner of long ago. *)
From Stdlib Require Import Strings.String.
From S2P Require Import Prelude Service GoString Messages Persister OmniPaxos ShardCtrler ShardKV ShardKVInv ShardWorld ShardKVThms ShardCatchUp.

(** Group 1, then 2, then 3 owns all shards.  Group 1 has all three changes,
    group 2 has two and executes a write, group 3 has one. *)
Definition ahead_1 : world :=
  let w := everyone (demo_config 1 1) (push_config (demo_config 1 1) world_init) in
  let w := demo_change 2 (demo_config 2 2) (demo_change 1 (demo_config 2 2) (push_config (demo_config 2 2) w)) in
  push_op 2 demo_put (demo_change 1 (demo_config 3 3) (push_config (demo_config 3 3) w)).

(** A server of group 3 that is at the first configuration makes the change to
    the third; the change to the second is logged before it. *)
Definition ahead_2 : world := demo_change 3 (demo_config 2 2) ahead_1.
Definition ahead_op : Op := (getChangeOp (demo_call ahead_2) (demo_config 3 3) (demo_state ahead_1 3)).1.
Definition ahead_3 : world := push_op 3 ahead_op ahead_2.
Definition ahead : world := push_op 3 demo_put ahead_3.

(** It is what [catchUp] makes in the second turn of a round that starts when the
    three configurations are there and the server has none. *)
Definition ahead_turn : turn := mkTurn (demo_call ahead_2) false Some Some apply_now.
Definition ahead_server : ShardKV := sk_reframe 1 (sk_op catching_up) ∅ (sk_init 1 sk_peer 3).

Lemma catchUp_makes_ahead_op : (λ r : ShardKV * list (Messages.Effect Op) * list (ShardKV * Op), snd <$> r.2) <$>
  catchUp (λ n, demo_config n n) (replicate 2 ahead_turn) (demo_config 3 3) ahead_server =
  Some [change_op (demo_config 1 1) emptyStore ∅; ahead_op].
Proof. vm_compute. reflexivity. Qed.

Lemma ahead_2_reachable : reachable_demo ahead_2.
Proof.
  unfold ahead_2, ahead_1, everyone. cbn [foldl]. demo_step. apply demo_request; [|done|done].
  demo_step. apply (demo_configure _ 3 3); [|done|lia]. do 2 demo_step.
  apply (demo_configure _ 2 2); [|done|lia]. do 3 demo_step.
  apply (demo_configure _ 1 1); [|done|lia]. apply sr_init.
Qed.

Lemma ahead_3_reachable : world_reachable sk_peer demo_home ahead_3.
Proof.
  eapply wr_step; [apply stepwise_reachable_world, ahead_2_reachable|].
  apply (ws_change sk_peer demo_home ahead_2 3 (log_of ahead_1 3) (demo_state ahead_1 3) (demo_call ahead_2) (demo_config 3 3)).
  - done.
  - by eexists.
  - by vm_compute.
  - apply (bool_decide_eq_true (demo_config 3 3 ∈ w_confs ahead_2)). by vm_compute.
  - apply demo_answers.
  - by vm_compute.
Qed.

Lemma ahead_kept_assigned s : kept_assigned ahead s.
Proof.
  intros i j c c' Hij Hc Hc' Hn H0.
  assert (∀ k, c' = demo_config k k → k ≠ 0 → False) as Hno.
  { intros k -> Hk. change (replicate 10 k !! s = Some 0) in H0. by apply lookup_replicate in H0 as [<- _]. }
  destruct j as [|[|[|[|j]]]]; vm_compute in Hc'; [|injection Hc' as <-..|done].
  - injection Hc' as <-. assert (i = 0%nat) as -> by lia. vm_compute in Hc. injection Hc as <-. done.
  - by apply (Hno 1).
  - by apply (Hno 2).
  - by apply (Hno 3).
Qed.

(** A change made two ahead breaks what holds of stepwise worlds: the change
    takes effect, the groups 2 and 3 serve all keys at the same time, and the
    write that group 2 has executed is executed by group 3 a second time. *)
Theorem change_ahead_executes_twice : ∃ kv1 kv2 kv3 kv2' kv3',
  world_reachable sk_peer demo_home ahead ∧ (∀ s, kept_assigned ahead s) ∧
  state_at sk_peer 3 (log_of ahead_2 3) = Some kv1 ∧ takes_effect ahead_op kv1 ∧
  state_at sk_peer 2 (take 2 (log_of ahead 2)) = Some kv2 ∧ take 2 (log_of ahead 2) ++ [demo_put] = log_of ahead 2 ∧ executes demo_put kv2 ∧
  state_at sk_peer 3 (log_of ahead_3 3) = Some kv3 ∧ log_of ahead_3 3 ++ [demo_put] = log_of ahead 3 ∧ executes demo_put kv3 ∧
  state_at sk_peer 2 (log_of ahead 2) = Some kv2' ∧ state_at sk_peer 3 (log_of ahead 3) = Some kv3' ∧
  ∀ key, serves key kv2' ∧ serves key kv3'.
Proof.
  exists (demo_state ahead_2 3), (default (sk_init 0 sk_peer 2) (state_at sk_peer 2 (take 2 (log_of ahead 2)))), (demo_state ahead_3 3),
    (demo_state ahead 2), (demo_state ahead 3).
  split; [|split; [apply ahead_kept_assigned|]].
  - eapply wr_step; [apply ahead_3_reachable|]. by apply ws_request.
  - split_and!; try by vm_compute.
    + split; [by left|by vm_compute].
    + split; [by left|by vm_compute].
    + intros key. unfold serves, owner_of. pose proof (key2shard_range key) as Hr. unfold NShards in Hr.
      assert (∀ g : Z, replicate 10 g !! Z.to_nat (key2shard key) = Some g) as Hg by (intros g; apply lookup_replicate_2; lia).
      split; [exact (Hg 2)|exact (Hg 3)].
Qed.
