(* ===== verification/Labgob.v ===== *)
(** * The encoding wrapper: labgob

    [checkType] walks a type once and complains about lower-case fields,
    [checkDefault] walks a value and complains about non-default scalars; the
    encoder and the decoder are encoding/gob behind these checks.  A Go type is
    an identifier in an environment, because types may be recursive. *)
From Stdlib Require Import Strings.String.
From Stdlib Require Import Strings.Byte.
From S2P Require Import Prelude.

(** ** Types *)
Abbreviation Type_ := positive.

(** [reflect.Type] by kind: the fields of a struct with their names, the
    element type of a slice, an array or a pointer, the element and the key type
    of a map, anything else. *)
Inductive TypeDesc :=
  | Struct (name : string) (fields : list (string * Type_))
  | ElemOf (t : Type_)
  | MapOf (elem key : Type_)
  | Other.

(** The package variables; [printed] collects the complaints about types, a
    field and the name of its type each, and [warned] those about values. *)
Record gob_state := mkGob {
  checked : gset Type_;
  errorCount : Z;
  printed : list (string * string);
  warned : list string;
}.
Definition gob_init : gob_state := mkGob ∅ 0 [] [].

Section labgob.
(** The program's types, and [unicode.IsUpper] of the first rune of a name. *)
Context (env : gmap Type_ TypeDesc) (isUpper : string → bool).
Implicit Types st : gob_state.

Definition kind (t : Type_) : TypeDesc := default Other (env !! t).

Definition mark (t : Type_) st : gob_state := mkGob ({[t]} ∪ checked st) (errorCount st) (printed st) (warned st).
Definition complain (field name : string) st : gob_state :=
  mkGob (checked st) (wrap64 (errorCount st + 1)) (printed st ++ [(field, name)]) (warned st).

(** [checkType], with fuel for the depth of the recursion. *)
Fixpoint checkType (fuel : nat) (t : Type_) st : option gob_state :=
  match fuel with
  | O => None
  | S fuel =>
      (* Only complain once, and avoid recursion. *)
      if decide (t ∈ checked st) then Some st
      else
        let st := mark t st in
        match kind t with
        | Struct name fields =>
            foldl (λ (acc : option gob_state) '(f, ft),
              st ← acc;
              let st := if isUpper f then st else complain f name st in
              checkType fuel ft st) (Some st) fields
        | ElemOf e => checkType fuel e st
        | MapOf e k => st ← checkType fuel e st; checkType fuel k st
        | Other => Some st
        end
  end.

(** ** Values *)

(** [reflect.Value] as far as [checkDefault1] looks: a scalar knows the name of
    its type and whether it is the zero value. *)
Inductive Value :=
  | VStruct (fields : list (string * Value))
  | VPtr (target : option Value)
  | VScalar (type_name : string) (is_zero : bool)
  | VOther.

Definition warn (what : string) st : gob_state :=
  mkGob (checked st) (wrap64 (errorCount st + 1)) (printed st)
    (if decide (errorCount st < 1) then warned st ++ [what] else warned st).

(** [checkDefault1]; [levels] counts those left before the walk stops. *)
Fixpoint checkDefault1 (levels : nat) (name : string) (v : Value) st : gob_state :=
  match levels with
  | O => st
  | S levels =>
      match v with
      | VStruct fields =>
          foldl (λ st '(f, fv),
            let name1 := if decide (name ≠ EmptyString) then (name ++ "." ++ f)%string else f in
            checkDefault1 levels name1 fv st) st fields
      | VPtr None => st
      | VPtr (Some v) => checkDefault1 levels name v st
      | VScalar tn zero =>
          if zero : bool then st
          else warn (if decide (name = EmptyString) then tn else name) st
      | VOther => st
      end
  end.

(** [checkDefault]: the walk starts at depth 1 and stops above 3; [None] is the
    nil interface. *)
Definition checkDefault (v : option Value) st : gob_state :=
  match v with None => st | Some v => checkDefault1 3 EmptyString v st end.

(** ** The encoder and the decoder

    [gob_encode] and [gob_decode] stand for encoding/gob: the bytes of a value,
    and the value that decoding into a target leaves. *)
Definition Encode {V} (gob_encode : V → option (list Byte.byte)) (fuel : nat) (t : Type_) (e : V) st :
    option (option (list Byte.byte) * gob_state) :=
  st ← checkType fuel t st; Some (gob_encode e, st).

Definition Decode {V} (gob_decode : list Byte.byte → V → option V) (fuel : nat) (t : Type_) (shape : V → option Value)
    (b : list Byte.byte) (e : V) st : option (option V * gob_state) :=
  st ← checkType fuel t st; Some (gob_decode b e, checkDefault (shape e) st).

Definition Register (fuel : nat) (t : Type_) st : option gob_state := checkType fuel t st.
End labgob.

(** ** What [checkType] has walked *)
Section walk.
Context (env : gmap Type_ TypeDesc) (isUpper : string → bool).
Implicit Types st : gob_state.
Abbreviation kind := (kind env).

(** The types [checkType] goes on to, in order. *)
Definition succs (t : Type_) : list Type_ :=
  match kind t with Struct _ fields => fields.*2 | ElemOf e => [e] | MapOf e k => [e; k] | Other => [] end.

(** The complaints a type deserves. *)
Definition lower_fields (t : Type_) : list (string * string) :=
  match kind t with
  | Struct name fields => (λ f, (f, name)) <$> filter (λ f, isUpper f = false) fields.*1
  | _ => []
  end.

(** The walk from [roots] took [st] to [st'] and reported [extra] besides the
    complaints of the types it marked. *)
Record walked (roots : list Type_) (extra : list (string * string)) (new : gset Type_) (said : list (string * string)) st st' : Prop := {
  wk_checked : checked st' = new ∪ checked st;
  wk_disjoint : new ## checked st;
  wk_roots r : r ∈ roots → r ∈ checked st';
  wk_reach x : x ∈ new → ∃ r, r ∈ roots ∧ rtc (λ a b, b ∈ succs a) r x;
  wk_closed x y : x ∈ new → y ∈ succs x → y ∈ checked st';
  wk_printed : printed st' = printed st ++ said;
  wk_said : said ≡ₚ extra ++ (elements new ≫= lower_fields);
  wk_count : errorCount st' = wrap64 (errorCount st + len said);
  wk_warned : warned st' = warned st;
}.

Lemma walked_nil st : in64 (errorCount st) → walked [] [] ∅ [] st st.
Proof.
  intros H64. split; try set_solver.
  - by rewrite app_nil_r.
  - simpl. by rewrite Z.add_0_r, wrap64_id.
Qed.

Lemma elements_bind_union (X Y : gset Type_) : X ## Y →
  (elements (X ∪ Y) ≫= lower_fields) ≡ₚ (elements X ≫= lower_fields) ++ (elements Y ≫= lower_fields).
Proof. intros HXY. by rewrite (elements_disj_union X Y HXY), bind_app. Qed.

Lemma walked_app r1 r2 e1 e2 n1 n2 s1 s2 st st1 st2 :
  walked r1 e1 n1 s1 st st1 → walked r2 e2 n2 s2 st1 st2 →
  walked (r1 ++ r2) (e1 ++ e2) (n1 ∪ n2) (s1 ++ s2) st st2.
Proof.
  intros [C1 D1 R1 H1 K1 P1 S1 N1 W1] [C2 D2 R2 H2 K2 P2 S2 N2 W2]. split.
  - rewrite C2, C1. set_solver.
  - rewrite C1 in D2. set_solver.
  - intros r [Hr|Hr]%elem_of_app; [|by apply R2]. rewrite C2. specialize (R1 r Hr). set_solver.
  - intros x [(r & ? & ?)%H1|(r & ? & ?)%H2]%elem_of_union; exists r; (split; [set_solver|done]).
  - intros x y [Hx|Hx]%elem_of_union Hy; [|by apply (K2 x)]. rewrite C2. specialize (K1 x y Hx Hy). set_solver.
  - by rewrite P2, P1, (assoc_L (++)).
  - rewrite elements_bind_union by (rewrite C1 in D2; set_solver). rewrite S1, S2.
    rewrite <-!(assoc_L (++)). apply Permutation_app_head. rewrite !(assoc_L (++)).
    apply Permutation_app_tail, Permutation_app_comm.
  - rewrite N2, N1, wrap64_add, length_app. f_equal. lia.
  - congruence.
Qed.

Lemma walked_complain f name st : walked [] [(f, name)] ∅ [(f, name)] st (complain f name st).
Proof. split; set_solver. Qed.

(** A type is walked by marking it and walking the types below it. *)
Lemma walked_node t new said st st' : t ∉ checked st →
  walked (succs t) (lower_fields t) new said (mark t st) st' → walked [t] [] ({[t]} ∪ new) said st st'.
Proof.
  intros Ht [C D R H K P S N W]. simpl in *. split; try done.
  - rewrite C. set_solver.
  - set_solver.
  - intros r ->%list_elem_of_singleton. rewrite C. set_solver.
  - intros x [Hx|Hx]%elem_of_union.
    + exists t. split; [set_solver|]. by apply elem_of_singleton in Hx as ->.
    + destruct (H x Hx) as (r & Hr & Hrx). exists t. split; [set_solver|]. by eapply rtc_l.
  - intros x y [Hx|Hx]%elem_of_union Hy; [apply elem_of_singleton in Hx as ->; by apply R|by apply (K x)].
  - rewrite elements_bind_union by set_solver. rewrite elements_singleton. simpl. by rewrite app_nil_r.
Qed.

Lemma walked_skip t st : in64 (errorCount st) → t ∈ checked st → walked [t] [] ∅ [] st st.
Proof.
  intros H64 Ht. destruct (walked_nil st H64). split; try done. by intros r ->%list_elem_of_singleton.
Qed.

Lemma walked_in64 r e n s st st' : walked r e n s st st' → in64 (errorCount st').
Proof. intros [_ _ _ _ _ _ _ -> _]. apply wrap64_range. Qed.
End walk.

(** ** [checkType] terminates and walks *)
Section terminates.
Context (env : gmap Type_ TypeDesc) (isUpper : string → bool).
Implicit Types st : gob_state.
Abbreviation walked := (walked env isUpper).

(** The types of the program not marked yet: they bound the recursion. *)
Definition unmarked st : nat := size (dom env ∖ checked st).

Lemma walked_unmarked r e n s st st' : walked r e n s st st' → (unmarked st' ≤ unmarked st)%nat.
Proof. intros [C _ _ _ _ _ _ _ _]. unfold unmarked. apply subseteq_size. rewrite C. set_solver. Qed.

Lemma unmarked_mark t st : t ∉ checked st → is_Some (env !! t) → (unmarked (mark t st) < unmarked st)%nat.
Proof. intros Ht Hs%elem_of_dom. unfold unmarked. simpl. apply subset_size. set_solver. Qed.

(** What the induction on the fuel gives for the calls on the types below. *)
Definition walks (fuel : nat) : Prop := ∀ t st, in64 (errorCount st) → (unmarked st < fuel)%nat →
  ∃ st' new said, checkType env isUpper fuel t st = Some st' ∧ walked [t] [] new said st st'.

Lemma fields_walk fuel name fields st : walks fuel → in64 (errorCount st) → (unmarked st < fuel)%nat →
  ∃ st' new said, foldl (λ (acc : option gob_state) '(f, ft),
      st ← acc; let st := if isUpper f then st else complain f name st in checkType env isUpper fuel ft st)
    (Some st) fields = Some st' ∧
    walked fields.*2 ((λ f, (f, name)) <$> filter (λ f, isUpper f = false) fields.*1) new said st st'.
Proof.
  intros Hw. revert st. induction fields as [|[f ft] fields IH]; intros st H64 Hu.
  { exists st, ∅, []. split; [done|]. by apply walked_nil. }
  cbn [foldl mbind option_bind].
  set (st1 := if isUpper f then st else complain f name st).
  assert (∃ s1, walked [] ((λ f, (f, name)) <$> filter (λ f, isUpper f = false) [f]) ∅ s1 st st1) as [s1 H1].
  { unfold st1. rewrite filter_cons, filter_nil. destruct (isUpper f); simpl.
    - exists []. by apply walked_nil.
    - exists [(f, name)]. apply walked_complain. }
  destruct (Hw ft st1) as (st2 & n2 & s2 & Hc & H2).
  { by eapply walked_in64. }
  { pose proof (walked_unmarked _ _ _ _ _ _ H1). lia. }
  rewrite Hc. pose proof (walked_app _ _ _ _ _ _ _ _ _ _ _ _ _ H1 H2) as H12.
  destruct (IH st2) as (st3 & n3 & s3 & Hf & H3).
  { by eapply walked_in64. }
  { pose proof (walked_unmarked _ _ _ _ _ _ H12). lia. }
  exists st3, ((∅ ∪ n2) ∪ n3), ((s1 ++ s2) ++ s3). split; [exact Hf|].
  pose proof (walked_app _ _ _ _ _ _ _ _ _ _ _ _ _ H12 H3) as H.
  rewrite app_nil_r, <-fmap_app, <-filter_app in H. exact H.
Qed.

Lemma checkType_walks fuel : walks fuel.
Proof.
  induction fuel as [|fuel IH]; intros t st H64 Hu; [lia|]. cbn [checkType].
  case_decide as Ht; [exists st, ∅, []; split; [done|]; by apply walked_skip|].
  assert (∀ st' new said, walked (succs env t) (lower_fields env isUpper t) new said (mark t st) st' →
    ∃ new said, walked [t] [] new said st st') as Hnode.
  { intros st' new said Hw. eexists _, said. by eapply walked_node. }
  destruct (env !! t) as [d|] eqn:Hd.
  2: { unfold kind. rewrite Hd. simpl. destruct (Hnode (mark t st) ∅ []) as (n & s & H).
       - unfold succs, lower_fields, kind. rewrite Hd. by apply walked_nil.
       - by eauto. }
  assert (unmarked (mark t st) < fuel)%nat as Hu'.
  { pose proof (unmarked_mark t st Ht ltac:(by eexists)). lia. }
  unfold succs, lower_fields, kind in Hnode. unfold kind. rewrite Hd in *. simpl in *. destruct d as [name fields|e|e k|].
  - destruct (fields_walk fuel name fields (mark t st) IH H64 Hu') as (st' & n & s & Hf & H).
    destruct (Hnode _ _ _ H) as (n' & s' & H'). eauto.
  - destruct (IH e (mark t st) H64 Hu') as (st' & n & s & Hf & H).
    destruct (Hnode _ _ _ H) as (n' & s' & H'). eauto.
  - destruct (IH e (mark t st) H64 Hu') as (st1 & n1 & s1 & Hf1 & H1). rewrite Hf1. simpl.
    destruct (IH k st1) as (st2 & n2 & s2 & Hf2 & H2).
    { by eapply walked_in64. }
    { pose proof (walked_unmarked _ _ _ _ _ _ H1). lia. }
    destruct (Hnode _ _ _ (walked_app _ _ _ _ _ _ _ _ _ _ _ _ _ H1 H2)) as (n' & s' & H'). eauto.
  - destruct (Hnode (mark t st) ∅ []) as (n' & s' & H'); [by apply walked_nil|]. eauto.
Qed.

(** The marked set is closed under going down, as it is between calls. *)
Definition closed st : Prop := ∀ x y, x ∈ checked st → y ∈ succs env x → y ∈ checked st.

Lemma closed_reach st r x : closed st → rtc (λ a b, b ∈ succs env a) r x → r ∈ checked st → x ∈ checked st.
Proof. intros Hc. induction 1 as [|a b c Hab _ IH]; intros Ha; [done|]. apply IH. by eapply Hc. Qed.

Lemma walked_closed t new said st st' : closed st → walked [t] [] new said st st' → closed st'.
Proof.
  intros Hc H x y Hx Hy. rewrite (wk_checked _ _ _ _ _ _ _ _ H) in Hx. apply elem_of_union in Hx as [Hx|Hx].
  - by eapply (wk_closed _ _ _ _ _ _ _ _ H).
  - rewrite (wk_checked _ _ _ _ _ _ _ _ H). apply elem_of_union. right. by eapply Hc.
Qed.
End terminates.

(** ** [checkDefault] *)
Section defaults.
Implicit Types st : gob_state.

(** The non-zero scalars within [levels] levels of a value. *)
Fixpoint non_defaults (levels : nat) (v : Value) : nat :=
  match levels with
  | O => 0
  | S levels =>
      match v with
      | VStruct fields => sum_list_with (λ f, non_defaults levels f.2) fields
      | VPtr (Some v) => non_defaults levels v
      | VScalar _ false => 1
      | _ => 0
      end
  end.

Record counted (n : nat) st st' : Prop := {
  ct_count : errorCount st' = wrap64 (errorCount st + Z.of_nat n);
  ct_same : checked st' = checked st ∧ printed st' = printed st;
  ct_warned : ∃ said, warned st' = warned st ++ said ∧ (length said ≤ n)%nat ∧
    (errorCount st < 1 → (0 < n)%nat → said ≠ []) ∧
    (0 <= errorCount st → errorCount st + Z.of_nat n < 2 ^ 63 → (length said ≤ 1)%nat ∧ (1 <= errorCount st → said = []));
}.

Lemma counted_0 st : in64 (errorCount st) → counted 0 st st.
Proof.
  intros H. split; [by rewrite Z.add_0_r, wrap64_id|done|]. exists []. rewrite app_nil_r. simpl. split_and!; [done|lia|lia|].
  intros. split; [lia|done].
Qed.

Lemma counted_warn what st : counted 1 st (warn what st).
Proof.
  split; [done|done|]. unfold warn. simpl. case_decide.
  - exists [what]. simpl. split_and!; [done|lia|done|]. intros. split; [lia|lia].
  - exists []. rewrite app_nil_r. simpl. split_and!; [done|lia|lia|]. intros. split; [lia|done].
Qed.

Lemma counted_app n1 n2 st st1 st2 : in64 (errorCount st) → counted n1 st st1 → counted n2 st1 st2 → counted (n1 + n2) st st2.
Proof.
  intros H64 [C1 [K1 P1] (s1 & W1 & L1 & S1 & T1)] [C2 [K2 P2] (s2 & W2 & L2 & S2 & T2)]. unfold in64 in H64. split.
  - rewrite C2, C1, wrap64_add. f_equal. lia.
  - split; congruence.
  - exists (s1 ++ s2). rewrite W2, W1, (assoc_L (++)), length_app. split_and!; [done|lia| |].
    + intros Hlt Hn He. apply app_eq_nil in He as [-> ->]. destruct n1 as [|n1]; [|by apply S1; [|lia|]].
      apply S2; [|lia|done]. rewrite C1, Z.add_0_r, wrap64_id; [done|done].
    + intros H0 Hb. destruct T1 as [T1 T1']; [done|lia|].
      assert (errorCount st1 = errorCount st + Z.of_nat n1) as He by (rewrite C1; apply wrap64_id; unfold in64; lia).
      destruct T2 as [T2 T2']; [lia|lia|]. split.
      * destruct n1 as [|n1]; [lia|]. rewrite T2' by lia. simpl. lia.
      * intros H1. rewrite T1', T2' by lia. done.
Qed.

Lemma checkDefault1_counted levels name v st : in64 (errorCount st) →
  counted (non_defaults levels v) st (checkDefault1 levels name v st).
Proof.
  revert name v st. induction levels as [|levels IH]; intros name v st H64; [by apply counted_0|].
  destruct v as [fields|[v|]|tn [|]|]; cbn [non_defaults checkDefault1]; try by apply counted_0.
  - revert st H64. induction fields as [|[f fv] fields IHf]; intros st H64; simpl; [by apply counted_0|].
    eapply counted_app; [done|by apply IH|]. apply IHf. erewrite ct_count by by apply IH. apply wrap64_range.
  - by apply IH.
  - apply counted_warn.
Qed.
End defaults.

(** ** Types of the program, for examples *)

(** The request of [Prepare] and a type with a lower-case field that points back
    to itself. *)
Definition demo_env : gmap Type_ TypeDesc :=
  {[ 1%positive := Struct "PrepareRequest" [("L"%string, 2%positive); ("N"%string, 3%positive)];
     3%positive := Struct "Ballot" [("N"%string, 2%positive); ("Pid"%string, 2%positive)];
     4%positive := Struct "node" [("next"%string, 5%positive); ("Val"%string, 2%positive)];
     5%positive := ElemOf 4%positive ]}.
Definition upper_ascii (f : string) : bool :=
  match f with String c _ => (65 <=? Ascii.nat_of_ascii c)%nat && (Ascii.nat_of_ascii c <=? 90)%nat | EmptyString => false end.

(** ** The theorems *)

(** C37 [checkType] returns on every type, recursive ones included, and does what
    the plain definition says: it marks exactly the types reachable from the
    argument, and complains once about each lower-case field of each type it
    marks for the first time. *)
Theorem checkType_reachable env isUpper t st fuel : closed env st → in64 (errorCount st) → (unmarked env st < fuel)%nat →
  ∃ st' said, checkType env isUpper fuel t st = Some st' ∧ closed env st' ∧
    (∀ x, x ∈ checked st' ↔ x ∈ checked st ∨ rtc (λ a b, b ∈ succs env a) t x) ∧
    printed st' = printed st ++ said ∧
    said ≡ₚ (elements (checked st' ∖ checked st) ≫= lower_fields env isUpper) ∧
    errorCount st' = wrap64 (errorCount st + len said).
Proof.
  intros Hc H64 Hf. destruct (checkType_walks env isUpper fuel t st H64 Hf) as (st' & new & said & Hs & Hw).
  pose proof (walked_closed _ _ _ _ _ _ _ Hc Hw) as Hc'. destruct Hw as [C D R H K P S N W].
  exists st', said. split_and!; try done.
  - intros x. split.
    + rewrite C, elem_of_union. intros [Hx|Hx]; [right|by left].
      destruct (H x Hx) as (r & ->%list_elem_of_singleton & Hr). done.
    + intros [Hx|Hx]; [rewrite C; set_solver|]. eapply closed_reach; [exact Hc'|exact Hx|apply R; left].
  - simpl in S. rewrite S. f_equiv. assert (checked st' ∖ checked st = new) as ->; [|done]. rewrite C. set_solver.
Qed.

Lemma checkType_reachable_witness : ∃ st', checkType demo_env upper_ascii 5 4 gob_init = Some st' ∧
  5%positive ∈ checked st' ∧ printed st' = [("next", "node")]%string.
Proof.
  destruct (checkType_reachable demo_env upper_ascii 4 gob_init 5) as (st' & said & Hs & _ & Hr & _).
  - intros x y Hx. by apply elem_of_empty in Hx.
  - by vm_compute.
  - vm_compute. lia.
  - exists st'. split; [exact Hs|]. split.
    + apply Hr. right. eapply rtc_l; [|apply rtc_refl]. by left.
    + vm_compute in Hs. by injection Hs as <-.
Defined.

(** [checkDefault] counts the non-zero scalars within three levels of a value
    and prints at most one warning, none when something was counted before. *)
Theorem checkDefault_counts v st : 0 <= errorCount st → errorCount st + Z.of_nat (non_defaults 3 v) < 2 ^ 63 →
  let st' := checkDefault (Some v) st in
  errorCount st' = errorCount st + Z.of_nat (non_defaults 3 v) ∧
  checked st' = checked st ∧ printed st' = printed st ∧
  ∃ said, warned st' = warned st ++ said ∧
    length said = if decide (errorCount st < 1 ∧ non_defaults 3 v ≠ 0%nat) then 1%nat else 0%nat.
Proof.
  intros H0 Hb. cbn zeta. unfold checkDefault.
  destruct (checkDefault1_counted 3 EmptyString v st) as [C [K P] (said & W & L & S & T)]; [unfold in64; lia|].
  split; [rewrite C; apply wrap64_id; unfold in64; lia|]. split; [done|]. split; [done|].
  exists said. split; [done|]. destruct (T H0 Hb) as [T1 T2]. case_decide as Hd.
  - destruct Hd as [Hlt Hn]. specialize (S Hlt ltac:(lia)). destruct said as [|? [|? ?]]; simpl in *; [done|done|lia].
  - destruct (decide (1 <= errorCount st)) as [Hge|Hlt]; [by rewrite T2|].
    assert (non_defaults 3 v = 0%nat) as Hz by (destruct (decide (non_defaults 3 v = 0%nat)); [done|exfalso; apply Hd; lia]).
    rewrite Hz in L. lia.
Qed.

Lemma checkDefault_counts_witness :
  let v := VPtr (Some (VStruct [("Err"%string, VScalar "string" false); ("Value"%string, VScalar "string" false)])) in
  errorCount (checkDefault (Some v) gob_init) = 2 ∧ warned (checkDefault (Some v) gob_init) = ["Err"]%string.
Proof.
  intros v. split; [|by vm_compute].
  destruct (checkDefault_counts v gob_init) as [Hc _]; [by vm_compute|by vm_compute|exact Hc].
Defined.
