(* ===== verification/Labrpc.v ===== *)
(** * The simulated network: labrpc

    The tables of [Network], the routing of [Server] and [Service], and the life
    of one [Call] from the request to the reply, with the draws of the random
    source and the moments at which its goroutines run left to the schedule. *)
From Stdlib Require Import Strings.String Strings.Ascii Strings.Byte.
From S2P Require Import Prelude Persister.

(** ** Names *)

(** [strings.LastIndex(s, ".")] followed by the two slices: what comes before
    and after the last dot, [None] when there is none and [s[:-1]] panics. *)
Fixpoint split_last_dot (s : string) : option (string * string) :=
  match s with
  | EmptyString => None
  | String c s' =>
      match split_last_dot s' with
      | Some (a, b) => Some (String c a, b)
      | None => if decide (c = "."%char) then Some (EmptyString, s') else None
      end
  end.

(** ** Servers and services

    A handler reads the argument bytes and the state of the objects behind the
    services, and leaves their new state and the reply bytes. *)
Section labrpc.
Context {App : Type}.

Abbreviation handler := (bytes → App → App * bytes).

(** What [MakeService] reads of a method by reflection. *)
Record Method := mkMethod {
  md_name : string;
  md_exported : bool;
  md_numIn : Z;
  md_in2_ptr : bool;
  md_numOut : Z;
  md_func : handler;
}.

Record Service_ := mkService { svc_name : string; svc_methods : gmap string handler }.

Definition suitable (m : Method) : bool :=
  md_exported m && bool_decide (md_numIn m = 3) && md_in2_ptr m && bool_decide (md_numOut m = 0).

Definition MakeService (name : string) (methods : list Method) : Service_ :=
  mkService name (foldl (λ ms m, if suitable m then <[md_name m := md_func m]> ms else ms) ∅ methods).

Record Server := mkServer { services : gmap string Service_; srv_count : Z }.

Definition MakeServer : Server := mkServer ∅ 0.
Definition AddService (svc : Service_) (rs : Server) : Server :=
  mkServer (<[svc_name svc := svc]> (services rs)) (srv_count rs).

Record reqMsg := mkReq { rq_endname : string; rq_svcMeth : string; rq_args : bytes }.
Record replyMsg := mkReply { rp_ok : bool; rp_reply : bytes }.
Definition failed : replyMsg := mkReply false [].

(** [svc.dispatch]: [None] when the method is unknown, which ends the process. *)
Definition svc_dispatch (methname : string) (req : reqMsg) (svc : Service_) (a : App) : option (App * replyMsg) :=
  match svc_methods svc !! methname with
  | Some f => let '(a, b) := f (rq_args req) a in Some (a, mkReply true b)
  | None => None
  end.

(** [rs.dispatch]. *)
Definition dispatch (req : reqMsg) (rs : Server) (a : App) : option (Server * App * replyMsg) :=
  let rs := mkServer (services rs) (wrap64 (srv_count rs + 1)) in
  '(serviceName, methodName) ← split_last_dot (rq_svcMeth req);
  svc ← services rs !! serviceName;
  '(a, r) ← svc_dispatch methodName req svc a;
  Some (rs, a, r).

Definition GetCount (rs : Server) : Z := srv_count rs.

(** ** The network

    Servers are compared by pointer: [heap] holds them, and the table maps a
    name to a pointer or to nil. *)
Record Network := mkNetwork {
  reliable : bool;
  longDelays : bool;
  longReordering : bool;
  ends : gset string;
  enabled : gmap string bool;
  servers : gmap string (option positive);
  connections : gmap string (option string);
  done : bool;
  count : Z;
  nbytes : Z;
}.

Definition MakeNetwork : Network := mkNetwork true false false ∅ ∅ ∅ ∅ false 0 0.

(** Closing [done] a second time panics. *)
Definition Cleanup n : option Network :=
  if done n then None
  else Some (mkNetwork (reliable n) (longDelays n) (longReordering n) (ends n) (enabled n) (servers n) (connections n) true (count n) (nbytes n)).
Definition Reliable (yes : bool) n : Network :=
  mkNetwork yes (longDelays n) (longReordering n) (ends n) (enabled n) (servers n) (connections n) (done n) (count n) (nbytes n).
Definition LongReordering (yes : bool) n : Network :=
  mkNetwork (reliable n) (longDelays n) yes (ends n) (enabled n) (servers n) (connections n) (done n) (count n) (nbytes n).
Definition LongDelays (yes : bool) n : Network :=
  mkNetwork (reliable n) yes (longReordering n) (ends n) (enabled n) (servers n) (connections n) (done n) (count n) (nbytes n).

(** [None] when the name exists already, which ends the process. *)
Definition MakeEnd (endname : string) n : option Network :=
  if decide (endname ∈ ends n) then None
  else Some (mkNetwork (reliable n) (longDelays n) (longReordering n) ({[endname]} ∪ ends n)
               (<[endname := false]> (enabled n)) (servers n) (<[endname := None]> (connections n)) (done n) (count n) (nbytes n)).
Definition set_servers m n : Network :=
  mkNetwork (reliable n) (longDelays n) (longReordering n) (ends n) (enabled n) m (connections n) (done n) (count n) (nbytes n).
Definition AddServer (servername : string) (rs : positive) n : Network := set_servers (<[servername := Some rs]> (servers n)) n.
Definition DeleteServer (servername : string) n : Network := set_servers (<[servername := None]> (servers n)) n.
Definition Connect (endname servername : string) n : Network :=
  mkNetwork (reliable n) (longDelays n) (longReordering n) (ends n) (enabled n) (servers n)
    (<[endname := Some servername]> (connections n)) (done n) (count n) (nbytes n).
Definition Enable (endname : string) (on : bool) n : Network :=
  mkNetwork (reliable n) (longDelays n) (longReordering n) (ends n) (<[endname := on]> (enabled n)) (servers n)
    (connections n) (done n) (count n) (nbytes n).

(** [atomic.AddInt32] and [atomic.AddInt64] on the statistics. *)
Definition wrap32 (z : Z) : Z := (z + 2 ^ 31) mod 2 ^ 32 - 2 ^ 31.
Definition add_count n : Network :=
  mkNetwork (reliable n) (longDelays n) (longReordering n) (ends n) (enabled n) (servers n) (connections n) (done n)
    (wrap32 (count n + 1)) (nbytes n).
Definition add_bytes (k : Z) n : Network :=
  mkNetwork (reliable n) (longDelays n) (longReordering n) (ends n) (enabled n) (servers n) (connections n) (done n)
    (count n) (wrap64 (nbytes n + k)).
Definition GetTotalCount n : Z := count n.
Definition GetTotalBytes n : Z := nbytes n.

(** A nil pointer and an absent name read the same. *)
Definition server_at (servername : string) n : option positive := servers n !! servername ≫= id.

Definition readEndnameInfo (endname : string) n : bool * option string * option positive * bool * bool :=
  let servername := connections n !! endname ≫= id in
  (default false (enabled n !! endname), servername, servername ≫= λ s, server_at s n, reliable n, longReordering n).

Definition isServerDead (endname servername : string) (server : positive) n : bool :=
  bool_decide (default false (enabled n !! endname) = false ∨ server_at servername n ≠ Some server).

(** [processReq] up to the goroutine that runs the handler: the server to run
    it on, unless the end is not connected to a server or the request is
    dropped; [drop] is the draw. *)
Definition processReq_start (req : reqMsg) (drop : bool) n : option (string * positive) :=
  match readEndnameInfo (rq_endname req) n with
  | (true, Some servername, Some server, rel, _) =>
      if negb rel && drop then None else Some (servername, server)
  | _ => None
  end.

(** What [processReq] sends on [replyCh] once the handler has returned [reply],
    and whether it is sent later, by a timer; [rel] and [reord] are what
    [readEndnameInfo] had read, [drop] and [delay] the draws. *)
Definition processReq_reply (req : reqMsg) (servername : string) (server : positive) (reply : replyMsg)
    (rel reord drop delay : bool) n : replyMsg * bool :=
  if isServerDead (rq_endname req) servername server n then (failed, false)
  else if negb rel && drop then (failed, false)
  else (reply, reord && delay).

(** [Call] on a reply: [None] for false, the decoded reply for true; a decoding
    error ends the process. *)
Definition Call_result {R} (decode : bytes → option R) (rep : replyMsg) : option (option R) :=
  if rp_ok rep then r ← decode (rp_reply rep); Some (Some r) else Some None.
End labrpc.
Arguments Server : clear implicits.
Arguments Service_ : clear implicits.
Arguments Method : clear implicits.
