(* ===== verification/RpcWorld.v ===== *)
(** * Calls over the simulated network

    The calls in flight as a state machine: every goroutine of [Call] and
    [processReq] takes its steps when the schedule says so, between operations
    on the network's tables.  A call runs its handler at most once, a positive
    answer is the answer of that run, and a server that has been deleted gives
    no positive answer any more, unless the answer was on a timer already. *)
From Stdlib Require Import Strings.String Strings.Ascii Strings.Byte.
From S2P Require Import Prelude Persister Labrpc.

Section world.
Context {App : Type}.

(** One [Call]: what [processReq] read when it started, the reply its handler
    goroutine has sent on [ech], the reply a timer will send, and what was sent
    on [replyCh]. *)
Record call := mkCall {
  c_req : reqMsg;
  c_accepted : bool;
  c_server : option (string * positive);
  c_rel : bool;
  c_reord : bool;
  c_ran : option replyMsg;
  c_late : option replyMsg;
  c_result : option replyMsg;
}.

(** [w_heap] holds the servers; [w_runs] records every run of a handler: the
    call, the server, and the state of the objects before it. *)
Record rpc_world := mkRpc {
  w_net : Network;
  w_heap : gmap positive (Server App);
  w_app : App;
  w_calls : gmap nat call;
  w_runs : list (nat * positive * App);
}.

Definition rpc_init (a : App) : rpc_world := mkRpc MakeNetwork ∅ a ∅ [].

Definition set_net n w : rpc_world := mkRpc n (w_heap w) (w_app w) (w_calls w) (w_runs w).
Definition set_call (id : nat) (c : call) w : rpc_world :=
  mkRpc (w_net w) (w_heap w) (w_app w) (<[id := c]> (w_calls w)) (w_runs w).
Definition set_result (r : replyMsg) (c : call) : call :=
  mkCall (c_req c) (c_accepted c) (c_server c) (c_rel c) (c_reord c) (c_ran c) (c_late c) (Some r).
Definition set_late (r : replyMsg) (c : call) : call :=
  mkCall (c_req c) (c_accepted c) (c_server c) (c_rel c) (c_reord c) (c_ran c) (Some r) (c_result c).

(** The operations of the tests on the network. *)
Inductive net_op :=
  | OpCleanup | OpReliable (yes : bool) | OpLongReordering (yes : bool) | OpLongDelays (yes : bool)
  | OpMakeEnd (endname : string) | OpAddServer (name : string) (rs : positive) | OpDeleteServer (name : string)
  | OpConnect (endname name : string) | OpEnable (endname : string) (on : bool).

Definition net_apply (o : net_op) (n : Network) : option Network :=
  match o with
  | OpCleanup => Cleanup n
  | OpReliable yes => Some (Reliable yes n)
  | OpLongReordering yes => Some (LongReordering yes n)
  | OpLongDelays yes => Some (LongDelays yes n)
  | OpMakeEnd e => MakeEnd e n
  | OpAddServer s rs => Some (AddServer s rs n)
  | OpDeleteServer s => Some (DeleteServer s n)
  | OpConnect e s => Some (Connect e s n)
  | OpEnable e on => Some (Enable e on n)
  end.

Inductive label :=
  | Net (o : net_op)               (* an operation on the tables *)
  | NewServer (p : positive) (rs : Server App)
  | Send (id : nat) (req : reqMsg) (* [Call] up to the [select] *)
  | Refuse (id : nat)              (* the [select] takes [done] *)
  | Accept (id : nat)              (* the goroutine of [MakeNetwork] *)
  | Process (id : nat) (drop : bool)
  | Run (id : nat)                 (* the handler's goroutine *)
  | GiveUp (id : nat)              (* the poll finds the server dead *)
  | Reply (id : nat) (drop delay : bool)
  | Late (id : nat).               (* the timer of a delayed reply *)

(** One step; [None] when it is not possible, or ends the process. *)
Definition rpc_step (l : label) w : option rpc_world :=
  match l with
  | Net o => n ← net_apply o (w_net w); Some (set_net n w)
  | NewServer p rs =>
      match w_heap w !! p with
      | Some _ => None
      | None => Some (mkRpc (w_net w) (<[p := rs]> (w_heap w)) (w_app w) (w_calls w) (w_runs w))
      end
  | Send id req =>
      match w_calls w !! id with
      | Some _ => None
      | None => Some (set_call id (mkCall req false None false false None None None) w)
      end
  | Refuse id =>
      c ← w_calls w !! id;
      if done (w_net w) && negb (c_accepted c) then Some (set_call id (set_result failed c) w) else None
  | Accept id =>
      c ← w_calls w !! id;
      match c_accepted c, c_result c with
      | false, None =>
          Some (set_net (add_bytes (len (rq_args (c_req c))) (add_count (w_net w)))
            (set_call id (mkCall (c_req c) true (c_server c) (c_rel c) (c_reord c) (c_ran c) (c_late c) (c_result c)) w))
      | _, _ => None
      end
  | Process id drop =>
      c ← w_calls w !! id;
      match c_accepted c, c_server c, c_result c with
      | true, None, None =>
          match processReq_start (c_req c) drop (w_net w) with
          | Some sp => Some (set_call id (mkCall (c_req c) true (Some sp) (reliable (w_net w)) (longReordering (w_net w)) None None None) w)
          | None => Some (set_call id (set_result failed c) w)
          end
      | _, _, _ => None
      end
  | Run id =>
      c ← w_calls w !! id;
      match c_server c, c_ran c with
      | Some (name, p), None =>
          rs ← w_heap w !! p;
          '(rs, a, rep) ← dispatch (c_req c) rs (w_app w);
          Some (mkRpc (w_net w) (<[p := rs]> (w_heap w)) a
                 (<[id := mkCall (c_req c) (c_accepted c) (c_server c) (c_rel c) (c_reord c) (Some rep) (c_late c) (c_result c)]> (w_calls w))
                 (w_runs w ++ [(id, p, w_app w)]))
      | _, _ => None
      end
  | GiveUp id =>
      c ← w_calls w !! id;
      match c_server c, c_late c, c_result c with
      | Some (name, p), None, None =>
          if isServerDead (rq_endname (c_req c)) name p (w_net w)
          then Some (set_call id (set_result failed c) w) else None
      | _, _, _ => None
      end
  | Reply id drop delay =>
      c ← w_calls w !! id;
      match c_server c, c_ran c, c_late c, c_result c with
      | Some (name, p), Some rep, None, None =>
          let '(r, later) := processReq_reply (c_req c) name p rep (c_rel c) (c_reord c) drop delay (w_net w) in
          if later : bool then Some (set_call id (set_late r c) w)
          else Some (set_net (if rp_ok r then add_bytes (len (rp_reply r)) (w_net w) else w_net w)
                      (set_call id (set_result r c) w))
      | _, _, _, _ => None
      end
  | Late id =>
      c ← w_calls w !! id;
      match c_late c, c_result c with
      | Some r, None =>
          Some (set_net (add_bytes (len (rp_reply r)) (w_net w)) (set_call id (set_result r c) w))
      | _, _ => None
      end
  end.

Fixpoint rpc_run (ls : list label) w : option rpc_world :=
  match ls with
  | [] => Some w
  | l :: ls => w ← rpc_step l w; rpc_run ls w
  end.

(** [rn.GetCount]: a name without a server is a nil pointer, and panics. *)
Definition net_GetCount (servername : string) w : option Z :=
  p ← server_at servername (w_net w); rs ← w_heap w !! p; Some (GetCount rs).

Inductive rpc_reachable (a : App) : rpc_world → Prop :=
  | rr_init : rpc_reachable a (rpc_init a)
  | rr_step w l w' : rpc_reachable a w → rpc_step l w = Some w' → rpc_reachable a w'.
End world.
Arguments rpc_world : clear implicits.
Arguments label : clear implicits.

(** ** The invariant *)
Section invariant.
Context {App : Type}.
Implicit Types w : rpc_world App.
Implicit Types c : call.

Definition runs_of (id : nat) w : list (nat * positive * App) := filter (λ x, x.1.1 = id) (w_runs w).

(** The runs a call has had, and what its reply and its result say of them. *)
Record call_ok w (id : nat) (c : call) : Prop := {
  co_runs : length (runs_of id w) = if c_ran c then 1%nat else 0%nat;
  co_ran rep : c_ran c = Some rep → ∃ name p a rs rs' a',
    c_server c = Some (name, p) ∧ runs_of id w = [(id, p, a)] ∧ dispatch (c_req c) rs a = Some (rs', a', rep);
  co_late r : c_late c = Some r → c_ran c = Some r;
  co_result r : c_result c = Some r → rp_ok r = true → c_ran c = Some r;
}.

Record rpc_inv w : Prop := {
  ri_calls id c : w_calls w !! id = Some c → call_ok w id c;
  ri_none id : w_calls w !! id = None → runs_of id w = [];
}.

Lemma rpc_init_inv (a : App) : rpc_inv (rpc_init a).
Proof. split; [|done]. intros id c. simpl. by rewrite lookup_empty. Qed.

(** What only depends on the calls and the runs. *)
Lemma same_inv w w' : rpc_inv w → w_calls w' = w_calls w → w_runs w' = w_runs w → rpc_inv w'.
Proof.
  intros [H1 H2] Hc Hr. assert (∀ i, runs_of i w' = runs_of i w) as Hruns by (intros i; unfold runs_of; by rewrite Hr).
  split; intros id; rewrite Hc; [|rewrite Hruns; apply H2].
  intros c Hcall. destruct (H1 id c Hcall). by split; rewrite ?Hruns.
Qed.

(** A step that changes one call and runs no handler. *)
Lemma set_call_inv w w' id c : rpc_inv w → w_calls w' = <[id := c]> (w_calls w) → w_runs w' = w_runs w →
  call_ok w id c → rpc_inv w'.
Proof.
  intros [H1 H2] Hc Hr Hok. assert (∀ i, runs_of i w' = runs_of i w) as Hruns by (intros i; unfold runs_of; by rewrite Hr).
  assert (∀ i x, call_ok w i x → call_ok w' i x) as Hmono.
  { intros i x [K1 K2 K3 K4]. split; [by rewrite Hruns|by rewrite Hruns|done|done]. }
  split.
  - intros i x. rewrite Hc. intros [[<- <-]|[_ Hx]]%lookup_insert_Some; [by apply Hmono|by apply Hmono, H1].
  - intros i. rewrite Hc. intros [Hi _]%lookup_insert_None. rewrite Hruns. by apply H2.
Qed.

Lemma call_ok_result w id c r : call_ok w id c → (rp_ok r = true → c_ran c = Some r) → call_ok w id (set_result r c).
Proof. intros [K1 K2 K3 K4] Hr. split; [done|done|done|]. by intros r' [= <-]. Qed.

Lemma call_ok_start w id c c' : call_ok w id c → c_ran c = None → c_ran c' = None → c_late c' = None → c_result c' = None →
  call_ok w id c'.
Proof.
  intros [K1 _ _ _] Hc Hc' Hl Hr. split; [by rewrite Hc'; rewrite Hc in K1|by rewrite Hc'|by rewrite Hl|by rewrite Hr].
Qed.

Lemma run_inv w id c name p rs rs' a' rep : rpc_inv w → w_calls w !! id = Some c →
  c_server c = Some (name, p) → c_ran c = None → dispatch (c_req c) rs (w_app w) = Some (rs', a', rep) → 
  (∀ r, c_result c = Some r → rp_ok r = false) →
  rpc_inv (mkRpc (w_net w) (<[p := rs']> (w_heap w)) a'
    (<[id := mkCall (c_req c) (c_accepted c) (c_server c) (c_rel c) (c_reord c) (Some rep) (c_late c) (c_result c)]> (w_calls w))
    (w_runs w ++ [(id, p, w_app w)])).
Proof.
  intros [H1 H2] Hc Hs Hr Hd Hres. set (w' := mkRpc _ _ _ _ _).
  assert (∀ i, runs_of i w' = runs_of i w ++ (if decide (id = i) then [(id, p, w_app w)] else [])) as Hruns.
  { intros i. unfold runs_of, w'. simpl. rewrite filter_app, filter_cons, filter_nil. simpl. by case_decide. }
  assert (runs_of id w = []) as Hnil.
  { apply nil_length_inv. rewrite (co_runs _ _ _ (H1 id c Hc)). by rewrite Hr. }
  split.
  - intros i x. simpl. intros [[<- <-]|[Hne Hx]]%lookup_insert_Some.
    + split; rewrite ?Hruns, ?Hnil, ?decide_True by done; simpl; [done| | |].
      * intros rep' [= <-]. by exists name, p, (w_app w), rs, rs', a'.
      * intros r Hl. pose proof (co_late _ _ _ (H1 id c Hc) r Hl). congruence.
      * intros r Hcr Hok. rewrite (Hres r Hcr) in Hok. done.
    + destruct (H1 i x Hx) as [K1 K2 K3 K4]. split; rewrite ?Hruns, ?decide_False, ?app_nil_r by done; done.
  - intros i. simpl. intros [Hi Hne]%lookup_insert_None. rewrite Hruns, decide_False, app_nil_r by done. by apply H2.
Qed.

(** A reply that is positive is the reply of the handler. *)
Lemma processReq_reply_ok req name p rep rel reord drop delay (n : Network) r later :
  processReq_reply req name p rep rel reord drop delay n = (r, later) →
  (later = true ∨ rp_ok r = true) → r = rep ∧ isServerDead (rq_endname req) name p n = false.
Proof.
  unfold processReq_reply. destruct (isServerDead _ _ _ _); [by intros [= <- <-] [|]|].
  destruct (negb rel && drop); [by intros [= <- <-] [|]|]. by intros [= <- _].
Qed.

Lemma rpc_step_inv w l w' : rpc_inv w → rpc_step l w = Some w' → rpc_inv w'.
Proof.
  intros Hi. pose proof Hi as [H1 H2]. destruct l as [o|p rs|id req|id|id|id drop|id|id|id drop delay|id]; simpl.
  - intros (n & _ & [= <-])%bind_Some. by eapply same_inv.
  - destruct (w_heap w !! p); [done|]. intros [= <-]. by eapply same_inv.
  - destruct (w_calls w !! id) eqn:Hn; [done|]. intros [= <-]. eapply set_call_inv; [done..|].
    split; [by rewrite (H2 id Hn)|done|done|done].
  - intros (c & Hc & Hx)%bind_Some. destruct (_ && _); [|done]. injection Hx as <-.
    eapply set_call_inv; [done..|]. apply call_ok_result; [by apply H1|done].
  - intros (c & Hc & Hx)%bind_Some. destruct (c_accepted c), (c_result c) as [r|] eqn:Hr; try done. injection Hx as <-.
    eapply set_call_inv; [done..|]. destruct (H1 id c Hc) as [K1 K2 K3 K4]. split; [done|done|done|done].
  - intros (c & Hc & Hx)%bind_Some.
    destruct (c_accepted c), (c_server c) as [[name p]|] eqn:Hs, (c_result c) as [r|] eqn:Hr; try done.
    assert (c_ran c = None) as Hran.
    { destruct (c_ran c) as [rep|] eqn:Hran; [|done].
      destruct (co_ran _ _ _ (H1 id c Hc) rep Hran) as (? & ? & ? & ? & ? & ? & Hs' & _). congruence. }
    destruct (processReq_start _ _ _); injection Hx as <-.
    + eapply set_call_inv; [done..|]. by apply (call_ok_start w id c); [apply H1|..].
    + eapply set_call_inv; [done..|]. apply call_ok_result; [by apply H1|done].
  - intros (c & Hc & Hx)%bind_Some. destruct (c_server c) as [[name p]|] eqn:Hs, (c_ran c) as [rep|] eqn:Hr; try done.
    apply bind_Some in Hx as (rs & Hrs & Hx). apply bind_Some in Hx as ([[rs' a'] rep] & Hd & [= <-]).
    rewrite <-Hs. eapply run_inv; [done..|]. intros r Hres. destruct (rp_ok r) eqn:Hok; [|done].
    rewrite (co_result _ _ _ (H1 id c Hc) r Hres Hok) in Hr. done.
  - intros (c & Hc & Hx)%bind_Some. destruct (c_server c) as [[name p]|] eqn:Hs, (c_late c) as [late|] eqn:Hl, (c_result c) as [r|] eqn:Hr; try done.
    destruct (isServerDead _ _ _ _); [|done]. injection Hx as <-.
    eapply set_call_inv; [done..|]. apply call_ok_result; [by apply H1|done].
  - intros (c & Hc & Hx)%bind_Some.
    destruct (c_server c) as [[name p]|] eqn:Hs, (c_ran c) as [rep|] eqn:Hran, (c_late c) as [late|] eqn:Hl, (c_result c) as [res|] eqn:Hr; try done.
    destruct (processReq_reply _ _ _ _ _ _ _ _ _) as [r later] eqn:Hp. pose proof (processReq_reply_ok _ _ _ _ _ _ _ _ _ _ _ Hp) as Hok.
    destruct later; injection Hx as <-; (eapply set_call_inv; [done..|]).
    + destruct (Hok (or_introl eq_refl)) as [-> _]. destruct (H1 id c Hc) as [K1 K2 K3 K4]. split; [done|done| |done].
      simpl. by intros r [= <-].
    + apply call_ok_result; [by apply H1|]. intros Hr'. rewrite Hran. f_equal. symmetry. by apply Hok; right.
  - intros (c & Hc & Hx)%bind_Some. destruct (c_late c) as [r|] eqn:Hl, (c_result c) eqn:Hr; try done. injection Hx as <-.
    eapply set_call_inv; [done..|]. apply call_ok_result; [by apply H1|]. intros _. by apply (H1 id c Hc).
Qed.

Lemma rpc_reachable_inv a w : rpc_reachable a w → rpc_inv w.
Proof. induction 1; [apply rpc_init_inv|by eapply rpc_step_inv]. Qed.
End invariant.

(** ** Deleted servers and the statistics *)
Section runs.
Context {App : Type}.
Implicit Types w : rpc_world App.

Definition adds (p : positive) (l : label App) : bool :=
  match l with Net (OpAddServer _ p') => bool_decide (p' = p) | _ => false end.

(** No positive answer has been sent or is on a timer. *)
Definition unanswered (c : call) : Prop := c_late c = None ∧ ∀ r, c_result c = Some r → rp_ok r = false.

(** No name leads to server [p], and call [id], which was dispatched to it, has
    no positive answer. *)
Record silent (p : positive) (id : nat) w : Prop := {
  sl_names s : server_at s (w_net w) ≠ Some p;
  sl_call : ∃ c name, w_calls w !! id = Some c ∧ c_server c = Some (name, p) ∧ unanswered c;
}.

Lemma silent_set_call p id w w' i c c' : silent p id w → w_net w' = w_net w → w_calls w' = <[i := c']> (w_calls w) →
  w_calls w !! i = Some c → (i = id → ∀ name, c_server c = Some (name, p) →
    c_server c' = Some (name, p) ∧ (unanswered c → unanswered c')) →
  silent p id w'.
Proof.
  intros [Hn (x & name & Hx & Hs & Hr)] Hnet Hc Hi Hkeep. split; [by rewrite Hnet|]. rewrite Hc.
  destruct (decide (i = id)) as [->|Hne].
  - rewrite Hi in Hx. injection Hx as ->. destruct (Hkeep eq_refl name Hs) as [? Hres].
    exists c', name. rewrite lookup_insert_eq. split; [done|]. split; [done|]. by apply Hres.
  - exists x, name. by rewrite lookup_insert_ne.
Qed.

Lemma silent_net p id w n : silent p id w → (∀ s, server_at s n ≠ Some p) → silent p id (set_net n w).
Proof. by intros [_ H] Hn. Qed.

Lemma net_apply_servers o (n n' : Network) p : net_apply o n = Some n' →
  (∀ s, server_at s n ≠ Some p) → (∀ s rs, o = OpAddServer s rs → rs ≠ p) → ∀ s, server_at s n' ≠ Some p.
Proof.
  intros Ha Hn Hadd s. destruct o; simpl in Ha; try (injection Ha as <-; apply Hn).
  - unfold Cleanup in Ha. destruct (done n); [done|]. injection Ha as <-. apply Hn.
  - unfold MakeEnd in Ha. case_decide; [done|]. injection Ha as <-. apply Hn.
  - injection Ha as <-. unfold server_at, AddServer. simpl. destruct (decide (name = s)) as [->|Hne].
    + rewrite lookup_insert_eq. simpl. intros [= ->]. by eapply Hadd.
    + rewrite lookup_insert_ne by done. apply Hn.
  - injection Ha as <-. unfold server_at, DeleteServer. simpl. destruct (decide (name = s)) as [->|Hne].
    + by rewrite lookup_insert_eq.
    + rewrite lookup_insert_ne by done. apply Hn.
Qed.

Lemma failed_unanswered c : unanswered c → unanswered (set_result failed c).
Proof. intros [Hu _]. split; [done|]. by intros r [= <-]. Qed.

Lemma silent_step p id l w w' : silent p id w → adds p l = false → rpc_step l w = Some w' → silent p id w'.
Proof.
  intros Hs Hadd. pose proof Hs as [Hn _]. destruct l as [o|q rs|i req|i|i|i drop|i|i|i drop delay|i]; simpl.
  - intros (n & Ha & [= <-])%bind_Some. apply silent_net; [done|]. apply (net_apply_servers o (w_net w)); [done..|].
    intros s rs ->. simpl in Hadd. by apply bool_decide_eq_false in Hadd.
  - destruct (w_heap w !! q); [done|]. intros [= <-]. by destruct Hs.
  - destruct (w_calls w !! i) eqn:Hi; [done|]. intros [= <-].
    destruct Hs as [_ (x & name & Hx & Hsv & Hr)]. split; [done|]. exists x, name. simpl.
    rewrite lookup_insert_ne; [done|]. intros ->. congruence.
  - intros (c & Hc & Hx)%bind_Some. destruct (_ && _); [|done]. injection Hx as <-.
    eapply silent_set_call; [done..|exact Hc|]. intros -> name Hsv. split; [done|]. by apply failed_unanswered.
  - intros (c & Hc & Hx)%bind_Some. destruct (c_accepted c), (c_result c) as [r|] eqn:Hr; try done. injection Hx as <-.
    apply silent_net; [|done]. eapply silent_set_call; [done..|exact Hc|]. intros -> name Hsv. simpl. split; [done|].
    intros [Hu _]. split; [done|]. simpl. congruence.
  - intros (c & Hc & Hx)%bind_Some.
    destruct (c_accepted c), (c_server c) as [[name q]|] eqn:Hsv, (c_result c) as [r|] eqn:Hr; try done.
    destruct (processReq_start _ _ _); injection Hx as <-;
      (eapply silent_set_call; [done..|exact Hc|]; intros -> name Hsv'; congruence).
  - intros (c & Hc & Hx)%bind_Some. destruct (c_server c) as [[name q]|] eqn:Hsv, (c_ran c) as [rep|] eqn:Hr; try done.
    apply bind_Some in Hx as (rs & Hrs & Hx). apply bind_Some in Hx as ([[rs' a'] rep] & Hd & [= <-]).
    eapply silent_set_call; [done..|exact Hc|]. intros -> name' Hsv'. simpl. split; [congruence|done].
  - intros (c & Hc & Hx)%bind_Some. destruct (c_server c) as [[name q]|] eqn:Hsv, (c_late c) as [late|], (c_result c) as [r|] eqn:Hr; try done.
    destruct (isServerDead _ _ _ _); [|done]. injection Hx as <-.
    eapply silent_set_call; [done..|exact Hc|]. intros -> name' Hsv'. split; [done|]. by apply failed_unanswered.
  - intros (c & Hc & Hx)%bind_Some.
    destruct (c_server c) as [[name q]|] eqn:Hsv, (c_ran c) as [rep|] eqn:Hran, (c_late c) as [late|], (c_result c) as [res|] eqn:Hr; try done.
    destruct (processReq_reply _ _ _ _ _ _ _ _ _) as [r later] eqn:Hp.
    assert (i = id → ∀ name', c_server c = Some (name', p) → later = false ∧ rp_ok r = false) as Hno.
    { intros _ name' Hsv'. rewrite Hsv in Hsv'. injection Hsv' as -> ->.
      assert (¬ (later = true ∨ rp_ok r = true)) as Hnot; [|by destruct later, (rp_ok r); tauto]. intros Hok.
      apply (processReq_reply_ok _ _ _ _ _ _ _ _ _ _ _ Hp) in Hok as [_ Hdead].
      unfold isServerDead in Hdead. apply bool_decide_eq_false in Hdead. apply Hdead. right. apply Hn. }
    destruct later; injection Hx as <-; [|apply silent_net; [|by destruct (rp_ok r)]];
      (eapply silent_set_call; [done..|exact Hc|]; intros He name' Hsv'; destruct (Hno He name' Hsv') as [Hl Hok]; try done).
    split; [done|]. intros [Hu _]. split; [done|]. simpl. by intros r' [= <-].
  - intros (c & Hc & Hx)%bind_Some. destruct (c_late c) as [r|] eqn:Hl, (c_result c) eqn:Hr; try done. injection Hx as <-.
    apply silent_net; [|done]. eapply silent_set_call; [done..|exact Hc|]. intros -> name' Hsv'. split; [done|].
    intros [Hu _]. congruence.
Qed.

Lemma silent_run p id ls w w' : silent p id w → forallb (λ l, negb (adds p l)) ls = true → rpc_run ls w = Some w' → silent p id w'.
Proof.
  revert w. induction ls as [|l ls IH]; intros w Hs; simpl; [by intros _ [= <-]|].
  intros [Hl%negb_true_iff Hls]%andb_true_iff (w1 & H1 & Hrun)%bind_Some.
  apply (IH w1); [by eapply silent_step|done|done].
Qed.

(** ** Statistics *)
Definition is_accept (l : label App) : bool := match l with Accept _ => true | _ => false end.

Lemma wrap32_add a b : wrap32 (wrap32 a + b) = wrap32 (a + b).
Proof.
  unfold wrap32. replace ((a + 2 ^ 31) mod 2 ^ 32 - 2 ^ 31 + b + 2 ^ 31) with ((a + 2 ^ 31) mod 2 ^ 32 + b) by lia.
  rewrite Zplus_mod_idemp_l. do 2 f_equal. lia.
Qed.

Lemma rpc_step_count l w w' : rpc_step l w = Some w' →
  count (w_net w') = if is_accept l then wrap32 (count (w_net w) + 1) else count (w_net w).
Proof.
  destruct l as [o|q rs|i req|i|i|i drop|i|i|i drop delay|i]; simpl.
  - intros (n & Ha & [= <-])%bind_Some. destruct o; simpl in Ha; try by injection Ha as <-.
    { unfold Cleanup in Ha. destruct (done (w_net w)); [done|]. by injection Ha as <-. }
    unfold MakeEnd in Ha. case_decide; [done|]. by injection Ha as <-.
  - destruct (w_heap w !! q); [done|]. by intros [= <-].
  - destruct (w_calls w !! i); [done|]. by intros [= <-].
  - intros (c & Hc & Hx)%bind_Some. destruct (_ && _); [|done]. by injection Hx as <-.
  - intros (c & Hc & Hx)%bind_Some. destruct (c_accepted c), (c_result c); try done. by injection Hx as <-.
  - intros (c & Hc & Hx)%bind_Some. destruct (c_accepted c), (c_server c), (c_result c); try done.
    destruct (processReq_start _ _ _); by injection Hx as <-.
  - intros (c & Hc & Hx)%bind_Some. destruct (c_server c) as [[? q]|], (c_ran c); try done.
    apply bind_Some in Hx as (rs & Hrs & Hx). by apply bind_Some in Hx as ([[rs' a'] rep] & Hd & [= <-]).
  - intros (c & Hc & Hx)%bind_Some. destruct (c_server c) as [[? q]|], (c_late c) as [late|], (c_result c); try done.
    destruct (isServerDead _ _ _ _); [|done]. by injection Hx as <-.
  - intros (c & Hc & Hx)%bind_Some. destruct (c_server c) as [[? q]|], (c_ran c) as [rep|], (c_late c) as [late|], (c_result c) as [res|]; try done.
    destruct (processReq_reply _ _ _ _ _ _ _ _ _) as [r later]. destruct later; injection Hx as <-; [done|]. simpl. by destruct (rp_ok _).
  - intros (c & Hc & Hx)%bind_Some. destruct (c_late c) as [late|], (c_result c) as [res|]; try done. by injection Hx as <-.
Qed.

Lemma rpc_run_count ls w w' : rpc_run ls w = Some w' → count (w_net w) = wrap32 (count (w_net w)) →
  count (w_net w') = wrap32 (count (w_net w) + len (filter is_accept ls)).
Proof.
  revert w. induction ls as [|l ls IH]; intros w; simpl; [intros [= <-]; by rewrite Z.add_0_r|].
  intros (w1 & H1 & Hrun)%bind_Some H32. pose proof (rpc_step_count l w w1 H1) as Hc.
  rewrite (IH w1 Hrun); rewrite Hc; destruct (is_accept l) eqn:Hl.
  - rewrite filter_cons_True by by rewrite Hl. rewrite wrap32_add. f_equal. simpl. lia.
  - rewrite filter_cons_False; [done|]. rewrite Hl. by intros [].
  - symmetry. pose proof (wrap32_add (count (w_net w) + 1) 0) as E. by rewrite !Z.add_0_r in E.
  - done.
Qed.
End runs.

(** ** Routing *)
Section routing.
Context {App : Type}.

Lemma split_last_dot_app a m : split_last_dot m = None → split_last_dot (a ++ String "." m) = Some (a, m).
Proof. intros Hm. induction a as [|c a IH]; simpl; [by rewrite Hm|by rewrite IH]. Qed.

Lemma MakeService_lookup name (ms : list (Method App)) m : NoDup (md_name <$> ms) → m ∈ ms → suitable m = true →
  svc_methods (MakeService name ms) !! md_name m = Some (md_func m).
Proof.
  intros Hnd Hin Hs. unfold MakeService. simpl. induction ms as [|x ms IH] using rev_ind; [by apply not_elem_of_nil in Hin|].
  rewrite fmap_app in Hnd. apply NoDup_app in Hnd as (Hnd & Hdis & _). rewrite foldl_snoc.
  rewrite elem_of_app, list_elem_of_singleton in Hin. destruct Hin as [Hin| ->].
  - assert (md_name x ≠ md_name m) as Hne.
    { intros He. apply (Hdis (md_name m)); [apply list_elem_of_fmap; by exists m|]. simpl. rewrite He. left. }
    destruct (suitable x); [rewrite lookup_insert_ne by done|]; by apply IH.
  - rewrite Hs. by rewrite lookup_insert_eq.
Qed.
End routing.

(** ** A network with one server *)

(** The object counts; its only method adds the length of the argument and
    answers the argument. *)
Definition demo_method : Method Z := mkMethod "Add" true 3 true 0 (λ b a, (a + len b, b)).
Definition demo_server : Server Z := AddService (MakeService "Counter" [demo_method]) MakeServer.
Definition demo_req : reqMsg := mkReq "end" "Counter.Add" [x01; x02].
Definition demo_setup : list (label Z) :=
  [NewServer 1 demo_server; Net (OpAddServer "srv" 1); Net (OpMakeEnd "end"); Net (OpConnect "end" "srv"); Net (OpEnable "end" true);
   Send 0 demo_req; Accept 0; Process 0 false].

Lemma rpc_run_reachable {App} (a : App) ls w w' : rpc_reachable a w → rpc_run ls w = Some w' → rpc_reachable a w'.
Proof.
  revert w. induction ls as [|l ls IH]; intros w Hw; simpl; [by intros [= <-]|].
  intros (w1 & H1 & Hrun)%bind_Some. eapply IH; [|exact Hrun]. by eapply rr_step.
Qed.

(** That no name leads to a server is a fact of a finite table. *)
#[export] Instance no_name_dec (n : Network) (p : positive) : Decision (∀ s, server_at s n ≠ Some p).
Proof.
  refine (cast_if (decide (map_Forall (λ _ v, v ≠ Some p) (servers n)))).
  - intros s Hs. unfold server_at in Hs. destruct (servers n !! s) as [v|] eqn:Hv; [|done]. by apply (m s v Hv).
  - intros Hno. apply n0. intros s v Hv ->. apply (Hno s). unfold server_at. by rewrite Hv.
Defined.

(** ** The theorems *)

(** C27 A call runs its handler at most once, and [Call] returns true only with
    the reply of that one run: the server it was dispatched to, on some state
    of the objects, answered these bytes. *)
Theorem call_at_most_once {App} (a : App) w id c : rpc_reachable a w → w_calls w !! id = Some c →
  (length (runs_of id w) ≤ 1)%nat ∧
  ∀ r, c_result c = Some r → rp_ok r = true → ∃ name p b rs rs' b',
    c_server c = Some (name, p) ∧ runs_of id w = [(id, p, b)] ∧ dispatch (c_req c) rs b = Some (rs', b', r).
Proof.
  intros Hr Hc. destruct (rpc_reachable_inv a w Hr) as [H1 _]. destruct (H1 id c Hc) as [K1 K2 _ K3]. split.
  - rewrite K1. destruct (c_ran c); lia.
  - intros r Hres Hok. destruct (K2 r (K3 r Hres Hok)) as (name & p & b & rs & rs' & b' & ? & ? & ?). by eexists _, _, _, _, _, _.
Qed.

Lemma call_at_most_once_witness : ∃ w c, rpc_run (demo_setup ++ [Run 0; Reply 0 false false]) (rpc_init 0) = Some w ∧
  w_calls w !! 0%nat = Some c ∧ c_result c = Some (mkReply true [x01; x02]) ∧ w_app w = 2 ∧
  (length (runs_of 0 w) ≤ 1)%nat.
Proof.
  destruct (rpc_run (demo_setup ++ [Run 0; Reply 0 false false]) (rpc_init 0)) as [w|] eqn:Hw; [|vm_compute in Hw; discriminate].
  destruct (w_calls w !! 0%nat) as [c|] eqn:Hc; [|vm_compute in Hw; injection Hw as <-; vm_compute in Hc; discriminate].
  exists w, c. split; [done|]. split; [done|].
  split; [vm_compute in Hw; injection Hw as <-; vm_compute in Hc; injection Hc as <-; reflexivity|].
  split; [vm_compute in Hw; injection Hw as <-; reflexivity|].
  apply (call_at_most_once 0 w 0 c); [|exact Hc]. eapply rpc_run_reachable; [apply rr_init|exact Hw].
Defined.

(** A deleted server does not answer: once no name leads to a server, a call
    that was dispatched to it, has no answer yet and has no delayed answer on a
    timer never returns true, whatever happens afterwards, as long as that server
    is not added again. *)
Theorem deleted_server_silent {App} (w : rpc_world App) ls w' id c name p c' :
  w_calls w !! id = Some c → c_server c = Some (name, p) → c_late c = None → c_result c = None →
  (∀ s, server_at s (w_net w) ≠ Some p) → forallb (λ l, negb (adds p l)) ls = true →
  rpc_run ls w = Some w' → w_calls w' !! id = Some c' → ∀ r, c_result c' = Some r → rp_ok r = false.
Proof.
  intros Hc Hs Hlt Hr Hn Hls Hrun Hc' r Hres.
  destruct (silent_run p id ls w w') as [_ (x & nm & Hx & _ & _ & Hok)]; [|done..|].
  - split; [done|]. exists c, name. split; [done|]. split; [done|]. split; [done|]. congruence.
  - rewrite Hc' in Hx. injection Hx as <-. by apply Hok.
Qed.

Lemma deleted_server_silent_witness : ∃ w w' c', 
  rpc_run (demo_setup ++ [Net (OpDeleteServer "srv")]) (rpc_init 0) = Some w ∧
  rpc_run [Run 0; Reply 0 false false] w = Some w' ∧ w_calls w' !! 0%nat = Some c' ∧
  ∀ r, c_result c' = Some r → rp_ok r = false.
Proof.
  destruct (rpc_run (demo_setup ++ [Net (OpDeleteServer "srv")]) (rpc_init 0)) as [w|] eqn:Hw; [|vm_compute in Hw; discriminate].
  destruct (rpc_run [Run 0; Reply 0 false false] w) as [w'|] eqn:Hw';
    [|vm_compute in Hw; injection Hw as <-; vm_compute in Hw'; discriminate].
  destruct (w_calls w !! 0%nat) as [c|] eqn:Hc; [|vm_compute in Hw; injection Hw as <-; vm_compute in Hc; discriminate].
  destruct (w_calls w' !! 0%nat) as [c'|] eqn:Hc';
    [|vm_compute in Hw; injection Hw as <-; vm_compute in Hw'; injection Hw' as <-; vm_compute in Hc'; discriminate].
  exists w, w', c'. split; [done|]. split; [done|]. split; [done|].
  apply (deleted_server_silent w [Run 0; Reply 0 false false] w' 0 c "srv" 1%positive c' Hc); [| | | |reflexivity|exact Hw'|exact Hc'].
  - vm_compute in Hw. injection Hw as <-. vm_compute in Hc. injection Hc as <-. reflexivity.
  - vm_compute in Hw. injection Hw as <-. vm_compute in Hc. injection Hc as <-. reflexivity.
  - vm_compute in Hw. injection Hw as <-. vm_compute in Hc. injection Hc as <-. reflexivity.
  - apply (bool_decide_eq_true_1 (∀ s, server_at s (w_net w) ≠ Some 1%positive)). vm_compute in Hw. injection Hw as <-. by vm_compute.
Defined.

Definition late_schedule : list (label Z) :=
  Net (OpLongReordering true) :: demo_setup ++ [Run 0; Reply 0 false true; Net (OpDeleteServer "srv"); Late 0].

(** A delayed answer is not taken back: with long reordering a call returns true
    after its server was deleted, with the reply of a run before. *)
Lemma late_reply_after_delete : ∃ w c, rpc_run late_schedule (rpc_init 0) = Some w ∧
  server_at "srv" (w_net w) = None ∧ w_calls w !! 0%nat = Some c ∧ c_result c = Some (mkReply true [x01; x02]).
Proof.
  destruct (rpc_run late_schedule (rpc_init 0)) as [w|] eqn:Hw; [|vm_compute in Hw; discriminate].
  destruct (w_calls w !! 0%nat) as [c|] eqn:Hc; vm_compute in Hw; injection Hw as <-; vm_compute in Hc; [|discriminate].
  injection Hc as <-. by eexists _, _.
Qed.

(** Requests are routed by name: a server with the service [name] made of
    [methods] answers a request for [name.m], where [m] is the name of a
    suitable method, with that method, and counts it. *)
Theorem dispatch_routes {App} name (methods : list (Method App)) m rs req (a : App) :
  NoDup (md_name <$> methods) → m ∈ methods → suitable m = true → split_last_dot (md_name m) = None →
  rq_svcMeth req = (name ++ String "." (md_name m))%string →
  ∃ rs', dispatch req (AddService (MakeService name methods) rs) a =
      Some (rs', (md_func m (rq_args req) a).1, mkReply true (md_func m (rq_args req) a).2) ∧
    GetCount rs' = wrap64 (GetCount rs + 1).
Proof.
  intros Hnd Hin Hs Hdot Hreq. unfold dispatch. rewrite Hreq, split_last_dot_app by done. simpl.
  rewrite lookup_insert_eq. cbn [mbind option_bind]. unfold svc_dispatch.
  rewrite (MakeService_lookup name methods m) by done. simpl.
  destruct (md_func m (rq_args req) a) as [a' b]. simpl. by eexists.
Qed.

Lemma dispatch_routes_witness : ∃ rs', dispatch demo_req demo_server 5 = Some (rs', 7, mkReply true [x01; x02]).
Proof.
  destruct (dispatch_routes "Counter" [demo_method] demo_method MakeServer demo_req 5) as (rs' & Hd & _).
  - apply NoDup_singleton.
  - left.
  - reflexivity.
  - reflexivity.
  - reflexivity.
  - exists rs'. exact Hd.
Defined.

(** The statistics count the requests the network has taken, in an [int32]
    that wraps around. *)
Theorem total_count_wraps {App} (a : App) ls w : rpc_run ls (rpc_init a) = Some w →
  GetTotalCount (w_net w) = wrap32 (len (filter is_accept ls)).
Proof. intros Hr. unfold GetTotalCount. by rewrite (rpc_run_count ls (rpc_init a) w Hr). Qed.

Lemma total_count_wraps_witness : ∃ w, rpc_run demo_setup (rpc_init 0) = Some w ∧ GetTotalCount (w_net w) = 1.
Proof.
  destruct (rpc_run demo_setup (rpc_init 0)) as [w|] eqn:Hw; [|vm_compute in Hw; discriminate].
  exists w. split; [done|]. rewrite (total_count_wraps 0 demo_setup w Hw). reflexivity.
Defined.
