(* ===== verification/Future.v ===== *)
(** * Futures: a1-futures/future.go

    A [Future] is a channel with one slot.  [Wait] is a state machine: one
    goroutine per future, a mutex, a counter and two channels, and the [select]
    of the caller; the scheduler and the timer pick the next step.  The filter
    of [Wait] is a total function here: a filter that panics ends the process. *)
From Stdlib Require Import Strings.String Floats.SpecFloat.
From S2P Require Import Prelude.

(** ** A future *)
Inductive chan_result (A : Type) := Returns (a : A) | Blocks | Panics.
Arguments Returns {A} _.
Arguments Blocks {A}.
Arguments Panics {A}.

Section futures.
Context {V : Type}.

(** [interface{}]: [None] is nil. *)
Abbreviation any := (option V).

(** The channel: its slot, and whether it is closed. *)
Record Future := mkFuture { f_slot : option any; f_closed : bool }.

Definition NewFuture : Future := mkFuture None false.

Definition CloseFuture (f : Future) : chan_result Future :=
  if f_closed f then Panics else Returns (mkFuture (f_slot f) true).

Definition CompleteFuture (res : any) (f : Future) : chan_result Future :=
  if f_closed f then Panics
  else match f_slot f with
       | Some _ => Blocks
       | None => CloseFuture (mkFuture (Some res) (f_closed f))
       end.

(** Receiving from a closed and empty channel gives nil. *)
Definition GetResult (f : Future) : chan_result (any * Future) :=
  match f_slot f with
  | Some v => Returns (v, mkFuture None (f_closed f))
  | None => if f_closed f then Returns (None, f) else Blocks
  end.

(** ** [Wait]

    A goroutine: before [GetResult]; before the filter; before the send on
    [doneValues]; before the lock; with the lock, before the counter; with the
    lock, sending on [doneN]; with the lock, before the unlock; at its end, with
    the value it sent, if any. *)
Inductive goroutine :=
  | GGet | GFilter (v : any) | GPush (v : any) | GLock (v : any) | GCount (v : any)
  | GSend (v : any) | GUnlock (v : any) | GExit (v : option any).

Inductive caller := Waiting | Returned (l : list any).

(** [store] holds the futures, which other goroutines complete; [mu] is the
    goroutine that holds the mutex. *)
Record wait := mkWait {
  store : list Future;
  gs : list goroutine;
  doneValues : list any;
  doneCount : Z;
  mu : option nat;
  main : caller;
}.

(** The arguments of [Wait]: the futures by pointer, [n] and the filter. *)
Context (ptrs : list nat) (n : Z) (post : option (any → bool)).

Definition Wait_start (st : list Future) : wait := mkWait st (replicate (length ptrs) GGet) [] 0 None Waiting.

Definition accepts (v : any) : bool := match post with None => true | Some f => f v end.

(** [chanToSlice(doneValues, n)]: what it takes and what it leaves. *)
Definition chanToSlice (vs : list any) : list any * list any :=
  let l := Z.to_nat (Z.min n (len vs)) in (take l vs, drop l vs).

Definition set_g (i : nat) (g : goroutine) (s : wait) : wait :=
  mkWait (store s) (<[i := g]> (gs s)) (doneValues s) (doneCount s) (mu s) (main s).
Definition set_mu (m : option nat) (s : wait) : wait :=
  mkWait (store s) (gs s) (doneValues s) (doneCount s) m (main s).

Definition return_ (s : wait) : wait :=
  mkWait (store s) (gs s) (chanToSlice (doneValues s)).2 (doneCount s) (mu s) (Returned (chanToSlice (doneValues s)).1).

Inductive event := Complete (p : nat) (v : any) | Close (p : nat) | Go (i : nat) | Recv (i : nat) | Timeout.

(** The next step of goroutine [i], where it does not block. *)
Definition go_step (i : nat) (s : wait) : option wait :=
  g ← gs s !! i;
  match g with
  | GGet =>
      p ← ptrs !! i;
      f ← store s !! p;
      match GetResult f with
      | Returns (v, f) =>
          Some (set_g i (GFilter v) (mkWait (<[p := f]> (store s)) (gs s) (doneValues s) (doneCount s) (mu s) (main s)))
      | _ => None
      end
  | GFilter v => Some (set_g i (if accepts v then GPush v else GExit None) s)
  | GPush v =>
      Some (set_g i (GLock v) (mkWait (store s) (gs s) (doneValues s ++ [v]) (doneCount s) (mu s) (main s)))
  | GLock v => match mu s with None => Some (set_g i (GCount v) (set_mu (Some i) s)) | Some _ => None end
  | GCount v =>
      let c := wrap64 (doneCount s + 1) in
      Some (set_g i (if decide (c >= n) then GSend v else GUnlock v)
              (mkWait (store s) (gs s) (doneValues s) c (mu s) (main s)))
  | GSend _ => None
  | GUnlock v => Some (set_g i (GExit (Some v)) (set_mu None s))
  | GExit _ => None
  end.

(** One event: a future is completed, or closed without a result, by its own
    goroutine; a goroutine of [Wait] goes on; it hands [true] to the caller; the
    caller's timer fires. *)
Definition wait_step (e : event) (s : wait) : option wait :=
  match e with
  | Complete p v =>
      f ← store s !! p;
      match CompleteFuture v f with
      | Returns f => Some (mkWait (<[p := f]> (store s)) (gs s) (doneValues s) (doneCount s) (mu s) (main s))
      | _ => None
      end
  | Close p =>
      f ← store s !! p;
      match CloseFuture f with
      | Returns f => Some (mkWait (<[p := f]> (store s)) (gs s) (doneValues s) (doneCount s) (mu s) (main s))
      | _ => None
      end
  | Go i => go_step i s
  | Recv i =>
      match main s, gs s !! i with
      | Waiting, Some (GSend v) => Some (set_g i (GUnlock v) (return_ s))
      | _, _ => None
      end
  | Timeout => match main s with Waiting => Some (return_ s) | Returned _ => None end
  end.

Fixpoint wait_run (es : list event) (s : wait) : option wait :=
  match es with
  | [] => Some s
  | e :: es => s ← wait_step e s; wait_run es s
  end.

Inductive wait_reachable (st : list Future) : wait → Prop :=
  | wt_init : wait_reachable st (Wait_start st)
  | wt_step s e s' : wait_reachable st s → wait_step e s = Some s' → wait_reachable st s'.
End futures.
Arguments Future : clear implicits.
Arguments wait : clear implicits.
Arguments event : clear implicits.
Arguments goroutine : clear implicits.

(** ** Weather data *)

(** [WeatherDataResult] with a [float64] value. *)
Record WeatherDataResult := mkWeather { wd_Value : spec_float; wd_Err : option string }.

(** 35 as a [float64]. *)
Definition float35 : spec_float := S754_finite false (35 * 2 ^ 47)%positive (-47).

(** [None] when the type assertion panics, on the nil of a future that was
    closed without a result. *)
Definition heatWaveWarning (res : option WeatherDataResult) : option bool :=
  res ← res;
  match wd_Err res with
  | Some _ => Some false
  | None => Some (SFltb float35 (wd_Value res))
  end.

(** The goroutine of [GetWeatherData]: [get] is what the request and the reading
    of its body give, [unmarshal] what encoding/json makes of the body (the value
    it leaves in [temp], and its error). *)
Definition GetWeatherData (get : list Byte.byte + string) (unmarshal : list Byte.byte → spec_float * option string)
    (f : Future WeatherDataResult) : chan_result (Future WeatherDataResult) :=
  let '(temp, err) := match get with
                      | inl body => unmarshal body
                      | inr err => (S754_zero false, Some err)
                      end in
  CompleteFuture (Some (mkWeather temp err)) f.
