(* ===== verification/FutureThms.v ===== *)
(** * Futures: the theorems

    What [Wait] returns, that it returns once enough futures are done, and the
    goroutines it leaves behind. *)
From S2P Require Import Prelude Future.

(** ** Lists of goroutines *)
Section lists.
Context {A B : Type} (f : A → option B).
Implicit Types l : list A.

(** Replacing one element changes [omap] by what it contributes. *)
Lemma omap_insert_same l i x y : l !! i = Some x → f y = f x → omap f (<[i := y]> l) = omap f l.
Proof.
  revert i. induction l as [|z l IH]; intros [|i]; csimpl; [done..| |].
  - intros [= ->] ->. done.
  - intros Hi Hf. by rewrite IH.
Qed.

Lemma omap_insert_new l i x y v : l !! i = Some x → f x = None → f y = Some v →
  omap f (<[i := y]> l) ≡ₚ v :: omap f l.
Proof.
  revert i. induction l as [|z l IH]; intros [|i]; csimpl; [done..| |].
  - intros [= ->] -> ->. done.
  - intros Hi Hx Hy. destruct (f z); rewrite (IH i) by done; [apply Permutation_swap|done].
Qed.

(** The elements that contribute, by their positions. *)
Lemma omap_positions l : ∃ ks, NoDup ks ∧ Forall2 (λ i v, l !! i ≫= f = Some v) ks (omap f l) ∧
  ∀ i, is_Some (l !! i ≫= f) → i ∈ ks.
Proof.
  induction l as [|x l (ks & Hnd & Hall & Hin)].
  { exists []. split_and!; [constructor..|]. by intros i [? ?]. }
  assert (Forall2 (λ i v, (x :: l) !! i ≫= f = Some v) (S <$> ks) (omap f l)) by by apply Forall2_fmap_l.
  assert (NoDup (S <$> ks)) by (apply NoDup_fmap_2; [intros ??; lia|done]).
  assert (∀ i, is_Some (l !! i ≫= f) → S i ∈ S <$> ks) by (intros i Hi; by apply list_elem_of_fmap_2, Hin).
  simpl. destruct (f x) as [v|] eqn:Hx.
  - exists (0%nat :: (S <$> ks)). split_and!; [constructor; [|done]|by constructor|].
    + intros (k & Hk & _)%list_elem_of_fmap. discriminate.
    + intros [|i] Hi; [left|right]. by apply H1.
  - exists (S <$> ks). split_and!; [done..|]. intros [|i]; simpl; [rewrite Hx; by intros [? ?]|by apply H1].
Qed.

Lemma omap_count l ks : NoDup ks → (∀ i, i ∈ ks → is_Some (l !! i ≫= f)) → (length ks ≤ length (omap f l))%nat.
Proof.
  intros Hnd Hall. destruct (omap_positions l) as (js & Hj & Hjs & Hin).
  rewrite <-(Forall2_length _ _ _ Hjs). apply submseteq_length, NoDup_submseteq; [done|]. intros i Hi. by apply Hin, Hall.
Qed.
End lists.

Lemma omap_length_le {A B C} (f : A → option B) (g : A → option C) l :
  (∀ x, is_Some (f x) → is_Some (g x)) → (length (omap f l) ≤ length (omap g l))%nat.
Proof.
  intros Hfg. induction l as [|x l IH]; csimpl; [done|]. specialize (Hfg x).
  destruct (f x) as [b|], (g x); simpl; try lia. exfalso. by destruct (Hfg (mk_is_Some _ _ eq_refl)).
Qed.

Lemma omap_length_bound {A B} (f : A → option B) l : (length (omap f l) ≤ length l)%nat.
Proof. induction l as [|x l IH]; csimpl; [done|]. destruct (f x); simpl; lia. Qed.

Lemma sum_insert {A} (f : A → nat) l i x y : l !! i = Some x →
  (sum_list_with f (<[i := y]> l) + f x = sum_list_with f l + f y)%nat.
Proof.
  revert i. induction l as [|z l IH]; intros [|i]; simpl; [done..| |]; [intros [= ->]; lia|].
  intros Hi. specialize (IH i Hi). lia.
Qed.

(** ** The invariant of [Wait] *)
Section wait.
Context {V : Type} (ptrs : list nat) (n : Z) (post : option (option V → bool)).
Implicit Types s : wait V.
Abbreviation any := (option V).
Abbreviation step := (wait_step ptrs n post).
Abbreviation run := (wait_run ptrs n post).

(** The value a goroutine has got; has sent on [doneValues]; has counted. *)
Definition got (g : goroutine V) : option any :=
  match g with
  | GGet => None
  | GFilter v | GPush v | GLock v | GCount v | GSend v | GUnlock v => Some v
  | GExit o => o
  end.
Definition pushed (g : goroutine V) : option any :=
  match g with GLock v | GCount v | GSend v | GUnlock v => Some v | GExit o => o | _ => None end.
Lemma pushed_got g v : pushed g = Some v → got g = Some v.
Proof. by destruct g. Qed.
Definition counted (g : goroutine V) : option any :=
  match g with GSend v | GUnlock v => Some v | GExit o => o | _ => None end.
Definition critical (g : goroutine V) : bool :=
  match g with GCount _ | GSend _ | GUnlock _ => true | _ => false end.
Definition sending (g : goroutine V) : bool := match g with GSend _ => true | _ => false end.

Definition result s : list any := match main s with Waiting => [] | Returned l => l end.
Definition waiting s : bool := match main s with Waiting => true | Returned _ => false end.

Record wait_inv s : Prop := {
  wi_gs : length (gs s) = length ptrs;
  wi_values : result s ++ doneValues s ≡ₚ omap pushed (gs s);
  wi_count : doneCount s = len (omap counted (gs s));
  wi_mu i : mu s = Some i ↔ ∃ g, gs s !! i = Some g ∧ critical g = true;
  wi_accepts i v : gs s !! i ≫= pushed = Some v ∨ gs s !! i = Some (GPush v) → accepts post v = true;
  wi_send i v : gs s !! i = Some (GSend v) → n <= doneCount s;
  wi_waiting : main s = Waiting → 1 <= n → n <= doneCount s → ∃ i v, gs s !! i = Some (GSend v);
}.

(** A goroutine moves on: what has to be shown of the move. *)
Lemma inv_move s i g g' st dv c m : wait_inv s → gs s !! i = Some g → (sending g = true → waiting s = false) →
  result s ++ dv ≡ₚ omap pushed (<[i := g']> (gs s)) →
  c = len (omap counted (<[i := g']> (gs s))) → doneCount s <= c →
  (∀ j, m = Some j ↔ if decide (j = i) then critical g' = true else mu s = Some j) →
  (∀ v, pushed g' = Some v ∨ g' = GPush v → accepts post v = true) →
  (∀ v, g' = GSend v → n <= c) →
  (waiting s = true → 1 <= n → n <= c → doneCount s < n → ∃ v, g' = GSend v) →
  wait_inv (mkWait st (<[i := g']> (gs s)) dv c m (main s)).
Proof.
  intros [I1 I2 I3 I4 I5 I6 I7] Hi Hsend Hdv Hc Hle Hm Hacc Hs Hw.
  assert (∀ j, <[i := g']> (gs s) !! j = if decide (j = i) then Some g' else gs s !! j) as Hlook.
  { intros j. destruct (decide (j = i)) as [->|]; [apply list_lookup_insert_eq; by eapply lookup_lt_Some|].
    by apply list_lookup_insert_ne. }
  split; cbn [gs main doneValues doneCount mu]; [by rewrite length_insert|exact Hdv|done|..].
  - intros j. rewrite Hm, Hlook. destruct (decide (j = i)); [|apply I4]. naive_solver.
  - intros j v. rewrite Hlook. destruct (decide (j = i)); [|apply I5]. intros [[=Hx]|[= ->]]; auto.
  - intros j v. rewrite Hlook. destruct (decide (j = i)); [intros [= ->]; by eapply Hs|]. intros Hj.
    specialize (I6 j v Hj). lia.
  - intros Hmain Hn Hnc. unfold waiting in *. rewrite Hmain in *. destruct (decide (n <= doneCount s)) as [Hd|Hd].
    + destruct (I7 eq_refl Hn Hd) as (j & v & Hj). exists j, v. rewrite Hlook.
      destruct (decide (j = i)) as [->|]; [|done]. rewrite Hi in Hj. injection Hj as ->. by specialize (Hsend eq_refl).
    + destruct Hw as [v ->]; [done..|lia|]. exists i, v. rewrite Hlook. by rewrite decide_True.
Qed.

(** Where the goroutine does not touch the mutex. *)
Lemma mu_same s i g g' : wait_inv s → gs s !! i = Some g → critical g' = critical g →
  ∀ j, mu s = Some j ↔ if decide (j = i) then critical g' = true else mu s = Some j.
Proof.
  intros I Hi Hcr j. destruct (decide (j = i)) as [->|]; [|done]. rewrite (wi_mu s I i), Hi, Hcr. naive_solver.
Qed.

Lemma return_inv s : wait_inv s → waiting s = true → wait_inv (return_ n s).
Proof.
  intros [I1 I2 I3 I4 I5 I6 I7] Hw. unfold result, waiting in *. destruct (main s) eqn:Hm; [|done].
  split; try done. unfold result. cbn. by rewrite take_drop.
Qed.

Lemma start_inv st : wait_inv (Wait_start ptrs st).
Proof.
  assert (∀ i g, replicate (length ptrs) (@GGet V) !! i = Some g → g = GGet) as Hg.
  { intros i g [? _]%lookup_replicate. done. }
  assert (∀ f : goroutine V → option any, f GGet = None → omap f (replicate (length ptrs) GGet) = []) as Ho.
  { intros f Hf. clear Hg. induction (length ptrs) as [|k IH]; csimpl; [done|]. by rewrite Hf. }
  split; cbn [Wait_start gs main doneValues doneCount mu].
  - by rewrite length_replicate.
  - by rewrite Ho.
  - by rewrite Ho.
  - intros i. split; [done|]. intros (g & ->%Hg & Hc). done.
  - intros i v. destruct (_ !! i) as [g|] eqn:Hi; [apply Hg in Hi as ->|]; intros [|]; done.
  - intros i v Hi%Hg. done.
  - lia.
Qed.
Lemma store_inv s st : wait_inv s → wait_inv (mkWait st (gs s) (doneValues s) (doneCount s) (mu s) (main s)).
Proof. intros [I1 I2 I3 I4 I5 I6 I7]. by split. Qed.

(** Goroutine [i] moves from [g] to [g'], which has sent and counted what [g] had. *)
Lemma inv_quiet s i g g' st : wait_inv s → gs s !! i = Some g → sending g = false →
  pushed g' = pushed g → counted g' = counted g → critical g' = critical g →
  (∀ v, pushed g' = Some v ∨ g' = GPush v → accepts post v = true) → sending g' = false →
  wait_inv (set_g i g' (mkWait st (gs s) (doneValues s) (doneCount s) (mu s) (main s))).
Proof.
  intros I Hi Hs Hp Hc Hcr Hacc Hs'. apply (inv_move s i g g'); try done.
  - congruence.
  - rewrite (omap_insert_same pushed (gs s) i g g') by done. apply I.
  - rewrite (omap_insert_same counted (gs s) i g g') by done. apply I.
  - by apply (mu_same s i g).
  - by intros v ->.
  - simpl. lia.
Qed.

Lemma pushed_accepts s i g v : wait_inv s → gs s !! i = Some g → pushed g = Some v → accepts post v = true.
Proof. intros I Hi Hp. apply (wi_accepts s I i). left. by rewrite Hi. Qed.

(** A goroutine counts its value. *)
Lemma count_inv s i v : wait_inv s → len ptrs < 2 ^ 63 → gs s !! i = Some (GCount v) →
  wait_inv (set_g i (if decide (wrap64 (doneCount s + 1) >= n) then GSend v else GUnlock v)
    (mkWait (store s) (gs s) (doneValues s) (wrap64 (doneCount s + 1)) (mu s) (main s))).
Proof.
  intros I Hlen Hi. pose proof (pushed_accepts s i (GCount v)) as Hpa.
  set (g' := if decide (wrap64 (doneCount s + 1) >= n) then GSend v else GUnlock v).
  assert (pushed g' = Some v ∧ counted g' = Some v ∧ critical g' = true) as (Hp & Hc & Hcr) by (unfold g'; by case_decide).
  pose proof (Permutation_length (omap_insert_new counted (gs s) i (GCount v) g' v Hi eq_refl Hc)) as Hl. simpl in Hl.
  pose proof (omap_length_bound counted (<[i := g']> (gs s))) as Hb. rewrite length_insert, (wi_gs s I) in Hb.
  pose proof (wi_count s I) as Hcount.
  assert (wrap64 (doneCount s + 1) = doneCount s + 1) as Hwrap by (apply wrap64_id; unfold in64; lia).
  apply (inv_move s i (GCount v) g'); try done.
  - rewrite (omap_insert_same pushed (gs s) i (GCount v)) by done. apply I.
  - cbn [gs doneCount]. fold g'. rewrite Hwrap. lia.
  - simpl. rewrite Hwrap. lia.
  - by apply (mu_same s i (GCount v)).
  - intros v' [Hv'|Hv']; [|unfold g' in Hv'; by case_decide]. rewrite Hp in Hv'. injection Hv' as <-. by apply Hpa.
  - intros v' Hv'. unfold g' in Hv'. simpl. case_decide; [lia|done].
  - simpl. intros _ _ Hn _. exists v. unfold g'. by rewrite decide_True by lia.
Qed.

Lemma go_step_inv s i s' : wait_inv s → len ptrs < 2 ^ 63 → go_step ptrs n post i s = Some s' → wait_inv s'.
Proof.
  intros I Hlen. unfold go_step. intros (g & Hi & Hx)%bind_Some. pose proof (pushed_accepts s i g) as Hpa.
  destruct g as [|v|v|v|v|v|v|o].
  - apply bind_Some in Hx as (p & _ & (f & _ & Hx)%bind_Some). destruct (GetResult f) as [[v f']| |]; [|done..].
    injection Hx as <-. eapply inv_quiet; try done. by intros ? [|].
  - injection Hx as <-. apply (inv_quiet s i (GFilter v) _ (store s)); try done; try by destruct (accepts post v).
    intros v' Hv'. destruct (accepts post v) eqn:Hacc; destruct Hv'; naive_solver.
  - injection Hx as <-. apply (inv_move s i (GPush v) (GLock v)); try done.
    + rewrite (omap_insert_new pushed (gs s) i (GPush v) (GLock v) v) by done.
      rewrite <-(wi_values s I). cbn [doneValues]. rewrite (assoc_L (++)). symmetry. apply Permutation_cons_append.
    + rewrite (omap_insert_same counted (gs s) i (GPush v)) by done. apply I.
    + by apply (mu_same s i (GPush v)).
    + intros v' [[= <-]|]; [|done]. apply (wi_accepts s I i). by right.
    + simpl. lia.
  - destruct (mu s) as [k|] eqn:Hmu; [done|]. injection Hx as <-.
    apply (inv_move s i (GLock v) (GCount v)); try done.
    + rewrite (omap_insert_same pushed (gs s) i (GLock v)) by done. apply I.
    + rewrite (omap_insert_same counted (gs s) i (GLock v)) by done. apply I.
    + intros j. rewrite Hmu. destruct (decide (j = i)) as [->|]; naive_solver.
    + intros v' [[= <-]|]; [|done]. by apply Hpa.
    + simpl. lia.
  - injection Hx as <-. by apply count_inv.
  - done.
  - injection Hx as <-. apply (inv_move s i (GUnlock v) (GExit (Some v))); try done.
    + rewrite (omap_insert_same pushed (gs s) i (GUnlock v)) by done. apply I.
    + rewrite (omap_insert_same counted (gs s) i (GUnlock v)) by done. apply I.
    + intros j. destruct (decide (j = i)) as [->|Hne]; [done|]. split; [done|]. intros Hj.
      assert (mu s = Some i) as Hmi by (apply (wi_mu s I); by eexists). congruence.
    + intros v' [[= <-]|]; [|done]. by apply Hpa.
    + simpl. lia.
  - done.
Qed.

Lemma step_inv s e s' : wait_inv s → len ptrs < 2 ^ 63 → step e s = Some s' → wait_inv s'.
Proof.
  intros I Hlen. destruct e as [p v|p|i|i|]; simpl.
  - intros (f & _ & Hx)%bind_Some. destruct (CompleteFuture v f); [|done..]. injection Hx as <-. by apply store_inv.
  - intros (f & _ & Hx)%bind_Some. destruct (CloseFuture f); [|done..]. injection Hx as <-. by apply store_inv.
  - by apply go_step_inv.
  - destruct (main s) eqn:Hm; [|done]. destruct (gs s !! i) as [[]|] eqn:Hi; try done. intros [= <-].
    assert (wait_inv (return_ n s)) as I' by (apply return_inv; [done|]; unfold waiting; by rewrite Hm).
    apply (inv_move (return_ n s) i (GSend v) (GUnlock v)); try done.
    + rewrite (omap_insert_same pushed _ i (GSend v)) by done. apply I'.
    + rewrite (omap_insert_same counted _ i (GSend v)) by done. apply I'.
    + by apply (mu_same _ i (GSend v)).
    + intros v' [[= <-]|]; [|done]. by eapply (pushed_accepts s i).
  - destruct (main s) eqn:Hm; [|done]. intros [= <-]. apply return_inv; [done|]. unfold waiting. by rewrite Hm.
Qed.

Lemma reachable_inv st s : len ptrs < 2 ^ 63 → wait_reachable ptrs n post st s → wait_inv s.
Proof. intros Hlen. induction 1; [apply start_inv|by eapply step_inv]. Qed.

(** ** Where the values come from *)

(** Future [p] never had a result and is closed: before the start, or by an event. *)
Definition unanswered (st : list (Future V)) (es : list (event V)) (p : nat) : Prop :=
  ∃ f, st !! p = Some f ∧ f_slot f = None ∧ (f_closed f = true ∨ Close p ∈ es).

(** The result [v] was given to future [p], before the start or by an event; or
    it is the nil of a future that was closed without a result. *)
Definition given (st : list (Future V)) (es : list (event V)) (p : nat) (v : any) : Prop :=
  (∃ f, st !! p = Some f ∧ f_slot f = Some v) ∨ Complete p v ∈ es ∨ v = None ∧ unanswered st es p.

Record origin (st : list (Future V)) (es : list (event V)) s : Prop := {
  or_gs : length (gs s) = length ptrs;
  or_slot p f v : store s !! p = Some f → f_slot f = Some v → given st es p v;
  or_got i p v : ptrs !! i = Some p → gs s !! i ≫= got = Some v → given st es p v;
  or_taken p f : store s !! p = Some f → f_slot f = None →
    (∃ i g, ptrs !! i = Some p ∧ gs s !! i = Some g ∧ g ≠ GGet) ∨
    (∃ f0, st !! p = Some f0 ∧ f_slot f0 = None ∧ (f_closed f = true → f_closed f0 = true ∨ Close p ∈ es));
}.

Lemma given_snoc st es e p v : given st es p v → given st (es ++ [e]) p v.
Proof.
  intros [?|[?|[-> (f & ? & ? & Hc)]]]; [by left|right; left; apply elem_of_app; by left|].
  right. right. split; [done|]. exists f. split_and!; [done..|]. rewrite elem_of_app. naive_solver.
Qed.

(** A goroutine moves on with the value it has. *)
Lemma origin_move st es e s i g g' dv c m mn : origin st es s → gs s !! i = Some g → g ≠ GGet →
  (got g' = got g ∨ got g' = None) → g' ≠ GGet → origin st (es ++ [e]) (mkWait (store s) (<[i := g']> (gs s)) dv c m mn).
Proof.
  intros [O1 O2 O3 O4] Hi Hg Hgot Hg'. split; cbn [store gs].
  - by rewrite length_insert.
  - intros. eapply given_snoc, O2; done.
  - intros j p v Hp Hv. apply given_snoc. destruct (decide (j = i)) as [->|].
    + rewrite list_lookup_insert_eq in Hv by (by eapply lookup_lt_Some). apply (O3 i); [done|]. rewrite Hi. simpl in *.
      destruct Hgot as [<-|He]; [done|congruence].
    + rewrite list_lookup_insert_ne in Hv by done. by eapply O3.
  - intros p f Hp Hsl. destruct (O4 p f Hp Hsl) as [(j & x & Hj & Hx & Hne)|(f0 & ? & ? & ?)].
    2: { right. exists f0. rewrite elem_of_app. naive_solver. }
    left. exists j. destruct (decide (j = i)) as [->|].
    + exists g'. by rewrite list_lookup_insert_eq by (by eapply lookup_lt_Some).
    + exists x. by rewrite list_lookup_insert_ne.
Qed.

(** A future is completed. *)
Lemma origin_complete st es s p v f : origin st es s → store s !! p = Some f → 
  origin st (es ++ [Complete p v]) (mkWait (<[p := mkFuture (Some v) true]> (store s)) (gs s) (doneValues s) (doneCount s) (mu s) (main s)).
Proof.
  intros [O1 O2 O3 O4] Hf.
  assert (<[p := mkFuture (Some v) true]> (store s) !! p = Some (mkFuture (Some v) true)) as Hlk
    by (apply list_lookup_insert_eq; by eapply lookup_lt_Some).
  split; cbn [store gs]; [done|..].
  - intros q f' v' Hq Hv'. destruct (decide (q = p)) as [->|].
    + rewrite Hlk in Hq. injection Hq as <-. right. left. apply elem_of_app. right. injection Hv' as ->. left.
    + rewrite list_lookup_insert_ne in Hq by done. eapply given_snoc, O2; done.
  - intros. eapply given_snoc, O3; done.
  - intros q f' Hq. destruct (decide (q = p)) as [->|].
    + rewrite Hlk in Hq. by injection Hq as <-.
    + rewrite list_lookup_insert_ne in Hq by done. intros Hsl.
      destruct (O4 q f' Hq Hsl) as [?|(f0 & ? & ? & ?)]; [by left|right]. exists f0. rewrite elem_of_app. naive_solver.
Qed.

(** A future is closed. *)
Lemma origin_close st es s p f : origin st es s → store s !! p = Some f →
  origin st (es ++ [Close p]) (mkWait (<[p := mkFuture (f_slot f) true]> (store s)) (gs s) (doneValues s) (doneCount s) (mu s) (main s)).
Proof.
  intros [O1 O2 O3 O4] Hf.
  assert (<[p := mkFuture (f_slot f) true]> (store s) !! p = Some (mkFuture (f_slot f) true)) as Hlk
    by (apply list_lookup_insert_eq; by eapply lookup_lt_Some).
  split; cbn [store gs]; [done|..].
  - intros q f' v' Hq Hv'. apply given_snoc. destruct (decide (q = p)) as [->|].
    + rewrite Hlk in Hq. injection Hq as <-. by eapply O2.
    + rewrite list_lookup_insert_ne in Hq by done. by eapply O2.
  - intros. eapply given_snoc, O3; done.
  - intros q f' Hq Hsl. destruct (decide (q = p)) as [->|].
    + rewrite Hlk in Hq. injection Hq as <-. destruct (O4 p f Hf Hsl) as [?|(f0 & ? & ? & _)]; [by left|right].
      exists f0. split_and!; [done..|]. intros _. right. apply elem_of_app. right. left.
    + rewrite list_lookup_insert_ne in Hq by done.
      destruct (O4 q f' Hq Hsl) as [?|(f0 & ? & ? & ?)]; [by left|right]. exists f0. rewrite elem_of_app. naive_solver.
Qed.

(** Goroutine [i] takes the result of its future. *)
Lemma origin_take st es e s i p f v : NoDup ptrs → origin st es s → gs s !! i = Some GGet → ptrs !! i = Some p →
  store s !! p = Some f → given st es p v →
  origin st (es ++ [e]) (mkWait (<[p := mkFuture None (f_closed f)]> (store s)) (<[i := GFilter v]> (gs s))
    (doneValues s) (doneCount s) (mu s) (main s)).
Proof.
  intros Hnd [O1 O2 O3 O4] Hi Hp Hf Hgiven.
  assert (<[i := GFilter v]> (gs s) !! i = Some (GFilter v)) as Hlk by (apply list_lookup_insert_eq; by eapply lookup_lt_Some).
  split; cbn [store gs]; [by rewrite length_insert|..].
  - intros q f' v' Hq Hv'. destruct (decide (q = p)) as [->|].
    + rewrite list_lookup_insert_eq in Hq by (by eapply lookup_lt_Some). by injection Hq as <-.
    + rewrite list_lookup_insert_ne in Hq by done. eapply given_snoc, O2; done.
  - intros j q v' Hq Hv'. destruct (decide (j = i)) as [->|].
    + rewrite Hlk in Hv'. injection Hv' as <-. rewrite Hp in Hq. injection Hq as <-. by apply given_snoc.
    + rewrite list_lookup_insert_ne in Hv' by done. eapply given_snoc, O3; done.
  - intros q f' Hq Hsl'. destruct (decide (q = p)) as [->|]; [left; by exists i, (GFilter v)|].
    rewrite list_lookup_insert_ne in Hq by done. destruct (O4 q f' Hq Hsl') as [(j & g & Hj & Hgj & Hne)|(f0 & ? & ? & ?)].
    2: { right. exists f0. rewrite elem_of_app. naive_solver. }
    left. exists j, g. rewrite list_lookup_insert_ne by naive_solver. done.
Qed.

(** A goroutine that still has to take its result finds it in the slot, or the
    nil of a future that has none. *)
Lemma take_own st es s i p f v f' : NoDup ptrs → origin st es s → gs s !! i = Some GGet → ptrs !! i = Some p →
  store s !! p = Some f → GetResult f = Returns (v, f') → given st es p v ∧ f' = mkFuture None (f_closed f).
Proof.
  intros Hnd O Hi Hp Hf He. unfold GetResult in He. destruct (f_slot f) as [w|] eqn:Hsl.
  { injection He as <- <-. split; [by eapply (or_slot _ _ _ O)|done]. }
  destruct (f_closed f) eqn:Hcl; [|done]. injection He as <- <-. split; [|by destruct f; simpl in *; congruence].
  destruct (or_taken _ _ _ O p f Hf Hsl) as [(j & g & Hj & Hgj & Hne)|(f0 & ? & ? & Hc)].
  - pose proof (NoDup_lookup _ _ _ _ Hnd Hp Hj). naive_solver.
  - right. right. split; [done|]. exists f0. auto.
Qed.

Lemma origin_step st es e s s' : NoDup ptrs → origin st es s → step e s = Some s' → origin st (es ++ [e]) s'.
Proof.
  intros Hnd O. destruct e as [p v|p|i|i|]; simpl.
  - intros (f & Hf & Hx)%bind_Some. unfold CompleteFuture, CloseFuture in Hx.
    destruct (f_closed f) eqn:Hcl; [done|]. destruct (f_slot f) eqn:Hsl; [done|]. simpl in Hx. injection Hx as <-.
    by eapply origin_complete.
  - intros (f & Hf & Hx)%bind_Some. unfold CloseFuture in Hx. destruct (f_closed f); [done|]. injection Hx as <-. by apply origin_close.
  - unfold go_step. intros (g & Hi & Hx)%bind_Some. destruct g as [|v|v|v|v|v|v|o]; try done.
    + apply bind_Some in Hx as (p & Hp & (f & Hf & Hx)%bind_Some). destruct (GetResult f) as [[v f']| |] eqn:He; [|done..].
      destruct (take_own st es s i p f v f') as [Hsl ->]; [done..|]. injection Hx as <-. by apply (origin_take st es _ s).
    + injection Hx as <-. apply (origin_move st es _ s i (GFilter v)); try done; destruct (accepts post v); [by left|by right|done..].
    + injection Hx as <-. apply (origin_move st es _ s i (GPush v)); try done. by left.
    + destruct (mu s); [done|]. injection Hx as <-. apply (origin_move st es _ s i (GLock v)); try done. by left.
    + injection Hx as <-. apply (origin_move st es _ s i (GCount v)); try done; case_decide; first [by left|done].
    + injection Hx as <-. apply (origin_move st es _ s i (GUnlock v)); try done. by left.
  - destruct (main s); [|done]. destruct (gs s !! i) as [[]|] eqn:Hi; try done. intros [= <-].
    apply (origin_move st es _ s i (GSend v)); try done. by left.
  - destruct (main s); [|done]. intros [= <-]. destruct O as [O1 O2 O3 O4]. split; cbn; [done|..]; intros.
    + eapply given_snoc, O2; done.
    + eapply given_snoc, O3; done.
    + destruct (O4 _ _ H H0) as [?|(f0 & ? & ? & ?)]; [by left|right]. exists f0. rewrite elem_of_app. naive_solver.
Qed.

(** ** Runs *)
Lemma wait_run_app es es' s : run (es ++ es') s = (s' ← run es s; run es' s').
Proof. revert s. induction es as [|e es IH]; intros s; simpl; [done|]. destruct (step e s); [apply IH|done]. Qed.

Lemma wait_run_inv es s s' : wait_inv s → len ptrs < 2 ^ 63 → run es s = Some s' → wait_inv s'.
Proof.
  revert s. induction es as [|e es IH]; intros s I Hlen; simpl; [by intros [= <-]|].
  intros (s1 & H1 & Hr)%bind_Some. eapply IH; [|done..]. by eapply step_inv.
Qed.

Lemma run_origin st es s : NoDup ptrs → run es (Wait_start ptrs st) = Some s → origin st es s.
Proof.
  intros Hnd. revert s. induction es as [|e es IH] using rev_ind; intros s.
  - intros [= <-]. split; cbn [Wait_start gs store]; [by rewrite length_replicate|..].
    + intros p f v Hf Hv. left. by exists f.
    + intros i p v _ Hv. apply bind_Some in Hv as (g & [-> _]%lookup_replicate & Hg). done.
    + intros p f Hf Hsl. right. exists f. auto.
  - rewrite wait_run_app. intros (s1 & H1 & (s2 & H2 & [= <-])%bind_Some)%bind_Some. eapply origin_step; [done| |done]. by apply IH.
Qed.

(** How a returned list is made of what the goroutines have sent. *)
Lemma result_positions s : wait_inv s →
  ∃ ks, NoDup ks ∧ Forall2 (λ i v, gs s !! i ≫= pushed = Some v) ks (result s).
Proof.
  intros I. destruct (omap_positions pushed (gs s)) as (ks & Hnd & Hall & _).
  apply Forall2_flip in Hall.
  destruct (Permutation_Forall2 (symmetry (wi_values s I)) Hall) as (ks' & Hks & Hall').
  apply Forall2_app_inv_l in Hall' as (k1 & k2 & H1 & H2 & ->). exists k1. split.
  - rewrite Hks in Hnd. by apply NoDup_app in Hnd as [? _].
  - by apply Forall2_flip.
Qed.

(** The list [Wait] returns has at most [n] values. *)
Definition bounded s : Prop := len (result s) <= Z.max n 0.

Lemma bounded_step e s s' : bounded s → step e s = Some s' → bounded s'.
Proof.
  unfold bounded. intros Hb. assert (len (result (return_ n s)) <= Z.max n 0).
  { cbn. rewrite length_take. lia. }
  destruct e as [p v|p|i|i|]; simpl.
  - intros (f & _ & Hx)%bind_Some. destruct (CompleteFuture v f); [|done..]. by injection Hx as <-.
  - intros (f & _ & Hx)%bind_Some. destruct (CloseFuture f); [|done..]. by injection Hx as <-.
  - unfold go_step. intros (g & Hi & Hx)%bind_Some. destruct g; try done; try by injection Hx as <-.
    + apply bind_Some in Hx as (p & _ & (f & _ & Hx)%bind_Some). destruct (GetResult f) as [[? ?]| |]; [|done..].
      by injection Hx as <-.
    + destruct (mu s); [done|]. by injection Hx as <-.
  - destruct (main s); [|done]. destruct (gs s !! i) as [[]|]; try done. by intros [= <-].
  - destruct (main s); [|done]. by intros [= <-].
Qed.

Lemma bounded_run es s s' : bounded s → run es s = Some s' → bounded s'.
Proof.
  revert s. induction es as [|e es IH]; intros s Hb; simpl; [by intros [= <-]|].
  intros (s1 & H1 & Hr)%bind_Some. by eapply IH; [eapply bounded_step|].
Qed.

(** ** Progress *)

(** The steps the scheduler owes to the goroutines and the caller of [Wait]. *)
Definition internal (e : event V) : bool := match e with Go _ | Recv _ => true | _ => false end.

Definition rank (g : goroutine V) : nat :=
  match g with
  | GGet => 7 | GFilter _ => 6 | GPush _ => 5 | GLock _ => 4 | GCount _ => 3 | GSend _ => 2 | GUnlock _ => 1 | GExit _ => 0
  end.

Lemma go_step_shape s i s' : go_step ptrs n post i s = Some s' → ∃ g g', gs s !! i = Some g ∧ gs s' = <[i := g']> (gs s) ∧
  (rank g' < rank g)%nat ∧ main s' = main s ∧
  (store s' = store s ∨ ∃ p f, g = GGet ∧ ptrs !! i = Some p ∧ store s' = <[p := f]> (store s)).
Proof.
  unfold go_step. intros (g & Hi & Hx)%bind_Some. exists g. destruct g as [|v|v|v|v|v|v|o]; try done.
  - apply bind_Some in Hx as (p & Hp & (f & Hf & Hx)%bind_Some). destruct (GetResult f) as [[v f']| |]; [|done..].
    injection Hx as <-. eexists. split_and!; try done; [simpl; lia|]. right. by exists p, f'.
  - injection Hx as <-. eexists. split_and!; try done; [destruct (accepts post v); simpl; lia|by left].
  - injection Hx as <-. eexists. split_and!; try done; [simpl; lia|by left].
  - destruct (mu s); [done|]. injection Hx as <-. eexists. split_and!; try done; [simpl; lia|by left].
  - injection Hx as <-. eexists. split_and!; try done; [case_decide; simpl; lia|by left].
  - injection Hx as <-. eexists. split_and!; try done; [simpl; lia|by left].
Qed.

Lemma recv_shape s i s' : step (Recv i) s = Some s' → ∃ v, main s = Waiting ∧ gs s !! i = Some (GSend v) ∧
  s' = set_g i (GUnlock v) (return_ n s).
Proof.
  simpl. destruct (main s); [|done]. destruct (gs s !! i) as [[]|]; try done. intros [= <-]. by eexists.
Qed.

Lemma internal_rank e s s' : internal e = true → step e s = Some s' →
  (sum_list_with rank (gs s') < sum_list_with rank (gs s))%nat.
Proof.
  intros He Hs. destruct e as [| |i|i|]; try done.
  - destruct (go_step_shape s i s' Hs) as (g & g' & Hi & -> & Hr & _). pose proof (sum_insert rank (gs s) i g g' Hi). lia.
  - destruct (recv_shape s i s' Hs) as (v & _ & Hi & ->). pose proof (sum_insert rank (gs s) i _ (GUnlock v) Hi). simpl in *. lia.
Qed.

Lemma internal_run_rank es s s' : forallb internal es = true → run es s = Some s' →
  (length es + sum_list_with rank (gs s') ≤ sum_list_with rank (gs s))%nat.
Proof.
  revert s. induction es as [|e es IH]; intros s; simpl; [by intros _ [= <-]|].
  intros [He Hes]%andb_true_iff (s1 & H1 & Hr)%bind_Some. specialize (IH s1 Hes Hr). pose proof (internal_rank e s s1 He H1). lia.
Qed.

Lemma rank_bound l : (sum_list_with rank l ≤ 7 * length l)%nat.
Proof. induction l as [|g l IH]; simpl; [lia|]. destruct g; simpl in *; lia. Qed.

(** Goroutine [i] will send its value, or has: its future is done, with a
    result the filter accepts (a closed future without a result gives nil). *)
Definition ready s (i : nat) : bool :=
  match gs s !! i with
  | Some GGet => match ptrs !! i ≫= λ p, store s !! p with
      | Some f => match GetResult f with Returns (v, _) => accepts post v | _ => false end
      | None => false
      end
  | Some (GFilter v) => accepts post v
  | Some (GExit None) | None => false
  | Some _ => true
  end.

Lemma ready_own s i s' : go_step ptrs n post i s = Some s' → ready s i = true → ready s' i = true.
Proof.
  intros Hs. pose proof Hs as Hs0. unfold go_step in Hs0. apply bind_Some in Hs0 as (g & Hi & Hx). unfold ready. rewrite Hi.
  assert (∀ g', (<[i := g']> (gs s)) !! i = Some g') as Hlk by (intros; apply list_lookup_insert_eq; by eapply lookup_lt_Some).
  destruct g as [|v|v|v|v|v|v|o]; try done.
  - apply bind_Some in Hx as (p & -> & (f & Hf & Hx)%bind_Some). simpl. rewrite Hf.
    destruct (GetResult f) as [[v f']| |]; [|done..]. injection Hx as <-. cbn [gs set_g]. by rewrite Hlk.
  - injection Hx as <-. cbn [gs set_g]. rewrite Hlk. by intros ->.
  - injection Hx as <-. cbn [gs set_g]. by rewrite Hlk.
  - destruct (mu s); [done|]. injection Hx as <-. cbn [gs set_g]. by rewrite Hlk.
  - injection Hx as <-. cbn [gs set_g]. rewrite Hlk. by case_decide.
  - injection Hx as <-. cbn [gs set_g set_mu]. by rewrite Hlk.
Qed.

Lemma ready_step e s s' i : NoDup ptrs → internal e = true → step e s = Some s' → ready s i = true → ready s' i = true.
Proof.
  intros Hnd He Hs. destruct e as [| |j|j|]; try done.
  - destruct (decide (j = i)) as [->|Hne]; [by apply ready_own|].
    destruct (go_step_shape s j s' Hs) as (g & g' & Hj & Hgs & _ & _ & Hst). unfold ready.
    rewrite Hgs, list_lookup_insert_ne by done. destruct Hst as [->|(p & f & -> & Hp & ->)]; [done|].
    destruct (gs s !! i) as [[]|]; try done. destruct (ptrs !! i) as [q|] eqn:Hq; [|done]. simpl.
    rewrite list_lookup_insert_ne; [done|]. intros ->. apply Hne. by eapply NoDup_lookup.
  - destruct (recv_shape s j s' Hs) as (v & _ & Hj & ->). unfold ready. cbn [gs set_g return_ store].
    destruct (decide (j = i)) as [->|Hne]; [|by rewrite list_lookup_insert_ne].
    rewrite list_lookup_insert_eq by (by eapply lookup_lt_Some). done.
Qed.

(** A state in which no goroutine can go on. *)
Definition stuck s : Prop := ∀ e, internal e = true → step e s = None.

Lemma stuck_ready s i : wait_inv s → stuck s → waiting s = true → ready s i = true → is_Some (gs s !! i ≫= counted).
Proof.
  intros I Hst Hw Hr. pose proof (Hst (Go i) eq_refl) as Hgo. simpl in Hgo. unfold go_step, ready in *.
  destruct (gs s !! i) as [g|] eqn:Hi; [|done]. simpl in *.
  destruct g as [|v|v|v|v|v|v|[v|]]; try done.
  - exfalso. destruct (ptrs !! i) as [p|]; [|done]. simpl in *. destruct (store s !! p) as [f|]; [|done]. simpl in *.
    by destruct (GetResult f) as [[? ?]| |].
  - exfalso. destruct (mu s) as [k|] eqn:Hmu; [|done]. apply (wi_mu s I) in Hmu as (g & Hk & Hc).
    pose proof (Hst (Go k) eq_refl) as Hgk. pose proof (Hst (Recv k) eq_refl) as Hrk. simpl in *. unfold go_step in Hgk.
    rewrite Hk in *. unfold waiting in Hw. destruct (main s); [|done]. by destruct g.
Qed.

Lemma stuck_returned s ks : wait_inv s → stuck s → 1 <= n → NoDup ks → n <= len ks →
  (∀ i, i ∈ ks → ready s i = true) → waiting s = false.
Proof.
  intros I Hst Hn Hnd Hlen Hks. destruct (waiting s) eqn:Hw; [exfalso|done].
  assert (n <= doneCount s) as Hd.
  { rewrite (wi_count s I). pose proof (omap_count counted (gs s) ks Hnd) as Hc.
    assert (length ks ≤ length (omap counted (gs s)))%nat; [|lia]. apply Hc. intros i Hi. apply stuck_ready; auto. }
  unfold waiting in Hw. destruct (main s) eqn:Hm; [|done].
  destruct (wi_waiting s I Hm Hn Hd) as (i & v & Hi). pose proof (Hst (Recv i) eq_refl) as Hr. simpl in Hr.
  by rewrite Hm, Hi in Hr.
Qed.

(** Receiving from [doneN] finds [n] values. *)
Lemma recv_full s i s' : wait_inv s → 1 <= n → step (Recv i) s = Some s' → len (result s') = n.
Proof.
  intros I Hn (v & Hm & Hi & ->)%recv_shape. cbn. rewrite length_take.
  pose proof (wi_send s I i v Hi) as Hd. rewrite (wi_count s I) in Hd.
  pose proof (Permutation_length (wi_values s I)) as Hl. unfold result in Hl. rewrite Hm in Hl. simpl in Hl.
  assert (length (omap counted (gs s)) ≤ length (omap pushed (gs s)))%nat; [|lia].
  apply omap_length_le. intros [] []; simpl; naive_solver.
Qed.

Lemma internal_run es s s' (ks : list nat) : NoDup ptrs → len ptrs < 2 ^ 63 → 1 <= n → forallb internal es = true →
  run es s = Some s' → wait_inv s → (∀ i, i ∈ ks → ready s i = true) → (waiting s = false → len (result s) = n) →
  wait_inv s' ∧ (∀ i, i ∈ ks → ready s' i = true) ∧ (waiting s' = false → len (result s') = n).
Proof.
  intros Hnd Hlen Hn. revert s. induction es as [|e es IH]; intros s; simpl; [by intros _ [= <-]|].
  intros [He Hes]%andb_true_iff (s1 & H1 & Hr)%bind_Some I Hks Hres. apply (IH s1); try done.
  - by eapply step_inv.
  - intros i Hi. eapply ready_step; eauto.
  - intros Hw. destruct e as [| |j|j|]; try done; [|by eapply recv_full].
    destruct (go_step_shape s j s1 H1) as (_ & _ & _ & _ & _ & Hm & _). unfold result, waiting in *. rewrite Hm in *. auto.
Qed.

(** ** What is left behind *)
Lemma leaked_step s e s' i v : wait_inv s → waiting s = false → gs s !! i = Some (GSend v) → step e s = Some s' →
  waiting s' = false ∧ gs s' !! i = Some (GSend v) ∧ mu s' = Some i.
Proof.
  intros I Hw Hi. assert (mu s = Some i) as Hmu by (apply (wi_mu s I); by eexists).
  assert (main s ≠ Waiting) by (unfold waiting in Hw; by destruct (main s)).
  destruct e as [p w|p|j|j|]; simpl.
  - intros (f & _ & Hx)%bind_Some. destruct (CompleteFuture w f); [|done..]. by injection Hx as <-.
  - intros (f & _ & Hx)%bind_Some. destruct (CloseFuture f); [|done..]. by injection Hx as <-.
  - intros Hs. destruct (decide (j = i)) as [->|Hne].
    { unfold go_step in Hs. by rewrite Hi in Hs. }
    pose proof (go_step_shape s j s' Hs) as (g & g' & Hj & Hgs & _ & Hm & _).
    split; [unfold waiting in *; by rewrite Hm|]. split; [by rewrite Hgs, list_lookup_insert_ne|].
    unfold go_step in Hs. rewrite Hj in Hs. simpl in Hs. rewrite Hmu in Hs. destruct g; try done.
    + apply bind_Some in Hs as (p & _ & (f & _ & Hx)%bind_Some). destruct (GetResult f) as [[? ?]| |]; [|done..].
      by injection Hx as <-.
    + by injection Hs as <-.
    + by injection Hs as <-.
    + by injection Hs as <-.
    + assert (mu s = Some j) by (apply (wi_mu s I); by eexists). congruence.
  - by destruct (main s).
  - by destruct (main s).
Qed.
End wait.

(** ** The theorems *)

(** C26 When the futures of its argument are distinct, [Wait] returns at most [n]
    values.  They come from different futures and the filter has accepted them.
    Each was given to its future, before the start or by the future's own
    goroutine, or it is the nil of a future that had no result and was closed,
    before the start or by its own goroutine. *)
Theorem wait_result {V} (ptrs : list nat) n post (st : list (Future V)) es s l :
  NoDup ptrs → len ptrs < 2 ^ 63 → wait_run ptrs n post es (Wait_start ptrs st) = Some s → main s = Returned l →
  len l <= Z.max n 0 ∧ ∃ ks, NoDup ks ∧
    Forall2 (λ i v, ∃ p, ptrs !! i = Some p ∧ given st es p v ∧ accepts post v = true) ks l.
Proof.
  intros Hnd Hlen Hrun Hm. pose proof (run_origin ptrs n post st es s Hnd Hrun) as O.
  pose proof (wait_run_inv ptrs n post es _ s (start_inv ptrs n post st) Hlen Hrun) as I. split.
  - assert (bounded n s) as Hb by (eapply (bounded_run ptrs n post es); [|done]; unfold bounded; simpl; lia).
    unfold bounded, result in Hb. by rewrite Hm in Hb.
  - destruct (result_positions ptrs n post s I) as (ks & Hk & Hall). exists ks. split; [done|].
    unfold result in Hall. rewrite Hm in Hall. eapply Forall2_impl; [exact Hall|]. intros i v Hv. cbn beta in Hv.
    destruct (ptrs !! i) as [p|] eqn:Hp.
    + exists p. split_and!; [done| |by apply (wi_accepts _ _ _ _ I i); left]. eapply (or_got _ _ _ _ O); [done|].
      destruct (bind_Some pushed (gs s !! i) v) as [Hb _]. destruct (Hb Hv) as (g & -> & Hg). by apply pushed_got.
    + exfalso. apply lookup_ge_None in Hp. rewrite <-(wi_gs _ _ _ _ I) in Hp. apply lookup_ge_None in Hp. by rewrite Hp in Hv.
Qed.

(** C25 [Wait] returns: in every state it reaches while the caller waits, if at
    least [n] of the futures are done with results the filter accepts, then
    whatever the schedule, its goroutines take finitely many steps, and when
    none can go on the caller has returned [n] values. *)
Theorem wait_returns {V} (ptrs : list nat) n post (st : list (Future V)) es s ks :
  NoDup ptrs → len ptrs < 2 ^ 63 → 1 <= n → wait_run ptrs n post es (Wait_start ptrs st) = Some s → main s = Waiting →
  NoDup ks → n <= len ks → (∀ i, i ∈ ks → ready ptrs post s i = true) →
  ∀ es' s', forallb internal es' = true → wait_run ptrs n post es' s = Some s' →
    len es' <= 7 * len ptrs ∧ (stuck ptrs n post s' → ∃ l, main s' = Returned l ∧ len l = n).
Proof.
  intros Hnd Hlen Hn Hrun Hm Hks Hnk Hready es' s' Hes Hrun'.
  pose proof (wait_run_inv ptrs n post es _ s (start_inv ptrs n post st) Hlen Hrun) as I. split.
  - pose proof (internal_run_rank ptrs n post es' s s' Hes Hrun'). pose proof (rank_bound (gs s)) as Hb.
    rewrite (wi_gs _ _ _ _ I) in Hb. lia.
  - intros Hst. destruct (internal_run ptrs n post es' s s' ks) as (I' & Hr' & Hres); try done.
    { unfold waiting. by rewrite Hm. }
    pose proof (stuck_returned ptrs n post s' ks I' Hst Hn Hks Hnk Hr') as Hw. specialize (Hres Hw).
    unfold waiting, result in *. destruct (main s') as [|l]; [done|]. by exists l.
Qed.

(** C39 When [Wait] has returned, a goroutine that sends on [doneN] is blocked
    forever and keeps the mutex, whatever happens: the only receiver is gone. *)
Theorem wait_leaks {V} (ptrs : list nat) n post (st : list (Future V)) es s i v l :
  len ptrs < 2 ^ 63 → wait_run ptrs n post es (Wait_start ptrs st) = Some s → main s = Returned l → gs s !! i = Some (GSend v) →
  ∀ es' s', wait_run ptrs n post es' s = Some s' → gs s' !! i = Some (GSend v) ∧ mu s' = Some i.
Proof.
  intros Hlen Hrun Hm Hi es' s' Hrun'. pose proof (wait_run_inv ptrs n post es _ s (start_inv ptrs n post st) Hlen Hrun) as I.
  assert (waiting s = false) as Hw by (unfold waiting; by rewrite Hm).
  clear Hrun Hm. revert s I Hw Hi Hrun'. induction es' as [|e es' IH]; intros s I Hw Hi; simpl.
  - intros [= <-]. split; [done|]. apply (wi_mu _ _ _ _ I). by eexists.
  - intros (s1 & H1 & Hr)%bind_Some. destruct (leaked_step ptrs n post s e s1 i v) as (? & ? & _); [done..|].
    apply (IH s1); try done. by eapply step_inv.
Qed.

(** Three futures, [n] = 1, and the filter "at least 5". *)
Definition demo_post (v : option Z) : bool := match v with Some x => bool_decide (x >= 5) | None => false end.
Definition demo_run : list (event Z) := [Complete 0 (Some 7); Complete 1 (Some 3); Complete 2 (Some 9); Go 0; Go 0; Go 0; Go 2; Go 2].
Definition demo_done : list (event Z) := [Go 0; Go 0; Recv 0].
Definition demo_leak : list (event Z) := [Go 0; Go 2; Go 2; Go 2].
Abbreviation demo_wait es := (wait_run [0%nat; 1%nat; 2%nat] 1 (Some demo_post) es (Wait_start [0%nat; 1%nat; 2%nat] [NewFuture; NewFuture; NewFuture])).

Lemma wait_result_witness : ∃ s ks, demo_wait (demo_run ++ demo_done) = Some s ∧ main s = Returned [Some 7] ∧ NoDup ks ∧
  Forall2 (λ i v, ∃ p, [0; 1; 2]%nat !! i = Some p ∧ given [NewFuture; NewFuture; NewFuture] (demo_run ++ demo_done) p v ∧
    accepts (Some demo_post) v = true) ks [Some 7].
Proof.
  destruct (demo_wait (demo_run ++ demo_done)) as [s|] eqn:Hs; [|vm_compute in Hs; discriminate].
  assert (main s = Returned [Some 7]) as Hm by (vm_compute in Hs; injection Hs as <-; reflexivity).
  destruct (wait_result [0; 1; 2]%nat 1 (Some demo_post) [NewFuture; NewFuture; NewFuture] (demo_run ++ demo_done) s [Some 7])
    as [_ (ks & Hnd & Hall)].
  - apply (bool_decide_eq_true_1 _). by vm_compute.
  - reflexivity.
  - exact Hs.
  - exact Hm.
  - exists s, ks. split_and!; done.
Defined.

Lemma wait_returns_witness : ∃ s s' l, demo_wait demo_run = Some s ∧
  wait_run [0; 1; 2]%nat 1 (Some demo_post) (demo_done ++ [Go 0; Go 1; Go 1; Go 2; Go 2; Go 2]) s = Some s' ∧
  main s' = Returned l ∧ len l = 1.
Proof.
  destruct (demo_wait demo_run) as [s|] eqn:Hs; [|vm_compute in Hs; discriminate].
  destruct (wait_run [0; 1; 2]%nat 1 (Some demo_post) (demo_done ++ [Go 0; Go 1; Go 1; Go 2; Go 2; Go 2]) s) as [s'|] eqn:Hs';
    [|vm_compute in Hs; injection Hs as <-; vm_compute in Hs'; discriminate].
  destruct (wait_returns [0; 1; 2]%nat 1 (Some demo_post) [NewFuture; NewFuture; NewFuture] demo_run s [0; 2]%nat)
    with (es' := demo_done ++ [Go 0%nat; Go 1%nat; Go 1%nat; Go 2%nat; Go 2%nat; Go 2%nat]) (s' := s') as [_ Hstuck].
  - apply (bool_decide_eq_true_1 _). by vm_compute.
  - reflexivity.
  - lia.
  - exact Hs.
  - vm_compute in Hs. injection Hs as <-. reflexivity.
  - apply (bool_decide_eq_true_1 _). by vm_compute.
  - simpl. lia.
  - intros i Hi. vm_compute in Hs. injection Hs as <-. rewrite !elem_of_cons in Hi.
    destruct Hi as [->|[->|Hi]]; [reflexivity..|by apply not_elem_of_nil in Hi].
  - reflexivity.
  - exact Hs'.
  - destruct Hstuck as (l & Hl & Hn).
    + vm_compute in Hs. injection Hs as <-. vm_compute in Hs'. injection Hs' as <-.
      intros [| |[|[|[|i]]]|[|[|[|i]]]|] He; try discriminate; reflexivity.
    + exists s, s', l. split_and!; done.
Defined.

Lemma wait_leaks_witness : ∃ s, demo_wait (demo_run ++ demo_done ++ demo_leak) = Some s ∧ main s = Returned [Some 7] ∧
  ∀ es' s', wait_run [0; 1; 2]%nat 1 (Some demo_post) es' s = Some s' → gs s' !! 2%nat = Some (GSend (Some 9)) ∧ mu s' = Some 2%nat.
Proof.
  destruct (demo_wait (demo_run ++ demo_done ++ demo_leak)) as [s|] eqn:Hs; [|vm_compute in Hs; discriminate].
  assert (main s = Returned [Some 7]) as Hm by (vm_compute in Hs; injection Hs as <-; reflexivity).
  exists s. split; [done|]. split; [exact Hm|].
  apply (wait_leaks [0; 1; 2]%nat 1 (Some demo_post) [NewFuture; NewFuture; NewFuture] (demo_run ++ demo_done ++ demo_leak) s 2 (Some 9) [Some 7]).
  - reflexivity.
  - exact Hs.
  - exact Hm.
  - vm_compute in Hs. injection Hs as <-. reflexivity.
Defined.

(** Futures that are closed without a result make [Wait] return nil values, as
    [TestFutureUnreliable] expects. *)
Example wait_nils : option_map main (wait_run [0; 1; 2]%nat 2 None
    [Close 0; Close 1; Close 2; Go 0; Go 0; Go 0; Go 0; Go 0; Go 0; Go 2; Go 2; Go 2; Go 2; Go 2; Recv 2]
    (Wait_start [0; 1; 2]%nat [NewFuture (V := Z); NewFuture; NewFuture])) = Some (Returned [None; None]).
Proof. reflexivity. Qed.
