(* ===== verification/Naive.v ===== *)
(** * The demonstration of a1-futures: naive_requests.go

    Ten goroutines count the answers they get under a mutex, and from the sixth
    answer on each sends on an unbuffered channel with the mutex held; [main]
    waits for one message or for the timer, and prints the count without the
    mutex. *)
From S2P Require Import Prelude.

(** ** A request

    [d1], [d2] and [v] are what [rand.Intn] draws; the result comes with the
    milliseconds it takes. *)
Definition naive_GetWeatherData (straggler unreliable : bool) (d1 d2 v : Z) : Z * (Z * bool) :=
  let slept := 100 + d1 in
  let slept := if straggler then slept + (100 + d2) else slept in
  (slept, if unreliable then (-1, true) else (v, false)).

(** ** The program *)
Definition nPeers : nat := 10.
Definition requiredTrueCount : Z := Z.of_nat nPeers / 2 + 1.

(** Where a goroutine is. *)
Inductive asker := Asking | Locking | Counting | Sending | Unlocking | Finished.
#[export] Instance asker_eq_dec : EqDecision asker.
Proof. solve_decision. Defined.

(** Where [main] is: in its [select], after it, or at its end with what it has
    printed: whether a message came, and the count. *)
Inductive naive_main := Selecting | Selected (done : bool) | Printed (done : bool) (count : Z).

Record naive := mkNaive {
  nv_mu : option nat;
  trueCount : Z;
  nv_askers : list asker;
  nv_main : naive_main;
}.

Definition naive_init : naive := mkNaive None 0 (replicate nPeers Asking) Selecting.

Inductive naive_label :=
  | NvGo (i : nat)     (* goroutine [i] takes a step *)
  | NvDone (i : nat)   (* its message is received *)
  | NvTimeout
  | NvPrint.

(** A goroutine up to and after its send; [None] when it has to wait. *)
Definition asker_step (i : nat) (pc : asker) (w : naive) : option naive :=
  let go mu n pc := Some (mkNaive mu n (<[i := pc]> (nv_askers w)) (nv_main w)) in
  match pc with
  | Asking => go (nv_mu w) (trueCount w) (if (naive_GetWeatherData false false 0 0 0).2.2 then Finished else Locking)
  | Locking => match nv_mu w with None => go (Some i) (trueCount w) Counting | Some _ => None end
  | Counting =>
      let n := trueCount w + 1 in
      go (nv_mu w) n (if decide (requiredTrueCount ≤ n) then Sending else Unlocking)
  | Sending => None
  | Unlocking => go None (trueCount w) Finished
  | Finished => None
  end.

(** Once [main] has returned the process is over. *)
Definition naive_step (l : naive_label) (w : naive) : option naive :=
  match nv_main w with
  | Printed _ _ => None
  | m =>
    match l, m with
    | NvGo i, _ => pc ← nv_askers w !! i; asker_step i pc w
    | NvDone i, Selecting =>
        pc ← nv_askers w !! i;
        if decide (pc = Sending) then Some (mkNaive (nv_mu w) (trueCount w) (<[i := Unlocking]> (nv_askers w)) (Selected true)) else None
    | NvTimeout, Selecting => Some (mkNaive (nv_mu w) (trueCount w) (nv_askers w) (Selected false))
    | NvPrint, Selected b => Some (mkNaive (nv_mu w) (trueCount w) (nv_askers w) (Printed b (trueCount w)))
    | _, _ => None
    end
  end.

Inductive naive_reachable : naive → Prop :=
  | nv_init : naive_reachable naive_init
  | nv_step w l w' : naive_reachable w → naive_step l w = Some w' → naive_reachable w'.

(** ** The invariant *)
Definition critical (pc : asker) : bool := match pc with Counting | Sending | Unlocking => true | _ => false end.
Definition counted (pc : asker) : bool := match pc with Sending | Unlocking | Finished => true | _ => false end.
Definition naive_counted (w : naive) : nat := length (filter (λ pc, counted pc = true) (nv_askers w)).

(** The mutex is held by the goroutine in the critical section, the count is
    that of the goroutines past their increment, and the count tells where
    [main] can be. *)
Record naive_inv (w : naive) : Prop := {
  ni_len : length (nv_askers w) = nPeers;
  ni_mu i pc : nv_askers w !! i = Some pc → critical pc = true ↔ nv_mu w = Some i;
  ni_owner i : nv_mu w = Some i → (i < nPeers)%nat;
  ni_count : trueCount w = Z.of_nat (naive_counted w);
  ni_sending i : nv_askers w !! i = Some Sending → requiredTrueCount ≤ trueCount w;
  ni_main : match nv_main w with
    | Selecting => requiredTrueCount ≤ trueCount w → trueCount w = requiredTrueCount ∧ ∃ i, nv_askers w !! i = Some Sending
    | Selected b | Printed b _ => (b = true → requiredTrueCount ≤ trueCount w) ∧
        let limit := requiredTrueCount + (if b then 1 else 0) in
        trueCount w ≤ limit ∧ (trueCount w = limit → ∃ i, nv_askers w !! i = Some Sending)
    end;
}.

Lemma naive_init_inv : naive_inv naive_init.
Proof.
  assert (∀ i pc, nv_askers naive_init !! i = Some pc → pc = Asking) as Hall by (intros i pc [-> _]%lookup_replicate; done).
  split; simpl; [done| |done|done| |done].
  - by intros i pc ->%Hall.
  - by intros i ?%Hall.
Qed.

(** One goroutine moves on: what the count of the goroutines past their
    increment becomes. *)
Lemma counted_insert (l : list asker) i pc pc' : l !! i = Some pc →
  (length (filter (λ x, counted x = true) (<[i := pc']> l)) + (if counted pc then 1 else 0) =
   length (filter (λ x, counted x = true) l) + (if counted pc' then 1 else 0))%nat.
Proof.
  revert i. induction l as [|x l IH]; intros [|i]; simpl; intros H; [done..| |].
  - injection H as ->. rewrite !filter_cons. destruct pc, pc'; simpl; lia.
  - rewrite !filter_cons. specialize (IH i H). destruct (decide (counted x = true)); simpl; lia.
Qed.

Lemma holder_unique w i j pc : naive_inv w → nv_askers w !! i = Some pc → critical pc = true → nv_askers w !! j = Some Sending → i = j.
Proof. intros Hw Hi Hc Hj. apply (ni_mu _ Hw _ _ Hi) in Hc. apply (ni_mu _ Hw) in Hj as [Hj _]. specialize (Hj eq_refl). congruence. Qed.

(** The steps of a goroutine: all but the increment leave the count. *)
Lemma asker_inv w i pc pc' mu n : naive_inv w → nv_askers w !! i = Some pc → pc ≠ Sending →
  (critical pc' = true ↔ mu = Some i) → (∀ j, j ≠ i → mu = Some j ↔ nv_mu w = Some j) →
  n + (if counted pc then 1 else 0) = trueCount w + (if counted pc' then 1 else 0) →
  (n = trueCount w ∧ pc' ≠ Sending ∨ critical pc = true ∧ n = trueCount w + 1 ∧ (pc' = Sending ↔ requiredTrueCount ≤ n)) →
  naive_inv (mkNaive mu n (<[i := pc']> (nv_askers w)) (nv_main w)).
Proof.
  intros Hw Hi Hpc Hmu Hother Hn Hcase. pose proof (lookup_lt_Some _ _ _ Hi) as Hlt.
  assert (∀ j, nv_askers w !! j = Some Sending → <[i := pc']> (nv_askers w) !! j = Some Sending) as Hkeep.
  { intros j Hj. rewrite list_lookup_insert_ne; [done|]. intros ->. congruence. }
  assert (n = trueCount w + 1 → critical pc = true → ∀ j, nv_askers w !! j ≠ Some Sending) as Hnone.
  { intros _ Hc j Hj. pose proof (holder_unique _ _ _ _ Hw Hi Hc Hj) as <-. congruence. }
  assert (pc' = Sending → <[i := pc']> (nv_askers w) !! i = Some Sending) as Hself by (intros ->; by apply list_lookup_insert_eq).
  destruct Hw as [W1 W2 W3 W4 W5 W6]. split; simpl.
  - by rewrite length_insert.
  - intros j x. destruct (decide (j = i)) as [->|Hne].
    + rewrite list_lookup_insert_eq by done. by intros [= <-].
    + rewrite list_lookup_insert_ne by done. intros Hx. rewrite Hother by done. by apply W2.
  - intros j Hj. destruct (decide (j = i)) as [->|Hne]; [by rewrite <-W1|]. apply W3. by apply Hother.
  - pose proof (counted_insert _ _ _ pc' Hi) as Hc. unfold naive_counted in *. simpl. destruct (counted pc), (counted pc'); lia.
  - intros j. destruct (decide (j = i)) as [->|Hne].
    + rewrite list_lookup_insert_eq by done. intros [= ->]. destruct Hcase as [[_ ?]|(_ & _ & ?)]; [done|]. by apply H.
    + rewrite list_lookup_insert_ne by done. intros Hj%W5. lia.
  - destruct Hcase as [[-> _]|(Hc & Hn1 & Hs)].
    + destruct (nv_main w); naive_solver.
    + pose proof (Hnone Hn1 Hc) as Hno. rewrite Hn1 in *. destruct (nv_main w) as [|b|b k].
      1: { intros Hr. destruct (decide (requiredTrueCount ≤ trueCount w)) as [Hr'|]; [destruct (W6 Hr') as (_ & j & Hj); by destruct (Hno j)|].
           split; [lia|]. exists i. by apply Hself, Hs. }
      all: destruct W6 as (H1 & H2 & H3);
        assert (trueCount w ≠ requiredTrueCount + (if b then 1 else 0)) by (intros [j Hj]%H3; by destruct (Hno j));
        split; [intros Hb%H1; lia|split; [lia|]]; intros Heq; exists i; apply Hself, Hs; destruct b; lia.
Qed.

Lemma asker_step_inv w i pc w' : naive_inv w → nv_askers w !! i = Some pc → asker_step i pc w = Some w' → naive_inv w'.
Proof.
  intros Hw Hi Hs. pose proof (ni_mu _ Hw _ _ Hi) as Hmu. destruct pc; simpl in Hs, Hmu; [| | |done| |done].
  - injection Hs as <-. eapply asker_inv; [done..|simpl; lia|by left].
  - destruct (nv_mu w) eqn:Hfree; [done|]. injection Hs as <-. eapply asker_inv; [done..| |simpl; lia|by left].
    intros j Hj. rewrite Hfree. naive_solver.
  - injection Hs as <-. assert (nv_mu w = Some i) as Hmine by by apply Hmu.
    case_decide; (eapply asker_inv; [done..|simpl; lia|right; naive_solver]).
  - injection Hs as <-. assert (nv_mu w = Some i) as Hmine by by apply Hmu. eapply asker_inv; [done..| |simpl; lia|by left].
    intros j Hj. rewrite Hmine. naive_solver.
Qed.

Lemma naive_done_inv w i : naive_inv w → nv_main w = Selecting → nv_askers w !! i = Some Sending →
  naive_inv (mkNaive (nv_mu w) (trueCount w) (<[i := Unlocking]> (nv_askers w)) (Selected true)).
Proof.
  intros Hw Hm Hi. pose proof (ni_sending _ Hw _ Hi) as Hr. pose proof (ni_main _ Hw) as Hmain. rewrite Hm in Hmain.
  destruct (Hmain Hr) as [Hc _]. pose proof (lookup_lt_Some _ _ _ Hi) as Hlt. destruct Hw as [W1 W2 W3 W4 W5 _].
  split; simpl; [by rewrite length_insert| |done| | |].
  - intros j x. destruct (decide (j = i)) as [->|Hne]; [|rewrite list_lookup_insert_ne by done; apply W2].
    rewrite list_lookup_insert_eq by done. intros [= <-]. apply (W2 _ _ Hi).
  - pose proof (counted_insert _ _ _ Unlocking Hi). unfold naive_counted in *. simpl in *. lia.
  - done.
  - split; [done|]. rewrite Hc. split; [lia|]. intros ?; lia.
Qed.

Lemma naive_step_inv w l w' : naive_inv w → naive_step l w = Some w' → naive_inv w'.
Proof.
  intros Hw Hs. destruct l as [i|i| |]; unfold naive_step in Hs; destruct (nv_main w) as [|b|b k] eqn:Hm; try done.
  1-2: apply bind_Some in Hs as (pc & Hi & Hs); by eapply asker_step_inv.
  - apply bind_Some in Hs as (pc & Hi & Hs). case_decide as Hp; [|done]. injection Hs as <-. subst pc. by apply naive_done_inv.
  - injection Hs as <-. pose proof (ni_main _ Hw) as Hmain. rewrite Hm in Hmain. destruct Hw as [W1 W2 W3 W4 W5 _]. split; [done..|].
    simpl. split; [done|]. rewrite Z.add_0_r. destruct (decide (requiredTrueCount ≤ trueCount w)) as [Hr|]; [destruct (Hmain Hr) as [-> ?]; by split|lia].
  - injection Hs as <-. pose proof (ni_main _ Hw) as Hmain. rewrite Hm in Hmain. destruct Hw as [W1 W2 W3 W4 W5 _]. by split.
Qed.

Lemma naive_reachable_inv w : naive_reachable w → naive_inv w.
Proof. induction 1; [apply naive_init_inv|by eapply naive_step_inv]. Qed.

(** ** What the program prints *)

(** The process ends when [main] has printed. *)
Lemma printed_count w b k : naive_reachable w → nv_main w = Printed b k → trueCount w = k.
Proof.
  intros Hw. induction Hw as [|w l w' Hw IH Hs]; [done|]. unfold naive_step in Hs.
  destruct (nv_main w) as [|c|c m] eqn:Hm; destruct l as [i|i| |]; try done.
  - apply bind_Some in Hs as (pc & _ & Hs). intros Hp. exfalso. destruct pc; simpl in Hs; repeat case_match; simplify_eq; simpl in *; congruence.
  - apply bind_Some in Hs as (pc & _ & Hs). case_decide; [|done]. by injection Hs as <-.
  - by injection Hs as <-.
  - apply bind_Some in Hs as (pc & _ & Hs). intros Hp. exfalso. destruct pc; simpl in Hs; repeat case_match; simplify_eq; simpl in *; congruence.
  - injection Hs as <-. simpl. by intros [= <- <-].
Qed.

(** After [Done] the program prints six or seven, after the timeout at most six:
    the goroutine that finds nobody to receive its message keeps the mutex. *)
Theorem naive_prints w b k : naive_reachable w → nv_main w = Printed b k →
  if b then 6 ≤ k ≤ 7 else 0 ≤ k ≤ 6.
Proof.
  intros Hw Hm. rewrite <-(printed_count _ _ _ Hw Hm). apply naive_reachable_inv in Hw as [_ _ _ Hc _ Hmain].
  rewrite Hm in Hmain. destruct Hmain as (H1 & H2 & _). change requiredTrueCount with 6 in *. destruct b; lia.
Qed.

(** While [main] waits it is not the timer alone that can go on. *)
Theorem naive_progress w : naive_reachable w → nv_main w = Selecting → ∃ l w', l ≠ NvTimeout ∧ naive_step l w = Some w'.
Proof.
  intros Hw%naive_reachable_inv Hm.
  assert (∀ i pc w', nv_askers w !! i = Some pc → asker_step i pc w = Some w' → ∃ l w', l ≠ NvTimeout ∧ naive_step l w = Some w') as Hgo.
  { intros i pc w' Hi Hs. exists (NvGo i), w'. unfold naive_step. rewrite Hm, Hi. done. }
  assert (∀ i, nv_askers w !! i = Some Sending → ∃ l w', l ≠ NvTimeout ∧ naive_step l w = Some w') as Hdone.
  { intros i Hi. exists (NvDone i). eexists. split; [done|]. unfold naive_step. rewrite Hm, Hi. simpl. done. }
  destruct (nv_mu w) as [i|] eqn:Hmu.
  - destruct (nv_askers w !! i) as [pc|] eqn:Hi; [|apply lookup_ge_None in Hi; pose proof (ni_owner _ Hw i Hmu); rewrite (ni_len _ Hw) in Hi; lia].
    pose proof (proj2 (ni_mu _ Hw _ _ Hi) Hmu) as Hc. destruct pc; try done; [by eapply Hgo|by eapply Hdone|by eapply Hgo].
  - destruct (decide (Forall (λ pc, pc = Finished) (nv_askers w))) as [Hall|Hex].
    + pose proof (ni_main _ Hw) as Hmain. rewrite Hm in Hmain.
      assert (trueCount w = 10) as Hten.
      { rewrite (ni_count _ Hw). unfold naive_counted. rewrite filter_all; [by rewrite (ni_len _ Hw)|].
        intros pc Hpc. rewrite Forall_forall in Hall. by rewrite (Hall _ Hpc). }
      rewrite Hten in Hmain. destruct Hmain as [_ [i Hi]]; [done|]. by eapply Hdone.
    + apply not_Forall_Exists in Hex; [|apply _]. apply Exists_exists in Hex as (pc & (i & Hi)%list_elem_of_lookup & Hpc).
      destruct pc; [by eapply Hgo| |by apply (ni_mu _ Hw) in Hi as [Hi _]; specialize (Hi eq_refl); congruence..|by destruct Hpc].
      eapply Hgo; [exact Hi|]. simpl. by rewrite Hmu.
Qed.

(** Both bounds are reached: a seventh answer is counted between the message and
    the print, and the timer fires while the sixth waits for its receiver. *)
Fixpoint naive_run (ls : list naive_label) (w : naive) : option naive :=
  match ls with [] => Some w | l :: ls => w ← naive_step l w; naive_run ls w end.
Definition answered (i : nat) : list naive_label := [NvGo i; NvGo i; NvGo i].
Definition five : list naive_label := mjoin ((λ i, answered i ++ [NvGo i]) <$> seq 0 5) ++ answered 5.

Example naive_done_seven :
  (w ← naive_run (five ++ [NvDone 5; NvGo 5] ++ answered 6 ++ [NvPrint]) naive_init; Some (nv_main w, nv_mu w)) = Some (Printed true 7, Some 6%nat).
Proof. reflexivity. Qed.
Example naive_timeout_six :
  (w ← naive_run (five ++ [NvTimeout; NvPrint]) naive_init; Some (nv_main w, nv_mu w)) = Some (Printed false 6, Some 5%nat).
Proof. reflexivity. Qed.
