(* ===== verification/Harness.v ===== *)
(** * What the four test harnesses (config.go) share

    A harness runs functions that can end the test: [verdict] is the outcome of
    such a function, [Fatal] when the test or the process is failed on purpose
    ([t.Fatalf], [log.Fatal]) and [Crash] when Go panics.  The names of the
    clients' ends are drawn at random; the draws are arguments.  The switches of
    labrpc's [Network] are read as an abstract set of links. *)
From Stdlib Require Import Strings.String Strings.Ascii Strings.Byte.
From S2P Require Import Prelude Persister GoString Labrpc.

(** ** Outcomes *)
Inductive verdict (A : Type) := Pass (a : A) | Fatal | Crash.
Arguments Pass {A} _.
Arguments Fatal {A}.
Arguments Crash {A}.

#[export] Instance verdict_ret : MRet verdict := @Pass.
#[export] Instance verdict_bind : MBind verdict := λ A B f v,
  match v with Pass a => f a | Fatal => Fatal | Crash => Crash end.

(** A run-time panic, and an index out of range. *)
Definition or_crash {A} (o : option A) : verdict A := match o with Some a => Pass a | None => Crash end.
Definition or_fatal {A} (o : option A) : verdict A := match o with Some a => Pass a | None => Fatal end.
Definition at_ {A} (l : list A) (i : Z) : verdict A := or_crash (go_index l i).
Definition put {A} (l : list A) (i : Z) (x : A) : verdict (list A) := or_crash (go_set l i x).

(** [for _, x := range l { ... }] over a state. *)
Fixpoint foreach {A S} (l : list A) (f : A → S → verdict S) (s : S) : verdict S :=
  match l with
  | [] => Pass s
  | x :: l => s ← f x s; foreach l f s
  end.

(** [for j := 0; j < n; j++]. *)
Definition upto (n : nat) : list Z := seqZ 0 (Z.of_nat n).

(** ** Random names *)
Definition base64url : string := "ABCDEFGHIJKLMNOPQRSTUVWXYZabcdefghijklmnopqrstuvwxyz0123456789-_".
Definition sextet (k : N) : ascii := default "="%char (String.get (N.to_nat k) base64url).
Definition octet (b : byte) : N := Byte.to_N b.

(** [base64.URLEncoding.EncodeToString]. *)
Fixpoint EncodeToString (bs : list byte) : string :=
  match bs with
  | b0 :: b1 :: b2 :: bs =>
      let v := (octet b0 * 65536 + octet b1 * 256 + octet b2)%N in
      String (sextet (v / 262144)) (String (sextet (v / 4096 mod 64))
        (String (sextet (v / 64 mod 64)) (String (sextet (v mod 64)) (EncodeToString bs))))
  | [b0; b1] =>
      let v := (octet b0 * 65536 + octet b1 * 256)%N in
      String (sextet (v / 262144)) (String (sextet (v / 4096 mod 64)) (String (sextet (v / 64 mod 64)) "="))
  | [b0] =>
      let v := (octet b0 * 65536)%N in
      String (sextet (v / 262144)) (String (sextet (v / 4096 mod 64)) "==")
  | [] => ""
  end.

(** [b] is what [crand.Read] left in the [2*n] bytes; slicing past the end of
    the string panics. *)
Definition randstring (n : nat) (b : list byte) : verdict string :=
  let s := EncodeToString b in
  if decide (n ≤ String.length s)%nat then Pass (substring 0 n s) else Crash.

(** [random_handles]: [draws] are the results of [rand.Intn(i + 1)]. *)
Definition swap {A} (i j : Z) (sa : list A) : verdict (list A) :=
  x ← at_ sa i; y ← at_ sa j; sa ← put sa i y; put sa j x.
Fixpoint shuffle {A} (i : Z) (draws : list Z) (sa : list A) : verdict (list A) :=
  match draws with
  | [] => Pass sa
  | j :: draws => sa ← swap i j sa; shuffle (i + 1) draws sa
  end.
Definition random_handles {A} (draws : list Z) (kvh : list A) : verdict (list A) :=
  shuffle 0 (take (length kvh) draws) kvh.

(** [checkTimeout]: [elapsed] is [time.Since(cfg.start)] in nanoseconds. *)
Definition second : Z := 1000000000.
Definition checkTimeout (failed : bool) (elapsed : Z) : verdict unit :=
  if negb failed && bool_decide (elapsed > 120 * second) then Fatal else Pass tt.

(** [cfg.saved[i]]: an object of the tester's own, or the one that the running
    server at [i] persists to. *)
Inductive saved_persister := Own (ps : Persister) | Shared.

(** ** The switches of the network *)

(** A server is known to the network by its number. *)
Definition srvname (j : Z) : string := Itoa j.

Definition EnableAll (names : list string) (on : bool) (n : Network) : Network :=
  foldl (λ n e, Enable e on n) n names.

(** [MakeEnd] and [Connect] for each end and the server it leads to. *)
Definition makeEnds (l : list (string * string)) (n : Network) : verdict Network :=
  foreach l (λ es n, n ← or_fatal (MakeEnd es.1 n); Pass (Connect es.1 es.2 n)) n.

(** Requests sent on the end [e] are handed to the server [p]. *)
Definition reaches (e : string) (p : positive) (n : Network) : Prop :=
  default false (enabled n !! e) = true ∧ ∃ s, connections n !! e = Some (Some s) ∧ server_at s n = Some p.

(** [cfg.endnames[i][j]]; a nil row is the empty one. *)
Definition end_of (endnames : list (list string)) (i j : Z) : verdict string :=
  row ← at_ endnames i; at_ row j.

(** ** Lemmas on outcomes *)
Section verdicts.
Context {A S : Type}.
Implicit Types (l : list A) (f : A → S → verdict S) (s : S).

Lemma bind_Pass {B T} (v : verdict B) (f : B → verdict T) y : v ≫= f = Pass y ↔ ∃ x, v = Pass x ∧ f x = Pass y.
Proof. destruct v; simpl; naive_solver. Qed.

Lemma or_crash_Pass {B} (o : option B) x : or_crash o = Pass x ↔ o = Some x.
Proof. destruct o; simpl; naive_solver. Qed.

Lemma or_fatal_Pass {B} (o : option B) x : or_fatal o = Pass x ↔ o = Some x.
Proof. destruct o; simpl; naive_solver. Qed.

Lemma at_Pass {B} (k : list B) i x : at_ k i = Pass x ↔ 0 ≤ i ∧ k !! Z.to_nat i = Some x.
Proof. unfold at_. by rewrite or_crash_Pass, go_index_lookup. Qed.

Lemma put_Pass {B} (k : list B) i x k' : put k i x = Pass k' ↔ 0 ≤ i < len k ∧ k' = <[Z.to_nat i := x]> k.
Proof.
  unfold put. rewrite or_crash_Pass. split; [apply go_set_inv|]. intros [Hi ->]. by apply go_set_Some.
Qed.

Lemma at_total {B} (k : list B) i : 0 ≤ i < len k → ∃ x, at_ k i = Pass x ∧ k !! Z.to_nat i = Some x.
Proof.
  intros Hi. destruct (lookup_lt_is_Some_2 k (Z.to_nat i)) as [x Hx]; [lia|]. exists x. split; [|done].
  apply at_Pass. split; [lia|done].
Qed.

Lemma put_total {B} (k : list B) i x : 0 ≤ i < len k → put k i x = Pass (<[Z.to_nat i := x]> k).
Proof. intros Hi. by apply put_Pass. Qed.

(** What every turn of a loop keeps, the loop keeps. *)
Lemma foreach_ind (I : S → Prop) l f s s' :
  (∀ x t t', x ∈ l → I t → f x t = Pass t' → I t') → I s → foreach l f s = Pass s' → I s'.
Proof.
  revert s. induction l as [|x l IH]; simpl; intros s Hf Hs; [by intros [= <-]|].
  rewrite bind_Pass. intros (t & Hx & Hl). eapply IH; [| |exact Hl].
  - intros y u u' Hy. apply Hf. by right.
  - eapply Hf; [left|done|done].
Qed.

(** A loop whose turns all pass, passes. *)
Lemma foreach_total (I : S → Prop) l f s :
  (∀ x t, x ∈ l → I t → ∃ t', f x t = Pass t' ∧ I t') → I s → ∃ s', foreach l f s = Pass s' ∧ I s'.
Proof.
  revert s. induction l as [|x l IH]; simpl; intros s Hf Hs; [by exists s|].
  destruct (Hf x s) as (t & -> & Ht); [left|done|]. simpl.
  apply IH; [|done]. intros y u Hy. apply Hf. by right.
Qed.

Lemma foreach_app l1 l2 f s : foreach (l1 ++ l2) f s = foreach l1 f s ≫= foreach l2 f.
Proof. revert s. induction l1 as [|x l1 IH]; intros s; simpl; [done|]. destruct (f x s); simpl; auto. Qed.

Lemma foreach_ext l f g s : (∀ x t, x ∈ l → f x t = g x t) → foreach l f s = foreach l g s.
Proof.
  revert s. induction l as [|x l IH]; intros s Hf; simpl; [done|]. rewrite Hf by left.
  destruct (g x s); simpl; auto. apply IH. intros y t Hy. apply Hf. by right.
Qed.
End verdicts.

Lemma elem_of_upto n i : i ∈ upto n ↔ 0 ≤ i < Z.of_nat n.
Proof. unfold upto. rewrite elem_of_seqZ. lia. Qed.

(** Invert a run that passed, down to its returns. *)
Ltac inv_pass H :=
  repeat (cbn beta iota zeta in H; match type of H with
  | _ ≫= _ = Pass _ => apply bind_Pass in H as (? & ? & H)
  | Pass _ = Pass _ => injection H as H; try subst
  | Fatal = Pass _ => discriminate H
  | Crash = Pass _ => discriminate H
  | match ?x with _ => _ end = Pass _ => destruct x eqn:?
  end).

(** ** Lemmas on the switches *)
Lemma EnableAll_enabled names on (n : Network) e :
  enabled (EnableAll names on n) !! e = if decide (e ∈ names) then Some on else enabled n !! e.
Proof.
  unfold EnableAll. revert n. induction names as [|x names IH]; intros n; [done|]. simpl foldl. rewrite IH. simpl.
  rewrite lookup_insert. repeat case_decide; set_solver.
Qed.

(** The tables that opening and closing ends leave alone. *)
Definition same_routes (n n' : Network) : Prop :=
  ends n' = ends n ∧ connections n' = connections n ∧ servers n' = servers n ∧ done n' = done n.

#[export] Instance same_routes_preorder : PreOrder same_routes.
Proof. split; [done|]. intros a b c (? & ? & ? & ?) (? & ? & ? & ?). repeat split; congruence. Qed.

Lemma EnableAll_routes names on (n : Network) : same_routes n (EnableAll names on n).
Proof.
  unfold EnableAll. revert n. induction names as [|x names IH]; intros n; simpl; [done|].
  etrans; [|apply IH]. done.
Qed.

Lemma EnableAll_app l1 l2 on (n : Network) : EnableAll (l1 ++ l2) on n = EnableAll l2 on (EnableAll l1 on n).
Proof. apply foldl_app. Qed.

(** A loop that switches the end of each of its indices, or none. *)
Lemma foreach_enable {A} (l : list A) (g : A → option string) on f (n : Network) :
  (∀ x n, x ∈ l → f x n = Pass (match g x with Some e => Enable e on n | None => n end)) →
  foreach l f n = Pass (EnableAll (omap g l) on n).
Proof.
  revert n. induction l as [|x l IH]; intros n Hf; simpl; [done|]. rewrite Hf by left. simpl.
  rewrite IH by (intros y m Hy; apply Hf; by right). by destruct (g x).
Qed.

(** [makeEnds] passes when the names are new and differ; the new ends are off
    and lead to their servers. *)
Record made (l : list (string * string)) (n n' : Network) : Prop := {
  md_nodup : NoDup l.*1;
  md_new e : e ∈ l.*1 → e ∉ ends n;
  md_ends e : e ∈ ends n' ↔ e ∈ l.*1 ∨ e ∈ ends n;
  md_enabled e : enabled n' !! e = if decide (e ∈ l.*1) then Some false else enabled n !! e;
  md_connected e s : (e, s) ∈ l → connections n' !! e = Some (Some s);
  md_other e : e ∉ l.*1 → connections n' !! e = connections n !! e;
  md_servers : servers n' = servers n;
}.

Lemma made_nil (n : Network) : made [] n n.
Proof. split; try done; [constructor|set_solver..]. Qed.

Lemma MakeEnd_Some e (n n' : Network) : MakeEnd e n = Some n' ↔ e ∉ ends n ∧
  n' = mkNetwork (reliable n) (longDelays n) (longReordering n) ({[e]} ∪ ends n) (<[e := false]> (enabled n))
         (servers n) (<[e := None]> (connections n)) (done n) (count n) (nbytes n).
Proof. unfold MakeEnd. case_decide; naive_solver. Qed.

Lemma made_cons e s l (n n1 n' : Network) : MakeEnd e n = Some n1 → made l (Connect e s n1) n' → made ((e, s) :: l) n n'.
Proof.
  intros [He ->]%MakeEnd_Some [Hnd Hnew Hends Hen Hc Ho Hs]; simpl in *. split; simpl.
  - constructor; [|done]. intros Hin. apply (Hnew _ Hin). set_solver.
  - intros x [->|Hx]%elem_of_cons; [done|]. specialize (Hnew x Hx). set_solver.
  - intros x. rewrite Hends. set_solver.
  - intros x. rewrite Hen, lookup_insert. repeat case_decide; set_solver.
  - intros x t [[= -> ->]|Hx]%elem_of_cons; [|by apply Hc].
    rewrite Ho; [by rewrite lookup_insert_eq|]. intros Hin. apply (Hnew _ Hin). set_solver.
  - intros x [Hne Hx]%not_elem_of_cons. rewrite Ho by done. by rewrite !lookup_insert_ne.
  - done.
Qed.

Lemma makeEnds_made l (n n' : Network) : makeEnds l n = Pass n' → made l n n'.
Proof.
  unfold makeEnds. revert n. induction l as [|[e s] l IH]; cbn [foreach]; intros n.
  { intros [= <-]. apply made_nil. }
  rewrite bind_Pass. intros (n1 & (n2 & Hm%or_fatal_Pass & [= <-])%bind_Pass & Hl). eapply made_cons; [done|by apply IH].
Qed.

Lemma makeEnds_total l (n : Network) : NoDup l.*1 → (∀ e, e ∈ l.*1 → e ∉ ends n) → ∃ n', makeEnds l n = Pass n'.
Proof.
  unfold makeEnds. revert n. induction l as [|[e s] l IH]; cbn [foreach]; intros n Hnd Hnew; [by eexists|].
  apply NoDup_cons in Hnd as [He Hnd]. cbn [mbind verdict_bind fst snd].
  erewrite (proj2 (MakeEnd_Some e n _)) by (split; [apply Hnew; left|reflexivity]). cbn.
  apply IH; [done|]. intros x Hx. cbn. apply not_elem_of_union. split; [set_solver|]. apply Hnew. by right.
Qed.

(** The row of ends that [makeEnds] is given for a server. *)
Lemma zip_row_fst n (names : Z → string) : (zip (names <$> upto n) (srvname <$> upto n)).*1 = names <$> upto n.
Proof. by induction (upto n) as [|j l IH]; simpl; [|f_equal]. Qed.

(** What a client observes of an end: its requests are accepted exactly when it
    leads to a server, and the network does not drop them. *)
Lemma accepts_reaches req drop (n : Network) s p :
  processReq_start req drop n = Some (s, p) →
  reaches (rq_endname req) p n ∧ connections n !! rq_endname req = Some (Some s).
Proof.
  unfold processReq_start, readEndnameInfo, reaches. destruct (default false _); [|done].
  destruct (connections n !! rq_endname req) as [[s'|]|] eqn:Hc; simpl; [|done..].
  destruct (server_at s' n) eqn:Hs; [|done]. destruct (negb _ && _); [done|]. intros [= <- <-].
  split; [|done]. split; [done|]. by exists s'.
Qed.

(** ** A matrix of ends *)
Definition is_on (e : string) (net : Network) : bool := default false (enabled net !! e).
Definition name_of (E : list (list string)) (p : Z * Z) : option string :=
  match end_of E p.1 p.2 with Pass e => Some e | _ => None end.

(** No name is in two places. *)
Definition names_differ (E : list (list string)) : Prop :=
  ∀ i j i' j' e, end_of E i j = Pass e → end_of E i' j' = Pass e → i = i' ∧ j = j'.

Lemma end_of_Some E i j e : end_of E i j = Pass e ↔ ∃ row, at_ E i = Pass row ∧ at_ row j = Pass e.
Proof. unfold end_of. by rewrite bind_Pass. Qed.

(** After switching the ends of some pairs, exactly their links have changed. *)
Lemma enable_pairs_link E ps on (net : Network) a b e : names_differ E → end_of E a b = Pass e →
  is_on e (EnableAll (omap (name_of E) ps) on net) = if decide ((a, b) ∈ ps) then on else is_on e net.
Proof.
  intros Hd He. unfold is_on. rewrite EnableAll_enabled. case_decide as Hin; case_decide as Hab; try done.
  - destruct Hab. apply list_elem_of_omap in Hin as ([i j] & Hp & Hn). unfold name_of in Hn. simpl in Hn.
    destruct (end_of _ i j) as [e'| |] eqn:Hij; simplify_eq. by destruct (Hd _ _ _ _ _ He Hij) as [-> ->].
  - destruct Hin. apply list_elem_of_omap. exists (a, b). split; [done|]. unfold name_of. simpl. by rewrite He.
Qed.

(** The order in which a clerk tries its servers holds each of them once. *)
Lemma shuffle_perm {A} i draws (sa sa' : list A) : shuffle i draws sa = Pass sa' → sa' ≡ₚ sa.
Proof.
  revert i sa. induction draws as [|j draws IH]; simpl; intros i sa; [by intros [= <-]|].
  rewrite bind_Pass. intros (sb & Hsw & ->%IH). unfold swap in Hsw.
  repeat (apply bind_Pass in Hsw as (? & ? & Hsw)).
  repeat match goal with
  | H : at_ _ _ = _ |- _ => apply at_Pass in H as [? ?]
  | H : put _ _ _ = _ |- _ => apply put_Pass in H as [? ->] end.
  by apply Permutation_insert_swap.
Qed.
