(* ===== verification/Tester.v ===== *)
(** * The tester of the OmniPaxos peers: a2-omnipaxos/config.go

    [config] is the struct of the source: the peers under test, the network
    they talk over, what each of them has applied.  Its methods start, crash,
    attach and detach peers, check every [ApplyMsg] as it arrives, and wait for
    agreement.  A method that can fail the test returns a [verdict]. *)
From Stdlib Require Import Strings.String Strings.Ascii Strings.Byte.
From S2P Require Import Prelude Ballot Messages Persister OmniPaxos Labrpc Harness.

(** [logEntry]: the command of the zero value is nil. *)
Record logEntry (C : Type) := mkLogEntry { valid : bool; command : option C }.
Arguments mkLogEntry {C} _ _.
Arguments valid {C} _.
Arguments command {C} _.
#[export] Instance logEntry_eq_dec `{EqDecision C} : EqDecision (logEntry C).
Proof. solve_decision. Defined.

(** An instance is dropped from the model once [crash1] has killed it: its ends
    stay switched off, and what it sends to [applyCh] is not read any more.  A
    nil row of [endnames] is the empty one; an element of [stopCh] is nil or
    says whether it is closed. *)
Record config (C : Type) := mkConfig {
  cf_net : Network;
  cf_n : nat;
  cf_paxos : list (option (OmniPaxos C));
  cf_connected : list bool;
  cf_saved : list (option saved_persister);
  cf_endnames : list (list string);
  cf_logs : list (gmap Z (logEntry C));
  cf_didRecv : list bool;
  cf_nextIndex : list Z;
  cf_numCommands : list Z;
  cf_rpcs0 : Z;
  cf_bytes0 : Z;
  cf_maxIndex : Z;
  cf_maxIndex0 : Z;
  cf_stopCh : list (option bool);
}.
Arguments mkConfig {C} _ _ _ _ _ _ _ _ _ _ _ _ _ _ _.
Arguments cf_net {C} _.
Arguments cf_n {C} _.
Arguments cf_paxos {C} _.
Arguments cf_connected {C} _.
Arguments cf_saved {C} _.
Arguments cf_endnames {C} _.
Arguments cf_logs {C} _.
Arguments cf_didRecv {C} _.
Arguments cf_nextIndex {C} _.
Arguments cf_numCommands {C} _.
Arguments cf_rpcs0 {C} _.
Arguments cf_bytes0 {C} _.
Arguments cf_maxIndex {C} _.
Arguments cf_maxIndex0 {C} _.
Arguments cf_stopCh {C} _.

(** ** Field updates *)
Section setters.
Context {C : Type}.
Implicit Types cfg : config C.

Definition set_net x cfg : config C := mkConfig x (cf_n cfg) (cf_paxos cfg) (cf_connected cfg) (cf_saved cfg) (cf_endnames cfg) (cf_logs cfg) (cf_didRecv cfg) (cf_nextIndex cfg) (cf_numCommands cfg) (cf_rpcs0 cfg) (cf_bytes0 cfg) (cf_maxIndex cfg) (cf_maxIndex0 cfg) (cf_stopCh cfg).
Definition set_paxos x cfg : config C := mkConfig (cf_net cfg) (cf_n cfg) x (cf_connected cfg) (cf_saved cfg) (cf_endnames cfg) (cf_logs cfg) (cf_didRecv cfg) (cf_nextIndex cfg) (cf_numCommands cfg) (cf_rpcs0 cfg) (cf_bytes0 cfg) (cf_maxIndex cfg) (cf_maxIndex0 cfg) (cf_stopCh cfg).
Definition set_connected x cfg : config C := mkConfig (cf_net cfg) (cf_n cfg) (cf_paxos cfg) x (cf_saved cfg) (cf_endnames cfg) (cf_logs cfg) (cf_didRecv cfg) (cf_nextIndex cfg) (cf_numCommands cfg) (cf_rpcs0 cfg) (cf_bytes0 cfg) (cf_maxIndex cfg) (cf_maxIndex0 cfg) (cf_stopCh cfg).
Definition set_saved x cfg : config C := mkConfig (cf_net cfg) (cf_n cfg) (cf_paxos cfg) (cf_connected cfg) x (cf_endnames cfg) (cf_logs cfg) (cf_didRecv cfg) (cf_nextIndex cfg) (cf_numCommands cfg) (cf_rpcs0 cfg) (cf_bytes0 cfg) (cf_maxIndex cfg) (cf_maxIndex0 cfg) (cf_stopCh cfg).
Definition set_endnames x cfg : config C := mkConfig (cf_net cfg) (cf_n cfg) (cf_paxos cfg) (cf_connected cfg) (cf_saved cfg) x (cf_logs cfg) (cf_didRecv cfg) (cf_nextIndex cfg) (cf_numCommands cfg) (cf_rpcs0 cfg) (cf_bytes0 cfg) (cf_maxIndex cfg) (cf_maxIndex0 cfg) (cf_stopCh cfg).
Definition set_logs x cfg : config C := mkConfig (cf_net cfg) (cf_n cfg) (cf_paxos cfg) (cf_connected cfg) (cf_saved cfg) (cf_endnames cfg) x (cf_didRecv cfg) (cf_nextIndex cfg) (cf_numCommands cfg) (cf_rpcs0 cfg) (cf_bytes0 cfg) (cf_maxIndex cfg) (cf_maxIndex0 cfg) (cf_stopCh cfg).
Definition set_didRecv x cfg : config C := mkConfig (cf_net cfg) (cf_n cfg) (cf_paxos cfg) (cf_connected cfg) (cf_saved cfg) (cf_endnames cfg) (cf_logs cfg) x (cf_nextIndex cfg) (cf_numCommands cfg) (cf_rpcs0 cfg) (cf_bytes0 cfg) (cf_maxIndex cfg) (cf_maxIndex0 cfg) (cf_stopCh cfg).
Definition set_nextIndex x cfg : config C := mkConfig (cf_net cfg) (cf_n cfg) (cf_paxos cfg) (cf_connected cfg) (cf_saved cfg) (cf_endnames cfg) (cf_logs cfg) (cf_didRecv cfg) x (cf_numCommands cfg) (cf_rpcs0 cfg) (cf_bytes0 cfg) (cf_maxIndex cfg) (cf_maxIndex0 cfg) (cf_stopCh cfg).
Definition set_numCommands x cfg : config C := mkConfig (cf_net cfg) (cf_n cfg) (cf_paxos cfg) (cf_connected cfg) (cf_saved cfg) (cf_endnames cfg) (cf_logs cfg) (cf_didRecv cfg) (cf_nextIndex cfg) x (cf_rpcs0 cfg) (cf_bytes0 cfg) (cf_maxIndex cfg) (cf_maxIndex0 cfg) (cf_stopCh cfg).
Definition set_rpcs0 x cfg : config C := mkConfig (cf_net cfg) (cf_n cfg) (cf_paxos cfg) (cf_connected cfg) (cf_saved cfg) (cf_endnames cfg) (cf_logs cfg) (cf_didRecv cfg) (cf_nextIndex cfg) (cf_numCommands cfg) x (cf_bytes0 cfg) (cf_maxIndex cfg) (cf_maxIndex0 cfg) (cf_stopCh cfg).
Definition set_bytes0 x cfg : config C := mkConfig (cf_net cfg) (cf_n cfg) (cf_paxos cfg) (cf_connected cfg) (cf_saved cfg) (cf_endnames cfg) (cf_logs cfg) (cf_didRecv cfg) (cf_nextIndex cfg) (cf_numCommands cfg) (cf_rpcs0 cfg) x (cf_maxIndex cfg) (cf_maxIndex0 cfg) (cf_stopCh cfg).
Definition set_maxIndex x cfg : config C := mkConfig (cf_net cfg) (cf_n cfg) (cf_paxos cfg) (cf_connected cfg) (cf_saved cfg) (cf_endnames cfg) (cf_logs cfg) (cf_didRecv cfg) (cf_nextIndex cfg) (cf_numCommands cfg) (cf_rpcs0 cfg) (cf_bytes0 cfg) x (cf_maxIndex0 cfg) (cf_stopCh cfg).
Definition set_maxIndex0 x cfg : config C := mkConfig (cf_net cfg) (cf_n cfg) (cf_paxos cfg) (cf_connected cfg) (cf_saved cfg) (cf_endnames cfg) (cf_logs cfg) (cf_didRecv cfg) (cf_nextIndex cfg) (cf_numCommands cfg) (cf_rpcs0 cfg) (cf_bytes0 cfg) (cf_maxIndex cfg) x (cf_stopCh cfg).
Definition set_stopCh x cfg : config C := mkConfig (cf_net cfg) (cf_n cfg) (cf_paxos cfg) (cf_connected cfg) (cf_saved cfg) (cf_endnames cfg) (cf_logs cfg) (cf_didRecv cfg) (cf_nextIndex cfg) (cf_numCommands cfg) (cf_rpcs0 cfg) (cf_bytes0 cfg) (cf_maxIndex cfg) (cf_maxIndex0 cfg) x.
End setters.

(** ** Attaching and detaching peers *)
Section links.
Context {C : Type}.
Implicit Types cfg : config C.

(** [cfg.net.Enable(cfg.endnames[i][j], on)]. *)
Definition switch (on : bool) (i j : Z) cfg : verdict (config C) :=
  e ← end_of (cf_endnames cfg) i j; Pass (set_net (Enable e on (cf_net cfg)) cfg).

(** [cfg.endnames[i] != nil]. *)
Definition has_ends (i : Z) cfg : verdict bool :=
  row ← at_ (cf_endnames cfg) i; Pass (match row with [] => false | _ => true end).

Definition connect (i : Z) cfg : verdict (config C) :=
  up ← put (cf_connected cfg) i true;
  let cfg := set_connected up cfg in
  (* outgoing ClientEnds *)
  cfg ← foreach (upto (cf_n cfg)) (λ j cfg, cj ← at_ (cf_connected cfg) j; if cj : bool then switch true i j cfg else Pass cfg) cfg;
  (* incoming ClientEnds *)
  foreach (upto (cf_n cfg)) (λ j cfg, cj ← at_ (cf_connected cfg) j; if cj : bool then switch true j i cfg else Pass cfg) cfg.

Definition disconnect (i : Z) cfg : verdict (config C) :=
  up ← put (cf_connected cfg) i false;
  let cfg := set_connected up cfg in
  cfg ← foreach (upto (cf_n cfg)) (λ j cfg, h ← has_ends i cfg; if h : bool then switch false i j cfg else Pass cfg) cfg;
  foreach (upto (cf_n cfg)) (λ j cfg, h ← has_ends j cfg; if h : bool then switch false j i cfg else Pass cfg) cfg.

Definition partiallyDisconnect (i : Z) (serversToDisconnectFrom : list Z) cfg : verdict (config C) :=
  cfg ← foreach serversToDisconnectFrom (λ server cfg,
    h ← has_ends i cfg; if h : bool then switch false i server cfg else Pass cfg) cfg;
  foreach serversToDisconnectFrom (λ server cfg,
    h ← has_ends server cfg; if h : bool then switch false server i cfg else Pass cfg) cfg.

(** The body of its first loop, which marks the server as attached, too. *)
Definition connect_out (i server : Z) cfg : verdict (config C) :=
  up ← put (cf_connected cfg) server true;
  let cfg := set_connected up cfg in
  cs ← at_ (cf_connected cfg) server;
  if cs : bool then switch true i server cfg else Pass cfg.

Definition partiallyConnect (i : Z) (serversToConnectTo : list Z) cfg : verdict (config C) :=
  up ← put (cf_connected cfg) i true;
  let cfg := set_connected up cfg in
  cfg ← foreach serversToConnectTo (connect_out i) cfg;
  foreach serversToConnectTo (λ server cfg,
    cs ← at_ (cf_connected cfg) server;
    if cs : bool then switch true server i cfg else Pass cfg) cfg.

(** [heap] holds the servers of the network. *)
Definition rpcCount {App} (heap : gmap positive (Server App)) (server : Z) cfg : verdict Z :=
  p ← or_crash (server_at (srvname server) (cf_net cfg)); rs ← or_crash (heap !! p); Pass (GetCount rs).
Definition rpcTotal cfg : Z := GetTotalCount (cf_net cfg).
Definition setunreliable (unrel : bool) cfg : config C := set_net (Reliable (negb unrel) (cf_net cfg)) cfg.
Definition bytesTotal cfg : Z := GetTotalBytes (cf_net cfg).
Definition setlongreordering (longrel : bool) cfg : config C := set_net (LongReordering longrel (cf_net cfg)) cfg.
End links.

(** ** What the peers have applied *)
Section applying.
Context {C : Type} `{EqDecision C} {codec : StateCodec C}.
Implicit Types cfg : config C.

Definition checkConsistency (server index : Z) (entry : logEntry C) cfg : verdict unit :=
  foreach (cf_logs cfg) (λ log _,
    match log !! index with
    | Some e => if decide (e ≠ entry) then Fatal else Pass tt
    | None => Pass tt
    end) tt.

Definition entry_of (m : ApplyMsg C) : logEntry C := mkLogEntry (CommandValid m) (Some (Command m)).

(** [apply]: the first message of a new instance may start the numbering at 1.
    A counter of entries of a log in memory stays far from the bounds of
    [int], and is not wrapped. *)
Definition first_message (server : Z) (m : ApplyMsg C) cfg : verdict (config C) :=
  rcv ← at_ (cf_didRecv cfg) server;
  if rcv : bool then Pass cfg else
  rcv ← put (cf_didRecv cfg) server true;
  let cfg := set_didRecv rcv cfg in
  if decide (CommandIndex m = 1) then
    next ← at_ (cf_nextIndex cfg) server;
    if decide (next ≠ 0) then Pass cfg
    else next ← put (cf_nextIndex cfg) server 1; Pass (set_nextIndex next cfg)
  else Pass cfg.

(** The rest of [apply]: the index, the other peers' entries, the copy. *)
Definition record_entry (server : Z) (m : ApplyMsg C) cfg : verdict (config C) :=
  next ← at_ (cf_nextIndex cfg) server;
  if decide (CommandIndex m ≠ next) then Fatal else
  nexts ← put (cf_nextIndex cfg) server (next + 1);
  let cfg := set_nextIndex nexts cfg in
  checkConsistency server (CommandIndex m) (entry_of m) cfg;;
  log ← at_ (cf_logs cfg) server;
  logs ← put (cf_logs cfg) server (<[CommandIndex m := entry_of m]> log);
  let cfg := set_logs logs cfg in
  let cfg := set_maxIndex (if decide (CommandIndex m > cf_maxIndex cfg) then CommandIndex m else cf_maxIndex cfg) cfg in
  if CommandValid m then
    k ← at_ (cf_numCommands cfg) server;
    ks ← put (cf_numCommands cfg) server (k + 1);
    Pass (set_numCommands ks cfg)
  else Pass cfg.

Definition apply_ (server : Z) (m : ApplyMsg C) cfg : verdict (config C) :=
  cfg ← first_message server m cfg; record_entry server m cfg.

(** [applier]: what its [select] finds, in order.  Once stopped, it goes on
    emptying the channel. *)
Inductive selected := Stopped | Received (m : ApplyMsg C) | Closed.

Fixpoint applier (server : Z) (evs : list selected) (stopped : bool) cfg : verdict (config C) :=
  match evs with
  | [] => Pass cfg
  | Stopped :: evs => applier server evs true cfg
  | Received m :: evs => cfg ← (if stopped then Pass cfg else apply_ server m cfg); applier server evs stopped cfg
  | Closed :: _ => Pass cfg
  end.

Fixpoint checkCommitted_in (logs : list (gmap Z (logEntry C))) (index : Z) (cmd : C) : verdict unit :=
  match logs with
  | [] => Fatal
  | log :: logs =>
      match log !! index with
      | Some e =>
          if negb (valid e) then Fatal
          else if decide (command e ≠ Some cmd) then Fatal
          else Pass tt
      | None => checkCommitted_in logs index cmd
      end
  end.
Definition checkCommitted (index : Z) (cmd : C) cfg : verdict unit := checkCommitted_in (cf_logs cfg) index cmd.

(** ** Starting and crashing peers *)

(** What the persister [cfg.saved[i]] points to holds. *)
Definition content (i : Z) (sp : saved_persister) cfg : verdict Persister :=
  match sp with
  | Own ps => Pass ps
  | Shared => rf ← at_ (cf_paxos cfg) i; op ← or_crash rf; Pass (op_persister op)
  end.

(** [if cfg.saved[i] != nil { cfg.saved[i] = f(cfg.saved[i]) }] *)
Definition renew (f : Persister → Persister) (i : Z) cfg : verdict (config C) :=
  sp ← at_ (cf_saved cfg) i;
  match sp with
  | Some sp =>
      ps ← content i sp cfg;
      saved ← put (cf_saved cfg) i (Some (Own (f ps)));
      Pass (set_saved saved cfg)
  | None => Pass cfg
  end.

(** The instance at [i] is stopped and forgotten. *)
Definition kill (i : Z) cfg : verdict (config C) :=
  rf ← at_ (cf_paxos cfg) i;
  match rf with
  | Some rf =>
      closed ← at_ (cf_stopCh cfg) i;
      match closed with
      | Some false =>
          chs ← put (cf_stopCh cfg) i (Some true);
          let rf := Kill rf in
          paxos ← put (cf_paxos cfg) i None;
          Pass (set_paxos paxos (set_stopCh chs cfg))
      | _ => Crash
      end
  | None => Pass cfg
  end.

Definition crash1 (i : Z) cfg : verdict (config C) :=
  cfg ← disconnect i cfg;
  let cfg := set_net (DeleteServer (srvname i) (cf_net cfg)) cfg in
  cfg ← renew Copy i cfg;
  cfg ← kill i cfg;
  renew (λ ps, SaveStateAndSnapshot (ReadOmnipaxosState ps) (ReadSnapshot ps) (mkPersister [] [])) i cfg.

(** The fresh set of ends: [names j] is the [j]-th draw of [randstring(20)]. *)
Definition new_ends (i : Z) (names : Z → string) cfg : verdict (config C) :=
  let row := names <$> upto (cf_n cfg) in
  rows ← put (cf_endnames cfg) i row;
  net ← makeEnds (zip row (srvname <$> upto (cf_n cfg))) (cf_net cfg);
  Pass (set_net net (set_endnames rows cfg)).

(** The fresh persister, with what was persisted last. *)
Definition last_persisted (i : Z) cfg : verdict Persister :=
  sp ← at_ (cf_saved cfg) i;
  match sp with
  | Some sp => ps ← content i sp cfg; Pass (Copy ps)
  | None => Pass MakePersister
  end.

(** The new instance is in place, and reachable as the server [srv]. *)
Definition put_instance (i : Z) (rf : OmniPaxos C) (srv : positive) cfg : verdict (config C) :=
  saved ← put (cf_saved cfg) i (Some Shared);
  paxos ← put (cf_paxos cfg) i (Some rf);
  rcv ← put (cf_didRecv cfg) i false;
  let cfg := set_didRecv rcv (set_paxos paxos (set_saved saved cfg)) in
  Pass (set_net (AddServer (srvname i) srv (cf_net cfg)) cfg).

(** [Make] sends the decided prefix again before it returns; the applier has
    handled [k] of the messages when [didRecv] is reset, and the others are the
    second result. *)
Definition start1 (i : Z) (names : Z → string) (srv : positive) (k : nat) cfg :
    verdict (config C * list (ApplyMsg C)) :=
  cfg ← crash1 i cfg;
  cfg ← new_ends i names cfg;
  next ← put (cf_nextIndex cfg) i 0;
  let cfg := set_nextIndex next cfg in
  ps ← last_persisted i cfg;
  chs ← put (cf_stopCh cfg) i (Some false);
  let cfg := set_stopCh chs cfg in
  '(rf, es) ← or_crash (Make (cf_n cfg) i ps);
  cfg ← foreach (take k (applied es)) (apply_ i) cfg;
  cfg ← put_instance i rf srv cfg;
  Pass (cfg, drop k (applied es)).
End applying.

(** ** The life of a test *)
Section life.
Context {C : Type} `{EqDecision C} {codec : StateCodec C}.
Implicit Types cfg : config C.

Definition zero_config (n : nat) : config C :=
  mkConfig MakeNetwork n (replicate n None) (replicate n false) (replicate n None) (replicate n []) (replicate n ∅)
    (replicate n false) (replicate n 0) (replicate n 0) 0 0 0 0 (replicate n None).

Definition new_config (n : nat) (unreliable : bool) : config C :=
  let cfg := setunreliable unreliable (zero_config n) in
  set_net (LongDelays false (cf_net cfg)) cfg.

(** [names i j] and [srvs i] are the draws of [start1(i)]; the persisters are
    empty, so [Make] sends nothing. *)
Definition start_body (names : Z → Z → string) (srvs : Z → positive) (i : Z) cfg : verdict (config C) :=
  '(cfg, _) ← start1 i (names i) (srvs i) 0 cfg; Pass cfg.

Definition makeConfig (n : nat) (unreliable : bool) (names : Z → Z → string) (srvs : Z → positive) : verdict (config C) :=
  cfg ← foreach (upto n) (start_body names srvs) (new_config n unreliable);
  foreach (upto n) connect cfg.

(** [elapsed] is the time since [makeConfig]; an element of [cfg.paxos] is nil
    or is killed. *)
Definition cleanup (failed : bool) (elapsed : Z) cfg : verdict (config C) :=
  let cfg := set_paxos (option_map Kill <$> cf_paxos cfg) cfg in
  net ← or_crash (Cleanup (cf_net cfg));
  checkTimeout failed elapsed;;
  Pass (set_net net cfg).

(** [cfg.paxos[i].GetState()]. *)
Definition getState (i : Z) cfg : verdict (Z * bool) :=
  rf ← at_ (cf_paxos cfg) i; op ← or_crash rf; Pass (GetState op).

(** One turn of the loop of [checkOneLeader]: [obs i] is the state when peer
    [i] is asked.  A map is visited in some order; whether a ballot has two
    leaders and which ballot is the last does not depend on it. *)
Definition leaders_seen (n : nat) (obs : Z → config C) : verdict (gmap Z (list Z)) :=
  foreach (upto n) (λ i leaders,
    up ← at_ (cf_connected (obs i)) i;
    if up : bool then
      '(ballot, leader) ← getState i (obs i);
      if leader : bool then Pass (<[ballot := default [] (leaders !! ballot) ++ [i]]> leaders) else Pass leaders
    else Pass leaders) ∅.

Definition checkOneLeader_turn (n : nat) (obs : Z → config C) : verdict (option Z) :=
  leaders ← leaders_seen n obs;
  if existsb (λ bl, bool_decide (1 < length bl.2)%nat) (map_to_list leaders) then Fatal else
  let last := foldr Z.max (-1) (map_to_list leaders).*1 in
  if decide (leaders = ∅) then Pass None
  else l ← at_ (default [] (leaders !! last)) 0; Pass (Some l).

Fixpoint checkOneLeader_loop (iters : nat) (n : nat) (obs : nat → Z → config C) : verdict Z :=
  match iters with
  | O => Fatal
  | S iters =>
      l ← checkOneLeader_turn n (obs 0%nat);
      match l with Some l => Pass l | None => checkOneLeader_loop iters n (λ k, obs (S k)) end
  end.
Definition checkOneLeader (n : nat) (obs : nat → Z → config C) : verdict Z := checkOneLeader_loop 10 n obs.

Definition checkballots (n : nat) (obs : Z → config C) : verdict Z :=
  foreach (upto n) (λ i ballot,
    up ← at_ (cf_connected (obs i)) i;
    if up : bool then
      '(xballot, _) ← getState i (obs i);
      if decide (ballot = -1) then Pass xballot
      else if decide (ballot ≠ xballot) then Fatal else Pass ballot
    else Pass ballot) (-1).

Definition checkNoLeader (n : nat) (obs : Z → config C) : verdict unit :=
  foreach (upto n) (λ i _,
    up ← at_ (cf_connected (obs i)) i;
    if up : bool then
      '(_, isLeader) ← getState i (obs i);
      if isLeader : bool then Fatal else Pass tt
    else Pass tt) tt.

(** [nCommitted] takes the lock for each peer: [obs i] is the state then. *)
Definition zeroEntry : logEntry C := mkLogEntry false None.
Definition nCommitted (len_paxos : nat) (index : Z) (obs : Z → config C) : verdict (Z * logEntry C) :=
  foreach (upto len_paxos) (λ i ce,
    log ← at_ (cf_logs (obs i)) i;
    nextIndex ← at_ (cf_nextIndex (obs i)) i;
    match log !! index with
    | Some e => if decide (nextIndex > index) then Pass (ce.1 + 1, e) else Pass ce
    | None => Pass ce
    end) (0, zeroEntry).

(** [if t, _ := p.GetState(); t > startballot { return }] over the peers. *)
Fixpoint moved_on (startballot : Z) (ps : list (option (OmniPaxos C))) : verdict bool :=
  match ps with
  | [] => Pass false
  | p :: ps => op ← or_crash p; if decide ((GetState op).1 > startballot) then Pass true else moved_on startballot ps
  end.

(** [wait]: [obs] are the states it sees, one after the other: a turn of the
    loop counts, sleeps, and asks the peers for their ballots. *)
Fixpoint wait_loop (iters : nat) (index n startballot : Z) (obs : nat → config C) : verdict (bool * logEntry C) :=
  let count (o : config C) := nCommitted (length (cf_paxos o)) index (λ _, o) in
  let finish (o : config C) := '(nd, e) ← count o; if decide (nd < n) then Fatal else Pass (true, e) in
  match iters with
  | O => finish (obs 0%nat)
  | S iters =>
      '(nd, _) ← count (obs 0%nat);
      if decide (nd >= n) then finish (obs 1%nat) else
      gone ← (if decide (startballot > -1) then moved_on startballot (cf_paxos (obs 1%nat)) else Pass false);
      if gone : bool then Pass (false, zeroEntry) else wait_loop iters index n startballot (λ k, obs (2 + k)%nat)
  end.
Definition wait (index n startballot : Z) (obs : nat → config C) : verdict (bool * logEntry C) :=
  wait_loop 30 index n startballot obs.

Definition begin cfg : config C :=
  set_maxIndex0 (cf_maxIndex cfg) (set_bytes0 (bytesTotal cfg) (set_rpcs0 (rpcTotal cfg) cfg)).

(** What [end] prints of the test: peers, calls, bytes, agreements. *)
Definition end_ (failed : bool) (elapsed : Z) cfg : verdict (option (nat * Z * Z * Z)) :=
  checkTimeout failed elapsed;;
  Pass (if failed then None else
    Some (cf_n cfg, rpcTotal cfg - cf_rpcs0 cfg, wrap64 (bytesTotal cfg - cf_bytes0 cfg), cf_maxIndex cfg - cf_maxIndex0 cfg)).

Definition LogSize cfg : verdict Z :=
  foreach (upto (cf_n cfg)) (λ i logsize,
    sp ← at_ (cf_saved cfg) i; sp ← or_crash sp; ps ← content i sp cfg;
    let n := OmnipaxosStateSize ps in
    Pass (if decide (n > logsize) then n else logsize)) 0.

Definition NumberOfGossipRPCs (n_servers : Z) : Z :=
  if decide (n_servers < 2) then 0 else wrap64 (n_servers * wrap64 (n_servers - 1)) `quot` 2.
End life.
