(* ===== verification/TesterLinks.v ===== *)
(** * The links of the tester are a matrix

    Attaching, detaching, crashing and starting peers in a2-omnipaxos/config.go
    work on the names of the ends of one network.  Seen from outside there is a
    link from each peer to each peer, up or down: every operation is an
    operation on that matrix, and an end of an instance that has been crashed is
    never switched on again. *)
From Stdlib Require Import Strings.String.
From S2P Require Import Prelude Ballot Messages Persister OmniPaxos GoString Labrpc Harness Tester.

(** ** The specification: who is attached, and who can call whom *)
Record matrix := mkMatrix { up : Z → bool; link : Z → Z → bool }.

Definition touches (i a b : Z) (P : Z → bool) : bool := bool_decide (a = i) && P b || bool_decide (b = i) && P a.
Definition set_links (on : bool) (P : Z → Z → bool) (m : Z → Z → bool) : Z → Z → bool :=
  λ a b, if P a b then on else m a b.
Definition mark (xs : list Z) (on : bool) (u : Z → bool) : Z → bool := λ a, if decide (a ∈ xs) then on else u a.

Definition spec_connect (i : Z) (m : matrix) : matrix :=
  let u := mark [i] true (up m) in mkMatrix u (set_links true (λ a b, touches i a b u) (link m)).
Definition spec_disconnect (i : Z) (m : matrix) : matrix :=
  mkMatrix (mark [i] false (up m)) (set_links false (λ a b, touches i a b (λ _, true)) (link m)).
Definition spec_partiallyDisconnect (i : Z) (l : list Z) (m : matrix) : matrix :=
  mkMatrix (up m) (set_links false (λ a b, touches i a b (λ x, bool_decide (x ∈ l))) (link m)).
Definition spec_partiallyConnect (i : Z) (l : list Z) (m : matrix) : matrix :=
  mkMatrix (mark (i :: l) true (up m)) (set_links true (λ a b, touches i a b (λ x, bool_decide (x ∈ l))) (link m)).

(** ** The tester's operations on links *)
Inductive link_op :=
  | LConnect (i : Z)
  | LDisconnect (i : Z)
  | LPartiallyDisconnect (i : Z) (l : list Z)
  | LPartiallyConnect (i : Z) (l : list Z)
  | LCrash (i : Z)
  | LStart (i : Z) (names : Z → string) (srv : positive) (k : nat).

Definition spec_op (o : link_op) : matrix → matrix :=
  match o with
  | LConnect i => spec_connect i
  | LDisconnect i | LCrash i | LStart i _ _ _ => spec_disconnect i
  | LPartiallyDisconnect i l => spec_partiallyDisconnect i l
  | LPartiallyConnect i l => spec_partiallyConnect i l
  end.

Section links.
Context {C : Type} `{EqDecision C} {codec : StateCodec C}.
Context (n : nat).
Implicit Types cfg : config C.

Definition link_run (o : link_op) cfg : verdict (config C) :=
  match o with
  | LConnect i => connect i cfg
  | LDisconnect i => disconnect i cfg
  | LPartiallyDisconnect i l => partiallyDisconnect i l cfg
  | LPartiallyConnect i l => partiallyConnect i l cfg
  | LCrash i => crash1 i cfg
  | LStart i names srv k => '(cfg, _) ← start1 i names srv k cfg; Pass cfg
  end.

Definition peer (i : Z) : Prop := 0 ≤ i < Z.of_nat n.

(** Peer [i] has been started: its row holds names. *)
Definition started (i : Z) cfg : Prop := ∃ row, at_ (cf_endnames cfg) i = Pass row ∧ row ≠ [].

Definition op_ok (o : link_op) cfg : Prop :=
  match o with
  | LConnect i => peer i ∧ started i cfg
  | LDisconnect i | LCrash i | LStart i _ _ _ => peer i
  | LPartiallyDisconnect i l | LPartiallyConnect i l => peer i ∧ started i cfg ∧ Forall (λ j, peer j ∧ started j cfg) l
  end.

(** The link from [i] to [j], as the network sees it. *)
Definition link_up cfg (i j : Z) : bool :=
  match end_of (cf_endnames cfg) i j with Pass e => is_on e (cf_net cfg) | _ => false end.

Record links_wf cfg : Prop := {
  lw_n : cf_n cfg = n;
  lw_connected : length (cf_connected cfg) = n;
  lw_rows : length (cf_endnames cfg) = n;
  lw_row i row : at_ (cf_endnames cfg) i = Pass row → row = [] ∨ length row = n;
  lw_started i : at_ (cf_connected cfg) i = Pass true → started i cfg;
  lw_inj i j i' j' e : end_of (cf_endnames cfg) i j = Pass e → end_of (cf_endnames cfg) i' j' = Pass e → i = i' ∧ j = j';
  lw_ends i j e : end_of (cf_endnames cfg) i j = Pass e →
    e ∈ ends (cf_net cfg) ∧ connections (cf_net cfg) !! e = Some (Some (srvname j));
  lw_stale e : is_on e (cf_net cfg) = true → ∃ i j, end_of (cf_endnames cfg) i j = Pass e;
}.

(** [cfg] shows the matrix [m]. *)
Definition shows cfg (m : matrix) : Prop :=
  (∀ i, peer i → at_ (cf_connected cfg) i = Pass (up m i)) ∧
  (∀ i j, peer i → peer j → link_up cfg i j = link m i j).

Lemma end_of_total cfg i j : links_wf cfg → started i cfg → peer j → ∃ e, end_of (cf_endnames cfg) i j = Pass e.
Proof.
  intros Hw (row & Hr & Hne) Hj. destruct (lw_row cfg Hw i row Hr) as [->|Hlen]; [done|].
  destruct (at_total row j) as (e & He & _); [by rewrite Hlen|].
  exists e. apply end_of_Some. eauto.
Qed.

Lemma end_of_started cfg i j e : end_of (cf_endnames cfg) i j = Pass e → started i cfg.
Proof. intros (row & Hr & [_ He]%at_Pass)%end_of_Some. exists row. split; [done|]. by intros ->. Qed.

Lemma started_dec cfg i : links_wf cfg → peer i → has_ends i cfg = Pass true ∧ started i cfg ∨ has_ends i cfg = Pass false ∧ ¬ started i cfg.
Proof.
  intros Hw Hi. unfold has_ends, started. destruct (at_total (cf_endnames cfg) i) as (row & -> & _).
  { by rewrite lw_rows. }
  simpl. destruct row as [|e row]; [right|left]; (split; [done|]).
  - by intros (r & [= <-] & ?).
  - by eexists.
Qed.

Lemma link_up_started cfg i j : link_up cfg i j = true → started i cfg.
Proof. unfold link_up. destruct (end_of _ i j) eqn:He; [|done..]. intros _. by eapply end_of_started. Qed.

(** ** Switching the ends of a list of pairs *)
Definition switch_pairs (on : bool) (ps : list (Z * Z)) cfg : config C :=
  set_net (EnableAll (omap (name_of (cf_endnames cfg)) ps) on (cf_net cfg)) cfg.

Lemma switch_pairs_app on l1 l2 cfg : switch_pairs on l2 (switch_pairs on l1 cfg) = switch_pairs on (l1 ++ l2) cfg.
Proof. unfold switch_pairs. simpl. by rewrite <-EnableAll_app, <-omap_app. Qed.

Lemma switch_pair on i j cfg e : end_of (cf_endnames cfg) i j = Pass e → switch on i j cfg = Pass (switch_pairs on [(i, j)] cfg).
Proof. intros He. unfold switch, switch_pairs, name_of. simpl. rewrite He. done. Qed.

(** Switching ends keeps the shape of the configuration. *)
Lemma links_wf_net cfg net' : links_wf cfg → same_routes (cf_net cfg) net' →
  (∀ e, is_on e net' = true → is_on e (cf_net cfg) = true ∨ ∃ i j, end_of (cf_endnames cfg) i j = Pass e) →
  links_wf (set_net net' cfg).
Proof.
  intros [? ? ? ? ? ? He Hs] (Hends & Hcon & _) Hon. split; simpl; try done.
  - intros i j e Hij. rewrite Hends, Hcon. by eapply He.
  - intros e [Ho|Ho]%Hon; [by apply Hs|done].
Qed.

Lemma switch_pairs_wf on ps cfg : links_wf cfg → links_wf (switch_pairs on ps cfg).
Proof.
  intros Hw. apply links_wf_net; [done|apply EnableAll_routes|]. intros e. unfold is_on.
  rewrite EnableAll_enabled. case_decide as Hin; [|by left]. intros _. right.
  apply list_elem_of_omap in Hin as ([i j] & _ & Hn). unfold name_of in Hn. simpl in Hn.
  exists i, j. by destruct (end_of _ i j); simplify_eq.
Qed.

(** After switching pairs, exactly their links have changed. *)
Lemma switch_pairs_link on ps cfg a b : links_wf cfg → started a cfg → peer b →
  link_up (switch_pairs on ps cfg) a b = if decide ((a, b) ∈ ps) then on else link_up cfg a b.
Proof.
  intros Hw Ha Hb. unfold link_up. simpl. destruct (end_of_total cfg a b Hw Ha Hb) as [e He]. rewrite He.
  apply enable_pairs_link; [exact (lw_inj cfg Hw)|done].
Qed.

(** The loops of the source: a turn switches the end of its pair when its
    condition holds. *)
Lemma loop_switch {A} on (l : list A) (P : A → bool) (f : A → Z * Z) body cfg :
  (∀ x cfg', x ∈ l → (∃ net', cfg' = set_net net' cfg) →
    body x cfg' = if P x then switch on (f x).1 (f x).2 cfg' else Pass cfg') →
  (∀ x, x ∈ l → P x = true → ∃ e, end_of (cf_endnames cfg) (f x).1 (f x).2 = Pass e) →
  foreach l body cfg = Pass (switch_pairs on (f <$> filter P l) cfg).
Proof.
  revert cfg. induction l as [|x l IH]; intros cfg Hb Hn; simpl.
  { unfold switch_pairs. simpl. by destruct cfg. }
  rewrite Hb; [|by left|exists (cf_net cfg); by destruct cfg].
  rewrite filter_cons. destruct (P x) eqn:HP; simpl.
  - destruct (Hn x ltac:(left) HP) as [e He]. rewrite (switch_pair on _ _ _ e He). simpl.
    rewrite IH.
    + rewrite switch_pairs_app. by destruct (f x).
    + intros y cfg' Hy [net' ->]. apply Hb; [by right|]. by exists net'.
    + intros y Hy HPy. simpl. apply Hn; [by right|done].
  - apply IH; [|by intros y Hy; apply Hn; right]. intros y cfg' Hy Hc. apply Hb; [by right|done].
Qed.

(** ** The pairs of peer [i] with the peers of [l] *)
Definition star (i : Z) (l : list Z) (P Q : Z → bool) : list (Z * Z) :=
  ((λ j, (i, j)) <$> filter P l) ++ ((λ j, (j, i)) <$> filter Q l).

Lemma elem_of_star i l P Q a b :
  (a, b) ∈ star i l P Q ↔ (a = i ∧ P b = true ∧ b ∈ l) ∨ (b = i ∧ Q a = true ∧ a ∈ l).
Proof.
  unfold star. rewrite elem_of_app, !list_elem_of_fmap. setoid_rewrite list_elem_of_filter.
  assert (∀ c : bool, c ↔ c = true) as Hb by (intros []; simpl; naive_solver).
  setoid_rewrite Hb. naive_solver.
Qed.

(** The two loops of an operation switch a star. *)
Lemma star_loops on i (l : list Z) (l2 : config C → list Z) (P Q : Z → bool) (body1 body2 : Z → config C → verdict (config C)) cfg :
  (∀ net', l2 (set_net net' cfg) = l) →
  (∀ j net', j ∈ l → body1 j (set_net net' cfg) = if P j then switch on i j (set_net net' cfg) else Pass (set_net net' cfg)) →
  (∀ j net', j ∈ l → body2 j (set_net net' cfg) = if Q j then switch on j i (set_net net' cfg) else Pass (set_net net' cfg)) →
  (∀ j, j ∈ l → P j = true → ∃ e, end_of (cf_endnames cfg) i j = Pass e) →
  (∀ j, j ∈ l → Q j = true → ∃ e, end_of (cf_endnames cfg) j i = Pass e) →
  (foreach l body1 cfg ≫= λ c, foreach (l2 c) body2 c) = Pass (switch_pairs on (star i l P Q) cfg).
Proof.
  intros Hl2 H1 H2 Hp Hq. rewrite (loop_switch on l P (λ j, (i, j))); [|intros j cfg' Hj [net' ->]; by apply H1|done]. simpl. unfold switch_pairs at 1. rewrite Hl2.
  rewrite (loop_switch on l Q (λ j, (j, i))); [by rewrite switch_pairs_app| |done].
  intros j cfg' Hj [net' ->]. unfold switch_pairs. by apply H2.
Qed.

Lemma at_insert {A} (l : list A) i j x : 0 ≤ i < len l → 0 ≤ j < len l →
  at_ (<[Z.to_nat i := x]> l) j = if decide (j = i) then Pass x else at_ l j.
Proof.
  intros Hi Hj. unfold at_, go_index. rewrite decide_True by lia. destruct (decide (j = i)) as [->|Hne].
  - by rewrite list_lookup_insert_eq by lia.
  - rewrite (decide_True (P := 0 ≤ j)) by lia. by rewrite list_lookup_insert_ne by lia.
Qed.

Lemma shows_up cfg m i : shows cfg m → peer i → at_ (cf_connected cfg) i = Pass (up m i).
Proof. intros [Hu _]. apply Hu. Qed.

(** A configuration that differs in who is attached. *)
Lemma links_wf_connected u cfg : links_wf cfg → length u = n →
  (∀ i, at_ u i = Pass true → started i cfg) → links_wf (set_connected u cfg).
Proof. intros [] Hu Hs. by split. Qed.

Lemma put_connected_wf i b cfg : links_wf cfg → peer i → (b = true → started i cfg) →
  links_wf (set_connected (<[Z.to_nat i := b]> (cf_connected cfg)) cfg).
Proof.
  intros Hw Hi Hs. apply links_wf_connected; [done|by rewrite length_insert, lw_connected|].
  intros j Hj. assert (peer j) as Hpj.
  { apply at_Pass in Hj as [? Hj%lookup_lt_Some]. rewrite length_insert, lw_connected in Hj by done. unfold peer. lia. }
  rewrite at_insert in Hj by (rewrite lw_connected; done). case_decide as He; [|by eapply lw_started].
  subst j. injection Hj as ->. by apply Hs.
Qed.

Lemma not_started_down a b cfg cfg1 : ¬ started a cfg → cf_endnames cfg1 = cf_endnames cfg → link_up cfg1 a b = false.
Proof.
  intros Hs He. destruct (link_up cfg1 a b) eqn:Hu; [|done]. destruct Hs. unfold started. rewrite <-He.
  by eapply link_up_started.
Qed.

(** Switching the pairs that touch peer [i] changes the matrix there. *)
Lemma star_links on i l P Q F cfg a b : links_wf cfg → peer a → peer b →
  (touches i a b F = true → started a cfg ∨ on = false) →
  (started a cfg → (a, b) ∈ star i l P Q ↔ touches i a b F = true) →
  link_up (switch_pairs on (star i l P Q) cfg) a b = set_links on (λ a b, touches i a b F) (link_up cfg) a b.
Proof.
  intros Hw Ha Hb Hs Hin. unfold set_links. destruct (started_dec cfg a Hw Ha) as [[_ Hsa]|[_ Hsa]].
  - rewrite switch_pairs_link by done. specialize (Hin Hsa). case_decide; destruct (touches _ _ _ _); naive_solver.
  - rewrite !(not_started_down a b cfg) by done. destruct (touches _ _ _ _); naive_solver.
Qed.

Lemma touches_true i a b F : touches i a b F = true ↔ (a = i ∧ F b = true) ∨ (b = i ∧ F a = true).
Proof. unfold touches. by rewrite orb_true_iff, !andb_true_iff, !bool_decide_eq_true. Qed.

Lemma disconnect_run i cfg : links_wf cfg → peer i → ∃ P Q,
  disconnect i cfg = Pass (switch_pairs false (star i (upto n) P Q) (set_connected (<[Z.to_nat i := false]> (cf_connected cfg)) cfg)) ∧
  (∀ j, peer j → P j = true ↔ started i cfg) ∧ (∀ j, peer j → Q j = true ↔ started j cfg).
Proof.
  intros Hw Hi. set (cfg1 := set_connected _ cfg).
  set (b j := match has_ends j cfg with Pass h => h | _ => false end).
  assert (∀ j, peer j → has_ends j cfg = Pass (b j) ∧ (b j = true ↔ started j cfg)) as Hb.
  { intros j Hj. unfold b. by destruct (started_dec cfg j Hw Hj) as [[-> ?]|[-> ?]]. }
  exists (λ _, b i), b. split; [|split; [by intros j _; apply Hb|by intros j Hj; apply Hb]].
  unfold disconnect. rewrite put_total by (by rewrite lw_connected). simpl. rewrite (lw_n cfg Hw). fold cfg1.
  apply star_loops with (l2 := λ c, upto (cf_n c)).
  - intros net'. simpl. by rewrite (lw_n cfg Hw).
  - intros j net' Hj%elem_of_upto. change (has_ends i (set_net net' cfg1)) with (has_ends i cfg).
    by rewrite (proj1 (Hb i Hi)).
  - intros j net' Hj%elem_of_upto. change (has_ends j (set_net net' cfg1)) with (has_ends j cfg).
    by rewrite (proj1 (Hb j Hj)).
  - intros j Hj%elem_of_upto Hs. apply (end_of_total cfg i j Hw); [by apply Hb|done].
  - intros j Hj%elem_of_upto Hs. apply (end_of_total cfg j i Hw); [by apply Hb|done].
Qed.

Lemma disconnect_shows i cfg cfg' m : links_wf cfg → peer i → shows cfg m → disconnect i cfg = Pass cfg' →
  links_wf cfg' ∧ shows cfg' (spec_disconnect i m).
Proof.
  intros Hw Hi [Hu Hl] Hd. destruct (disconnect_run i cfg Hw Hi) as (P & Q & Hr & HP & HQ).
  rewrite Hr in Hd. injection Hd as <-.
  assert (links_wf (set_connected (<[Z.to_nat i := false]> (cf_connected cfg)) cfg)) as Hw1 by by apply put_connected_wf.
  split; [by apply switch_pairs_wf|]. split.
  - intros j Hj. simpl. rewrite at_insert by (rewrite lw_connected; done). unfold mark. rewrite Hu by done.
    repeat case_decide; set_solver.
  - intros a b Ha Hb. simpl. rewrite star_links with (F := λ _, true); [|done..|by right|].
    + unfold set_links. by rewrite <-Hl.
    + intros Hs. rewrite elem_of_star, touches_true, !elem_of_upto. naive_solver.
Qed.

(** [cfg.connected[j]] as a function. *)
Definition is_up cfg (j : Z) : bool := match at_ (cf_connected cfg) j with Pass b => b | _ => false end.

Lemma is_up_at cfg j : links_wf cfg → peer j → at_ (cf_connected cfg) j = Pass (is_up cfg j).
Proof. intros Hw Hj. unfold is_up. by destruct (at_total (cf_connected cfg) j) as (x & -> & _); [rewrite lw_connected|]. Qed.

Lemma connect_run i cfg : links_wf cfg → peer i → started i cfg →
  let cfg1 := set_connected (<[Z.to_nat i := true]> (cf_connected cfg)) cfg in
  connect i cfg = Pass (switch_pairs true (star i (upto n) (is_up cfg1) (is_up cfg1)) cfg1).
Proof.
  intros Hw Hi Hs cfg1. assert (links_wf cfg1) as Hw1 by by apply put_connected_wf.
  unfold connect. rewrite put_total by (by rewrite lw_connected). simpl. rewrite (lw_n cfg Hw). fold cfg1.
  assert (∀ j, j ∈ upto n → is_up cfg1 j = true → started j cfg1) as Hsj.
  { intros j Hj%elem_of_upto Hu. apply (lw_started cfg1 Hw1). by rewrite is_up_at, Hu. }
  apply star_loops with (l2 := λ c, upto (cf_n c)).
  - intros net'. simpl. by rewrite (lw_n cfg Hw).
  - intros j net' Hj%elem_of_upto. change (cf_connected (set_net net' cfg1)) with (cf_connected cfg1). by rewrite is_up_at.
  - intros j net' Hj%elem_of_upto. change (cf_connected (set_net net' cfg1)) with (cf_connected cfg1). by rewrite is_up_at.
  - intros j Hj%elem_of_upto _. by apply end_of_total.
  - intros j Hj Hu. apply end_of_total; auto.
Qed.

Lemma put_shows i b cfg m j : links_wf cfg → shows cfg m → peer i → peer j →
  at_ (<[Z.to_nat i := b]> (cf_connected cfg)) j = Pass (mark [i] b (up m) j).
Proof.
  intros Hw [Hu _] Hi Hj. rewrite at_insert by (rewrite lw_connected; done). unfold mark. rewrite Hu by done.
  repeat case_decide; set_solver.
Qed.

Lemma connect_shows i cfg cfg' m : links_wf cfg → peer i → started i cfg → shows cfg m → connect i cfg = Pass cfg' →
  links_wf cfg' ∧ shows cfg' (spec_connect i m).
Proof.
  intros Hw Hi Hs Hm Hd. pose proof (connect_run i cfg Hw Hi Hs) as Hr. simpl in Hr.
  rewrite Hr in Hd. injection Hd as <-. set (cfg1 := set_connected _ cfg).
  assert (links_wf cfg1) as Hw1 by by apply put_connected_wf.
  assert (∀ j, peer j → is_up cfg1 j = mark [i] true (up m) j) as Hup.
  { intros j Hj. unfold is_up. simpl. by rewrite (put_shows i true cfg m). }
  split; [by apply switch_pairs_wf|]. split; [intros j Hj; by apply put_shows|].
  intros a b Ha Hb. simpl. rewrite star_links with (F := mark [i] true (up m)); [|done..| |].
  - unfold set_links. by rewrite <-(proj2 Hm).
  - intros [[-> _]|[-> Hu]]%touches_true; left; [done|]. apply (lw_started cfg1 Hw1).
    by rewrite is_up_at, Hup, Hu.
  - intros _. rewrite elem_of_star, touches_true, !elem_of_upto, !Hup by done. naive_solver.
Qed.

Lemma has_ends_started cfg i : links_wf cfg → peer i → started i cfg → has_ends i cfg = Pass true.
Proof. intros Hw Hi Hs. by destruct (started_dec cfg i Hw Hi) as [[-> _]|[_ ?]]. Qed.

Lemma partiallyDisconnect_run i l cfg : links_wf cfg → op_ok (LPartiallyDisconnect i l) cfg →
  partiallyDisconnect i l cfg = Pass (switch_pairs false (star i l (λ _, true) (λ _, true)) cfg).
Proof.
  intros Hw (Hi & Hs & Hl). rewrite Forall_forall in Hl. unfold partiallyDisconnect.
  apply star_loops with (l2 := λ _, l); [done| | | |];
    [| |intros j Hj _; apply end_of_total..]; try done; try (by apply Hl).
  - intros j net' _. change (has_ends i (set_net net' cfg)) with (has_ends i cfg). by rewrite has_ends_started.
  - intros j net' [Hj Hsj]%Hl. change (has_ends j (set_net net' cfg)) with (has_ends j cfg). by rewrite has_ends_started.
Qed.

Lemma partial_links on i l cfg a b : links_wf cfg → started i cfg → Forall (λ j, peer j ∧ started j cfg) l → peer a → peer b →
  link_up (switch_pairs on (star i l (λ _, true) (λ _, true)) cfg) a b =
    set_links on (λ a b, touches i a b (λ x, bool_decide (x ∈ l))) (link_up cfg) a b.
Proof.
  intros Hw Hs Hl Ha Hb. rewrite Forall_forall in Hl. apply star_links; [done..| |].
  - rewrite touches_true, !bool_decide_eq_true. intros [[-> _]|[_ ?%Hl]]; left; tauto.
  - intros _. rewrite elem_of_star, touches_true, !bool_decide_eq_true. naive_solver.
Qed.

Lemma partiallyDisconnect_shows i l cfg m : links_wf cfg → op_ok (LPartiallyDisconnect i l) cfg → shows cfg m →
  ∃ cfg', partiallyDisconnect i l cfg = Pass cfg' ∧ links_wf cfg' ∧ shows cfg' (spec_partiallyDisconnect i l m).
Proof.
  intros Hw Ho [Hu Hl]. eexists. split; [by apply partiallyDisconnect_run|]. split; [by apply switch_pairs_wf|].
  split; [done|]. intros a b Ha Hb. destruct Ho as (Hi & Hs & Hf). rewrite partial_links by done.
  simpl. unfold set_links. by rewrite <-Hl.
Qed.

(** Both loops of [partiallyConnect]; the first one marks the servers, too. *)
Definition mark_all (l : list Z) (u : list bool) : list bool := foldl (λ u s, <[Z.to_nat s := true]> u) u l.

Lemma connect_out_run i j cfg : links_wf cfg → started i cfg → peer j → started j cfg →
  let cfg1 := set_connected (<[Z.to_nat j := true]> (cf_connected cfg)) cfg in
  connect_out i j cfg = Pass (switch_pairs true [(i, j)] cfg1) ∧ links_wf cfg1.
Proof.
  intros Hw Hs Hj Hsj cfg1. split; [|by apply put_connected_wf].
  unfold connect_out. rewrite put_total by (by rewrite lw_connected). simpl. fold cfg1.
  rewrite at_insert, decide_True by (by rewrite ?lw_connected). simpl.
  destruct (end_of_total cfg i j Hw Hs Hj) as [e He]. by apply (switch_pair true i j cfg1 e).
Qed.

Lemma partiallyConnect_loop i l cfg : links_wf cfg → started i cfg → Forall (λ j, peer j ∧ started j cfg) l →
  foreach l (connect_out i) cfg =
    Pass (switch_pairs true ((λ j, (i, j)) <$> l) (set_connected (mark_all l (cf_connected cfg)) cfg)) ∧
  links_wf (set_connected (mark_all l (cf_connected cfg)) cfg).
Proof.
  intros Hw Hs Hl. revert cfg Hw Hs Hl. induction l as [|j l IH]; intros cfg Hw Hs Hl.
  { unfold switch_pairs. simpl. split; by destruct cfg. }
  apply Forall_cons in Hl as [[Hj Hsj] Hl]. destruct (connect_out_run i j cfg Hw Hs Hj Hsj) as [Hr Hw1].
  cbn [foreach]. rewrite Hr. set (cfg1 := set_connected _ cfg) in *. cbn [mbind verdict_bind].
  destruct (IH (switch_pairs true [(i, j)] cfg1)) as [-> _]; [by apply switch_pairs_wf|done|done|].
  split; [|by apply (IH cfg1)]. f_equal.
  change (set_connected (mark_all l (cf_connected (switch_pairs true [(i, j)] cfg1))) (switch_pairs true [(i, j)] cfg1))
    with (switch_pairs true [(i, j)] (set_connected (mark_all (j :: l) (cf_connected cfg)) cfg)).
  by rewrite switch_pairs_app.
Qed.

Lemma at_mark_all l u m j : Forall peer l → length u = n → peer j → at_ u j = Pass (m j) →
  at_ (mark_all l u) j = Pass (mark l true m j).
Proof.
  intros Hl. revert u m. induction Hl as [|k l Hk _ IH]; simpl; intros u m Hu Hj Hm; [done|].
  rewrite (IH _ (mark [k] true m)); [|by rewrite length_insert|done|].
  - unfold mark. repeat case_decide; set_solver.
  - rewrite at_insert by (by rewrite Hu). unfold mark. repeat case_decide; set_solver.
Qed.

Lemma partiallyConnect_shows i l cfg m : links_wf cfg → op_ok (LPartiallyConnect i l) cfg → shows cfg m →
  ∃ cfg', partiallyConnect i l cfg = Pass cfg' ∧ links_wf cfg' ∧ shows cfg' (spec_partiallyConnect i l m).
Proof.
  intros Hw (Hi & Hs & Hl) [Hu Hm]. unfold partiallyConnect. rewrite put_total by (by rewrite lw_connected). simpl.
  set (cfg1 := set_connected _ cfg). assert (links_wf cfg1) as Hw1 by by apply put_connected_wf.
  destruct (partiallyConnect_loop i l cfg1) as [-> Hw2]; [done..|].
  set (cfg2 := set_connected (mark_all l (cf_connected cfg1)) cfg1) in *. cbn [mbind verdict_bind].
  assert (Forall peer l) as Hlp by (eapply Forall_impl; [exact Hl|]; by intros ? []).
  assert (∀ j, peer j → at_ (cf_connected cfg2) j = Pass (mark (i :: l) true (up m) j)) as Hup.
  { intros j Hj. simpl. rewrite (at_mark_all l _ (mark [i] true (up m))); [|done|by rewrite length_insert, lw_connected|done|].
    - unfold mark. repeat case_decide; set_solver.
    - by apply (put_shows i true cfg m). }
  rewrite Forall_forall in Hl.
  rewrite (loop_switch true l (λ _, true) (λ j, (j, i))).
  - eexists. split; [done|]. rewrite switch_pairs_app. replace (_ ++ _) with (star i l (λ _, true) (λ _, true)).
    + split; [by apply switch_pairs_wf|]. split; [done|]. intros a b Ha Hb.
      rewrite partial_links; [|done|done|by apply Forall_forall|done|done]. simpl. unfold set_links. by rewrite <-Hm.
    + unfold star. rewrite (filter_all (λ _, true) l) by done. done.
  - intros j cfg' Hj [net' ->]. cbn in Hup |- *.
    rewrite Hup by (by apply Hl). unfold mark. by rewrite decide_True by set_solver.
  - intros j [Hj Hsj]%Hl _. by apply (end_of_total cfg2).
Qed.

(** ** Crashing and starting *)

(** Two configurations with the same links. *)
Record same_links cfg cfg' : Prop := {
  sl_n : cf_n cfg' = cf_n cfg;
  sl_connected : cf_connected cfg' = cf_connected cfg;
  sl_endnames : cf_endnames cfg' = cf_endnames cfg;
  sl_ends : ends (cf_net cfg') = ends (cf_net cfg);
  sl_enabled : enabled (cf_net cfg') = enabled (cf_net cfg);
  sl_connections : connections (cf_net cfg') = connections (cf_net cfg);
}.

#[export] Instance same_links_preorder : PreOrder same_links.
Proof. split; [done|]. intros a b c [] []. split; congruence. Qed.

Lemma same_links_wf cfg cfg' : same_links cfg cfg' → links_wf cfg → links_wf cfg'.
Proof.
  intros [Hn Hc He Hends Hen Hcon] [Hwn ? ? ? Hws ? Hwe Hwst]. unfold started in *.
  split; unfold started, is_on in *; rewrite ?Hn, ?Hc, ?He, ?Hends, ?Hen, ?Hcon; done.
Qed.

Lemma same_links_shows cfg cfg' m : same_links cfg cfg' → shows cfg m → shows cfg' m.
Proof.
  intros [Hn Hc He Hends Hen Hcon] [Hu Hl]. split; [by rewrite Hc|]. unfold link_up, is_on in *. by rewrite He, Hen.
Qed.

Lemma renew_links f i cfg cfg' : renew f i cfg = Pass cfg' → same_links cfg cfg'.
Proof. unfold renew. intros H. inv_pass H; done. Qed.

Lemma kill_links i cfg cfg' : kill i cfg = Pass cfg' → same_links cfg cfg'.
Proof. unfold kill. intros H. inv_pass H; done. Qed.

Lemma first_message_links i m cfg cfg' : first_message i m cfg = Pass cfg' → same_links cfg cfg'.
Proof. unfold first_message. intros H. inv_pass H; done. Qed.

Lemma apply_links i m cfg cfg' : apply_ i m cfg = Pass cfg' → same_links cfg cfg'.
Proof.
  unfold apply_, record_entry. intros H. apply bind_Pass in H as (cfg1 & H1%first_message_links & H). etrans; [exact H1|].
  inv_pass H; done.
Qed.

Lemma crash1_links i cfg cfg' : crash1 i cfg = Pass cfg' → ∃ cfg1, disconnect i cfg = Pass cfg1 ∧ same_links cfg1 cfg'.
Proof.
  unfold crash1. intros (cfg1 & Hd & (cfg2 & H2%renew_links & (cfg3 & H3%kill_links & H4%renew_links)%bind_Pass)%bind_Pass)%bind_Pass.
  exists cfg1. split; [done|]. etrans; [|by etrans; [|exact H4]]. etrans; [|exact H2]. done.
Qed.

Lemma crash1_shows i cfg cfg' m : links_wf cfg → peer i → shows cfg m → crash1 i cfg = Pass cfg' →
  links_wf cfg' ∧ shows cfg' (spec_disconnect i m).
Proof.
  intros Hw Hi Hm (cfg1 & Hd & Hs)%crash1_links. destruct (disconnect_shows i cfg cfg1 m Hw Hi Hm Hd) as [Hw1 Hm1].
  split; [by eapply same_links_wf|by eapply same_links_shows].
Qed.

(** What [start1] draws: a row of names for its ends. *)
Lemma row_lookup (names : Z → string) j : peer j → at_ (names <$> upto n) j = Pass (names j).
Proof.
  intros Hj. apply at_Pass. split; [unfold peer in Hj; lia|]. rewrite list_lookup_fmap. unfold upto, peer in *.
  rewrite lookup_seqZ_lt by lia. simpl. do 2 f_equal. lia.
Qed.

Lemma zip_row (names : Z → string) e s : 
  (e, s) ∈ zip (names <$> upto n) (srvname <$> upto n) ↔ ∃ j, peer j ∧ e = names j ∧ s = srvname j.
Proof.
  assert (zip (names <$> upto n) (srvname <$> upto n) = (λ j, (names j, srvname j)) <$> upto n) as ->.
  { by induction (upto n) as [|j l IH]; simpl; [|f_equal]. }
  rewrite list_elem_of_fmap. setoid_rewrite elem_of_upto. unfold peer. naive_solver.
Qed.

(** The ends of the new row, and of the others. *)
Lemma new_row_end i names E a b e : peer i → length E = n →
  end_of (<[Z.to_nat i := names <$> upto n]> E) a b = Pass e →
  (a = i ∧ peer b ∧ e = names b) ∨ (a ≠ i ∧ end_of E a b = Pass e).
Proof.
  intros Hi Hn (row & Hr & He)%end_of_Some. assert (peer a) as Ha.
  { apply at_Pass in Hr as [? Hr%lookup_lt_Some]. rewrite length_insert in Hr. unfold peer. lia. }
  rewrite at_insert in Hr by (by rewrite Hn). case_decide as Hai; [left|right].
  - injection Hr as <-. assert (peer b) as Hb.
    { apply at_Pass in He as [? He%lookup_lt_Some]. rewrite length_fmap in He. unfold upto in He.
      rewrite length_seqZ in He. unfold peer. lia. }
    rewrite row_lookup in He by done. naive_solver.
  - split; [done|]. apply end_of_Some. eauto.
Qed.

(** A new row of ends for peer [i], in a network where they have just been made. *)
Section new_row.
Context (i : Z) (names : Z → string) (net' : Network) (cfg : config C).
Context (Hw : links_wf cfg) (Hi : peer i) (Hci : at_ (cf_connected cfg) i = Pass false).
Context (Hoff : ∀ a b, peer a → peer b → a = i ∨ b = i → link_up cfg a b = false).
Context (Hmade : made (zip (names <$> upto n) (srvname <$> upto n)) (cf_net cfg) net').
Definition with_row : config C := set_net net' (set_endnames (<[Z.to_nat i := names <$> upto n]> (cf_endnames cfg)) cfg).

Lemma name_in_row j : peer j → names j ∈ names <$> upto n.
Proof using Type. intros Hj. apply list_elem_of_fmap. exists j. by rewrite elem_of_upto. Qed.

Lemma old_not_in_row a b e : end_of (cf_endnames cfg) a b = Pass e → e ∉ names <$> upto n.
Proof using Hw Hmade.
  intros He Hin. destruct (lw_ends cfg Hw _ _ _ He) as [Hends _]. rewrite <-zip_row_fst in Hin. by apply (md_new _ _ _ Hmade) in Hin.
Qed.

Lemma old_end a b e : end_of (cf_endnames cfg) a b = Pass e → a ≠ i → end_of (cf_endnames with_row) a b = Pass e.
Proof using Hw Hi.
  intros He Hne. apply end_of_Some in He as (row & Hr & He). apply end_of_Some. exists row. split; [|done]. simpl.
  assert (peer a). { apply at_Pass in Hr as [? Hr%lookup_lt_Some]. rewrite lw_rows in Hr by done. unfold peer. lia. }
  rewrite at_insert by (rewrite lw_rows; done). by rewrite decide_False.
Qed.

Lemma with_row_end a b e : end_of (cf_endnames with_row) a b = Pass e →
  (a = i ∧ peer b ∧ e = names b) ∨ (a ≠ i ∧ end_of (cf_endnames cfg) a b = Pass e).
Proof using Hw Hi. apply new_row_end; [done|]. by apply lw_rows. Qed.

Lemma with_row_on e : is_on e net' = true → is_on e (cf_net cfg) = true ∧ e ∉ names <$> upto n.
Proof using Hmade. unfold is_on. rewrite (md_enabled _ _ _ Hmade), zip_row_fst. by case_decide. Qed.

Lemma peer_of_end a b e : end_of (cf_endnames cfg) a b = Pass e → peer a ∧ peer b.
Proof using Hw.
  intros (row & Hr & He)%end_of_Some. pose proof (lw_row cfg Hw a row Hr) as Hl.
  apply at_Pass in Hr as [? Hr%lookup_lt_Some]. apply at_Pass in He as [? He%lookup_lt_Some].
  rewrite lw_rows in Hr by done. unfold peer. destruct Hl as [-> |Hl]; [simpl in He; lia|]. lia.
Qed.

Lemma with_row_started : started i with_row.
Proof using Hw Hi.
  exists (names <$> upto n). simpl. rewrite at_insert by (rewrite lw_rows; done). rewrite decide_True by done.
  split; [done|]. intros Hnil. assert (length (names <$> upto n) = 0%nat) as Hl by by rewrite Hnil.
  rewrite length_fmap in Hl. unfold upto in Hl. rewrite length_seqZ in Hl. unfold peer in Hi. lia.
Qed.

Lemma with_row_inj a b a' b' e : end_of (cf_endnames with_row) a b = Pass e →
  end_of (cf_endnames with_row) a' b' = Pass e → a = a' ∧ b = b'.
Proof using Hw Hi Hmade.
  intros [(-> & Hb & ->)|[Hne He]]%with_row_end [(-> & Hb' & Hn)|[Hne' He']]%with_row_end.
  - split; [done|]. pose proof (md_nodup _ _ _ Hmade) as Hnd. rewrite zip_row_fst in Hnd.
    pose proof (row_lookup names b Hb) as [_ H1]%at_Pass. pose proof (row_lookup names b' Hb') as [_ H2]%at_Pass.
    rewrite Hn in H1. pose proof (NoDup_lookup _ _ _ _ Hnd H1 H2). unfold peer in *. lia.
  - apply old_not_in_row in He'. by destruct He'; apply name_in_row.
  - subst. apply old_not_in_row in He. by destruct He; apply name_in_row.
  - by apply (lw_inj cfg Hw a b a' b' e).
Qed.

Lemma with_row_wf : links_wf with_row.
Proof using All.
  split; simpl; try apply Hw.
  - rewrite length_insert. by apply lw_rows.
  - intros a row [H0 Hr]%at_Pass. destruct (decide (a = i)) as [->|Hne].
    + rewrite list_lookup_insert_eq in Hr by (rewrite lw_rows by done; unfold peer in Hi; lia). injection Hr as <-.
      right. rewrite length_fmap. unfold upto. rewrite length_seqZ. lia.
    + rewrite list_lookup_insert_ne in Hr by (unfold peer in Hi; lia). apply (lw_row cfg Hw a). by apply at_Pass.
  - intros a Ha. destruct (decide (a = i)) as [->|Hne]; [by rewrite Ha in Hci|].
    destruct (lw_started cfg Hw a Ha) as (row & Hr & Hnil). exists row. split; [|done]. simpl.
    rewrite at_insert; [by rewrite decide_False|by rewrite lw_rows|].
    apply at_Pass in Hr as [? Hr%lookup_lt_Some]. lia.
  - apply with_row_inj.
  - intros a b e [(-> & Hb & ->)|[Hne He]]%with_row_end.
    + split; [apply (md_ends _ _ _ Hmade); left; rewrite zip_row_fst; by apply name_in_row|].
      apply (md_connected _ _ _ Hmade), zip_row. by exists b.
    + destruct (lw_ends cfg Hw _ _ _ He) as [H1 H2]. split; [apply (md_ends _ _ _ Hmade); by right|].
      rewrite (md_other _ _ _ Hmade); [done|]. rewrite zip_row_fst. by eapply old_not_in_row.
  - intros e [Hon _]%with_row_on. destruct (lw_stale cfg Hw e Hon) as (a & b & He). exists a, b.
    apply old_end; [done|]. intros ->. destruct (peer_of_end _ _ _ He) as [_ Hb].
    specialize (Hoff i b Hi Hb (or_introl eq_refl)). unfold link_up in Hoff. rewrite He in Hoff. congruence.
Qed.

Lemma with_row_link a b : peer a → peer b → link_up with_row a b = link_up cfg a b.
Proof using All.
  intros Ha Hb. destruct (link_up cfg a b) eqn:Hold.
  - assert (a ≠ i) as Hne by (intros ->; rewrite Hoff in Hold; [done|done|done|by left]).
    unfold link_up in *. destruct (end_of (cf_endnames cfg) a b) as [e| |] eqn:He; try done.
    rewrite (old_end a b e He Hne). simpl. unfold is_on in *. rewrite (md_enabled _ _ _ Hmade), zip_row_fst.
    rewrite decide_False; [done|]. by eapply old_not_in_row.
  - destruct (link_up with_row a b) eqn:Hnew; [|done]. unfold link_up in *.
    destruct (end_of (cf_endnames with_row) a b) as [e| |] eqn:He; try done.
    apply with_row_on in Hnew as [Hon Hnin]. apply with_row_end in He as [(-> & _ & ->)|[Hne He]].
    + by destruct Hnin; apply name_in_row.
    + rewrite He in Hold. congruence.
Qed.
End new_row.

Lemma foreach_apply_links i l cfg cfg' : foreach l (apply_ i) cfg = Pass cfg' → same_links cfg cfg'.
Proof.
  apply (foreach_ind (same_links cfg)); [|done]. intros m c1 c2 _ Hc H%apply_links. by etrans.
Qed.

Lemma put_instance_links i rf srv cfg cfg' : put_instance i rf srv cfg = Pass cfg' → same_links cfg cfg'.
Proof. unfold put_instance. intros H. inv_pass H; done. Qed.

(** [start1] is [crash1], then a new row of ends. *)
Lemma start1_links i names srv k cfg cfg' q : cf_n cfg = n → start1 i names srv k cfg = Pass (cfg', q) →
  ∃ cfg1 net', crash1 i cfg = Pass cfg1 ∧
    (cf_n cfg1 = n → made (zip (names <$> upto n) (srvname <$> upto n)) (cf_net cfg1) net' ∧ same_links (with_row i names net' cfg1) cfg').
Proof.
  intros Hn. unfold start1. intros (cfg1 & H1 & H)%bind_Pass. exists cfg1.
  apply bind_Pass in H as (cfg2 & (rows & [_ ->]%put_Pass & (net' & Hm%makeEnds_made & [= <-])%bind_Pass)%bind_Pass & H).
  exists net'. split; [done|]. intros Hn1. rewrite Hn1 in Hm. split; [done|].
  inv_pass H.
  match goal with Hf : foreach _ _ _ = _ |- _ => apply foreach_apply_links in Hf end.
  match goal with Hf : put_instance _ _ _ _ = _ |- _ => apply put_instance_links in Hf end.
  etrans; [|eassumption]. etrans; [|eassumption]. unfold with_row. rewrite <-Hn1. by split.
Qed.

Lemma start1_shows i names srv k cfg cfg' q m : links_wf cfg → peer i → shows cfg m → start1 i names srv k cfg = Pass (cfg', q) →
  links_wf cfg' ∧ shows cfg' (spec_disconnect i m) ∧ started i cfg'.
Proof.
  intros Hw Hi Hm Hst. destruct (start1_links i names srv k cfg cfg' q (lw_n cfg Hw) Hst) as (cfg1 & net' & Hc & Hr).
  destruct (crash1_shows i cfg cfg1 m Hw Hi Hm Hc) as [Hw1 Hm1]. destruct Hr as [Hmade Hsame]; [apply Hw1|].
  assert (at_ (cf_connected cfg1) i = Pass false) as Hci.
  { rewrite (proj1 Hm1) by done. simpl. unfold mark. by rewrite decide_True by set_solver. }
  assert (∀ a b, peer a → peer b → a = i ∨ b = i → link_up cfg1 a b = false) as Hoff.
  { intros a b Ha Hb Hab. rewrite (proj2 Hm1) by done. simpl. unfold set_links.
    rewrite (proj2 (touches_true i a b _)); [done|]. naive_solver. }
  split; [eapply same_links_wf; [exact Hsame|]; by apply with_row_wf|].
  split; [eapply same_links_shows; [exact Hsame|]; split|].
  - intros j Hj. by apply Hm1.
  - intros a b Ha Hb. rewrite with_row_link by done. by apply Hm1.
  - destruct (with_row_started i names net' cfg1 Hw1 Hi) as (row & Hrow & Hne). exists row.
    by rewrite (sl_endnames _ _ Hsame).
Qed.

Definition all_started cfg : Prop := ∀ i, peer i → started i cfg.
Definition op_range (o : link_op) : Prop :=
  match o with
  | LConnect i | LDisconnect i | LCrash i | LStart i _ _ _ => peer i
  | LPartiallyDisconnect i l | LPartiallyConnect i l => peer i ∧ Forall peer l
  end.

#[export] Instance peer_dec i : Decision (peer i).
Proof. unfold peer. apply _. Defined.
#[export] Instance op_range_dec o : Decision (op_range o).
Proof. destruct o; simpl; apply _. Defined.

Lemma all_started_endnames cfg cfg' : cf_endnames cfg' = cf_endnames cfg → all_started cfg → all_started cfg'.
Proof. unfold all_started, started. by intros ->. Qed.

Lemma disconnect_endnames i cfg cfg' : links_wf cfg → peer i → disconnect i cfg = Pass cfg' → cf_endnames cfg' = cf_endnames cfg.
Proof. intros Hw Hi. destruct (disconnect_run i cfg Hw Hi) as (P & Q & -> & _). by intros [= <-]. Qed.

Lemma crash1_endnames i cfg cfg' : links_wf cfg → peer i → crash1 i cfg = Pass cfg' → cf_endnames cfg' = cf_endnames cfg.
Proof. intros Hw Hi (cfg1 & Hd%disconnect_endnames & Hs)%crash1_links; [|done..]. by rewrite (sl_endnames _ _ Hs). Qed.

Lemma start1_started i names srv k cfg cfg' q j : links_wf cfg → peer i → start1 i names srv k cfg = Pass (cfg', q) →
  started j cfg → started j cfg'.
Proof.
  intros Hw Hi Hst (row & Hrow & Hne). destruct (start1_links i names srv k cfg cfg' q (lw_n cfg Hw) Hst) as (cfg1 & net' & Hc & Hr).
  pose proof (crash1_endnames i cfg cfg1 Hw Hi Hc) as He.
  destruct (crash1_links _ _ _ Hc) as (cfg0 & Hd & Hs0). destruct (disconnect_run i cfg Hw Hi) as (P & Q & Hr0 & _).
  rewrite Hr0 in Hd. injection Hd as <-. destruct Hr as [_ Hs]; [rewrite (sl_n _ _ Hs0); apply Hw|].
  unfold started. rewrite (sl_endnames _ _ Hs). simpl. rewrite He.
  assert (peer j) as Hj by (apply at_Pass in Hrow as [? Hrow%lookup_lt_Some]; rewrite lw_rows in Hrow by done; unfold peer; lia).
  rewrite at_insert by (rewrite lw_rows; done). case_decide; [|by exists row]. eexists. split; [done|].
  intros Hnil. apply (f_equal length) in Hnil. rewrite length_fmap in Hnil. unfold upto in Hnil.
  rewrite length_seqZ in Hnil. unfold peer in Hi. simpl in Hnil. lia.
Qed.

Lemma all_started_Forall l cfg : all_started cfg → Forall peer l → Forall (λ j, peer j ∧ started j cfg) l.
Proof. rewrite !Forall_forall. intros Ha Hl j Hj. auto. Qed.

Lemma partiallyConnect_endnames i l cfg cfg' : links_wf cfg → op_ok (LPartiallyConnect i l) cfg →
  partiallyConnect i l cfg = Pass cfg' → cf_endnames cfg' = cf_endnames cfg.
Proof.
  intros Hw (Hi & Hs & Hl). unfold partiallyConnect. rewrite put_total by (by rewrite lw_connected). simpl.
  destruct (partiallyConnect_loop i l (set_connected (<[Z.to_nat i := true]> (cf_connected cfg)) cfg)) as [-> _];
    [by apply put_connected_wf|done|done|].
  cbn [mbind verdict_bind]. apply (foreach_ind (λ c : config C, cf_endnames c = cf_endnames cfg)); [|done].
  intros j c c' _ Hc H1. unfold switch in H1. by inv_pass H1.
Qed.

(** Every operation is the operation of the matrix. *)
Lemma link_run_shows o cfg cfg' m : links_wf cfg → all_started cfg → op_range o → shows cfg m → link_run o cfg = Pass cfg' →
  links_wf cfg' ∧ all_started cfg' ∧ shows cfg' (spec_op o m).
Proof.
  intros Hw Ha Ho Hm. destruct o as [i|i|i l|i l|i|i names srv k]; simpl in *; intros Hr.
  - pose proof (connect_run i cfg Hw Ho (Ha i Ho)) as He. simpl in He. 
    destruct (connect_shows i cfg cfg' m) as [? ?]; [done|done|by apply Ha|done|done|]. split_and!; [done| |done].
    rewrite He in Hr. by injection Hr as <-.
  - destruct (disconnect_shows i cfg cfg' m) as [? ?]; auto. split_and!; [done| |done].
    apply (all_started_endnames cfg); [by eapply disconnect_endnames|done].
  - assert (op_ok (LPartiallyDisconnect i l) cfg) as Hok by (destruct Ho; split_and!; auto; by apply all_started_Forall).
    destruct (partiallyDisconnect_shows i l cfg m Hw Hok Hm) as (c & Hc & ? & ?). rewrite Hc in Hr. injection Hr as <-.
    split_and!; [done| |done]. rewrite (partiallyDisconnect_run i l cfg Hw Hok) in Hc. by injection Hc as <-.
  - assert (op_ok (LPartiallyConnect i l) cfg) as Hok by (destruct Ho; split_and!; auto; by apply all_started_Forall).
    destruct (partiallyConnect_shows i l cfg m Hw Hok Hm) as (c & Hc & ? & ?). rewrite Hc in Hr. injection Hr as <-.
    split_and!; [done| |done]. apply (all_started_endnames cfg); [by eapply partiallyConnect_endnames|done].
  - destruct (crash1_shows i cfg cfg' m) as [? ?]; auto. split_and!; [done| |done].
    apply (all_started_endnames cfg); [by eapply crash1_endnames|done].
  - apply bind_Pass in Hr as ([c q] & Hs & [= ->]). destruct (start1_shows i names srv k cfg cfg' q m) as (? & ? & ?); auto.
    split_and!; [done| |done]. intros j Hj. apply (start1_started i names srv k cfg cfg' q j); auto.
Qed.

Lemma link_runs_shows ops cfg cfg' m : links_wf cfg → all_started cfg → Forall op_range ops → shows cfg m →
  foreach ops link_run cfg = Pass cfg' →
  links_wf cfg' ∧ all_started cfg' ∧ shows cfg' (foldl (λ m o, spec_op o m) m ops).
Proof.
  intros Hw Ha Ho. revert cfg m Hw Ha. induction Ho as [|o ops Hoo _ IH]; intros cfg m Hw Ha Hm; cbn [foreach].
  { by intros [= <-]. }
  intros (c & Hc & Hr)%bind_Pass. destruct (link_run_shows o cfg c m Hw Ha Hoo Hm Hc) as (? & ? & ?). by apply (IH c).
Qed.

(** The operations that touch links only never fail. *)
Definition basic (o : link_op) : bool := match o with LCrash _ | LStart _ _ _ _ => false | _ => true end.

Lemma shows_self cfg : links_wf cfg → shows cfg (mkMatrix (is_up cfg) (link_up cfg)).
Proof. intros Hw. split; [intros i Hi; by apply is_up_at|done]. Qed.

Lemma link_run_total o cfg : links_wf cfg → all_started cfg → op_range o → basic o = true → ∃ cfg', link_run o cfg = Pass cfg'.
Proof.
  intros Hw Ha Ho Hb. pose proof (shows_self cfg Hw) as Hm. destruct o as [i|i|i l|i l|i|i names srv k]; simpl in *; try done.
  - eexists. apply connect_run; auto.
  - destruct (disconnect_run i cfg Hw Ho) as (P & Q & -> & _). by eexists.
  - eexists. apply partiallyDisconnect_run; [done|]. destruct Ho. split_and!; auto. by apply all_started_Forall.
  - destruct Ho. eapply partiallyConnect_shows in Hm as (c & Hc & _); [by exists c|done|].
    split_and!; auto. by apply all_started_Forall.
Qed.

(** ** A new configuration *)
Lemma at_replicate {A} (x y : A) i : at_ (replicate n x) i = Pass y → y = x.
Proof. intros [_ Hl]%at_Pass. by apply lookup_replicate in Hl as [-> _]. Qed.

Lemma zero_links unreliable : links_wf (new_config (C := C) n unreliable) ∧ shows (new_config (C := C) n unreliable) (mkMatrix (λ _, false) (λ _ _, false)).
Proof.
  assert (∀ i j e, end_of (replicate n ([] : list string)) i j = Pass e → False) as He.
  { intros i j e (row & ->%at_replicate & [_ Hj]%at_Pass)%end_of_Some. done. }
  split; [split; simpl|split; simpl].
  - done.
  - apply length_replicate.
  - apply length_replicate.
  - intros i row ->%at_replicate. by left.
  - by intros i ?%at_replicate.
  - by intros i j i' j' e ?%He.
  - by intros i j e ?%He.
  - intros e. unfold is_on. simpl. by rewrite lookup_empty.
  - intros i Hi. destruct (at_total (replicate n false) i) as (x & Hx & _); [by rewrite length_replicate|].
    by rewrite Hx, (at_replicate _ _ _ Hx).
  - intros i j _ _. unfold link_up. simpl. destruct (end_of _ i j) eqn:Hij; [by apply He in Hij|done..].
Qed.

Lemma mark_one i on (u : Z → bool) a : mark [i] on u a = if decide (a = i) then on else u a.
Proof. unfold mark. repeat case_decide; set_solver. Qed.

(** Connecting peers that are all started. *)
Definition connect_all (l : list Z) (m : matrix) : matrix := foldl (λ m i, spec_connect i m) m l.

Lemma connect_all_spec l m : (∀ a b, link m a b = up m a && up m b) →
  ∀ a b, up (connect_all l m) a = (up m a || bool_decide (a ∈ l)) ∧
    link (connect_all l m) a b = up (connect_all l m) a && up (connect_all l m) b.
Proof.
  revert m. induction l as [|i l IH]; intros m Hm a b; simpl.
  { split; [by destruct (up m a)|apply Hm]. }
  assert (∀ a b, link (spec_connect i m) a b = up (spec_connect i m) a && up (spec_connect i m) b) as Hm'.
  { intros x y. simpl. unfold set_links, touches. rewrite !mark_one, Hm, !bool_decide_decide.
    destruct (decide (x = i)), (decide (y = i)), (up m x), (up m y); done. }
  destruct (IH (spec_connect i m) Hm' a b) as [Hu Hl]. split; [|done]. rewrite Hu. simpl. rewrite mark_one, !bool_decide_decide.
  destruct (up m a), (decide (a = i)), (decide (a ∈ l)), (decide (a ∈ i :: l)) as [Hin|Hin]; try done;
    rewrite elem_of_cons in Hin; tauto.
Qed.

Lemma shows_ext cfg m m' : (∀ a, peer a → up m a = up m' a) → (∀ a b, peer a → peer b → link m a b = link m' a b) →
  shows cfg m → shows cfg m'.
Proof. intros Hu Hl [H1 H2]. split; intros; [rewrite <-Hu by done; by apply H1|rewrite <-Hl by done; by apply H2]. Qed.

Definition none : matrix := mkMatrix (λ _, false) (λ _ _, false).
Definition all : matrix := mkMatrix (λ _, true) (λ _ _, true).

Lemma start_all names srvs l cfg cfg' : Forall peer l → links_wf cfg → shows cfg none →
  foreach l (start_body names srvs) cfg = Pass cfg' →
  links_wf cfg' ∧ shows cfg' none ∧ (∀ j, started j cfg → started j cfg') ∧ ∀ j, j ∈ l → started j cfg'.
Proof.
  intros Hl. revert cfg. induction Hl as [|i l Hi _ IH]; intros cfg Hw Hs; cbn [foreach].
  { intros [= <-]. split_and!; try done. intros j Hj. by apply not_elem_of_nil in Hj. }
  intros (c & ([c0 q] & Hst & [= <-])%bind_Pass & Hr)%bind_Pass.
  destruct (start1_shows i (names i) (srvs i) 0 cfg c0 q none Hw Hi Hs Hst) as (Hw0 & Hs0 & Hst0).
  destruct (IH c0 Hw0) as (Hw' & Hs' & Hmono & Hall); [|done|].
  - eapply shows_ext; [| |exact Hs0]; simpl; intros; [unfold mark; by case_decide|unfold set_links; by case_match].
  - split_and!; [done|done| |].
    + intros j Hj. eapply Hmono, (start1_started i _ _ _ cfg c0 q j); [done..|exact Hst|done].
    + intros j [->|Hj]%elem_of_cons; auto.
Qed.

Lemma foreach_connect l cfg : foreach (LConnect <$> l) link_run cfg = foreach l connect cfg.
Proof. revert cfg. induction l as [|j l IH]; intros c; simpl; [done|]. destruct (connect j c); simpl; auto. Qed.

Lemma makeConfig_shows unreliable names srvs cfg : makeConfig n unreliable names srvs = Pass cfg →
  links_wf cfg ∧ all_started cfg ∧ shows cfg all.
Proof.
  destruct (zero_links unreliable) as [Hw Hs]. intros (c & H1 & H2)%bind_Pass.
  assert (Forall peer (upto n)) as Hup by (apply Forall_forall; intros j; by rewrite elem_of_upto).
  destruct (start_all names srvs (upto n) _ c Hup Hw Hs H1) as (Hwc & Hsc & _ & Hst).
  assert (all_started c) as Ha by (intros j Hj; apply Hst; by apply elem_of_upto).
  assert (foreach (LConnect <$> upto n) link_run c = Pass cfg) as H3.
  { by rewrite foreach_connect. }
  destruct (link_runs_shows (LConnect <$> upto n) c cfg none Hwc Ha) as (Hw' & Ha' & Hs'); [by apply Forall_fmap|done..|].
  split_and!; [done..|]. rewrite foldl_fmap in Hs'. change (foldl _ none _) with (connect_all (upto n) none) in Hs'.
  assert (∀ a b, peer a → peer b → up (connect_all (upto n) none) a = true ∧ link (connect_all (upto n) none) a b = true) as Hc.
  { assert (∀ a, peer a → up (connect_all (upto n) none) a = true) as Hu.
    { intros a Ha1. destruct (connect_all_spec (upto n) none ltac:(done) a a) as [-> _]. simpl.
      apply bool_decide_eq_true. by apply elem_of_upto. }
    intros a b Ha1 Hb1. split; [auto|]. destruct (connect_all_spec (upto n) none ltac:(done) a b) as [_ ->]. by rewrite !Hu. }
  eapply shows_ext; [| |exact Hs']; [intros a ?; by destruct (Hc a a)|intros a b ??; by destruct (Hc a b)].
Qed.
End links.

Section total.
Context {C : Type} `{EqDecision C} {codec : StateCodec C}.

Lemma basic_total n ops (cfg0 : config C) : links_wf n cfg0 → all_started n cfg0 → Forall (op_range n) ops → forallb basic ops = true →
  ∃ cfg, foreach ops link_run cfg0 = Pass cfg.
Proof.
  intros Hw Ha Ho Hb. rewrite forallb_forall in Hb. rewrite Forall_forall in Ho.
  destruct (foreach_total (λ c, links_wf n c ∧ all_started n c) ops link_run cfg0) as (c & Hc & _); [|done|by exists c].
  intros o c Hin [Hwc Hac]. destruct (link_run_total n o c Hwc Hac (Ho o Hin)) as [c' Hc'].
  - apply Hb. by apply list_elem_of_In.
  - exists c'. split; [done|]. destruct (link_run_shows n o c c' _ Hwc Hac (Ho o Hin) (shows_self n c Hwc) Hc') as (? & ? & _).
    done.
Qed.
End total.

(** ** The theorem *)

(** C23 The tester's control of the network is control of a matrix: after
    [makeConfig] everybody can call everybody, attaching and detaching peers
    never fails, and whatever sequence of attaching, detaching, crashing and
    starting peers follows, the end of peer [a] to peer [b] is on exactly when
    the matrix, on which each operation has its plain meaning, says so; no other
    end is on, so an instance that was crashed can never send again. *)
Theorem links_refine {C} `{EqDecision C} {codec : StateCodec C} (n : nat) unreliable names srvs ops (cfg0 : config C) :
  makeConfig n unreliable names srvs = Pass cfg0 → Forall (op_range n) ops →
  (forallb basic ops = true → ∃ cfg, foreach ops link_run cfg0 = Pass cfg) ∧
  ∀ cfg, foreach ops link_run cfg0 = Pass cfg →
    shows n cfg (foldl (λ m o, spec_op o m) all ops) ∧
    ∀ e, is_on e (cf_net cfg) = true → ∃ a b, end_of (cf_endnames cfg) a b = Pass e.
Proof.
  intros (Hw & Ha & Hs)%makeConfig_shows Ho. split; [by apply (basic_total n)|]. intros cfg Hr.
  destruct (link_runs_shows n ops cfg0 cfg all Hw Ha Ho Hs Hr) as (Hw' & _ & Hs').
  split; [done|]. by apply (lw_stale n cfg Hw').
Qed.

Definition demo_names (i j : Z) : string := Itoa (10 * i + j).
Definition demo_srvs (i : Z) : positive := Z.to_pos (i + 1).
Definition demo_links : list link_op :=
  [LDisconnect 0; LPartiallyConnect 0 [1]; LCrash 2; LStart 2 (λ j, Itoa (100 + j)) 9 0; LConnect 2].

Lemma demo_links_pass : match makeConfig (C := Z) 3 false demo_names demo_srvs ≫= foreach demo_links link_run with Pass _ => true | _ => false end = true.
Proof. vm_compute. reflexivity. Qed.

Lemma links_refine_witness : ∃ cfg0 cfg, makeConfig (C := Z) 3 false demo_names demo_srvs = Pass cfg0 ∧ foreach demo_links link_run cfg0 = Pass cfg ∧
  link_up cfg 0 1 = true ∧ link_up cfg 0 0 = false ∧ link_up cfg 2 1 = true.
Proof.
  pose proof demo_links_pass as Hok.
  destruct (makeConfig 3 false _ _) as [cfg0| |] eqn:H0; [|done..]. cbn [mbind verdict_bind] in Hok.
  destruct (foreach demo_links link_run cfg0) as [cfg| |] eqn:H1; [|done..]. clear Hok.
  exists cfg0, cfg. split; [exact eq_refl|]. split; [exact H1|].
  assert (Forall (op_range 3) demo_links) as Hr by (repeat constructor; simpl; lia).
  destruct (links_refine 3 false demo_names demo_srvs demo_links cfg0 H0 Hr) as [_ Hl].
  destruct (Hl cfg H1) as [[_ Hm] _]. rewrite !Hm by (unfold peer; lia). clear. by vm_compute.
Defined.
