(* ===== verification/TesterWorld.v ===== *)
(** * The tester and the peers together

    The peers of Cluster.v run under the tester of a2-omnipaxos/config.go: its
    appliers read their [ApplyMsg]s and check them, its methods attach, detach,
    crash and start them, in any order.  A world is simulated by a cluster, where
    crashing and starting a peer is one restart; so what is proved of the
    cluster tells what the tester will see.  An applier that goes on with its
    messages after it was told to stop can fail a test. *)
From Stdlib Require Import Strings.String.
From S2P Require Import Prelude Ballot Messages Persister OmniPaxos OmniPaxosInv Cluster Agreement Safety ClusterThms.
From S2P Require Import GoString Labrpc Harness Tester TesterLinks.

Section world.
Context {C : Type} `{EqDecision C} {codec : StateCodec C}.
Implicit Types cfg : config C.

(** [tw_queue] holds, for each peer, the messages that it has sent to its
    [applyCh] and that the applier has not handled yet; [tw_old] holds the
    messages left for each applier whose [stopCh] is closed and that has not
    taken notice of it. *)
Record tworld := mkTW {
  tw_cfg : config C;
  tw_soup : list (packet C);
  tw_queue : gmap Z (list (ApplyMsg C));
  tw_old : list (Z * list (ApplyMsg C));
}.
Implicit Types w : tworld.

Definition queue w (i : Z) : list (ApplyMsg C) := default [] (tw_queue w !! i).

(** The instance that runs at [i]. *)
Definition running (i : Z) cfg : option (OmniPaxos C) := go_index (cf_paxos cfg) i ≫= id.

Inductive tevent :=
  | TDeliver (ord : MapOrder C) (k : nat)
  | TDrop (k : nat)
  | TTimer (i : Z)
  | TPropose (i : Z) (cmd : C)
  | TApply (i : Z)
  | TLate (k : nat)
  | TStopped (k : nat)
  | TLink (o : link_op)
  | TCrash (i : Z)
  | TStart (i : Z) (names : Z → string) (srv : positive) (k : nat).

(** Instance [i] has moved to [op] with effects [es]. *)
Definition moved (i : Z) (op : OmniPaxos C) (es : list (Effect C)) (soup : list (packet C)) w : tworld :=
  mkTW (set_paxos (<[Z.to_nat i := Some op]> (cf_paxos (tw_cfg w))) (tw_cfg w)) (soup ++ emit i es)
    (<[i := queue w i ++ applied es]> (tw_queue w)) (tw_old w).

(** The applier of [i] has been told to stop. *)
Definition retire (i : Z) w : list (Z * list (ApplyMsg C)) := tw_old w ++ [(i, queue w i)].

Definition in_orderb (op : OmniPaxos C) (m : Msg C) : bool := bool_decide (in_order op m).

(** The names of a new instance are new, and differ. *)
Definition fresh_row (n : nat) (names : Z → string) (net : Network) : bool :=
  bool_decide (NoDup (names <$> upto n)) && bool_decide (Forall (λ e, e ∉ ends net) (names <$> upto n)).

(** One event.  What cannot happen is skipped: a packet that is not there or is
    for a peer that does not run, a delivery out of order (Agreement.v), names
    drawn twice, a method on a peer that does not exist.  [TLate] is an applier
    that takes a message although it has been told to stop, [TStopped] one that
    stops; what is left for it is read and ignored.  [Crash] is a panic in a
    peer or in the tester, [Fatal] a test that the tester fails. *)
Definition tstep (n : nat) (ev : tevent) w : verdict tworld :=
  let cfg := tw_cfg w in
  match ev with
  | TDeliver ord k =>
      match tw_soup w !! k with
      | Some p =>
          match running (pk_dst p) cfg with
          | Some op =>
              if in_orderb op (pk_msg p) then
                '(op, es) ← or_crash (handle (pk_src p) (pk_msg p) op);
                Pass (moved (pk_dst p) op es (delete k (tw_soup w)) w)
              else Pass w
          | None => Pass w
          end
      | None => Pass w
      end
  | TDrop k => Pass (mkTW cfg (delete k (tw_soup w)) (tw_queue w) (tw_old w))
  | TTimer i =>
      match running i cfg with
      | Some op => '(op, es) ← or_crash (startTimer op); Pass (moved i op es (tw_soup w) w)
      | None => Pass w
      end
  | TPropose i cmd =>
      match running i cfg with
      | Some op => '(_, op, es) ← or_crash (Proposal cmd op); Pass (moved i op es (tw_soup w) w)
      | None => Pass w
      end
  | TApply i =>
      match running i cfg, queue w i with
      | Some _, m :: q => cfg ← apply_ i m cfg; Pass (mkTW cfg (tw_soup w) (<[i := q]> (tw_queue w)) (tw_old w))
      | _, _ => Pass w
      end
  | TLate k =>
      match tw_old w !! k with
      | Some (i, m :: q) => cfg ← apply_ i m cfg; Pass (mkTW cfg (tw_soup w) (tw_queue w) (<[k := (i, q)]> (tw_old w)))
      | _ => Pass w
      end
  | TStopped k => Pass (mkTW cfg (tw_soup w) (tw_queue w) (delete k (tw_old w)))
  | TLink o =>
      if basic o && bool_decide (op_range n o) then cfg ← link_run o cfg; Pass (mkTW cfg (tw_soup w) (tw_queue w) (tw_old w)) else Pass w
  | TCrash i =>
      if bool_decide (peer n i) then cfg ← crash1 i cfg; Pass (mkTW cfg (tw_soup w) (<[i := []]> (tw_queue w)) (retire i w)) else Pass w
  | TStart i names srv k =>
      if bool_decide (peer n i) && fresh_row n names (cf_net cfg) then
        '(cfg, q) ← start1 i names srv k cfg; Pass (mkTW cfg (tw_soup w) (<[i := q]> (tw_queue w)) (retire i w))
      else Pass w
  end.

(** No applier goes on with its messages after its [stopCh] is closed: the
    [select] of [applier] may choose a waiting message first. *)
Definition prompt (ev : tevent) : bool := match ev with TLate _ => false | _ => true end.

Definition trun (n : nat) (evs : list tevent) w : verdict tworld := foreach evs (tstep n) w.

(** The test after [makeConfig]. *)
Definition tworld_init (cfg : config C) : tworld := mkTW cfg [] ∅ [].

(** ** What each method leaves alone *)
Record same_rest cfg cfg' : Prop := {
  sr_paxos : cf_paxos cfg' = cf_paxos cfg;
  sr_saved : cf_saved cfg' = cf_saved cfg;
  sr_logs : cf_logs cfg' = cf_logs cfg;
  sr_didRecv : cf_didRecv cfg' = cf_didRecv cfg;
  sr_nextIndex : cf_nextIndex cfg' = cf_nextIndex cfg;
  sr_numCommands : cf_numCommands cfg' = cf_numCommands cfg;
  sr_stopCh : cf_stopCh cfg' = cf_stopCh cfg;
}.

#[export] Instance same_rest_preorder : PreOrder same_rest.
Proof. split; [done|]. intros a b c [] []. split; congruence. Qed.

Lemma switch_rest on i j cfg cfg' : switch on i j cfg = Pass cfg' → same_rest cfg cfg'.
Proof. unfold switch. intros H. by inv_pass H. Qed.

Lemma foreach_rest {A} (l : list A) f cfg cfg' :
  (∀ x c c', f x c = Pass c' → same_rest c c') → foreach l f cfg = Pass cfg' → same_rest cfg cfg'.
Proof. intros Hf. apply (foreach_ind (same_rest cfg)); [|done]. intros x c c' _ Hc Hx%Hf. by etrans. Qed.

Ltac rest_loop H := apply foreach_rest in H; [|
  let Hb := fresh in intros ??? Hb; unfold connect_out in Hb; inv_pass Hb; try done;
  try (apply switch_rest in Hb; destruct Hb; split; done)].

Lemma disconnect_rest i cfg cfg' : disconnect i cfg = Pass cfg' → same_rest cfg cfg'.
Proof.
  unfold disconnect. intros (u & _ & (c & H1 & H2)%bind_Pass)%bind_Pass. rest_loop H1. rest_loop H2.
  etrans; [|exact H2]. destruct H1. by split.
Qed.

Lemma link_run_rest o cfg cfg' : basic o = true → link_run o cfg = Pass cfg' → same_rest cfg cfg'.
Proof.
  destruct o as [i|i|i l|i l|i|i names srv k]; simpl; try done; intros _; [|apply disconnect_rest| |];
    unfold connect, partiallyDisconnect, partiallyConnect; intros H.
  - apply bind_Pass in H as (u & _ & (c & H1 & H2)%bind_Pass). rest_loop H1. rest_loop H2.
    etrans; [|exact H2]. destruct H1. by split.
  - apply bind_Pass in H as (c & H1 & H2). rest_loop H1. rest_loop H2. by etrans.
  - apply bind_Pass in H as (u & _ & (c & H1 & H2)%bind_Pass). rest_loop H1. rest_loop H2.
    etrans; [|exact H2]. destruct H1. by split.
Qed.

(** ** The lists of the tester have one element for each peer *)
Record sized (n : nat) cfg : Prop := {
  sz_paxos : length (cf_paxos cfg) = n;
  sz_saved : length (cf_saved cfg) = n;
  sz_logs : length (cf_logs cfg) = n;
  sz_didRecv : length (cf_didRecv cfg) = n;
  sz_nextIndex : length (cf_nextIndex cfg) = n;
  sz_numCommands : length (cf_numCommands cfg) = n;
  sz_stopCh : length (cf_stopCh cfg) = n;
}.

Lemma same_rest_sized n cfg cfg' : same_rest cfg cfg' → sized n cfg → sized n cfg'.
Proof. intros [] []. split; congruence. Qed.

(** ** [apply] on the message it expects *)

(** Nobody has applied another entry at that index. *)
Definition consistent (idx : Z) (e : logEntry C) cfg : Prop :=
  ∀ log e', log ∈ cf_logs cfg → log !! idx = Some e' → e' = e.

Lemma checkConsistency_pass i idx e cfg : consistent idx e cfg → checkConsistency i idx e cfg = Pass tt.
Proof.
  unfold consistent, checkConsistency. induction (cf_logs cfg) as [|log logs IH]; intros Hc; [done|]. cbn [foreach].
  assert (match log !! idx with Some e0 => if decide (e0 ≠ e) then Fatal else Pass tt | None => Pass tt end = Pass tt) as ->.
  { destruct (log !! idx) as [e'|] eqn:He; [|done]. rewrite decide_False; [done|]. intros Hne. apply Hne.
    eapply Hc; [left|done]. }
  apply IH. intros log' e' Hl. apply Hc. by right.
Qed.

Lemma first_message_pass i m cfg n : sized n cfg → peer n i → at_ (cf_nextIndex cfg) i = Pass (CommandIndex m) →
  ∃ rcv, first_message i m cfg = Pass (set_didRecv rcv cfg) ∧ length rcv = n.
Proof.
  intros Hz Hi Hn. unfold first_message. destruct (at_total (cf_didRecv cfg) i) as (b & -> & _); [by rewrite (sz_didRecv n cfg Hz)|].
  simpl. destruct b. { exists (cf_didRecv cfg). split; [by destruct cfg|apply Hz]. }
  rewrite (put_total (cf_didRecv cfg)) by (by rewrite (sz_didRecv n cfg Hz)). simpl.
  exists (<[Z.to_nat i := true]> (cf_didRecv cfg)). split; [|rewrite length_insert; apply Hz].
  case_decide as H1; [|done]. rewrite Hn. simpl. rewrite decide_True; [done|]. by rewrite H1.
Qed.

(** What [apply] changes when it passes. *)
Record applied_to (i : Z) (m : ApplyMsg C) cfg cfg' : Prop := {
  ap_paxos : cf_paxos cfg' = cf_paxos cfg;
  ap_saved : cf_saved cfg' = cf_saved cfg;
  ap_stopCh : cf_stopCh cfg' = cf_stopCh cfg;
  ap_next : cf_nextIndex cfg' = <[Z.to_nat i := CommandIndex m + 1]> (cf_nextIndex cfg);
  ap_logs : ∃ log, at_ (cf_logs cfg) i = Pass log ∧
    cf_logs cfg' = <[Z.to_nat i := <[CommandIndex m := entry_of m]> log]> (cf_logs cfg);
}.

Lemma record_pass n i m cfg : sized n cfg → peer n i → at_ (cf_nextIndex cfg) i = Pass (CommandIndex m) →
  consistent (CommandIndex m) (entry_of m) cfg → ∃ cfg', record_entry i m cfg = Pass cfg' ∧ applied_to i m cfg cfg' ∧ sized n cfg'.
Proof.
  intros Hz Hi Hn Hc. unfold record_entry.
  rewrite Hn. simpl. rewrite decide_False by naive_solver. rewrite (put_total (cf_nextIndex cfg)) by (by rewrite (sz_nextIndex n cfg Hz)). simpl.
  rewrite checkConsistency_pass by done. simpl.
  destruct (at_total (cf_logs cfg) i) as (log & Hlog & _); [by rewrite (sz_logs n cfg Hz)|]. rewrite Hlog. simpl.
  rewrite (put_total (cf_logs cfg)) by (by rewrite (sz_logs n cfg Hz)). simpl.
  assert (∀ c, cf_paxos c = cf_paxos cfg → cf_saved c = cf_saved cfg → cf_stopCh c = cf_stopCh cfg → cf_didRecv c = cf_didRecv cfg →
    cf_nextIndex c = <[Z.to_nat i := CommandIndex m + 1]> (cf_nextIndex cfg) →
    cf_logs c = <[Z.to_nat i := <[CommandIndex m := entry_of m]> log]> (cf_logs cfg) → length (cf_numCommands c) = n →
    applied_to i m cfg c ∧ sized n c) as Hok.
  { intros c H1 H2 H3 H4 H5 H6 H7. split; [split; try done; by exists log|].
    split; rewrite ?H1, ?H2, ?H3, ?H4, ?H5, ?H6, ?length_insert; try done; apply Hz. }
  destruct (CommandValid m).
  - destruct (at_total (cf_numCommands cfg) i) as (k & -> & _); [by rewrite (sz_numCommands n cfg Hz)|]. simpl.
    rewrite put_total by (by rewrite (sz_numCommands n cfg Hz)). simpl. eexists. split; [done|].
    apply Hok; try done. simpl. rewrite length_insert. apply Hz.
  - eexists. split; [done|]. apply Hok; try done. apply Hz.
Qed.

Lemma apply_pass n i m cfg : sized n cfg → peer n i → at_ (cf_nextIndex cfg) i = Pass (CommandIndex m) →
  consistent (CommandIndex m) (entry_of m) cfg → ∃ cfg', apply_ i m cfg = Pass cfg' ∧ applied_to i m cfg cfg' ∧ sized n cfg'.
Proof.
  intros Hz Hi Hn Hc. unfold apply_. destruct (first_message_pass i m cfg n Hz Hi Hn) as (rcv & -> & Hrcv).
  cbn [mbind verdict_bind]. destruct (record_pass n i m (set_didRecv rcv cfg)) as (cfg' & Hr & [] & Hz'); [|done..|].
  { destruct Hz. by split. }
  exists cfg'. split; [done|]. by split.
Qed.

(** ** The instance of a peer, and what its persister holds *)
Definition alive (i : Z) (op : OmniPaxos C) cfg : Prop :=
  at_ (cf_paxos cfg) i = Pass (Some op) ∧ at_ (cf_saved cfg) i = Pass (Some Shared) ∧ at_ (cf_stopCh cfg) i = Pass (Some false).
Definition down (i : Z) (ps : Persister) cfg : Prop :=
  at_ (cf_paxos cfg) i = Pass None ∧
  (at_ (cf_saved cfg) i = Pass (Some (Own ps)) ∨ at_ (cf_saved cfg) i = Pass None ∧ ps = MakePersister).
Definition persisted_at (i : Z) (ps : Persister) cfg : Prop := (∃ op, alive i op cfg ∧ op_persister op = ps) ∨ down i ps cfg.

(** Only what belongs to peer [i] has changed; nobody's log has. *)
Record elsewhere (i : Z) cfg cfg' : Prop := {
  el_paxos j : j ≠ i → at_ (cf_paxos cfg') j = at_ (cf_paxos cfg) j;
  el_saved j : j ≠ i → at_ (cf_saved cfg') j = at_ (cf_saved cfg) j;
  el_stopCh j : j ≠ i → at_ (cf_stopCh cfg') j = at_ (cf_stopCh cfg) j;
  el_next j : j ≠ i → at_ (cf_nextIndex cfg') j = at_ (cf_nextIndex cfg) j;
}.

#[export] Instance elsewhere_preorder i : PreOrder (elsewhere i).
Proof. split; [done|]. intros a b c [] []. split; intros j Hj; rewrite <-?el_paxos0, <-?el_saved0, <-?el_stopCh0, <-?el_next0; auto. Qed.

Lemma at_insert_ne {A} (l : list A) i j x : j ≠ i → 0 ≤ i → at_ (<[Z.to_nat i := x]> l) j = at_ l j.
Proof.
  intros Hne Hi. unfold at_, go_index. case_decide; [|done]. by rewrite list_lookup_insert_ne by lia.
Qed.

Lemma at_insert_eq {A} (l : list A) i x : 0 ≤ i < len l → at_ (<[Z.to_nat i := x]> l) i = Pass x.
Proof. intros Hi. by rewrite at_insert, decide_True by done. Qed.

Lemma same_rest_elsewhere i cfg cfg' : same_rest cfg cfg' → elsewhere i cfg cfg'.
Proof. intros []. by split; intros j _; congruence. Qed.

Lemma same_rest_persisted i ps cfg cfg' : same_rest cfg cfg' → persisted_at i ps cfg → persisted_at i ps cfg'.
Proof. intros []. unfold persisted_at, alive, down. congruence || (rewrite sr_paxos0, sr_saved0, sr_stopCh0; done). Qed.

Lemma at_range {A} (l : list A) i x : at_ l i = Pass x → 0 ≤ i < len l.
Proof. intros [? Hl%lookup_lt_Some]%at_Pass. lia. Qed.

(** The first renewal takes a copy out of the running instance. *)
Lemma renew_pass f i ps cfg : (∀ ps, f ps = ps) → persisted_at i ps cfg → ∃ cfg', renew f i cfg = Pass cfg' ∧
  elsewhere i cfg cfg' ∧ cf_logs cfg' = cf_logs cfg ∧ (∀ n, sized n cfg → sized n cfg') ∧
  cf_paxos cfg' = cf_paxos cfg ∧ cf_stopCh cfg' = cf_stopCh cfg ∧ cf_nextIndex cfg' = cf_nextIndex cfg ∧
  (at_ (cf_saved cfg') i = Pass (Some (Own ps)) ∨ at_ (cf_saved cfg') i = Pass None ∧ ps = MakePersister).
Proof.
  intros Hf Hp. unfold renew.
  assert (∀ sp, at_ (cf_saved cfg) i = Pass (Some sp) → content i sp cfg = Pass ps →
    renew f i cfg = Pass (set_saved (<[Z.to_nat i := Some (Own ps)]> (cf_saved cfg)) cfg)) as Hr.
  { intros sp Hsp Hc. unfold renew. rewrite Hsp. simpl. rewrite Hc. simpl. rewrite put_total, Hf by by eapply at_range. done. }
  assert (∀ sp, at_ (cf_saved cfg) i = Pass (Some sp) → elsewhere i cfg (set_saved (<[Z.to_nat i := Some (Own ps)]> (cf_saved cfg)) cfg) ∧
    at_ (<[Z.to_nat i := Some (Own ps)]> (cf_saved cfg)) i = Pass (Some (Own ps))) as He.
  { intros sp Hsp%at_range. split; [|by apply at_insert_eq]. split; intros j Hj; simpl; try done. apply at_insert_ne; [done|lia]. }
  assert (∀ n, sized n cfg → sized n (set_saved (<[Z.to_nat i := Some (Own ps)]> (cf_saved cfg)) cfg)) as Hz.
  { intros n []. split; simpl; rewrite ?length_insert; done. }
  destruct Hp as [(op & (Hop & Hs & _) & Hps)|(Hop & [Hs|[Hs ->]])].
  - unfold renew in Hr. rewrite (Hr Shared Hs) by (simpl; by rewrite Hop; simpl; rewrite Hps).
    eexists. split; [done|]. destruct (He _ Hs). split_and!; try done. by left.
  - unfold renew in Hr. rewrite (Hr (Own ps) Hs) by done.
    eexists. split; [done|]. destruct (He _ Hs). split_and!; try done. by left.
  - rewrite Hs. simpl. exists cfg. split; [done|]. split_and!; try done. by right.
Qed.

Lemma kill_pass i ps cfg : (∃ op, at_ (cf_paxos cfg) i = Pass (Some op) ∧ at_ (cf_stopCh cfg) i = Pass (Some false)) ∨ at_ (cf_paxos cfg) i = Pass None →
  (at_ (cf_saved cfg) i = Pass (Some (Own ps)) ∨ at_ (cf_saved cfg) i = Pass None ∧ ps = MakePersister) →
  ∃ cfg', kill i cfg = Pass cfg' ∧ elsewhere i cfg cfg' ∧ cf_logs cfg' = cf_logs cfg ∧ (∀ n, sized n cfg → sized n cfg') ∧
    cf_nextIndex cfg' = cf_nextIndex cfg ∧ down i ps cfg'.
Proof.
  unfold kill, down. intros [(op & Hop & Hst)|Hop] Hs; rewrite Hop; simpl.
  - rewrite Hst. simpl. rewrite (put_total (cf_stopCh cfg)) by by eapply at_range. simpl.
    rewrite (put_total (cf_paxos cfg)) by by eapply at_range. simpl. eexists. split; [done|].
    pose proof (at_range _ _ _ Hop). pose proof (at_range _ _ _ Hst). split_and!; [split|done| |done|by apply at_insert_eq|done].
    1-4: intros j Hj; simpl; rewrite ?at_insert_ne by (done || lia); done.
    intros n []. split; simpl; rewrite ?length_insert; done.
  - exists cfg. split; [done|]. split_and!; done.
Qed.

Lemma resave_id ps : SaveStateAndSnapshot (ReadOmnipaxosState ps) (ReadSnapshot ps) (mkPersister [] []) = ps.
Proof. destruct ps as [a b]. unfold SaveStateAndSnapshot, ReadOmnipaxosState, ReadSnapshot. simpl. by rewrite !clone_id. Qed.

(** [crash1] passes, and leaves what was persisted. *)
Lemma crash1_pass n i ps cfg : links_wf n cfg → sized n cfg → peer n i → persisted_at i ps cfg → ∃ cfg', crash1 i cfg = Pass cfg' ∧
  elsewhere i cfg cfg' ∧ cf_logs cfg' = cf_logs cfg ∧ sized n cfg' ∧ cf_nextIndex cfg' = cf_nextIndex cfg ∧ down i ps cfg'.
Proof.
  intros Hw Hz Hi Hp. unfold crash1. destruct (disconnect_run n i cfg Hw Hi) as (P & Q & Hd & _).
  set (c1 := switch_pairs _ _ _) in Hd. rewrite Hd. cbn [mbind verdict_bind].
  set (c2 := set_net _ c1). assert (same_rest cfg c2) as H2 by by split.
  pose proof (same_rest_persisted i ps cfg c2 H2 Hp) as Hp2. pose proof (same_rest_sized n cfg c2 H2 Hz) as Hz2.
  destruct (renew_pass Copy i ps c2 Copy_id Hp2) as (c3 & -> & He3 & Hl3 & Hz3 & Hpx3 & Hst3 & Hn3 & Hs3). cbn [mbind verdict_bind].
  destruct (kill_pass i ps c3) as (c4 & -> & He4 & Hl4 & Hz4 & Hn4 & Hd4); [|done|].
  { rewrite Hpx3, Hst3. destruct Hp2 as [(op & (? & _ & ?) & _)|[? _]]; [left; by exists op|by right]. }
  cbn [mbind verdict_bind].
  destruct (renew_pass (λ ps, SaveStateAndSnapshot (ReadOmnipaxosState ps) (ReadSnapshot ps) (mkPersister [] [])) i ps c4 resave_id)
    as (c5 & -> & He5 & Hl5 & Hz5 & Hpx5 & Hst5 & Hn5 & Hs5); [by right|].
  exists c5. split; [done|]. split_and!.
  - etrans; [by apply same_rest_elsewhere|]. etrans; [exact He3|]. by etrans.
  - by rewrite Hl5, Hl4, Hl3.
  - auto.
  - by rewrite Hn5, Hn4, Hn3.
  - split; [rewrite Hpx5; apply Hd4|done].
Qed.

(** ** Starting *)

(** Every entry of the tester's copies is one that [ok] allows for its peer;
    [ok] allows one entry for an index. *)
Definition functional (ok : Z → Z → logEntry C → Prop) : Prop := ∀ i j k e e', ok i k e → ok j k e' → e = e'.
Definition logs_ok (ok : Z → Z → logEntry C → Prop) cfg : Prop :=
  ∀ j log k e, at_ (cf_logs cfg) j = Pass log → log !! k = Some e → ok j k e.

Lemma elem_of_at {A} (l : list A) x : x ∈ l → ∃ j, at_ l j = Pass x.
Proof. intros [j Hj]%list_elem_of_lookup. exists (Z.of_nat j). apply at_Pass. split; [lia|]. by rewrite Nat2Z.id. Qed.

Lemma logs_consistent ok cfg i m : functional ok → logs_ok ok cfg → ok i (CommandIndex m) (entry_of m) →
  consistent (CommandIndex m) (entry_of m) cfg.
Proof. intros Hf Hl Hm log e [j Hj]%elem_of_at He. eapply Hf; [by eapply Hl|done]. Qed.

Lemma applied_logs_ok ok i m cfg cfg' : applied_to i m cfg cfg' → logs_ok ok cfg → ok i (CommandIndex m) (entry_of m) → logs_ok ok cfg'.
Proof.
  intros [_ _ _ _ (log & Hlog & He)] Hl Hm j log' k e Hj Hk. rewrite He in Hj. pose proof (at_range _ _ _ Hlog) as Hr.
  destruct (decide (j = i)) as [->|Hne].
  - rewrite at_insert_eq in Hj by done. injection Hj as <-. rewrite lookup_insert in Hk.
    case_decide; [|by eapply Hl]. subst. by injection Hk as <-.
  - rewrite at_insert_ne in Hj by (done || lia). by eapply Hl.
Qed.

(** What a run of [apply] leaves alone. *)
Record same_peers cfg cfg' : Prop := {
  sp_paxos : cf_paxos cfg' = cf_paxos cfg;
  sp_saved : cf_saved cfg' = cf_saved cfg;
  sp_stopCh : cf_stopCh cfg' = cf_stopCh cfg;
}.

(** A run of [apply] on messages with consecutive indices. *)
Lemma foreach_apply_pass n ok i l cfg idx : functional ok → sized n cfg → peer n i → at_ (cf_nextIndex cfg) i = Pass idx →
  logs_ok ok cfg → CommandIndex <$> l = seqZ idx (len l) → (∀ m, m ∈ l → ok i (CommandIndex m) (entry_of m)) →
  ∃ cfg', foreach l (apply_ i) cfg = Pass cfg' ∧ same_peers cfg cfg' ∧ sized n cfg' ∧ logs_ok ok cfg' ∧
    at_ (cf_nextIndex cfg') i = Pass (idx + len l) ∧ ∀ j, j ≠ i → at_ (cf_nextIndex cfg') j = at_ (cf_nextIndex cfg) j.
Proof.
  intros Hf. revert cfg idx. induction l as [|m l IH]; intros cfg idx Hz Hi Hn Hl Hidx Hok; cbn [foreach].
  { exists cfg. split_and!; try done. by rewrite Z.add_0_r. }
  rewrite seqZ_cons in Hidx by (simpl; lia). simpl in Hidx. injection Hidx as Hm Hidx.
  assert (ok i (CommandIndex m) (entry_of m)) as Hokm by (apply Hok; left).
  destruct (apply_pass n i m cfg Hz Hi) as (c & -> & Ha & Hzc); [by rewrite Hm|by eapply logs_consistent|].
  cbn [mbind verdict_bind]. pose proof (applied_logs_ok ok i m cfg c Ha Hl Hokm) as Hlc. destruct Ha as [Hp Hs Hst Hnx _].
  pose proof (at_range _ _ _ Hn) as Hr.
  destruct (IH c (idx + 1)) as (c' & Hc' & [] & Hz' & Hl' & Hn' & He'); [done|done| |done| |intros m' Hm'; apply Hok; by right|].
  - rewrite Hnx, at_insert_eq by done. by rewrite Hm.
  - etrans; [exact Hidx|]. f_equal; lia.
  - exists c'. split; [done|]. split_and!; try done; [split; congruence| |].
    + rewrite Hn'. f_equal. simpl. lia.
    + intros j Hj. rewrite He' by done. rewrite Hnx. apply at_insert_ne; [done|lia].
Qed.

Lemma crash1_ends n i cfg cfg' : links_wf n cfg → peer n i → crash1 i cfg = Pass cfg' → links_wf n cfg' ∧ ends (cf_net cfg') = ends (cf_net cfg).
Proof.
  intros Hw Hi Hc. split; [by eapply crash1_shows, Hc; [..|by apply shows_self]|].
  destruct (crash1_links _ _ _ Hc) as (c1 & Hd & Hs). rewrite (sl_ends _ _ Hs).
  destruct (disconnect_run n i cfg Hw Hi) as (P & Q & Hr & _). rewrite Hr in Hd. injection Hd as <-.
  simpl. by destruct (EnableAll_routes (omap (name_of (cf_endnames cfg)) (star i (upto n) P Q)) false (cf_net cfg)) as (-> & _).
Qed.

(** The ends of the new instance can be made. *)
Lemma fresh_row_made n names (net : Network) : fresh_row n names net = true →
  ∃ net', makeEnds (zip (names <$> upto n) (srvname <$> upto n)) net = Pass net'.
Proof.
  intros [Hnd%bool_decide_eq_true Hnew%bool_decide_eq_true]%andb_true_iff.
  apply makeEnds_total; rewrite zip_row_fst; [done|]. by apply Forall_forall.
Qed.

Lemma indices_split {A} (f : A → Z) a k (l : list A) : f <$> l = seqZ a (len l) →
  f <$> take k l = seqZ a (len (take k l)) ∧ f <$> drop k l = seqZ (a + len (take k l)) (len (drop k l)).
Proof.
  intros Hl. rewrite <-(take_drop k l) in Hl at 1. rewrite fmap_app in Hl.
  replace (len l) with (len (take k l) + len (drop k l)) in Hl by (rewrite length_take, length_drop; lia).
  rewrite seqZ_app in Hl by lia. apply app_inj_1 in Hl; [done|]. rewrite length_fmap, length_seqZ. lia.
Qed.

Lemma new_ends_pass n i names cfg : links_wf n cfg → peer n i → fresh_row n names (cf_net cfg) = true →
  ∃ cfg', new_ends i names cfg = Pass cfg' ∧ same_rest cfg cfg' ∧ cf_n cfg' = n.
Proof.
  intros Hw Hi Hfr. unfold new_ends. rewrite (lw_n n cfg Hw), put_total by (by rewrite (lw_rows n cfg Hw)). simpl.
  destruct (fresh_row_made n names (cf_net cfg) Hfr) as [net' ->]. simpl. eexists. split; [done|]. split; [by split|]. apply Hw.
Qed.

Lemma last_persisted_down i ps cfg : down i ps cfg → last_persisted i cfg = Pass ps.
Proof. unfold last_persisted. intros [_ [Hs|[Hs ->]]]; rewrite Hs; simpl; by rewrite ?Copy_id. Qed.

Lemma put_instance_pass n i rf srv cfg : sized n cfg → peer n i → at_ (cf_stopCh cfg) i = Pass (Some false) →
  ∃ cfg', put_instance i rf srv cfg = Pass cfg' ∧ sized n cfg' ∧ elsewhere i cfg cfg' ∧ alive i rf cfg' ∧
    cf_logs cfg' = cf_logs cfg ∧ cf_nextIndex cfg' = cf_nextIndex cfg.
Proof.
  intros Hz Hi Hst. unfold put_instance. rewrite (put_total (cf_saved cfg)) by (by rewrite (sz_saved n cfg Hz)). simpl.
  rewrite (put_total (cf_paxos cfg)) by (by rewrite (sz_paxos n cfg Hz)). simpl.
  rewrite (put_total (cf_didRecv cfg)) by (by rewrite (sz_didRecv n cfg Hz)). simpl.
  eexists. split; [done|]. unfold peer in Hi. split_and!; [|split|split_and!|done|done]; simpl.
  - destruct Hz. split; simpl; by rewrite ?length_insert.
  - intros j Hj. apply at_insert_ne; [done|lia].
  - intros j Hj. apply at_insert_ne; [done|lia].
  - done.
  - done.
  - apply at_insert_eq. by rewrite (sz_paxos n cfg Hz).
  - apply at_insert_eq. by rewrite (sz_saved n cfg Hz).
  - done.
Qed.

Lemma logs_ok_eq ok cfg cfg' : cf_logs cfg' = cf_logs cfg → logs_ok ok cfg → logs_ok ok cfg'.
Proof. unfold logs_ok. by intros ->. Qed.

(** [start1] on a peer whose persisted state [Make] accepts. *)
Lemma start1_pass n ok i names srv k ps rf es cfg : links_wf n cfg → sized n cfg → peer n i → persisted_at i ps cfg →
  fresh_row n names (cf_net cfg) = true → Make n i ps = Some (rf, es) → functional ok → logs_ok ok cfg → 
  CommandIndex <$> applied es = seqZ 0 (len (applied es)) → (∀ m, m ∈ applied es → ok i (CommandIndex m) (entry_of m)) →
  ∃ cfg', start1 i names srv k cfg = Pass (cfg', drop k (applied es)) ∧ sized n cfg' ∧ elsewhere i cfg cfg' ∧ logs_ok ok cfg' ∧
    alive i rf cfg' ∧ at_ (cf_nextIndex cfg') i = Pass (len (take k (applied es))).
Proof.
  intros Hw Hz Hi Hp Hfr Hmake Hf Hl Hidx Hok. unfold start1.
  destruct (crash1_pass n i ps cfg Hw Hz Hi Hp) as (c1 & Hc1 & He1 & Hl1 & Hz1 & Hn1 & Hd1). rewrite Hc1. cbn [mbind verdict_bind].
  destruct (crash1_ends n i cfg c1 Hw Hi Hc1) as [Hw1 Hends].
  destruct (new_ends_pass n i names c1 Hw1 Hi) as (c2 & -> & Hr2 & Hcn2); [unfold fresh_row in *; by rewrite Hends|]. cbn [mbind verdict_bind].
  pose proof (same_rest_sized n c1 c2 Hr2 Hz1) as Hz2. rewrite (put_total (cf_nextIndex c2)) by (by rewrite (sz_nextIndex n c2 Hz2)). cbn [mbind verdict_bind].
  set (c3 := set_nextIndex _ c2). assert (down i ps c3) as Hd3.
  { unfold down, c3. simpl. by rewrite (sr_paxos _ _ Hr2), (sr_saved _ _ Hr2). }
  rewrite (last_persisted_down i ps c3 Hd3). cbn [mbind verdict_bind].
  change (cf_stopCh c3) with (cf_stopCh c2).
  rewrite (put_total (cf_stopCh c2)) by (by rewrite (sz_stopCh n c2 Hz2)). cbn [mbind verdict_bind]. set (c4 := set_stopCh _ c3).
  change (cf_n c4) with (cf_n c2). rewrite Hcn2, Hmake. cbn [or_crash mbind verdict_bind].
  assert (sized n c4) as Hz4 by (destruct Hz2; split; simpl; by rewrite ?length_insert).
  destruct (foreach_apply_pass n ok i (take k (applied es)) c4 0) as (c5 & -> & Hs5 & Hz5 & Hl5 & Hn5 & He5); [done|done|done| | | | |].
  { simpl. apply at_insert_eq. by rewrite (sz_nextIndex n c2 Hz2). }
  { apply (logs_ok_eq ok cfg); [|done]. simpl. by rewrite (sr_logs _ _ Hr2). }
  { by apply indices_split. }
  { intros m Hm. apply Hok. apply elem_of_take in Hm as (j & Hj & _). by eapply list_elem_of_lookup_2. }
  cbn [mbind verdict_bind].
  assert (at_ (cf_stopCh c5) i = Pass (Some false)) as Hst5.
  { rewrite (sp_stopCh _ _ Hs5). simpl. apply at_insert_eq. by rewrite (sz_stopCh n c2 Hz2). }
  destruct (put_instance_pass n i rf srv c5 Hz5 Hi Hst5) as (c6 & -> & Hz6 & He6 & Ha6 & Hl6 & Hn6). cbn [mbind verdict_bind].
  exists c6. split; [done|]. split_and!; [done| |by eapply logs_ok_eq|done|by rewrite Hn6, Hn5].
  etrans; [exact He1|]. etrans; [by apply same_rest_elsewhere|]. etrans; [|exact He6]. unfold peer in Hi.
  destruct Hs5 as [Hs5 Hs5' Hs5'']. split; intros j Hj.
  - by rewrite Hs5.
  - by rewrite Hs5'.
  - rewrite Hs5''. simpl. apply at_insert_ne; [done|lia].
  - rewrite He5 by done. simpl. apply at_insert_ne; [done|lia].
Qed.

(** ** The entries that the tester may see *)
Definition sent_by (h : list (Z * ApplyMsg C)) (i k : Z) (e : logEntry C) : Prop :=
  ∃ a, (i, a) ∈ h ∧ CommandIndex a = k ∧ e = entry_of a.

Lemma apply_msgs_valid (log : list C) from to a : a ∈ applied (apply_msgs log from to) → CommandValid a = true.
Proof.
  rewrite applied_apply_msgs. intros [j Hj]%list_elem_of_lookup. rewrite list_lookup_imap in Hj.
  destruct (_ !! j); simpl in Hj; [|done]. by injection Hj as <-.
Qed.

Lemma commit_valid i op es (c : cluster C) : (∀ j a, (j, a) ∈ hist c → CommandValid a = true) → (∀ a, a ∈ applied es → CommandValid a = true) →
  ∀ j a, (j, a) ∈ hist (commit i op es c) → CommandValid a = true.
Proof. simpl. intros Hc He j a [Ha|(b & [= -> ->] & Hb)%list_elem_of_fmap]%elem_of_app; [by eapply Hc|auto]. Qed.

Lemma progress_valid op op' (es : list (Effect C)) : progress op op' es → ∀ a, a ∈ applied es → CommandValid a = true.
Proof. intros [_ _ _ Ha _] a. rewrite Ha. apply apply_msgs_valid. Qed.

Lemma step_valid n ev (c c' : cluster C) : cluster_wf n c → step ev c = Some c' → (∀ j a, (j, a) ∈ hist c → CommandValid a = true) →
  ∀ j a, (j, a) ∈ hist c' → CommandValid a = true.
Proof.
  intros Hc Hs Hv. pose proof (cw_node _ _ Hc) as Hwf. destruct ev as [ord k|k|i|i cmd|i]; simpl in Hs.
  - apply bind_Some in Hs as (p & Hp & (op & Hop & ([op' es] & Hh & [= <-])%bind_Some)%bind_Some).
    apply commit_valid; [done|]. eapply progress_valid, (handle_progress (H := ord)); [by eapply Hwf|exact Hh].
  - apply bind_Some in Hs as (p & Hp & [= <-]). done.
  - apply bind_Some in Hs as (op & Hop & ([op' es] & Hh & [= <-])%bind_Some).
    apply commit_valid; [done|]. eapply progress_valid, startTimer_progress; [by eapply Hwf|done].
  - apply bind_Some in Hs as (op & Hop & ([[res op'] es] & Hh & [= <-])%bind_Some).
    apply commit_valid; [done|]. by eapply progress_valid, Proposal_progress.
  - apply bind_Some in Hs as (op & Hop & ([op' es] & Hh & [= <-])%bind_Some).
    apply restart_good in Hh as (_ & _ & _ & _ & ->); [|by eapply Hwf]. apply commit_valid; [done|]. apply apply_msgs_valid.
Qed.

Lemma hist_valid n (c : cluster C) i a : reachable n c → (i, a) ∈ hist c → CommandValid a = true.
Proof.
  intros Hr. revert i a. induction Hr as [|c ev c' Hr IH Hs]; [intros i a Ha; by apply not_elem_of_nil in Ha|].
  eapply step_valid; [by apply reachable_wf|exact Hs|done].
Qed.

(** ** The simulation *)
Record sim (n : nat) w (c : cluster C) : Prop := {
  si_reach : ordered_reachable n c;
  si_links : links_wf n (tw_cfg w);
  si_started : all_started n (tw_cfg w);
  si_sized : sized n (tw_cfg w);
  si_soup : tw_soup w = net c;
  si_node i op : nodes c !! i = Some op →
    (alive i op (tw_cfg w) ∧ ∃ k, at_ (cf_nextIndex (tw_cfg w)) i = Pass k ∧ 0 ≤ k ≤ DecidedIdx (op_os op) ∧
      CommandIndex <$> queue w i = seqZ k (DecidedIdx (op_os op) - k)) ∨
    down i (op_persister op) (tw_cfg w);
  si_queue i m : m ∈ queue w i → (i, m) ∈ hist c;
  si_logs : logs_ok (sent_by (hist c)) (tw_cfg w);
}.

Section odd.
Context (n : nat) (Hodd : Nat.Odd n).

Lemma sent_by_functional (c : cluster C) : ordered_reachable n c → functional (sent_by (hist c)).
Proof using Hodd.
  intros Hr i j k e e' (a & Ha & Hka & ->) (b & Hb & Hkb & ->).
  pose proof (ordered_reachable_reachable n c Hr) as Hr'. unfold entry_of.
  rewrite (hist_valid n c i a Hr' Ha), (hist_valid n c j b Hr' Hb). do 2 f_equal.
  destruct (ordered_Inv n Hodd c Hr) as [g Hg]. eapply (hist_entry n Hodd g c i j); [done..|congruence].
Qed.

Lemma sent_by_grow (h h' : list (Z * ApplyMsg C)) cfg : logs_ok (sent_by h) cfg → logs_ok (sent_by (h ++ h')) cfg.
Proof using Type.
  intros Hl j log k e Hj Hk. destruct (Hl j log k e Hj Hk) as (a & Ha & ? & ?). exists a. split; [|done].
  apply elem_of_app. by left.
Qed.

Lemma running_alive i op w c : sim n w c → running i (tw_cfg w) = Some op → nodes c !! i = Some op ∧ alive i op (tw_cfg w) ∧ peer n i.
Proof using Type.
  intros Hs Hr. unfold running in Hr. apply bind_Some in Hr as (rf & Hrf & Hop). simpl in Hop. subst rf.
  assert (at_ (cf_paxos (tw_cfg w)) i = Pass (Some op)) as Hat by (unfold at_; by rewrite Hrf).
  assert (peer n i) as Hi. { apply at_range in Hat. by rewrite (sz_paxos n _ (si_sized n w c Hs)) in Hat. }
  pose proof (reachable_wf n c (ordered_reachable_reachable n c (si_reach n w c Hs))) as Hwf.
  destruct (proj2 (cw_dom n c Hwf i) Hi) as [op' Hop'].
  destruct (si_node n w c Hs i op' Hop') as [[(Hat' & ?) _]|[Hat' _]]; rewrite Hat in Hat'; [|done].
  injection Hat' as <-. by split_and!.
Qed.

(** An instance moves in the world as its peer does in the cluster. *)
Lemma sim_moved i op op' es w c ev c' c1 :
  sim n w c → running i (tw_cfg w) = Some op → progress op op' es → wf op → ordered c ev → step ev c = Some c' →
  c' = commit i op' es c1 → nodes c1 = nodes c → hist c1 = hist c → sim n (moved i op' es (net c1) w) c'.
Proof using Hodd.
  intros Hs Hrun Hp Hwf Ho Hst -> Hnodes Hhist. destruct (running_alive i op w c Hs Hrun) as (Hop & Ha & Hi).
  destruct Hs as [Hr Hl Hsd Hz Hso Hn Hq Hlg]. split.
  - by eapply ordered_step.
  - by eapply same_links_wf, Hl; split.
  - done.
  - destruct Hz. split; simpl; by rewrite ?length_insert.
  - done.
  - intros j opj. simpl. rewrite Hnodes, lookup_insert. case_decide as Hj.
    + subst j. intros [= <-]. left. destruct (Hn i op Hop) as [[(Hp1 & Hp2 & Hp3) (k & Hk & Hkd & Hki)]|[Hp1 _]]; [|by rewrite (proj1 Ha) in Hp1].
      split. { unfold alive. simpl. rewrite at_insert_eq by by eapply at_range. done. }
      exists k. split; [done|]. destruct Hp as [_ _ Hd Happ Hlog]. split; [lia|].
      unfold queue at 1. simpl. rewrite lookup_insert_eq. simpl. rewrite fmap_app, Hki, Happ, index_apply_msgs.
      * replace (DecidedIdx (op_os op') - k) with ((DecidedIdx (op_os op) - k) + (DecidedIdx (op_os op') - DecidedIdx (op_os op))) by lia.
        rewrite seqZ_app by lia. do 2 f_equal. lia.
      * done.
      * lia.
      * destruct (decide (DecidedIdx (op_os op') ≤ DecidedIdx (op_os op))); [by left|right]. apply Hlog. lia.
    + intros Hopj. unfold queue. simpl. rewrite lookup_insert_ne by done. unfold peer in Hi.
      destruct (Hn j opj Hopj) as [[(Hp1 & Hp2 & Hp3) Hk]|[Hp1 Hp2]]; [left|right].
      * split; [|done]. unfold alive. simpl. by rewrite at_insert_ne by (done || lia).
      * unfold down. simpl. by rewrite at_insert_ne by (done || lia).
  - intros j m. simpl. rewrite Hhist. unfold queue at 1. simpl. rewrite lookup_insert. case_decide as Hj; simpl; intros Hm.
    + subst j. apply elem_of_app in Hm as [Hm|Hm]; apply elem_of_app; [left; by apply Hq|right].
      apply list_elem_of_fmap. by exists m.
    + apply elem_of_app. left. by apply Hq.
  - simpl. rewrite Hhist. by apply sent_by_grow.
Qed.

(** A step that touches nothing that the tester has seen. *)
Lemma sim_cfg w c cfg' soup q old c' : sim n w c → ordered_reachable n c' → links_wf n cfg' → all_started n cfg' →
  same_rest (tw_cfg w) cfg' → soup = net c' → nodes c' = nodes c → hist c' = hist c → q = tw_queue w → sim n (mkTW cfg' soup q old) c'.
Proof using Type.
  intros [Hr Hl Hsd Hz Hso Hn Hq Hlg] Hr' Hl' Hsd' Hrest -> Hnodes Hhist ->. split; simpl; try done.
  - by eapply same_rest_sized.
  - intros i op. rewrite Hnodes. intros Hop. destruct Hrest as [Hp Hs _ _ Hnx _ Hst]. unfold alive, down. rewrite Hp, Hs, Hnx, Hst.
    by apply Hn.
  - rewrite Hhist. apply Hq.
  - rewrite Hhist. eapply logs_ok_eq; [apply Hrest|done].
Qed.

(** The cluster can take the step, and the history only grows. *)
Lemma sim_possible w c ev : sim n w c → possible n c ev → is_Some (step ev c).
Proof using Hodd.
  intros Hs Hp. destruct (ordered_Inv n Hodd c (si_reach n w c Hs)) as [g Hg].
  eapply (step_total n); [exact Hg| |done]. apply reachable_wf, ordered_reachable_reachable, Hs.
Qed.

Lemma sim_wf w c i op : sim n w c → nodes c !! i = Some op → wf op ∧ op_npeers op = n ∧ op_me op = i.
Proof using Type.
  intros Hs Hop. exact (cw_node n c (reachable_wf n c (ordered_reachable_reachable n c (si_reach n w c Hs))) i op Hop).
Qed.

Definition follows w c w' : Prop := ∃ c', sim n w' c' ∧ hist c `prefix_of` hist c'.

Lemma follows_refl w c : sim n w c → follows w c w.
Proof using Type. intros Hs. by exists c. Qed.

Lemma follows_moved i op op' es w c ev c' c1 :
  sim n w c → running i (tw_cfg w) = Some op → progress op op' es → ordered c ev → step ev c = Some c' →
  c' = commit i op' es c1 → nodes c1 = nodes c → hist c1 = hist c → follows w c (moved i op' es (net c1) w).
Proof using Hodd.
  intros Hs Hrun Hp Ho Hst Hc Hn Hh. destruct (running_alive i op w c Hs Hrun) as (Hop & _ & _).
  destruct (sim_wf w c i op Hs Hop) as (Hwf & _ & _). exists c'. split; [by eapply sim_moved|].
  rewrite Hc. simpl. rewrite Hh. by eexists.
Qed.

Lemma sim_deliver w c ord k : sim n w c → ∃ w', tstep n (TDeliver ord k) w = Pass w' ∧ follows w c w'.
Proof using Hodd.
  intros Hs. simpl. destruct (tw_soup w !! k) as [p|] eqn:Hp; [|exists w; split; [done|by apply follows_refl]].
  destruct (running (pk_dst p) (tw_cfg w)) as [op|] eqn:Hrun; [|exists w; split; [done|by apply follows_refl]].
  destruct (in_orderb op (pk_msg p)) eqn:Hord; [|exists w; split; [done|by apply follows_refl]].
  destruct (running_alive _ op w c Hs Hrun) as (Hop & _ & _). rewrite (si_soup n w c Hs) in Hp |- *.
  assert (is_Some (step (Deliver ord k) c)) as [c' Hst].
  { apply (sim_possible w c); [done|]. simpl. by eapply lookup_lt_Some. }
  pose proof Hst as Hst'. simpl in Hst. rewrite Hp in Hst. simpl in Hst. rewrite Hop in Hst. simpl in Hst.
  destruct (handle (pk_src p) (pk_msg p) op) as [[op' es]|] eqn:Hh; [|done]. injection Hst as Hst. simpl.
  eexists. split; [done|]. eapply (follows_moved _ op op' es w c _ c' (lose k c)); [done|done| | |exact Hst'|done|done|done].
  - eapply (handle_progress (H := ord)); [|exact Hh]. by eapply sim_wf.
  - intros p' op1 Hp' Hop1. rewrite Hp in Hp'. injection Hp' as <-. rewrite Hop in Hop1. injection Hop1 as <-.
    by apply bool_decide_eq_true in Hord.
Qed.

Lemma sim_timer w c i : sim n w c → ∃ w', tstep n (TTimer i) w = Pass w' ∧ follows w c w'.
Proof using Hodd.
  intros Hs. simpl. destruct (running i (tw_cfg w)) as [op|] eqn:Hrun; [|exists w; split; [done|by apply follows_refl]].
  destruct (running_alive _ op w c Hs Hrun) as (Hop & _ & Hi). rewrite (si_soup n w c Hs).
  destruct (sim_possible w c (Timer i) Hs Hi) as [c' Hst]. pose proof Hst as Hst'. simpl in Hst. rewrite Hop in Hst. simpl in Hst.
  destruct (startTimer op) as [[op' es]|] eqn:Hh; [|done]. injection Hst as Hst. simpl.
  eexists. split; [done|]. eapply (follows_moved _ op op' es w c (Timer i) c' c); [done|done| |done|exact Hst'|done|done|done].
  eapply startTimer_progress; [|exact Hh]. by eapply sim_wf.
Qed.

Lemma sim_propose w c i cmd : sim n w c → ∃ w', tstep n (TPropose i cmd) w = Pass w' ∧ follows w c w'.
Proof using Hodd.
  intros Hs. simpl. destruct (running i (tw_cfg w)) as [op|] eqn:Hrun; [|exists w; split; [done|by apply follows_refl]].
  destruct (running_alive _ op w c Hs Hrun) as (Hop & _ & Hi). rewrite (si_soup n w c Hs).
  destruct (sim_possible w c (Propose i cmd) Hs Hi) as [c' Hst]. pose proof Hst as Hst'. simpl in Hst. rewrite Hop in Hst. simpl in Hst.
  destruct (Proposal cmd op) as [[[res op'] es]|] eqn:Hh; [|done]. injection Hst as Hst. simpl.
  eexists. split; [done|]. eapply (follows_moved _ op op' es w c (Propose i cmd) c' c); [done|done| |done|exact Hst'|done|done|done].
  by eapply Proposal_progress.
Qed.

Lemma sim_drop w c k : sim n w c → ∃ w', tstep n (TDrop k) w = Pass w' ∧ follows w c w'.
Proof using Hodd.
  intros Hs. eexists. split; [done|]. destruct (net c !! k) as [p|] eqn:Hp.
  - exists (lose k c). split; [|done]. apply (sim_cfg w c); try done; [|apply Hs|apply Hs|simpl; by rewrite (si_soup n w c Hs)].
    eapply (ordered_step n c (Drop k)); [apply Hs|done|]. simpl. by rewrite Hp.
  - exists c. split; [|done]. apply (sim_cfg w c); try done; [apply Hs..|]. rewrite (si_soup n w c Hs).
    apply lookup_ge_None in Hp. rewrite delete_take_drop, take_ge, drop_ge by lia. apply app_nil_r.
Qed.

Lemma sim_link w c o : sim n w c → ∃ w', tstep n (TLink o) w = Pass w' ∧ follows w c w'.
Proof using Hodd.
  intros Hs. simpl. destruct (basic o && bool_decide (op_range n o)) eqn:Hb; [|exists w; split; [done|by apply follows_refl]].
  apply andb_true_iff in Hb as [Hb Ho%bool_decide_eq_true].
  pose proof (si_links n w c Hs) as Hl. pose proof (si_started n w c Hs) as Hsd.
  destruct (link_run_total n o (tw_cfg w) Hl Hsd Ho Hb) as [cfg' Hr]. rewrite Hr. simpl.
  destruct (link_run_shows n o (tw_cfg w) cfg' _ Hl Hsd Ho (shows_self n _ Hl) Hr) as (Hl' & Hsd' & _).
  eexists. split; [done|]. exists c. split; [|done]. apply (sim_cfg w c); try done; [apply Hs|by eapply link_run_rest|apply Hs].
Qed.

(** The state of the peers other than [i] is as it was. *)
Lemma elsewhere_node i j op cfg cfg' (q q' : list (ApplyMsg C)) : elsewhere i cfg cfg' → j ≠ i → q' = q →
  (alive j op cfg ∧ ∃ k, at_ (cf_nextIndex cfg) j = Pass k ∧ 0 ≤ k ≤ DecidedIdx (op_os op) ∧ CommandIndex <$> q = seqZ k (DecidedIdx (op_os op) - k)) ∨
    down j (op_persister op) cfg →
  (alive j op cfg' ∧ ∃ k, at_ (cf_nextIndex cfg') j = Pass k ∧ 0 ≤ k ≤ DecidedIdx (op_os op) ∧ CommandIndex <$> q' = seqZ k (DecidedIdx (op_os op) - k)) ∨
    down j (op_persister op) cfg'.
Proof using Type.
  intros [Hp Hs Hst Hn] Hj ->. unfold alive, down. by rewrite Hp, Hs, Hst, Hn by done.
Qed.

Lemma applied_to_elsewhere i m cfg cfg' : 0 ≤ i → applied_to i m cfg cfg' → elsewhere i cfg cfg'.
Proof using Type. intros Hi [Hp Hs Hst Hn _]. split; intros j Hj; rewrite ?Hp, ?Hs, ?Hst, ?Hn; try done. by apply at_insert_ne. Qed.

Lemma sim_apply w c i : sim n w c → ∃ w', tstep n (TApply i) w = Pass w' ∧ follows w c w'.
Proof using Hodd.
  intros Hs. simpl. destruct (running i (tw_cfg w)) as [op|] eqn:Hrun; [|exists w; split; [done|by apply follows_refl]].
  destruct (queue w i) as [|m q] eqn:Hq; [exists w; split; [done|by apply follows_refl]|].
  destruct (running_alive i op w c Hs Hrun) as (Hop & Ha & Hi).
  destruct (si_node n w c Hs i op Hop) as [[_ (k & Hk & Hkd & Hidx)]|[Hd _]]; [|by rewrite (proj1 Ha) in Hd].
  pose proof (f_equal length Hidx) as Hlen. rewrite Hq in Hidx, Hlen. rewrite length_fmap, length_seqZ in Hlen. simpl in Hlen.
  rewrite seqZ_cons in Hidx by lia. apply (inj2 cons) in Hidx as [Hm Hidx].
  assert (∀ m', m' = m ∨ m' ∈ q → (i, m') ∈ hist c) as Hh.
  { intros m' Hm'. apply (si_queue n w c Hs). rewrite Hq. by apply elem_of_cons. }
  pose proof (sent_by_functional c (si_reach n w c Hs)) as Hf. pose proof (si_logs n w c Hs) as Hlg.
  assert (sent_by (hist c) i (CommandIndex m) (entry_of m)) as Hsent by (exists m; split; [apply Hh; by left|done]).
  destruct (apply_pass n i m (tw_cfg w) (si_sized n w c Hs) Hi) as (cfg' & Hr & Hap & Hz'); [by rewrite Hm|by eapply logs_consistent|].
  rewrite Hr. simpl. eexists. split; [done|]. exists c. split; [|done]. pose proof (apply_links _ _ _ _ Hr) as Hsl.
  split; simpl; try apply Hs; [eapply same_links_wf, Hs; exact Hsl| |done| | |by eapply applied_logs_ok].
  - eapply all_started_endnames; [apply (sl_endnames _ _ Hsl)|apply Hs].
  - intros j opj Hopj. destruct (decide (j = i)) as [->|Hj].
    + rewrite Hop in Hopj. injection Hopj as <-. left. destruct Hap as [Hp Hsv Hst Hn _]. unfold alive. rewrite Hp, Hsv, Hst.
      split; [done|]. exists (k + 1). rewrite Hn, at_insert_eq by by eapply at_range. rewrite Hm.
      split_and!; [done|lia|lia|]. unfold queue. simpl. rewrite lookup_insert_eq. simpl. etrans; [exact Hidx|]. f_equal; lia.
    + eapply (elsewhere_node i j opj (tw_cfg w)); [|done| |by apply Hs].
      * eapply applied_to_elsewhere; [|done]. unfold peer in Hi. lia.
      * unfold queue. simpl. by rewrite lookup_insert_ne.
  - intros j m' Hm'. unfold queue in Hm'. simpl in Hm'. rewrite lookup_insert in Hm'. case_decide as Hj; [|by apply Hs].
    subst. simpl in Hm'. apply Hh. by right.
Qed.

Lemma sim_persisted w c i : sim n w c → peer n i → ∃ op, nodes c !! i = Some op ∧ persisted_at i (op_persister op) (tw_cfg w).
Proof using Type.
  intros Hs Hi. pose proof (reachable_wf n c (ordered_reachable_reachable n c (si_reach n w c Hs))) as Hwf.
  destruct (proj2 (cw_dom n c Hwf i) Hi) as [op Hop]. exists op. split; [done|].
  destruct (si_node n w c Hs i op Hop) as [[Ha _]|Hd]; [left; by exists op|by right].
Qed.

Lemma sim_crash w c i : sim n w c → ∃ w', tstep n (TCrash i) w = Pass w' ∧ follows w c w'.
Proof using Hodd.
  intros Hs. simpl. case_bool_decide as Hi; [|exists w; split; [done|by apply follows_refl]].
  destruct (sim_persisted w c i Hs Hi) as (op & Hop & Hps). pose proof (si_links n w c Hs) as Hl.
  destruct (crash1_pass n i _ _ Hl (si_sized n w c Hs) Hi Hps) as (cfg' & Hr & He & Hlg & Hz & Hn & Hd).
  rewrite Hr. simpl. eexists. split; [done|]. exists c. split; [|done].
  split; simpl; try apply Hs; [by apply (crash1_ends n i (tw_cfg w))| |done| | |].
  - eapply all_started_endnames; [by eapply crash1_endnames|apply Hs].
  - intros j opj Hopj. destruct (decide (j = i)) as [->|Hj]; [right; congruence|].
    eapply (elsewhere_node i j opj (tw_cfg w)); [done|done| |by apply Hs]. unfold queue. simpl. by rewrite lookup_insert_ne.
  - intros j m Hm. unfold queue in Hm. simpl in Hm. rewrite lookup_insert in Hm. case_decide; [|by apply Hs].
    simpl in Hm. by apply not_elem_of_nil in Hm.
  - eapply logs_ok_eq; [done|apply Hs].
Qed.

(** What [Make] answers, as the restart of the cluster. *)
Lemma sim_restart w c i op : sim n w c → peer n i → nodes c !! i = Some op → ∃ rf es,
  Make n i (op_persister op) = Some (rf, es) ∧ ordered_reachable n (commit i rf es c) ∧ 0 ≤ DecidedIdx (op_os rf) ∧
  sent es = [] ∧ CommandIndex <$> applied es = seqZ 0 (DecidedIdx (op_os rf)).
Proof using Hodd.
  intros Hs Hi Hop. destruct (sim_possible w c (Restart i) Hs Hi) as [c' Hst]. pose proof Hst as Hst'.
  simpl in Hst. rewrite Hop in Hst. simpl in Hst. destruct (sim_wf w c i op Hs Hop) as (Hwf & Hnp & Hme).
  destruct (Make (op_npeers op) (op_me op) (op_persister op)) as [[rf es]|] eqn:Hm; [|done]. injection Hst as <-.
  destruct (restart_good op rf es Hwf Hm) as (_ & Hos & _ & Hd & ->). rewrite Hnp, Hme in Hm.
  exists rf, (apply_msgs (Log (op_os op)) 0 (DecidedIdx (op_os op))). pose proof (wf_decided _ (proj1 Hwf)) as Hd0.
  rewrite Hos. split_and!; [done| |done|apply sent_apply_msgs|].
  - eapply (ordered_step n c (Restart i)); [apply Hs|done|done].
  - rewrite index_apply_msgs by done. f_equal. lia.
Qed.

Lemma sim_start w c i names srv k : sim n w c → ∃ w', tstep n (TStart i names srv k) w = Pass w' ∧ follows w c w'.
Proof using Hodd.
  intros Hs. simpl. case_bool_decide as Hi; [|exists w; split; [done|by apply follows_refl]].
  destruct (fresh_row n names (cf_net (tw_cfg w))) eqn:Hfr; simpl; [|exists w; split; [done|by apply follows_refl]].
  destruct (sim_persisted w c i Hs Hi) as (op & Hop & Hps).
  destruct (sim_restart w c i op Hs Hi Hop) as (rf & es & Hm & Hr & Hd0 & Hno & Hidx). pose proof (sent_by_functional _ Hr) as Hf.
  assert (len (applied es) = DecidedIdx (op_os rf)) as Hlen.
  { apply (f_equal length) in Hidx. rewrite length_fmap, length_seqZ in Hidx. lia. }
  assert (∀ m, m ∈ applied es → (i, m) ∈ hist (commit i rf es c)) as Hin.
  { intros m Hm1. simpl. apply elem_of_app. right. apply list_elem_of_fmap. by exists m. }
  destruct (start1_pass n _ i names srv k _ rf es (tw_cfg w) (si_links n w c Hs) (si_sized n w c Hs) Hi Hps Hfr Hm Hf)
    as (cfg' & Hst & Hz & He & Hlg & Ha & Hnx); [apply sent_by_grow, Hs|by rewrite Hlen|by intros m Hm1; exists m; auto|].
  rewrite Hst. simpl. eexists. split; [done|]. exists (commit i rf es c). split; [|simpl; by eexists].
  destruct (start1_shows n i names srv k _ _ _ _ (si_links n w c Hs) Hi (shows_self n _ (si_links n w c Hs)) Hst) as (Hl' & _ & _).
  split; simpl; try done.
  - intros j Hj. eapply (start1_started n i names srv k (tw_cfg w)); [apply Hs|done|exact Hst|by apply (si_started n w c Hs)].
  - unfold emit. by rewrite (si_soup n w c Hs), Hno, app_nil_r.
  - intros j opj. rewrite lookup_insert. case_decide as Hj.
    + subst j. intros [= <-]. left. split; [done|]. eexists. split; [exact Hnx|].
      rewrite <-Hlen in Hidx |- *. destruct (indices_split CommandIndex 0 k (applied es) Hidx) as [_ Hdrop].
      assert (len (applied es) = len (take k (applied es)) + len (drop k (applied es))) as Hsum by (rewrite length_take, length_drop; lia).
      split; [lia|]. unfold queue. simpl. rewrite lookup_insert_eq. simpl. etrans; [exact Hdrop|]. f_equal; lia.
    + intros Hopj. eapply (elsewhere_node i j opj (tw_cfg w)); [done|done| |by apply Hs].
      unfold queue. simpl. by rewrite lookup_insert_ne.
  - intros j m Hm1. unfold queue in Hm1. simpl in Hm1. rewrite lookup_insert in Hm1. case_decide as Hj.
    + subst. simpl in Hm1. apply Hin. apply list_elem_of_lookup in Hm1 as [x Hx].
      rewrite lookup_drop in Hx. by eapply list_elem_of_lookup_2.
    + apply elem_of_app. left. by apply Hs.
Qed.

(** Every event of the world passes, and the cluster follows. *)
Lemma sim_stopped w c k : sim n w c → ∃ w', tstep n (TStopped k) w = Pass w' ∧ follows w c w'.
Proof using Type. intros Hs. eexists. split; [done|]. exists c. split; [|done]. by apply (sim_cfg w c); try apply Hs. Qed.

Lemma tstep_sim w c ev : prompt ev = true → sim n w c → ∃ w', tstep n ev w = Pass w' ∧ follows w c w'.
Proof using Hodd.
  destruct ev; intros Hp; [apply sim_deliver|apply sim_drop|apply sim_timer|apply sim_propose|apply sim_apply|done|apply sim_stopped
    |apply sim_link|apply sim_crash|apply sim_start].
Qed.

Lemma trun_sim evs w c : forallb prompt evs = true → sim n w c → ∃ w', trun n evs w = Pass w' ∧ follows w c w'.
Proof using Hodd.
  revert w c. unfold trun. induction evs as [|ev evs IH]; intros w c Hev Hs; cbn [foreach]; [exists w; split; [done|by apply follows_refl]|].
  simpl in Hev. apply andb_true_iff in Hev as [Hev Hevs].
  destruct (tstep_sim w c ev Hev Hs) as (w1 & -> & c1 & Hs1 & Hp1). cbn [mbind verdict_bind].
  destruct (IH w1 c1 Hevs Hs1) as (w2 & -> & c2 & Hs2 & Hp2). exists w2. split; [done|]. exists c2. split; [done|]. by etrans.
Qed.

(** ** A new test *)
Section boot.
Context (names : Z → Z → string) (srvs : Z → positive).
Context (Hnames : ∀ i j i' j', peer n i → peer n j → peer n i' → peer n j' → names i j = names i' j' → i = i' ∧ j = j').

(** The peers of [S] have been started. *)
Record booted (S : list Z) cfg : Prop := {
  bo_links : links_wf n cfg;
  bo_shows : shows n cfg none;
  bo_sized : sized n cfg;
  bo_ends e : e ∈ ends (cf_net cfg) → ∃ i j, i ∈ S ∧ peer n j ∧ e = names i j;
  bo_logs : logs_ok (λ _ _ _, False) cfg;
  bo_in i : peer n i → i ∈ S → ∃ op, Make n i MakePersister = Some (op, []) ∧ alive i op cfg ∧
    at_ (cf_nextIndex cfg) i = Pass 0 ∧ started i cfg;
  bo_out i : peer n i → i ∉ S → down i MakePersister cfg;
}.

Lemma booted_fresh S cfg i : booted S cfg → peer n i → (∀ j, j ∈ S → peer n j) → i ∉ S → fresh_row n (names i) (cf_net cfg) = true.
Proof using Hodd Hnames.
  intros Hb Hi HS Hni. unfold fresh_row. apply andb_true_iff. split; apply bool_decide_eq_true.
  - apply NoDup_fmap_2_strong; [|apply NoDup_seqZ]. intros j k Hj%elem_of_upto Hk%elem_of_upto He. by apply Hnames in He as [_ ->].
  - apply Forall_fmap, Forall_forall. intros j Hj%elem_of_upto He. simpl in He.
    destruct (bo_ends _ _ Hb _ He) as (i' & j' & Hi' & Hj' & Heq). apply Hnames in Heq as [-> _]; auto.
Qed.

Lemma start1_ends i row srv k cfg cfg' q : links_wf n cfg → peer n i → start1 i row srv k cfg = Pass (cfg', q) →
  ∀ e, e ∈ ends (cf_net cfg') → e ∈ ends (cf_net cfg) ∨ ∃ j, peer n j ∧ e = row j.
Proof using Type.
  intros Hw Hi Hst e He. destruct (start1_links n i row srv k cfg cfg' q (lw_n n cfg Hw) Hst) as (c1 & net' & Hc & Hr).
  destruct (crash1_ends n i cfg c1 Hw Hi Hc) as [Hw1 Hends]. destruct Hr as [Hm Hs]; [apply Hw1|].
  rewrite (sl_ends _ _ Hs) in He. simpl in He. apply (md_ends _ _ _ Hm) in He. rewrite zip_row_fst, Hends in He.
  destruct He as [(j & -> & Hj%elem_of_upto)%list_elem_of_fmap|He]; [right; by exists j|by left].
Qed.

Lemma boot_start S i cfg : booted S cfg → peer n i → (∀ j, j ∈ S → peer n j) → i ∉ S →
  ∃ cfg', start_body names srvs i cfg = Pass cfg' ∧ booted (i :: S) cfg'.
Proof using Hodd Hnames.
  intros Hb Hi HS Hni. pose proof (bo_links _ _ Hb) as Hw. destruct (Make_fresh (C := C) n i Hi) as (op & Hm & _).
  destruct (start1_pass n (λ _ _ _, False) i (names i) (srvs i) 0 MakePersister op [] cfg Hw (bo_sized _ _ Hb) Hi)
    as (cfg' & Hst & Hz & He & Hl & Ha & Hnx); [right; by apply (bo_out _ _ Hb)|by apply (booted_fresh S)|done|by intros ?????|apply Hb|done| |].
  { intros m Hin. by apply not_elem_of_nil in Hin. }
  unfold start_body. rewrite Hst. simpl. exists cfg'. split; [done|].
  destruct (start1_shows n i (names i) (srvs i) 0 cfg cfg' _ none Hw Hi (bo_shows _ _ Hb) Hst) as (Hw' & Hs' & Hsd').
  split; try done.
  - eapply shows_ext; [| |exact Hs']; simpl; intros; [rewrite mark_one; by case_decide|unfold set_links; by case_match].
  - intros e [Hin|(j & Hj & ->)]%(start1_ends i (names i) (srvs i) 0 cfg cfg' _ Hw Hi Hst).
    + destruct (bo_ends _ _ Hb e Hin) as (i' & j & ? & ? & ?). exists i', j. split; [by right|done].
    + exists i, j. split; [left|done].
  - intros j Hj Hin. destruct (decide (j = i)) as [->|Hne]; [by exists op|].
    destruct (bo_in _ _ Hb j Hj) as (opj & ? & ? & ? & ?); [set_solver|]. exists opj.
    destruct He as [Hp Hsv Hstp Hn]. unfold alive. rewrite Hp, Hsv, Hstp, Hn by done. split; [done|]. split; [done|]. split; [done|].
    eapply (start1_started n i); [exact Hw|done|exact Hst|done].
  - intros j Hj Hnin. destruct He as [Hp Hsv Hstp Hn]. unfold down. rewrite Hp, Hsv by set_solver. apply (bo_out _ _ Hb); set_solver.
Qed.

Lemma boot_all l S cfg : NoDup l → (∀ j, j ∈ l → peer n j ∧ j ∉ S) → booted S cfg → (∀ j, j ∈ S → peer n j) →
  ∃ cfg' S', foreach l (start_body names srvs) cfg = Pass cfg' ∧ booted S' cfg' ∧ ∀ j, j ∈ l ∨ j ∈ S → j ∈ S'.
Proof using Hodd Hnames.
  revert S cfg. induction l as [|i l IH]; intros S cfg Hnd Hl Hb HS; cbn [foreach].
  { exists cfg, S. split_and!; try done. intros j [Hj|Hj]; [by apply not_elem_of_nil in Hj|done]. }
  apply NoDup_cons in Hnd as [Hil Hnd]. destruct (Hl i) as [Hi Hni]; [left|].
  destruct (boot_start S i cfg Hb Hi HS Hni) as (c & -> & Hc). cbn [mbind verdict_bind].
  destruct (IH (i :: S) c Hnd) as (c' & S' & -> & Hb' & Hin); [|done|set_solver|].
  { intros j Hj. destruct (Hl j) as [Hpj Hnj]; [by right|]. split; [done|]. set_solver. }
  exists c', S'. split_and!; [done..|]. intros j Hj. apply Hin. set_solver.
Qed.

Lemma booted_zero unreliable : booted [] (new_config n unreliable).
Proof using Type.
  destruct (zero_links (C := C) n unreliable) as [Hw Hs]. simpl in *. split; simpl; try done.
  - split; simpl; apply length_replicate.
  - intros j log k e. simpl. intros ->%at_replicate. by rewrite lookup_empty.
  - intros i _ Hin. by apply not_elem_of_nil in Hin.
  - intros i Hi _. unfold down. simpl.
    assert (∀ A (x : A), at_ (replicate n x) i = Pass x) as Hrep.
    { intros A x. destruct (at_total (replicate n x) i) as (y & Hy & _); [by rewrite length_replicate|].
      by rewrite Hy, (at_replicate n _ _ _ Hy). }
    rewrite !Hrep. split; [done|]. by right.
Qed.

(** [makeConfig] passes, and the world it makes is simulated by a new cluster. *)
Lemma makeConfig_sim unreliable : ∃ cfg, makeConfig n unreliable names srvs = Pass cfg ∧ sim n (tworld_init cfg) (init_cluster n).
Proof using Hodd Hnames.
  destruct (boot_all (upto n) [] (new_config n unreliable) (NoDup_seqZ _ _)) as (c & S & Hc & Hb & HS); [|apply booted_zero| |].
  { intros j Hj%elem_of_upto. split; [done|]. apply not_elem_of_nil. }
  { intros j Hj. by apply not_elem_of_nil in Hj. }
  unfold makeConfig. rewrite Hc. cbn [mbind verdict_bind].
  assert (all_started n c) as Hsd.
  { intros i Hi. destruct (bo_in _ _ Hb i Hi) as (_ & _ & _ & _ & ?); [apply HS; left; by apply elem_of_upto|done]. }
  assert (Forall (op_range n) (LConnect <$> upto n)) as Hops.
  { apply Forall_fmap, Forall_forall. intros j Hj%elem_of_upto. done. }
  destruct (basic_total n (LConnect <$> upto n) c (bo_links _ _ Hb) Hsd Hops) as [cfg Hcfg].
  { apply forallb_forall. intros o (j & <- & _)%in_map_iff. done. }
  rewrite foreach_connect in Hcfg. exists cfg. split; [done|].
  assert (same_rest c cfg) as Hrest.
  { eapply foreach_rest; [|exact Hcfg]. intros j c1 c2 Hj. by apply (link_run_rest (LConnect j)). }
  destruct (makeConfig_shows n unreliable names srvs cfg) as (Hl & Hst & _); [unfold makeConfig; by rewrite Hc|].
  split; try done.
  - constructor.
  - eapply same_rest_sized; [done|apply Hb].
  - intros i op Hop%init_lookup. destruct Hop as [Hi Hm]. left.
    destruct (bo_in _ _ Hb i Hi) as (op' & Hm' & Ha & Hnx & _); [apply HS; left; by apply elem_of_upto|].
    rewrite Hm in Hm'. injection Hm' as <-. destruct (Make_fresh (C := C) n i Hi) as (op' & Hm' & Hos & _).
    rewrite Hm in Hm'. injection Hm' as <-. destruct Hrest as [Hp Hsv _ _ Hn _ Hstp]. simpl.
    unfold alive in *. rewrite Hp, Hsv, Hstp, Hn, Hos. split; [done|]. exists 0. simpl. split_and!; [done|lia|lia|].
    unfold queue. simpl. by rewrite lookup_empty.
  - intros i m. unfold queue. simpl. rewrite lookup_empty. simpl. intros Hm. by apply not_elem_of_nil in Hm.
  - eapply logs_ok_eq; [apply Hrest|]. intros j log k e Hj Hk. by destruct (bo_logs _ _ Hb j log k e Hj Hk).
Qed.
End boot.
End odd.
End world.
Arguments tworld : clear implicits.
Arguments tevent : clear implicits.

(** Names that differ for different ends. *)
Definition distinct_names (n : nat) (names : Z → Z → string) : Prop :=
  ∀ i j i' j', peer n i → peer n j → peer n i' → peer n j' → names i j = names i' j' → i = i' ∧ j = j'.

(** ** The theorem *)

(** C11 The tester never objects to an ordered cluster whose appliers stop when
    they are told to: on an odd number of peers whose ends get different names,
    whatever the network, the timers, the clients, the attaching, detaching, crashing and starting of peers do, as
    long as each peer that acts on an [Accept] or [AcceptSync] does so in order
    ([in_order] in Agreement.v) and no applier takes a message after its [stopCh]
    is closed ([prompt]), [makeConfig] passes and every check of every [ApplyMsg]
    passes: its index is the next one expected, and no peer has applied another
    command there.  Nothing makes the tester or a peer panic, and two peers that
    have applied an entry have applied the same. *)
Theorem tester_never_objects {C} `{EqDecision C} {codec : StateCodec C} (n : nat) unreliable names srvs (evs : list (tevent C)) :
  Nat.Odd n → distinct_names n names → forallb prompt evs = true → ∃ cfg w,
    makeConfig n unreliable names srvs = Pass cfg ∧ trun n evs (tworld_init cfg) = Pass w ∧
    ∀ i j li lj k e e', at_ (cf_logs (tw_cfg w)) i = Pass li → at_ (cf_logs (tw_cfg w)) j = Pass lj →
      li !! k = Some e → lj !! k = Some e' → e = e'.
Proof.
  intros Hodd Hn Hev. destruct (makeConfig_sim n Hodd names srvs Hn unreliable) as (cfg & Hc & Hs).
  destruct (trun_sim n Hodd evs _ _ Hev Hs) as (w & Hw & c & Hsc & _). exists cfg, w. split_and!; [done..|].
  intros i j li lj k e e' Hi Hj He He'.
  apply (sent_by_functional n Hodd c (si_reach n w c Hsc) i j k); by eapply (si_logs n w c Hsc).
Qed.

(** The timers elect peer 1, a command is decided and applied, and peer 1 is
    crashed and started again. *)
Definition demo_test : list (tevent Z) :=
  [TTimer 0; TTimer 2] ++ replicate 4 (TDrop 0) ++ [TTimer 1] ++ replicate 4 (TDeliver list_order 0) ++
  [TTimer 1] ++ replicate 7 (TDeliver list_order 0) ++ [TTimer 1] ++ replicate 13 (TDeliver list_order 0) ++
  [TPropose 1 7] ++ replicate 6 (TDeliver list_order 0) ++ [TApply 1; TApply 0; TCrash 1; TLink (LDisconnect 0); TStart 1 (λ j, Itoa (100 + j)) 9 0; TApply 1].

Lemma demo_test_logs : match makeConfig 3 false demo_names demo_srvs ≫= λ cfg, trun 3 demo_test (tworld_init cfg) with
  | Pass w => bool_decide (cf_nextIndex (tw_cfg w) = [0; 1; 0])
  | _ => false end = true.
Proof. vm_compute. reflexivity. Qed.

Lemma demo_names_distinct : distinct_names 3 demo_names.
Proof. unfold distinct_names, demo_names, peer. intros i j i' j' ???? He%Itoa_inj; unfold in64; lia. Qed.

Lemma tester_never_objects_witness : ∃ cfg w, makeConfig 3 false demo_names demo_srvs = Pass cfg ∧
  trun 3 demo_test (tworld_init cfg) = Pass w ∧ cf_nextIndex (tw_cfg w) = [0; 1; 0].
Proof.
  destruct (tester_never_objects (C := Z) 3 false demo_names demo_srvs demo_test) as (cfg & w & Hc & Hw & _);
    [by exists 1%nat|apply demo_names_distinct|reflexivity|].
  exists cfg, w. split; [exact Hc|]. split; [exact Hw|].
  pose proof demo_test_logs as Hl. rewrite Hc in Hl. cbn [mbind verdict_bind] in Hl. rewrite Hw in Hl.
  by apply bool_decide_eq_true in Hl.
Defined.

(** Without [prompt] it does: peer 1 has a message waiting when it is crashed and
    started again, the new instance's applier is handed the first message, and
    then the old one still passes on its own, with an index that is over. *)
Definition late_test : list (tevent Z) :=
  [TTimer 0; TTimer 2] ++ replicate 4 (TDrop 0) ++ [TTimer 1] ++ replicate 4 (TDeliver list_order 0) ++
  [TTimer 1] ++ replicate 7 (TDeliver list_order 0) ++ [TTimer 1] ++ replicate 13 (TDeliver list_order 0) ++
  [TPropose 1 7] ++ replicate 6 (TDeliver list_order 0) ++ [TStart 1 (λ j, Itoa (100 + j)) 9 0; TApply 1].

Lemma late_test_fails : match makeConfig 3 false demo_names demo_srvs ≫= λ cfg, trun 3 late_test (tworld_init cfg) with
  | Pass w => match tstep 3 (TLate 0) w with Fatal => true | _ => false end
  | _ => false end = true.
Proof. vm_compute. reflexivity. Qed.

(** A message that an applier takes after it was told to stop can fail a test in
    which nothing is wrong. *)
Theorem late_applier_fails_test : forallb prompt late_test = true ∧ ∃ cfg w,
  makeConfig 3 false demo_names demo_srvs = Pass cfg ∧ trun 3 late_test (tworld_init cfg) = Pass w ∧ tstep 3 (TLate 0) w = Fatal.
Proof.
  split; [reflexivity|]. pose proof late_test_fails as Hl.
  destruct (makeConfig 3 false demo_names demo_srvs) as [cfg| |] eqn:Hc; cbn [mbind verdict_bind] in Hl; [|done..].
  destruct (trun 3 late_test (tworld_init cfg)) as [w| |] eqn:Hw; [|done..]. exists cfg, w. split; [done|]. split; [done|].
  by destruct (tstep 3 (TLate 0) w).
Qed.
