(* ===== verification/TesterOne.v ===== *)
(** * A complete agreement: [one] of a2-omnipaxos/config.go

    [one] submits a command to whichever peer takes it, and waits until enough
    peers have applied it.  It runs next to everything else in the world: the
    schedule says which events happen each time it lets go of the tester's lock
    or sleeps. *)
From Stdlib Require Import Strings.String.
From S2P Require Import Prelude Ballot Messages Persister OmniPaxos OmniPaxosInv Cluster Agreement Safety.
From S2P Require Import GoString Labrpc Harness Tester TesterLinks TesterWorld.

Section one.
Context {C : Type} `{EqDecision C} {codec : StateCodec C}.
Context (n : nat).
Implicit Types w : tworld C.

Abbreviation sched := (list (list (tevent C))).

(** The events that happen before [one] goes on; none when the schedule is over. *)
Definition tick (s : sched) w : verdict (sched * tworld C) :=
  match s with
  | [] => Pass ([], w)
  | evs :: s => w ← trun n evs w; Pass (s, w)
  end.

(** [op.Proposal(cmd)] on the instance that the tester has just looked up:
    the index, if a leader took the command. *)
Definition try_proposal (i : Z) (cmd : C) w : verdict (option Z * tworld C) :=
  up ← at_ (cf_connected (tw_cfg w)) i;
  rf ← (if up : bool then at_ (cf_paxos (tw_cfg w)) i else Pass None);
  match rf with
  | Some op =>
      '(res, op, es) ← or_crash (Proposal cmd op);
      let '(index1, _, ok) := res in
      Pass (if ok : bool then Some index1 else None, moved i op es (tw_soup w) w)
  | None => Pass (None, w)
  end.

(** The loop over the servers: where it stopped, and the index or -1. *)
Fixpoint submit (si : nat) (starts : Z) (cmd : C) (s : sched) w : verdict (Z * Z * sched * tworld C) :=
  match si with
  | O => Pass (starts, -1, s, w)
  | S si =>
      let starts := (starts + 1) mod Z.of_nat (cf_n (tw_cfg w)) in
      '(s, w) ← tick s w;
      '(index1, w) ← try_proposal starts cmd w;
      match index1 with
      | Some index => Pass (starts, index, s, w)
      | None => submit si starts cmd s w
      end
  end.

(** The states in which [nCommitted] looks at the servers, one after the other. *)
Fixpoint observe (k : nat) (s : sched) w : verdict (list (config C) * sched * tworld C) :=
  match k with
  | O => Pass ([], s, w)
  | S k => '(s, w) ← tick s w; '(obs, s, w') ← observe k s w; Pass (tw_cfg w :: obs, s, w')
  end.

Definition count_now (index : Z) (s : sched) w : verdict (Z * logEntry C * sched * tworld C) :=
  let k := length (cf_paxos (tw_cfg w)) in
  '(obs, s, w) ← observe k s w;
  '(nd, e) ← nCommitted k index (λ i, nth (Z.to_nat i) obs (tw_cfg w));
  Pass (nd, e, s, w).

(** Waiting for agreement: [polls] turns of the loop pass in two seconds. *)
Fixpoint poll (polls : nat) (index : Z) (cmd : C) (expectedServers : Z) (s : sched) w : verdict (bool * sched * tworld C) :=
  match polls with
  | O => Pass (false, s, w)
  | S polls =>
      '(nd, e, s, w) ← count_now index s w;
      if bool_decide (nd > 0) && bool_decide (nd >= expectedServers) && bool_decide (e = mkLogEntry true (Some cmd))
      then Pass (true, s, w)
      else '(s, w) ← tick s w; poll polls index cmd expectedServers s w
  end.

(** [one]: [rounds] has an element for each turn of the outer loop that starts
    within ten seconds, the number of polls in it. *)
Fixpoint one_loop (rounds : list nat) (starts : Z) (cmd : C) (expectedServers : Z) (retry : bool) (s : sched) w :
    verdict (Z * sched * tworld C) :=
  match rounds with
  | [] => Fatal
  | polls :: rounds =>
      '(starts, index, s, w) ← submit (cf_n (tw_cfg w)) starts cmd s w;
      if decide (index ≠ -1) then
        '(found, s, w) ← poll polls index cmd expectedServers s w;
        if found : bool then Pass (index, s, w)
        else if retry then one_loop rounds starts cmd expectedServers retry s w
        else Fatal
      else '(s, w) ← tick s w; one_loop rounds starts cmd expectedServers retry s w
  end.

Definition one (rounds : list nat) (cmd : C) (expectedServers : Z) (retry : bool) (s : sched) w :
    verdict (Z * sched * tworld C) :=
  one_loop rounds 0 cmd expectedServers retry s w.
End one.

(** ** What the observations are worth *)
Section count.
Context {C : Type}.

(** The servers that [nCommitted] counts have all applied the entry it returns. *)
Lemma nCommitted_count (ok : Z → Z → logEntry C → Prop) index (obs : Z → config C) l nd0 e0 nd e : functional ok → NoDup l →
  (∀ i log e', i ∈ l → at_ (cf_logs (obs i)) i = Pass log → log !! index = Some e' → ok i index e') →
  foreach l (λ i ce,
    log ← at_ (cf_logs (obs i)) i;
    nextIndex ← at_ (cf_nextIndex (obs i)) i;
    match log !! index with
    | Some e => if decide (nextIndex > index) then Pass (ce.1 + 1, e) else Pass ce
    | None => Pass ce
    end) (nd0, e0) = Pass (nd, e) →
  ∃ ps, NoDup ps ∧ (∀ p, p ∈ ps → p ∈ l) ∧ nd = nd0 + len ps ∧ (ps = [] → e = e0) ∧ ∀ p, p ∈ ps → ok p index e.
Proof.
  intros Hf. revert nd0 e0. induction l as [|i l IH]; cbn [foreach]; intros nd0 e0 Hnd Hok.
  { intros [= <- <-]. exists []. split_and!; [constructor|done|simpl; lia|done|]. intros p Hp. by apply not_elem_of_nil in Hp. }
  apply NoDup_cons in Hnd as [Hil Hnd]. intros ([nd1 e1] & Hb & Hr)%bind_Pass.
  apply bind_Pass in Hb as (log & Hlog & (next & Hnext & Hb)%bind_Pass).
  destruct (IH nd1 e1 Hnd) as (ps & Hps & Hin & Hcount & He & Hall); [intros j log' e' Hj; apply Hok; by right|exact Hr|].
  assert ((nd1 = nd0 ∧ e1 = e0) ∨ (nd1 = nd0 + 1 ∧ ok i index e1)) as [[-> ->]|[-> Hok1]].
  { simpl in Hb. destruct (log !! index) as [e'|] eqn:He'; [|injection Hb as <- <-; by left].
    case_decide; injection Hb as <- <-; [right|by left]. split; [done|]. eapply Hok; [left|done|done]. }
  - exists ps. split_and!; try done. intros p Hp. right. auto.
  - exists (i :: ps). split_and!.
    + constructor; [|done]. intros Hp. by apply Hil, Hin.
    + intros p [->|Hp]%elem_of_cons; [left|right; auto].
    + rewrite Hcount. simpl. lia.
    + done.
    + assert (e = e1) as ->. { destruct ps as [|q ps]; [by apply He|]. eapply Hf; [apply (Hall q); left|exact Hok1]. }
      intros p [->|Hp]%elem_of_cons; [done|]. destruct ps as [|q ps]; [by apply not_elem_of_nil in Hp|]. by apply Hall.
Qed.
End count.

Section agreed.
Context {C : Type} `{EqDecision C} {codec : StateCodec C}.
Context (n : nat) (Hodd : Nat.Odd n).
Implicit Types w : tworld C.

Lemma follows_trans w c w1 c1 w2 : sim n w1 c1 → hist c `prefix_of` hist c1 → follows n w1 c1 w2 → follows n w c w2.
Proof using Type. intros _ H1 (c2 & Hs & H2). exists c2. split; [done|]. by etrans. Qed.

(** All the appliers stop in time. *)
Definition prompt_sched (s : list (list (tevent C))) : bool := forallb (forallb prompt) s.

Lemma tick_sim s w c s' w' : prompt_sched s = true → sim n w c → tick n s w = Pass (s', w') → prompt_sched s' = true ∧ follows n w c w'.
Proof using All.
  intros Hq Hs. destruct s as [|evs s]; simpl; [intros [= <- <-]; split; [done|by apply follows_refl]|].
  apply andb_true_iff in Hq as [Hev Hq]. destruct (trun_sim n Hodd evs w c Hev Hs) as (w1 & -> & Hf). by intros [= <- <-].
Qed.

Lemma try_proposal_sim i cmd w c r w' : sim n w c → try_proposal i cmd w = Pass (r, w') → follows n w c w'.
Proof using All.
  intros Hs. unfold try_proposal. intros (b & _ & (rf & Hrf & H)%bind_Pass)%bind_Pass.
  destruct rf as [op|]; [|injection H as <- <-; by apply follows_refl]. destruct b; [|done].
  assert (running i (tw_cfg w) = Some op) as Hrun.
  { unfold running. unfold at_ in Hrf. destruct (go_index _ i) as [x|]; [|done]. by injection Hrf as ->. }
  destruct (sim_propose n Hodd w c i cmd Hs) as (w1 & Hw1 & Hf). simpl in Hw1. rewrite Hrun in Hw1.
  destruct (Proposal cmd op) as [[[[[idx b] ok] op'] es]|]; [|done]. simpl in *. injection Hw1 as <-. by injection H as <- <-.
Qed.

Lemma submit_sim si starts cmd s w c starts' idx s' w' : prompt_sched s = true → sim n w c →
  submit n si starts cmd s w = Pass (starts', idx, s', w') → prompt_sched s' = true ∧ follows n w c w'.
Proof using All.
  revert starts s w c. induction si as [|si IH]; cbn [submit]; intros starts s w c Hq Hs.
  { intros [= <- <- <- <-]. split; [done|]. by apply follows_refl. }
  intros ([s1 w1] & (Hq1 & c1 & Hs1 & Hp1)%(tick_sim _ _ c) & ([r w2] & (c2 & Hs2 & Hp2)%(try_proposal_sim _ _ _ c1) & H)%bind_Pass)%bind_Pass; [|done..].
  assert (hist c `prefix_of` hist c2) as Hp by by etrans.
  destruct r as [index|]; [injection H as <- <- <- <-; split; [done|]; by exists c2|].
  destruct (IH _ _ _ c2 Hq1 Hs2 H) as [Hq2 Hf]. split; [done|]. by eapply follows_trans.
Qed.

Lemma observe_sim k s w c obs s' w' : prompt_sched s = true → sim n w c → observe n k s w = Pass (obs, s', w') → prompt_sched s' = true ∧
  ∃ c', sim n w' c' ∧ hist c `prefix_of` hist c' ∧ length obs = k ∧ ∀ cfg, cfg ∈ obs → logs_ok (sent_by (hist c')) cfg.
Proof using All.
  revert s w c obs. induction k as [|k IH]; cbn [observe]; intros s w c obs Hq Hs.
  { intros [= <- <- <-]. split; [done|]. exists c. split_and!; try done. intros cfg Hc. by apply not_elem_of_nil in Hc. }
  intros ([s1 w1] & (Hq1 & c1 & Hs1 & Hp1)%(tick_sim _ _ c) & ([[obs1 s2] w2] & Ho & [= <- <- <-])%bind_Pass)%bind_Pass; [|done..].
  destruct (IH s1 w1 c1 obs1 Hq1 Hs1 Ho) as (Hq2 & c2 & Hs2 & Hp2 & Hlen & Hall). split; [done|].
  exists c2. split_and!; [done|by etrans|simpl; lia|].
  intros cfg [->|Hc]%elem_of_cons; [|by apply Hall]. destruct Hp2 as [h ->]. apply sent_by_grow, Hs1.
Qed.

Lemma count_now_sim index s w c nd e s' w' : prompt_sched s = true → sim n w c → count_now n index s w = Pass (nd, e, s', w') → prompt_sched s' = true ∧
  ∃ c', sim n w' c' ∧ hist c `prefix_of` hist c' ∧ ∃ ps, NoDup ps ∧ nd = len ps ∧ ∀ p, p ∈ ps → sent_by (hist c') p index e.
Proof using All.
  intros Hq Hs. unfold count_now. intros ([[obs s1] w1] & Ho & ([nd1 e1] & Hn & [= <- <- <- <-])%bind_Pass)%bind_Pass.
  destruct (observe_sim _ _ w c obs s1 w1 Hq Hs Ho) as (Hq1 & c1 & Hs1 & Hp1 & Hlen & Hall). split; [done|]. exists c1. split; [done|]. split; [done|].
  destruct (nCommitted_count (sent_by (hist c1)) index (λ i, nth (Z.to_nat i) obs (tw_cfg w1))
    (upto (length (cf_paxos (tw_cfg w)))) 0 zeroEntry nd1 e1) as (ps & Hnd & _ & Hc & _ & Hok);
    [by apply (sent_by_functional n Hodd), Hs1|apply NoDup_seqZ| |exact Hn|exists ps; split_and!; [done|lia|done]].
  intros i log e' Hi Hlog He. destruct (nth_in_or_default (Z.to_nat i) obs (tw_cfg w1)) as [Hin|Hd].
  - eapply Hall; [by apply list_elem_of_In|exact Hlog|exact He].
  - rewrite Hd in Hlog. by eapply (si_logs n w1 c1 Hs1).
Qed.

(** Enough peers have applied the command at the index. *)
Definition agreed (c : cluster C) (index : Z) (cmd : C) (expected : Z) : Prop :=
  ∃ ps, NoDup ps ∧ 0 < len ps ∧ expected ≤ len ps ∧ ∀ p, p ∈ ps → sent_by (hist c) p index (mkLogEntry true (Some cmd)).

Lemma poll_sim polls index cmd expected s w c found s' w' : prompt_sched s = true → sim n w c →
  poll n polls index cmd expected s w = Pass (found, s', w') → prompt_sched s' = true ∧
  ∃ c', sim n w' c' ∧ hist c `prefix_of` hist c' ∧ (found = true → agreed c' index cmd expected).
Proof using All.
  revert s w c. induction polls as [|polls IH]; cbn [poll]; intros s w c Hq Hs; [intros [= <- <- <-]; split; [done|]; by exists c|].
  intros ([[[nd e] s1] w1] & Hc & H)%bind_Pass. destruct (count_now_sim _ _ w c _ _ _ _ Hq Hs Hc) as (Hq1 & c1 & Hs1 & Hp1 & ps & Hnd & -> & Hall).
  destruct (_ && _) eqn:Hg.
  - injection H as <- <- <-. split; [done|]. exists c1. split_and!; [done..|]. intros _.
    apply andb_true_iff in Hg as [[Hg1%bool_decide_eq_true Hg2%bool_decide_eq_true]%andb_true_iff ->%bool_decide_eq_true].
    exists ps. split_and!; [done|lia|lia|done].
  - apply bind_Pass in H as ([s2 w2] & (Hq2 & c2 & Hs2 & Hp2)%(tick_sim _ _ c1) & H); [|done..].
    destruct (IH s2 w2 c2 Hq2 Hs2 H) as (Hq3 & c3 & Hs3 & Hp3 & Hf). split; [done|]. exists c3. split_and!; [done| |done]. etrans; [exact Hp1|]. by etrans.
Qed.

Lemma one_loop_sim rounds starts cmd expected retry s w c idx s' w' : prompt_sched s = true → sim n w c →
  one_loop n rounds starts cmd expected retry s w = Pass (idx, s', w') →
  ∃ c', sim n w' c' ∧ hist c `prefix_of` hist c' ∧ agreed c' idx cmd expected ∧ idx ≠ -1.
Proof using All.
  revert starts s w c. induction rounds as [|polls rounds IH]; cbn [one_loop]; intros starts s w c Hq Hs; [done|].
  intros ([[[starts1 index] s1] w1] & (Hq1 & c1 & Hs1 & Hp1)%(submit_sim _ _ _ _ _ c) & H)%bind_Pass; [|done..].
  case_decide as Hi.
  - apply bind_Pass in H as ([[found s2] w2] & Hpoll & H).
    destruct (poll_sim _ _ _ _ _ w1 c1 _ _ _ Hq1 Hs1 Hpoll) as (Hq2 & c2 & Hs2 & Hp2 & Hf).
    destruct found; [|destruct retry; [|done]].
    + injection H as <- <- <-. exists c2. split_and!; [done|by etrans|by apply Hf|done].
    + destruct (IH _ _ _ c2 Hq2 Hs2 H) as (c3 & Hs3 & Hp3 & Ha). exists c3. split_and!; try apply Ha; [done|].
      etrans; [exact Hp1|]. by etrans.
  - apply bind_Pass in H as ([s2 w2] & (Hq2 & c2 & Hs2 & Hp2)%(tick_sim _ _ c1) & H); [|done..].
    destruct (IH _ _ _ c2 Hq2 Hs2 H) as (c3 & Hs3 & Hp3 & Ha). exists c3. split_and!; try apply Ha; [done|].
    etrans; [exact Hp1|]. by etrans.
Qed.
End agreed.

(** ** The theorem *)

(** C22 When [one] returns an index, agreement has been reached: on an odd number
    of peers, in a world that an ordered cluster simulates and where, during [one]
    and afterwards, deliveries are in order ([in_order] in Agreement.v) and
    appliers stop when they are told to ([prompt]), at least [expectedServers]
    different peers, and at least one, have applied the command there, and
    whatever happens afterwards, nobody applies anything else there. *)
Theorem one_agrees {C} `{EqDecision C} {codec : StateCodec C} (n : nat) (w : tworld C) (c : cluster C)
    rounds cmd expected retry s idx s' w' :
  Nat.Odd n → sim n w c → prompt_sched s = true → one n rounds cmd expected retry s w = Pass (idx, s', w') →
  (∃ c', sim n w' c' ∧ agreed c' idx cmd expected) ∧
  ∀ evs w'' j log e, forallb prompt evs = true → trun n evs w' = Pass w'' → at_ (cf_logs (tw_cfg w'')) j = Pass log → log !! idx = Some e →
    e = mkLogEntry true (Some cmd).
Proof.
  intros Hodd Hs Hq Ho. destruct (one_loop_sim n Hodd _ _ _ _ _ _ w c _ _ _ Hq Hs Ho) as (c' & Hs' & _ & Ha & _).
  split; [by exists c'|]. intros evs w'' j log e Hev Hr Hj He.
  destruct (trun_sim n Hodd evs w' c' Hev Hs') as (w2 & Hw2 & c2 & Hs2 & [h Hp2]). rewrite Hr in Hw2. injection Hw2 as <-.
  destruct Ha as (ps & _ & Hpos & _ & Hall). destruct ps as [|p ps]; [done|].
  destruct (Hall p) as (a & Ha & Hka & Hea); [left|].
  apply (sent_by_functional n Hodd c2 (si_reach n _ _ Hs2) j p idx); [by eapply (si_logs n _ _ Hs2)|].
  exists a. split; [|done]. rewrite Hp2. apply elem_of_app. by left.
Qed.

(** Peer 1 is elected, and [one] submits the command 7 to it. *)
Definition demo_elect : list (tevent Z) :=
  [TTimer 0; TTimer 2] ++ replicate 4 (TDrop 0) ++ [TTimer 1] ++ replicate 4 (TDeliver list_order 0) ++
  [TTimer 1] ++ replicate 7 (TDeliver list_order 0) ++ [TTimer 1] ++ replicate 13 (TDeliver list_order 0).
Definition demo_sched : list (list (tevent Z)) := [demo_elect; replicate 8 (TDeliver list_order 0) ++ [TApply 1; TApply 2]].
Definition demo_one : verdict (Z * list (list (tevent Z)) * tworld Z) :=
  makeConfig 3 false demo_names demo_srvs ≫= λ cfg, one 3 [1%nat] 7 2 false demo_sched (tworld_init cfg).

Lemma demo_one_passes : match demo_one with Pass (idx, _, _) => bool_decide (idx = 0) | _ => false end = true.
Proof. vm_compute. reflexivity. Qed.

Lemma one_agrees_witness : ∃ cfg s' w' c', one 3 [1%nat] 7 2 false demo_sched (tworld_init cfg) = Pass (0, s', w') ∧
  sim 3 w' c' ∧ agreed c' 0 7 2.
Proof.
  destruct (makeConfig_sim (C := Z) 3 ltac:(by exists 1%nat) demo_names demo_srvs demo_names_distinct false) as (cfg & Hc & Hs).
  pose proof demo_one_passes as Hp. unfold demo_one in Hp. rewrite Hc in Hp. cbn [mbind verdict_bind] in Hp.
  destruct (one 3 [1%nat] 7 2 false demo_sched (tworld_init cfg)) as [[[idx s'] w']| |] eqn:Ho; [|done..].
  apply bool_decide_eq_true in Hp. subst idx.
  destruct (one_agrees 3 (tworld_init cfg) (init_cluster 3) [1%nat] 7 2 false demo_sched 0 s' w' ltac:(by exists 1%nat) Hs eq_refl Ho)
    as [(c' & Hs' & Ha) _].
  exists cfg, s', w', c'. split; [exact Ho|]. split; [exact Hs'|exact Ha].
Defined.
