(* ===== verification/TesterChecks.v ===== *)
(** * What the checks of the tester find

    The methods of a2-omnipaxos/config.go that look at the peers and object:
    when [apply] refuses a message, and what [checkOneLeader] answers. *)
From Stdlib Require Import Strings.String.
From S2P Require Import Prelude Ballot Messages Persister OmniPaxos OmniPaxosInv Cluster Agreement Safety.
From S2P Require Import GoString Labrpc Harness Tester TesterLinks TesterWorld.

(** ** [apply] *)
Section apply.
Context {C : Type} `{EqDecision C} {codec : StateCodec C}.
Implicit Types cfg : config C.

(** The index that [apply] expects of the next message. *)
Definition expected (rcv : bool) (next : Z) (m : ApplyMsg C) : Z :=
  if negb rcv && bool_decide (CommandIndex m = 1) && bool_decide (next = 0) then 1 else next.

Definition consistentb (idx : Z) (e : logEntry C) cfg : bool :=
  forallb (λ log, match log !! idx with Some e' => bool_decide (e' = e) | None => true end) (cf_logs cfg).

Lemma consistentb_true idx e cfg : consistentb idx e cfg = true ↔ consistent idx e cfg.
Proof.
  unfold consistentb, consistent. rewrite forallb_forall. setoid_rewrite <-list_elem_of_In. split.
  - intros Hf log e' Hin He. specialize (Hf log Hin). rewrite He in Hf. by apply bool_decide_eq_true in Hf.
  - intros Hf log Hin. destruct (log !! idx) as [e'|] eqn:He; [|done]. apply bool_decide_eq_true. by eapply Hf.
Qed.

Lemma checkConsistency_verdict i idx e cfg : checkConsistency i idx e cfg = if consistentb idx e cfg then Pass tt else Fatal.
Proof.
  unfold checkConsistency, consistentb. induction (cf_logs cfg) as [|log logs IH]; [done|]. cbn [foreach forallb].
  destruct (log !! idx) as [e'|]; [|done]. destruct (decide (e' ≠ e)) as [Hne|He].
  - by rewrite bool_decide_eq_false_2.
  - rewrite bool_decide_eq_true_2 by (by apply dec_stable). apply IH.
Qed.

Lemma first_message_verdict n i m cfg rcv next : sized n cfg → peer n i → at_ (cf_didRecv cfg) i = Pass rcv →
  at_ (cf_nextIndex cfg) i = Pass next → ∃ cfg', first_message i m cfg = Pass cfg' ∧ sized n cfg' ∧
    at_ (cf_nextIndex cfg') i = Pass (expected rcv next m) ∧ cf_logs cfg' = cf_logs cfg.
Proof.
  intros Hz Hi Hr Hn. unfold first_message. rewrite Hr. cbn [mbind verdict_bind].
  destruct rcv; [by exists cfg|]. rewrite put_total by (by rewrite (sz_didRecv n cfg Hz)). cbn [mbind verdict_bind].
  assert (sized n (set_didRecv (<[Z.to_nat i := true]> (cf_didRecv cfg)) cfg)) as Hz1.
  { destruct Hz. split; simpl; rewrite ?length_insert; done. }
  unfold expected. cbn [negb andb]. destruct (decide (CommandIndex m = 1)) as [Hm|Hm].
  - rewrite (bool_decide_eq_true_2 _ Hm). cbn [andb]. simpl cf_nextIndex. rewrite Hn. cbn [mbind verdict_bind].
    destruct (decide (next ≠ 0)) as [Hne|Hne]; [rewrite bool_decide_eq_false_2 by done; eexists; split_and!; try done|].
    rewrite bool_decide_eq_true_2 by (by apply dec_stable). rewrite put_total by (by rewrite (sz_nextIndex n cfg Hz)).
    cbn [mbind verdict_bind]. eexists. split; [done|]. split_and!; [|simpl; apply at_insert_eq; by rewrite (sz_nextIndex n cfg Hz)|done].
    destruct Hz1. split; simpl; rewrite ?length_insert; try done. apply Hz.
  - rewrite bool_decide_eq_false_2 by done. simpl. eexists. split_and!; done.
Qed.
End apply.

(** ** The theorem on [apply] *)

(** [apply] on every branch: a message passes exactly when it has the next
    index expected of its peer (or is the first one and starts the numbering at
    1) and no peer has applied another entry there; then the entry is in the
    peer's log and the next index is one further.  Otherwise the test fails; it
    never panics. *)
Theorem apply_checks {C} `{EqDecision C} {codec : StateCodec C} (n : nat) (cfg : config C) i m rcv next :
  sized n cfg → peer n i → at_ (cf_didRecv cfg) i = Pass rcv → at_ (cf_nextIndex cfg) i = Pass next →
  if bool_decide (CommandIndex m = expected rcv next m) && consistentb (CommandIndex m) (entry_of m) cfg
  then ∃ cfg' log, apply_ i m cfg = Pass cfg' ∧ at_ (cf_nextIndex cfg') i = Pass (CommandIndex m + 1) ∧
    at_ (cf_logs cfg') i = Pass log ∧ log !! CommandIndex m = Some (entry_of m)
  else apply_ i m cfg = Fatal.
Proof.
  intros Hz Hi Hr Hn. destruct (first_message_verdict n i m cfg rcv next Hz Hi Hr Hn) as (c1 & H1 & Hz1 & Hn1 & Hl1).
  destruct (bool_decide (CommandIndex m = expected rcv next m)) eqn:Hidx; cbn [andb].
  - apply bool_decide_eq_true in Hidx. destruct (consistentb _ _ cfg) eqn:Hc.
    + destruct (record_pass n i m c1 Hz1 Hi) as (cfg' & Hrec & [_ _ _ Hnx (log & Hlog & Hl)] & _); [by rewrite Hn1, Hidx| |].
      { unfold consistent. rewrite Hl1. by apply consistentb_true. }
      exists cfg', (<[CommandIndex m := entry_of m]> log). unfold apply_. rewrite H1. split; [done|].
      rewrite Hnx, Hl, !at_insert_eq by (by eapply at_range). split_and!; [done..|apply lookup_insert_eq].
    + unfold apply_, record_entry. rewrite H1. cbn [mbind verdict_bind]. rewrite Hn1. cbn [mbind verdict_bind].
      rewrite decide_False by naive_solver. rewrite put_total by (by rewrite (sz_nextIndex n c1 Hz1)). cbn [mbind verdict_bind].
      rewrite checkConsistency_verdict. unfold consistentb in *. simpl cf_logs. by rewrite Hl1, Hc.
  - apply bool_decide_eq_false in Hidx. unfold apply_, record_entry. rewrite H1. cbn [mbind verdict_bind]. rewrite Hn1.
    cbn [mbind verdict_bind]. by rewrite decide_True.
Qed.

(** The third message while the first is expected, and the first one. *)
Definition demo_msg (k : Z) : ApplyMsg Z := mkApplyMsg true 7 k.
Lemma demo_state : match makeConfig (C := Z) 3 false demo_names demo_srvs with
  | Pass cfg => bool_decide (cf_didRecv cfg = [false; false; false]) && bool_decide (cf_nextIndex cfg = [0; 0; 0]) &&
      bool_decide (cf_logs cfg = [∅; ∅; ∅])
  | _ => false end = true.
Proof. vm_compute. reflexivity. Qed.

Lemma apply_checks_witness : ∃ cfg, makeConfig 3 false demo_names demo_srvs = Pass cfg ∧ apply_ 0 (demo_msg 2) cfg = Fatal ∧
  ∃ cfg', apply_ 0 (demo_msg 0) cfg = Pass cfg'.
Proof.
  destruct (makeConfig_sim (C := Z) 3 ltac:(by exists 1%nat) demo_names demo_srvs demo_names_distinct false) as (cfg & Hc & Hs).
  pose proof (si_sized _ _ _ Hs) as Hz. assert (Hi : peer 3 0) by (unfold peer; lia).
  pose proof demo_state as Hd. rewrite Hc in Hd.
  apply andb_true_iff in Hd as [[Hr%bool_decide_eq_true Hn%bool_decide_eq_true]%andb_true_iff Hl%bool_decide_eq_true].
  assert (Hr0 : at_ (cf_didRecv cfg) 0 = Pass false) by (rewrite Hr; reflexivity).
  assert (Hn0 : at_ (cf_nextIndex cfg) 0 = Pass 0) by (rewrite Hn; reflexivity).
  pose proof (apply_checks 3 cfg 0 (demo_msg 2) false 0 Hz Hi Hr0 Hn0) as H2.
  pose proof (apply_checks 3 cfg 0 (demo_msg 0) false 0 Hz Hi Hr0 Hn0) as H0.
  unfold consistentb in *. rewrite Hl in *. destruct H0 as (cfg' & _ & H0 & _).
  exists cfg. split; [exact Hc|]. split; [exact H2|]. exists cfg'. exact H0.
Defined.

(** ** [checkOneLeader] *)
Section leaders.
Context {C : Type}.

(** Peer [i] is attached, answers [GetState] with ballot [b] and says that it leads. *)
Definition claims (obs : Z → config C) (b i : Z) : bool :=
  match at_ (cf_connected (obs i)) i, getState i (obs i) with
  | Pass true, Pass (b', true) => bool_decide (b = b')
  | _, _ => false
  end.

Definition see_leader (obs : Z → config C) (i : Z) (leaders : gmap Z (list Z)) : verdict (gmap Z (list Z)) :=
  up ← at_ (cf_connected (obs i)) i;
  if up : bool then
    '(ballot, leader) ← getState i (obs i);
    if leader : bool then Pass (<[ballot := default [] (leaders !! ballot) ++ [i]]> leaders) else Pass leaders
  else Pass leaders.

Lemma see_leader_spec obs i m m' : see_leader obs i m = Pass m' →
  ∀ b, default [] (m' !! b) = default [] (m !! b) ++ (if claims obs b i then [i] else []) ∧
    (is_Some (m' !! b) ↔ is_Some (m !! b) ∨ claims obs b i = true).
Proof.
  unfold see_leader, claims. intros (up & -> & H)%bind_Pass b. destruct up; [|injection H as <-].
  - apply bind_Pass in H as ([ballot leader] & -> & H). destruct leader; injection H as <-.
    + rewrite lookup_insert. case_decide as Hb.
      * subst. rewrite bool_decide_eq_true_2 by done. simpl. split; [done|]. split; [by right|by eexists].
      * rewrite bool_decide_eq_false_2 by done. rewrite app_nil_r. naive_solver.
    + rewrite app_nil_r. naive_solver.
  - rewrite app_nil_r. destruct (getState i (obs i)); naive_solver.
Qed.

Lemma see_leaders_spec obs l m m' : foreach l (see_leader obs) m = Pass m' →
  ∀ b, default [] (m' !! b) = default [] (m !! b) ++ filter (λ i, claims obs b i = true) l ∧
    (is_Some (m' !! b) ↔ is_Some (m !! b) ∨ ∃ i, i ∈ l ∧ claims obs b i = true).
Proof.
  revert m. induction l as [|i l IH]; cbn [foreach]; intros m.
  { intros [= <-] b. rewrite app_nil_r. split; [done|]. split; [by left|]. intros [?|(i & Hi & _)]; [done|by apply not_elem_of_nil in Hi]. }
  intros (m1 & Hs & Hr)%bind_Pass b. destruct (IH m1 Hr b) as [-> ->]. destruct (see_leader_spec obs i m m1 Hs b) as [-> ->].
  rewrite filter_cons. setoid_rewrite elem_of_cons. split.
  - rewrite <-(assoc_L (++)). f_equal. by destruct (claims obs b i).
  - naive_solver.
Qed.
End leaders.

Section one_leader.
Context {C : Type}.

Lemma foldr_max_le (a : Z) l x : x ∈ l → x ≤ foldr Z.max a l.
Proof. induction l as [|y l IH]; [by intros ?%not_elem_of_nil|]. intros [->|Hx]%elem_of_cons; simpl; [lia|]. specialize (IH Hx). lia. Qed.

(** What one turn that finds leaders says. *)
Definition highest (n : nat) (obs : Z → config C) (b l : Z) : Prop :=
  claims obs b l = true ∧ peer n l ∧ ∀ j b', peer n j → claims obs b' j = true → b' ≤ b ∧ (b' = b → j = l).

Lemma turn_highest n (obs : Z → config C) l : checkOneLeader_turn n obs = Pass (Some l) → ∃ b, highest n obs b l.
Proof.
  unfold checkOneLeader_turn. intros (m & Hm & H)%bind_Pass. change (leaders_seen n obs) with (foreach (upto n) (see_leader obs) ∅) in Hm.
  pose proof (see_leaders_spec obs (upto n) ∅ m Hm) as Hspec. setoid_rewrite lookup_empty in Hspec. simpl in Hspec.
  destruct (existsb _ _) eqn:He; [done|]. case_decide as Hne; [done|]. set (last := foldr _ _ _) in H.
  apply bind_Pass in H as (l' & [_ Hl]%at_Pass & [= ->]). simpl in Hl.
  destruct (Hspec last) as [Hlast _]. rewrite Hlast in Hl.
  assert (l ∈ filter (λ i, claims obs last i = true) (upto n)) as [Hc Hi%elem_of_upto]%list_elem_of_filter by by eapply list_elem_of_lookup_2.
  exists last. split_and!; [done|done|]. intros j b' Hj Hcj. destruct (Hspec b') as [Hb' Hsome].
  assert (j ∈ filter (λ i, claims obs b' i = true) (upto n)) as Hjin by (apply list_elem_of_filter; split; [done|by apply elem_of_upto]).
  destruct (proj2 Hsome) as [lb Hlb]; [right; exists j; split; [by apply elem_of_upto|done]|].
  split.
  - apply foldr_max_le. apply list_elem_of_fmap. exists (b', lb). split; [done|]. by apply elem_of_map_to_list.
  - intros ->. rewrite Hlb in Hb'. simpl in Hb'. subst lb.
    assert (¬ (1 < length (filter (λ i, claims obs last i = true) (upto n)))%nat) as Hshort.
    { intros Hlong. apply not_true_iff_false in He. apply He. apply existsb_exists.
      eexists (last, _). split; [apply list_elem_of_In, elem_of_map_to_list; exact Hlb|]. by apply bool_decide_eq_true. }
    destruct (filter _ _) as [|x [|y k]]; simpl in Hshort; [by apply not_elem_of_nil in Hjin| |lia].
    simpl in Hl. injection Hl as ->. by apply list_elem_of_singleton in Hjin.
Qed.

Lemma loop_highest iters n (obs : nat → Z → config C) l : checkOneLeader_loop iters n obs = Pass l → ∃ k b, (k < iters)%nat ∧ highest n (obs k) b l.
Proof.
  revert obs. induction iters as [|iters IH]; cbn [checkOneLeader_loop]; intros obs; [done|].
  intros (r & Hr & H)%bind_Pass. destruct r as [l'|].
  - injection H as ->. destruct (turn_highest n _ l Hr) as [b Hb]. exists 0%nat, b. split; [lia|done].
  - destruct (IH _ H) as (k & b & Hk & Hb). exists (S k), b. split; [lia|done].
Qed.

(** Two leaders with one ballot number fail the test. *)
Lemma turn_fatal n (obs : Z → config C) b i j m : leaders_seen n obs = Pass m → peer n i → peer n j → i ≠ j → claims obs b i = true → claims obs b j = true →
  checkOneLeader_turn n obs = Fatal.
Proof.
  intros Hm Hi Hj Hne Hci Hcj. unfold checkOneLeader_turn. rewrite Hm. cbn [mbind verdict_bind].
  change (leaders_seen n obs) with (foreach (upto n) (see_leader obs) ∅) in Hm.
  destruct (see_leaders_spec obs (upto n) ∅ m Hm b) as [Hb Hsome]. rewrite lookup_empty in Hb. simpl in Hb.
  assert (∀ x, peer n x → claims obs b x = true → x ∈ default [] (m !! b)) as Hin.
  { intros x Hx Hcx. rewrite Hb. apply list_elem_of_filter. split; [done|by apply elem_of_upto]. }
  pose proof (Hin i Hi Hci) as H1. pose proof (Hin j Hj Hcj) as H2.
  destruct (m !! b) as [lb|] eqn:Hlb; [|by apply not_elem_of_nil in H1]. simpl in H1, H2.
  rewrite (proj2 (existsb_exists _ _)); [done|]. exists (b, lb).
  split; [by apply list_elem_of_In, elem_of_map_to_list|]. apply bool_decide_eq_true. simpl.
  destruct lb as [|x [|y k]]; [by apply not_elem_of_nil in H1| |simpl; lia].
  apply list_elem_of_singleton in H1, H2. congruence.
Qed.
End one_leader.

(** ** The theorems on [checkOneLeader] *)

(** [checkOneLeader] answers with a leader: in one of its ten looks at the
    peers the one it returns was attached and led with the highest ballot number
    of all leaders, and no other peer led with that number; and a look that finds
    two leaders with one ballot number fails the test. *)
Theorem checkOneLeader_answers {C} (n : nat) (obs : nat → Z → config C) :
  (∀ l, checkOneLeader n obs = Pass l → ∃ k b, (k < 10)%nat ∧ highest n (obs k) b l) ∧
  (∀ b i j m, leaders_seen n (obs 0%nat) = Pass m → peer n i → peer n j → i ≠ j → claims (obs 0%nat) b i = true →
    claims (obs 0%nat) b j = true → checkOneLeader n obs = Fatal).
Proof.
  split; [intros l; apply loop_highest|]. intros b i j m Hm Hi Hj Hne Hci Hcj.
  unfold checkOneLeader. cbn [checkOneLeader_loop]. by rewrite (turn_fatal n (obs 0%nat) b i j m Hm Hi Hj Hne Hci Hcj).
Qed.

(** Peers 1 and 2 cannot call each other, peer 0 answers both: each of them is
    elected by itself and peer 0, as the leader of ballot (1, 1) and of (1, 2). *)
Definition alone (i : Z) (k : nat) : list (tevent Z) :=
  TTimer i :: replicate k (TDrop 0) ++ [TDeliver list_order 0; TDrop 0; TDeliver list_order 0].
Definition demo_chain : list (tevent Z) :=
  [TLink (LPartiallyDisconnect 1 [2]); TTimer 0; TTimer 1; TTimer 2] ++ replicate 6 (TDrop 0) ++
  alone 1 3 ++ alone 1 0 ++ [TTimer 1] ++ replicate 4 (TDrop 0) ++ alone 2 3 ++ alone 2 0 ++ [TTimer 2].

(** What [checkOneLeader] says of the cluster after [demo_chain], if that runs. *)
Definition demo_verdict : verdict (verdict Z) :=
  cfg ← makeConfig 3 false demo_names demo_srvs; w ← trun 3 demo_chain (tworld_init cfg); Pass (checkOneLeader 3 (λ _ _, tw_cfg w)).

(** A test with [checkOneLeader] can fail on a correct cluster: [GetState]
    answers with the number of the ballot only, so two peers that lead different
    ballots with one number, which the protocol allows, count as two leaders of
    one ballot.  Here all three peers are attached and two of them cannot call
    each other. *)
Theorem checkOneLeader_objects : demo_verdict = Pass Fatal.
Proof. vm_compute. reflexivity. Qed.

Definition demo_looks : verdict (config Z * Z) :=
  cfg ← makeConfig 3 false demo_names demo_srvs; w ← trun 3 (take 35 demo_chain) (tworld_init cfg);
  l ← checkOneLeader 3 (λ _ _, tw_cfg w); Pass (tw_cfg w, l).
Lemma demo_looks_passes : match demo_looks with Pass (_, l) => bool_decide (l = 1) | _ => false end = true.
Proof. vm_compute. reflexivity. Qed.

Lemma checkOneLeader_answers_witness : ∃ cfg : config Z, ∃ b, checkOneLeader 3 (λ _ _, cfg) = Pass 1 ∧ highest 3 (λ _, cfg) b 1.
Proof.
  pose proof demo_looks_passes as Hp. unfold demo_looks in Hp.
  destruct (makeConfig 3 false demo_names demo_srvs) as [cfg0| |]; [|discriminate..]. cbn [mbind verdict_bind] in Hp.
  destruct (trun 3 _ _) as [w| |]; [|discriminate..]. cbn [mbind verdict_bind] in Hp.
  destruct (checkOneLeader 3 (λ _ _, tw_cfg w)) as [l| |] eqn:Hl; [|discriminate..]. cbn [mbind verdict_bind] in Hp.
  apply bool_decide_eq_true in Hp. subst l. destruct (checkOneLeader_answers 3 (λ _ _, tw_cfg w)) as [Hk _].
  destruct (Hk 1 Hl) as (k & b & _ & Hb). exists (tw_cfg w), b. split; [exact Hl|exact Hb].
Defined.
