(* ===== verification/KVHarness.v ===== *)
(** * The harnesses of the two services: a3-kvpaxos/config.go and a3b-sharding/shardctrler/config.go

    The two files have the same code over another type of servers: [Tested] is
    what they use of a server, and the section below is written once for it.
    The second file has no snapshot size, no statistics, and a [Leader] that
    looks before it asks; module [ShardCtrlerHarness] holds its operations. *)
From Stdlib Require Import Strings.String.
From S2P Require Import Prelude Ballot Messages Persister OmniPaxos GoString KVPaxos ShardCtrler Labrpc Harness.

(** What a harness uses of the servers it runs; [t_persister] is the object that
    the running server's peer persists to. *)
Class Tested (S : Type) := {
  t_Start : nat → Z → Persister → option S;
  t_Kill : S → S;
  t_GetState : S → Z * bool;
  t_persister : S → Persister;
}.

#[export] Instance kv_tested {codec : StateCodec KVCommand} : Tested KVServer := {|
  t_Start n me ps := fst <$> StartKVServer n me ps;
  t_Kill := kv_Kill;
  t_GetState kv := GetState (kv_rf kv);
  t_persister kv := op_persister (kv_rf kv);
|}.

#[export] Instance ctrler_tested {codec : StateCodec ControllerCommand} : Tested ShardCtrler := {|
  t_Start n me ps := fst <$> sc_StartServer n me ps;
  t_Kill := sc_Kill;
  t_GetState sc := GetState (sc_op sc);
  t_persister sc := op_persister (sc_op sc);
|}.

(** [config]: a clerk is known by its pointer, and a nil row of [endnames] is the
    empty one. *)
Record gconfig (S : Type) := mkGC {
  g_net : Network;
  g_n : nat;
  g_servers : list (option S);
  g_saved : list (option saved_persister);
  g_endnames : list (list string);
  g_clerks : gmap positive (list string);
  g_nextClientId : Z;
  g_maxpaxosstate : Z;
  g_rpcs0 : Z;
  g_ops : Z;
}.
Arguments mkGC {S} _ _ _ _ _ _ _ _ _ _.
Arguments g_net {S} _.
Arguments g_n {S} _.
Arguments g_servers {S} _.
Arguments g_saved {S} _.
Arguments g_endnames {S} _.
Arguments g_clerks {S} _.
Arguments g_nextClientId {S} _.
Arguments g_maxpaxosstate {S} _.
Arguments g_rpcs0 {S} _.
Arguments g_ops {S} _.

Section setters.
Context {S : Type}.
Implicit Types cfg : gconfig S.

Definition set_g_net x cfg : gconfig S := mkGC x (g_n cfg) (g_servers cfg) (g_saved cfg) (g_endnames cfg) (g_clerks cfg) (g_nextClientId cfg) (g_maxpaxosstate cfg) (g_rpcs0 cfg) (g_ops cfg).
Definition set_g_servers x cfg : gconfig S := mkGC (g_net cfg) (g_n cfg) x (g_saved cfg) (g_endnames cfg) (g_clerks cfg) (g_nextClientId cfg) (g_maxpaxosstate cfg) (g_rpcs0 cfg) (g_ops cfg).
Definition set_g_saved x cfg : gconfig S := mkGC (g_net cfg) (g_n cfg) (g_servers cfg) x (g_endnames cfg) (g_clerks cfg) (g_nextClientId cfg) (g_maxpaxosstate cfg) (g_rpcs0 cfg) (g_ops cfg).
Definition set_g_endnames x cfg : gconfig S := mkGC (g_net cfg) (g_n cfg) (g_servers cfg) (g_saved cfg) x (g_clerks cfg) (g_nextClientId cfg) (g_maxpaxosstate cfg) (g_rpcs0 cfg) (g_ops cfg).
Definition set_g_clerks x cfg : gconfig S := mkGC (g_net cfg) (g_n cfg) (g_servers cfg) (g_saved cfg) (g_endnames cfg) x (g_nextClientId cfg) (g_maxpaxosstate cfg) (g_rpcs0 cfg) (g_ops cfg).
Definition set_g_nextClientId x cfg : gconfig S := mkGC (g_net cfg) (g_n cfg) (g_servers cfg) (g_saved cfg) (g_endnames cfg) (g_clerks cfg) x (g_maxpaxosstate cfg) (g_rpcs0 cfg) (g_ops cfg).
Definition set_g_rpcs0 x cfg : gconfig S := mkGC (g_net cfg) (g_n cfg) (g_servers cfg) (g_saved cfg) (g_endnames cfg) (g_clerks cfg) (g_nextClientId cfg) (g_maxpaxosstate cfg) x (g_ops cfg).
Definition set_g_ops x cfg : gconfig S := mkGC (g_net cfg) (g_n cfg) (g_servers cfg) (g_saved cfg) (g_endnames cfg) (g_clerks cfg) (g_nextClientId cfg) (g_maxpaxosstate cfg) (g_rpcs0 cfg) x.
End setters.

Section harness.
Context {S : Type} `{Tested S}.
Implicit Types cfg : gconfig S.

(** ** Links *)

(** [cfg.net.Enable(cfg.endnames[i][j], on)]. *)
Definition switch (on : bool) (i j : Z) cfg : verdict (gconfig S) :=
  e ← end_of (g_endnames cfg) i j; Pass (set_g_net (Enable e on (g_net cfg)) cfg).
Definition has_ends (i : Z) cfg : verdict bool :=
  row ← at_ (g_endnames cfg) i; Pass (match row with [] => false | _ => true end).

Definition connectUnlocked (i : Z) (to : list Z) cfg : verdict (gconfig S) :=
  cfg ← foreach to (λ j cfg, switch true i j cfg) cfg;
  foreach to (λ j cfg, switch true j i cfg) cfg.
Definition connect (i : Z) (to : list Z) cfg : verdict (gconfig S) := connectUnlocked i to cfg.

(** The second loop asks whether row [j] is nil, [j] the position in [from], and
    then uses row [from[j]]. *)
Definition disconnectUnlocked (i : Z) (from : list Z) cfg : verdict (gconfig S) :=
  cfg ← foreach from (λ x cfg, h ← has_ends i cfg; if h : bool then switch false i x cfg else Pass cfg) cfg;
  foreach (zip (upto (length from)) from) (λ jx cfg,
    h ← has_ends jx.1 cfg; if h : bool then switch false jx.2 i cfg else Pass cfg) cfg.
Definition disconnect (i : Z) (from : list Z) cfg : verdict (gconfig S) := disconnectUnlocked i from cfg.

Definition All cfg : list Z := upto (g_n cfg).
Definition ConnectAll cfg : verdict (gconfig S) :=
  foreach (upto (g_n cfg)) (λ i cfg, connectUnlocked i (All cfg) cfg) cfg.

(** One side of a partition is cut from the other, and connected. *)
Definition separate (p q : list Z) cfg : verdict (gconfig S) :=
  foreach p (λ x cfg, cfg ← disconnectUnlocked x q cfg; connectUnlocked x p cfg) cfg.
Definition partition (p1 p2 : list Z) cfg : verdict (gconfig S) :=
  cfg ← separate p1 p2 cfg; separate p2 p1 cfg.

(** ** Clients *)
Definition ConnectClientUnlocked (ck : positive) (to : list Z) cfg : verdict (gconfig S) :=
  let endnames := default [] (g_clerks cfg !! ck) in
  foreach to (λ j cfg, s ← at_ endnames j; Pass (set_g_net (Enable s true (g_net cfg)) cfg)) cfg.
Definition ConnectClient (ck : positive) (to : list Z) cfg : verdict (gconfig S) := ConnectClientUnlocked ck to cfg.
Definition DisconnectClientUnlocked (ck : positive) (from : list Z) cfg : verdict (gconfig S) :=
  let endnames := default [] (g_clerks cfg !! ck) in
  foreach from (λ j cfg, s ← at_ endnames j; Pass (set_g_net (Enable s false (g_net cfg)) cfg)) cfg.
Definition DisconnectClient (ck : positive) (from : list Z) cfg : verdict (gconfig S) := DisconnectClientUnlocked ck from cfg.

(** [names j] is the [j]-th draw of [randstring(20)], [ck] the new clerk, [draws]
    those of [random_handles]; the first result is the order in which the clerk
    has its ends. *)
Definition makeClient (to : list Z) (ck : positive) (names : Z → string) (draws : list Z) cfg : verdict (list string * gconfig S) :=
  let endnames := names <$> upto (g_n cfg) in
  net ← makeEnds (zip endnames (srvname <$> upto (g_n cfg))) (g_net cfg);
  ends ← random_handles draws endnames;
  let cfg := set_g_clerks (<[ck := endnames]> (g_clerks cfg)) (set_g_net net cfg) in
  let cfg := set_g_nextClientId (wrap64 (g_nextClientId cfg + 1)) cfg in
  cfg ← ConnectClientUnlocked ck to cfg;
  Pass (ends, cfg).

(** The files that [os.Remove] tries to remove do not exist. *)
Definition deleteClient (ck : positive) cfg : gconfig S := set_g_clerks (delete ck (g_clerks cfg)) cfg.

(** ** Servers *)
Definition content (i : Z) (sp : saved_persister) cfg : verdict Persister :=
  match sp with
  | Own ps => Pass ps
  | Shared => kv ← at_ (g_servers cfg) i; kv ← or_crash kv; Pass (t_persister kv)
  end.

Definition ShutdownServer (i : Z) cfg : verdict (gconfig S) :=
  cfg ← disconnectUnlocked i (All cfg) cfg;
  let cfg := set_g_net (DeleteServer (srvname i) (g_net cfg)) cfg in
  sp ← at_ (g_saved cfg) i;
  cfg ← match sp with
        | Some sp => ps ← content i sp cfg; saved ← put (g_saved cfg) i (Some (Own (Copy ps))); Pass (set_g_saved saved cfg)
        | None => Pass cfg
        end;
  kv ← at_ (g_servers cfg) i;
  match kv with
  | Some kv => let kv := t_Kill kv in servers ← put (g_servers cfg) i None; Pass (set_g_servers servers cfg)
  | None => Pass cfg
  end.

Definition StartServer (i : Z) (names : Z → string) (srv : positive) cfg : verdict (gconfig S) :=
  let row := names <$> upto (g_n cfg) in
  rows ← put (g_endnames cfg) i row;
  net ← makeEnds (zip row (srvname <$> upto (g_n cfg))) (g_net cfg);
  let cfg := set_g_net net (set_g_endnames rows cfg) in
  sp ← at_ (g_saved cfg) i;
  ps ← match sp with Some sp => ps ← content i sp cfg; Pass (Copy ps) | None => Pass MakePersister end;
  kv ← or_crash (t_Start (g_n cfg) i ps);
  saved ← put (g_saved cfg) i (Some Shared);
  servers ← put (g_servers cfg) i (Some kv);
  let cfg := set_g_servers servers (set_g_saved saved cfg) in
  Pass (set_g_net (AddServer (srvname i) srv (g_net cfg)) cfg).

(** The first server of the list that says it leads; [look] asks one. *)
Fixpoint first_leader (look : Z → verdict bool) (l : list Z) : verdict (bool * Z) :=
  match l with
  | [] => Pass (false, 0)
  | i :: l => b ← look i; if b : bool then Pass (true, i) else first_leader look l
  end.
Definition Leader cfg : verdict (bool * Z) :=
  first_leader (λ i, kv ← at_ (g_servers cfg) i; kv ← or_crash kv; Pass (t_GetState kv).2) (upto (g_n cfg)).

(** The loop of [make_partition], and the last assignment. *)
Definition place (j i : Z) (p1 p2 : list Z) : verdict (list Z * list Z) :=
  if decide (j < len p1) then p1 ← put p1 j i; Pass (p1, p2)
  else p2 ← put p2 (j - len p1) i; Pass (p1, p2).
Definition halves (n : nat) (l : Z) : verdict (list Z * list Z) :=
  '(p1, p2, _) ← foreach (upto n) (λ i s,
    let '(p1, p2, j) := s in
    if decide (i ≠ l) then '(p1, p2) ← place j i p1 p2; Pass (p1, p2, j + 1) else Pass s)
    (replicate (n / 2 + 1) 0, replicate (n / 2) 0, 0);
  p2 ← put p2 (len p2 - 1) l;
  Pass (p1, p2).
Definition make_partition cfg : verdict (list Z * list Z) :=
  '(_, l) ← Leader cfg; halves (g_n cfg) l.

(** ** The life of a test *)
Definition zero_gconfig (n : nat) (maxpaxosstate : Z) : gconfig S :=
  mkGC MakeNetwork n (replicate n None) (replicate n None) (replicate n []) ∅ (wrap64 (Z.of_nat n + 1000)) maxpaxosstate 0 0.

Definition make_config (n : nat) (unreliable : bool) (maxpaxosstate : Z) (names : Z → Z → string) (srvs : Z → positive) : verdict (gconfig S) :=
  cfg ← foreach (upto n) (λ i, StartServer i (names i) (srvs i)) (zero_gconfig n maxpaxosstate);
  cfg ← ConnectAll cfg;
  Pass (set_g_net (Reliable (negb unreliable) (g_net cfg)) cfg).

Definition cleanup (failed : bool) (elapsed : Z) cfg : verdict (gconfig S) :=
  let cfg := set_g_servers (option_map t_Kill <$> g_servers cfg) cfg in
  net ← or_crash (Cleanup (g_net cfg));
  checkTimeout failed elapsed;;
  Pass (set_g_net net cfg).

(** The maximum of a size over all servers. *)
Definition max_size (size : Persister → Z) cfg : verdict Z :=
  foreach (upto (g_n cfg)) (λ i m,
    sp ← at_ (g_saved cfg) i; sp ← or_crash sp; ps ← content i sp cfg;
    Pass (if decide (size ps > m) then size ps else m)) 0.
Definition LogSize cfg : verdict Z := max_size OmnipaxosStateSize cfg.
Definition SnapshotSize cfg : verdict Z := max_size Persister.SnapshotSize cfg.

Definition rpcTotal cfg : Z := GetTotalCount (g_net cfg).
Definition begin cfg : gconfig S := set_g_ops 0 (set_g_rpcs0 (rpcTotal cfg) cfg).
Definition op cfg : gconfig S := set_g_ops (wrap32 (g_ops cfg + 1)) cfg.

(** What [end] prints of the test: servers, calls, operations. *)
Definition end_ (failed : bool) (elapsed : Z) cfg : verdict (option (nat * Z * Z)) :=
  checkTimeout failed elapsed;;
  Pass (if failed then None else Some (g_n cfg, rpcTotal cfg - g_rpcs0 cfg, g_ops cfg)).
End harness.

(** ** a3b-sharding/shardctrler/config.go *)
Module ShardCtrlerHarness.
Section ctrler.
Context {codec : StateCodec ControllerCommand}.
Abbreviation config := (gconfig ShardCtrler).
Implicit Types cfg : config.

Definition cleanup failed elapsed cfg : verdict config := cleanup failed elapsed cfg.
Definition LogSize cfg : verdict Z := LogSize cfg.
Definition connectUnlocked i to cfg : verdict config := connectUnlocked i to cfg.
Definition connect i to cfg : verdict config := connectUnlocked i to cfg.
Definition disconnectUnlocked i from cfg : verdict config := disconnectUnlocked i from cfg.
Definition disconnect i from cfg : verdict config := disconnectUnlocked i from cfg.
Definition All cfg : list Z := All cfg.
Definition ConnectAll cfg : verdict config := ConnectAll cfg.
Definition partition p1 p2 cfg : verdict config := partition p1 p2 cfg.
Definition makeClient to ck names draws cfg : verdict (list string * config) := makeClient to ck names draws cfg.
Definition deleteClient ck cfg : config := deleteClient ck cfg.
Definition ConnectClientUnlocked ck to cfg : verdict config := ConnectClientUnlocked ck to cfg.
Definition ConnectClient ck to cfg : verdict config := ConnectClientUnlocked ck to cfg.
Definition DisconnectClientUnlocked ck from cfg : verdict config := DisconnectClientUnlocked ck from cfg.
Definition DisconnectClient ck from cfg : verdict config := DisconnectClientUnlocked ck from cfg.
Definition ShutdownServer i cfg : verdict config := ShutdownServer i cfg.
Definition StartServer i names srv cfg : verdict config := StartServer i names srv cfg.

(** It skips the servers that do not run. *)
Definition Leader cfg : verdict (bool * Z) :=
  first_leader (λ i, sc ← at_ (g_servers cfg) i;
    match sc with Some sc => Pass (GetState (sc_op sc)).2 | None => Pass false end) (upto (g_n cfg)).
Definition make_partition cfg : verdict (list Z * list Z) := '(_, l) ← Leader cfg; halves (g_n cfg) l.
Definition make_config n unreliable names srvs : verdict config := make_config n unreliable 0 names srvs.
End ctrler.
End ShardCtrlerHarness.
