(* ===== verification/KVHarnessThms.v ===== *)
(** * Partitions in the harnesses of the two services

    [make_partition] of a3-kvpaxos/config.go and a3b-sharding/shardctrler/config.go
    splits the servers into a majority and a minority with the leader, and
    [partition] leaves exactly the links inside the two sides. *)
From Stdlib Require Import Strings.String.
From S2P Require Import Prelude Ballot Messages Persister OmniPaxos GoString KVPaxos ShardCtrler Labrpc Harness KVHarness.

(** ** The two halves *)
Lemma place_spec j i p1 p2 : 0 ≤ j < len (p1 ++ p2) → ∃ q1 q2, place j i p1 p2 = Pass (q1, q2) ∧
  q1 ++ q2 = <[Z.to_nat j := i]> (p1 ++ p2) ∧ length q1 = length p1 ∧ length q2 = length p2.
Proof.
  intros Hj. unfold place. rewrite length_app in Hj. case_decide as Hlt.
  - rewrite put_total by lia. simpl. eexists _, _. split; [done|]. rewrite length_insert, insert_app_l by lia. done.
  - rewrite put_total by lia. simpl. eexists _, _. split; [done|]. rewrite length_insert. split; [|done].
    rewrite insert_app_r_alt by lia. do 2 f_equal. lia.
Qed.

Definition fill_body (l i : Z) (s : list Z * list Z * Z) : verdict (list Z * list Z * Z) :=
  let '(p1, p2, j) := s in
  if decide (i ≠ l) then '(p1, p2) ← place j i p1 p2; Pass (p1, p2, j + 1) else Pass s.

Lemma fill_other l i p1 p2 j : i ≠ l → fill_body l i (p1, p2, j) = ('(p1, p2) ← place j i p1 p2; Pass (p1, p2, j + 1)).
Proof. intros Hi. unfold fill_body. by rewrite decide_True. Qed.
Lemma fill_same l s : fill_body l l s = Pass s.
Proof. destruct s as [[p1 p2] j]. unfold fill_body. by rewrite decide_False by naive_solver. Qed.

Definition others (l : Z) (xs : list Z) : list Z := filter (λ i, i ≠ l) xs.

Lemma fill_spec l xs p1 p2 j : 0 ≤ j → j + len (others l xs) ≤ len (p1 ++ p2) →
  ∃ q1 q2, foreach xs (fill_body l) (p1, p2, j) = Pass (q1, q2, j + len (others l xs)) ∧
    q1 ++ q2 = take (Z.to_nat j) (p1 ++ p2) ++ others l xs ++ drop (Z.to_nat (j + len (others l xs))) (p1 ++ p2) ∧
    length q1 = length p1 ∧ length q2 = length p2.
Proof.
  unfold others. revert p1 p2 j. induction xs as [|i xs IH]; intros p1 p2 j Hj Hlen; cbn [foreach].
  { exists p1, p2. rewrite Z.add_0_r. simpl. by rewrite take_drop. }
  destruct (decide (i = l)) as [->|Hi].
  { rewrite filter_cons_False in Hlen |- * by naive_solver. rewrite fill_same. by apply IH. }
  rewrite filter_cons_True in Hlen |- * by done. simpl length in Hlen |- *. rewrite fill_other by done.
  destruct (place_spec j i p1 p2) as (q1 & q2 & -> & Hq & H1 & H2); [lia|]. cbn [mbind verdict_bind].
  destruct (IH q1 q2 (j + 1)) as (r1 & r2 & -> & Hr & H3 & H4); [lia|rewrite Hq, length_insert; lia|].
  exists r1, r2. split; [do 2 f_equal; lia|]. split_and!; [|congruence..]. rewrite Hr, Hq.
  assert (Z.to_nat j < length (p1 ++ p2))%nat as Hjl by lia.
  rewrite drop_insert_lt by lia. replace (Z.to_nat (j + 1)) with (S (Z.to_nat j)) by lia.
  rewrite (take_S_r (<[Z.to_nat j := i]> (p1 ++ p2)) (Z.to_nat j) i) by (by apply list_lookup_insert_eq). rewrite take_insert_ge by lia.
  rewrite <-(assoc_L (++)). cbn [app].
  by replace (j + 1 + len (filter (λ i, i ≠ l) xs)) with (j + Z.of_nat (S (length (filter (λ i, i ≠ l) xs)))) by lia.
Qed.

Lemma others_length n l : 0 ≤ l < Z.of_nat n → S (length (others l (upto n))) = n ∧ others l (upto n) ++ [l] ≡ₚ upto n.
Proof.
  intros Hl. assert (others l (upto n) ++ [l] ≡ₚ upto n) as Hp.
  { apply NoDup_Permutation.
    - apply NoDup_app. split_and!; [apply NoDup_filter, NoDup_seqZ| |apply NoDup_singleton].
      intros x [Hx _]%list_elem_of_filter ->%list_elem_of_singleton. done.
    - apply NoDup_seqZ.
    - intros x. unfold others. rewrite elem_of_app, list_elem_of_filter, list_elem_of_singleton, elem_of_upto.
      destruct (decide (x = l)); naive_solver. }
  split; [|done]. apply Permutation_length in Hp. rewrite length_app in Hp. unfold upto at 2 in Hp. rewrite length_seqZ in Hp.
  simpl in Hp. lia.
Qed.

(** For an odd number of servers the two halves hold each server once, the
    first one is a majority, and the leader ends the second. *)
Lemma halves_odd n l : Nat.Odd n → (3 ≤ n)%nat → 0 ≤ l < Z.of_nat n → ∃ p1 p2, halves n l = Pass (p1, p2) ∧
  p1 ++ p2 ≡ₚ upto n ∧ length p1 = (n / 2 + 1)%nat ∧ l ∈ p2.
Proof.
  intros [k Hk] Hn Hl. assert (n / 2 = k)%nat as Hd by (subst n; rewrite Nat.mul_comm, Nat.add_comm, Nat.div_add by lia; done).
  destruct (others_length n l Hl) as [Hlen Hperm]. unfold halves. rewrite Hd.
  destruct (fill_spec l (upto n) (replicate (k + 1) 0) (replicate k 0) 0) as (q1 & q2 & Hf & Hq & H1 & H2);
    [done|rewrite length_app, !length_replicate; lia|].
  change (foreach (upto n) _ _) with (foreach (upto n) (fill_body l) (replicate (k + 1) 0, replicate k 0, 0)).
  rewrite Hf. cbn [mbind verdict_bind]. rewrite length_replicate in H1, H2. rewrite put_total by lia. cbn [mbind verdict_bind].
  eexists _, _. split; [done|]. split; [|split; [done|]].
  - assert (q1 ++ <[Z.to_nat (len q2 - 1) := l]> q2 = others l (upto n) ++ [l]) as ->; [|done].
    replace (Z.to_nat (len q2 - 1)) with (k - 1)%nat by lia.
    assert (length (q1 ++ q2) = n) as Hlq by (rewrite length_app; lia).
    rewrite <-insert_app_r. rewrite Hq. simpl take. cbn [app].
    rewrite <-replicate_add, drop_replicate.
    replace (k + 1 + k - _)%nat with 1%nat by lia. change (take (Z.to_nat 0) _) with (@nil Z). cbn [app].
    rewrite insert_app_r_alt by lia. f_equal. by replace (length q1 + (k - 1) - _)%nat with 0%nat by lia.
  - apply list_elem_of_lookup. exists (Z.to_nat (len q2 - 1)). apply list_lookup_insert_eq. lia.
Qed.

(** ** Links *)
Section links.
Context {S : Type} `{Tested S}.
Context (n : nat).
Implicit Types cfg : gconfig S.

Definition server (i : Z) : Prop := 0 ≤ i < Z.of_nat n.

(** The rows of the servers started so far: each name is an end of its own, that
    leads to the server of its column. *)
Record wired cfg : Prop := {
  wr_n : g_n cfg = n;
  wr_rows : length (g_endnames cfg) = n;
  wr_row i row : at_ (g_endnames cfg) i = Pass row → row = [] ∨ length row = n;
  wr_differ : names_differ (g_endnames cfg);
  wr_ends i j e : end_of (g_endnames cfg) i j = Pass e →
    e ∈ ends (g_net cfg) ∧ connections (g_net cfg) !! e = Some (Some (srvname j));
}.

Definition has_row cfg (i : Z) : Prop := ∃ row, at_ (g_endnames cfg) i = Pass row ∧ length row = n.

(** Every server has been started. *)
Definition ready cfg : Prop := wired cfg ∧ ∀ i, server i → has_row cfg i.

Definition klink cfg (a b : Z) : bool :=
  match end_of (g_endnames cfg) a b with Pass e => is_on e (g_net cfg) | _ => false end.

Definition switch_pairs (on : bool) (ps : list (Z * Z)) cfg : gconfig S :=
  set_g_net (EnableAll (omap (name_of (g_endnames cfg)) ps) on (g_net cfg)) cfg.

(** Switches, servers and new ends change none of it. *)
Definition keeps_routes (net net' : Network) : Prop :=
  ∀ e, e ∈ ends net → e ∈ ends net' ∧ connections net' !! e = connections net !! e.

#[local] Instance keeps_routes_preorder : PreOrder keeps_routes.
Proof.
  split; [by intros net e He|]. intros x y z Hxy Hyz e He. destruct (Hxy e He) as [Hy <-]. by apply Hyz.
Qed.

Lemma EnableAll_keeps names on net : keeps_routes net (EnableAll names on net).
Proof. destruct (EnableAll_routes names on net) as (He & Hc & _). intros e. by rewrite He, Hc. Qed.

Lemma made_keeps l net net' : made l net net' → keeps_routes net net'.
Proof.
  intros Hm e He. split; [apply (md_ends _ _ _ Hm); by right|]. apply (md_other _ _ _ Hm). intros Hin.
  by apply (md_new _ _ _ Hm) in Hin.
Qed.

Lemma wired_as cfg cfg' : g_n cfg' = g_n cfg → g_endnames cfg' = g_endnames cfg → keeps_routes (g_net cfg) (g_net cfg') →
  wired cfg → wired cfg'.
Proof.
  intros Hn He Hk [? ? ? ? Hends]. split; rewrite ?Hn, ?He; try done.
  intros i j e Hij%Hends. destruct (Hk e) as [Hin ->]; [apply Hij|]. by split; [|apply Hij].
Qed.

Lemma ready_as cfg cfg' : g_n cfg' = g_n cfg → g_endnames cfg' = g_endnames cfg → keeps_routes (g_net cfg) (g_net cfg') →
  ready cfg → ready cfg'.
Proof.
  intros Hn He Hk [Hw Hrow]. split; [by eapply wired_as|]. unfold has_row. by rewrite He.
Qed.

Lemma ready_net names on cfg : ready cfg → ready (set_g_net (EnableAll names on (g_net cfg)) cfg).
Proof. apply ready_as; [done..|apply EnableAll_keeps]. Qed.

Lemma ready_end cfg i j : ready cfg → server i → server j → ∃ e, end_of (g_endnames cfg) i j = Pass e.
Proof.
  intros [_ Hr] Hi Hj. destruct (Hr i Hi) as (row & Hrow & Hlen).
  destruct (at_total row j) as (e & He & _); [by rewrite Hlen|]. exists e. apply end_of_Some. eauto.
Qed.

Lemma ready_has_ends cfg i : ready cfg → server i → has_ends i cfg = Pass true.
Proof.
  intros [_ Hr] Hi. unfold has_ends. destruct (Hr i Hi) as (row & -> & Hlen). simpl. destruct row; [|done].
  unfold server in Hi. simpl in Hlen. lia.
Qed.

(** The loops of the source that switch the end of each of their elements. *)
Lemma kloop_switch {A} on (l : list A) (f : A → Z * Z) body cfg : ready cfg →
  (∀ x cfg', x ∈ l → ready cfg' → body x cfg' = switch on (f x).1 (f x).2 cfg') →
  (∀ x, x ∈ l → server (f x).1 ∧ server (f x).2) → foreach l body cfg = Pass (switch_pairs on (f <$> l) cfg).
Proof.
  revert cfg. induction l as [|x l IH]; intros cfg Hr Hb Hs; cbn [foreach].
  { unfold switch_pairs. simpl. by destruct cfg. }
  destruct (Hs x) as [H1 H2]; [by left|]. rewrite Hb by (done || by left). unfold switch at 1.
  destruct (ready_end cfg _ _ Hr H1 H2) as [e He]. rewrite He. cbn [mbind verdict_bind].
  rewrite IH; [|by apply (ready_net [e])|intros y c Hy; apply Hb; by right|intros y Hy; apply Hs; by right].
  f_equal. unfold switch_pairs. simpl. unfold name_of at 2. destruct (f x) as [a b]. simpl in *. by rewrite He.
Qed.

Lemma kswitch_pairs_app on l1 l2 cfg : switch_pairs on l2 (switch_pairs on l1 cfg) = switch_pairs on (l1 ++ l2) cfg.
Proof. unfold switch_pairs. simpl. by rewrite <-EnableAll_app, <-omap_app. Qed.

Lemma kswitch_pairs_link on ps cfg a b : ready cfg → server a → server b →
  klink (switch_pairs on ps cfg) a b = if decide ((a, b) ∈ ps) then on else klink cfg a b.
Proof.
  intros Hr Ha Hb. unfold klink. simpl. destruct (ready_end cfg a b Hr Ha Hb) as [e He]. rewrite He.
  apply enable_pairs_link; [apply Hr|done].
Qed.

(** The pairs of server [i] with those of [l]. *)
Definition pairs (i : Z) (l : list Z) : list (Z * Z) := ((λ j, (i, j)) <$> l) ++ ((λ j, (j, i)) <$> l).

Lemma elem_of_both_pairs i l a b : (a, b) ∈ pairs i l ↔ (a = i ∧ b ∈ l) ∨ (b = i ∧ a ∈ l).
Proof. unfold pairs. rewrite elem_of_app, !list_elem_of_fmap. naive_solver. Qed.

Lemma connectUnlocked_run i to cfg : ready cfg → server i → Forall server to →
  connectUnlocked i to cfg = Pass (switch_pairs true (pairs i to) cfg).
Proof.
  intros Hr Hi Ht. rewrite Forall_forall in Ht. unfold connectUnlocked.
  rewrite (kloop_switch true to (λ j, (i, j))) by (done || (intros; split; [done|by apply Ht])). cbn [mbind verdict_bind].
  rewrite (kloop_switch true to (λ j, (j, i))); [by rewrite kswitch_pairs_app|by apply ready_net|done|].
  intros j Hj. split; [by apply Ht|done].
Qed.

Lemma zip_positions {A} (l : list A) j x : (j, x) ∈ zip (upto (length l)) l → 0 ≤ j < len l ∧ x ∈ l.
Proof.
  intros Hin. split.
  - apply elem_of_zip_l in Hin. by apply elem_of_upto.
  - by apply elem_of_zip_r in Hin.
Qed.

Lemma disconnectUnlocked_run i from cfg : ready cfg → server i → Forall server from → (length from ≤ n)%nat →
  disconnectUnlocked i from cfg = Pass (switch_pairs false (pairs i from) cfg).
Proof.
  intros Hr Hi Hf Hlen. rewrite Forall_forall in Hf. unfold disconnectUnlocked.
  rewrite (kloop_switch false from (λ j, (i, j))); [|done| |intros j Hj; split; [done|by apply Hf]].
  - cbn [mbind verdict_bind]. rewrite (kloop_switch false (zip (upto (length from)) from) (λ jx, (jx.2, i))).
    + rewrite kswitch_pairs_app. unfold pairs. do 3 f_equal.
      etrans; [exact (list_fmap_compose snd (λ j, (j, i)) (zip (upto (length from)) from))|].
      rewrite snd_zip; [done|]. unfold upto. rewrite length_seqZ. lia.
    + by apply ready_net.
    + intros [j x] cfg' [Hj _]%zip_positions Hr'. simpl. rewrite ready_has_ends; [done|done|]. unfold server. lia.
    + intros [j x] [_ Hx]%zip_positions. simpl. split; [by apply Hf|done].
  - intros x cfg' _ Hr'. simpl. by rewrite ready_has_ends.
Qed.

(** One side of a partition: its members reach each other, and none of the other side. *)
Definition side_link (l p q : list Z) (a b : Z) (old : bool) : bool :=
  if decide ((a ∈ l ∧ b ∈ p) ∨ (b ∈ l ∧ a ∈ p)) then true
  else if decide ((a ∈ l ∧ b ∈ q) ∨ (b ∈ l ∧ a ∈ q)) then false else old.

Lemma separate_run p q l cfg : Forall server p → Forall server q → (length q ≤ n)%nat → p ## q → l ⊆ p → ready cfg →
  ∃ cfg', foreach l (λ x cfg, cfg ← disconnectUnlocked x q cfg; connectUnlocked x p cfg) cfg = Pass cfg' ∧ ready cfg' ∧
    ∀ a b, server a → server b → klink cfg' a b = side_link l p q a b (klink cfg a b).
Proof.
  intros Hp Hq Hlen Hpq. revert cfg. induction l as [|x l IH]; intros cfg Hl Hr; cbn [foreach].
  { exists cfg. split_and!; [done..|]. intros a b _ _. unfold side_link. by rewrite !decide_False by set_solver. }
  assert (server x) as Hx by (rewrite Forall_forall in Hp; apply Hp, Hl; left).
  rewrite disconnectUnlocked_run by done. cbn [mbind verdict_bind].
  rewrite connectUnlocked_run by (done || by apply ready_net). cbn [mbind verdict_bind].
  edestruct IH as (cfg' & Hrun & Hr' & Hk); [set_solver| |exists cfg'; split; [exact Hrun|]]; [by do 2 apply ready_net|].
  split; [done|]. intros a b Ha Hb. rewrite Hk by done. rewrite kswitch_pairs_link by (done || by apply ready_net).
  rewrite kswitch_pairs_link by done. unfold side_link.
  pose proof (elem_of_both_pairs x p a b). pose proof (elem_of_both_pairs x q a b). pose proof (elem_of_cons l a x).
  pose proof (elem_of_cons l b x). pose proof (Hpq a). pose proof (Hpq b). pose proof (Hl a). pose proof (Hl b).
  clear - H0 H1 H2 H3 H4 H5 H6 H7. repeat case_decide; first [reflexivity|exfalso; tauto].
Qed.

Lemma partition_links p1 p2 cfg : p1 ++ p2 ≡ₚ upto n → ready cfg →
  ∃ cfg', partition p1 p2 cfg = Pass cfg' ∧ ready cfg' ∧
    ∀ a b, server a → server b → klink cfg' a b = bool_decide (a ∈ p1 ↔ b ∈ p1).
Proof.
  intros Hperm Hr. assert (NoDup (p1 ++ p2)) as (_ & Hd & _)%NoDup_app by (rewrite Hperm; apply NoDup_seqZ).
  assert (∀ x, server x ↔ x ∈ p1 ∨ x ∈ p2) as Hs.
  { intros x. unfold server. rewrite <-elem_of_upto, <-Hperm. set_solver. }
  assert (length (p1 ++ p2) = n) as Hlen by (rewrite Hperm; unfold upto; rewrite length_seqZ; lia). rewrite length_app in Hlen.
  assert (Forall server p1 ∧ Forall server p2) as [H1 H2] by (split; apply Forall_forall; intros x Hx; apply Hs; auto).
  unfold partition. destruct (separate_run p1 p2 p1 cfg) as (c1 & Hc1 & Hr1 & Hk1); [done..|lia|set_solver|done|done|].
  destruct (separate_run p2 p1 p2 c1) as (c2 & Hc2 & Hr2 & Hk2); [done..|lia|set_solver|done|done|].
  exists c2. unfold separate. rewrite Hc1. cbn [mbind verdict_bind]. split_and!; [done..|].
  intros a b Ha Hb. rewrite Hk2, Hk1 by done. unfold side_link.
  apply Hs in Ha. apply Hs in Hb. pose proof (Hd a) as Hda. pose proof (Hd b) as Hdb. clear - Ha Hb Hda Hdb.
  repeat case_decide; case_bool_decide; first [reflexivity|exfalso; tauto].
Qed.
End links.

(** ** What a test does with its harness *)
Inductive hevent (S : Type) :=
  | HConnect (i : Z) (to : list Z)
  | HDisconnect (i : Z) (from : list Z)
  | HConnectAll
  | HPartition (p1 p2 : list Z)
  | HMakeClient (to : list Z) (ck : positive) (names : Z → string) (draws : list Z)
  | HDeleteClient (ck : positive)
  | HConnectClient (ck : positive) (to : list Z)
  | HDisconnectClient (ck : positive) (from : list Z)
  | HShutdown (i : Z)
  | HStart (i : Z) (names : Z → string) (srv : positive)
  | HServers (servers : list (option S)).
Arguments HConnect {S} _ _.
Arguments HDisconnect {S} _ _.
Arguments HConnectAll {S}.
Arguments HPartition {S} _ _.
Arguments HMakeClient {S} _ _ _ _.
Arguments HDeleteClient {S} _.
Arguments HConnectClient {S} _ _.
Arguments HDisconnectClient {S} _ _.
Arguments HShutdown {S} _.
Arguments HStart {S} _ _ _.
Arguments HServers {S} _.

Section events.
Context {S : Type} `{Tested S}.
Context (n : nat).
Implicit Types cfg : gconfig S.

(** [HServers] is the work of the servers: their states have changed. *)
Definition hstep (ev : hevent S) cfg : verdict (gconfig S) :=
  match ev with
  | HConnect i to => connect i to cfg
  | HDisconnect i from => disconnect i from cfg
  | HConnectAll => ConnectAll cfg
  | HPartition p1 p2 => partition p1 p2 cfg
  | HMakeClient to ck names draws => '(_, cfg) ← makeClient to ck names draws cfg; Pass cfg
  | HDeleteClient ck => Pass (deleteClient ck cfg)
  | HConnectClient ck to => ConnectClient ck to cfg
  | HDisconnectClient ck from => DisconnectClient ck from cfg
  | HShutdown i => ShutdownServer i cfg
  | HStart i names srv => StartServer i names srv cfg
  | HServers servers => Pass (set_g_servers servers cfg)
  end.

(** [cfg'] has the wiring of [cfg], and perhaps more ends. *)
Definition same_wiring cfg cfg' : Prop :=
  g_n cfg' = g_n cfg ∧ g_endnames cfg' = g_endnames cfg ∧ keeps_routes (g_net cfg) (g_net cfg').

Lemma same_wiring_refl cfg : same_wiring cfg cfg.
Proof. split_and!; done. Qed.

Lemma same_wiring_trans c1 c2 c3 : same_wiring c1 c2 → same_wiring c2 c3 → same_wiring c1 c3.
Proof. intros (? & ? & Hk1) (? & ? & Hk2). split_and!; [congruence..|]. intros e He. destruct (Hk1 e He) as [He' <-]. by apply Hk2. Qed.

Lemma loop_wiring {A} (l : list A) (f : A → gconfig S → verdict (gconfig S)) cfg cfg' :
  (∀ x c c', f x c = Pass c' → same_wiring c c') → foreach l f cfg = Pass cfg' → same_wiring cfg cfg'.
Proof.
  intros Hf. revert cfg. induction l as [|x l IH]; cbn [foreach]; intros cfg; [intros [= <-]; apply same_wiring_refl|].
  rewrite bind_Pass. intros (c & Hx%Hf & Hl%IH). by eapply same_wiring_trans.
Qed.

Lemma net_wiring names on cfg : same_wiring cfg (set_g_net (EnableAll names on (g_net cfg)) cfg).
Proof. split_and!; [done..|]. apply EnableAll_keeps. Qed.

Lemma switch_wiring on i j cfg cfg' : switch on i j cfg = Pass cfg' → same_wiring cfg cfg'.
Proof. unfold switch. intros Hs. inv_pass Hs. apply (net_wiring [_]). Qed.

Lemma connectUnlocked_wiring i to cfg cfg' : connectUnlocked i to cfg = Pass cfg' → same_wiring cfg cfg'.
Proof.
  unfold connectUnlocked. intros (c & H1 & H2)%bind_Pass.
  eapply same_wiring_trans; (eapply loop_wiring; [|eassumption]); intros ???; apply switch_wiring.
Qed.

Lemma guarded_wiring (h : verdict bool) on i j cfg cfg' :
  (h ≫= λ h : bool, if h then switch on i j cfg else Pass cfg) = Pass cfg' → same_wiring cfg cfg'.
Proof. intros ([|] & _ & Hs)%bind_Pass; [by eapply switch_wiring|]. injection Hs as <-. apply same_wiring_refl. Qed.

Lemma disconnectUnlocked_wiring i from cfg cfg' : disconnectUnlocked i from cfg = Pass cfg' → same_wiring cfg cfg'.
Proof.
  unfold disconnectUnlocked. intros (c & H1 & H2)%bind_Pass.
  eapply same_wiring_trans; (eapply loop_wiring; [|eassumption]); intros ???; apply guarded_wiring.
Qed.

Lemma partition_wiring p1 p2 cfg cfg' : partition p1 p2 cfg = Pass cfg' → same_wiring cfg cfg'.
Proof.
  unfold partition. intros (c & H1 & H2)%bind_Pass. eapply same_wiring_trans; (eapply loop_wiring; [|eassumption]);
    intros ??? (d & Hd & Hc)%bind_Pass; apply disconnectUnlocked_wiring in Hd; apply connectUnlocked_wiring in Hc;
    by eapply same_wiring_trans.
Qed.

Lemma client_wiring endnames on l cfg cfg' :
  foreach l (λ j cfg, s ← at_ endnames j; Pass (set_g_net (Enable s on (g_net cfg)) cfg)) cfg = Pass cfg' → same_wiring cfg cfg'.
Proof. apply loop_wiring. intros x c c' Hs. inv_pass Hs. apply (net_wiring [_]). Qed.

Lemma makeClient_wiring to ck names draws cfg ends cfg' : makeClient to ck names draws cfg = Pass (ends, cfg') → same_wiring cfg cfg'.
Proof.
  unfold makeClient. intros (net & Hm%makeEnds_made & (sh & _ & (c & Hc & [= _ <-])%bind_Pass)%bind_Pass)%bind_Pass.
  apply client_wiring in Hc. eapply same_wiring_trans; [|exact Hc]. split_and!; [done..|]. by eapply made_keeps.
Qed.

Lemma ShutdownServer_wiring i cfg cfg' : ShutdownServer i cfg = Pass cfg' → same_wiring cfg cfg'.
Proof.
  unfold ShutdownServer. intros (c & Hd%disconnectUnlocked_wiring & (sp & _ & (c' & Hsp & Hs)%bind_Pass)%bind_Pass)%bind_Pass.
  eapply same_wiring_trans; [exact Hd|]. assert (same_wiring c c') as Hc by (inv_pass Hsp; split_and!; done).
  eapply same_wiring_trans; [exact Hc|]. inv_pass Hs; split_and!; done.
Qed.

(** What [StartServer] does to the wiring: row [i] holds new names. *)
Lemma StartServer_rows i names srv cfg cfg' : StartServer i names srv cfg = Pass cfg' →
  let row := names <$> upto (g_n cfg) in
  0 ≤ i < len (g_endnames cfg) ∧ g_n cfg' = g_n cfg ∧ g_endnames cfg' = <[Z.to_nat i := row]> (g_endnames cfg) ∧
  ∃ net, made (zip row (srvname <$> upto (g_n cfg))) (g_net cfg) net ∧ ends (g_net cfg') = ends net ∧
    connections (g_net cfg') = connections net.
Proof.
  unfold StartServer. intros (rows & [Hi ->]%put_Pass & Hs)%bind_Pass.
  apply bind_Pass in Hs as (net & Hm%makeEnds_made & Hs). inv_pass Hs; split_and!; eauto; lia.
Qed.

Lemma row_made (names : Z → string) net net' : made (zip (names <$> upto n) (srvname <$> upto n)) net net' → ∀ k e, at_ (names <$> upto n) k = Pass e →
  0 ≤ k < Z.of_nat n ∧ e = names k ∧ e ∉ ends net ∧ e ∈ ends net' ∧ connections net' !! e = Some (Some (srvname k)).
Proof.
  intros Hm k e [Hk Hl]%at_Pass. apply list_lookup_fmap_Some in Hl as (k' & -> & Hl). pose proof Hl as [-> Hlt]%lookup_seqZ.
  assert (names (0 + Z.of_nat (Z.to_nat k)) ∈ (zip (names <$> upto n) (srvname <$> upto n)).*1) as Hin.
  { rewrite zip_row_fst. apply list_elem_of_fmap. eexists; split; [done|]. apply elem_of_upto. lia. }
  replace (0 + Z.of_nat (Z.to_nat k)) with k in * by lia. split_and!; [lia|lia|done|by apply (md_new _ _ _ Hm)|apply (md_ends _ _ _ Hm); by left|].
  apply (md_connected _ _ _ Hm). apply list_elem_of_lookup. exists (Z.to_nat k).
  apply lookup_zip_Some. by rewrite !list_lookup_fmap, Hl.
Qed.

Lemma row_inj (names : Z → string) net net' k k' e : made (zip (names <$> upto n) (srvname <$> upto n)) net net' →
  at_ (names <$> upto n) k = Pass e → at_ (names <$> upto n) k' = Pass e → k = k'.
Proof.
  intros Hm [Hk Hl]%at_Pass [Hk' Hl']%at_Pass. pose proof (md_nodup _ _ _ Hm) as Hnd. rewrite zip_row_fst in Hnd.
  pose proof (NoDup_lookup _ _ _ _ Hnd Hl Hl'). lia.
Qed.

Lemma StartServer_wired i names srv cfg cfg' : wired n cfg → StartServer i names srv cfg = Pass cfg' →
  wired n cfg' ∧ has_row n cfg' i ∧ ∀ j, has_row n cfg j → has_row n cfg' j.
Proof.
  intros Hw (Hi & Hn & He & net & Hm & Hends & Hcon)%StartServer_rows. rewrite (wr_n n cfg Hw) in *.
  set (row := names <$> upto n) in *. assert (length row = n) as Hlen by (unfold row; rewrite length_fmap; unfold upto; rewrite length_seqZ; lia).
  assert (∀ j r, at_ (g_endnames cfg') j = Pass r → (j = i ∧ r = row) ∨ (j ≠ i ∧ at_ (g_endnames cfg) j = Pass r)) as Hat.
  { intros j r. rewrite He, !at_Pass. intros [Hj Hr]. destruct (decide (j = i)) as [->|Hji]; [left|right].
    - rewrite list_lookup_insert_eq in Hr by lia. naive_solver.
    - rewrite list_lookup_insert_ne in Hr by lia. naive_solver. }
  assert (∀ j k e, end_of (g_endnames cfg') j k = Pass e → (j = i ∧ at_ row k = Pass e) ∨ (j ≠ i ∧ end_of (g_endnames cfg) j k = Pass e)) as Hend.
  { intros j k e (r & [[-> ->]|[? ?]]%Hat & Hk)%end_of_Some; [by left|right]. split; [done|]. apply end_of_Some. eauto. }
  assert (∀ k e, at_ row k = Pass e → 0 ≤ k < Z.of_nat n ∧ e = names k ∧ e ∉ ends (g_net cfg) ∧
    e ∈ ends net ∧ connections net !! e = Some (Some (srvname k))) as Hrow by (apply row_made; done).
  assert (names_differ (g_endnames cfg')) as Hd.
  { intros j k j' k' e [[-> H1]|[H1 H1']]%Hend [[-> H2]|[H2 H2']]%Hend.
    - split; [done|]. by eapply row_inj.
    - apply Hrow in H1 as (_ & _ & H1 & _). by apply (wr_ends n cfg Hw) in H2' as [? _].
    - apply Hrow in H2 as (_ & _ & H2 & _). by apply (wr_ends n cfg Hw) in H1' as [? _].
    - by apply (wr_differ n cfg Hw j k j' k' e). }
  split_and!.
  - split; [done|by rewrite He, length_insert, (wr_rows n cfg Hw)| |done|].
    + intros j r [[-> ->]|[_ Hr]]%Hat; [by right|by apply (wr_row n cfg Hw j)].
    + intros j k e. rewrite Hends, Hcon. intros [[-> (?&?&?&?&?)%Hrow]|[_ Hk%(wr_ends n cfg Hw)]]%Hend; [done|].
      destruct (made_keeps _ _ _ Hm e) as [? ->]; [apply Hk|]. by split; [|apply Hk].
  - exists row. split; [|done]. rewrite He. apply at_Pass. rewrite list_lookup_insert_eq by lia. split; [lia|done].
  - intros j (r & Hr & Hl). destruct (decide (j = i)) as [->|Hji].
    + exists row. split; [|done]. rewrite He. apply at_Pass. rewrite list_lookup_insert_eq by lia. split; [lia|done].
    + exists r. split; [|done]. rewrite He. apply at_Pass in Hr as [? ?]. apply at_Pass. rewrite list_lookup_insert_ne by lia. done.
Qed.
Lemma wiring_ready cfg cfg' : same_wiring cfg cfg' → ready n cfg → ready n cfg'.
Proof. intros (? & ? & ?). by apply ready_as. Qed.

Lemma StartServer_ready i names srv cfg cfg' : ready n cfg → StartServer i names srv cfg = Pass cfg' → ready n cfg'.
Proof. intros [Hw Hr] Hs. destruct (StartServer_wired _ _ _ _ _ Hw Hs) as (? & _ & ?). split; auto. Qed.

Lemma ConnectAll_wiring cfg cfg' : ConnectAll cfg = Pass cfg' → same_wiring cfg cfg'.
Proof. apply loop_wiring. intros ???. apply connectUnlocked_wiring. Qed.

Lemma hstep_ready ev cfg cfg' : hstep ev cfg = Pass cfg' → ready n cfg → ready n cfg'.
Proof.
  destruct ev; simpl; intros Hs Hr;
    try (eapply wiring_ready; [|exact Hr]; first [exact (connectUnlocked_wiring _ _ _ _ Hs)|exact (disconnectUnlocked_wiring _ _ _ _ Hs)|
      exact (ConnectAll_wiring _ _ Hs)|exact (partition_wiring _ _ _ _ Hs)|exact (client_wiring _ _ _ _ _ Hs)|exact (ShutdownServer_wiring _ _ _ Hs)]).
  - apply bind_Pass in Hs as ([ends' c] & Hs & Heq). simpl in Heq; injection Heq as ->. eapply wiring_ready; [|exact Hr]. by eapply makeClient_wiring.
  - injection Hs as <-. by apply (wiring_ready cfg).
  - by eapply StartServer_ready.
  - injection Hs as <-. by apply (wiring_ready cfg).
Qed.

Lemma zero_wired maxpaxosstate : wired n (zero_gconfig (S := S) n maxpaxosstate).
Proof.
  assert (∀ i j e, end_of (replicate n []) i j = Pass e → False) as Hno.
  { intros i j e (row & [_ [-> _]%lookup_replicate]%at_Pass & [_ Hj]%at_Pass)%end_of_Some. by rewrite lookup_nil in Hj. }
  split; simpl; [done|apply length_replicate| |by intros i j i' j' e []%Hno|by intros i j e []%Hno].
  intros i row [_ [-> _]%lookup_replicate]%at_Pass. by left.
Qed.

Lemma start_all_ready names srvs l cfg cfg' : wired n cfg →
  foreach l (λ i, StartServer i (names i) (srvs i)) cfg = Pass cfg' →
  wired n cfg' ∧ ∀ i, has_row n cfg i ∨ i ∈ l → has_row n cfg' i.
Proof.
  revert cfg. induction l as [|x l IH]; cbn [foreach]; intros cfg Hw.
  { intros [= <-]. split; [done|]. intros i [?|Hi]; [done|by apply elem_of_nil in Hi]. }
  rewrite bind_Pass. intros (c & (Hw' & Hx & Hk)%StartServer_wired & Hl); [|done].
  destruct (IH c Hw' Hl) as [Hw2 Hi2]. split; [done|]. intros i [Hi|[->|Hi]%elem_of_cons]; auto.
Qed.

Lemma make_config_ready unreliable maxpaxosstate names srvs cfg :
  make_config n unreliable maxpaxosstate names srvs = Pass cfg → ready n cfg.
Proof.
  unfold make_config. intros (c & Hs & (c' & Hc%ConnectAll_wiring & [= <-])%bind_Pass)%bind_Pass.
  apply start_all_ready in Hs as [Hw Hi]; [|apply zero_wired].
  apply (wiring_ready c'); [done|]. apply (wiring_ready c); [done|]. split; [done|]. intros i Hn. apply Hi. right. by apply elem_of_upto.
Qed.

Lemma hrun_ready evs cfg cfg' : ready n cfg → foreach evs hstep cfg = Pass cfg' → ready n cfg'.
Proof. apply foreach_ind. intros ev c c' _ Hc Hs. by eapply hstep_ready. Qed.

Lemma first_leader_range look b l : (0 < n)%nat → first_leader look (upto n) = Pass (b, l) → server n l.
Proof.
  intros Hn. unfold server. assert (∀ xs, (∀ x, x ∈ xs → server n x) → first_leader look xs = Pass (b, l) → server n l) as Hgen.
  { induction xs as [|x xs IH]; simpl; intros Hxs; [intros [= <- <-]; unfold server; lia|].
    rewrite bind_Pass. intros ([|] & _ & Hl); [injection Hl as <- <-; apply Hxs; by left|].
    apply IH; [|done]. intros y Hy. apply Hxs. by right. }
  apply Hgen. intros x. by rewrite elem_of_upto.
Qed.
End events.

(** C28 Partitioning isolates a minority with the leader, whatever has happened
    before: after any calls of the harness, with an odd number of servers of which
    at least three, [make_partition] names each server once, a majority on the
    first side and the server that [Leader] found on the second, and [partition]
    leaves on exactly the ends from a server to a server of its own side.  Each of
    these ends leads to the server that its place in [endnames] says. *)
Theorem partition_isolates_leader {S} `{Tested S} n unreliable maxpaxosstate names srvs evs (cfg0 cfg : gconfig S) b l :
  Nat.Odd n → (3 ≤ n)%nat → make_config n unreliable maxpaxosstate names srvs = Pass cfg0 →
  foreach evs hstep cfg0 = Pass cfg → Leader cfg = Pass (b, l) →
  ∃ p1 p2 cfg', make_partition cfg = Pass (p1, p2) ∧ partition p1 p2 cfg = Pass cfg' ∧
    p1 ++ p2 ≡ₚ upto n ∧ (n < 2 * length p1)%nat ∧ l ∈ p2 ∧
    ∀ i j, server n i → server n j → ∃ e, end_of (g_endnames cfg') i j = Pass e ∧
      connections (g_net cfg') !! e = Some (Some (srvname j)) ∧ is_on e (g_net cfg') = bool_decide (i ∈ p1 ↔ j ∈ p1).
Proof.
  intros Hodd Hn Hmake Hrun Hl. assert (ready n cfg) as Hr by (eapply hrun_ready; [by eapply make_config_ready|done]).
  assert (g_n cfg = n) as Hgn by apply Hr.
  assert (server n l) as Hs by (unfold Leader in Hl; rewrite Hgn in Hl; by eapply first_leader_range in Hl; [|lia]).
  destruct (halves_odd n l Hodd Hn Hs) as (p1 & p2 & Hh & Hp & Hlen & Hin).
  destruct (partition_links n p1 p2 cfg Hp Hr) as (cfg' & Hpart & Hr' & Hk). exists p1, p2, cfg'.
  split; [unfold make_partition; rewrite Hl; simpl; by rewrite Hgn|]. do 2 (split; [done|]).
  split; [destruct Hodd as [k ->]; rewrite Hlen, (Nat.mul_comm 2 k), Nat.div_add_l by lia; lia|]. split; [done|].
  intros i j Hi Hj. destruct (ready_end n cfg' i j Hr' Hi Hj) as [e He]. exists e. split; [done|].
  split; [by apply (wr_ends n cfg' (proj1 Hr') i j)|]. specialize (Hk i j Hi Hj). unfold klink in Hk. by rewrite He in Hk.
Qed.

(** Three servers, a client, a partition, and a server crashed and started again. *)
Definition part_demo_names (r j : Z) : string := Itoa (100 * r + j).
Definition part_demo_srvs (i : Z) : positive := Z.to_pos (i + 1).
Definition part_demo : list (hevent KVServer) :=
  [HMakeClient [0; 1; 2] 1%positive (part_demo_names 7) [0; 0; 1]; HPartition [0] [1; 2];
   HShutdown 2; HStart 2 (part_demo_names 8) 9%positive; HDeleteClient 1%positive; HConnectAll].

Lemma part_demo_leader :
  match cfg0 ← make_config (S := KVServer) 3 false 0 part_demo_names part_demo_srvs; cfg ← foreach part_demo hstep cfg0; Leader cfg with
  | Pass (b, l) => negb b && bool_decide (l = 0) | _ => false end = true.
Proof. vm_compute. reflexivity. Qed.

Lemma partition_isolates_leader_witness : ∃ cfg0 cfg p1 p2 cfg',
  make_config (S := KVServer) 3 false 0 part_demo_names part_demo_srvs = Pass cfg0 ∧ foreach part_demo hstep cfg0 = Pass cfg ∧
  make_partition cfg = Pass (p1, p2) ∧ partition p1 p2 cfg = Pass cfg' ∧ (3 < 2 * length p1)%nat ∧ 0 ∈ p2.
Proof.
  pose proof part_demo_leader as Hl.
  destruct (make_config (S := KVServer) 3 false 0 part_demo_names part_demo_srvs) as [cfg0| |] eqn:H0; [|discriminate Hl..].
  cbn [mbind verdict_bind] in Hl. destruct (foreach part_demo hstep cfg0) as [cfg| |] eqn:H1; [|discriminate Hl..].
  cbn [mbind verdict_bind] in Hl. destruct (Leader cfg) as [[b l]| |] eqn:H2; [|discriminate Hl..].
  apply andb_prop in Hl as [_ Hl]. apply bool_decide_eq_true in Hl. subst l.
  destruct (partition_isolates_leader 3 false 0 part_demo_names part_demo_srvs part_demo cfg0 cfg b 0) as (p1 & p2 & cfg' & Hm & Hp & _ & Hlen & Hin & _);
    [by exists 1%nat|lia|exact H0|exact H1|exact H2|].
  exists cfg0, cfg, p1, p2, cfg'. split; [reflexivity|]. split; [exact H1|]. split; [exact Hm|]. split; [exact Hp|]. split; [exact Hlen|exact Hin].
Defined.

(** ** The edges of the two harnesses *)

(** [first_leader] over servers of which each answers, or panics. *)
Lemma first_leader_crash (look : Z → verdict bool) xs : (∀ x, look x ≠ Fatal) →
  (first_leader look xs = Crash ↔ ∃ i x, xs !! i = Some x ∧ look x = Crash ∧
    ∀ j y, (j < i)%nat → xs !! j = Some y → look y = Pass false).
Proof.
  intros Hf. induction xs as [|x xs IH]; simpl; [split; [done|]; by intros (i & x & ? & _)|].
  assert (look x ≠ Pass false → (∃ i y, (x :: xs) !! i = Some y ∧ look y = Crash ∧
    ∀ j z, (j < i)%nat → (x :: xs) !! j = Some z → look z = Pass false) ↔ look x = Crash) as Hhead.
  { intros Hx. split; [|intros Hc; exists 0%nat, x; split_and!; [done..|lia]].
    intros ([|i] & y & Hy & Hc & Hl); [by injection Hy as ->|]. destruct Hx. apply (Hl 0%nat x); [lia|done]. }
  destruct (look x) as [[|]| |] eqn:Hx; simpl; [by rewrite Hhead| |by apply Hf in Hx|by rewrite Hhead].
  rewrite IH. split.
  - intros (i & y & Hy & Hc & Hl). exists (S i), y. split_and!; [done..|]. intros [|j] z Hj Hz; [by injection Hz as <-|].
    apply (Hl j z); [lia|done].
  - intros ([|i] & y & Hy & Hc & Hl); [injection Hy as ->; congruence|]. exists i, y. split_and!; [done..|].
    intros j z Hj Hz. apply (Hl (S j) z); [lia|done].
Qed.

Lemma first_leader_total (look : Z → verdict bool) xs : (∀ x, x ∈ xs → ∃ b, look x = Pass b) →
  ∃ b l, first_leader look xs = Pass (b, l) ∧ (b = true ↔ ∃ x, x ∈ xs ∧ look x = Pass true).
Proof.
  induction xs as [|x xs IH]; simpl; intros Hx.
  { exists false, 0. split; [done|]. split; [done|]. intros (x & Hin & _). by apply elem_of_nil in Hin. }
  destruct (Hx x) as ([|] & Hb); [by left| |]; rewrite Hb; simpl.
  - exists true, x. split; [done|]. split; [|done]. intros _. exists x. split; [by left|done].
  - destruct IH as (b & l & -> & Hiff); [intros y Hy; apply Hx; by right|]. exists b, l. split; [done|]. rewrite Hiff.
    split; [intros (y & Hy & ?); exists y; split; [by right|done]|].
    intros (y & [->|Hy]%elem_of_cons & Hly); [congruence|]. eauto.
Qed.

Lemma lookup_upto n i x : upto n !! i = Some x ↔ x = Z.of_nat i ∧ (i < n)%nat.
Proof. unfold upto. rewrite lookup_seqZ. split; intros [-> ?]; split; lia. Qed.

Lemma at_nat {A} (l : list A) i : at_ l (Z.of_nat i) = or_crash (l !! i).
Proof.
  destruct (l !! i) as [x|] eqn:Hx; simpl; [by apply at_Pass; rewrite Nat2Z.id; split; [lia|]|].
  destruct (at_ l _) eqn:He; [|unfold at_ in He; by destruct (go_index _ _)|done]. apply at_Pass in He as [_ He].
  rewrite Nat2Z.id in He. congruence.
Qed.

Lemma kv_look (kvs : gconfig KVServer) i :
  (kv ← at_ (g_servers kvs) (Z.of_nat i); kv ← or_crash kv; Pass (t_GetState kv).2) =
  match g_servers kvs !! i with Some (Some kv) => Pass (GetState (kv_rf kv)).2 | _ => Crash end.
Proof. rewrite at_nat. by destruct (g_servers kvs !! i) as [[kv|]|]. Qed.

(** Asking for the leader while a server is down: a3-kvpaxos/config.go asks
    each server in turn until one leads, so it panics exactly when it meets one
    that has been shut down; a3b-sharding/shardctrler/config.go asks only those
    that run, never panics, and misses no leader. *)
Theorem Leader_of_stopped (kvs : gconfig KVServer) (scs : gconfig ShardCtrler) :
  g_n kvs = length (g_servers kvs) → g_n scs = length (g_servers scs) →
  (Leader kvs = Crash ↔ ∃ i, g_servers kvs !! i = Some None ∧
    ∀ j, (j < i)%nat → ∃ kv, g_servers kvs !! j = Some (Some kv) ∧ (GetState (kv_rf kv)).2 = false) ∧
  (∃ b l, ShardCtrlerHarness.Leader scs = Pass (b, l) ∧
    (b = true ↔ ∃ i sc, g_servers scs !! i = Some (Some sc) ∧ (GetState (sc_op sc)).2 = true)).
Proof.
  intros Hk Hs. split.
  - unfold Leader. rewrite Hk, first_leader_crash by (intros x; destruct (at_ _ x) as [[]| |] eqn:Hx; try done; unfold at_ in Hx; by destruct (go_index _ _)).
    split.
    + intros (i & x & [-> Hi]%lookup_upto & Hc & Hl). exists i. rewrite kv_look in Hc. split.
      * apply lookup_lt_is_Some_2 in Hi as [[kv|] Hkv]; rewrite Hkv in Hc |- *; done.
      * intros j Hj. specialize (Hl j (Z.of_nat j) Hj). rewrite kv_look in Hl.
        specialize (Hl ltac:(apply lookup_upto; split; [done|lia])).
        destruct (g_servers kvs !! j) as [[kv|]|]; [exists kv; split; [done|]; by injection Hl|done..].
    + intros (i & Hi & Hl). exists i, (Z.of_nat i). rewrite lookup_upto, kv_look, Hi.
      split_and!; [done|by eapply lookup_lt_Some|done|]. intros j y Hj [-> Hjn]%lookup_upto. rewrite kv_look.
      by destruct (Hl j Hj) as (kv & -> & ->).
  - unfold ShardCtrlerHarness.Leader. rewrite Hs.
    set (look := λ i : Z, sc ← at_ (g_servers scs) i; match sc with Some sc => Pass (GetState (sc_op sc)).2 | None => Pass false end).
    assert (∀ i, (i < length (g_servers scs))%nat → ∃ o, g_servers scs !! i = Some o ∧
      look (Z.of_nat i) = Pass (match o with Some sc => (GetState (sc_op sc)).2 | None => false end)) as Hlook.
    { intros i [o Ho]%lookup_lt_is_Some_2. exists o. split; [done|]. unfold look. rewrite at_nat, Ho. by destruct o. }
    destruct (first_leader_total look (upto (length (g_servers scs)))) as (b & l & Hl & Hb).
    { intros x (i & [-> Hi]%lookup_upto)%list_elem_of_lookup. destruct (Hlook i Hi) as (o & _ & ->). eauto. }
    exists b, l. split; [exact Hl|]. rewrite Hb. split.
    + intros (x & (i & [-> Hi]%lookup_upto)%list_elem_of_lookup & Hx). destruct (Hlook i Hi) as ([sc|] & Ho & Hr); [|congruence].
      exists i, sc. split; [done|]. rewrite Hr in Hx. by injection Hx.
    + intros (i & sc & Ho & Hg). pose proof (lookup_lt_Some _ _ _ Ho) as Hi. exists (Z.of_nat i). split; [apply elem_of_upto; lia|].
      destruct (Hlook i Hi) as (o & Ho' & ->). rewrite Ho in Ho'. injection Ho' as <-. by rewrite Hg.
Qed.

(** Two servers of a service that has just been shut down. *)
Definition stopped_kvs : gconfig KVServer := zero_gconfig 2 0.
Definition stopped_scs : gconfig ShardCtrler := zero_gconfig 2 0.

Lemma Leader_of_stopped_witness : Leader stopped_kvs = Crash ∧ ∃ b l, ShardCtrlerHarness.Leader stopped_scs = Pass (b, l).
Proof.
  destruct (Leader_of_stopped stopped_kvs stopped_scs eq_refl eq_refl) as [Hk (b & l & Hl & _)]. split.
  - apply Hk. exists 0%nat. split; [reflexivity|]. intros j Hj. lia.
  - exists b, l. exact Hl.
Defined.

(** With an even number of servers [make_partition] leaves the last place but one
    of the second side as it was made, 0: server 0 is on both sides. *)
Example halves_four : halves 4 1 = Pass ([0; 2; 3], [0; 1]).
Proof. reflexivity. Qed.

(** Of one server it panics: the second side has no place. *)
Example halves_one : halves 1 0 = Crash.
Proof. reflexivity. Qed.
