(* ===== verification/ShardHarness.v ===== *)
(** * The harness of the sharded service: a3b-sharding/shardkv/config.go

    Three servers of the shard controller, three groups of [n] servers, and the
    clerks, over one network.  The ends of a server are on as soon as they are
    made; only crashing a server switches them off. *)
From Stdlib Require Import Strings.String.
From S2P Require Import Prelude Ballot Messages Persister OmniPaxos GoString ShardCtrler ShardKV Labrpc Harness.

(** ** State *)
Record group := mkGroup {
  gg_gid : Z;
  gg_servers : list (option ShardKV);
  gg_saved : list (option saved_persister);
  gg_endnames : list (list string);
  gg_mendnames : list (list string);
}.

(** [config]: [s_mck] is the controller's clerk, a clerk of [s_clerks] is known by
    its pointer, and a nil row of names is the empty one. *)
Record sconfig := mkSConfig {
  s_net : Network;
  s_nctrlers : nat;
  s_ctrlerservers : list (option ShardCtrler);
  s_mck : option Clerk;
  s_ngroups : nat;
  s_n : nat;
  s_groups : list (option group);
  s_clerks : gmap positive (list string);
  s_nextClientId : Z;
  s_maxpaxosstate : Z;
}.

Definition set_s_net x cfg : sconfig := mkSConfig x (s_nctrlers cfg) (s_ctrlerservers cfg) (s_mck cfg) (s_ngroups cfg) (s_n cfg) (s_groups cfg) (s_clerks cfg) (s_nextClientId cfg) (s_maxpaxosstate cfg).
Definition set_s_ctrlerservers x cfg : sconfig := mkSConfig (s_net cfg) (s_nctrlers cfg) x (s_mck cfg) (s_ngroups cfg) (s_n cfg) (s_groups cfg) (s_clerks cfg) (s_nextClientId cfg) (s_maxpaxosstate cfg).
Definition set_s_mck x cfg : sconfig := mkSConfig (s_net cfg) (s_nctrlers cfg) (s_ctrlerservers cfg) x (s_ngroups cfg) (s_n cfg) (s_groups cfg) (s_clerks cfg) (s_nextClientId cfg) (s_maxpaxosstate cfg).
Definition set_s_groups x cfg : sconfig := mkSConfig (s_net cfg) (s_nctrlers cfg) (s_ctrlerservers cfg) (s_mck cfg) (s_ngroups cfg) (s_n cfg) x (s_clerks cfg) (s_nextClientId cfg) (s_maxpaxosstate cfg).
Definition set_s_clerks x cfg : sconfig := mkSConfig (s_net cfg) (s_nctrlers cfg) (s_ctrlerservers cfg) (s_mck cfg) (s_ngroups cfg) (s_n cfg) (s_groups cfg) x (s_nextClientId cfg) (s_maxpaxosstate cfg).
Definition set_s_nextClientId x cfg : sconfig := mkSConfig (s_net cfg) (s_nctrlers cfg) (s_ctrlerservers cfg) (s_mck cfg) (s_ngroups cfg) (s_n cfg) (s_groups cfg) (s_clerks cfg) x (s_maxpaxosstate cfg).

Definition set_gg_servers x gg : group := mkGroup (gg_gid gg) x (gg_saved gg) (gg_endnames gg) (gg_mendnames gg).
Definition set_gg_saved x gg : group := mkGroup (gg_gid gg) (gg_servers gg) x (gg_endnames gg) (gg_mendnames gg).
Definition set_gg_endnames x gg : group := mkGroup (gg_gid gg) (gg_servers gg) (gg_saved gg) x (gg_mendnames gg).
Definition set_gg_mendnames x gg : group := mkGroup (gg_gid gg) (gg_servers gg) (gg_saved gg) (gg_endnames gg) x.

(** ** Names and ends *)
Definition ctrlername (i : Z) : string := ("ctrler" ++ Itoa i)%string.
Definition servername (gid i : Z) : string := ("server-" ++ Itoa gid ++ "-" ++ Itoa i)%string.

(** [MakeEnd], [Connect] and [Enable]: an end to a server, on. *)
Definition open_end (name server : string) (n : Network) : verdict Network :=
  n ← or_fatal (MakeEnd name n); Pass (Enable name true (Connect name server n)).

(** The closure that clerks and servers are given as [make_end]. *)
Definition make_end (name server : string) cfg : verdict sconfig :=
  net ← open_end name server (s_net cfg); Pass (set_s_net net cfg).

(** A row of [endnames] is filled as the ends are made. *)
Definition ctrler_ends (names : Z → string) (nctrlers : nat) (row : list string) (net : Network) : verdict (list string * Network) :=
  foreach (upto nctrlers) (λ j s, let '(row, net) := s in
    row ← put row j (names j); net ← open_end (names j) (ctrlername j) net; Pass (row, net)) (row, net).

Section harness.
Context {codec : StateCodec Op} {ctrler_codec : StateCodec ControllerCommand}.
Implicit Types cfg : sconfig.
Implicit Types gg : group.

(** ** Clients *)
Definition makeClient (ck : positive) (names : Z → string) (draw_sm draw : Z) cfg : verdict (SKClerk * sconfig) :=
  '(endnames, net) ← ctrler_ends names (s_nctrlers cfg) (replicate (s_n cfg) EmptyString) (s_net cfg);
  let cfg := set_s_clerks (<[ck := endnames]> (s_clerks cfg)) (set_s_net net cfg) in
  Pass (MakeSKClerk draw_sm draw, set_s_nextClientId (wrap64 (s_nextClientId cfg + 1)) cfg).
Definition makeClientBenchmark ck names draw_sm draw cfg : verdict (SKClerk * sconfig) := makeClient ck names draw_sm draw cfg.

(** The files that [os.Remove] tries to remove do not exist. *)
Definition deleteClient (ck : positive) cfg : sconfig := set_s_clerks (delete ck (s_clerks cfg)) cfg.

(** ** Servers of a group *)
Definition group_at (gi : Z) cfg : verdict group := gg ← at_ (s_groups cfg) gi; or_crash gg.
Definition set_group (gi : Z) gg cfg : verdict sconfig := groups ← put (s_groups cfg) gi (Some gg); Pass (set_s_groups groups cfg).

Definition content (i : Z) (sp : saved_persister) gg : verdict Persister :=
  match sp with
  | Own ps => Pass ps
  | Shared => kv ← at_ (gg_servers gg) i; kv ← or_crash kv; Pass (op_persister (sk_op kv))
  end.

Definition disable_row (names : list string) (m : nat) (net : Network) : verdict Network :=
  foreach (upto m) (λ j net, name ← at_ names j; Pass (Enable name false net)) net.

Definition ShutdownServer (gi i : Z) cfg : verdict sconfig :=
  gg ← group_at gi cfg;
  net ← foreach (upto (length (gg_servers gg))) (λ j net, name ← end_of (gg_endnames gg) i j; Pass (Enable name false net)) (s_net cfg);
  mrow ← at_ (gg_mendnames gg) i;
  net ← disable_row mrow (length mrow) net;
  let net := DeleteServer (servername (gg_gid gg) i) net in
  sp ← at_ (gg_saved gg) i;
  gg ← match sp with
       | Some sp => ps ← content i sp gg; saved ← put (gg_saved gg) i (Some (Own (Copy ps))); Pass (set_gg_saved saved gg)
       | None => Pass gg
       end;
  kv ← at_ (gg_servers gg) i;
  gg ← match kv with
       | Some kv => let kv := sk_Kill kv in servers ← put (gg_servers gg) i None; Pass (set_gg_servers servers gg)
       | None => Pass gg
       end;
  set_group gi gg (set_s_net net cfg).

Definition ShutdownGroup (gi : Z) cfg : verdict sconfig := foreach (upto (s_n cfg)) (λ i, ShutdownServer gi i) cfg.

(** The new row of [endnames] has [n] names, that of [mendnames] [nctrlers]. *)
Definition StartServer (gi i : Z) (names mnames : Z → string) (srv : positive) cfg : verdict sconfig :=
  gg ← group_at gi cfg;
  rows ← put (gg_endnames gg) i (names <$> upto (s_n cfg));
  let gg := set_gg_endnames rows gg in
  net ← foreach (upto (s_n cfg)) (λ j net, name ← end_of (gg_endnames gg) i j; open_end name (servername (gg_gid gg) j) net) (s_net cfg);
  mrows ← put (gg_mendnames gg) i (replicate (s_nctrlers cfg) EmptyString);
  '(mrow, net) ← ctrler_ends mnames (s_nctrlers cfg) (replicate (s_nctrlers cfg) EmptyString) net;
  mrows ← put mrows i mrow;
  let gg := set_gg_mendnames mrows gg in
  sp ← at_ (gg_saved gg) i;
  ps ← match sp with Some sp => ps ← content i sp gg; Pass (Copy ps) | None => Pass MakePersister end;
  '(kv, _) ← or_crash (sk_StartServer (s_n cfg) i ps (gg_gid gg));
  saved ← put (gg_saved gg) i (Some Shared);
  servers ← put (gg_servers gg) i (Some kv);
  let gg := set_gg_servers servers (set_gg_saved saved gg) in
  set_group gi gg (set_s_net (AddServer (servername (gg_gid gg) i) srv net) cfg).

Definition StartGroup (gi : Z) (names mnames : Z → Z → string) (srvs : Z → positive) cfg : verdict sconfig :=
  foreach (upto (s_n cfg)) (λ i, StartServer gi i (names i) (mnames i) (srvs i)) cfg.

(** ** The controller *)
Definition StartCtrlerserver (i : Z) (names : Z → string) (srv : positive) cfg : verdict sconfig :=
  net ← foreach (upto (s_nctrlers cfg)) (λ j, open_end (names j) (ctrlername j)) (s_net cfg);
  '(sc, _) ← or_crash (sc_StartServer (s_nctrlers cfg) i MakePersister);
  servers ← put (s_ctrlerservers cfg) i (Some sc);
  Pass (set_s_net (AddServer (ctrlername i) srv net) (set_s_ctrlerservers servers cfg)).

Definition shardclerk (names : Z → string) (draw : Z) cfg : verdict (Clerk * sconfig) :=
  net ← foreach (upto (s_nctrlers cfg)) (λ j, open_end (names j) (ctrlername j)) (s_net cfg);
  Pass (MakeClerk draw, set_s_net net cfg).

(** [replies] are those of the controller's servers, in the order of the calls;
    [None] when none of them is a success and the clerk is still trying. *)
Definition joined (gis : list Z) cfg : verdict (gmap Z (list string)) :=
  foreach gis (λ g m, gg ← group_at g cfg; Pass (<[gg_gid gg := servername (gg_gid gg) <$> upto (s_n cfg)]> m)) ∅.
Definition joinm (gis : list Z) (replies : JoinArgs → list (option string)) cfg : verdict (option sconfig) :=
  m ← joined gis cfg;
  mck ← or_crash (s_mck cfg);
  Pass (mck ← Clerk_Join m mck replies; Some (set_s_mck (Some mck) cfg)).
Definition join (gi : Z) replies cfg : verdict (option sconfig) := joinm [gi] replies cfg.

Definition left_gids (gis : list Z) cfg : verdict (list Z) :=
  foreach gis (λ g gids, gg ← group_at g cfg; Pass (gids ++ [gg_gid gg])) [].
Definition leavem (gis : list Z) (replies : LeaveArgs → list (option string)) cfg : verdict (option sconfig) :=
  gids ← left_gids gis cfg;
  mck ← or_crash (s_mck cfg);
  Pass (mck ← Clerk_Leave gids mck replies; Some (set_s_mck (Some mck) cfg)).
Definition leave (gi : Z) replies cfg : verdict (option sconfig) := leavem [gi] replies cfg.

(** ** The life of a test *)

(** What [make_config] draws. *)
Record draws := mkDraws {
  dr_ctrler : Z → Z → string;
  dr_mck : Z → string;
  dr_clerk : Z;
  dr_ends : Z → Z → Z → string;
  dr_mends : Z → Z → Z → string;
  dr_ctrler_srv : Z → positive;
  dr_srv : Z → Z → positive;
}.

Definition new_group (gi : Z) (n nctrlers : nat) : group :=
  mkGroup (100 + gi) (replicate n None) (replicate n None) (replicate n []) (replicate nctrlers []).

Definition make_groups (dr : draws) cfg : verdict sconfig :=
  foreach (upto (s_ngroups cfg)) (λ gi cfg,
    cfg ← set_group gi (new_group gi (s_n cfg) (s_nctrlers cfg)) cfg;
    foreach (upto (s_n cfg)) (λ i, StartServer gi i (dr_ends dr gi i) (dr_mends dr gi i) (dr_srv dr gi i)) cfg) cfg.

Definition make_config (n : nat) (unreliable : bool) (maxpaxosstate : Z) (dr : draws) : verdict sconfig :=
  let cfg := mkSConfig MakeNetwork 3 (replicate 3 None) None 0 0 [] ∅ 0 maxpaxosstate in
  cfg ← foreach (upto (s_nctrlers cfg)) (λ i, StartCtrlerserver i (dr_ctrler dr i) (dr_ctrler_srv dr i)) cfg;
  '(mck, cfg) ← shardclerk (dr_mck dr) (dr_clerk dr) cfg;
  let cfg := mkSConfig (s_net cfg) (s_nctrlers cfg) (s_ctrlerservers cfg) (Some mck) 3 n (replicate 3 None) ∅ 0 maxpaxosstate in
  cfg ← make_groups dr cfg;
  let cfg := set_s_nextClientId (wrap64 (Z.of_nat (s_n cfg) + 1000)) cfg in
  Pass (set_s_net (Reliable (negb unreliable) (s_net cfg)) cfg).

Definition cleanup (failed : bool) (elapsed : Z) cfg : verdict sconfig :=
  cfg ← foreach (upto (s_ngroups cfg)) ShutdownGroup cfg;
  cfg ← foreach (upto (s_nctrlers cfg)) (λ i cfg,
    sc ← at_ (s_ctrlerservers cfg) i; sc ← or_crash sc;
    servers ← put (s_ctrlerservers cfg) i (Some (sc_Kill sc)); Pass (set_s_ctrlerservers servers cfg)) cfg;
  net ← or_crash (Cleanup (s_net cfg));
  checkTimeout failed elapsed;;
  Pass (set_s_net net cfg).

(** [checklogs]: the sizes a server may have persisted. *)
Definition check_log (maxpaxosstate : Z) (ps : Persister) : verdict unit :=
  if decide (maxpaxosstate >= 0 ∧ OmnipaxosStateSize ps > wrap64 (8 * maxpaxosstate)) then Fatal
  else if decide (maxpaxosstate < 0 ∧ len (ReadSnapshot ps) > 0) then Fatal
  else Pass tt.
Definition checklogs cfg : verdict unit :=
  foreach (upto (s_ngroups cfg)) (λ gi _, gg ← group_at gi cfg;
    foreach (upto (s_n cfg)) (λ i _,
      sp ← at_ (gg_saved gg) i; sp ← or_crash sp; ps ← content i sp gg; check_log (s_maxpaxosstate cfg) ps) tt) tt.
End harness.
