(* ===== verification/ShardHarnessThms.v ===== *)
(** * The harness of the sharded service: what its calls do

    A group is seen as its slots: each holds the server that runs there, if any,
    and where its persisted state is.  Crashing and starting a server act on one
    slot. *)
From Stdlib Require Import Strings.String.
From S2P Require Import Prelude Ballot Messages Persister OmniPaxos GoString ShardCtrler ShardKV Labrpc Harness ShardHarness.

Section slots.
Context {codec : StateCodec Op} {ctrler_codec : StateCodec ControllerCommand}.
Implicit Types cfg : sconfig.
Implicit Types gg : group.

(** ** Slots *)
Definition slot (gi i : Z) cfg : verdict (Z * option ShardKV * option saved_persister) :=
  gg ← group_at gi cfg; kv ← at_ (gg_servers gg) i; sp ← at_ (gg_saved gg) i; Pass (gg_gid gg, kv, sp).

(** Only the slot [i] of group [gi] has changed, to [new]. *)
Record changed (gi i : Z) (new : Z * option ShardKV * option saved_persister) cfg cfg' : Prop := {
  ch_n : s_n cfg' = s_n cfg;
  ch_nctrlers : s_nctrlers cfg' = s_nctrlers cfg;
  ch_slot : slot gi i cfg' = Pass new;
  ch_other gi' k : (gi', k) ≠ (gi, i) → slot gi' k cfg' = slot gi' k cfg;
  ch_group g gg' : group_at g cfg' = Pass gg' → ∃ gg, group_at g cfg = Pass gg ∧
    length (gg_mendnames gg') = length (gg_mendnames gg);
}.

Lemma at_update {A} (l : list A) i x k : 0 ≤ i < len l → at_ (<[Z.to_nat i := x]> l) k = if decide (k = i) then Pass x else at_ l k.
Proof.
  intros Hi. case_decide as Hk; [subst k; apply at_Pass; rewrite list_lookup_insert_eq by lia; split; [lia|done]|].
  unfold at_, go_index. case_decide; [by rewrite list_lookup_insert_ne by lia|done].
Qed.

Lemma set_group_at gi gg cfg cfg' : set_group gi gg cfg = Pass cfg' →
  s_n cfg' = s_n cfg ∧ s_nctrlers cfg' = s_nctrlers cfg ∧ s_ngroups cfg' = s_ngroups cfg ∧ s_net cfg' = s_net cfg ∧
  ∀ g, group_at g cfg' = if decide (g = gi) then Pass gg else group_at g cfg.
Proof.
  unfold set_group. intros (groups & [Hi ->]%put_Pass & [= <-])%bind_Pass. split_and!; [done..|].
  intros g. unfold group_at. simpl. rewrite at_update by done. by case_decide.
Qed.

Lemma slot_inv gi i cfg g kv sp : slot gi i cfg = Pass (g, kv, sp) ↔ ∃ gg, group_at gi cfg = Pass gg ∧ gg_gid gg = g ∧
  at_ (gg_servers gg) i = Pass kv ∧ at_ (gg_saved gg) i = Pass sp.
Proof.
  unfold slot. split.
  - intros (gg & Hg & (x & Hx & (y & Hy & [= <- <- <-])%bind_Pass)%bind_Pass)%bind_Pass. eauto.
  - intros (gg & -> & <- & Hk & Hs). cbn [mbind verdict_bind]. rewrite Hk. cbn [mbind verdict_bind]. by rewrite Hs.
Qed.

(** A group with one slot replaced, put back. *)
Lemma changed_set gi i gg gg' net cfg cfg' kv sp : group_at gi cfg = Pass gg → gg_gid gg' = gg_gid gg →
  0 ≤ i < len (gg_servers gg) → 0 ≤ i < len (gg_saved gg) →
  gg_servers gg' = <[Z.to_nat i := kv]> (gg_servers gg) → gg_saved gg' = <[Z.to_nat i := sp]> (gg_saved gg) →
  length (gg_mendnames gg') = length (gg_mendnames gg) → set_group gi gg' (set_s_net net cfg) = Pass cfg' →
  changed gi i (gg_gid gg, kv, sp) cfg cfg'.
Proof.
  intros Hg Hgid Hi Hi' Hkv Hsp Hm (Hn & Hc & _ & _ & Hat)%set_group_at. split; [done..| | |].
  - unfold slot. rewrite Hat, decide_True by done. cbn [mbind verdict_bind]. rewrite Hkv, at_update, decide_True by done.
    cbn [mbind verdict_bind]. rewrite Hsp, at_update, decide_True by done. cbn [mbind verdict_bind]. by rewrite Hgid.
  - intros gi' k Hne. unfold slot. rewrite Hat. case_decide as Heq; [subst gi'|done]. rewrite Hg. cbn [mbind verdict_bind].
    rewrite Hkv, Hsp, !at_update, !decide_False by (done || congruence). by rewrite Hgid.
  - intros g g'. rewrite Hat. case_decide as Heq; [intros [= <-]; subst g; eauto|]. eauto.
Qed.

Lemma at_Pass_range {A} (l : list A) i x : at_ l i = Pass x → 0 ≤ i < len l ∧ <[Z.to_nat i := x]> l = l.
Proof. intros [Hi Hl]%at_Pass. split; [|by apply list_insert_id]. apply lookup_lt_Some in Hl. lia. Qed.

(** What [saved[i]] stands for. *)
Definition saved_content (kv : option ShardKV) (sp : saved_persister) : verdict Persister :=
  match sp with Own ps => Pass ps | Shared => kv ← or_crash kv; Pass (op_persister (sk_op kv)) end.

Lemma content_slot gg i kv sp ps : at_ (gg_servers gg) i = Pass kv → content i sp gg = Pass ps ↔ saved_content kv sp = Pass ps.
Proof. intros Hk. destruct sp; simpl; [done|]. by rewrite Hk. Qed.

(** ** Crashing a server *)
Lemma save_copy i sp gg g1 : at_ (gg_saved gg) i = Pass sp →
  match sp with
  | Some sp => ps ← content i sp gg; saved ← put (gg_saved gg) i (Some (Own (Copy ps))); Pass (set_gg_saved saved gg)
  | None => Pass gg
  end = Pass g1 → ∃ sp', g1 = set_gg_saved (<[Z.to_nat i := sp']> (gg_saved gg)) gg ∧
  match sp with Some sp => ∃ ps, content i sp gg = Pass ps ∧ sp' = Some (Own ps) | None => sp' = None end.
Proof.
  intros [_ Hid]%at_Pass_range Hg1. destruct sp as [sp|].
  - apply bind_Pass in Hg1 as (ps & Hps & (saved & [_ ->]%put_Pass & [= <-])%bind_Pass). rewrite Copy_id. eauto.
  - injection Hg1 as <-. exists None. rewrite Hid. by destruct gg.
Qed.

Lemma stop_server i kv gg g2 : at_ (gg_servers gg) i = Pass kv →
  match kv with
  | Some kv => let kv := sk_Kill kv in servers ← put (gg_servers gg) i None; Pass (set_gg_servers servers gg)
  | None => Pass gg
  end = Pass g2 → g2 = set_gg_servers (<[Z.to_nat i := None]> (gg_servers gg)) gg.
Proof.
  intros [_ Hid]%at_Pass_range Hg2. destruct kv as [kv|].
  - by apply bind_Pass in Hg2 as (servers & [_ ->]%put_Pass & [= <-]).
  - injection Hg2 as <-. rewrite Hid. by destruct gg.
Qed.

(** The network when a server has been crashed, in the order of the source. *)
Lemma ShutdownServer_inv gi i cfg cfg' : ShutdownServer gi i cfg = Pass cfg' → ∃ gg mrow net1 net2 sp kv sp' gg',
  group_at gi cfg = Pass gg ∧ at_ (gg_mendnames gg) i = Pass mrow ∧
  foreach (upto (length (gg_servers gg))) (λ j net, name ← end_of (gg_endnames gg) i j; Pass (Enable name false net)) (s_net cfg) = Pass net1 ∧
  disable_row mrow (length mrow) net1 = Pass net2 ∧ at_ (gg_saved gg) i = Pass sp ∧ at_ (gg_servers gg) i = Pass kv ∧
  match sp with Some sp => ∃ ps, content i sp gg = Pass ps ∧ sp' = Some (Own ps) | None => sp' = None end ∧
  gg' = set_gg_servers (<[Z.to_nat i := None]> (gg_servers gg)) (set_gg_saved (<[Z.to_nat i := sp']> (gg_saved gg)) gg) ∧
  set_group gi gg' (set_s_net (DeleteServer (servername (gg_gid gg) i) net2) cfg) = Pass cfg'.
Proof.
  unfold ShutdownServer. intros (gg & Hg & (net & Hn1 & (mrow & Hm & (net' & Hn2 & (sp & Hsp & Hs)%bind_Pass)%bind_Pass)%bind_Pass)%bind_Pass)%bind_Pass.
  apply bind_Pass in Hs as (g1 & Hg1 & (kv & Hkv & (g2 & Hg2 & Hset)%bind_Pass)%bind_Pass).
  destruct (save_copy i sp gg g1 Hsp Hg1) as (sp' & -> & Hsp'). apply stop_server in Hg2; [|done]. subst g2.
  eexists gg, mrow, net, net', sp, kv, sp', _. do 7 (split; [done|]). split; [reflexivity|exact Hset].
Qed.

Lemma ShutdownServer_slot gi i cfg cfg' : ShutdownServer gi i cfg = Pass cfg' → ∃ g kv sp sp',
  slot gi i cfg = Pass (g, kv, sp) ∧ changed gi i (g, None, sp') cfg cfg' ∧
  match sp with Some sp => ∃ ps, saved_content kv sp = Pass ps ∧ sp' = Some (Own ps) | None => sp' = None end.
Proof.
  intros (gg & mrow & net1 & net2 & sp & kv & sp' & gg' & Hg & _ & _ & _ & Hsp & Hkv & Hsp' & -> & Hset)%ShutdownServer_inv.
  exists (gg_gid gg), kv, sp, sp'. split; [apply slot_inv; eauto|]. split.
  - eapply changed_set; [done| | | | | | |exact Hset]; try done; by eapply at_Pass_range.
  - destruct sp as [sp|]; [|done]. destruct Hsp' as (ps & Hps & ->). exists ps. split; [|done]. by eapply content_slot.
Qed.

(** ** Starting a server *)
Lemma StartServer_slot gi i names mnames srv cfg cfg' : StartServer gi i names mnames srv cfg = Pass cfg' → ∃ g kv sp ps kv' es,
  slot gi i cfg = Pass (g, kv, sp) ∧ changed gi i (g, Some kv', Some Shared) cfg cfg' ∧
  match sp with Some sp => saved_content kv sp = Pass ps | None => ps = MakePersister end ∧
  sk_StartServer (s_n cfg) i ps g = Some (kv', es) ∧ ∃ gg, group_at gi cfg = Pass gg ∧ 0 ≤ i < len (gg_mendnames gg).
Proof.
  unfold StartServer. intros (gg & Hg & (rows & Hrows & (net & _ & (mrows & [Hmi ->]%put_Pass & Hs)%bind_Pass)%bind_Pass)%bind_Pass)%bind_Pass.
  apply bind_Pass in Hs as ([mrow net'] & _ & (mrows & [_ ->]%put_Pass & (sp & Hsp & Hs)%bind_Pass)%bind_Pass). simpl in Hsp.
  apply bind_Pass in Hs as (ps & Hps & ([kv' es] & Hkv'%or_crash_Pass & Hs)%bind_Pass).
  apply bind_Pass in Hs as (saved & [Hi ->]%put_Pass & (servers & [Hi' ->]%put_Pass & Hset)%bind_Pass). simpl in Hi, Hi'.
  destruct (at_total (gg_servers gg) i Hi') as (kv & Hkv & _). exists (gg_gid gg), kv, sp, ps, kv', es.
  split; [apply slot_inv; eauto|]. split; [|split; [|split; [exact Hkv'|eauto]]].
  - eapply (changed_set gi i gg _ _ cfg cfg' (Some kv') (Some Shared) Hg); [| | | | | |exact Hset]; try done.
    simpl. by rewrite !length_insert.
  - destruct sp as [sp|]; [|by injection Hps as <-]. apply bind_Pass in Hps as (ps' & Hps & [= <-]). rewrite Copy_id.
    destruct sp; simpl in Hps |- *; [done|]. by rewrite Hkv in Hps.
Qed.
(** ** The shape of a harness *)

(** [saved[i]] is the running server's object exactly while a server runs. *)
Record wf (n : nat) cfg : Prop := {
  sw_n : s_n cfg = n;
  sw_nctrlers : s_nctrlers cfg = 3%nat;
  sw_mends gi gg : group_at gi cfg = Pass gg → length (gg_mendnames gg) = 3%nat;
  sw_slot gi i g kv sp : slot gi i cfg = Pass (g, kv, sp) → is_Some kv ↔ sp = Some Shared;
}.

(** Slot [i] of group [gi] is empty, and the tester holds [ps] for it. *)
Definition stopped (gi i g : Z) (ps : Persister) cfg : Prop := slot gi i cfg = Pass (g, None, Some (Own ps)).

(** A step that starts only the slots of [T]. *)
Record step_ok (T : Z → Z → Prop) cfg cfg' : Prop := {
  so_wf n : wf n cfg → wf n cfg';
  so_stopped gi i g ps : ¬ T gi i → stopped gi i g ps cfg → stopped gi i g ps cfg';
}.

Lemma step_ok_refl T cfg : step_ok T cfg cfg.
Proof. by split. Qed.
Lemma step_ok_trans T c1 c2 c3 : step_ok T c1 c2 → step_ok T c2 c3 → step_ok T c1 c3.
Proof. intros [] []. split; eauto. Qed.
Lemma step_ok_mono (T T' : Z → Z → Prop) cfg cfg' : (∀ gi i, T gi i → T' gi i) → step_ok T cfg cfg' → step_ok T' cfg cfg'.
Proof. intros HT []. split; eauto. Qed.

Lemma loop_ok T {A} (l : list A) (f : A → sconfig → verdict sconfig) cfg cfg' :
  (∀ x c c', f x c = Pass c' → step_ok T c c') → foreach l f cfg = Pass cfg' → step_ok T cfg cfg'.
Proof.
  intros Hf Hl. eapply (foreach_ind (λ c, step_ok T cfg c)); [|apply step_ok_refl|exact Hl].
  intros x c c' _ Hc Hx%Hf. by eapply step_ok_trans.
Qed.

(** Nothing that a slot depends on has changed. *)
Lemma same_groups_ok T cfg cfg' : s_n cfg' = s_n cfg → s_nctrlers cfg' = s_nctrlers cfg → s_groups cfg' = s_groups cfg → step_ok T cfg cfg'.
Proof.
  intros Hn Hc Hg. assert (∀ gi, group_at gi cfg' = group_at gi cfg) as Hgr by (intros gi; unfold group_at; by rewrite Hg).
  assert (∀ gi i, slot gi i cfg' = slot gi i cfg) as Hs by (intros gi i; unfold slot; by rewrite Hgr).
  split; [|unfold stopped; intros gi i g ps _; by rewrite Hs].
  intros n []. split; [congruence..| |]; [intros gi gg|intros gi i g kv sp]; rewrite ?Hgr, ?Hs; eauto.
Qed.

Lemma changed_ok (T : Z → Z → Prop) gi i g kv sp cfg cfg' : changed gi i (g, kv, sp) cfg cfg' → (is_Some kv ↔ sp = Some Shared) →
  (∀ g' ps, ¬ T gi i → stopped gi i g' ps cfg → stopped gi i g' ps cfg') → step_ok T cfg cfg'.
Proof.
  intros [Hn Hc Hs Ho Hg] Hkv Hst. split.
  - intros n []. split; [congruence..| |].
    + intros g' gg' (gg & Hgg & ->)%Hg. eauto.
    + intros gi' k g' kv' sp'. destruct (decide ((gi', k) = (gi, i))) as [[= -> ->]|Hne]; [|rewrite Ho by done; eauto].
      rewrite Hs. by intros [= <- <- <-].
  - intros gi' k g' ps HT Hk. destruct (decide ((gi', k) = (gi, i))) as [[= -> ->]|Hne]; [by apply Hst|].
    unfold stopped. by rewrite Ho.
Qed.

Lemma ShutdownServer_ok T gi i cfg cfg' : ShutdownServer gi i cfg = Pass cfg' → step_ok T cfg cfg'.
Proof.
  intros (g & kv & sp & sp' & Hsl & Hch & Hsp)%ShutdownServer_slot. eapply changed_ok; [exact Hch| |].
  - split; [by intros []|]. intros ->. destruct sp as [sp|]; [|done]. by destruct Hsp as (? & _ & ?).
  - unfold stopped. intros g' ps _ Hst. rewrite Hsl in Hst. injection Hst as -> -> ->. destruct Hsp as (ps' & Hps & ->).
    injection Hps as ->. apply (ch_slot _ _ _ _ _ Hch).
Qed.

Lemma StartServer_ok (T : Z → Z → Prop) gi i names mnames srv cfg cfg' : T gi i → StartServer gi i names mnames srv cfg = Pass cfg' → step_ok T cfg cfg'.
Proof.
  intros HT (g & kv & sp & ps & kv' & es & Hsl & Hch & _)%StartServer_slot. eapply changed_ok; [exact Hch| |intros g' ps' []; exact HT].
  split; [done|by eexists].
Qed.

(** ** What a test does with its harness *)
Inductive sevent :=
  | SMakeClient (ck : positive) (names : Z → string) (draw_sm draw : Z)
  | SDeleteClient (ck : positive)
  | SMakeEnd (name server : string)
  | SShutdownServer (gi i : Z)
  | SShutdownGroup (gi : Z)
  | SStartServer (gi i : Z) (names mnames : Z → string) (srv : positive)
  | SStartGroup (gi : Z) (names mnames : Z → Z → string) (srvs : Z → positive)
  | SJoin (gis : list Z) (replies : JoinArgs → list (option string))
  | SLeave (gis : list Z) (replies : LeaveArgs → list (option string))
  | SWork (gi i : Z) (kv : ShardKV).

(** [SWork] is the work of a server: a running one has another state. *)
Definition work (gi i : Z) (kv : ShardKV) cfg : verdict sconfig :=
  gg ← group_at gi cfg; old ← at_ (gg_servers gg) i;
  match old with
  | Some _ => servers ← put (gg_servers gg) i (Some kv); set_group gi (set_gg_servers servers gg) cfg
  | None => Pass cfg
  end.

Definition sstep (ev : sevent) cfg : verdict sconfig :=
  match ev with
  | SMakeClient ck names draw_sm draw => '(_, cfg) ← makeClient ck names draw_sm draw cfg; Pass cfg
  | SDeleteClient ck => Pass (deleteClient ck cfg)
  | SMakeEnd name server => make_end name server cfg
  | SShutdownServer gi i => ShutdownServer gi i cfg
  | SShutdownGroup gi => ShutdownGroup gi cfg
  | SStartServer gi i names mnames srv => StartServer gi i names mnames srv cfg
  | SStartGroup gi names mnames srvs => StartGroup gi names mnames srvs cfg
  | SJoin gis replies => o ← joinm gis replies cfg; Pass (default cfg o)
  | SLeave gis replies => o ← leavem gis replies cfg; Pass (default cfg o)
  | SWork gi i kv => work gi i kv cfg
  end.

Definition starts (ev : sevent) (gi i : Z) : Prop :=
  match ev with SStartServer gi' i' _ _ _ => gi = gi' ∧ i = i' | SStartGroup gi' _ _ _ => gi = gi' | _ => False end.

Lemma work_ok T gi i kv cfg cfg' : work gi i kv cfg = Pass cfg' → step_ok T cfg cfg'.
Proof.
  unfold work. intros (gg & Hg & ([old|] & Hold & Hs)%bind_Pass)%bind_Pass; [|injection Hs as <-; apply step_ok_refl].
  apply bind_Pass in Hs as (servers & [Hi ->]%put_Pass & (Hn & Hc & _ & _ & Hat)%set_group_at).
  assert (∀ g k, slot g k cfg' = if decide (g = gi ∧ k = i) then sp ← at_ (gg_saved gg) i; Pass (gg_gid gg, Some kv, sp) else slot g k cfg) as Hsl.
  { intros g k. unfold slot. rewrite Hat. destruct (decide (g = gi)) as [->|]; [|by rewrite decide_False by naive_solver].
    rewrite Hg. cbn [mbind verdict_bind gg_servers set_gg_servers gg_saved gg_gid]. rewrite at_update by done.
    destruct (decide (k = i)) as [->|]; [by rewrite decide_True by naive_solver|by rewrite decide_False by naive_solver]. }
  split.
  - intros n []. split; [congruence..| |].
    + intros g gg'. rewrite Hat. case_decide; [intros [= <-]; exact (sw_mends0 gi gg Hg)|apply sw_mends0].
    + intros g k g' kv' sp'. rewrite Hsl. case_decide; [|apply sw_slot0].
      intros (sp & Hsp & [= <- <- <-])%bind_Pass. rewrite <-(sw_slot0 gi i (gg_gid gg) (Some old) sp) by (apply slot_inv; eauto).
      by split.
  - intros g k g' ps _. unfold stopped. rewrite Hsl. case_decide as Hd; [|done]. destruct Hd as [-> ->].
    intros (gg' & Hg' & _ & Hk & _)%slot_inv. rewrite Hg in Hg'. injection Hg' as <-. congruence.
Qed.

Lemma sstep_ok ev cfg cfg' : sstep ev cfg = Pass cfg' → step_ok (starts ev) cfg cfg'.
Proof.
  destruct ev; simpl; intros Hs.
  - apply bind_Pass in Hs as ([c1 c2] & Hs & Heq). simpl in Heq. injection Heq as <-. unfold makeClient in Hs.
    apply bind_Pass in Hs as ([row net] & _ & [= _ <-]). by apply same_groups_ok.
  - injection Hs as <-. by apply same_groups_ok.
  - apply bind_Pass in Hs as (net & _ & [= <-]). by apply same_groups_ok.
  - by eapply ShutdownServer_ok.
  - eapply loop_ok; [|exact Hs]. intros ???. apply ShutdownServer_ok.
  - eapply StartServer_ok; [|exact Hs]. done.
  - eapply loop_ok; [|exact Hs]. intros x c c' Hc. eapply StartServer_ok; [|exact Hc]. done.
  - apply bind_Pass in Hs as (o & (m & _ & (mck & _ & [= <-])%bind_Pass)%bind_Pass & [= <-]).
    destruct (Clerk_Join _ _ _); [by apply same_groups_ok|apply step_ok_refl].
  - apply bind_Pass in Hs as (o & (m & _ & (mck & _ & [= <-])%bind_Pass)%bind_Pass & [= <-]).
    destruct (Clerk_Leave _ _ _); [by apply same_groups_ok|apply step_ok_refl].
  - by eapply work_ok.
Qed.

Lemma srun_ok T evs cfg cfg' : Forall (λ ev, ∀ gi i, starts ev gi i → T gi i) evs → foreach evs sstep cfg = Pass cfg' → step_ok T cfg cfg'.
Proof.
  intros HT Hl. rewrite Forall_forall in HT. eapply (foreach_ind (λ c, step_ok T cfg c)); [|apply step_ok_refl|exact Hl].
  intros ev c c' Hev Hc Hs%sstep_ok. eapply step_ok_trans; [exact Hc|]. eapply step_ok_mono; [by apply HT|exact Hs].
Qed.
(** ** A new harness *)
Lemma new_group_wf n gi cfg cfg' : wf n cfg → set_group gi (new_group gi (s_n cfg) (s_nctrlers cfg)) cfg = Pass cfg' → wf n cfg'.
Proof.
  intros [Hn Hc Hm Hs] (Hn' & Hc' & _ & _ & Hat)%set_group_at. split; [congruence..| |].
  - intros g gg. rewrite Hat. case_decide; [intros [= <-]; simpl; by rewrite length_replicate|apply Hm].
  - intros g i g' kv sp. unfold slot. rewrite Hat. case_decide; [|apply Hs]. simpl.
    intros (x & [_ [-> _]%lookup_replicate]%at_Pass & (y & [_ [-> _]%lookup_replicate]%at_Pass & [= <- <- <-])%bind_Pass)%bind_Pass.
    split; [by intros []|done].
Qed.

Lemma StartServer_wf n gi i names mnames srv cfg cfg' : wf n cfg → StartServer gi i names mnames srv cfg = Pass cfg' → wf n cfg' ∧ i < 3.
Proof.
  intros Hw Hs. split; [by eapply (so_wf (λ _ _, True) _ _ (StartServer_ok _ _ _ _ _ _ _ _ I Hs))|].
  apply StartServer_slot in Hs as (? & ? & ? & ? & ? & ? & _ & _ & _ & _ & gg & Hg & Hi).
  rewrite (sw_mends n cfg Hw gi gg Hg) in Hi. lia.
Qed.

(** Starting each server of [l] works at most for the first three. *)
Lemma start_loop_wf n gi dr l cfg cfg' : wf n cfg →
  foreach l (λ i, StartServer gi i (dr_ends dr gi i) (dr_mends dr gi i) (dr_srv dr gi i)) cfg = Pass cfg' →
  wf n cfg' ∧ Forall (λ i, i < 3) l.
Proof.
  revert cfg. induction l as [|i l IH]; cbn [foreach]; intros cfg Hw; [by intros [= <-]|].
  rewrite bind_Pass. intros (c & [Hc Hi]%(StartServer_wf n) & [Hc' Hl]%IH); [|done..]. split; [done|by constructor].
Qed.

Lemma make_groups_wf n dr l cfg cfg' : wf n cfg → foreach l (λ gi cfg,
    cfg ← set_group gi (new_group gi (s_n cfg) (s_nctrlers cfg)) cfg;
    foreach (upto (s_n cfg)) (λ i, StartServer gi i (dr_ends dr gi i) (dr_mends dr gi i) (dr_srv dr gi i)) cfg) cfg = Pass cfg' →
  wf n cfg' ∧ (l ≠ [] → (n ≤ 3)%nat).
Proof.
  revert cfg. induction l as [|gi l IH]; cbn [foreach]; intros cfg Hw; [by intros [= <-]|].
  rewrite bind_Pass. intros (c & Hg & Hrest). apply bind_Pass in Hg as (c1 & Hg & Hl).
  apply (new_group_wf n) in Hg; [|done].
  destruct (start_loop_wf n gi dr _ _ _ Hg Hl) as [Hc Hall]. apply IH in Hrest as [Hw' _]; [|done]. split; [done|]. intros _.
  destruct (decide (n ≤ 3)%nat); [done|]. rewrite Forall_forall in Hall.
  assert (3 < 3); [apply Hall, elem_of_upto; rewrite (sw_n n c1 Hg); lia|lia].
Qed.

Lemma make_config_wf n unreliable maxpaxosstate dr cfg : make_config n unreliable maxpaxosstate dr = Pass cfg → wf n cfg ∧ (n ≤ 3)%nat.
Proof.
  unfold make_config. intros (c1 & Hc1 & ([mck c2] & Hc2 & (c3 & Hc3 & [= <-])%bind_Pass)%bind_Pass)%bind_Pass.
  assert (s_nctrlers c1 = 3%nat) as H1.
  { eapply (foreach_ind (λ c, s_nctrlers c = 3%nat)); [| |exact Hc1]; [|reflexivity]. intros i c c' _ Hc Hs.
    unfold StartCtrlerserver in Hs. apply bind_Pass in Hs as (net & _ & ([sc es] & _ & (servers & _ & [= <-])%bind_Pass)%bind_Pass). done. }
  assert (s_nctrlers c2 = 3%nat) as H2.
  { unfold shardclerk in Hc2. by apply bind_Pass in Hc2 as (net & _ & [= _ <-]). }
  apply (make_groups_wf n) in Hc3 as [Hw Hn].
  - split; [|by apply Hn]. exact (so_wf (λ _ _, False) _ _ (same_groups_ok _ c3 (set_s_net _ (set_s_nextClientId _ c3)) eq_refl eq_refl eq_refl) n Hw).
  - split; [done|done| |]; intros gi.
    + intros gg (o & [_ [-> _]%(lookup_replicate 3)]%at_Pass & Ho)%bind_Pass. done.
    + intros i g kv sp (gg & (o & [_ [-> _]%(lookup_replicate 3)]%at_Pass & Ho)%bind_Pass & _)%bind_Pass. done.
Qed.

Lemma ctrler_ends_length names m row net row' net' : ctrler_ends names m row net = Pass (row', net') → (m ≤ length row)%nat.
Proof.
  unfold ctrler_ends. intros Hl. assert (∀ l r n, foreach l (λ j s, let '(row, net) := s in
    row ← put row j (names j); net ← open_end (names j) (ctrlername j) net; Pass (row, net)) (r, n) = Pass (row', net') →
    Forall (λ j, j < len r) l) as Hgen.
  { clear Hl. induction l as [|j l IH]; cbn [foreach]; intros r nt; [done|]. rewrite bind_Pass.
    intros ([r' n'] & (r1 & [Hj ->]%put_Pass & (n1 & _ & [= <- <-])%bind_Pass)%bind_Pass & Hf%IH).
    rewrite length_insert in Hf. constructor; [lia|done]. }
  apply Hgen in Hl. rewrite Forall_forall in Hl. destruct m as [|m]; [lia|].
  assert (Z.of_nat m < len row); [apply Hl, elem_of_upto; lia|lia].
Qed.
End slots.

(** C35 The harness of the sharded service works for groups of three servers
    only: when [make_config] with [n] servers in a group returns, and after any
    calls of the harness [makeClient] returns as well, [n] is 3.  With more
    servers the rows of [mendnames], one per controller server, run out, with
    fewer those of a clerk's [endnames], which has [n] places for the ends to
    the three controller servers. *)
Theorem groups_of_three {codec : StateCodec Op} {ctrler_codec : StateCodec ControllerCommand} n unreliable maxpaxosstate dr evs cfg0 cfg ck names draw_sm draw r :
  make_config n unreliable maxpaxosstate dr = Pass cfg0 → foreach evs sstep cfg0 = Pass cfg →
  makeClient ck names draw_sm draw cfg = Pass r → n = 3%nat.
Proof.
  intros [Hw Hn]%make_config_wf Hrun Hmk.
  assert (wf n cfg) as Hwf by (eapply (so_wf (λ _ _, True)); [|exact Hw]; eapply srun_ok; [|exact Hrun]; by apply Forall_forall).
  unfold makeClient in Hmk. apply bind_Pass in Hmk as ([row net] & Hrow%ctrler_ends_length & _).
  rewrite length_replicate, (sw_n n cfg Hwf), (sw_nctrlers n cfg Hwf) in Hrow. lia.
Qed.

(** C24 A server of a group is started again from what it had persisted: after any
    calls of the harness, let a running server be shut down, and then whatever
    happens except that the same server is started; when it is started, the new
    instance begins with the bytes that the old one had persisted when it was
    shut down, and from then on persists to its own object. *)
Theorem restart_from_persisted {codec : StateCodec Op} {ctrler_codec : StateCodec ControllerCommand}
    n unreliable maxpaxosstate dr evs evs' gi i g kv sp names mnames srv cfg0 cfg cfg1 cfg2 cfg3 :
  make_config n unreliable maxpaxosstate dr = Pass cfg0 → foreach evs sstep cfg0 = Pass cfg →
  slot gi i cfg = Pass (g, Some kv, sp) → ShutdownServer gi i cfg = Pass cfg1 →
  Forall (λ ev, ¬ starts ev gi i) evs' → foreach evs' sstep cfg1 = Pass cfg2 →
  StartServer gi i names mnames srv cfg2 = Pass cfg3 →
  ∃ kv' es, sk_StartServer n i (op_persister (sk_op kv)) g = Some (kv', es) ∧ slot gi i cfg3 = Pass (g, Some kv', Some Shared).
Proof.
  intros [Hw0 _]%make_config_wf Hrun Hslot Hdown Hev Hrun' Hup.
  assert (wf n cfg) as Hw by (eapply (so_wf (λ _ _, True)); [|exact Hw0]; eapply srun_ok; [|exact Hrun]; by apply Forall_forall).
  assert (sp = Some Shared) as -> by (eapply (sw_slot n cfg Hw); [exact Hslot|by eexists]).
  apply ShutdownServer_slot in Hdown as Hd. destruct Hd as (g1 & kv1 & sp1 & sp' & Hsl & Hch & Hsp). rewrite Hslot in Hsl.
  injection Hsl as <- <- <-. destruct Hsp as (ps & [= <-] & ->).
  assert (step_ok (λ g' i', ¬ (g' = gi ∧ i' = i)) cfg1 cfg2) as [Hwf2 Hst].
  { eapply srun_ok; [|exact Hrun']. eapply Forall_impl; [exact Hev|]. intros ev Hn gi' i' Hs [-> ->]. by apply Hn. }
  assert (wf n cfg1) as Hw1 by exact (so_wf (λ _ _, True) _ _ (ShutdownServer_ok _ _ _ _ _ Hdown) n Hw).
  specialize (Hst gi i g (op_persister (sk_op kv)) ltac:(naive_solver) (ch_slot _ _ _ _ _ Hch)).
  apply StartServer_slot in Hup as (g2 & kv2 & sp2 & ps & kv' & es & Hsl2 & Hch2 & Hps & Hstart & _).
  unfold stopped in Hst. rewrite Hst in Hsl2. injection Hsl2 as <- <- <-. injection Hps as <-.
  exists kv', es. rewrite (sw_n n cfg2 (Hwf2 n Hw1)) in Hstart. split; [exact Hstart|apply (ch_slot _ _ _ _ _ Hch2)].
Qed.

(** ** A crashed server is cut off *)

(** Loops that switch off the ends they name. *)
Lemma disable_loop {A} (l : list A) (g : A → verdict string) (net net' : Network) :
  foreach l (λ j net, name ← g j; Pass (Enable name false net)) net = Pass net' →
  ∃ names, net' = EnableAll names false net ∧ ∀ e, e ∈ names ↔ ∃ x, x ∈ l ∧ g x = Pass e.
Proof.
  revert net. induction l as [|x l IH]; cbn [foreach]; intros net.
  { intros [= <-]. exists []. split; [done|]. intros e. split; [by intros ?%elem_of_nil|]. by intros (x & ?%elem_of_nil & _). }
  rewrite bind_Pass. intros (c & (name & Hx & [= <-])%bind_Pass & (names & -> & Hn)%IH). exists (name :: names). split; [done|].
  intros e. rewrite elem_of_cons, Hn. split.
  - intros [->|(y & Hy & ?)]; [exists x; split; [by left|done]|exists y; split; [by right|done]].
  - intros (y & [->|Hy]%elem_of_cons & Hg); [left; congruence|right; eauto].
Qed.

(** The ends that server [i] of a group was started with. *)
Definition own_end gg (i : Z) (e : string) : Prop :=
  (∃ j, 0 ≤ j < len (gg_servers gg) ∧ end_of (gg_endnames gg) i j = Pass e) ∨ ∃ j, end_of (gg_mendnames gg) i j = Pass e.

(** Shutting down a server cuts it off and touches nothing else: its ends to its
    own group and to the controller are off, no request reaches it through any
    end, and every other end and every other server's name are as they were —
    so the ends that its [make_end] had made for the servers of other groups
    are still on. *)
Theorem ShutdownServer_isolates {codec : StateCodec Op} gi i cfg cfg' gg :
  ShutdownServer gi i cfg = Pass cfg' → group_at gi cfg = Pass gg →
  (∀ e, own_end gg i e → is_on e (s_net cfg') = false) ∧
  (∀ e p, connections (s_net cfg') !! e = Some (Some (servername (gg_gid gg) i)) → ¬ reaches e p (s_net cfg')) ∧
  (∀ e, ¬ own_end gg i e → is_on e (s_net cfg') = is_on e (s_net cfg)) ∧
  (∀ s, s ≠ servername (gg_gid gg) i → server_at s (s_net cfg') = server_at s (s_net cfg)) ∧
  connections (s_net cfg') = connections (s_net cfg).
Proof.
  intros (g & mrow & net1 & net2 & sp & kv & sp' & gg' & Hg & Hm & H1 & H2 & _ & _ & _ & _ & Hset)%ShutdownServer_inv Hgg.
  rewrite Hgg in Hg. injection Hg as <-. apply set_group_at in Hset as (_ & _ & _ & -> & _). simpl.
  apply disable_loop in H1 as (n1 & -> & Hn1). apply disable_loop in H2 as (n2 & -> & Hn2). rewrite <-EnableAll_app.
  assert (∀ e, e ∈ n1 ++ n2 ↔ own_end gg i e) as Hown.
  { intros e. rewrite elem_of_app, Hn1, Hn2. unfold own_end. setoid_rewrite elem_of_upto. setoid_rewrite end_of_Some at 3.
    rewrite Hm. split; (intros [?|(j & Hj)]; [by left|right]; exists j).
    - destruct Hj as [_ Hj]. eauto.
    - destruct Hj as (row & [= <-] & Hj). split; [|done]. by apply at_Pass_range in Hj as [? _]. }
  destruct (EnableAll_routes (n1 ++ n2) false (s_net cfg)) as (_ & Hc & Hs & _). split_and!.
  - intros e He%Hown. unfold is_on. simpl. by rewrite EnableAll_enabled, decide_True.
  - intros e p Hce (_ & s & Hcs & Hat). simpl in Hcs. rewrite Hce in Hcs. injection Hcs as <-.
    unfold server_at in Hat. simpl in Hat. by rewrite lookup_insert_eq in Hat.
  - intros e He. unfold is_on. simpl. rewrite EnableAll_enabled, decide_False; [done|]. by rewrite Hown.
  - intros s Hne. unfold server_at. simpl. by rewrite lookup_insert_ne, Hs.
  - exact Hc.
Qed.

(** ** A run *)
Definition shard_draws : draws := mkDraws
  (λ i j, Itoa (100 + 10 * i + j)) (λ j, Itoa (200 + j)) 5 (λ gi i j, Itoa (1000 + 100 * gi + 10 * i + j))
  (λ gi i j, Itoa (2000 + 100 * gi + 10 * i + j)) (λ i, Z.to_pos (i + 1)) (λ gi i, Z.to_pos (10 * gi + i + 10)).

Definition shard_run : list sevent :=
  [SMakeEnd "x" (servername 100 0); SJoin [0; 1] (λ _, [None; Some EmptyString]); SShutdownGroup 2;
   SStartGroup 2 (λ i j, Itoa (3000 + 10 * i + j)) (λ i j, Itoa (4000 + 10 * i + j)) (λ i, Z.to_pos (i + 60)); SLeave [1] (λ _, [Some EmptyString])].

Definition shard_after : list sevent :=
  [SShutdownServer 1 0; SMakeClient 1%positive (λ j, Itoa (6000 + j)) 7 8; SDeleteClient 1%positive; SJoin [1] (λ _, [Some EmptyString])].
Definition up_names (j : Z) : string := Itoa (7000 + j).
Definition up_mnames (j : Z) : string := Itoa (8000 + j).

Lemma shard_run_passes : match make_config 3 false 0 shard_draws with
  | Pass cfg0 => match foreach shard_run sstep cfg0 with
    | Pass cfg => match slot 0 1 cfg, ShutdownServer 0 1 cfg, makeClient 1%positive (λ j, Itoa (6000 + j)) 7 8 cfg with
      | Pass (g, Some kv, _), Pass cfg1, Pass _ => bool_decide (g = 100) &&
        match foreach shard_after sstep cfg1 with
        | Pass cfg2 => match StartServer 0 1 up_names up_mnames 70 cfg2 with Pass _ => true | _ => false end
        | _ => false end
      | _, _, _ => false end
    | _ => false end
  | _ => false end = true.
Proof. vm_compute. reflexivity. Qed.

Lemma groups_of_three_witness : ∃ cfg0 cfg r, make_config 3 false 0 shard_draws = Pass cfg0 ∧ foreach shard_run sstep cfg0 = Pass cfg ∧
  makeClient 1%positive (λ j, Itoa (6000 + j)) 7 8 cfg = Pass r ∧ 3%nat = 3%nat.
Proof.
  pose proof shard_run_passes as H. destruct (make_config 3 false 0 shard_draws) as [cfg0| |] eqn:H0; [|discriminate H..].
  destruct (foreach shard_run sstep cfg0) as [cfg| |] eqn:H1; [|discriminate H..].
  destruct (slot 0 1 cfg) as [[[g [kv|]] sp]| |]; [|discriminate H..]. destruct (ShutdownServer 0 1 cfg) as [cfg1| |]; [|discriminate H..].
  destruct (makeClient 1%positive (λ j, Itoa (6000 + j)) 7 8 cfg) as [r| |] eqn:H2; [|discriminate H..].
  exists cfg0, cfg, r. split; [reflexivity|]. split; [exact H1|]. split; [exact H2|].
  exact (groups_of_three 3 false 0 shard_draws shard_run cfg0 cfg 1%positive (λ j, Itoa (6000 + j)) 7 8 r H0 H1 H2).
Defined.

Lemma restart_from_persisted_witness : ∃ cfg0 cfg kv cfg1 cfg2 cfg3 kv' es,
  make_config 3 false 0 shard_draws = Pass cfg0 ∧ foreach shard_run sstep cfg0 = Pass cfg ∧ ShutdownServer 0 1 cfg = Pass cfg1 ∧
  foreach shard_after sstep cfg1 = Pass cfg2 ∧ StartServer 0 1 up_names up_mnames 70 cfg2 = Pass cfg3 ∧
  sk_StartServer 3 1 (op_persister (sk_op kv)) 100 = Some (kv', es) ∧ slot 0 1 cfg3 = Pass (100, Some kv', Some Shared).
Proof.
  pose proof shard_run_passes as H. destruct (make_config 3 false 0 shard_draws) as [cfg0| |] eqn:H0; [|discriminate H..].
  destruct (foreach shard_run sstep cfg0) as [cfg| |] eqn:H1; [|discriminate H..].
  destruct (slot 0 1 cfg) as [[[g [kv|]] sp]| |] eqn:Hs; [|discriminate H..]. destruct (ShutdownServer 0 1 cfg) as [cfg1| |] eqn:Hd; [|discriminate H..].
  destruct (makeClient 1%positive (λ j, Itoa (6000 + j)) 7 8 cfg) as [r| |]; [|discriminate H..].
  apply andb_prop in H as [Hg H]. apply bool_decide_eq_true in Hg. subst g.
  destruct (foreach shard_after sstep cfg1) as [cfg2| |] eqn:H2; [|discriminate H..].
  destruct (StartServer 0 1 up_names up_mnames 70 cfg2) as [cfg3| |] eqn:H3; [|discriminate H..].
  destruct (restart_from_persisted 3 false 0 shard_draws shard_run shard_after 0 1 100 kv sp up_names up_mnames 70 cfg0 cfg cfg1 cfg2 cfg3)
    as (kv' & es & Hst & Hsl); [exact H0|exact H1|exact Hs|exact Hd| |exact H2|exact H3|].
  - repeat constructor; simpl; lia.
  - exists cfg0, cfg, kv, cfg1, cfg2, cfg3, kv', es. split; [reflexivity|]. split; [exact H1|]. split; [exact Hd|].
    split; [exact H2|]. split; [exact H3|]. split; [exact Hst|exact Hsl].
Defined.

Lemma ShutdownServer_isolates_witness : ∃ cfg cfg' gg, ShutdownServer 0 1 cfg = Pass cfg' ∧ group_at 0 cfg = Pass gg ∧
  ∀ e, own_end gg 1 e → is_on e (s_net cfg') = false.
Proof.
  pose proof shard_run_passes as H. destruct (make_config 3 false 0 shard_draws) as [cfg0| |]; [|discriminate H..].
  destruct (foreach shard_run sstep cfg0) as [cfg| |]; [|discriminate H..].
  destruct (slot 0 1 cfg) as [[[g [kv|]] sp]| |] eqn:Hs; [|discriminate H..]. destruct (ShutdownServer 0 1 cfg) as [cfg1| |] eqn:Hd; [|discriminate H..].
  destruct (proj1 (slot_inv 0 1 cfg g (Some kv) sp) Hs) as (gg & Hgg & _).
  exists cfg, cfg1, gg. split; [exact Hd|]. split; [exact Hgg|]. exact (proj1 (ShutdownServer_isolates 0 1 cfg cfg1 gg Hd Hgg)).
Defined.
