(* ===== verification/Slices.v ===== *)
(** * Logs are slices

    The rest of the development reads [op.os.Log] as a list.  In Go it is a slice:
    an array with an offset, a length and a capacity, and [append] writes into
    the array when there is room.  Suffixes of the log are kept while it changes,
    by the goroutines that send [AcceptSync] and in the leader's own promise.
    Here the operations on the log run on a heap of arrays. *)
From S2P Require Import Prelude Ballot Messages Persister OmniPaxos.

(** ** Slices and arrays *)
Record slice := mkSlice { s_arr : positive; s_off : nat; s_len : nat; s_cap : nat }.

Section slices.
Context {C : Type}.

(** An element that has not been written is nil, [None]. *)
Abbreviation array := (list (option C)).
Abbreviation heap := (gmap positive array).
Implicit Types (h : heap) (s : slice).

Definition read h s : list (option C) := take (s_len s) (drop (s_off s) (default [] (h !! s_arr s))).

(** [a] from position [i] on holds [vs]. *)
Definition splice (i : nat) (vs a : array) : array := take i a ++ vs ++ drop (i + length vs) a.

(** How much room the run time gives a slice that has outgrown its array: at
    least what it needs. *)
Context (grow : nat → nat → nat).

(** [append(s, vs...)]. *)
Definition append_ (s : slice) (vs : array) h : slice * heap :=
  let n := (s_len s + length vs)%nat in
  if decide (n ≤ s_cap s)%nat
  then (mkSlice (s_arr s) (s_off s) n (s_cap s), alter (splice (s_off s + s_len s) vs) (s_arr s) h)
  else
    let p := fresh (dom h) in
    let c := grow (s_cap s) n in
    (mkSlice p 0 n c, <[p := read h s ++ vs ++ replicate (c - n) None]> h).

(** [s[i:]] and [s[:i]], and the slice of no elements. *)
Definition slice_from (s : slice) (i : Z) : option slice :=
  if decide (0 ≤ i ≤ Z.of_nat (s_len s)) then Some (mkSlice (s_arr s) (s_off s + Z.to_nat i) (s_len s - Z.to_nat i) (s_cap s - Z.to_nat i)) else None.
Definition slice_to (s : slice) (i : Z) : option slice :=
  if decide (0 ≤ i ≤ Z.of_nat (s_cap s)) then Some (mkSlice (s_arr s) (s_off s) (Z.to_nat i) (s_cap s)) else None.
Definition empty_slice h : slice * heap := let p := fresh (dom h) in (mkSlice p 0 0 0, <[p := []]> h).

(** ** The log of a peer *)

(** The heap, [op.os.Log], and the suffixes of it that have been kept. *)
Record logs := mkLogs { l_heap : heap; l_log : slice; l_kept : list slice }.

Definition suffix (idx : Z) (st : logs) : option (slice * heap) :=
  if decide (idx > Z.of_nat (s_len (l_log st))) then Some (empty_slice (l_heap st))
  else s ← slice_from (l_log st) idx; Some (s, l_heap st).
Definition prefix (idx : Z) (st : logs) : option slice :=
  let idx := if decide (idx > Z.of_nat (s_len (l_log st))) then Z.of_nat (s_len (l_log st)) else idx in
  slice_to (l_log st) idx.

Inductive log_op :=
  | Append (cs : list C)
  | Truncate (idx : Z)
  | Keep (idx : Z).

Definition log_step (o : log_op) (st : logs) : option logs :=
  match o with
  | Append cs => let '(s, h) := append_ (l_log st) (Some <$> cs) (l_heap st) in Some (mkLogs h s (l_kept st))
  | Truncate idx => s ← prefix idx st; Some (mkLogs (l_heap st) s (l_kept st))
  | Keep idx => '(s, h) ← suffix idx st; Some (mkLogs h (l_log st) (l_kept st ++ [s]))
  end.
Fixpoint log_run (os : list log_op) (st : logs) : option logs :=
  match os with [] => Some st | o :: os => st ← log_step o st; log_run os st end.

(** A log that [gob] has just decoded. *)
Definition decoded (l : list C) : logs := mkLogs {[1%positive := Some <$> l]} (mkSlice 1 0 (length l) (length l)) [].

(** ** The same on lists *)
Definition list_suffix (idx : Z) (l : list C) : option (list C) := if decide (idx > len l) then Some [] else go_from l idx.
Definition list_prefix (idx : Z) (l : list C) : option (list C) := go_to l (if decide (idx > len l) then len l else idx).

Definition list_step (o : log_op) (lk : list C * list (list C)) : option (list C * list (list C)) :=
  let '(l, kept) := lk in
  match o with
  | Append cs => Some (l ++ cs, kept)
  | Truncate idx => l ← list_prefix idx l; Some (l, kept)
  | Keep idx => k ← list_suffix idx l; Some (l, kept ++ [k])
  end.
Fixpoint list_run (os : list log_op) (lk : list C * list (list C)) : option (list C * list (list C)) :=
  match os with [] => Some lk | o :: os => lk ← list_step o lk; list_run os lk end.

(** No [Truncate] cuts below the end of a suffix that has been kept: [n] is the
    length of the log, [ends] are those of the suffixes. *)
Fixpoint spares (os : list log_op) (n : nat) (ends : list nat) : bool :=
  match os with
  | [] => true
  | Append cs :: os => spares os (n + length cs) ends
  | Truncate idx :: os =>
      let i := Nat.min (Z.to_nat idx) n in forallb (λ e, bool_decide (e ≤ i)%nat) ends && spares os i ends
  | Keep idx :: os => spares os n (ends ++ [n])
  end.
End slices.
Arguments log_op C : clear implicits.
Arguments logs C : clear implicits.

(** ** Slices read what the lists say *)
Section refine.
Context {C : Type}.
Abbreviation heap := (gmap positive (list (option C))).
Implicit Types (h : heap) (s v : slice) (l k : list C).
Context (grow : nat → nat → nat) (grow_enough : ∀ c n, (n ≤ grow c n)%nat).

(** [s] lies in its array, to the end of which its capacity reaches. *)
Record within h s : Prop := {
  wi_array : is_Some (h !! s_arr s);
  wi_cap : (s_off s + s_cap s = length (default [] (h !! s_arr s)))%nat;
  wi_len : (s_len s ≤ s_cap s)%nat;
}.

Lemma read_take h s : read h s = drop (s_off s) (take (s_off s + s_len s) (default [] (h !! s_arr s))).
Proof. unfold read. by rewrite take_drop_commute. Qed.

Lemma read_length h s : within h s → length (read h s) = s_len s.
Proof. intros [_ Hc Hl]. unfold read. rewrite length_take, length_drop. lia. Qed.

Lemma splice_length {A : Type} (i : nat) (vs a : list (option A)) : (i + length vs ≤ length a)%nat → length (splice i vs a) = length a.
Proof. intros Hi. unfold splice. rewrite !length_app, length_take, length_drop. lia. Qed.

Lemma take_splice {A : Type} (i n : nat) (vs a : list (option A)) : (n ≤ i)%nat → (i ≤ length a)%nat → take n (splice i vs a) = take n a.
Proof. intros Hn Hi. unfold splice. rewrite take_app_le by (rewrite length_take; lia). by rewrite take_take, Nat.min_l. Qed.

Lemma take_splice_end {A : Type} (i : nat) (vs a : list (option A)) : (i ≤ length a)%nat → take (i + length vs) (splice i vs a) = take i a ++ vs.
Proof.
  intros Hi. unfold splice. rewrite (assoc_L (++)), take_app_le by (rewrite length_app, length_take; lia).
  apply take_ge. rewrite length_app, length_take. lia.
Qed.

(** ** [append] *)
Section append.
Context (h : heap) (s : slice) (vs : list (option C)) (s' : slice) (h' : heap).
Hypothesis Hw : within h s.
Hypothesis Happ : append_ grow s vs h = (s', h').

Lemma append_within : within h' s'.
Proof using grow_enough Hw Happ.
  destruct Hw as [[a Ha] Hc Hl]. revert Happ. unfold append_. rewrite Ha in Hc. simpl in Hc. case_decide as Hn; intros [= <- <-].
  - split; simpl; rewrite ?lookup_alter_eq, ?Ha; simpl; [by eexists| |done]. rewrite splice_length; lia.
  - split; simpl; rewrite ?lookup_insert_eq; simpl; [by eexists| |apply grow_enough].
    rewrite !length_app, length_replicate, (read_length h s) by (split; [by eexists|rewrite Ha|]; done).
    pose proof (grow_enough (s_cap s) (s_len s + length vs)). lia.
Qed.

Lemma append_read : read h' s' = read h s ++ vs.
Proof using grow_enough Hw Happ.
  pose proof (read_length h s Hw) as Hlen. destruct Hw as [[a Ha] Hc Hl]. revert Happ. unfold append_. rewrite Ha in Hc. simpl in Hc.
  case_decide as Hn; intros [= <- <-].
  - rewrite !read_take. simpl. rewrite lookup_alter_eq, Ha. simpl. rewrite Nat.add_assoc, take_splice_end by lia.
    rewrite drop_app_le by (rewrite length_take; lia). done.
  - unfold read at 1. simpl. rewrite lookup_insert_eq. simpl. rewrite drop_0, (assoc_L (++)), take_app_le by (rewrite length_app; lia).
    apply take_ge. rewrite length_app. lia.
Qed.

(** Other slices read the same, unless they end behind [s] in its array. *)
Lemma append_other v : is_Some (h !! s_arr v) → (s_arr v = s_arr s → (s_off v + s_len v ≤ s_off s + s_len s)%nat) →
  read h' v = read h v ∧ is_Some (h' !! s_arr v) ∧ (s_arr v = s_arr s' → s_arr v = s_arr s ∧ s_off s' = s_off s).
Proof using Hw Happ.
  intros [b Hb] Hend. destruct Hw as [[a Ha] Hc Hl]. revert Happ. unfold append_. rewrite Ha in Hc. simpl in Hc.
  case_decide as Hn; intros [= <- <-]; simpl.
  - rewrite !read_take. destruct (decide (s_arr v = s_arr s)) as [Heq|Hne].
    + rewrite Heq, lookup_alter_eq, Ha. simpl. rewrite take_splice by (specialize (Hend Heq); lia). split; [done|]. split; [by eexists|auto].
    + rewrite lookup_alter_ne by done. split; [done|]. split; [by eexists|done].
  - assert (s_arr v ≠ fresh (dom h)) as Hf.
    { intros Heq. apply (is_fresh (dom h)). rewrite <-Heq. apply elem_of_dom. by eexists. }
    unfold read. rewrite lookup_insert_ne by done. split; [done|]. split; [by eexists|done].
Qed.
End append.
(** ** The log *)
Record holds (st : logs C) l : Prop := {
  ho_within : within (l_heap st) (l_log st);
  ho_read : read (l_heap st) (l_log st) = Some <$> l;
}.

Lemma holds_length st l : holds st l → s_len (l_log st) = length l.
Proof. intros [Hw Hr]. rewrite <-(read_length _ _ Hw), Hr. apply length_fmap. Qed.

Lemma decoded_holds l : holds (decoded l) l.
Proof.
  split; [split; simpl; rewrite ?lookup_singleton_eq; simpl; [by eexists|by rewrite length_fmap|done]|].
  unfold read. simpl. rewrite lookup_singleton_eq. simpl. rewrite drop_0, take_ge; [done|]. by rewrite length_fmap.
Qed.

(** A new array changes no slice. *)
Lemma fresh_array h s a : within h s → within (<[fresh (dom h) := a]> h) s ∧ read (<[fresh (dom h) := a]> h) s = read h s.
Proof.
  intros [Ha Hc Hl]. assert (s_arr s ≠ fresh (dom h)) as Hf.
  { intros Heq. apply (is_fresh (dom h)). rewrite <-Heq. by apply elem_of_dom. }
  unfold read. split; [split|]; by rewrite ?lookup_insert_ne.
Qed.

Lemma slice_to_holds st l (i : nat) : holds st l → (i ≤ length l)%nat →
  holds (mkLogs (l_heap st) (mkSlice (s_arr (l_log st)) (s_off (l_log st)) i (s_cap (l_log st))) (l_kept st)) (take i l).
Proof.
  intros Hh Hi. pose proof (holds_length st l Hh) as Hlen. destruct Hh as [[Ha Hc Hl] Hr]. split; [split; simpl; [done..|lia]|].
  unfold read in *. simpl. rewrite fmap_take, <-Hr, take_take. f_equal. lia.
Qed.

Lemma log_step_holds st l kept o : holds st l →
  match list_step o (l, kept) with
  | Some (l', _) => ∃ st', log_step grow o st = Some st' ∧ holds st' l'
  | None => log_step grow o st = None
  end.
Proof.
  intros Hh. pose proof (holds_length st l Hh) as Hlen. destruct o as [cs|idx|idx]; simpl.
  - destruct (append_ grow _ _ _) as [s' h'] eqn:He. eexists. split; [done|]. destruct Hh as [Hw Hr]. split; simpl.
    + by eapply append_within.
    + rewrite (append_read _ _ _ _ _ Hw He), Hr. by rewrite fmap_app.
  - unfold prefix, slice_to, list_prefix, go_to. rewrite Hlen.
    set (i := if decide (idx > len l) then len l else idx). assert (i ≤ len l) as Hi by (unfold i; case_decide; lia).
    destruct Hh as [[Ha Hc Hl] Hr] eqn:Heq. case_decide as Hd; simpl.
    + rewrite decide_True by lia. simpl. eexists. split; [done|]. apply slice_to_holds; [by split|lia].
    + by rewrite decide_False by lia.
  - unfold suffix, slice_from, list_suffix, go_from. rewrite Hlen. case_decide as Hgt; simpl.
    + eexists. split; [done|]. destruct Hh as [Hw Hr]. destruct (fresh_array (l_heap st) (l_log st) [] Hw) as [Hw' Hr'].
      split; simpl; [done|]. by rewrite Hr'.
    + case_decide as Hd; simpl; [|done]. eexists. split; [done|]. by destruct Hh.
Qed.

(** ** The suffixes that have been kept *)
Record kept_ok (st : logs C) v (e : nat) k : Prop := {
  ko_array : is_Some (l_heap st !! s_arr v);
  ko_read : read (l_heap st) v = Some <$> k;
  ko_end : s_arr v = s_arr (l_log st) → (s_off v + s_len v ≤ s_off (l_log st) + e)%nat;
}.

Definition all_kept (st : logs C) (ends : list nat) (kept : list (list C)) : Prop :=
  Forall3 (kept_ok st) (l_kept st) ends kept.

Lemma Forall3_weaken {A B D} (P Q : A → B → D → Prop) la lb ld : Forall3 P la lb ld → (∀ a b d, b ∈ lb → P a b d → Q a b d) → Forall3 Q la lb ld.
Proof.
  intros HF. induction HF as [|a b d la lb ld HP HF IH]; intros HQ; constructor; [apply HQ; [by left|done]|].
  apply IH. intros x y z Hy. apply HQ. by right.
Qed.

Lemma append_kept st l cs st' ends kept : holds st l → log_step grow (Append cs) st = Some st' →
  Forall (λ e, e ≤ length l)%nat ends → all_kept st ends kept → all_kept st' ends kept.
Proof.
  intros Hh. pose proof (holds_length st l Hh) as Hlen. simpl. destruct (append_ grow _ _ _) as [s' h'] eqn:He.
  intros [= <-] Hends Hk. rewrite Forall_forall in Hends. eapply Forall3_weaken; [exact Hk|]. simpl. intros v e k Hin [Ha Hr Hend].
  specialize (Hends e Hin).
  destruct (append_other _ _ _ _ _ (ho_within _ _ Hh) He v Ha) as (Hr' & Ha' & Hs'); [intros Heq; specialize (Hend Heq); lia|].
  split; simpl; [done|by rewrite Hr'|]. intros Heq. destruct (Hs' Heq) as [Hold ->]. by apply Hend.
Qed.

Lemma truncate_kept st l idx st' ends kept : holds st l → log_step grow (Truncate idx) st = Some st' →
  all_kept st ends kept → all_kept st' ends kept.
Proof.
  intros Hh Hs Hk. simpl in Hs. apply bind_Some in Hs as (s & Hp & [= <-]).
  assert (s_arr s = s_arr (l_log st) ∧ s_off s = s_off (l_log st)) as [Ha Ho].
  { unfold prefix, slice_to in Hp. case_decide; [|done..]. all: case_decide; simplify_eq/=; done. }
  eapply Forall3_weaken; [exact Hk|]. intros v e k _ [? ? Hend]. split; simpl; [done..|]. by rewrite Ha, Ho.
Qed.

(** An array is made for the empty suffix; the others share the log's. *)
Lemma kept_fresh st s v e k : is_Some (l_heap st !! s_arr (l_log st)) → kept_ok st v e k →
  kept_ok (mkLogs (<[fresh (dom (l_heap st)) := []]> (l_heap st)) (l_log st) (l_kept st ++ [s])) v e k.
Proof.
  intros Hlog [Ha Hr He]. assert (s_arr v ≠ fresh (dom (l_heap st))) as Hf.
  { intros Heq. apply (is_fresh (dom (l_heap st))). rewrite <-Heq. by apply elem_of_dom. }
  unfold read in *. split; simpl; unfold read; rewrite ?lookup_insert_ne by done; done.
Qed.

Lemma read_from h s (i : nat) : (i ≤ s_len s)%nat → read h (mkSlice (s_arr s) (s_off s + i) (s_len s - i) (s_cap s - i)) = drop i (read h s).
Proof.
  intros Hi. unfold read. simpl. rewrite <-(drop_drop _ i (s_off s)), take_drop_commute. do 2 f_equal. lia.
Qed.

Lemma keep_kept st l idx st' ends kept l' kept' : holds st l → log_step grow (Keep idx) st = Some st' →
  list_step (Keep idx) (l, kept) = Some (l', kept') → all_kept st ends kept → all_kept st' (ends ++ [length l]) kept'.
Proof.
  intros Hh Hs Hp Hk. pose proof (holds_length st l Hh) as Hlen. destruct Hh as [Hw Hread]. simpl in Hs, Hp.
  apply bind_Some in Hs as ([s h] & Hs & [= <-]). apply bind_Some in Hp as (k & Hp & [= <- <-]).
  unfold suffix, list_suffix in Hs, Hp. rewrite Hlen in Hs. unfold all_kept. simpl. case_decide as Hgt.
  - injection Hs as <- <-. injection Hp as <-. apply Forall3_app.
    + eapply Forall3_weaken; [exact Hk|]. intros v e k _. apply kept_fresh, Hw.
    + constructor; [|constructor]. split; simpl; [rewrite lookup_insert_eq; by eexists| |].
      * unfold read. simpl. by rewrite lookup_insert_eq.
      * intros Heq. destruct (is_fresh (dom (l_heap st))). rewrite Heq. apply elem_of_dom, Hw.
  - apply bind_Some in Hs as (s2 & Hs & [= <- <-]). unfold slice_from, go_from in Hs, Hp. rewrite Hlen in Hs.
    case_decide as Hi; [|done]. injection Hs as <-. injection Hp as <-. apply Forall3_app.
    + eapply Forall3_weaken; [exact Hk|]. by intros v e k' _ [? ? ?].
    + constructor; [|constructor]. split; simpl; [apply Hw| |intros _; lia].
      rewrite <-Hlen, read_from by lia. by rewrite Hread, fmap_drop.
Qed.

(** ** Runs *)
Definition ends_after (o : log_op C) (n : nat) (ends : list nat) : list nat := match o with Keep _ => ends ++ [n] | _ => ends end.

Lemma log_step_kept o os st l kept ends st1 l1 kept1 : holds st l → log_step grow o st = Some st1 → list_step o (l, kept) = Some (l1, kept1) →
  spares (o :: os) (length l) ends = true → Forall (λ e, e ≤ length l)%nat ends → all_kept st ends kept →
  spares os (length l1) (ends_after o (length l) ends) = true ∧ Forall (λ e, e ≤ length l1)%nat (ends_after o (length l) ends) ∧
  all_kept st1 (ends_after o (length l) ends) kept1.
Proof.
  intros Hh Hst Hp Hsp Hends Hk. destruct o as [cs|idx|idx]; simpl ends_after.
  - injection Hp as <- <-. rewrite length_app. split; [exact Hsp|]. split; [|by eapply append_kept].
    eapply Forall_impl; [exact Hends|]. intros e He. simpl in He. lia.
  - pose proof (truncate_kept st l idx st1 ends kept Hh Hst Hk) as Hk1. simpl in Hp, Hsp.
    apply andb_prop in Hsp as [Hle Hsp]. apply Is_true_eq_left, forallb_True in Hle.
    apply bind_Some in Hp as (l2 & Hp & [= <- <-]). unfold list_prefix, go_to in Hp.
    assert (length l2 = Nat.min (Z.to_nat idx) (length l)) as ->.
    { revert Hp. repeat case_decide; intros [= <-]; rewrite length_take; lia. }
    split; [exact Hsp|]. split; [|exact Hk1]. eapply Forall_impl; [exact Hle|]. intros e He. by apply bool_decide_unpack in He.
  - pose proof (keep_kept st l idx st1 ends kept l1 kept1 Hh Hst Hp Hk) as Hk1. simpl in Hp, Hsp.
    apply bind_Some in Hp as (k & _ & [= <- <-]). split; [exact Hsp|]. split; [|exact Hk1].
    apply Forall_app. split; [exact Hends|]. by constructor.
Qed.

Lemma log_run_refines os st l kept ends : holds st l →
  match list_run os (l, kept) with
  | Some (l', kept') => ∃ st', log_run grow os st = Some st' ∧ holds st' l' ∧
      (spares os (length l) ends = true → Forall (λ e, e ≤ length l)%nat ends → all_kept st ends kept → ∃ ends', all_kept st' ends' kept')
  | None => log_run grow os st = None
  end.
Proof.
  revert st l kept ends. induction os as [|o os IH]; intros st l kept ends Hh; [exists st; split_and!; eauto|].
  cbn [list_run log_run]. pose proof (log_step_holds st l kept o Hh) as Hst.
  destruct (list_step o (l, kept)) as [[l1 kept1]|] eqn:Hp; [|by rewrite Hst].
  destruct Hst as (st1 & Hst & Hh1). rewrite Hst. cbn [mbind option_bind].
  specialize (IH st1 l1 kept1 (ends_after o (length l) ends) Hh1). destruct (list_run os (l1, kept1)) as [[l' kept']|] eqn:Hrun; [|done].
  destruct IH as (st' & Hrun' & Hh' & Hall). exists st'. split_and!; [done..|]. intros Hsp Hends Hk.
  by destruct (log_step_kept o os st l kept ends st1 l1 kept1 Hh Hst Hp Hsp Hends Hk) as (? & ? & ?); apply Hall.
Qed.
End refine.
