(* ===== verification/SliceLogs.v ===== *)
(** * The logs of a peer, on slices

    What each event of a peer writes to [op.os.Log], and which suffixes of it it
    hands to goroutines, in the order of a2-omnipaxos/omnipaxos.go.  The list that
    the rest of the development keeps is what the slice holds, and a suffix that
    waits to be sent still holds what it was made of as long as the log is not
    cut below its end.  A schedule of five peers shows what happens otherwise. *)
From S2P Require Import Prelude Ballot Messages Persister OmniPaxos Cluster Agreement Slices.

Section writes.
Context {C : Type} {codec : StateCodec C} `{MapOrder C}.
Implicit Types op : OmniPaxos C.

(** ** Events *)
Inductive pevent := PHandle (src : Z) (m : Msg C) | PPropose (c : C) | PTimer.

Definition prun1 (ev : pevent) op : option (OmniPaxos C * list (Effect C)) :=
  match ev with
  | PHandle src m => handle src m op
  | PPropose c => '(_, op, es) ← Proposal c op; Some (op, es)
  | PTimer => startTimer op
  end.

(** ** Writes *)
Definition accept_sync_writes (req : AcceptSyncRequest C) op : list (log_op C) :=
  if decide (compare (PromisedRnd (op_os op)) (as_N req) ≠ 0 ∨ op_state op ≠ mkState FOLLOWER PREPARE) then []
  else [Truncate (as_SyncIdx req); Append (as_Sfx req)].

Definition accept_writes (req : AcceptRequest C) op : list (log_op C) :=
  if decide (compare (PromisedRnd (op_os op)) (ac_N req) ≠ 0 ∨ op_state op ≠ mkState FOLLOWER ACCEPT) then []
  else [Append [ac_C req]].

(** The suffixes are arguments of the goroutines that send them. *)
Definition promise_prepare_writes op : list (log_op C) :=
  if decide (size (op_promises op) < quorum (op_npeers op))%nat then []
  else
    let maxProm := maxPromise (order (op_promises op)) in
    (if decide (p_accRnd maxProm ≠ AcceptedRnd (op_os op)) then [Truncate (DecidedIdx (op_os op))] else []) ++
    [Append (p_log maxProm); Append (op_buffer op)] ++
    ((λ p, Keep (sync_idx maxProm p)) <$> promise_list op).

Definition promise_writes (req : PromiseRequest C) op : list (log_op C) :=
  if decide (compare (pm_N req) (op_currentRnd op) ≠ 0) then []
  else
    let promise := mkPromise (pm_F req) (pm_AccRnd req) (pm_LogIdx req) (pm_DecIdx req) (pm_Sfx req) in
    let op := set_promises (<[pm_F req := promise]> (op_promises op)) op in
    if decide (role (op_state op) ≠ LEADER) then []
    else match phase (op_state op) with PREPARE => promise_prepare_writes op | _ => [] end.

Definition propose_writes (c : C) op : list (log_op C) :=
  if decide (op_state op = mkState LEADER PREPARE) then []
  else if decide (op_state op = mkState LEADER ACCEPT) then [Append [c]] else [].

(** The leader's own promise keeps a suffix. *)
Definition leader_writes (s : Z) (n : Ballot) op : list (log_op C) :=
  if decide (s = op_me op ∧ compare n (PromisedRnd (op_os op)) > 0) then [Keep (DecidedIdx (op_os op))] else [].
Definition timer_writes op : list (log_op C) :=
  let op := set_ballots (<[op_b op := op_qc op]> (op_ballots op)) op in
  if decide (quorum (op_npeers op) ≤ size (op_ballots op))%nat then
    let max := max_ballot (candidates op) in
    let l := L (op_os op) in
    if decide (compare max l < 0) then []
    else if decide (compare max l > 0) then leader_writes (bPid max) max op else []
  else [].

Definition writes (ev : pevent) op : list (log_op C) :=
  match ev with
  | PHandle _ (MAcceptSync req) => accept_sync_writes req op
  | PHandle _ (MAccept req) => accept_writes req op
  | PHandle _ (MPromise req) => promise_writes req op
  | PHandle _ _ => []
  | PPropose c => propose_writes c op
  | PTimer => timer_writes op
  end.

Fixpoint prun (evs : list pevent) op : option (OmniPaxos C) :=
  match evs with [] => Some op | ev :: evs => '(op, _) ← prun1 ev op; prun evs op end.
Fixpoint all_writes (evs : list pevent) op : list (log_op C) :=
  match evs with
  | [] => []
  | ev :: evs => writes ev op ++ match prun1 ev op with Some (op, _) => all_writes evs op | None => [] end
  end.

(** ** The log is written as said *)
Lemma list_run_app os os' (lk : list C * list (list C)) : list_run (os ++ os') lk = list_run os lk ≫= list_run os'.
Proof. revert lk. induction os as [|o os IH]; intros lk; simpl; [done|]. destruct (list_step o lk); simpl; auto. Qed.

(** The handlers of the other messages leave the log alone. *)
Ltac solve_log := repeat match goal with
  | H : (match ?x with _ => _ end) = Some _ |- _ => destruct x eqn:?; try discriminate H
  | H : mbind _ _ = Some _ |- _ => apply bind_Some in H as (? & ? & H)
  | H : Some _ = Some _ |- _ => injection H as <- <-
  end.

Definition writes_ok (os : list (log_op C)) op op' : Prop :=
  ∀ kept, ∃ kept', list_run os (Log (op_os op), kept) = Some (Log (op_os op'), kept').

Lemma no_writes op op' : Log (op_os op') = Log (op_os op) → writes_ok [] op op'.
Proof. intros He kept. exists kept. simpl. by rewrite He. Qed.

Lemma prefix_list (idx : Z) op : OmniPaxos.prefix idx op = list_prefix idx (Log (op_os op)).
Proof. done. Qed.
Lemma suffix_list (idx : Z) op : OmniPaxos.suffix idx op = list_suffix idx (Log (op_os op)).
Proof. done. Qed.

Lemma accept_sync_ok req op op' es : AcceptSyncHandler req op = Some (op', es) → writes_ok (accept_sync_writes req op) op op'.
Proof.
  unfold AcceptSyncHandler, accept_sync_writes. case_decide; [intros [= <- _]; by apply no_writes|].
  rewrite prefix_list. intros (pre & Hpre & (s & _ & [= <- _])%bind_Some)%bind_Some kept. exists kept. simpl in Hpre |- *. by rewrite Hpre.
Qed.

Lemma accept_ok req op op' es : AcceptHandler req op = Some (op', es) → writes_ok (accept_writes req op) op op'.
Proof.
  unfold AcceptHandler, accept_writes. case_decide; [intros [= <- _]; by apply no_writes|].
  intros (s & _ & [= <- _])%bind_Some kept. by exists kept.
Qed.

Lemma propose_ok c op res op' es : Proposal c op = Some (res, op', es) → writes_ok (propose_writes c op) op op'.
Proof.
  unfold Proposal, propose_writes. simpl. case_decide; [intros [= _ <- _]; by apply no_writes|].
  case_decide; [|intros [= _ <- _]; by apply no_writes].
  intros (acc & _ & (sends & _ & [= _ <- _])%bind_Some)%bind_Some kept. by exists kept.
Qed.

(** Keeping suffixes leaves the log alone, and succeeds when they exist. *)
Lemma keeps_run {A} (f : A → Z) (xs : list A) (l : list C) kept : Forall (λ x, is_Some (list_suffix (f x) l)) xs →
  ∃ kept', list_run ((λ x, Keep (f x)) <$> xs) (l, kept) = Some (l, kept').
Proof.
  revert kept. induction xs as [|x xs IH]; intros kept; simpl; [eauto|]. intros [[k Hk] Hf]%Forall_cons. rewrite Hk. simpl. by apply IH.
Qed.
Lemma mapM_Forall {A B} (f : A → option B) xs ys : mapM f xs = Some ys → Forall (λ x, is_Some (f x)) xs.
Proof. intros Hm%mapM_Some. induction Hm; constructor; [by eexists|done]. Qed.

Lemma promise_prepare_ok n op op' es : promisePrepare n op = Some (op', es) → writes_ok (promise_prepare_writes op) op op'.
Proof.
  unfold promisePrepare, promise_prepare_writes. case_decide; [intros [= <- _]; by apply no_writes|].
  set (maxProm := maxPromise (order (op_promises op))). intros (log & Hlog & (acc & _ & (sends & Hs & [= <- _])%bind_Some)%bind_Some)%bind_Some kept.
  assert (list_run (if decide (p_accRnd maxProm ≠ AcceptedRnd (op_os op)) then [Truncate (DecidedIdx (op_os op))] else [])
    (Log (op_os op), kept) = Some (log, kept)) as H1.
  { simpl in Hlog. case_decide; simpl; [|by injection Hlog as <-]. rewrite prefix_list in Hlog. simpl in Hlog. by rewrite Hlog. }
  rewrite list_run_app, H1. set (l := (log ++ p_log maxProm) ++ op_buffer op).
  change (∃ kept', list_run ((λ p, Keep (sync_idx maxProm p)) <$> promise_list op) (l, kept) = Some (l, kept')). apply keeps_run.
  apply mapM_Forall in Hs. eapply Forall_impl; [exact Hs|]. intros p [m (k & Hk & _)%bind_Some]. exists k. exact Hk.
Qed.

Lemma promise_accept_log req op op' es : promiseAccept req op = Some (op', es) → Log (op_os op') = Log (op_os op).
Proof.
  unfold promiseAccept. intros (mp & _ & (sfx & _ & (s & _ & (d & _ & [= <- _])%bind_Some)%bind_Some)%bind_Some)%bind_Some. done.
Qed.

Lemma promise_ok req op op' es : PromiseHandler req op = Some (op', es) → writes_ok (promise_writes req op) op op'.
Proof.
  unfold PromiseHandler, promise_writes. case_decide; [intros [= <- _]; by apply no_writes|].
  set (op1 := set_promises _ op). change (Log (op_os op)) with (Log (op_os op1)).
  case_decide; [intros [= <- _]; by apply no_writes|]. change (writes_ok ?os op op') with (writes_ok os op1 op').
  destruct (phase (op_state op1)); [apply promise_prepare_ok| |].
  - intros Ha%promise_accept_log. by apply no_writes.
  - intros [= <- _]. by apply no_writes.
Qed.

Lemma trigger_ok s n op op' es : triggerLeader s n op = Some (op', es) → writes_ok (leader_writes s n op) op op'.
Proof.
  unfold triggerLeader, leader_writes. case_decide; [|intros [= <- _]; by apply no_writes].
  intros (log & Hlog & (sends & _ & [= <- _])%bind_Some)%bind_Some kept. rewrite suffix_list in Hlog. simpl in Hlog |- *.
  rewrite Hlog. by eexists.
Qed.

Lemma missed_log op op' es : updateMissedHbsAndReconnect op = Some (op', es) → Log (op_os op') = Log (op_os op).
Proof.
  unfold updateMissedHbsAndReconnect. intros ([[m a] e] & _ & (e2 & _ & [= <- _])%bind_Some)%bind_Some.
  simpl. repeat case_decide; simpl; repeat case_match; done.
Qed.

Lemma timer_ok op op' es : startTimer op = Some (op', es) → writes_ok (timer_writes op) op op'.
Proof.
  unfold startTimer. intros ([op2 e1] & H2 & ([op3 e2] & H3%missed_log & (e3 & _ & [= <- _])%bind_Some)%bind_Some)%bind_Some.
  cut (writes_ok (timer_writes op) op op2).
  { intros H4 kept. destruct (H4 kept) as [kept' Hk]. exists kept'. etrans; [exact Hk|]. simpl in H3 |- *. by rewrite H3. }
  unfold timer_writes. set (op1 := set_ballots _ op) in *. change (writes_ok ?os op op2) with (writes_ok os op1 op2).
  case_decide; [|injection H2 as <- _; by apply no_writes]. unfold checkLeader in H2.
  case_decide; [injection H2 as <- _; by apply no_writes|]. case_decide; [|injection H2 as <- _; by apply no_writes].
  by apply trigger_ok in H2.
Qed.

(** The handlers of the other messages leave the log alone. *)
Definition keeps_log (r : option (OmniPaxos C * list (Effect C))) op : Prop := ∀ op' es, r = Some (op', es) → Log (op_os op') = Log (op_os op).

Lemma prepare_log req op : keeps_log (PrepareHandler req op) op.
Proof.
  unfold keeps_log, PrepareHandler. intros op' es. case_decide; [by intros [= <- _]|].
  by intros (sfx & _ & (s & _ & [= <- _])%bind_Some)%bind_Some.
Qed.
Lemma decide_log req op : keeps_log (DecideHandler req op) op.
Proof.
  unfold keeps_log, DecideHandler. intros op' es. do 2 (case_decide; [by intros [= <- _]|]).
  case_decide; [by intros (e & _ & [= <- _])%bind_Some|by intros [= <- _]].
Qed.
Lemma accepted_log req op : keeps_log (AcceptedHandler req op) op.
Proof.
  unfold keeps_log, AcceptedHandler. intros op' es. case_decide; [by intros [= <- _]|].
  intros (acc & _ & Ha)%bind_Some. revert Ha. case_decide; [|by intros [= <- _]].
  by intros (e & _ & (s & _ & [= <- _])%bind_Some)%bind_Some.
Qed.
Lemma prepare_req_log req op : keeps_log (PrepareReqHandler req op) op.
Proof.
  unfold keeps_log, PrepareReqHandler. intros op' es. case_decide; [by intros [= <- _]|].
  by intros (s & _ & [= <- _])%bind_Some.
Qed.
Lemma reconnected_log req op : keeps_log (ReconnectedHandler req op) op.
Proof.
  unfold keeps_log, ReconnectedHandler. intros op' es (s & _ & [= <- _])%bind_Some. by case_decide.
Qed.

Lemma writes_correct ev op op' es : prun1 ev op = Some (op', es) → writes_ok (writes ev op) op op'.
Proof.
  destruct ev as [src m|c|]; simpl; [|intros ([[res op1] es1] & Hp%propose_ok & [= <- _])%bind_Some; exact Hp|apply timer_ok].
  destruct m; simpl; intros Hh.
  - injection Hh as <- _. by apply no_writes.
  - injection Hh as <- _. apply no_writes. unfold heartBeatReply. by case_decide.
  - by eapply no_writes, prepare_log.
  - by eapply promise_ok.
  - by eapply accept_sync_ok.
  - by eapply no_writes, decide_log.
  - by eapply no_writes, accepted_log.
  - by eapply accept_ok.
  - by eapply no_writes, prepare_req_log.
  - by eapply no_writes, reconnected_log.
Qed.

Lemma all_writes_correct evs op op' : prun evs op = Some op' → writes_ok (all_writes evs op) op op'.
Proof.
  revert op. induction evs as [|ev evs IH]; intros op; simpl; [intros [= <-]; by apply no_writes|].
  destruct (prun1 ev op) as [[op1 es]|] eqn:He; [|done]. simpl. intros Hr kept.
  destruct (writes_correct ev op op1 es He kept) as [k1 H1]. destruct (IH op1 Hr k1) as [k2 H2]. exists k2.
  rewrite list_run_app, H1. exact H2.
Qed.
(** ** The events of one peer in a schedule *)
Definition peer_event (i : Z) (ev : event C) (c : cluster C) : list pevent :=
  match ev with
  | Deliver _ k =>
      match net c !! k with
      | Some p => if decide (pk_dst p = i) then [PHandle (pk_src p) (pk_msg p)] else []
      | None => []
      end
  | Propose j cmd => if decide (j = i) then [PPropose cmd] else []
  | Timer j => if decide (j = i) then [PTimer] else []
  | Drop _ | Restart _ => []
  end.
Fixpoint peer_events (i : Z) (evs : list (event C)) (c : cluster C) : list pevent :=
  match evs with
  | [] => []
  | ev :: evs => peer_event i ev c ++ match step ev c with Some c => peer_events i evs c | None => [] end
  end.

(** The peer is not started again, and the order of its map is the given one. *)
Definition steady (i : Z) (ev : event C) : Prop :=
  match ev with Deliver ord _ => ord = H | Restart j => j ≠ i | _ => True end.

Lemma prun_app evs1 evs2 op : prun (evs1 ++ evs2) op = prun evs1 op ≫= prun evs2.
Proof. revert op. induction evs1 as [|ev evs1 IH]; intros op; simpl; [done|]. destruct (prun1 ev op) as [[op1 es]|]; simpl; auto. Qed.

Lemma commit_node i j op op' es (c : cluster C) : nodes c !! i = Some op →
  nodes (commit j op' es c) !! i = Some (if decide (j = i) then op' else op).
Proof. intros Hop. simpl. rewrite lookup_insert. by case_decide. Qed.

Lemma step_peer i ev c c' op : steady i ev → step ev c = Some c' → nodes c !! i = Some op →
  ∃ op', nodes c' !! i = Some op' ∧ prun (peer_event i ev c) op = Some op'.
Proof.
  intros Hst Hs Hop. destruct ev as [ord k|k|j|j cmd|j]; simpl in Hs |- *.
  - apply bind_Some in Hs as (p & -> & (opj & Hj & ([op' es] & Hh & [= <-])%bind_Some)%bind_Some). simpl in Hst. subst ord.
    rewrite (commit_node i _ op) by done. eexists. split; [done|]. case_decide as Hd; [|done].
    rewrite Hd, Hop in Hj. injection Hj as <-. simpl. by rewrite Hh.
  - apply bind_Some in Hs as (p & _ & [= <-]). by exists op.
  - apply bind_Some in Hs as (opj & Hj & ([op' es] & Hh & [= <-])%bind_Some).
    rewrite (commit_node i _ op) by done. eexists. split; [done|]. case_decide as Hd; [|done].
    rewrite Hd, Hop in Hj. injection Hj as <-. simpl. by rewrite Hh.
  - apply bind_Some in Hs as (opj & Hj & ([[res op'] es] & Hh & [= <-])%bind_Some).
    rewrite (commit_node i _ op) by done. eexists. split; [done|]. case_decide as Hd; [|done].
    rewrite Hd, Hop in Hj. injection Hj as <-. simpl in Hh |- *. by rewrite Hh.
  - apply bind_Some in Hs as (opj & Hj & ([op' es] & Hh & [= <-])%bind_Some).
    rewrite (commit_node i _ op) by done. rewrite decide_False by done. by exists op.
Qed.

(** In a schedule of the cluster, the peer does what its own events say. *)
Lemma run_peer i evs c c' op : Forall (steady i) evs → run evs c = Some c' → nodes c !! i = Some op →
  ∃ op', nodes c' !! i = Some op' ∧ prun (peer_events i evs c) op = Some op'.
Proof.
  intros Hst. revert c op. induction Hst as [|ev evs Hev Hst IH]; intros c op; simpl; [intros [= ->]; by exists op|].
  intros (c1 & Hs & Hr)%bind_Some Hop. rewrite Hs. destruct (step_peer i ev c c1 op Hev Hs Hop) as (op1 & Hop1 & H1).
  destruct (IH c1 op1 Hr Hop1) as (op' & Hop' & Hp). exists op'. split; [done|]. by rewrite prun_app, H1.
Qed.
End writes.

(** C21 The lists are what the slices hold: whatever a peer does between two starts,
    and however much room [append] gives a slice that has outgrown its array, the
    operations on slices run without a panic and [op.os.Log] reads the list that
    the model of the peer has.  The suffixes that were handed to goroutines on
    the way, or to the leader's own promise, read what they were made of, if the
    log was never cut below the end of one of them. *)
Theorem slices_hold_logs {C} {codec : StateCodec C} `{MapOrder C} grow (evs : list pevent) (op op' : OmniPaxos C) :
  (∀ c n, (n ≤ grow c n)%nat) → prun evs op = Some op' →
  ∃ kept st, list_run (all_writes evs op) (Log (op_os op), []) = Some (Log (op_os op'), kept) ∧
    log_run grow (all_writes evs op) (decoded (Log (op_os op))) = Some st ∧
    read (l_heap st) (l_log st) = Some <$> Log (op_os op') ∧
    (spares (all_writes evs op) (length (Log (op_os op))) [] = true →
     Forall2 (λ s k, read (l_heap st) s = Some <$> k) (l_kept st) kept).
Proof.
  intros Hg Hr. destruct (all_writes_correct evs op op' Hr []) as [kept Hl].
  pose proof (log_run_refines grow Hg (all_writes evs op) (decoded (Log (op_os op))) _ [] [] (decoded_holds _)) as Href.
  rewrite Hl in Href. destruct Href as (st & Hst & Hh & Hk). exists kept, st. split_and!; [done..|apply Hh|].
  intros Hs. destruct Hk as [ends Hall]; [done|by constructor|constructor|]. clear -Hall. unfold all_kept in Hall.
  induction Hall as [|s e k ss es ks Hs _ IH]; constructor; [apply Hs|done].
Qed.

(** ** A waiting suffix is overwritten *)

#[local] Existing Instance list_order.
Abbreviation deliver_nth k := (Deliver list_order k).
Abbreviation lose_first k := (replicate k (Drop 0)).

(** Peer 2 leads round (1, 2) with the promises of 0 and 1, and 8 is proposed to
    it; its [Accept]s are lost.  Then peer 3 leads round (1, 3) with the promises
    of 0 and 2, and adopts 8. *)
Definition adopted : list (event Z) :=
  [Timer 0; Timer 1] ++ lose_first 8 ++ [Timer 2; deliver_nth 0; deliver_nth 0; deliver_nth 2; deliver_nth 2] ++ lose_first 2 ++
  [Timer 2; deliver_nth 5; deliver_nth 5; deliver_nth 7; deliver_nth 7] ++ lose_first 7 ++
  [Timer 2; deliver_nth 0; deliver_nth 0; deliver_nth 6; deliver_nth 6] ++ lose_first 9 ++ [Propose 2 8] ++ lose_first 2 ++
  [Timer 0; Timer 2] ++ lose_first 13 ++ [Timer 3; deliver_nth 0; deliver_nth 1; deliver_nth 2; deliver_nth 2] ++ lose_first 2 ++
  [Timer 3; deliver_nth 5; deliver_nth 6; deliver_nth 7; deliver_nth 7] ++ lose_first 7 ++
  [Timer 3; deliver_nth 0; deliver_nth 1; deliver_nth 6; deliver_nth 6].

(** Peer 4 leads round (1, 4) with the promises of 0 and 1, 5 is proposed to it,
    and its [AcceptSync] reaches peer 3.  Nothing is lost. *)
Definition overtaken : list (event Z) :=
  [Timer 0; Timer 1; Timer 4; deliver_nth 22; deliver_nth 22; deliver_nth 24; deliver_nth 24;
   Timer 4; deliver_nth 29; deliver_nth 29; deliver_nth 31; deliver_nth 31; Timer 4; deliver_nth 31; deliver_nth 31;
   deliver_nth 37; deliver_nth 37; Propose 4 5; deliver_nth 32; deliver_nth 41; deliver_nth 41].

(** The request that waits to be sent to peer 0. *)
Definition waiting : packet Z := mkPacket 3 0 (MAcceptSync (mkAcceptSyncRequest 3 (mkBallot 1 3) [8] 0)).

(** What peer 3 does to its slices in a schedule of five new peers. *)
Definition writes_of_3 (evs : list (event Z)) : option (list (log_op Z)) :=
  op ← nodes (init_cluster 5) !! 3; Some (all_writes (peer_events 3 evs (init_cluster 5)) op).
Definition slices_of_3 (grow : nat → nat → nat) (evs : list (event Z)) : option (logs Z) :=
  op ← nodes (init_cluster 5) !! 3;
  log_run grow (all_writes (peer_events 3 evs (init_cluster 5)) op) (decoded (Log (op_os op))).

Lemma log_run_app grow (os os' : list (log_op Z)) st : log_run grow (os ++ os') st = log_run grow os st ≫= log_run grow os'.
Proof. revert st. induction os as [|o os IH]; intros st; simpl; [done|]. destruct (log_step grow o st); simpl; auto. Qed.

Lemma slices_of_writes grow evs os : writes_of_3 evs = Some os → slices_of_3 grow evs = log_run grow os (decoded []).
Proof.
  unfold writes_of_3, slices_of_3. destruct (nodes (init_cluster 5) !! 3) as [op|] eqn:Hop; simpl; [|done]. intros [= ->].
  apply init_lookup in Hop as [Hi Hm]. destruct (Make_fresh (C := Z) 5 3 Hi) as (op' & Hm' & Hos & _). rewrite Hm in Hm'.
  injection Hm' as ->. by rewrite Hos.
Qed.

Lemma adopted_writes : writes_of_3 adopted = Some [Keep 0; Truncate 0; Append [8]; Append []; Keep 0; Keep 1; Keep 0].
Proof. vm_compute. reflexivity. Qed.
Lemma overtaken_writes : writes_of_3 (adopted ++ overtaken) =
  Some [Keep 0; Truncate 0; Append [8]; Append []; Keep 0; Keep 1; Keep 0; Truncate 0; Append [5]].
Proof. vm_compute. reflexivity. Qed.

Definition has_waiting (c : cluster Z) : bool :=
  match net c !! 8%nat with
  | Some (mkPacket src dst (MAcceptSync req)) =>
      bool_decide ((src, dst, as_L req, as_N req, as_Sfx req, as_SyncIdx req) = (3, 0, 3, mkBallot 1 3, [8], 0))
  | _ => false
  end.
Lemma has_waiting_in c : has_waiting c = true → waiting ∈ net c.
Proof.
  unfold has_waiting. destruct (net c !! 8%nat) as [[src dst m]|] eqn:Hp; [|done]. destruct m as [| | | |req| | | | |]; try done.
  destruct req. intros [= -> -> -> -> -> ->]%bool_decide_eq_true. by eapply list_elem_of_lookup_2.
Qed.

Lemma overtaken_run : match ordered_run adopted (init_cluster 5) with
  | Some c1 => has_waiting c1 && match ordered_run overtaken c1 with Some c2 => has_waiting c2 | None => false end
  | None => false end = true.
Proof. vm_compute. reflexivity. Qed.

(** Where the first command goes, when [append] makes an array with room for [S g]. *)
Definition first_append (g : nat) : logs Z :=
  mkLogs (<[2%positive := Some 8 :: replicate g None]> {[1%positive := []]}) (mkSlice 2 0 1 (S g)) [mkSlice 1 0 0 0].

Lemma first_append_run grow g : grow 0%nat 1%nat = S g →
  log_run grow [Keep 0; Truncate 0; Append [8]] (decoded []) = Some (first_append g).
Proof.
  intros Hg. unfold first_append. cbn. unfold append_. simpl. rewrite Hg. simpl. rewrite Nat.sub_0_r.
  assert (fresh (dom ({[1%positive := []]} : gmap positive (list (option Z)))) = 2%positive) as -> by (vm_compute; reflexivity).
  reflexivity.
Qed.

(** The arrays of the two states, for any growth of slices. *)
Lemma slices_overwritten grow : (∀ c n, (n ≤ grow c n)%nat) → ∃ st1 st2 v,
  log_run grow [Keep 0; Truncate 0; Append [8]; Append []; Keep 0; Keep 1; Keep 0] (decoded (C := Z) []) = Some st1 ∧
  log_run grow [Keep 0; Truncate 0; Append [8]; Append []; Keep 0; Keep 1; Keep 0; Truncate 0; Append [5]] (decoded []) = Some st2 ∧
  l_kept st1 !! 3%nat = Some v ∧ l_kept st2 !! 3%nat = Some v ∧ read (l_heap st1) v = [Some 8] ∧ read (l_heap st2) v = [Some 5].
Proof.
  intros Hg. pose proof (Hg 0%nat 1%nat) as H1. destruct (grow 0 1)%nat as [|g] eqn:Hgr; [lia|].
  assert (∀ os, log_run grow (Keep 0 :: Truncate 0 :: Append [8] :: os) (decoded []) = log_run grow os (first_append g)) as Hrun.
  { intros os. change (Keep 0 :: Truncate 0 :: Append [8] :: os) with ([Keep 0; Truncate 0; Append [8]] ++ os).
    by rewrite log_run_app, (first_append_run grow g Hgr). }
  rewrite !Hrun. eexists _, _, _. split; [vm_compute; reflexivity|]. split; [vm_compute; reflexivity|].
  split; [reflexivity|]. split; [reflexivity|]. split; reflexivity.
Qed.

(** The writes are those of the peer in the cluster. *)
Lemma ordered_run_run (evs : list (event Z)) c c' : ordered_run evs c = Some c' → run evs c = Some c'.
Proof.
  revert c. induction evs as [|ev evs IH]; intros c; simpl; [done|]. destruct (orderedb c ev); [|done].
  intros (c1 & -> & Hr)%bind_Some. by apply IH.
Qed.

Lemma adopted_steady : Forall (steady 3) (adopted ++ overtaken).
Proof. repeat constructor. Qed.

Lemma of_peer_3 c1 c2 : ordered_run adopted (init_cluster 5) = Some c1 → ordered_run overtaken c1 = Some c2 →
  nodes (init_cluster 5) !! 3 ≫= prun (peer_events 3 (adopted ++ overtaken) (init_cluster 5)) = nodes c2 !! 3.
Proof.
  intros H1%ordered_run_run H2%ordered_run_run. assert (run (adopted ++ overtaken) (init_cluster 5) = Some c2) as Hr by by rewrite run_app, H1.
  destruct (proj2 (cw_dom 5 _ (reachable_wf (C := Z) 5 _ (reachable_init 5)) 3)) as [op Hop]; [unfold idx; lia|]. rewrite Hop. simpl.
  destruct (run_peer 3 _ _ c2 op adopted_steady Hr Hop) as (op' & -> & Hp). exact Hp.
Qed.

(** C40 The goroutine that sends [AcceptSync] is given a slice of the log and
    encodes it later, without the lock.  In an ordered schedule of five new peers
    and for every way in which [append] makes room, peer 3 leads round (1, 3),
    adopts the command 8 of the leader of round (1, 2), and has a request with it
    for peer 0; while that waits to be sent peer 3 follows the leader of round
    (1, 4), whose log is written over the same array.  The slice of the request
    now reads 5, a command of the later round, under the number of the earlier one. *)
Theorem pending_suffix_overwritten grow : (∀ c n, (n ≤ grow c n)%nat) → ∃ c1 c2 st1 st2 v,
  ordered_run adopted (init_cluster 5) = Some c1 ∧ ordered_run overtaken c1 = Some c2 ∧
  waiting ∈ net c1 ∧ waiting ∈ net c2 ∧
  nodes (init_cluster 5) !! 3 ≫= prun (peer_events 3 (adopted ++ overtaken) (init_cluster 5)) = nodes c2 !! 3 ∧
  slices_of_3 grow adopted = Some st1 ∧ slices_of_3 grow (adopted ++ overtaken) = Some st2 ∧
  l_kept st1 !! 3%nat = Some v ∧ l_kept st2 !! 3%nat = Some v ∧ read (l_heap st1) v = [Some 8] ∧ read (l_heap st2) v = [Some 5].
Proof.
  intros Hg. destruct (slices_overwritten grow Hg) as (st1 & st2 & v & H1 & H2 & Hv). pose proof overtaken_run as Hr.
  destruct (ordered_run adopted (init_cluster 5)) as [c1|] eqn:Hr1; [|done]. apply andb_prop in Hr as [Hw1 Hr].
  destruct (ordered_run overtaken c1) as [c2|] eqn:Hr2; [|done]. exists c1, c2, st1, st2, v.
  rewrite (slices_of_writes grow _ _ adopted_writes), (slices_of_writes grow _ _ overtaken_writes).
  split; [done|]. split; [done|]. split; [by apply has_waiting_in|]. split; [by apply has_waiting_in|].
  split; [exact (of_peer_3 c1 c2 Hr1 Hr2)|]. rewrite H1, H2. split; [reflexivity|]. split; [reflexivity|exact Hv].
Qed.

(** ** A run that spares its suffixes *)
Definition doubling (c n : nat) : nat := Nat.max (2 * c) n.
Definition new_peer : option (OmniPaxos Z) := fst <$> Make 5 3 MakePersister.
Definition quiet_run : list (pevent (C := Z)) := peer_events 3 adopted (init_cluster 5) ++ [PPropose 9].

Lemma quiet_run_spares : match new_peer with
  | Some op => match prun quiet_run op with
    | Some op' => bool_decide (Log (op_os op') = [8; 9]) && spares (all_writes quiet_run op) (length (Log (op_os op))) []
    | None => false end
  | None => false end = true.
Proof. vm_compute. reflexivity. Qed.

Lemma doubling_enough c n : (n ≤ doubling c n)%nat.
Proof. unfold doubling. lia. Qed.

Lemma slices_hold_logs_witness : ∃ op kept st, new_peer = Some op ∧
  log_run doubling (all_writes quiet_run op) (decoded (Log (op_os op))) = Some st ∧
  read (l_heap st) (l_log st) = [Some 8; Some 9] ∧ Forall2 (λ s k, read (l_heap st) s = Some <$> k) (l_kept st) kept.
Proof.
  pose proof quiet_run_spares as Hq. destruct new_peer as [op|]; [|discriminate Hq].
  destruct (prun quiet_run op) as [op'|] eqn:Hr; [|discriminate Hq]. apply andb_prop in Hq as [Hl Hs]. apply bool_decide_eq_true in Hl.
  destruct (slices_hold_logs doubling quiet_run op op' doubling_enough Hr) as (kept & st & _ & Hst & Hread & Hk).
  exists op, kept, st. split; [reflexivity|]. split; [exact Hst|]. split; [rewrite Hread, Hl; reflexivity|]. exact (Hk Hs).
Defined.

Lemma pending_suffix_overwritten_witness : ∃ c2 st2 v, ordered_run adopted (init_cluster 5) ≫= ordered_run overtaken = Some c2 ∧
  waiting ∈ net c2 ∧ slices_of_3 doubling (adopted ++ overtaken) = Some st2 ∧ l_kept st2 !! 3%nat = Some v ∧ read (l_heap st2) v = [Some 5].
Proof.
  destruct (pending_suffix_overwritten doubling doubling_enough) as (c1 & c2 & st1 & st2 & v & H1 & H2 & _ & Hw & _ & _ & Hs & _ & Hv & _ & Hr).
  exists c2, st2, v. split; [rewrite H1; exact H2|]. split; [exact Hw|]. split; [exact Hs|]. split; [exact Hv|exact Hr].
Defined.
