(* ===== verification/PeersNet.v ===== *)
(** * The peers over the simulated network

    The OmniPaxos peers as a program on labrpc: what a handler sends is a [Call]
    on an end of the sender, the network's goroutines take it to the server of
    the callee, [Server.dispatch] finds the method, and the method starts the
    goroutine that does the work.  Heartbeats are answered in the method itself,
    and the caller's goroutine reads the answer.  A peer that is crashed and
    started again is a new instance with ends and a server object of its own; the
    old instance runs on, as [Kill] stops none of its goroutines. *)
From Stdlib Require Import Strings.String.
From S2P Require Import Prelude Labrpc RpcWorld GoString Ballot Messages Persister OmniPaxos OmniPaxosInv Cluster Agreement Harness.

(** ** Methods *)

(** The name of the method that a call names, without the service. *)
Definition meth_name {C} (m : Msg C) : string :=
  match m with
  | MHBRequest _ => "HeartBeatHandler"
  | MHBReply _ _ _ => ""
  | MPrepare _ => "PrepareHandler"
  | MPromise _ => "PromiseHandler"
  | MAcceptSync _ => "AcceptSyncHandler"
  | MDecide _ => "DecideHandler"
  | MAccepted _ => "AcceptedHandler"
  | MAccept _ => "AcceptHandler"
  | MPrepareReq _ => "PrepareReqHandler"
  | MReconnected _ => "ReconnectedHandler"
  end.
Definition svcMeth {C} (m : Msg C) : string := ("OmniPaxos." ++ meth_name m)%string.

Definition handler_names : list string :=
  ["HeartBeatHandler"; "PrepareHandler"; "PromiseHandler"; "AcceptSyncHandler"; "DecideHandler"; "AcceptedHandler";
   "AcceptHandler"; "PrepareReqHandler"; "ReconnectedHandler"].

(** What the peers rely on of labgob: arguments and replies arrive as they were
    sent.  [decode_args] is told the method, whose argument type it decodes to. *)
Class RpcCodec (C : Type) := {
  encode_args : Msg C → bytes;
  decode_args : string → bytes → option (Msg C);
  encode_reply : HBReply → bytes;
  decode_reply : bytes → option HBReply;
  dummy_reply : bytes;
  decode_encode_args m : meth_name m ∈ handler_names → decode_args (meth_name m) (encode_args m) = Some m;
  decode_encode_reply r : decode_reply (encode_reply r) = Some r;
}.

Section net.
Context {C : Type} {codec : StateCodec C} {rpc : RpcCodec C}.

(** The objects behind the services: the instances, by peer and by how often the
    peer was started before, and the goroutines that the methods have started and
    that have not got the lock yet. *)
Record peers := mkPeers {
  a_nodes : gmap (Z * nat) (OmniPaxos C);
  a_jobs : list (Z * nat * Msg C);
}.

(** A method of instance [x]. *)
Definition on_call (x : Z * nat) (meth : string) (args : bytes) (a : peers) : peers * bytes :=
  match decode_args meth args with
  | Some (MHBRequest req) =>
      match a_nodes a !! x with Some op => (a, encode_reply (HeartBeatHandler req op)) | None => (a, dummy_reply) end
  | Some m => (mkPeers (a_nodes a) (a_jobs a ++ [(x, m)]), dummy_reply)
  | None => (a, dummy_reply)
  end.

Definition peer_service (x : Z * nat) : Service_ peers :=
  MakeService "OmniPaxos" ((λ nm, mkMethod nm true 3 true 0 (on_call x nm)) <$> handler_names).
Definition peer_server (x : Z * nat) : Server peers := AddService (peer_service x) MakeServer.

(** ** The world *)

(** The names that are drawn for the ends of an instance, and the server object
    of each instance. *)
Context (n : nat) (endname : Z → nat → Z → string).
Definition server_ptr (x : Z * nat) : positive := encode x.

(** What [Call] sends for a packet of the [k]-th instance. *)
Definition request (k : nat) (p : packet C) : reqMsg :=
  mkReq (endname (pk_src p) k (pk_dst p)) (svcMeth (pk_msg p)) (encode_args (pk_msg p)).

(** [nw_out] are the goroutines about to call, [nw_sent] the calls that have been
    made, by number, each with the instance of its sender, and [nw_read] those
    whose answer has been read.  [nw_hist] is what instances have sent to
    [applyCh] before they were killed, [nw_late] what they sent there after that,
    when their applier had been told to stop.  [nw_inc] counts the starts of a peer, and
    [nw_saved] holds the persister of a peer that is down. *)
Record nworld := mkNW {
  nw_rpc : rpc_world peers;
  nw_out : list (nat * packet C);
  nw_sent : gmap nat (nat * packet C);
  nw_read : gset nat;
  nw_hist : list (Z * ApplyMsg C);
  nw_late : list (Z * ApplyMsg C);
  nw_inc : gmap Z nat;
  nw_saved : gmap Z Persister;
}.

Definition set_rpc r w : nworld := mkNW r (nw_out w) (nw_sent w) (nw_read w) (nw_hist w) (nw_late w) (nw_inc w) (nw_saved w).
Definition nw_app w : peers := w_app (nw_rpc w).
Definition with_app (a : peers) (r : rpc_world peers) : rpc_world peers :=
  mkRpc (w_net r) (w_heap r) a (w_calls r) (w_runs r).

Definition inc w (i : Z) : nat := default 0%nat (nw_inc w !! i).
Definition up w (i : Z) : bool := bool_decide (nw_saved w !! i = None).
(** Instance [x] is the one that runs: it has not been killed. *)
Definition alive w (x : Z * nat) : bool := up w x.1 && bool_decide (x.2 = inc w x.1).

(** Instance [x] has moved to [op] with effects [es]; [jobs] are left. *)
Definition advance (x : Z * nat) (op : OmniPaxos C) (es : list (Effect C)) (jobs : list (Z * nat * Msg C)) w : nworld :=
  mkNW (with_app (mkPeers (<[x := op]> (a_nodes (nw_app w))) jobs) (nw_rpc w))
    (nw_out w ++ (pair x.2 <$> emit x.1 es)) (nw_sent w) (nw_read w)
    (nw_hist w ++ (if alive w x then pair x.1 <$> applied es else []))
    (nw_late w ++ (if alive w x then [] else pair x.1 <$> applied es)) (nw_inc w) (nw_saved w).

(** ** Steps *)

(** The operations on the network that are not about one end or a new server. *)
Definition switch_op (o : net_op) : bool :=
  match o with OpMakeEnd _ | OpAddServer _ _ | OpConnect _ _ | OpEnable _ _ => false | _ => true end.

(** The steps of the goroutines of a call. *)
Definition call_step {App} (l : label App) : bool :=
  match l with Net _ | NewServer _ _ | RpcWorld.Send _ _ => false | _ => true end.

Inductive nlabel :=
  | NEnd (i j : Z)                    (* [start1]: peer [i] gets its end to peer [j] *)
  | NServe (j : Z)                    (* [start1]: the server of peer [j] is added *)
  | NEnable (i j : Z) (on : bool)     (* [connect], [disconnect]: one end *)
  | NNet (o : net_op)
  | NCrash (i : Z)                    (* [crash1], after [disconnect] and [DeleteServer] *)
  | NStart (i : Z)                    (* [start1]: [Make] *)
  | NCall (id k : nat)                (* the [k]-th goroutine makes its call *)
  | NRpc (l : label peers)
  | NJob (ord : MapOrder C) (k : nat) (* the [k]-th goroutine gets the lock *)
  | NAnswer (id : nat)                (* a heartbeat's answer is read *)
  | NTimer (x : Z * nat)
  | NPropose (x : Z * nat) (cmd : C).

(** The ends of peer [i] are off and nobody can call it. *)
Definition isolated w (i : Z) : Prop :=
  Forall (λ j, enabled (w_net (nw_rpc w)) !! endname i (inc w i) j ≠ Some true) (seqZ 0 (Z.of_nat n)) ∧
  server_at (srvname i) (w_net (nw_rpc w)) = None.
#[export] Instance isolated_dec w i : Decision (isolated w i).
Proof. unfold isolated. apply _. Defined.

Definition crash (i : Z) (ps : Persister) w : nworld :=
  mkNW (nw_rpc w) (nw_out w) (nw_sent w) (nw_read w) (nw_hist w) (nw_late w) (nw_inc w) (<[i := ps]> (nw_saved w)).
Definition renew (i : Z) w : nworld :=
  mkNW (nw_rpc w) (nw_out w) (nw_sent w) (nw_read w) (nw_hist w) (nw_late w) (<[i := S (inc w i)]> (nw_inc w)) (delete i (nw_saved w)).
Definition read_answer (id : nat) w : nworld :=
  mkNW (nw_rpc w) (nw_out w) (nw_sent w) ({[id]} ∪ nw_read w) (nw_hist w) (nw_late w) (nw_inc w) (nw_saved w).

(** One step; on [strict] schedules the running instances see no gap (Agreement.v).  [None] when the step
    is not possible, or panics. *)
Definition nstep (strict : bool) (l : nlabel) w : option nworld :=
  match l with
  | NEnd i j =>
      if decide (idx n i ∧ idx n j ∧ up w i = true) then
        let e := endname i (inc w i) j in
        r ← rpc_run [Net (OpMakeEnd e); Net (OpConnect e (srvname j))] (nw_rpc w); Some (set_rpc r w)
      else None
  | NServe j =>
      if decide (idx n j ∧ up w j = true) then
        let x := (j, inc w j) in
        r ← rpc_run [NewServer (server_ptr x) (peer_server x); Net (OpAddServer (srvname j) (server_ptr x))] (nw_rpc w);
        Some (set_rpc r w)
      else None
  | NEnable i j on =>
      if decide (idx n i ∧ idx n j ∧ up w i = true) then
        r ← rpc_step (Net (OpEnable (endname i (inc w i) j) on)) (nw_rpc w); Some (set_rpc r w)
      else None
  | NNet o => if switch_op o then r ← rpc_step (Net o) (nw_rpc w); Some (set_rpc r w) else None
  | NCrash i =>
      if decide (up w i = true ∧ isolated w i) then
        op ← a_nodes (nw_app w) !! (i, inc w i); Some (crash i (Copy (op_persister op)) w)
      else None
  | NStart i =>
      ps ← nw_saved w !! i;
      r ← Make n i (Copy ps);
      Some (advance (i, S (inc w i)) r.1 r.2 (a_jobs (nw_app w)) (renew i w))
  | NCall id k =>
      kp ← nw_out w !! k;
      r ← rpc_step (RpcWorld.Send id (request kp.1 kp.2)) (nw_rpc w);
      Some (mkNW r (delete k (nw_out w)) (<[id := kp]> (nw_sent w)) (nw_read w) (nw_hist w) (nw_late w) (nw_inc w) (nw_saved w))
  | NRpc l => if call_step l then r ← rpc_step l (nw_rpc w); Some (set_rpc r w) else None
  | NJob ord k =>
      xm ← a_jobs (nw_app w) !! k;
      op ← a_nodes (nw_app w) !! xm.1;
      if strict && alive w xm.1 && negb (bool_decide (in_order op xm.2)) then None else
      r ← handle xm.1.1 xm.2 op;
      Some (advance xm.1 r.1 r.2 (delete k (a_jobs (nw_app w))) w)
  | NAnswer id =>
      kp ← nw_sent w !! id;
      c ← w_calls (nw_rpc w) !! id;
      r ← c_result c;
      match pk_msg kp.2 with
      | MHBRequest req =>
          let x := (pk_src kp.2, kp.1) in
          if rp_ok r && bool_decide (id ∉ nw_read w) then
            rep ← decode_reply (rp_reply r);
            op ← a_nodes (nw_app w) !! x;
            let op := heartBeatReply (hb_Rnd req) (pk_dst kp.2) rep op in
            Some (read_answer id (advance x op [] (a_jobs (nw_app w)) w))
          else None
      | _ => None
      end
  | NTimer x => op ← a_nodes (nw_app w) !! x; r ← startTimer op; Some (advance x r.1 r.2 (a_jobs (nw_app w)) w)
  | NPropose x cmd => op ← a_nodes (nw_app w) !! x; r ← Proposal cmd op; Some (advance x r.1.2 r.2 (a_jobs (nw_app w)) w)
  end.

Fixpoint nrun (strict : bool) (ls : list nlabel) w : option nworld :=
  match ls with [] => Some w | l :: ls => w ← nstep strict l w; nrun strict ls w end.

(** Peers with empty persisters, and no network yet. *)
Definition ninit : nworld :=
  mkNW (rpc_init (mkPeers (kmap (λ i, (i, 0%nat)) (boot n (seqZ 0 (Z.of_nat n)))) [])) [] ∅ ∅ [] [] ∅ ∅.
End net.
Arguments peers C : clear implicits.
Arguments nworld C : clear implicits.
Arguments nlabel C : clear implicits.
