(* ===== verification/PeersNetThms.v ===== *)
(** * The peers over the network are a cluster

    Every run of the peers over labrpc is a schedule of the cluster of Cluster.v:
    what is on its way in goroutines, calls, methods and answers is the cluster's
    bag of calls in flight. *)
From Stdlib Require Import Strings.String.
From stdpp Require Import pretty.
From S2P Require Import Prelude Labrpc RpcWorld GoString Ballot Messages Persister OmniPaxos OmniPaxosInv Cluster Agreement Safety Harness PeersNet.

Section sim.
Context {C : Type} {codec : StateCodec C} {rpc : RpcCodec C}.
Context (n : nat) (endname : Z → nat → Z → string) (strict : bool).
Implicit Types c : cluster C.
Implicit Types w : nworld C.
Implicit Types p q : packet C.
Implicit Types kp : nat * packet C.
Implicit Types x : Z * nat.

Definition distinct_ends : Prop := ∀ i k j i' k' j', endname i k j = endname i' k' j' → i = i' ∧ k = k' ∧ j = j'.
Hypothesis names_distinct : distinct_ends.
Hypothesis few : in64 (Z.of_nat n).

Definition creach c : Prop := if strict then ordered_reachable n c else reachable n c.

(** The instance that made a packet, and the one that it is for. *)
Definition from kp : Z * nat := (pk_src kp.2, kp.1).
Definition into kp : Z * nat := (pk_dst kp.2, kp.1).

(** ** The tables *)
Record tables_ok (w : nworld C) (r : rpc_world (peers C)) : Prop := {
  tb_conn e s : connections (w_net r) !! e = Some (Some s) → ∃ i k j, idx n j ∧ e = endname i k j ∧ s = srvname j;
  tb_on e : enabled (w_net r) !! e = Some true → ∃ x j, idx n x.1 ∧ idx n j ∧ alive w x = true ∧ e = endname x.1 x.2 j;
  tb_serv s ptr : servers (w_net r) !! s = Some (Some ptr) → ∃ x, idx n x.1 ∧ alive w x = true ∧ s = srvname x.1 ∧ ptr = server_ptr x;
  tb_heap x rs : w_heap r !! server_ptr x = Some rs → services rs = services (peer_server x);
}.

(** A call belongs to the packet it was made for. *)
Record call_of (w : nworld C) (cl : call) kp : Prop := {
  cf_req : c_req cl = request endname kp.1 kp.2;
  cf_server s ptr : c_server cl = Some (s, ptr) → ∃ x, ptr = server_ptr x ∧ x.1 = pk_dst kp.2 ∧ (x.2 ≤ inc w x.1)%nat;
}.

(** A call that may still get a positive answer, or has it. *)
Definition answerable (w : nworld C) (cl : call) : Prop :=
  (∃ s x, c_server cl = Some (s, server_ptr x) ∧ alive w x = true) ∨ c_late cl ≠ None ∨ ∃ r, c_result cl = Some r ∧ rp_ok r = true.

Definition is_hb (m : Msg C) : bool := match m with MHBRequest _ => true | _ => false end.

(** What is on its way: [U] are the calls whose method has not run, [J] the
    goroutines of methods, [R] the heartbeats' answers that have not been read.
    Only what can still reach a running instance has to be on its way in the
    cluster. *)
Definition of_alive w (f : nat * packet C → Z * nat) (l : list (nat * packet C)) : list (packet C) :=
  (filter (λ kp, alive w (f kp) = true) l).*2.

Record in_flight (w : nworld C) (soup : list (packet C)) (U : list (nat * packet C)) (J : list (nat * packet C)) (R : list (nat * packet C)) : Prop := {
  fl_soup : of_alive w from (nw_out w) ++ U.*2 ++ of_alive w into J ++ R.*2 ⊆+ soup;
  fl_jobs : (λ kp, (into kp, pk_msg kp.2)) <$> J = a_jobs (nw_app w);
  fl_nohb : Forall (λ kp, is_hb (pk_msg kp.2) = false) J;
  fl_U id cl kp : w_calls (nw_rpc w) !! id = Some cl → nw_sent w !! id = Some kp → c_ran cl = None →
    c_server cl ≠ None ∨ alive w (from kp) = true → (id, kp.2) ∈ U;
  fl_R id cl rep kp req : w_calls (nw_rpc w) !! id = Some cl → nw_sent w !! id = Some kp → pk_msg kp.2 = MHBRequest req →
    c_ran cl = Some rep → answerable w cl → id ∉ nw_read w → ∃ hb, rep = mkReply true (encode_reply hb) ∧
      (id, mkPacket (pk_dst kp.2) (pk_src kp.2) (MHBReply (hb_Rnd req) (pk_dst kp.2) hb)) ∈ R;
}.

(** Instances are numbered by the starts there have been. *)
Definition started w x : Prop := (x.2 ≤ inc w x.1)%nat.
Record bounded w : Prop := {
  bd_nodes x op : a_nodes (nw_app w) !! x = Some op → started w x;
  bd_jobs : Forall (λ xm, started w xm.1) (a_jobs (nw_app w));
  bd_out : Forall (λ kp, started w (from kp)) (nw_out w);
  bd_sent id kp : nw_sent w !! id = Some kp → started w (from kp);
}.

Record nsim w c : Prop := {
  ns_reach : creach c;
  ns_nodes i : up w i = true → nodes c !! i = a_nodes (nw_app w) !! (i, inc w i);
  ns_saved i ps : nw_saved w !! i = Some ps → ∃ op, nodes c !! i = Some op ∧ op_persister op = ps;
  ns_hist : hist c = nw_hist w;
  ns_flight : ∃ U J R, in_flight w (net c) U J R;
  ns_rpc : rpc_inv (nw_rpc w);
  ns_tables : tables_ok w (nw_rpc w);
  ns_calls id cl : w_calls (nw_rpc w) !! id = Some cl → ∃ kp, nw_sent w !! id = Some kp ∧ call_of w cl kp;
  ns_bounded : bounded w;
}.

(** ** Instances *)
Lemma alive_up w x : alive w x = true → up w x.1 = true ∧ x = (x.1, inc w x.1).
Proof. unfold alive. intros [Hu Hi%bool_decide_eq_true]%andb_true_iff. split; [done|]. destruct x; simpl in *. by subst. Qed.

Lemma up_alive w i : up w i = true → alive w (i, inc w i) = true.
Proof. unfold alive. simpl. intros ->. by apply bool_decide_eq_true. Qed.

Lemma server_ptr_inj x y : server_ptr x = server_ptr y → x = y.
Proof. apply (inj encode). Qed.

Lemma alive_node w c x : nsim w c → alive w x = true → nodes c !! x.1 = a_nodes (nw_app w) !! x.
Proof. intros Hs [Hu Hx]%alive_up. rewrite (ns_nodes _ _ Hs) by done. by rewrite <-Hx. Qed.

Lemma of_alive_app w f l l' : of_alive w f (l ++ l') = of_alive w f l ++ of_alive w f l'.
Proof. unfold of_alive. by rewrite filter_app, fmap_app. Qed.

Lemma of_alive_one w f kp : of_alive w f [kp] = if alive w (f kp) then [kp.2] else [].
Proof. unfold of_alive. rewrite filter_cons, filter_nil. by destruct (alive w (f kp)). Qed.

Lemma of_alive_cons w f kp l : of_alive w f (kp :: l) = (if alive w (f kp) then [kp.2] else []) ++ of_alive w f l.
Proof. by rewrite <-of_alive_one, <-of_alive_app. Qed.

Lemma of_alive_delete w f k l kp : l !! k = Some kp →
  of_alive w f l ≡ₚ (if alive w (f kp) then [kp.2] else []) ++ of_alive w f (delete k l).
Proof.
  intros Hk. rewrite <-of_alive_cons. unfold of_alive. by rewrite <-(delete_Permutation _ _ _ Hk).
Qed.

(** Fewer instances run. *)
Lemma of_alive_mono w w' f l : (∀ kp, kp ∈ l → alive w' (f kp) = true → alive w (f kp) = true) → of_alive w' f l ⊆+ of_alive w f l.
Proof.
  induction l as [|kp l IH]; intros Hm; [done|]. rewrite !of_alive_cons.
  apply submseteq_app; [|apply IH; intros ? ?; apply Hm; by right].
  specialize (Hm kp ltac:(by left)). destruct (alive w' (f kp)); [by rewrite Hm|apply submseteq_nil_l].
Qed.

Lemma of_alive_emit w x es : of_alive w from (pair x.2 <$> emit x.1 es) = if alive w x then emit x.1 es else [].
Proof.
  assert (∀ p, p ∈ emit x.1 es → from (x.2, p) = x) as Hx by (intros p [Hp _]%elem_of_emit; unfold from; destruct x; simpl in *; by subst).
  induction (emit x.1 es) as [|p l IH]; [by destruct (alive w x)|].
  rewrite fmap_cons, of_alive_cons, IH, Hx by (intros; try apply Hx; set_solver). simpl. by destruct (alive w x).
Qed.

(** ** Steps of the cluster *)
Lemma creach_wf c : creach c → cluster_wf n c.
Proof. unfold creach. destruct strict; [intros Hr%ordered_reachable_reachable|intros Hr]; by apply reachable_wf. Qed.

Lemma creach_step c ev c' : creach c → (strict = true → ordered c ev) → step ev c = Some c' → creach c'.
Proof. unfold creach. destruct strict; intros Hr Ho Hs; [by eapply ordered_step; [|apply Ho|]|by eapply reachable_step]. Qed.

(** Any packet on its way can be delivered. *)
Lemma deliver_any c `{MapOrder C} p need op op' es : creach c → p :: need ⊆+ net c → nodes c !! pk_dst p = Some op →
  (strict = true → in_order op (pk_msg p)) → handle (pk_src p) (pk_msg p) op = Some (op', es) →
  ∃ c', creach c' ∧ nodes c' = <[pk_dst p := op']> (nodes c) ∧ hist c' = hist c ++ (pair (pk_dst p) <$> applied es) ∧
    need ++ emit (pk_dst p) es ⊆+ net c'.
Proof.
  intros Hr (rest & Hnet)%submseteq_Permutation Hop Ho Hh.
  assert (p ∈ net c) as (k & Hk)%list_elem_of_lookup by (rewrite Hnet; left).
  exists (commit (pk_dst p) op' es (lose k c)). split; [|split; [done|split; [done|]]].
  - eapply (creach_step c (Deliver _ k)); [done| |simpl; rewrite Hk; simpl; rewrite Hop; simpl; rewrite Hh; done].
    intros Hs p' op1 Hp' Hop1. rewrite Hk in Hp'. injection Hp' as <-. rewrite Hop in Hop1. injection Hop1 as <-. by apply Ho.
  - simpl. apply submseteq_app; [|done]. assert (delete k (net c) ≡ₚ need ++ rest) as ->; [|by apply submseteq_inserts_r].
    apply (Permutation_cons_inv (a := p)). rewrite <-(delete_Permutation _ _ _ Hk). by rewrite Hnet.
Qed.

(** ** Steps that only move a call along *)

(** What such a step may do to a call. *)
Record call_moves w (cl cl' : call) : Prop := {
  cm_ran : c_ran cl' = c_ran cl;
  cm_of kp : call_of w cl kp → call_of w cl' kp;
  cm_server kp : call_of w cl kp → c_server cl' ≠ None → c_server cl ≠ None ∨ alive w (from kp) = true;
  cm_answer kp rep : call_of w cl kp → c_ran cl = Some rep → answerable w cl' → answerable w cl;
}.

Lemma moved_step w c r' : nsim w c → w_app r' = nw_app w → rpc_inv r' → tables_ok w r' →
  (∀ id cl', w_calls r' !! id = Some cl' → ∃ cl, w_calls (nw_rpc w) !! id = Some cl ∧ call_moves w cl cl') → nsim (set_rpc r' w) c.
Proof.
  intros [H1 H2 H3 H4 (U & J & R & [F1 F2 F3 F4 F5]) H5 H6 H7 [B1 B2 B3 B4]] Ha Hi Ht Hc. split; try done.
  - intros i Hi'. unfold nw_app. simpl. rewrite Ha. by apply H2.
  - exists U, J, R. split; [exact F1|unfold nw_app; simpl; by rewrite Ha|done| |].
    + intros id cl' kp (cl & Hcl & Hm)%Hc Hp Hn Hl. destruct (H7 id cl Hcl) as (kp' & Hp' & Hof).
      simpl in Hp. rewrite Hp in Hp'. injection Hp' as <-. apply (F4 id cl); [done|done|by rewrite <-(cm_ran _ _ _ Hm)|].
      destruct Hl as [Hs|]; [|by right]. by eapply cm_server.
    + intros id cl' rep kp req (cl & Hcl & Hm)%Hc Hp Hreq Hr Hans. destruct (H7 id cl Hcl) as (kp' & Hp' & Hof).
      simpl in Hp. rewrite Hp in Hp'. injection Hp' as <-. rewrite (cm_ran _ _ _ Hm) in Hr.
      apply (F5 id cl); [done..|]. by eapply cm_answer.
  - by destruct Ht; split.
  - intros id cl' (cl & Hcl & Hm)%Hc. destruct (H7 id cl Hcl) as (kp & Hp & Hcp). exists kp. split; [done|].
    by destruct (cm_of _ _ _ Hm kp Hcp); split.
  - split; unfold nw_app; simpl; rewrite ?Ha; done.
Qed.

Lemma srvname_inj i j : idx n i → idx n j → srvname i = srvname j → i = j.
Proof using few. unfold idx, srvname. intros Hi Hj He%Itoa_inj; [done|unfold in64 in *; lia..]. Qed.

(** The network hands a call only to the running instance of the callee, and only
    for a running instance. *)
Lemma process_routes w r cl kp drop s ptr : tables_ok w r → c_req cl = request endname kp.1 kp.2 →
  processReq_start (c_req cl) drop (w_net r) = Some (s, ptr) →
  alive w (from kp) = true ∧ ∃ x, ptr = server_ptr x ∧ x.1 = pk_dst kp.2 ∧ alive w x = true.
Proof using names_distinct few.
  intros Ht Hreq Hp. apply accepts_reaches in Hp as ((Hon & s' & Hs' & Hat) & Hs). rewrite Hs in Hs'. injection Hs' as <-.
  rewrite Hreq in Hs, Hon. simpl in Hs, Hon. destruct (tb_conn _ _ Ht _ _ Hs) as (i & k & j & Hj & He & ->).
  destruct (names_distinct _ _ _ _ _ _ He) as (_ & _ & <-). split.
  - destruct (enabled (w_net r) !! _) as [[]|] eqn:Hon'; try done. destruct (tb_on _ _ Ht _ Hon') as (x & j & _ & _ & Hx & He'). destruct (names_distinct _ _ _ _ _ _ He') as (Hi & Hk & _).
    unfold from. by destruct x; simpl in *; subst.
  - unfold server_at in Hat. destruct (servers (w_net r) !! srvname (pk_dst kp.2)) as [[q|]|] eqn:Hq; try done. injection Hat as <-.
    destruct (tb_serv _ _ Ht _ _ Hq) as (x & Hx & Hlive & He' & ->). exists x. split; [done|]. split; [|done].
    by rewrite (srvname_inj _ _ Hj Hx He').
Qed.

(** A call whose reply is sent back has a server that runs. *)
Lemma replies_alive w r cl name ptr : tables_ok w r → isServerDead (rq_endname (c_req cl)) name ptr (w_net r) = false →
  ∃ x, ptr = server_ptr x ∧ alive w x = true.
Proof.
  intros Ht. unfold isServerDead. intros Hd%bool_decide_eq_false. destruct (decide (server_at name (w_net r) = Some ptr)) as [Hat|]; [|naive_solver].
  unfold server_at in Hat. destruct (servers (w_net r) !! name) as [[q|]|] eqn:Hq; try done. injection Hat as <-.
  destruct (tb_serv _ _ Ht _ _ Hq) as (x & _ & Hx & _ & ->). eauto.
Qed.

(** A step of a call's goroutines, other than the run of the method. *)
Definition quiet (l : label (peers C)) : bool := match l with Run _ => false | l => call_step l end.

(** A call that ends with false, or that nothing is known of yet. *)
Lemma fails_moves w cl : call_moves w cl (set_result failed cl).
Proof.
  split; [done|by intros kp []|by left|]. intros kp rep _ _ [Hs|[Hl|(r & [= <-] & Hok)]]; [by left|by right; left|done].
Qed.

Lemma process_moves w r cl kp drop s ptr rel reord : tables_ok w r → call_of w cl kp → c_ran cl = None → c_server cl = None →
  processReq_start (c_req cl) drop (w_net r) = Some (s, ptr) →
  call_moves w cl (mkCall (c_req cl) true (Some (s, ptr)) rel reord None None None).
Proof using names_distinct few.
  intros Ht Hof Hran Hsv Hp. split; [done| | |intros kp' rep _; by rewrite Hran].
  - intros kp' Hof'. destruct (process_routes _ _ _ kp' _ _ _ Ht (cf_req _ _ _ Hof') Hp) as (_ & x & -> & Hx & Halive).
    split; [apply Hof'|]. simpl. intros s' ptr' [= <- <-]. exists x. split; [done|]. split; [done|].
    apply alive_up in Halive as [_ ->]. done.
  - intros kp' Hof' _. right. by destruct (process_routes _ _ _ kp' _ _ _ Ht (cf_req _ _ _ Hof') Hp).
Qed.

Lemma reply_moves w r cl name ptr rep drop delay res later : tables_ok w r → c_server cl = Some (name, ptr) → 
  processReq_reply (c_req cl) name ptr rep (c_rel cl) (c_reord cl) drop delay (w_net r) = (res, later) →
  call_moves w cl (if later : bool then set_late res cl else set_result res cl).
Proof.
  intros Ht Hsv Hp. assert (later = true ∨ rp_ok res = true → answerable w cl) as Hans.
  { intros Hl. destruct (processReq_reply_ok _ _ _ _ _ _ _ _ _ _ _ Hp Hl) as [_ Hd].
    destruct (replies_alive _ _ _ _ _ Ht Hd) as (x & -> & Hx). left. eauto. }
  destruct later; (split; [done|by intros kp []|by left|]); intros kp rep' _ _ Ha.
  - apply Hans. by left.
  - destruct Ha as [Hs|[Hl|(r' & [= <-] & Hok)]]; [by left|by right; left|]. apply Hans. by right.
Qed.

Lemma quiet_label w c l r' : nsim w c → quiet l = true → rpc_step l (nw_rpc w) = Some r' → nsim (set_rpc r' w) c.
Proof using names_distinct few.
  intros Hsim Hq Hs. pose proof (rpc_step_inv _ _ _ (ns_rpc _ _ Hsim) Hs) as Hinv. pose proof (ns_tables _ _ Hsim) as Ht.
  assert (∀ i cl cl1 r', w_calls (nw_rpc w) !! i = Some cl → call_moves w cl cl1 → w_app r' = nw_app w → rpc_inv r' →
    w_heap r' = w_heap (nw_rpc w) → connections (w_net r') = connections (w_net (nw_rpc w)) →
    enabled (w_net r') = enabled (w_net (nw_rpc w)) → servers (w_net r') = servers (w_net (nw_rpc w)) →
    w_calls r' = <[i := cl1]> (w_calls (nw_rpc w)) → nsim (set_rpc r' w) c) as Hone.
  { intros i cl cl1 r0 Hi Hm Ha Hinv0 Hh Hcn Hen Hsv Hcl. apply moved_step; [done..| |].
    - destruct Ht as [T1 T2 T3 T4]. by split; rewrite ?Hh, ?Hcn, ?Hen, ?Hsv.
    - intros id cl'. rewrite Hcl, lookup_insert. case_decide as Hid; [intros [= <-]; subst id; eauto|]. intros Hcl'. exists cl'. split; [done|].
      split; [done|done|by left|done]. }
  destruct l as [o|p rs|id req|id|id|id drop|id|id|id drop delay|id]; try done; simpl in Hs; apply bind_Some in Hs as (cl & Hcl & Hs).
  - destruct (_ && _); [|done]. injection Hs as <-. by eapply Hone; [|apply fails_moves|..].
  - destruct (c_accepted cl), (c_result cl) eqn:Hr; try done. injection Hs as <-. eapply Hone; [done| |done..].
    split; [done|by intros kp []|by left|]. intros kp rep _ _ [?|[?|(r & ? & ?)]]; [by left|by right; left|done].
  - destruct (c_accepted cl), (c_server cl) eqn:Hsv, (c_result cl); try done.
    assert (c_ran cl = None) as Hran.
    { destruct (c_ran cl) as [rep|] eqn:Hran; [|done].
      destruct (co_ran _ _ _ (ri_calls _ (ns_rpc _ _ Hsim) id cl Hcl) rep Hran) as (? & ? & ? & ? & ? & ? & ? & _). congruence. }
    destruct (ns_calls _ _ Hsim id cl Hcl) as (kp & _ & Hof).
    destruct (processReq_start _ _ _) as [[s ptr]|] eqn:Hp; injection Hs as <-; (eapply Hone; [done| |done..]);
      [by eapply process_moves|apply fails_moves].
  - destruct (c_server cl) as [[s ptr]|], (c_late cl), (c_result cl); try done. destruct (isServerDead _ _ _ _); [|done].
    injection Hs as <-. by eapply Hone; [|apply fails_moves|..].
  - destruct (c_server cl) as [[s ptr]|] eqn:Hsv, (c_ran cl), (c_late cl), (c_result cl); try done.
    destruct (processReq_reply _ _ _ _ _ _ _ _) as [rep later] eqn:Hp. pose proof (reply_moves _ _ _ _ _ _ _ _ _ _ Ht Hsv Hp) as Hm.
    destruct later; injection Hs as <-; (eapply Hone; [done|exact Hm|..]); try done; by destruct (rp_ok rep).
  - destruct (c_late cl) as [r|] eqn:Hl, (c_result cl); try done. injection Hs as <-. eapply Hone; [done| |done..].
    split; [done|by intros kp []|by left|]. intros kp rep _ _ _. right. left. by rewrite Hl.
Qed.

(** ** The run of a method *)
Lemma split_svcMeth (m : Msg C) : split_last_dot (svcMeth m) = Some ("OmniPaxos"%string, meth_name m).
Proof. by destruct m. Qed.

Lemma peer_methods j (m : Msg C) f : svc_methods (peer_service (C := C) j) !! meth_name m = Some f →
  meth_name m ∈ handler_names ∧ f = on_call j (meth_name m).
Proof.
  destruct m; simpl meth_name; intros Hf; (split; [repeat (left || right)|]); vm_compute in Hf |- *; congruence.
Qed.
Lemma dispatch_peer x k p rs (a : peers C) rs' a' rep : services rs = services (peer_server (C := C) x) →
  dispatch (request endname k p) rs a = Some (rs', a', rep) →
  services rs' = services (peer_server (C := C) x) ∧ meth_name (pk_msg p) ∈ handler_names ∧
  ∃ b, on_call x (meth_name (pk_msg p)) (encode_args (pk_msg p)) a = (a', b) ∧ rep = mkReply true b.
Proof.
  intros Hs. unfold dispatch. simpl rq_svcMeth. rewrite split_svcMeth. cbn [mbind option_bind services]. rewrite Hs.
  change (services (peer_server x) !! "OmniPaxos"%string) with (Some (peer_service (C := C) x)). cbn [mbind option_bind].
  unfold svc_dispatch. destruct (svc_methods (peer_service x) !! meth_name (pk_msg p)) as [f|] eqn:Hf; [|done].
  apply peer_methods in Hf as [Hin ->]. simpl rq_args. destruct (on_call _ _ _ _) as [a1 b] eqn:Hon.
  intros [= <- <- <-]. split; [done|]. split; [done|]. by exists b.
Qed.

(** Either the method starts a goroutine, or it answers a heartbeat. *)
Lemma on_call_cases x p (a : peers C) a' b : meth_name (pk_msg p) ∈ handler_names →
  on_call x (meth_name (pk_msg p)) (encode_args (pk_msg p)) a = (a', b) →
  (is_hb (pk_msg p) = false ∧ a' = mkPeers (a_nodes a) (a_jobs a ++ [(x, pk_msg p)])) ∨
  (∃ req, pk_msg p = MHBRequest req ∧ a' = a ∧ ∀ op, a_nodes a !! x = Some op → b = encode_reply (HeartBeatHandler req op)).
Proof.
  intros Hin. unfold on_call. rewrite decode_encode_args by done. destruct (pk_msg p) as [req|r q rep|req|req|req|req|req|req|req|req] eqn:Hm.
  2-10: intros [= <- _]; by left.
  intros Ho. right. exists req. split; [done|]. destruct (a_nodes a !! x) as [op|]; injection Ho as <- <-; (split; [done|]); [|done].
  by intros op' [= <-].
Qed.

Lemma remove_pair {A B} (y : A) (z : B) l : (y, z) ∈ l → ∃ l', l ≡ₚ (y, z) :: l'.
Proof. intros (l1 & l2 & ->)%list_elem_of_split. exists (l1 ++ l2). by rewrite Permutation_middle. Qed.

(** The call [id] has run its method, with the answer [b]. *)
Definition ran_call (w : nworld C) (id : nat) (cl : call) ptr rs (a : peers C) (b : bytes) : rpc_world (peers C) :=
  mkRpc (w_net (nw_rpc w)) (<[ptr := rs]> (w_heap (nw_rpc w))) a
    (<[id := mkCall (c_req cl) (c_accepted cl) (c_server cl) (c_rel cl) (c_reord cl) (Some (mkReply true b)) (c_late cl) (c_result cl)]> (w_calls (nw_rpc w)))
    (w_runs (nw_rpc w) ++ [(id, ptr, w_app (nw_rpc w))]).

Lemma ran_flight w id cl ptr rs a b kp soup soup' U U' J J' R R' : in_flight w soup U J R →
  nw_sent w !! id = Some kp → U ≡ₚ (id, kp.2) :: U' →
  of_alive w from (nw_out w) ++ U'.*2 ++ of_alive w into J' ++ R'.*2 ⊆+ soup' →
  (λ kp, (into kp, pk_msg kp.2)) <$> J' = a_jobs a → Forall (λ kp, is_hb (pk_msg kp.2) = false) J' → (∀ y, y ∈ R → y ∈ R') →
  (∀ req, pk_msg kp.2 = MHBRequest req → answerable w cl → ∃ hb, b = encode_reply hb ∧
    (id, mkPacket (pk_dst kp.2) (pk_src kp.2) (MHBReply (hb_Rnd req) (pk_dst kp.2) hb)) ∈ R') →
  in_flight (set_rpc (ran_call w id cl ptr rs a b) w) soup' U' J' R'.
Proof.
  intros [F1 F2 F3 F4 F5] Hp HU Hsoup Hjobs Hno HR Hhb. split; [exact Hsoup|exact Hjobs|exact Hno| |]; simpl.
  - intros i y kq Hy Hq Hn Hl. rewrite lookup_insert in Hy. case_decide as Hi; [by injection Hy as <-|].
    assert ((i, kq.2) ∈ U) as Hin by (by eapply F4). rewrite HU in Hin. apply elem_of_cons in Hin as [[= <- _]|Hin]; done.
  - intros i y rep kq req Hy Hq Hm Hr Hans Hread. rewrite lookup_insert in Hy. case_decide as Hi.
    + subst i. injection Hy as <-. injection Hr as <-. rewrite Hp in Hq. injection Hq as <-.
      destruct (Hhb req Hm Hans) as (hb & -> & Hin). by exists hb.
    + destruct (F5 i y rep kq req Hy Hq Hm Hr Hans Hread) as (hb & ? & Hin). exists hb. auto.
Qed.

Lemma ran_rest w c c' id cl rs a b kp name x : nsim w c → w_calls (nw_rpc w) !! id = Some cl → c_server cl = Some (name, server_ptr x) →
  nw_sent w !! id = Some kp → call_of w cl kp → services rs = services (peer_server (C := C) x) →
  rpc_inv (ran_call w id cl (server_ptr x) rs a b) → creach c' → nodes c' = nodes c → hist c' = hist c →
  a_nodes a = a_nodes (nw_app w) → Forall (λ xm, started w xm.1) (a_jobs a) →
  (∃ U J R, in_flight (set_rpc (ran_call w id cl (server_ptr x) rs a b) w) (net c') U J R) →
  nsim (set_rpc (ran_call w id cl (server_ptr x) rs a b) w) c'.
Proof.
  intros [H1 H2 H3 H4 _ H5 [T1 T2 T3 T4] H7 [B1 B2 B3 B4]] Hcl Hsv Hp Hof Hrs Hinv Hr Hn Hh Ha Hjobs Hfl.
  split; [done|by rewrite Hn; unfold nw_app; simpl; rewrite Ha|by rewrite Hn|by rewrite Hh|done|done| | |].
  - split; simpl; [done..|]. intros y rs'. rewrite lookup_insert. case_decide as He; [|by apply T4].
    apply server_ptr_inj in He as <-. by intros [= <-].
  - intros i y. simpl. rewrite lookup_insert. case_decide as Hi.
    + intros [= <-]. subst i. exists kp. split; [done|]. destruct Hof. by split.
    + intros Hy. destruct (H7 i y Hy) as (kq & Hq & []). exists kq. split; [done|]. by split.
  - by split; unfold nw_app; simpl; rewrite ?Ha.
Qed.

(** A call that has not run its method, and whose server is down, has no answer. *)
Lemma dead_unanswerable w id cl name x : rpc_inv (nw_rpc w) → w_calls (nw_rpc w) !! id = Some cl → c_ran cl = None →
  c_server cl = Some (name, server_ptr x) → alive w x = false → ¬ answerable w cl.
Proof.
  intros Hinv Hcl Hran Hsv Hx. destruct (ri_calls _ Hinv id cl Hcl) as [_ _ K3 K4]. rewrite Hran in K3, K4.
  intros [(s & y & Hs & Hy)|[Hl|(r & Hr & Hok)]].
  - rewrite Hsv in Hs. injection Hs as _ He%server_ptr_inj. congruence.
  - destruct (c_late cl) as [r|]; [|done]. by specialize (K3 r eq_refl).
  - by specialize (K4 r Hr Hok).
Qed.

(** The callee of a heartbeat runs: its answer is on its way. *)
Lemma heartbeat_answered w c need x p req : nsim w c → p :: need ⊆+ net c → pk_msg p = MHBRequest req → pk_dst p = x.1 → alive w x = true →
  ∃ op c', a_nodes (nw_app w) !! x = Some op ∧ creach c' ∧ nodes c' = nodes c ∧ hist c' = hist c ∧
    need ++ [mkPacket (pk_dst p) (pk_src p) (MHBReply (hb_Rnd req) (pk_dst p) (HeartBeatHandler req op))] ⊆+ net c'.
Proof.
  intros Hsim Hnet Hm Hx Halive. pose proof (ns_reach _ _ Hsim) as H1. assert (p ∈ net c) as Hin by (eapply elem_of_submseteq; [left|done]).
  destruct (cw_net _ _ (creach_wf c H1) p Hin) as (_ & Hdst & _).
  destruct (proj2 (cw_dom _ _ (creach_wf c H1) _) Hdst) as [op Hop]. destruct (cw_node _ _ (creach_wf c H1) _ _ Hop) as (_ & _ & Hme).
  pose proof (alive_node _ _ _ Hsim Halive) as Hnode. rewrite <-Hx, Hop in Hnode. exists op.
  destruct (@deliver_any c list_order p need op op [Send (pk_src p) (MHBReply (hb_Rnd req) (op_me op) (HeartBeatHandler req op))])
    as (c' & Hr' & Hn' & Hh' & Hnet'); [done..|by rewrite Hm|by rewrite Hm|].
  exists c'. split; [done|]. split; [done|]. split; [by rewrite Hn', insert_id|]. split; [rewrite Hh'; simpl; by rewrite app_nil_r|].
  unfold emit in Hnet'. simpl in Hnet'. by rewrite Hme in Hnet'.
Qed.

(** A packet whose method has run has left the calls. *)
Lemma run_step w c id r' : nsim w c → rpc_step (Run id) (nw_rpc w) = Some r' → ∃ c', nsim (set_rpc r' w) c'.
Proof.
  intros Hsim Hs. pose proof (rpc_step_inv _ _ _ (ns_rpc _ _ Hsim) Hs) as Hinv.
  pose proof Hsim as [H1 H2 H3 H4 (U & J & R & Hfl) H5 H6 H7 [B1 B2 B3 B4]].
  simpl in Hs. apply bind_Some in Hs as (cl & Hcl & Hs). destruct (c_server cl) as [[name ptr]|] eqn:Hsv; [|done].
  destruct (c_ran cl) eqn:Hran; [done|]. apply bind_Some in Hs as (rs & Hrs & ([[rs' a'] rep] & Hd & Heq)%bind_Some).
  destruct (H7 id cl Hcl) as (kp & Hp & Hof). pose proof Hof as [Hreq Hptr]. destruct (Hptr _ _ Hsv) as (x & -> & Hx & Hbd).
  rewrite Hreq in Hd. apply (dispatch_peer x) in Hd as (Hrs' & Hin & b & Hon & ->); [|by eapply tb_heap].
  rewrite <-Hsv in Heq. injection Heq as <-.
  destruct (remove_pair id kp.2 U) as [U' HU]; [eapply (fl_U _ _ _ _ _ Hfl); [done..|left; by rewrite Hsv]|].
  pose proof (fl_soup _ _ _ _ _ Hfl) as Hsoup. rewrite HU in Hsoup. simpl in Hsoup.
  destruct (on_call_cases _ _ _ _ _ Hin Hon) as [[Hhb ->]|(req & Hm & -> & Hb)].
  - exists c. eapply ran_rest; [done..| |]; [simpl; apply Forall_app; split; [done|by constructor]|].
    exists U', (J ++ [(x.2, kp.2)]), R. eapply ran_flight; [done..| | | |done|].
    + rewrite of_alive_app, of_alive_one. etrans; [|exact Hsoup]. destruct (alive w _); solve_submseteq.
    + rewrite fmap_app, (fl_jobs _ _ _ _ _ Hfl). simpl. unfold into. simpl. rewrite <-Hx. by destruct x.
    + apply Forall_app. split; [apply Hfl|by constructor].
    + intros req Hm. by rewrite Hm in Hhb.
  - destruct (alive w x) eqn:Halive.
    + destruct (heartbeat_answered w c (of_alive w from (nw_out w) ++ U'.*2 ++ of_alive w into J ++ R.*2) x kp.2 req)
        as (op & c' & Hop & Hr' & Hn' & Hh' & Hnet'); [done|etrans; [|exact Hsoup]; solve_submseteq|done..|].
      exists c'. eapply ran_rest; try done. set (q := mkPacket _ _ _) in Hnet'.
      exists U', J, ((id, q) :: R). eapply ran_flight; [done..| | | | |].
      * etrans; [|exact Hnet']. simpl. solve_submseteq.
      * apply Hfl.
      * apply Hfl.
      * intros y Hy. by right.
      * intros req' Hm' _. rewrite Hm in Hm'. injection Hm' as <-. exists (HeartBeatHandler req op). split; [by apply Hb|]. by left.
    + exists c. eapply ran_rest; try done. exists U', J, R. eapply ran_flight; [done..| | | |done|].
      * etrans; [|exact Hsoup]. solve_submseteq.
      * apply Hfl.
      * apply Hfl.
      * intros req' _ Hans. by apply (dead_unanswerable w id cl name x) in Hans.
Qed.

(** ** Steps of an instance *)
Lemma emit_from x es : Forall (λ kp, from kp = x) (pair x.2 <$> emit x.1 es).
Proof.
  apply Forall_fmap, Forall_forall. intros p [Hp _]%elem_of_emit. unfold from. destruct x; simpl in *. by subst.
Qed.

Lemma advance_rest w c c' x op op' es jobs : nsim w c → a_nodes (nw_app w) !! x = Some op → creach c' →
  (∀ i, up w i = true → nodes c' !! i = <[x := op']> (a_nodes (nw_app w)) !! (i, inc w i)) →
  (∀ i ps, nw_saved w !! i = Some ps → nodes c' !! i = nodes c !! i) →
  hist c' = hist c ++ (if alive w x then pair x.1 <$> applied es else []) → Forall (λ xm, started w xm.1) jobs →
  (∃ U J R, in_flight (advance x op' es jobs w) (net c') U J R) → nsim (advance x op' es jobs w) c'.
Proof.
  intros [H1 H2 H3 H4 _ H5 [T1 T2 T3 T4] H7 [B1 B2 B3 B4]] Hop Hr Hn Hs Hh Hj Hf.
  split; [done|exact Hn| |by rewrite Hh, H4|done| |by split| |].
  - intros i ps Hi. simpl in Hi. rewrite (Hs i ps Hi). by apply H3.
  - by eapply same_inv.
  - intros id cl Hcl. destruct (H7 id cl Hcl) as (kp & Hp & []). exists kp. split; [done|]. by split.
  - split; [|exact Hj| |exact B4].
    + unfold nw_app. simpl. intros y opy. rewrite lookup_insert. case_decide as Hy; [subst y; intros _; by eapply B1|apply B1].
    + simpl. apply Forall_app. split; [done|]. eapply Forall_impl; [apply emit_from|]. intros kp ->. by eapply B1.
Qed.

(** A running instance moves as its peer of the cluster does, another one is not
    seen there. *)
Lemma advance_alive w c c' x op op' es jobs : nsim w c → alive w x = true → a_nodes (nw_app w) !! x = Some op → creach c' →
  nodes c' = <[x.1 := op']> (nodes c) → hist c' = hist c ++ (pair x.1 <$> applied es) → Forall (λ xm, started w xm.1) jobs →
  (∃ U J R, in_flight (advance x op' es jobs w) (net c') U J R) → nsim (advance x op' es jobs w) c'.
Proof.
  intros Hsim Halive Hop Hr Hn Hh Hj Hf. destruct (alive_up _ _ Halive) as [Hup Hx].
  eapply advance_rest; [done..| | |by rewrite Halive|done|done].
  - intros i Hi. rewrite Hn. destruct (decide (i = x.1)) as [->|Hne]; [by rewrite <-Hx, !lookup_insert_eq|].
    rewrite !lookup_insert_ne by (done || (intros He; apply Hne; by rewrite He)). by apply (ns_nodes _ _ Hsim).
  - intros i ps Hi. rewrite Hn, lookup_insert_ne; [done|]. intros <-. unfold up in Hup. by rewrite Hi in Hup.
Qed.

Lemma advance_dead w c x op op' es jobs : nsim w c → alive w x = false → a_nodes (nw_app w) !! x = Some op → 
  Forall (λ xm, started w xm.1) jobs → (∃ U J R, in_flight (advance x op' es jobs w) (net c) U J R) → nsim (advance x op' es jobs w) c.
Proof.
  intros Hsim Hdead Hop Hj Hf. eapply advance_rest; [done..|by apply (ns_reach _ _ Hsim)| |done|by rewrite Hdead, app_nil_r|done|done].
  intros i Hi. rewrite lookup_insert_ne; [by apply (ns_nodes _ _ Hsim)|]. intros ->. by rewrite up_alive in Hdead.
Qed.

Lemma advance_flight w soup soup' U J J' R x op es jobs : in_flight w soup U J R →
  of_alive w from (nw_out w) ++ U.*2 ++ of_alive w into J' ++ R.*2 ++ (if alive w x then emit x.1 es else []) ⊆+ soup' →
  (λ kp, (into kp, pk_msg kp.2)) <$> J' = jobs →
  Forall (λ kp, is_hb (pk_msg kp.2) = false) J' → in_flight (advance x op es jobs w) soup' U J' R.
Proof.
  intros [F1 F2 F3 F4 F5] Hs Hj Hn. split; [|exact Hj|exact Hn|exact F4|exact F5]. simpl.
  change (of_alive (advance x op es jobs w)) with (of_alive w). rewrite of_alive_app, of_alive_emit.
  etrans; [|exact Hs]. solve_submseteq.
Qed.

(** The timer, and a proposal. *)
Lemma local_step w c ev x op op' es : nsim w c → a_nodes (nw_app w) !! x = Some op → (∀ c, ordered c ev) →
  (nodes c !! x.1 = Some op → step ev c = Some (commit x.1 op' es c)) → ∃ c', nsim (advance x op' es (a_jobs (nw_app w)) w) c'.
Proof.
  intros Hsim Hop Ho Hs. pose proof Hsim as [H1 H2 H3 H4 (U & J & R & Hfl) _ _ _ HB]. pose proof (fl_soup _ _ _ _ _ Hfl) as Hsoup.
  destruct (alive w x) eqn:Halive.
  - assert (nodes c !! x.1 = Some op) as Hnode by by rewrite (alive_node _ _ _ Hsim Halive).
    exists (commit x.1 op' es c). eapply advance_alive; [done..| |done|done|apply HB|].
    + eapply creach_step; [done|intros _; apply Ho|by apply Hs].
    + exists U, J, R. eapply advance_flight; [done| |apply Hfl..]. rewrite Halive. simpl.
      etrans; [|apply submseteq_skips_r, Hsoup]. solve_submseteq.
  - exists c. eapply advance_dead; [done..|apply HB|]. exists U, J, R. eapply advance_flight; [done| |apply Hfl..].
    by rewrite Halive, app_nil_r.
Qed.

(** The goroutine of a method gets the lock. *)
Lemma handle_src src src' m op `{MapOrder C} : is_hb m = false → handle src m op = handle src' m op.
Proof. by destruct m. Qed.

Lemma delete_fmap {A B} (f : A → B) k (l : list A) : f <$> delete k l = delete k (f <$> l).
Proof. revert k. induction l as [|y l IH]; intros [|k]; simpl; [done..|by rewrite IH]. Qed.

Lemma job_step w c `{MapOrder C} k xm op op' es : nsim w c → a_jobs (nw_app w) !! k = Some xm → a_nodes (nw_app w) !! xm.1 = Some op →
  (strict = true → alive w xm.1 = true → in_order op xm.2) → handle xm.1.1 xm.2 op = Some (op', es) →
  ∃ c', nsim (advance xm.1 op' es (delete k (a_jobs (nw_app w))) w) c'.
Proof.
  intros Hsim Hk Hop Ho Hh. pose proof Hsim as [H1 H2 H3 H4 (U & J & R & Hfl) _ _ _ HB].
  assert (Forall (λ xm, started w xm.1) (delete k (a_jobs (nw_app w)))) as Hjobs.
  { pose proof (bd_jobs _ HB) as Hj. rewrite (delete_Permutation _ _ _ Hk) in Hj. by apply Forall_cons in Hj as [_ ?]. }
  pose proof (fl_jobs _ _ _ _ _ Hfl) as Hfj. rewrite <-Hfj in Hk. apply list_lookup_fmap_Some in Hk as (kp & -> & Hk). simpl in *.
  pose proof (of_alive_delete w into _ _ _ Hk) as HJ. pose proof (delete_Permutation _ _ _ Hk) as HJ'.
  pose proof (fl_nohb _ _ _ _ _ Hfl) as Hf. rewrite HJ' in Hf. apply Forall_cons in Hf as [Hno Hrest].
  pose proof (fl_soup _ _ _ _ _ Hfl) as Hsoup. rewrite HJ in Hsoup.
  destruct (alive w (into kp)) eqn:Halive.
  - destruct (deliver_any c kp.2 (of_alive w from (nw_out w) ++ U.*2 ++ of_alive w into (delete k J) ++ R.*2) op op' es)
      as (c' & Hr' & Hn' & Hh' & Hnet'); [done|etrans; [|exact Hsoup]; solve_submseteq|etrans; [by apply (alive_node w c (into kp))|done]|auto|by rewrite (handle_src _ (pk_dst kp.2))|].
    exists c'. eapply advance_alive; [done..|]. exists U, (delete k J), R. eapply advance_flight; [done| | |done].
    + rewrite Halive. etrans; [|exact Hnet']. solve_submseteq.
    + by rewrite <-Hfj, delete_fmap.
  - exists c. eapply advance_dead; [done..|]. exists U, (delete k J), R. eapply advance_flight; [done| | |done].
    + rewrite Halive, app_nil_r. etrans; [|exact Hsoup]. solve_submseteq.
    + by rewrite <-Hfj, delete_fmap.
Qed.

(** The answer of a heartbeat is read. *)
Lemma read_flight w soup U J R id : in_flight w soup U J R → in_flight (read_answer id w) soup U J R.
Proof.
  intros [F1 F2 F3 F4 F5]. split; [done..|]. intros i cl rep kp req Hcl Hp Hm Hr Ha Hi.
  simpl in Hi. apply not_elem_of_union in Hi as [_ Hi]. by eapply F5.
Qed.

Lemma read_sim w c id : nsim w c → nsim (read_answer id w) c.
Proof.
  intros [H1 H2 H3 H4 (U & J & R & Hfl) H5 [T1 T2 T3 T4] H7 [B1 B2 B3 B4]]. split; try done.
  - exists U, J, R. by apply read_flight.
  - intros i cl Hcl. destruct (H7 i cl Hcl) as (kp & Hp & []). exists kp. split; [done|]. by split.
Qed.
Lemma unread_flight w soup U J R R' id y : in_flight w soup U J R → R ≡ₚ (id, y) :: R' → in_flight (read_answer id w) soup U J R'.
Proof.
  intros [F1 F2 F3 F4 F5] HR. split; [|done..|].
  - etrans; [|exact F1]. rewrite HR. simpl. solve_submseteq.
  - intros i cl rep kp req Hcl Hp Hm Hr Ha Hi. simpl in Hi. apply not_elem_of_union in Hi as [Hne%not_elem_of_singleton Hi].
    destruct (F5 i cl rep kp req Hcl Hp Hm Hr Ha Hi) as (hb & ? & Hin). exists hb. split; [done|].
    rewrite HR in Hin. apply elem_of_cons in Hin as [[= -> _]|Hin]; done.
Qed.

Lemma answer_step w c id kp cl r req rep op : nsim w c → nw_sent w !! id = Some kp → w_calls (nw_rpc w) !! id = Some cl →
  c_result cl = Some r → pk_msg kp.2 = MHBRequest req → rp_ok r = true → id ∉ nw_read w → decode_reply (rp_reply r) = Some rep →
  a_nodes (nw_app w) !! from kp = Some op →
  ∃ c', nsim (advance (from kp) (heartBeatReply (hb_Rnd req) (pk_dst kp.2) rep op) [] (a_jobs (nw_app w)) (read_answer id w)) c'.
Proof.
  intros Hsim Hp Hcl Hres Hm Hok Hread Hdec Hop. pose proof Hsim as [H1 H2 H3 H4 (U & J & R & Hfl) H5 H6 H7 HB].
  pose proof (read_sim w c id Hsim) as Hsim1. destruct (alive w (from kp)) eqn:Halive.
  - pose proof (co_result _ _ _ (ri_calls _ H5 id cl Hcl) r Hres Hok) as Hran.
    destruct (fl_R _ _ _ _ _ Hfl id cl r kp req Hcl Hp Hm Hran) as (hb & -> & HR); [by right; right; exists r|done|].
    simpl in Hdec. rewrite decode_encode_reply in Hdec. injection Hdec as <-. destruct (remove_pair _ _ _ HR) as [R' HR'].
    pose proof (fl_soup _ _ _ _ _ Hfl) as Hsoup. rewrite HR' in Hsoup. simpl in Hsoup.
    set (q := mkPacket (C := C) (pk_dst kp.2) (pk_src kp.2) (MHBReply (hb_Rnd req) (pk_dst kp.2) hb)) in *.
    destruct (@deliver_any c list_order q (of_alive w from (nw_out w) ++ U.*2 ++ of_alive w into J ++ R'.*2) op
      (heartBeatReply (hb_Rnd req) (pk_dst kp.2) hb op) []) as (c' & Hr' & Hn' & Hh' & Hnet');
      [done|etrans; [|exact Hsoup]; solve_submseteq|etrans; [by apply (alive_node w c (from kp))|done]|done|done|].
    exists c'. eapply advance_alive; [done..|apply HB|]. exists U, J, R'. eapply advance_flight; [by eapply unread_flight| |apply Hfl..].
    etrans; [|exact Hnet']. by rewrite (Halive : alive (read_answer id w) _ = _), !app_assoc.
  - exists c. eapply advance_dead; [done..|apply HB|]. exists U, J, R. eapply advance_flight; [by apply read_flight| |apply Hfl..].
    rewrite (Halive : alive (read_answer id w) _ = _), app_nil_r. apply Hfl.
Qed.

(** A goroutine makes its call. *)
Lemma call_step_sim w c id k kp r' : nsim w c → nw_out w !! k = Some kp → rpc_step (RpcWorld.Send id (request endname kp.1 kp.2)) (nw_rpc w) = Some r' →
  nsim (mkNW r' (delete k (nw_out w)) (<[id := kp]> (nw_sent w)) (nw_read w) (nw_hist w) (nw_late w) (nw_inc w) (nw_saved w)) c.
Proof.
  intros Hsim Hk Hs. pose proof Hsim as [H1 H2 H3 H4 (U & J & R & [F1 F2 F3 F4 F5]) H5 [T1 T2 T3 T4] H7 [B1 B2 B3 B4]].
  pose proof (rpc_step_inv _ _ _ H5 Hs) as Hinv. simpl in Hs. destruct (w_calls (nw_rpc w) !! id) eqn:Hnone; [done|]. injection Hs as <-.
  pose proof (delete_Permutation _ _ _ Hk) as Hout. rewrite Hout in B3. apply Forall_cons in B3 as [Hkp B3].
  split; [done..| |exact Hinv|by split| |].
  - exists (if alive w (from kp) then (id, kp.2) :: U else U), J, R. split; [|exact F2|exact F3| |]; simpl.
    + etrans; [|exact F1]. rewrite (of_alive_delete w from _ _ _ Hk).
      change (of_alive (mkNW _ _ _ _ _ _ _ _)) with (of_alive w). destruct (alive w (from kp)); simpl; solve_submseteq.
    + intros i cl kq Hcl Hq Hr Hl. rewrite lookup_insert in Hcl. rewrite lookup_insert in Hq. case_decide.
      * injection Hq as <-. injection Hcl as <-. subst i. destruct Hl as [[]|Hl]; [done|].
        change (alive w (from kp) = true) in Hl. rewrite Hl. left.
      * assert ((i, kq.2) ∈ U) by (by eapply F4). destruct (alive w (from kp)); [by right|done].
    + intros i cl rep kq req Hcl Hq. rewrite lookup_insert in Hcl. rewrite lookup_insert in Hq. case_decide; [by injection Hcl as <-|]. by apply F5.
  - intros i cl. simpl. rewrite !lookup_insert. case_decide.
    + intros [= <-]. exists kp. by split.
    + intros Hcl. destruct (H7 i cl Hcl) as (kq & Hq & []). exists kq. split; [done|]. by split.
  - split; [done..|]. intros i kq. simpl. rewrite lookup_insert. case_decide; [by intros [= <-]|]. apply B4.
Qed.

(** ** Steps of the network *)

(** A step that leaves the calls, the objects and the runs. *)
Lemma tables_step w c r' : nsim w c → w_app r' = nw_app w → w_calls r' = w_calls (nw_rpc w) → w_runs r' = w_runs (nw_rpc w) →
  tables_ok w r' → nsim (set_rpc r' w) c.
Proof.
  intros Hsim Ha Hc Hr Ht. apply moved_step; [done|done| |done|].
  - eapply same_inv; [apply (ns_rpc _ _ Hsim)|done|done].
  - intros id cl'. rewrite Hc. intros Hcl. exists cl'. split; [done|]. split; [done|done|by left|done].
Qed.

Lemma end_step w c i j r' : nsim w c → idx n i → idx n j → up w i = true → let e := endname i (inc w i) j in
  rpc_run [Net (OpMakeEnd e); Net (OpConnect e (srvname j))] (nw_rpc w) = Some r' → nsim (set_rpc r' w) c.
Proof.
  intros Hsim Hi Hj Hup e. simpl. unfold MakeEnd. destruct (decide (e ∈ ends _)); [done|]. intros [= <-].
  destruct (ns_tables _ _ Hsim) as [T1 T2 T3 T4]. apply (tables_step w c); [done..|]. split; simpl; [| |exact T3|exact T4].
  - intros e' s. rewrite insert_insert_eq, lookup_insert. case_decide as He; [|apply T1].
    intros [= <-]. by exists i, (inc w i), j.
  - intros e'. rewrite lookup_insert. case_decide; [done|]. apply T2.
Qed.

Lemma enable_step w c i j on r' : nsim w c → idx n i → idx n j → up w i = true →
  rpc_step (Net (OpEnable (endname i (inc w i) j) on)) (nw_rpc w) = Some r' → nsim (set_rpc r' w) c.
Proof.
  intros Hsim Hi Hj Hup. simpl. intros [= <-].
  destruct (ns_tables _ _ Hsim) as [T1 T2 T3 T4]. apply (tables_step w c); [done..|]. split; simpl; [exact T1| |exact T3|exact T4].
  intros e. rewrite lookup_insert. case_decide as He; [|apply T2]. intros _. exists (i, inc w i), j.
  split; [done|]. split; [done|]. split; [by apply up_alive|done].
Qed.

Lemma serve_step w c j r' : nsim w c → idx n j → up w j = true → let x := (j, inc w j) in
  rpc_run [NewServer (server_ptr x) (peer_server x); Net (OpAddServer (srvname j) (server_ptr x))] (nw_rpc w) = Some r' →
  nsim (set_rpc r' w) c.
Proof.
  intros Hsim Hj Hup x. cbn [rpc_run rpc_step net_apply mbind option_bind]. destruct (w_heap (nw_rpc w) !! server_ptr x); [done|]. intros [= <-].
  destruct (ns_tables _ _ Hsim) as [T1 T2 T3 T4]. apply (tables_step w c); [done..|]. split; simpl; [exact T1|exact T2| |].
  - intros s ptr. rewrite lookup_insert. case_decide as Hs; [|apply T3]. intros [= <-]. exists x.
    split; [done|]. split; [by apply up_alive|done].
  - intros y rs. rewrite lookup_insert. case_decide as Hp; [|by apply T4]. apply server_ptr_inj in Hp as <-. by intros [= <-].
Qed.

Lemma switch_tables o (m m' : Network) : switch_op o = true → net_apply o m = Some m' → connections m' = connections m ∧
  enabled m' = enabled m ∧ ∀ s ptr, servers m' !! s = Some (Some ptr) → servers m !! s = Some (Some ptr).
Proof.
  destruct o; simpl; intros Hsw Ho; try done; [unfold Cleanup in Ho; destruct (done m); [done|]|..]; injection Ho as <-; (split; [done|]; split; [done|]);
    try done. intros s ptr. simpl. rewrite lookup_insert. by case_decide.
Qed.

Lemma switch_step w c o r' : nsim w c → switch_op o = true → rpc_step (Net o) (nw_rpc w) = Some r' → nsim (set_rpc r' w) c.
Proof.
  intros Hsim Hsw. simpl. intros (m & Hm & [= <-])%bind_Some. destruct (switch_tables _ _ _ Hsw Hm) as (Hc & He & Hs).
  destruct (ns_tables _ _ Hsim) as [T1 T2 T3 T4]. apply (tables_step w c); [done..|]. split; simpl; [by rewrite Hc|by rewrite He| |exact T4].
  intros s ptr Hp%Hs. by apply T3.
Qed.

Lemma rpc_label_step w c l r' : nsim w c → call_step l = true → rpc_step l (nw_rpc w) = Some r' → ∃ c', nsim (set_rpc r' w) c'.
Proof using names_distinct few.
  intros Hsim Hl Hs. destruct (quiet l) eqn:Hq; [exists c; by eapply quiet_label|].
  destruct l; try done. by eapply run_step.
Qed.

(** ** Crashes and starts *)
Lemma alive_crash w i ps x : alive (crash i ps w) x = true → x.1 ≠ i ∧ alive w x = true.
Proof.
  unfold alive, up. simpl. rewrite lookup_insert. case_decide as Hi; [by rewrite bool_decide_eq_false_2|]. done.
Qed.

Lemma crash_alive w i ps x : x.1 ≠ i → alive w x = true → alive (crash i ps w) x = true.
Proof. intros Hi. unfold alive, up. simpl. by rewrite lookup_insert_ne. Qed.

Lemma inc_renew w i j : inc (renew i w) j = if decide (i = j) then S (inc w i) else inc w j.
Proof. unfold inc at 1. simpl. rewrite lookup_insert. by case_decide. Qed.

Lemma alive_renew w i x : alive (renew i w) x = true → x = (i, S (inc w i)) ∨ x.1 ≠ i ∧ alive w x = true.
Proof.
  unfold alive, up. rewrite inc_renew. simpl. intros [Hu%bool_decide_eq_true Hi%bool_decide_eq_true]%andb_true_iff.
  case_decide as Hx; [left; destruct x; simpl in *; by subst|right]. rewrite lookup_delete_ne in Hu by done.
  split; [done|]. apply andb_true_iff. split; by apply bool_decide_eq_true.
Qed.

Lemma renew_alive w i x : x.1 ≠ i → alive w x = true → alive (renew i w) x = true.
Proof. intros Hi. unfold alive, up. rewrite inc_renew, decide_False by done. simpl. by rewrite lookup_delete_ne. Qed.

(** Fewer of the instances that have been started run. *)
Lemma fewer_flight w w' c U J R : nsim w c → in_flight w (net c) U J R → nw_rpc w' = nw_rpc w → nw_out w' = nw_out w → nw_sent w' = nw_sent w →
  nw_read w' = nw_read w → (∀ x, started w x → alive w' x = true → alive w x = true) → in_flight w' (net c) U J R.
Proof.
  intros [_ _ _ _ _ _ _ H7 [B1 B2 B3 B4]] [F1 F2 F3 F4 F5] Hrpc Hout Hsent Hread Hal.
  rewrite Forall_forall in B2. rewrite Forall_forall in B3. split; [|by unfold nw_app; rewrite Hrpc|done| |]; rewrite ?Hrpc, ?Hout, ?Hsent, ?Hread.
  - etrans; [|exact F1]. apply submseteq_app; [|apply submseteq_skips_l, submseteq_skips_r].
    + apply of_alive_mono. intros kp Hkp. by apply Hal, B3.
    + apply of_alive_mono. intros kp Hkp. apply Hal, (B2 (into kp, pk_msg kp.2)). rewrite <-F2.
      by apply (list_elem_of_fmap_2 (λ kp, (into kp, pk_msg kp.2))).
  - intros id cl kp Hcl Hp Hr [Hs|Hl]; apply (F4 id cl kp Hcl Hp Hr); [by left|right]. apply Hal; [by eapply B4|done].
  - intros id cl rep kp req Hcl Hp Hm Hr Hans. apply (F5 id cl rep kp req Hcl Hp Hm Hr).
    destruct Hans as [(s & x & Hs & Hx)|Hans]; [|by right]. left. exists s, x. split; [done|]. apply Hal; [|done].
    destruct (H7 id cl Hcl) as (kq & _ & [_ Hcf]). by destruct (Hcf _ _ Hs) as (y & <-%server_ptr_inj & _ & Hy).
Qed.

Lemma crash_step w c i op : nsim w c → up w i = true → isolated n endname w i → a_nodes (nw_app w) !! (i, inc w i) = Some op →
  nsim (crash i (op_persister op) w) c.
Proof.
  intros Hsim Hup [Hoff Hsrv] Hop. pose proof Hsim as [H1 H2 H3 H4 (U & J & R & Hfl) H5 [T1 T2 T3 T4] H7 [B1 B2 B3 B4]].
  split; [done| | |done| |done| | |by split].
  - intros j Hj%up_alive%alive_crash. apply H2. destruct Hj as [_ Hj%alive_up]. apply Hj.
  - intros j ps. simpl. rewrite lookup_insert. case_decide as Hj; [|apply H3]. intros [= <-]. subst j. exists op. by rewrite H2.
  - exists U, J, R. eapply fewer_flight; [done..|]. intros x _ Hx. by apply alive_crash in Hx as [_ ?].
  - split; [done| | |done].
    + intros e He. destruct (T2 e He) as (x & j & Hx & Hj & Hal & ->). exists x, j. split; [done|]. split; [done|]. split; [|done].
      apply crash_alive; [|done]. intros <-. destruct (alive_up _ _ Hal) as [_ Hxe]. rewrite Hxe in He. simpl in He.
      rewrite Forall_forall in Hoff. apply (Hoff j); [|done]. apply elem_of_seqZ. unfold idx in Hj. lia.
    + intros s ptr Hs. destruct (T3 s ptr Hs) as (x & Hx & Hal & -> & ->). exists x. split; [done|]. split; [|done].
      apply crash_alive; [|done]. intros <-. unfold server_at in Hsrv. simpl in Hs. by rewrite Hs in Hsrv.
  - intros id cl Hcl. destruct (H7 id cl Hcl) as (kp & Hp & []). exists kp. split; [done|]. by split.
Qed.

Lemma start_flight w c U J R i op es : nsim w c → in_flight w (net c) U J R → 
  in_flight (advance (i, S (inc w i)) op es (a_jobs (nw_app w)) (renew i w)) (net c ++ emit i es) U J R.
Proof.
  intros Hsim Hfl. assert (in_flight (renew i w) (net c) U J R) as Hfl1.
  { eapply fewer_flight; [done..|]. intros x Hx [->|[_ ?]]%alive_renew; [|done]. unfold started in Hx. simpl in Hx. lia. }
  eapply advance_flight; [done| |apply Hfl..].
  etrans; [|apply submseteq_skips_r, (fl_soup _ _ _ _ _ Hfl1)]. case_match; solve_submseteq.
Qed.

Lemma start_step w c i ps op es : nsim w c → nw_saved w !! i = Some ps → Make n i ps = Some (op, es) →
  nsim (advance (i, S (inc w i)) op es (a_jobs (nw_app w)) (renew i w)) (commit i op es c).
Proof.
  intros Hsim Hps Hm. pose proof Hsim as [H1 H2 H3 H4 (U & J & R & Hfl) H5 [T1 T2 T3 T4] H7 [B1 B2 B3 B4]].
  destruct (H3 i ps Hps) as (old & Hold & Hp). destruct (cw_node _ _ (creach_wf c H1) _ _ Hold) as (_ & Hnp & Hme).
  assert (∀ x, started w x → started (renew i w) x) as Hmono.
  { intros x. unfold started. rewrite inc_renew. case_decide as Hx; [|done]. rewrite Hx. apply Nat.le_le_succ_r. }
  assert (∀ x, alive w x = true → alive (renew i w) x = true) as Hkeep.
  { intros x Hx. apply renew_alive; [|done]. intros <-. apply alive_up in Hx as [Hu _]. unfold up in Hu. by rewrite Hps in Hu. }
  assert (alive (renew i w) (i, S (inc w i)) = true) as Hnew.
  { unfold alive, up. rewrite inc_renew, decide_True by done. simpl. rewrite lookup_delete_eq. by rewrite !bool_decide_eq_true_2. }
  split; [|intros j Hj|intros j ps' Hj| | |by eapply same_inv| | |].
  - eapply (creach_step c (Restart i)); [done|done|]. simpl. rewrite Hold. simpl. by rewrite Hnp, Hme, Hp, Hm.
  - simpl. unfold nw_app. simpl. change (inc (advance _ _ _ _ _) j) with (inc (renew i w) j). rewrite inc_renew.
    case_decide as Hi; [subst j; by rewrite !lookup_insert_eq|]. rewrite !lookup_insert_ne by (done || by intros [= ->]).
    apply H2. change (up (renew i w) j = true) in Hj. unfold up in Hj. simpl in Hj. by rewrite lookup_delete_ne in Hj.
  - simpl in Hj. apply lookup_delete_Some in Hj as [Hne Hj]. simpl. rewrite lookup_insert_ne by done. by apply H3.
  - simpl. rewrite Hnew, H4. done.
  - exists U, J, R. by apply start_flight.
  - split; [done| | |done].
    + intros e He. destruct (T2 e He) as (x & j & Hx & Hj & Hal & ->). exists x, j. split; [done|]. split; [done|]. split; [|done]. by apply Hkeep.
    + intros s ptr Hs. destruct (T3 s ptr Hs) as (x & Hx & Hal & -> & ->). exists x. split; [done|]. split; [|done]. by apply Hkeep.
  - intros id cl Hcl. destruct (H7 id cl Hcl) as (kp & Hkp & [Hreq Hsv]). exists kp. split; [done|]. split; [done|].
    intros s ptr Hs. destruct (Hsv s ptr Hs) as (x & ? & ? & Hx). exists x. split; [done|]. split; [done|]. by apply Hmono.
  - split.
    + unfold nw_app. simpl. intros x opx. rewrite lookup_insert. case_decide as Hx; [|intros Ho; by eapply Hmono, B1].
      intros _. subst x. unfold started. change (inc (advance _ _ _ _ _)) with (inc (renew i w)). rewrite inc_renew. by rewrite decide_True.
    + simpl. eapply Forall_impl; [exact B2|]. intros xm. apply Hmono.
    + simpl. apply Forall_app. split; [eapply Forall_impl; [exact B3|]; intros kp; apply Hmono|].
      eapply Forall_impl; [apply (emit_from (i, S (inc w i)))|]. intros kp ->. apply alive_up in Hnew as [_ Hx].
      unfold started. change (inc (advance _ _ _ _ _)) with (inc (renew i w)). rewrite inc_renew. by rewrite decide_True.
    + intros id kp Hid. eapply Hmono, B4, Hid.
Qed.

(** ** Every run of the peers is a schedule of the cluster *)
Lemma nstep_sim w c l w' : nsim w c → nstep n endname strict l w = Some w' → ∃ c', nsim w' c'.
Proof using names_distinct few.
  intros Hsim. destruct l as [i j|j|i j on|o|i|i|id k|l|ord k|id|x|x cmd]; cbn [nstep].
  - case_decide as Hij; [|done]. intros (r & Hr & [= <-])%bind_Some. exists c. destruct Hij as (? & ? & ?). by apply (end_step w c i j).
  - case_decide as Hj; [|done]. intros (r & Hr & [= <-])%bind_Some. exists c. destruct Hj. by apply (serve_step w c j).
  - case_decide as Hij; [|done]. intros (r & Hr & [= <-])%bind_Some. exists c. destruct Hij as (? & ? & ?). by apply (enable_step w c i j on).
  - destruct (switch_op o) eqn:Ho; [|done]. intros (r & Hr & [= <-])%bind_Some. exists c. by eapply switch_step.
  - case_decide as Hi; [|done]. intros (op & Hop & [= <-])%bind_Some. exists c. destruct Hi. rewrite Copy_id. by apply crash_step.
  - intros (ps & Hps & ([op es] & Hm & [= <-])%bind_Some)%bind_Some. rewrite Copy_id in Hm. eexists. by eapply start_step.
  - intros (kp & Hp & (r & Hr & [= <-])%bind_Some)%bind_Some. exists c. by eapply call_step_sim.
  - destruct (call_step l) eqn:Hl; [|done]. intros (r & Hr & [= <-])%bind_Some. by eapply rpc_label_step.
  - intros (xm & Hxm & (op & Hop & Hx)%bind_Some)%bind_Some. destruct (strict && _ && _) eqn:Ho; [done|].
    apply bind_Some in Hx as ([op' es] & Hh & [= <-]). eapply job_step; [done..| |done].
    intros Hs Ha. rewrite Hs, Ha in Ho. simpl in Ho. apply negb_false_iff in Ho. by apply bool_decide_eq_true in Ho.
  - intros (kp & Hp & (cl & Hcl & (r & Hr & Hx)%bind_Some)%bind_Some)%bind_Some.
    destruct (pk_msg kp.2) as [req|? ? ?|?|?|?|?|?|?|?|?] eqn:Hm; try done. destruct (rp_ok r) eqn:Hok; [|done].
    case_bool_decide as Hread; [|done]. simpl in Hx. apply bind_Some in Hx as (rep & Hdec & (op & Hop & [= <-])%bind_Some).
    exact (answer_step w c id kp cl r req rep op Hsim Hp Hcl Hr Hm Hok Hread Hdec Hop).
  - intros (op & Hop & ([op' es] & Hx & [= <-])%bind_Some)%bind_Some. eapply (local_step _ _ (Timer x.1)); [done..|].
    intros Hnode. simpl. rewrite Hnode. simpl. by rewrite Hx.
  - intros (op & Hop & ([[ok op'] es] & Hx & [= <-])%bind_Some)%bind_Some. eapply (local_step _ _ (Propose x.1 cmd)); [done..|].
    intros Hnode. simpl. rewrite Hnode. simpl. by rewrite Hx.
Qed.

Lemma ninit_sim : nsim (ninit n) (init_cluster n).
Proof.
  assert (∀ i k, a_nodes (nw_app (ninit (C := C) n)) !! (i, k) = if decide (k = 0%nat) then nodes (init_cluster (C := C) n) !! i else None) as Hnodes.
  { intros i k. unfold ninit, nw_app. simpl. case_decide as Hk; [subst k; apply (lookup_kmap (λ i, (i, 0%nat)))|].
    apply eq_None_not_Some. intros [op (j & [= _ ->] & _)%lookup_kmap_Some]; [done|apply _]. }
  split; [| | |done| |apply rpc_init_inv| | |].
  - unfold creach. destruct strict; by constructor.
  - intros i _. rewrite Hnodes. done.
  - intros i ps. unfold ninit. simpl. by rewrite lookup_empty.
  - exists [], [], []. split; unfold ninit; simpl; [done|done|by constructor|intros id cl kp; by rewrite lookup_empty|].
    intros id cl rep kp req. by rewrite lookup_empty.
  - split; unfold ninit; simpl; [intros e s|intros e|intros s ptr|intros x rs]; by rewrite lookup_empty.
  - intros id cl. unfold ninit. simpl. by rewrite lookup_empty.
  - split; [|by constructor..|].
    + intros [i k] op. rewrite Hnodes. case_decide; [|done]. intros _. subst k. unfold started. simpl. lia.
    + intros id kp. unfold ninit. simpl. by rewrite lookup_empty.
Qed.

Lemma nrun_sim ls w c w' : nsim w c → nrun n endname strict ls w = Some w' → ∃ c', nsim w' c'.
Proof using names_distinct few.
  revert w c. induction ls as [|l ls IH]; intros w c Hsim; simpl; [intros [= <-]; by exists c|].
  intros (w1 & H1 & Hrun)%bind_Some. destruct (nstep_sim _ _ _ _ Hsim H1) as [c1 Hc1]. by eapply IH.
Qed.
End sim.

(** ** The theorem *)

(** C9 Whatever the network does with the calls (it drops requests and replies,
    disables ends, deletes servers, delays and reorders), and however often peers
    are crashed and started again while their old instances run on, every run of
    the peers over labrpc ends in the running peers, and the [ApplyMsg]s that
    peers sent before they were killed, of a reachable cluster.  When every
    [Accept] and [AcceptSync] that a running peer acts on is in order (an
    [Accept] carries exactly the next index of the log, an [AcceptSync] leaves no
    gap and does not shorten the log inside a round), the cluster is one that the
    agreement theorems are about.  Nothing is said of what a killed instance
    still sends to its own [applyCh]. *)
Theorem peers_over_labrpc {C} {codec : StateCodec C} {rpc : RpcCodec C} (n : nat) (endname : Z → nat → Z → string) (strict : bool) ls (w : nworld C) :
  distinct_ends endname → in64 (Z.of_nat n) → nrun n endname strict ls (ninit n) = Some w →
  ∃ c : cluster C, (if strict then ordered_reachable n c else reachable n c) ∧ hist c = nw_hist w ∧
    ∀ i, up w i = true → nodes c !! i = a_nodes (nw_app w) !! (i, inc w i).
Proof.
  intros Hd Hn Hrun. destruct (nrun_sim n endname strict Hd Hn _ _ _ _ (ninit_sim n endname strict) Hrun) as [c [Hr Hno _ Hh _ _ _ _]].
  by exists c.
Qed.

(** So agreement holds of the peers over the network. *)
Corollary labrpc_agreement {C} {codec : StateCodec C} {rpc : RpcCodec C} (n : nat) (endname : Z → nat → Z → string) ls (w : nworld C) i j a b :
  Nat.Odd n → distinct_ends endname → in64 (Z.of_nat n) → nrun n endname true ls (ninit n) = Some w →
  (i, a) ∈ nw_hist w → (j, b) ∈ nw_hist w → CommandIndex a = CommandIndex b → Command a = Command b.
Proof.
  intros Hodd Hd Hn Hrun. destruct (nrun_sim n endname true Hd Hn _ _ _ _ (ninit_sim n endname true) Hrun) as [c [Hr _ _ <- _ _ _ _ _]].
  destruct (ordered_Inv n Hodd c Hr) as [g Hg]. intros Ha Hb He. by eapply (hist_entry n Hodd g c i j).
Qed.

(** ** An example *)

(** A codec for commands that can be counted. *)
Definition ballot_list (b : Ballot) : list Z := [bN b; bPid b].
Definition msg_tuple {C} (m : Msg C) : Z * list Z * list C :=
  match m with
  | MHBRequest q => (0, [hb_Rnd q], [])
  | MHBReply r p q => (1, [r; p; hbr_Rnd q; hbr_Ballot q; if hbr_Q q then 1 else 0], [])
  | MPrepare q => (2, [pr_L q] ++ ballot_list (pr_N q) ++ ballot_list (pr_AccRnd q) ++ [pr_LogIdx q; pr_DecIdx q], [])
  | MPromise q => (3, [pm_F q] ++ ballot_list (pm_N q) ++ ballot_list (pm_AccRnd q) ++ [pm_LogIdx q; pm_DecIdx q], pm_Sfx q)
  | MAcceptSync q => (4, [as_L q] ++ ballot_list (as_N q) ++ [as_SyncIdx q], as_Sfx q)
  | MDecide q => (5, [dc_L q] ++ ballot_list (dc_N q) ++ [dc_DecIdx q], [])
  | MAccepted q => (6, [ad_F q] ++ ballot_list (ad_N q) ++ [ad_LogIdx q], [])
  | MAccept q => (7, [ac_L q] ++ ballot_list (ac_N q) ++ [ac_Idx q], [ac_C q])
  | MPrepareReq q => (8, [pq_F q], [])
  | MReconnected q => (9, [rc_F q], [])
  end.
Definition tuple_msg {C} (t : Z * list Z * list C) : option (Msg C) :=
  match t with
  | (0, [r], _) => Some (MHBRequest (mkHBRequest r))
  | (1, [r; p; rr; b; q], _) => Some (MHBReply r p (mkHBReply rr b (bool_decide (q = 1))))
  | (2, [l; n1; n2; a1; a2; i; d], _) => Some (MPrepare (mkPrepareRequest l (mkBallot n1 n2) (mkBallot a1 a2) i d))
  | (3, [f; n1; n2; a1; a2; i; d], s) => Some (MPromise (mkPromiseRequest f (mkBallot n1 n2) (mkBallot a1 a2) i d s))
  | (4, [l; n1; n2; i], s) => Some (MAcceptSync (mkAcceptSyncRequest l (mkBallot n1 n2) s i))
  | (5, [l; n1; n2; d], _) => Some (MDecide (mkDecideRequest l (mkBallot n1 n2) d))
  | (6, [f; n1; n2; i], _) => Some (MAccepted (mkAcceptedRequest f (mkBallot n1 n2) i))
  | (7, [l; n1; n2; i], [c]) => Some (MAccept (mkAcceptRequest l (mkBallot n1 n2) i c))
  | (8, [f], _) => Some (MPrepareReq (mkPrepareReqRequest f))
  | (9, [f], _) => Some (MReconnected (mkReconnectedRequest f))
  | _ => None
  end.

Lemma tuple_msg_tuple {C} (m : Msg C) : tuple_msg (msg_tuple m) = Some m.
Proof.
  destruct m as [[]|r p [rr b []]|[? [] [] ? ?]|[? [] [] ? ? ?]|[? [] ? ?]|[? [] ?]|[? [] ?]|[? [] ? ?]|[]|[]]; reflexivity.
Qed.

#[export] Instance countable_rpc `{Countable C} : RpcCodec C.
Proof.
  refine {|
    encode_args m := pos_bytes (encode (msg_tuple m));
    decode_args _ b := decode (bytes_pos b) ≫= tuple_msg;
    encode_reply r := pos_bytes (encode (hbr_Rnd r, hbr_Ballot r, hbr_Q r));
    decode_reply b := t ← decode (A := Z * Z * bool) (bytes_pos b); Some (mkHBReply t.1.1 t.1.2 t.2);
    dummy_reply := [] |}.
  - intros m _. rewrite bytes_pos_bytes, decode_encode. apply tuple_msg_tuple.
  - intros []. by rewrite bytes_pos_bytes, decode_encode.
Defined.

(** Two peers: peer 1 takes the lead, its heartbeat is answered, its [Prepare] is
    promised, the command it proposes is accepted and applied by both, and the
    last request is dropped.  Then peer 0 is crashed and started again, and
    applies the command a second time; its old instance goes on, and what it
    sends is not accepted any more. *)
Definition example_end (i : Z) (k : nat) (j : Z) : string := pretty (N.pos (encode (i, k, j))).
Definition request_arrives (id k : nat) : list (nlabel Z) :=
  [NCall id k; NRpc (Accept id); NRpc (Process id false); NRpc (Run id); NRpc (Reply id false false)].
Definition request_handled (id k : nat) : list (nlabel Z) := request_arrives id k ++ [NJob list_order 0].
Definition example_run : list (nlabel Z) :=
  [NEnd 0 1; NEnd 1 0; NServe 0; NServe 1; NNet (OpReliable false); NEnable 1 0 true; NEnable 0 1 true; NTimer (1, 0%nat)] ++
  request_handled 1 0 ++ request_arrives 2 0 ++ [NAnswer 2] ++ request_handled 3 0 ++ [NPropose (1, 0%nat) 42] ++
  request_handled 4 1 ++ request_handled 5 1 ++ request_handled 6 2 ++ request_handled 7 3 ++
  [NCall 8 0; NRpc (Accept 8); NRpc (Process 8 true)] ++
  [NEnable 0 1 false; NEnable 1 0 false; NNet (OpDeleteServer (srvname 0)); NCrash 0; NStart 0; NEnd 0 1; NServe 0; NTimer (0, 0%nat);
   NCall 9 2; NRpc (Accept 9); NRpc (Process 9 false)].

Lemma example_ends : distinct_ends example_end.
Proof.
  intros i k j i' k' j' He. unfold example_end in He. apply (inj pretty) in He. injection He as He. apply (inj encode) in He. by injection He.
Qed.

Definition example_applied (w : nworld Z) : list (Z * Z * Z) :=
  (λ x, (x.1, Command x.2, CommandIndex x.2)) <$> nw_hist w.

Lemma example_run_applies : (w ← nrun 2 example_end true example_run (ninit 2); Some (example_applied w, c_result <$> w_calls (nw_rpc w) !! 9%nat)) =
  Some ([(1, 42, 0); (0, 42, 0); (0, 42, 0)], Some (Some failed)).
Proof. vm_compute. reflexivity. Qed.

Lemma peers_over_labrpc_witness : ∃ w : nworld Z, nrun 2 example_end true example_run (ninit 2) = Some w ∧
  example_applied w = [(1, 42, 0); (0, 42, 0); (0, 42, 0)] ∧ ∃ c : cluster Z, ordered_reachable 2 c ∧ hist c = nw_hist w ∧
    ∀ i, up w i = true → nodes c !! i = a_nodes (nw_app w) !! (i, inc w i).
Proof.
  pose proof example_run_applies as H. destruct (nrun 2 example_end true example_run (ninit 2)) as [w|] eqn:Hr; [|discriminate H].
  injection H as H _. exists w. split; [reflexivity|]. split; [exact H|].
  assert (in64 (Z.of_nat 2)) as Hn by (unfold in64; lia).
  exact (peers_over_labrpc 2 example_end true example_run w example_ends Hn Hr).
Defined.
